(* ===== verification/_CoqProject ===== *)
-Q . S2P
Prelude.v
Cache.v
CacheSpec.v
CacheProps.v
CacheHeld.v
Float64.v
GoStd.v
GoTime.v
GoHeap.v
Hotness.v
HotnessInv.v
HotnessProps.v
HotnessDecay.v
Scorer.v
Compatibility.v
CachePolicy.v
Config.v
ConfigLoad.v
Metrics.v
Conc.v
Drain.v
DrainList.v
DrainInv.v
DrainProps.v
ServiceBase.v
Redis.v
Service.v
Views.v
ServiceInv.v
ServiceLogic.v
ServiceReads.v
ServiceWrites.v
ViewsLogic.v
Admin.v
ServicePool.v
ServiceDemo.v
AdminProps.v
ServiceProps.v
Proxy.v
ProxyProps.v
ProxyServer.v
ServerProps.v
ConfigProps.v
Lifecycle.v
LifecycleProps.v
GoText.v
Workload.v
WorkloadProps.v
WorkloadRun.v
WorkloadLogic.v
WorkloadCheck.v
Benchmark.v
WorkloadPhase.v
WorkloadRunProps.v
BenchmarkRun.v
BenchmarkProps.v
GoJSON.v
GoJSONValue.v
GoFlag.v
Ctl.v
PurgeBody.v
CtlProps.v
Progress.v
GetLoad.v
GetLoadProps.v
Daemon.v
DaemonProps.v
WorkloadSetup.v
MetricsRegistry.v
HighWater.v
Steps.v
MetricsRun.v
MetricsProps.v
FakeUpstream.v
StatusJSON.v
GoFmt.v
Report.v
Demo.v
