(* ===== verification/Prelude.v ===== *)
(** * Slizen: a verified model of a hot-key cache for Redis

    Slizen is a RESP proxy in front of a Redis-compatible server. It counts how often
    keys are read, finds the hot ones, and serves those from a small local cache,
    under policies that say which prefixes may be cached. This development models
    the daemon and proves what it promises. Go packages are modules of the same
    name; definitions keep the names of the functions they translate.

    ** The program and its parts

    - cmd/slizend reads a configuration (internal/config), builds a [Service]
      (internal/service) over an upstream client (internal/upstream), and runs the
      RESP server (internal/proxy) and the admin HTTP server (internal/admin).
    - A command of a client is parsed and classified by the catalogue
      (internal/compatibility), then answered locally, refused, or handed to the
      service. Reads go through the hotness tracker (internal/hotness), the policy
      matcher (internal/cachepolicy) and the two cache tiers (internal/cache); misses
      are shared between readers by singleflight and refill the tiers. Writes go
      upstream between two invalidations, serialized per stripe by mutation gates;
      stripes of a 256-way hash carry an epoch that cancels stale refills.
    - The drain tracker and the life cycle of the server (internal/proxy) take the
      server down without losing a running command. internal/metrics counts.
    - cmd/slizenctl benchmarks a deployment: workers send generated commands to the
      origin and to Slizen, check every reply, and weigh the counters of both into
      evidence for a reduction of origin GETs. Its other commands read and purge
      through the admin API, or check commands against the catalogue.

    ** Files

    - Prelude: machine integers and their wrap-around, time, bytes, the result monad,
      generic lemmas and tactics. GoStd, GoTime, GoHeap, Float64: the parts of Go's
      standard library the program computes with (strings, strconv, net, sort; time;
      container/heap; float64 and math), Float64 as an interface with an IEEE-754
      instance.
    - Cache (internal/cache/cache.go): the map, the linked list and the byte counter
      of the LRU cache. CacheSpec: the abstract LRU machine. CacheProps: refinement,
      bounds, expiry, round trip. CacheHeld: the view of it that the service uses.
    - Hotness, Scorer (internal/hotness: tracker.go, state.go, scorer.go): the
      tracker with its clock-hand replacement, window catch-up and state machine; the
      ranking of snapshots with a bounded heap. HotnessInv, HotnessProps, HotnessDecay:
      invariants and theorems.
    - CachePolicy, Compatibility, Metrics: internal/cachepolicy, internal/compatibility
      (catalog.go, report.go), internal/metrics.
    - Config, ConfigLoad, ConfigProps (internal/config/config.go): records, defaults,
      [Validate]; the TOML and environment layers and [Load]; their theorems.
    - Conc: goroutines as programs of atomic actions on a shared state, every
      interleaving of a pool of them, and a rely/guarantee logic.
    - ServiceBase, Service (internal/service): policies, tier limits, stripe hash,
      lifetimes, and every request method of service.go as a concurrent program over
      the interfaces [Upstream] and [SingleFlight]. Views: the admin views of
      service.go and audit.go, and internal/privacy. ServiceInv, ServiceLogic,
      ServiceReads, ServiceWrites, ViewsLogic: the invariant of the shared state and
      that every method keeps it. ServicePool: any number of requests and flights.
      ServiceDemo, ServiceProps: a concrete server with a scenario, and the theorems.
    - Redis (internal/upstream/redis.go): the values the client makes of the replies
      of a pipeline.
    - Admin, AdminProps (internal/admin/handlers.go): the HTTP handlers.
    - Drain, DrainList, DrainInv, DrainProps (internal/proxy/drain.go): the drain
      tracker, its pointer list, its invariant and its contract.
    - Proxy, ProxyProps (internal/proxy: commands.go, response.go, server.go): command
      parsing, limits, replies, the handler. ProxyServer, ServerProps: connections,
      dispatch, and the whole server: connections, commands, flights, admin requests
      and drains in every interleaving. Lifecycle, LifecycleProps: Start, Close and
      draining of server.go.
    - GoText: Split, Cut, ParseUint and the like. Workload, WorkloadProps
      (cmd/slizenctl/benchmark.go): the checked configuration of a workload, the request
      at an operation index, payloads. WorkloadRun: the workers of a measured phase and
      of its final validation; WorkloadLogic, WorkloadCheck: their rely/guarantee proofs;
      WorkloadPhase, WorkloadRunProps: the report of a phase and its theorems.
      Benchmark: counters and evidence; BenchmarkRun, BenchmarkProps: the two benchmarks;
      WorkloadSetup: seeding, clients, warming. Progress: goroutines that are never
      blocked, and the end of every pool. GetLoad, GetLoadProps: the hot key load.
    - GoJSON, GoJSONValue, GoFlag: UTF-8 and JSON strings, JSON values, the flag package.
      Ctl, CtlProps (cmd/slizenctl: main.go, audit.go, compatibility.go and the commands
      of benchmark.go): the command line. PurgeBody: the purge request from slizenctl to
      the handler of internal/admin.
    - Daemon, DaemonProps (cmd/slizend/main.go, internal/admin/server.go): the start of
      the daemon, and a state machine of its goroutines and the admin server's.
    - MetricsRegistry: what metrics.go registers, when a call on the Prometheus client
      would panic, and the series it can create. Steps, MetricsRun: a judgement on the
      calls that the programs of the server make, and that all of them meet it;
      MetricsProps: its theorems. HighWater: the compare-and-swap loops of the
      high-water marks as a step relation.
    - StatusJSON: the status from the record of service.go through the JSON text of
      internal/admin to the record of benchmark.go. GoFmt: the verbs of fmt. Report: the
      text reports of benchmark.go. Demo: the demo of main.go as a state machine.
    - FakeUpstream (internal/testutil): the fake clock and the fake upstream of the tests,
      and the key-value store with expiry that it stands for.

    ** What the theorems show

    - Coherence, end to end: whatever clients send, in every interleaving, a value
      held locally for a key whose stripe has no write in progress is the value the
      upstream server holds; the tiers stay within the configured budget, hold a key
      once and only as its policy allows; nothing panics.
    - The cache refines an abstract LRU machine. The tracker is bounded, its counters
      are exact, its window catch-up is exact, HOT keys are not evicted, Go's map iteration order does not show in
      its transitions nor in the ranking. The policy matcher answers with the longest
      prefix, the catalogue search with the catalogued entry.
    - Every command is answered with exactly one complete RESP value; the catalogue
      decides what reaches the service; limits are exact.
    - Draining: the signal is given exactly when nothing is left, and is never lost;
      Start and Close are safe in any order and number. The daemon around them closes
      its service exactly when it returns, reports only an error of an ended server,
      and never hangs while a goroutine could go on.
    - Configuration: validation is exact, loading is layered and rejects malformed
      settings, a valid configuration meets what the other parts assume, the startup
      summary hides secrets. The audit report is exact about one state of the tracker;
      malformed admin requests are refused before they reach the service.
    - Benchmarks: a generated operation addresses a key of the data set with the share
      its scenario names; a payload is recognised exactly under its key and version; in
      every interleaving the counters of a phase are the counts of what was sent and
      answered, so a phase without failures read only fresh values; a benchmark that
      reports a proved reduction did reduce the origin's GETs, in exact arithmetic. The
      hot key load counts exactly, no worker waits for its channel, every schedule ends.
    - The command line: a purge through JSON and the server's limits purges the key it
      names, malformed UTF-8 apart; the compatibility command fails exactly when a
      command is not accepted; answers are decoded only when they are complete. The
      status that the daemon writes is read as exactly the daemon's counters. The text
      report of the hot key benchmark claims a proved reduction exactly when the result
      does and prints figures to the nearest decimal. The demo counts every GET once and
      can always end.
    - Metrics: whatever clients send, no call on the Prometheus client panics and the
      series come from a fixed list; in every state of the server the counters of the
      admin API are the counts that Prometheus was given; the high-water marks end under
      contention and count every total once.
    - The fake upstream of the tests answers proper sequences of operations as a store
      with expiry does.

    ** Assumptions

    Hypotheses of the theorems are about code that is not in the repository. The
    upstream server ([UpstreamLaws], [CommandKeys]): MGET agrees with GET, keys and
    values are at most 512 MB, a SET that answers OK stores its value, a forwarded
    command changes no other keys than those it names, and no key changes or expires
    by itself. The environment ([tick_ok]): map iterations visit each entry once, an
    epoch stays below 2^64 - 1, fewer than 2^63 handlers run at once. The
    configuration ([sane]): a byte budget below 2^62, which validation does not
    check. HMAC and SHA-256 digests have 32 bytes. For the ranking, scores are not NaN. Each such
    theorem has a witness on a concrete instance.

    Auxiliary variables, which no action reads: [unsettled] and [racing] in the
    service (keys whose write is being reconciled), [reserved], [admitted], [owing]
    and [holding] in the drain tracker, [starter], [pendingClose] and [opened] in the
    life cycle, [claimed], [log], [cClaimed], [cTried] and [cLog] in a benchmark phase,
    [lLog] and [lStage] in the hot key load, [received] in the daemon, [oks] and [errs] in
    the demo.

    ** Fuel

    Loops that are not structural take fuel that always suffices: eviction the length
    of the list, the window search the distance it can move, the wake-up loop of a drain one
    more than the objects that exist, the terms of a duration the length of its text,
    heap operations the length of the heap, a worker of a benchmark phase one more than
    the operations it can take, the parsers of JSON the length of the text (twice it for
    values), seeding one more than the keys. Theorems state the result, not only what
    a result satisfies. Fuel of [runAlone] only drives the concrete scenarios.

    ** Not modelled

    Log messages and what goes to stderr, contexts beyond their being done, the
    alignment that text/tabwriter gives the compatibility table (its cells are modelled),
    the content of the Prometheus page, and calls that only hand values to a library
    ([NewRedisClient], [Handler], [NewServer]). Libraries (go-redis, redcon,
    singleflight, Prometheus, TOML, crypto) are interfaces, parameters or outcomes of the
    environment. *)
From stdpp Require Import prelude gmap strings list fin_maps.
From Stdlib Require Import ZArith Lia.
Local Open Scope Z_scope.

(** ** Machine integers

    Go's [int], [int64] and [time.Duration] are 64-bit two's-complement
    integers, [uint64] and [uint32] wrap modulo 2^64 and 2^32. A machine integer
    is a [Z]; [i64], [u64] and [u32] are the wrap-around of an arithmetic result. *)

Definition two63 : Z := 9223372036854775808.
Definition two64 : Z := 18446744073709551616.
Definition two32 : Z := 4294967296.

Definition i64 (z : Z) : Z := (z + two63) mod two64 - two63.
Definition u64 (z : Z) : Z := z mod two64.
Definition u32 (z : Z) : Z := z mod two32.

Definition maxInt64 : Z := two63 - 1.
Definition minInt64 : Z := - two63.

(** [z] is representable as an [int64] (or as an [int], a [time.Duration]). *)
Definition in_i64 (z : Z) : Prop := minInt64 <= z <= maxInt64.

(** [z] is representable as a [uint64]. *)
Definition in_u64 (z : Z) : Prop := 0 <= z < two64.

Declare Scope go_scope.
Delimit Scope go_scope with go.
(** Wrapping arithmetic on [int64] and on [uint64], as Go computes it. *)
Notation "x +i y" := (i64 (x + y)) (at level 50, left associativity) : go_scope.
Notation "x -i y" := (i64 (x - y)) (at level 50, left associativity) : go_scope.
Notation "x *i y" := (i64 (x * y)) (at level 40, left associativity) : go_scope.
Notation "x +u y" := (u64 (x + y)) (at level 50, left associativity) : go_scope.
Global Open Scope go_scope.

Create HintDb slizen.
Create Rewrite HintDb slizen.

Lemma i64_id z : in_i64 z → i64 z = z.
Proof.
  unfold in_i64, i64, maxInt64, minInt64, two63, two64. intros ?.
  rewrite Z.mod_small; lia.
Qed.

Lemma i64_range z : in_i64 (i64 z).
Proof.
  unfold in_i64, i64, maxInt64, minInt64, two63, two64.
  pose proof (Z.mod_pos_bound (z + 9223372036854775808) 18446744073709551616). lia.
Qed.

Lemma u64_id z : in_u64 z → u64 z = z.
Proof. unfold in_u64, u64. intros ?. by apply Z.mod_small. Qed.

Lemma u64_range z : in_u64 (u64 z).
Proof. unfold in_u64, u64. apply Z.mod_pos_bound. unfold two64. lia. Qed.

#[export] Hint Resolve i64_range u64_range : slizen.

(** Unfold the width bounds so that [lia] can use them. *)
Ltac widths :=
  unfold in_i64, in_u64, maxInt64, minInt64, two63, two64, two32 in *.

(** Arithmetic that involves width bounds. *)
Ltac width_lia := widths; lia.

(** Replace a wrapped sum or difference by the exact one where it is in range. *)
Ltac unwrap := repeat (rewrite i64_id by width_lia); repeat (rewrite u64_id by width_lia).

(** ** Time

    [time.Time] is a count of nanoseconds (since the Unix epoch), its range is far
    larger than the 64 bits of a [time.Duration], so it is an unbounded [Z]; a
    [time.Duration] is an [int64] count of nanoseconds. *)

Definition Time := Z.
Definition Duration := Z.

(** [time.Time{}], the zero time, is January 1 of year 1, UTC. *)
Definition zeroTime : Time := -62135596800 * 1000000000.

Definition t_add (t : Time) (d : Duration) : Time := t + d.

(** [Time.Sub] saturates at the extreme durations. *)
Definition t_sub (t u : Time) : Duration := Z.max minInt64 (Z.min maxInt64 (t - u)).

Definition t_before (t u : Time) : bool := t <? u.

Definition Nanosecond : Duration := 1.
Definition Millisecond : Duration := 1000000.
Definition Second : Duration := 1000000000.
Definition Minute : Duration := 60 * Second.

Lemma t_sub_range t u : in_i64 (t_sub t u).
Proof. unfold t_sub. width_lia. Qed.

Lemma t_sub_exact t u : in_i64 (t - u) → t_sub t u = t - u.
Proof. unfold t_sub. width_lia. Qed.

#[export] Hint Resolve t_sub_range : slizen.

(** ** Bytes and strings

    A Go string is a sequence of bytes, a [string] here; a [[]byte] value is a
    list of bytes. [len] counts bytes. *)

Definition bytes := list Byte.byte.
Definition slen (s : string) : Z := Z.of_nat (String.length s).
Definition blen (b : bytes) : Z := Z.of_nat (length b).

(** The conversions [[]byte(s)] and [string(b)]. *)
Definition bytes_of (s : string) : bytes := String.list_byte_of_string s.
Definition string_of (b : bytes) : string := String.string_of_list_byte b.

Lemma string_of_bytes_of s : string_of (bytes_of s) = s.
Proof. apply String.string_of_list_byte_of_string. Qed.

Lemma bytes_of_string_of b : bytes_of (string_of b) = b.
Proof. apply String.list_byte_of_string_of_list_byte. Qed.

Lemma length_bytes_of s : length (bytes_of s) = String.length s.
Proof.
  unfold bytes_of, String.list_byte_of_string. rewrite length_map.
  induction s as [|a s IH]; simpl; [done|]. by f_equal.
Qed.

Lemma blen_bytes_of s : blen (bytes_of s) = slen s.
Proof. unfold blen, slen. by rewrite length_bytes_of. Qed.

#[export] Hint Rewrite string_of_bytes_of bytes_of_string_of length_bytes_of blen_bytes_of : slizen.

(** ** Lists *)

Fixpoint sumZ {A} (f : A → Z) (l : list A) : Z :=
  match l with
  | [] => 0
  | x :: l' => f x + sumZ f l'
  end.

Lemma sumZ_app {A} (f : A → Z) l1 l2 : sumZ f (l1 ++ l2) = sumZ f l1 + sumZ f l2.
Proof. induction l1; simpl; lia. Qed.

Lemma sumZ_nonneg {A} (f : A → Z) l : (∀ x, x ∈ l → 0 <= f x) → 0 <= sumZ f l.
Proof.
  induction l as [|x l IH]; intros H; simpl; [lia|].
  assert (0 <= f x) by (apply H; left).
  assert (0 <= sumZ f l) by (apply IH; intros; apply H; by right). lia.
Qed.

Lemma sumZ_perm {A} (f : A → Z) l1 l2 : l1 ≡ₚ l2 → sumZ f l1 = sumZ f l2.
Proof. induction 1; simpl; lia. Qed.

Lemma sumZ_ext {A} (f g : A → Z) l : (∀ x, x ∈ l → f x = g x) → sumZ f l = sumZ g l.
Proof.
  induction l as [|x l IH]; intros H; simpl; [done|].
  rewrite H by left. rewrite IH; [done|]. intros; apply H; by right.
Qed.

Lemma filter_ne_not_in {A} `{EqDecision A} (x : A) (l : list A) : x ∉ l → filter (.≠ x) l = l.
Proof.
  induction l as [|y l IH]; intros Hx; [done|].
  apply not_elem_of_cons in Hx as [Hne Hx].
  rewrite filter_cons_True by naive_solver. by rewrite IH.
Qed.

Lemma sumZ_filter_ne {A} `{EqDecision A} (f : A → Z) (x : A) (l : list A) :
  NoDup l → x ∈ l → sumZ f l = f x + sumZ f (filter (.≠ x) l).
Proof.
  induction l as [|y l IH]; intros Hnd Hin; [by apply elem_of_nil in Hin|].
  apply NoDup_cons in Hnd as [Hy Hnd]. destruct (decide (y = x)) as [->|Hne].
  - rewrite filter_cons_False by naive_solver. by rewrite filter_ne_not_in.
  - rewrite filter_cons_True by done. apply elem_of_cons in Hin as [->|Hin]; [done|].
    simpl. rewrite (IH Hnd Hin). lia.
Qed.

Lemma length_filter_ne {A} `{EqDecision A} (x : A) (l : list A) :
  NoDup l → x ∈ l → length l = S (length (filter (.≠ x) l)).
Proof.
  intros Hnd Hin. induction l as [|y l IH]; [by apply elem_of_nil in Hin|].
  apply NoDup_cons in Hnd as [Hy Hnd]. destruct (decide (y = x)) as [->|Hne].
  - rewrite filter_cons_False by naive_solver. by rewrite filter_ne_not_in.
  - rewrite filter_cons_True by done. apply elem_of_cons in Hin as [->|Hin]; [done|].
    simpl. by rewrite (IH Hnd Hin).
Qed.

Lemma sumZ_insert {A} (f : A → Z) (l : list A) i x y :
  l !! i = Some x → sumZ f (<[i := y]> l) = sumZ f l - f x + f y.
Proof.
  revert i. induction l as [|z l IH]; intros i Hi; [done|].
  destruct i as [|i]; simpl in *; [simplify_eq; lia|]. rewrite (IH i Hi). lia.
Qed.

(** A 0/1 sum counts: it is between 0 and the length. *)
Lemma sumZ_count_bound {A} (f : A → Z) (l : list A) :
  (∀ x, 0 <= f x <= 1) → 0 <= sumZ f l <= Z.of_nat (length l).
Proof.
  intros Hf. induction l as [|x l IH]; simpl; [lia|]. specialize (Hf x). lia.
Qed.

Lemma bind_ext_in {A B} (f g : A → list B) (l : list A) :
  (∀ x, x ∈ l → f x = g x) → l ≫= f = l ≫= g.
Proof.
  induction l as [|x l IH]; intros Hfg; csimpl; [done|].
  rewrite (Hfg x) by left. f_equal. apply IH. intros. apply Hfg. by right.
Qed.

Lemma imap_ext_in {A B} (f g : nat → A → B) (l : list A) :
  (∀ i x, l !! i = Some x → f i x = g i x) → imap f l = imap g l.
Proof.
  intros Hfg. apply list_eq. intros i. rewrite !list_lookup_imap.
  destruct (l !! i) eqn:E; simpl; [|done]. by rewrite Hfg.
Qed.

(** Split conjunctions and existentials of the context. *)
Ltac break :=
  repeat match goal with
  | H : ∃ _, _ |- _ => destruct H
  | H : _ ∧ _ |- _ => destruct H
  end.

(** Case analysis on the boolean tests of the code, as arithmetic facts. *)
Ltac ztests :=
  repeat match goal with
  | H : (_ <? _) = true |- _ => apply Z.ltb_lt in H
  | H : (_ <? _) = false |- _ => apply Z.ltb_ge in H
  | H : (_ <=? _) = true |- _ => apply Z.leb_le in H
  | H : (_ <=? _) = false |- _ => apply Z.leb_gt in H
  | H : (_ =? _) = true |- _ => apply Z.eqb_eq in H
  | H : (_ =? _) = false |- _ => apply Z.eqb_neq in H
  | H : _ && _ = true |- _ => apply andb_prop in H as [? ?]
  | H : _ || _ = false |- _ => apply orb_false_elim in H as [? ?]
  end.

(** Case analysis on the innermost test of the goal. *)
Ltac case_if :=
  match goal with
  | |- context [if ?b then _ else _] => destruct b eqn:?
  end.

(** ** Results

    Fallible code returns a value or an error; the first error ends the sequence. *)
Inductive res (E A : Type) : Type := Ok (a : A) | Fail (e : E).
Arguments Ok {E A} a.
Arguments Fail {E A} e.

#[export] Instance res_mret {E} : MRet (res E) := λ A a, Ok a.
#[export] Instance res_mbind {E} : MBind (res E) := λ A B k r, match r with Ok a => k a | Fail e => Fail e end.

Lemma bind_Ok {E A B} (r : res E A) (k : A → res E B) b :
  r ≫= k = Ok b ↔ ∃ a, r = Ok a ∧ k a = Ok b.
Proof. destruct r; simpl; naive_solver. Qed.

(** ** Loops

    [loop p f a] runs [f] from [a] until it answers [inr], at most [p] times.
    The bound is binary, so a loop that stops early is cheap to evaluate whatever
    its bound. *)
Fixpoint loop {A B} (p : positive) (f : A → A + B) (a : A) : A + B :=
  match p with
  | xH => f a
  | xO p' => match loop p' f a with inl a' => loop p' f a' | inr b => inr b end
  | xI p' =>
      match f a with
      | inr b => inr b
      | inl a1 => match loop p' f a1 with inl a' => loop p' f a' | inr b => inr b end
      end
  end.

Section loop.
Context {A B : Type} (f : A → A + B).

Lemma loop_invariant (I : A → Prop) (Q : B → Prop) :
  (∀ a, I a → match f a with inl a' => I a' | inr b => Q b end) →
  ∀ p a, I a → match loop p f a with inl a' => I a' | inr b => Q b end.
Proof.
  intros Hf. induction p as [p IH|p IH|]; intros a Ha; simpl.
  - specialize (Hf a Ha). destruct (f a) as [a1|b]; [|done].
    specialize (IH a1 Hf) as H1. destruct (loop p f a1); [by apply IH|done].
  - specialize (IH a Ha) as H1. destruct (loop p f a); [by apply IH|done].
  - by apply Hf.
Qed.

(** A loop whose measure decreases and stays nonnegative stops within a bound
    larger than the initial measure. *)
Lemma loop_terminates (I : A → Prop) (m : A → Z) :
  (∀ a a', I a → f a = inl a' → I a' ∧ 0 <= m a' < m a) →
  ∀ p a, I a → m a < Z.pos p → ∃ b, loop p f a = inr b.
Proof.
  intros Hf p a Ha Hm.
  assert (H : ∀ p a, I a → match loop p f a with
                            | inl a' => I a' ∧ 0 <= m a' <= m a - Z.pos p | inr _ => True end).
  { clear p a Ha Hm. induction p as [p IH|p IH|]; intros a Ha; simpl.
    - destruct (f a) as [a1|b] eqn:E; [|done]. destruct (Hf a a1 Ha E) as [H1 H2].
      specialize (IH a1 H1) as H3. destruct (loop p f a1) as [a2|]; [|done]. destruct H3 as [H3 H4].
      specialize (IH a2 H3). destruct (loop p f a2); [|done]. destruct IH. split; [done|lia].
    - specialize (IH a Ha) as H3. destruct (loop p f a) as [a2|]; [|done]. destruct H3 as [H3 H4].
      specialize (IH a2 H3). destruct (loop p f a2); [|done]. destruct IH. split; [done|lia].
    - destruct (f a) as [a1|b] eqn:E; [|done]. destruct (Hf a a1 Ha E). split; [done|lia]. }
  specialize (H p a Ha). destruct (loop p f a) as [a'|b]; [lia|by exists b].
Qed.

End loop.
