(* ===== verification/Cache.v ===== *)
(** * internal/cache: the bounded LRU cache

    [cache.Cache] is the state of the Go type of the same name. The map from keys
    to list elements and the [container/list] of elements are both kept: an element
    is a pointer (a [nat]), [elems] is the heap those pointers live in, [items] is
    the map [items], [lru] is the list from front (most recent) to back, [next] is
    the next fresh pointer. Every method takes the reading [now] of the clock it
    makes, and the body that the mutex protects is one transition. *)
From stdpp Require Import prelude gmap strings list fin_maps.
From Stdlib Require Import ZArith Lia.
From S2P Require Import Prelude.
Local Open Scope Z_scope.

Module cache.

Definition entryOverheadBytes : Z := 128.

Record EntrySnapshot := mkEntrySnapshot {
  sKey : string;
  sValue : bytes;
  sInsertedAt : Time;
  sExpiresAt : Time;
  sLastAccess : Time;
  sEstimatedSize : Z;
  sAge : Duration;
  sTTL : Duration
}.

Record Stats := mkStats {
  Entries : Z;
  Bytes : Z;
  MaxBytes : Z;
  Evictions : Z
}.

Record entry := mkEntry {
  key : string;
  value : bytes;
  insertedAt : Time;
  expiresAt : Time;
  lastAccess : Time;
  estimatedSize : Z
}.

Record Cache := mkCache {
  maxBytes : Z;
  maxEntries : Z;
  items : gmap string nat;
  elems : gmap nat entry;
  lru : list nat;
  cbytes : Z;
  evictions : Z;
  closed : bool;
  next : nat
}.

(** [container/list]: the operations the cache uses, on the list of elements. *)
Definition listPushFront (e : nat) (l : list nat) : list nat := e :: l.
Definition listRemove (e : nat) (l : list nat) : list nat := filter (.≠ e) l.
Definition listMoveToFront (e : nat) (l : list nat) : list nat :=
  if decide (e ∈ l) then e :: listRemove e l else l.
Definition listBack (l : list nat) : option nat := last l.

Definition New (maxB : Z) (maxE : Z) : Cache :=
  {| maxBytes := if maxB <? 0 then 0 else maxB;
     maxEntries := maxE;
     items := ∅; elems := ∅; lru := [];
     cbytes := 0; evictions := 0; closed := false; next := 0%nat |}.

Definition EstimateSize (k : string) (v : bytes) : Z :=
  i64 (slen k + blen v) +i entryOverheadBytes.

(** [entry.snapshot]: a negative remaining lifetime is reported as zero. *)
Definition snapshot (e : entry) (now : Time) : EntrySnapshot :=
  let ttl := t_sub (expiresAt e) now in
  {| sKey := key e;
     sValue := value e;
     sInsertedAt := insertedAt e;
     sExpiresAt := expiresAt e;
     sLastAccess := lastAccess e;
     sEstimatedSize := estimatedSize e;
     sAge := t_sub now (insertedAt e);
     sTTL := if ttl <? 0 then 0 else ttl |}.

(** [removeElementLocked]: the element is dereferenced for its entry. *)
Definition removeElementLocked (c : Cache) (el : nat) : Cache :=
  match elems c !! el with
  | None => c
  | Some ent =>
      {| maxBytes := maxBytes c; maxEntries := maxEntries c;
         items := delete (key ent) (items c);
         elems := delete el (elems c);
         lru := listRemove el (lru c);
         cbytes := cbytes c -i estimatedSize ent;
         evictions := evictions c; closed := closed c; next := next c |}
  end.

Definition removeLocked (c : Cache) (k : string) : Cache * bool :=
  match items c !! k with
  | None => (c, false)
  | Some el => (removeElementLocked c el, true)
  end.

(** The loop condition of [enforceLimitsLocked]. *)
Definition overLimits (c : Cache) : bool :=
  (maxBytes c <? cbytes c) ||
  ((0 <? maxEntries c) && (maxEntries c <? Z.of_nat (size (items c)))).

Definition incEvictions (c : Cache) : Cache :=
  {| maxBytes := maxBytes c; maxEntries := maxEntries c;
     items := items c; elems := elems c; lru := lru c; cbytes := cbytes c;
     evictions := evictions c +u 1; closed := closed c; next := next c |}.

(** The loop removes the back of the list, which gets shorter: the fuel is the
    length of the list, and with an empty list the loop returns. *)
Fixpoint enforceLoop (fuel : nat) (c : Cache) : Cache :=
  if overLimits c then
    match listBack (lru c) with
    | None => c
    | Some oldest =>
        match fuel with
        | O => c
        | S fuel' => enforceLoop fuel' (incEvictions (removeElementLocked c oldest))
        end
    end
  else c.

Definition enforceLimitsLocked (c : Cache) : Cache := enforceLoop (length (lru c)) c.

(** The accepting branch of [put]: overwrite the element of a known key in place
    and move it to the front, or push a fresh element. *)
Definition insertEntry (c : Cache) (ent : entry) : Cache :=
  match items c !! key ent with
  | Some existing =>
      let old := match elems c !! existing with Some e => estimatedSize e | None => 0 end in
      {| maxBytes := maxBytes c; maxEntries := maxEntries c; items := items c;
         elems := <[existing := ent]> (elems c);
         lru := listMoveToFront existing (lru c);
         cbytes := (cbytes c -i old) +i estimatedSize ent;
         evictions := evictions c; closed := closed c; next := next c |}
  | None =>
      {| maxBytes := maxBytes c; maxEntries := maxEntries c;
         items := <[key ent := next c]> (items c);
         elems := <[next c := ent]> (elems c);
         lru := listPushFront (next c) (lru c);
         cbytes := cbytes c +i estimatedSize ent;
         evictions := evictions c; closed := closed c; next := S (next c) |}
  end.

(** [put]: refuse (and drop the key) when closed or too large, else store the
    entry and enforce the limits. *)
Definition put (c : Cache) (k : string) (v : bytes) (now exp : Time) : Cache * bool :=
  let size := EstimateSize k v in
  if closed c || (maxBytes c <=? 0) || (maxBytes c <? size) then
    ((removeLocked c k).1, false)
  else
    (enforceLimitsLocked (insertEntry c
       {| key := k; value := v; insertedAt := now; expiresAt := exp;
          lastAccess := now; estimatedSize := size |}), true).

Definition Put (c : Cache) (now : Time) (k : string) (v : bytes) (ttl : Duration) : Cache * bool :=
  if (ttl <=? 0) || bool_decide (k = EmptyString) then (c, false)
  else put c k v now (t_add now ttl).

Definition Delete (c : Cache) (k : string) : Cache * bool := removeLocked c k.

Definition PutUntil (c : Cache) (now : Time) (k : string) (v : bytes) (exp : Time) : Cache * bool :=
  if bool_decide (k = EmptyString) then (c, false)
  else if negb (t_before now exp) then ((Delete c k).1, false)
  else put c k v now exp.

(** [get]: an expired entry is removed, except on the fresh-read path
    [GetStale key 0], which keeps it for a later stale read. *)
Definition get (c : Cache) (now : Time) (k : string) (grace : Duration) (allowStale : bool)
    : Cache * option EntrySnapshot :=
  match items c !! k with
  | None => (c, None)
  | Some el =>
      match elems c !! el with
      | None => (c, None)
      | Some ent =>
          let expiryLimit :=
            if allowStale && (0 <? grace) then t_add (expiresAt ent) grace
            else expiresAt ent in
          if negb (t_before now expiryLimit) then
            (if negb allowStale || negb (grace =? 0) then removeElementLocked c el else c, None)
          else
            let ent' := {| key := key ent; value := value ent; insertedAt := insertedAt ent;
                           expiresAt := expiresAt ent; lastAccess := now;
                           estimatedSize := estimatedSize ent |} in
            ({| maxBytes := maxBytes c; maxEntries := maxEntries c;
                items := items c;
                elems := <[el := ent']> (elems c);
                lru := listMoveToFront el (lru c);
                cbytes := cbytes c;
                evictions := evictions c; closed := closed c; next := next c |},
             Some (snapshot ent' now))
      end
  end.

Definition Get (c : Cache) (now : Time) (k : string) : Cache * option EntrySnapshot :=
  get c now k 0 false.

Definition GetStale (c : Cache) (now : Time) (k : string) (grace : Duration)
    : Cache * option EntrySnapshot :=
  get c now k grace true.

(** [Purge] and [Close] replace the map and reset the list. *)
Definition Purge (c : Cache) : Cache :=
  {| maxBytes := maxBytes c; maxEntries := maxEntries c;
     items := ∅; elems := ∅; lru := []; cbytes := 0;
     evictions := evictions c; closed := closed c; next := next c |}.

Definition Close (c : Cache) : Cache :=
  {| maxBytes := maxBytes c; maxEntries := maxEntries c;
     items := ∅; elems := ∅; lru := []; cbytes := 0;
     evictions := evictions c; closed := true; next := next c |}.

Definition stats (c : Cache) : Stats :=
  {| Entries := Z.of_nat (size (items c)); Bytes := cbytes c;
     MaxBytes := maxBytes c; Evictions := evictions c |}.

Definition Inspect (c : Cache) (now : Time) (k : string) : option EntrySnapshot :=
  match items c !! k with
  | None => None
  | Some el =>
      match elems c !! el with
      | None => None
      | Some ent => if negb (t_before now (expiresAt ent)) then None else Some (snapshot ent now)
      end
  end.

End cache.
