(* ===== verification/CacheSpec.v ===== *)
(** * The LRU contract of internal/cache

    An abstract LRU cache is the list of its entries, most recent first. The
    Go cache (a map, a linked list and a byte counter) implements it: [cache.ents]
    reads the list off the concrete state, and every method commutes with its
    list-level counterpart. Eviction pops the back of the list while a limit is
    exceeded; [lruspec.fit] is its specification, the longest prefix within both
    limits. *)
From stdpp Require Import prelude gmap strings list fin_maps.
From Stdlib Require Import ZArith Lia.
From S2P Require Import Prelude Cache.
Local Open Scope Z_scope.

Module lruspec.
Import cache.

(** ** The abstract cache *)

(** The longest prefix within a byte budget and, if any, a number of slots. *)
Fixpoint fit (budget : Z) (slots : option nat) (l : list entry) : list entry :=
  match l with
  | [] => []
  | e :: l' =>
      match slots with
      | Some O => []
      | _ => if estimatedSize e <=? budget
             then e :: fit (budget - estimatedSize e) (Nat.pred <$> slots) l'
             else []
      end
  end.

(** A list is over the limits when its bytes or its entries exceed them. *)
Definition over (budget : Z) (slots : option nat) (l : list entry) : Prop :=
  budget < sumZ estimatedSize l ∨ (∃ n, slots = Some n ∧ (n < length l)%nat).

Definition without (k : string) (l : list entry) : list entry := filter (λ e, key e ≠ k) l.

Lemma fit_prefix B E l : ∃ t, l = fit B E l ++ t.
Proof.
  revert B E. induction l as [|e l IH]; intros B E; simpl; [by exists []|].
  destruct (IH (B - estimatedSize e) (Nat.pred <$> E)) as [t Ht].
  destruct E as [[|n]|]; [by eexists|..]; case_if; try by eexists.
  all: exists t; simpl; f_equal; exact Ht.
Qed.

Lemma fit_all B E l :
  (∀ e, e ∈ l → 0 <= estimatedSize e) → ¬ over B E l → fit B E l = l.
Proof.
  revert B E. induction l as [|e l IH]; intros B E Hs Ho; [done|]. simpl.
  assert (0 <= sumZ estimatedSize l) by (apply sumZ_nonneg; set_solver).
  assert (Hse : sumZ estimatedSize (e :: l) <= B).
  { apply Z.nlt_ge. intros ?. apply Ho. by left. }
  simpl in Hse. rewrite (proj2 (Z.leb_le (estimatedSize e) B)) by lia.
  destruct E as [[|n]|]; simpl.
  - destruct Ho. right. exists O. split; [done|]. simpl. lia.
  - rewrite IH; [done|set_solver|]. intros [?|(m & [= <-] & Hm)]; [lia|].
    apply Ho. right. exists (S n). simpl. split; [done|lia].
  - rewrite IH; [done|set_solver|]. intros [?|(m & [=] & Hm)]. lia.
Qed.

Lemma fit_over_snoc B E l x :
  (∀ e, e ∈ l → 0 <= estimatedSize e) →
  over B E (l ++ [x]) → fit B E (l ++ [x]) = fit B E l.
Proof.
  revert B E. induction l as [|e l IH]; intros B E Hs Ho; simpl.
  - destruct Ho as [Ho|(n & -> & Hn)]; simpl in *.
    + rewrite (proj2 (Z.leb_gt _ _)) by lia. by destruct E as [[]|].
    + by destruct n as [|n]; [|lia].
  - assert (Hrec : ∀ E', (∀ n, E = Some (S n) → E' = Some n) → (E = None → E' = None) → E ≠ Some O →
      over (B - estimatedSize e) E' (l ++ [x])).
    { intros E' H1 H2 H3. destruct Ho as [Ho|(n & -> & Hn)]; simpl in *.
      - left. lia.
      - right. destruct n as [|n]; [done|]. exists n. split; [by apply H1|]. lia. }
    destruct E as [[|n]|]; [done|..]; case_if; try done; simpl; rewrite IH; try done.
    all: try (intros; apply Hs; by right).
    all: apply Hrec; naive_solver.
Qed.

Lemma fit_within B E l : 0 <= B → ¬ over B E (fit B E l).
Proof.
  revert B E. induction l as [|e l IH]; intros B E HB; simpl.
  - intros [?|(n & ? & ?)]; simpl in *; lia.
  - destruct E as [[|n]|]; simpl.
    + intros [?|(n & ? & ?)]; simpl in *; [lia|naive_solver lia].
    + case_if; ztests.
      * intros [?|(m & [= <-] & ?)]; simpl in *; apply (IH (B - estimatedSize e) (Some n)); try lia.
        -- left. lia.
        -- right. exists n. split; [done|lia].
      * intros [?|(m & ? & ?)]; simpl in *; [lia|naive_solver lia].
    + case_if; ztests.
      * intros [?|(m & ? & ?)]; simpl in *; [|done].
        apply (IH (B - estimatedSize e) None); [lia|]. left. lia.
      * intros [?|(m & ? & ?)]; simpl in *; [lia|done].
Qed.

Lemma fit_elem B E l e : e ∈ fit B E l → e ∈ l.
Proof.
  destruct (fit_prefix B E l) as [t Ht]. intros He. rewrite Ht. apply elem_of_app. by left.
Qed.

Lemma fit_head B E e l :
  estimatedSize e <= B → E ≠ Some O → ∃ l', fit B E (e :: l) = e :: l'.
Proof.
  intros HB HE. simpl. rewrite (proj2 (Z.leb_le _ _)) by lia.
  destruct E as [[|n]|]; [done|..]; by eexists.
Qed.

Lemma without_elem k l e : e ∈ without k l ↔ e ∈ l ∧ key e ≠ k.
Proof. unfold without. rewrite list_elem_of_filter. tauto. Qed.

Lemma without_absent k l : (∀ e, e ∈ l → key e ≠ k) → without k l = l.
Proof.
  unfold without. induction l as [|e l IH]; intros H; [done|].
  rewrite filter_cons_True by (apply H; left). f_equal. apply IH. set_solver.
Qed.

Lemma without_comm_fit_keys k l : NoDup (key <$> l) → NoDup (key <$> without k l).
Proof.
  unfold without. induction l as [|e l IH]; intros Hnd; [done|].
  simpl in Hnd. apply NoDup_cons in Hnd as [Hn Hnd]. rewrite filter_cons.
  case_decide; simpl; [|by apply IH]. apply NoDup_cons. split; [|by apply IH].
  intros Hin. apply Hn. apply list_elem_of_fmap in Hin as (x & -> & Hx).
  apply list_elem_of_filter in Hx as [_ Hx]. by apply list_elem_of_fmap_2.
Qed.


(** ** The abstraction of a concrete cache and its well-formedness *)

(** The entries, most recent first. *)
Definition ents (c : Cache) : list entry := omap (λ el, elems c !! el) (lru c).

(** The entry a key is mapped to. *)
Definition lookup_entry (c : Cache) (k : string) : option entry := items c !! k ≫= λ el, elems c !! el.

(** The entry limit as a number of slots: no limit unless [maxEntries > 0]. *)
Definition slots (c : Cache) : option nat :=
  if 0 <? maxEntries c then Some (Z.to_nat (maxEntries c)) else None.

(** Budgets below 2^62 bytes: the byte counter cannot wrap while one entry is
    added to a full cache. *)
Definition maxBudget : Z := 2 ^ 62.

(** A key and a value that the address space can hold. *)
Definition fits (k : string) (v : bytes) : Prop := slen k + blen v + entryOverheadBytes <= maxInt64.

(** The pointer structure: the list holds the live elements once, the map sends
    each key to the element that carries it, and the byte counter is the sum of
    the sizes. *)
Record wf (c : Cache) : Prop := {
  wf_nodup : NoDup (lru c);
  wf_dom : ∀ el, el ∈ lru c ↔ is_Some (elems c !! el);
  wf_items : ∀ k el, items c !! k = Some el ↔ ∃ e, elems c !! el = Some e ∧ key e = k;
  wf_fresh : ∀ el, el ∈ lru c → (el < next c)%nat;
  wf_bytes : cbytes c = sumZ estimatedSize (ents c);
  wf_range : cbytes c <= maxInt64;
  wf_sizes : ∀ el e, elems c !! el = Some e →
    estimatedSize e = slen (key e) + blen (value e) + entryOverheadBytes;
  wf_max : 0 <= maxBytes c < maxBudget;
  wf_closed : closed c = true → lru c = [];
  wf_evict : in_u64 (evictions c)
}.

(** The limits the constructor was given. *)
Definition bounded (c : Cache) : Prop :=
  cbytes c <= maxBytes c ∧ (0 < maxEntries c → Z.of_nat (length (lru c)) <= maxEntries c).

Lemma EstimateSize_exact k v :
  fits k v → EstimateSize k v = slen k + blen v + entryOverheadBytes.
Proof.
  unfold fits, EstimateSize, entryOverheadBytes, slen, blen. intros ?.
  rewrite (i64_id (_ + Z.of_nat (length v))) by width_lia. rewrite i64_id by width_lia. done.
Qed.

Lemma omap_insert_ne (m : gmap nat entry) el e (l : list nat) :
  el ∉ l → omap (λ x, <[el := e]> m !! x) l = omap (λ x, m !! x) l.
Proof.
  induction l as [|y l IH]; intros Hel; [done|].
  apply not_elem_of_cons in Hel as [Hne Hel]. csimpl.
  rewrite lookup_insert_ne by done. by rewrite (IH Hel).
Qed.

Lemma omap_delete_ne (m : gmap nat entry) el (l : list nat) :
  el ∉ l → omap (λ x, delete el m !! x) l = omap (λ x, m !! x) l.
Proof.
  induction l as [|y l IH]; intros Hel; [done|].
  apply not_elem_of_cons in Hel as [Hne Hel]. csimpl.
  rewrite lookup_delete_ne by done. by rewrite (IH Hel).
Qed.

Section wellformed.
Context (c : Cache) (W : wf c).

Lemma ents_elem e : e ∈ ents c ↔ ∃ el, elems c !! el = Some e.
Proof.
  unfold ents. rewrite list_elem_of_omap. split.
  - intros (el & _ & H). by exists el.
  - intros [el H]. exists el. split; [|done]. apply W. by eexists.
Qed.

Lemma key_inj el1 el2 e1 e2 :
  elems c !! el1 = Some e1 → elems c !! el2 = Some e2 → key e1 = key e2 → el1 = el2.
Proof.
  intros H1 H2 Hk.
  assert (items c !! key e1 = Some el1) by (apply W; eauto).
  assert (items c !! key e1 = Some el2) by (apply W; eauto). congruence.
Qed.

Lemma lookup_entry_Some k e : lookup_entry c k = Some e ↔ e ∈ ents c ∧ key e = k.
Proof.
  unfold lookup_entry. rewrite ents_elem. split.
  - intros (el & Hk & He)%bind_Some. apply W in Hk as (e' & He' & Hk).
    assert (e' = e) as -> by congruence. eauto.
  - intros ((el & He) & Hk). apply bind_Some. exists el. split; [|done]. apply W. eauto.
Qed.

Lemma lookup_entry_None k : lookup_entry c k = None ↔ ∀ e, e ∈ ents c → key e ≠ k.
Proof.
  split.
  - intros Hn e He Hk. assert (lookup_entry c k = Some e) by by apply lookup_entry_Some. congruence.
  - intros H. destruct (lookup_entry c k) as [e|] eqn:E; [|done].
    apply lookup_entry_Some in E as [He Hk]. by apply H in He.
Qed.

Lemma items_None k : items c !! k = None ↔ ∀ e, e ∈ ents c → key e ≠ k.
Proof.
  rewrite <- lookup_entry_None. unfold lookup_entry.
  destruct (items c !! k) as [el|] eqn:E; simpl; [|done].
  apply W in E as (e & -> & _). done.
Qed.

Lemma size_pos el e : elems c !! el = Some e → 0 < estimatedSize e.
Proof.
  intros H. rewrite (wf_sizes _ W _ _ H). unfold entryOverheadBytes, slen, blen. lia.
Qed.

Lemma ents_size_pos e : e ∈ ents c → 0 < estimatedSize e.
Proof. rewrite ents_elem. intros [el H]. by eapply size_pos. Qed.

Lemma ents_split el e :
  elems c !! el = Some e →
  omap (λ x, elems c !! x) (listRemove el (lru c)) = without (key e) (ents c).
Proof.
  intros He. unfold ents, listRemove, without.
  assert (Hl : ∀ x, x ∈ lru c → is_Some (elems c !! x)) by (intros; by apply W).
  induction (lru c) as [|x l IH]; [done|]. csimpl.
  destruct (Hl x) as [ex Hx]; [left|]. rewrite filter_cons. rewrite Hx.
  rewrite filter_cons. destruct (decide (x = el)) as [->|Hne].
  - assert (ex = e) as -> by congruence. do 2 (rewrite decide_False by naive_solver).
    apply IH. intros. apply Hl. by right.
  - rewrite decide_True by done. rewrite decide_True.
    + csimpl. rewrite Hx. f_equal. apply IH. intros. apply Hl. by right.
    + intros Hk. apply Hne. by eapply key_inj.
Qed.

Lemma length_ents : length (ents c) = length (lru c).
Proof.
  unfold ents. assert (Hl : ∀ x, x ∈ lru c → is_Some (elems c !! x)) by (intros; by apply W).
  induction (lru c) as [|x l IH]; [done|]. csimpl.
  destruct (Hl x) as [ex ->]; [left|]. simpl. f_equal. apply IH. intros. apply Hl. by right.
Qed.

Lemma size_items : size (items c) = length (lru c).
Proof.
  rewrite <- length_map_to_list. rewrite <- (length_fmap snd).
  apply Permutation_length, NoDup_Permutation.
  - apply NoDup_fmap_2_strong; [|apply NoDup_map_to_list].
    intros [k1 i1] [k2 i2] H1 H2 Heq. simpl in Heq. subst.
    apply elem_of_map_to_list in H1, H2. apply W in H1 as (e1 & He1 & <-).
    apply W in H2 as (e2 & He2 & <-). congruence.
  - apply W.
  - intros el. rewrite list_elem_of_fmap. rewrite (wf_dom _ W). split.
    + intros ([k i] & -> & H). apply elem_of_map_to_list in H.
      apply W in H as (e & He & _). by eexists.
    + intros [e He]. exists (key e, el). split; [done|]. apply elem_of_map_to_list.
      apply W. eauto.
Qed.

Lemma keys_nodup : NoDup (key <$> ents c).
Proof.
  unfold ents. pose proof (wf_nodup _ W) as Hnd.
  induction (lru c) as [|x l IH]; [by apply NoDup_nil|].
  apply NoDup_cons in Hnd as [Hx Hnd]. csimpl.
  destruct (elems c !! x) as [e|] eqn:E; [|by apply IH]. simpl.
  apply NoDup_cons. split; [|by apply IH]. intros Hin.
  apply list_elem_of_fmap in Hin as (e' & Hk & He').
  apply list_elem_of_omap in He' as (y & Hy & He').
  apply Hx. by rewrite (key_inj _ _ _ _ E He' Hk).
Qed.

Lemma bytes_without el e :
  elems c !! el = Some e →
  sumZ estimatedSize (ents c) = estimatedSize e + sumZ estimatedSize (without (key e) (ents c)).
Proof.
  intros He. rewrite <- (ents_split el e He). unfold ents.
  assert (Hl : ∀ x, x ∈ lru c → is_Some (elems c !! x)) by (intros; by apply W).
  assert (Hin : el ∈ lru c) by (apply W; by eexists).
  pose proof (wf_nodup _ W) as Hnd.
  induction (lru c) as [|x l IH]; [by apply elem_of_nil in Hin|].
  apply NoDup_cons in Hnd as [Hx Hnd]. unfold listRemove. csimpl.
  destruct (decide (x = el)) as [->|Hne].
  - rewrite He. rewrite filter_cons_False by naive_solver.
    rewrite filter_ne_not_in by done. done.
  - rewrite filter_cons_True by done. apply elem_of_cons in Hin as [->|Hin]; [done|].
    csimpl. destruct (Hl x) as [ex ->]; [left|]. csimpl.
    rewrite IH; [|intros; apply Hl; by right|done|done]. unfold listRemove. lia.
Qed.

End wellformed.

(** ** Operations: well-formedness and refinement *)

(** What no method but [Close] changes. *)
Definition same_limits (c c' : Cache) : Prop :=
  maxBytes c' = maxBytes c ∧ maxEntries c' = maxEntries c ∧ closed c' = closed c.

Lemma same_limits_refl c : same_limits c c.
Proof. done. Qed.

Lemma same_limits_trans c1 c2 c3 : same_limits c1 c2 → same_limits c2 c3 → same_limits c1 c3.
Proof. unfold same_limits. intros; break; split_and!; congruence. Qed.

Lemma same_limits_slots c c' : same_limits c c' → slots c' = slots c.
Proof. intros (_ & H & _). unfold slots. by rewrite H. Qed.

#[local] Hint Resolve same_limits_refl : slizen.

Lemma removeElement_refines c el e :
  wf c → elems c !! el = Some e →
  wf (removeElementLocked c el) ∧ same_limits c (removeElementLocked c el) ∧
  ents (removeElementLocked c el) = without (key e) (ents c).
Proof.
  intros W He.
  assert (Hents : ents (removeElementLocked c el) = without (key e) (ents c)).
  { rewrite <- (ents_split c W el e He). unfold ents, removeElementLocked. rewrite He. simpl.
    apply omap_delete_ne. unfold listRemove. rewrite list_elem_of_filter. naive_solver. }
  split_and!; [|unfold removeElementLocked, same_limits; by rewrite He|done].
  pose proof (bytes_without c W el e He) as Hb.
  assert (0 <= sumZ estimatedSize (without (key e) (ents c))).
  { apply sumZ_nonneg. intros x [Hx _]%without_elem. apply Z.lt_le_incl. by eapply ents_size_pos. }
  pose proof (size_pos c W el e He). pose proof (wf_range c W). pose proof (wf_bytes c W).
  assert (Hcb : cbytes (removeElementLocked c el) = sumZ estimatedSize (without (key e) (ents c))).
  { unfold removeElementLocked. rewrite He. simpl. rewrite i64_id by width_lia. lia. }
  constructor; rewrite ?Hents, ?Hcb; try lia.
  all: unfold removeElementLocked; rewrite He; simpl.
  - apply NoDup_filter, W.
  - intros x. unfold listRemove. rewrite list_elem_of_filter, (wf_dom c W).
    destruct (decide (x = el)) as [->|Hne].
    + rewrite lookup_delete_eq. split; [tauto|by intros [? ?]].
    + rewrite lookup_delete_ne by done. tauto.
  - intros k x. destruct (decide (k = key e)) as [->|Hk].
    + rewrite lookup_delete_eq. split; [done|]. intros (e' & Hx & Hke).
      apply lookup_delete_Some in Hx as [Hne Hx]. destruct Hne. by eapply key_inj.
    + rewrite lookup_delete_ne by done. rewrite (wf_items c W). split.
      * intros (e' & Hx & <-). exists e'. split; [|done].
        rewrite lookup_delete_ne; [done|]. intros ->. congruence.
      * intros (e' & Hx & <-). apply lookup_delete_Some in Hx as [_ Hx]. by exists e'.
  - intros x Hx. unfold listRemove in Hx. apply list_elem_of_filter in Hx as [_ Hx]. by apply W.
  - intros x e' Hx. apply lookup_delete_Some in Hx as [_ Hx]. by eapply W.
  - apply W.
  - intros Hc. unfold listRemove. by rewrite (wf_closed c W Hc).
  - apply W.
Qed.

Lemma remove_refines c k :
  wf c →
  wf (removeLocked c k).1 ∧ same_limits c (removeLocked c k).1 ∧
  ents (removeLocked c k).1 = without k (ents c) ∧
  (removeLocked c k).2 = bool_decide (is_Some (lookup_entry c k)).
Proof.
  intros W. unfold removeLocked, lookup_entry.
  destruct (items c !! k) as [el|] eqn:E; simpl.
  - apply W in E as (e & He & <-). rewrite He.
    destruct (removeElement_refines c el e W He) as (? & ? & ?).
    split_and!; try done.
  - split_and!; try done. rewrite without_absent; [done|]. by apply items_None.
Qed.

Lemma overLimits_over c : wf c → overLimits c = true ↔ over (maxBytes c) (slots c) (ents c).
Proof.
  intros W. unfold overLimits, over, slots.
  rewrite orb_true_iff, andb_true_iff, !Z.ltb_lt, (size_items c W), (length_ents c W), <- (wf_bytes c W).
  split; (intros [H|H]; [by left|right]).
  - destruct H as [H1 H2]. rewrite (proj2 (Z.ltb_lt _ _)) by lia. eexists. split; [done|]. lia.
  - destruct H as (n & Hn & Hl). destruct (0 <? maxEntries c) eqn:E; [|done]. ztests.
    injection Hn as <-. lia.
Qed.

Lemma incEvictions_wf c : wf c → wf (incEvictions c).
Proof. intros []. constructor; try done. apply u64_range. Qed.

Lemma without_last l x :
  NoDup (key <$> (l ++ [x])) → without (key x) (l ++ [x]) = l.
Proof.
  unfold without. rewrite fmap_app, NoDup_app. intros (_ & Hd & _).
  rewrite filter_app. rewrite filter_cons_False by naive_solver. rewrite filter_nil, app_nil_r.
  apply without_absent. intros e He Hk. apply (Hd (key e)); [by apply list_elem_of_fmap_2|].
  rewrite Hk. simpl. set_solver.
Qed.

(** Popping the back while a limit is exceeded leaves the longest prefix that is
    within the limits, and counts one eviction per dropped entry. *)
Lemma enforceLoop_refines fuel c :
  wf c → (length (lru c) <= fuel)%nat →
  wf (enforceLoop fuel c) ∧ same_limits c (enforceLoop fuel c) ∧
  ents (enforceLoop fuel c) = fit (maxBytes c) (slots c) (ents c) ∧
  evictions (enforceLoop fuel c) =
    u64 (evictions c + Z.of_nat (length (ents c) - length (fit (maxBytes c) (slots c) (ents c)))).
Proof.
  revert c. induction fuel as [|fuel IH]; intros c W Hlen; simpl.
  - assert (Hn : lru c = []) by (destruct (lru c); simpl in *; [done|lia]).
    assert (He : ents c = []) by (unfold ents; by rewrite Hn).
    rewrite Hn. simpl. rewrite He. simpl. rewrite Z.add_0_r, u64_id by apply W.
    destruct (overLimits c); split_and!; auto with slizen.
  - destruct (overLimits c) eqn:Ho.
    2:{ rewrite fit_all.
        - split_and!; auto with slizen. by rewrite Nat.sub_diag, Z.add_0_r, u64_id by apply W.
        - intros e He. apply Z.lt_le_incl. by eapply ents_size_pos.
        - intros H. apply overLimits_over in H; [congruence|done]. }
    apply overLimits_over in Ho; [|done].
    unfold listBack. destruct (last (lru c)) as [el|] eqn:Hl.
    2:{ apply last_None in Hl. assert (He : ents c = []) by (unfold ents; by rewrite Hl).
        rewrite He. simpl. split_and!; auto with slizen. by rewrite Z.add_0_r, u64_id by apply W. }
    apply last_Some in Hl as [l' Hl].
    assert (Hin : el ∈ lru c) by (rewrite Hl; set_solver).
    apply (wf_dom c W) in Hin as [e He].
    assert (Hents : ents c = omap (λ x, elems c !! x) l' ++ [e]).
    { unfold ents. rewrite Hl, omap_app. f_equal. csimpl. by rewrite He. }
    pose proof (keys_nodup c W) as Hnd.
    destruct (removeElement_refines c el e W He) as (W' & Hsame & Hrem).
    rewrite Hents in Hnd, Hrem, Ho. rewrite without_last in Hrem by done.
    set (c' := incEvictions (removeElementLocked c el)).
    assert (Wc' : wf c') by by apply incEvictions_wf.
    assert (Hs' : same_limits c c') by done.
    assert (He' : ents c' = omap (λ x, elems c !! x) l') by done.
    destruct (IH c' Wc') as (W'' & Hs'' & Hfit & Hev).
    { pose proof (length_ents c' Wc') as Hlen'. rewrite He' in Hlen'.
      pose proof (length_ents c W) as Hlc. rewrite Hents, length_app in Hlc. simpl in Hlc. lia. }
    pose proof Hs' as (HB & _ & _). rewrite HB, (same_limits_slots _ _ Hs'), He' in Hfit, Hev.
    assert (Hfo : fit (maxBytes c) (slots c) (ents c)
                  = fit (maxBytes c) (slots c) (omap (λ x, elems c !! x) l')).
    { rewrite Hents. apply fit_over_snoc; [|done]. intros x Hx. apply Z.lt_le_incl.
      eapply ents_size_pos; [apply W|]. rewrite Hents. set_solver. }
    split_and!; [done|by eapply same_limits_trans|by rewrite Hfo|].
    rewrite Hev, Hfo, Hents, length_app. simpl.
    destruct (fit_prefix (maxBytes c) (slots c) (omap (λ x, elems c !! x) l')) as [t Ht].
    apply (f_equal length) in Ht. rewrite length_app in Ht.
    unfold c', incEvictions. simpl. unfold removeElementLocked. rewrite He. simpl.
    unfold u64. rewrite Zplus_mod_idemp_l. f_equal. lia.
Qed.

Lemma bounded_not_over c : wf c → bounded c ↔ ¬ over (maxBytes c) (slots c) (ents c).
Proof.
  intros W. rewrite <- overLimits_over, not_true_iff_false by done.
  unfold overLimits, bounded. rewrite orb_false_iff, andb_false_iff, !Z.ltb_ge, (size_items c W).
  split; intros [? H]; split; [done| |done|].
  - destruct (Z.lt_ge_cases 0 (maxEntries c)); [right; by apply H|by left].
  - intros ?. destruct H; lia.
Qed.


(** Overwriting the entry of a live element and moving it to the front, with the
    byte counter adjusted. *)
Lemma overwrite_refines c el e ent c' :
  wf c → elems c !! el = Some e → key ent = key e →
  estimatedSize ent = slen (key ent) + blen (value ent) + entryOverheadBytes →
  maxBytes c' = maxBytes c → items c' = items c → elems c' = <[el := ent]> (elems c) →
  lru c' = listMoveToFront el (lru c) → next c' = next c → closed c' = closed c →
  evictions c' = evictions c →
  cbytes c' = cbytes c - estimatedSize e + estimatedSize ent → cbytes c' <= maxInt64 →
  wf c' ∧ ents c' = ent :: without (key e) (ents c).
Proof.
  intros W He Hk Hsz HB Hi Hm Hl Hn Hc Hev Hcb Hr.
  assert (Hin : el ∈ lru c) by (apply W; by eexists).
  unfold listMoveToFront in Hl. rewrite decide_True in Hl by done.
  assert (Hnin : el ∉ listRemove el (lru c)).
  { unfold listRemove. rewrite list_elem_of_filter. naive_solver. }
  assert (Hents : ents c' = ent :: without (key e) (ents c)).
  { unfold ents at 1. rewrite Hl, Hm. csimpl. rewrite lookup_insert_eq. f_equal.
    rewrite omap_insert_ne by done. by apply ents_split. }
  split; [|done]. pose proof (bytes_without c W el e He). pose proof (wf_bytes c W).
  constructor; rewrite ?HB, ?Hi, ?Hm, ?Hn, ?Hev; try (rewrite Hl).
  - apply NoDup_cons. split; [done|]. apply NoDup_filter, W.
  - intros x. rewrite elem_of_cons. unfold listRemove. rewrite list_elem_of_filter, (wf_dom c W).
    destruct (decide (x = el)) as [->|Hne].
    + rewrite lookup_insert_eq. naive_solver.
    + rewrite lookup_insert_ne by done. naive_solver.
  - intros k x. rewrite (wf_items c W). destruct (decide (x = el)) as [->|Hne].
    + rewrite lookup_insert_eq, He. naive_solver congruence.
    + by rewrite lookup_insert_ne by done.
  - intros x. rewrite elem_of_cons. unfold listRemove. rewrite list_elem_of_filter.
    intros [->|[_ ?]]; by apply W.
  - rewrite Hents. simpl. lia.
  - done.
  - intros x e'. destruct (decide (x = el)) as [->|Hne].
    + rewrite lookup_insert_eq. by intros [= <-].
    + rewrite lookup_insert_ne by done. apply W.
  - apply W.
  - rewrite Hc. intros Hcl. rewrite (wf_closed c W Hcl) in Hin. by apply elem_of_nil in Hin.
  - apply W.
Qed.

(** Pushing a fresh element for a key that is not mapped. *)
Lemma push_refines c ent :
  wf c → items c !! key ent = None → closed c = false →
  estimatedSize ent = slen (key ent) + blen (value ent) + entryOverheadBytes →
  cbytes c + estimatedSize ent <= maxInt64 →
  wf (insertEntry c ent) ∧ ents (insertEntry c ent) = ent :: ents c.
Proof.
  intros W Hk Hcl Hsz Hr.
  assert (Hfr : next c ∉ lru c) by (intros H; apply (wf_fresh c W) in H; lia).
  assert (Hno : elems c !! next c = None).
  { destruct (elems c !! next c) eqn:E; [|done]. destruct Hfr. apply W. by eexists. }
  assert (0 <= cbytes c).
  { rewrite (wf_bytes c W). apply sumZ_nonneg. intros x Hx. apply Z.lt_le_incl.
    by eapply ents_size_pos. }
  assert (0 < estimatedSize ent) by (unfold entryOverheadBytes, slen, blen in *; lia).
  assert (Hents : ents (insertEntry c ent) = ent :: ents c).
  { unfold ents, insertEntry, listPushFront. rewrite Hk. csimpl. rewrite lookup_insert_eq.
    f_equal. by apply omap_insert_ne. }
  split; [|done]. unfold insertEntry in *. rewrite Hk in *. unfold listPushFront in *.
  constructor; simpl in *.
  - apply NoDup_cons. split; [done|apply W].
  - intros x. rewrite elem_of_cons, (wf_dom c W). destruct (decide (x = next c)) as [->|Hne].
    + rewrite lookup_insert_eq. naive_solver.
    + rewrite lookup_insert_ne by done. naive_solver.
  - intros k x. destruct (decide (k = key ent)) as [->|Hne].
    + rewrite lookup_insert_eq. split.
      * intros [= <-]. exists ent. by rewrite lookup_insert_eq.
      * intros (e & He & Hke). destruct (decide (x = next c)) as [->|Hx]; [done|].
        rewrite lookup_insert_ne in He by done.
        assert (items c !! key ent = Some x) by (apply W; eauto). congruence.
    + rewrite lookup_insert_ne by done. rewrite (wf_items c W). split.
      * intros (e & He & <-). exists e. rewrite lookup_insert_ne; [done|]. intros <-. congruence.
      * intros (e & He & <-). destruct (decide (x = next c)) as [->|Hx].
        -- rewrite lookup_insert_eq in He. congruence.
        -- rewrite lookup_insert_ne in He by done. eauto.
  - intros x. rewrite elem_of_cons. intros [->|Hx]; [lia|]. apply (wf_fresh c W) in Hx. lia.
  - rewrite Hents. simpl. rewrite i64_id by width_lia. rewrite (wf_bytes c W). lia.
  - rewrite i64_id by width_lia. done.
  - intros x e. destruct (decide (x = next c)) as [->|Hx].
    + rewrite lookup_insert_eq. by intros [= <-].
    + rewrite lookup_insert_ne by done. apply W.
  - apply W.
  - intros ?. congruence.
  - apply W.
Qed.

Lemma insertEntry_refines c ent :
  wf c → bounded c → closed c = false →
  estimatedSize ent = slen (key ent) + blen (value ent) + entryOverheadBytes →
  estimatedSize ent <= maxBytes c →
  wf (insertEntry c ent) ∧ same_limits c (insertEntry c ent) ∧
  ents (insertEntry c ent) = ent :: without (key ent) (ents c).
Proof.
  intros W [Hb _] Hcl Hsz Hle. pose proof (wf_max c W) as Hmax. unfold maxBudget in Hmax.
  assert (0 < estimatedSize ent) by (unfold entryOverheadBytes, slen, blen in *; lia).
  destruct (items c !! key ent) as [el|] eqn:Hk.
  - apply W in Hk as Hk'. destruct Hk' as (e & He & Hke).
    pose proof (bytes_without c W el e He) as Hbw. pose proof (wf_bytes c W) as Hcb.
    assert (0 <= sumZ estimatedSize (without (key e) (ents c))).
    { apply sumZ_nonneg. intros x [Hx _]%without_elem. apply Z.lt_le_incl. by eapply ents_size_pos. }
    pose proof (size_pos c W el e He).
    destruct (overwrite_refines c el e ent (insertEntry c ent)) as [? ?]; try done.
    all: try (unfold insertEntry; rewrite Hk; simpl; done).
    + unfold insertEntry. rewrite Hk, He. simpl. rewrite (i64_id (_ - _)) by width_lia.
      rewrite i64_id by width_lia. lia.
    + unfold insertEntry. rewrite Hk, He. simpl. pose proof (i64_range (i64 (cbytes c - estimatedSize e) + estimatedSize ent)).
      width_lia.
    + split_and!; [done| |by rewrite <- Hke]. unfold insertEntry. by rewrite Hk.
  - destruct (push_refines c ent) as [? Hents]; try done; [width_lia|].
    split_and!; [done| |].
    + unfold insertEntry. by rewrite Hk.
    + rewrite Hents. f_equal. symmetry. apply without_absent. by apply items_None.
Qed.

End lruspec.
