(* ===== verification/CacheProps.v ===== *)
(** * What internal/cache guarantees

    The abstract LRU cache as a machine over the operations of the Go type, the
    proof that the concrete cache answers every sequence of operations exactly as
    the machine does, and the guarantees that follow. *)
From stdpp Require Import prelude gmap strings list fin_maps.
From Stdlib Require Import ZArith Lia.
From S2P Require Import Prelude Cache CacheSpec.
Local Open Scope Z_scope.

Module lrumachine.
Import cache lruspec.

(** ** The abstract machine *)

Record lru_state := mkLru {
  l_max : Z;
  l_slots : option nat;
  l_closed : bool;
  l_evictions : Z;
  l_ents : list entry
}.

Definition spec_find (k : string) (l : list entry) : option entry :=
  head (filter (λ e, key e = k) l).

Definition spec_set (a : lru_state) (l : list entry) : lru_state :=
  {| l_max := l_max a; l_slots := l_slots a; l_closed := l_closed a;
     l_evictions := l_evictions a; l_ents := l |}.

Definition spec_delete (a : lru_state) (k : string) : lru_state :=
  spec_set a (without k (l_ents a)).

Definition spec_put (a : lru_state) (k : string) (v : bytes) (now exp : Time) : lru_state * bool :=
  let size := slen k + blen v + entryOverheadBytes in
  if l_closed a || (l_max a <? size) then (spec_delete a k, false)
  else
    let l := {| key := k; value := v; insertedAt := now; expiresAt := exp;
                lastAccess := now; estimatedSize := size |} :: without k (l_ents a) in
    let l' := fit (l_max a) (l_slots a) l in
    ({| l_max := l_max a; l_slots := l_slots a; l_closed := l_closed a;
        l_evictions := u64 (l_evictions a + Z.of_nat (length l - length l')); l_ents := l' |}, true).

Definition touch (e : entry) (now : Time) : entry :=
  {| key := key e; value := value e; insertedAt := insertedAt e; expiresAt := expiresAt e;
     lastAccess := now; estimatedSize := estimatedSize e |}.

(** A lookup with a grace period: [None] is the plain fresh read, [Some 0] the
    fresh read that keeps an expired entry, [Some g] the stale read. *)
Definition spec_get (a : lru_state) (now : Time) (k : string) (grace : option Duration)
    : lru_state * option EntrySnapshot :=
  match spec_find k (l_ents a) with
  | None => (a, None)
  | Some e =>
      if now <? expiresAt e + Z.max 0 (default 0 grace)
      then (spec_set a (touch e now :: without k (l_ents a)), Some (snapshot (touch e now) now))
      else (if bool_decide (grace = Some 0) then a else spec_delete a k, None)
  end.

(** The operations of the Go type and what they answer. *)
Inductive op :=
  | OpPut (now : Time) (k : string) (v : bytes) (ttl : Duration)
  | OpPutUntil (now : Time) (k : string) (v : bytes) (exp : Time)
  | OpGet (now : Time) (k : string)
  | OpGetStale (now : Time) (k : string) (grace : Duration)
  | OpInspect (now : Time) (k : string)
  | OpDelete (k : string)
  | OpPurge
  | OpClose
  | OpStats.

Inductive answer :=
  | ABool (b : bool)
  | ASnapshot (o : option EntrySnapshot)
  | AStats (s : Stats)
  | AUnit.

Definition exec (c : Cache) (o : op) : Cache * answer :=
  match o with
  | OpPut now k v ttl => let '(c', b) := Put c now k v ttl in (c', ABool b)
  | OpPutUntil now k v exp => let '(c', b) := PutUntil c now k v exp in (c', ABool b)
  | OpGet now k => let '(c', s) := Get c now k in (c', ASnapshot s)
  | OpGetStale now k g => let '(c', s) := GetStale c now k g in (c', ASnapshot s)
  | OpInspect now k => (c, ASnapshot (Inspect c now k))
  | OpDelete k => let '(c', b) := Delete c k in (c', ABool b)
  | OpPurge => (Purge c, AUnit)
  | OpClose => (Close c, AUnit)
  | OpStats => (c, AStats (stats c))
  end.

Definition spec_exec (a : lru_state) (o : op) : lru_state * answer :=
  match o with
  | OpPut now k v ttl =>
      if (ttl <=? 0) || bool_decide (k = EmptyString) then (a, ABool false)
      else let '(a', b) := spec_put a k v now (now + ttl) in (a', ABool b)
  | OpPutUntil now k v exp =>
      if bool_decide (k = EmptyString) then (a, ABool false)
      else if exp <=? now then (spec_delete a k, ABool false)
      else let '(a', b) := spec_put a k v now exp in (a', ABool b)
  | OpGet now k => let '(a', s) := spec_get a now k None in (a', ASnapshot s)
  | OpGetStale now k g => let '(a', s) := spec_get a now k (Some g) in (a', ASnapshot s)
  | OpInspect now k =>
      (a, ASnapshot (e ← spec_find k (l_ents a);
                     if now <? expiresAt e then Some (snapshot e now) else None))
  | OpDelete k =>
      (spec_delete a k, ABool (bool_decide (is_Some (spec_find k (l_ents a)))))
  | OpPurge => (spec_set a [], AUnit)
  | OpClose =>
      ({| l_max := l_max a; l_slots := l_slots a; l_closed := true;
          l_evictions := l_evictions a; l_ents := [] |}, AUnit)
  | OpStats =>
      (a, AStats {| Entries := Z.of_nat (length (l_ents a));
                    Bytes := sumZ estimatedSize (l_ents a);
                    MaxBytes := l_max a; Evictions := l_evictions a |})
  end.

Definition spec_new (maxB maxE : Z) : lru_state :=
  {| l_max := Z.max 0 maxB;
     l_slots := if 0 <? maxE then Some (Z.to_nat maxE) else None;
     l_closed := false; l_evictions := 0; l_ents := [] |}.

(** Run a sequence of operations and collect the answers. *)
Fixpoint runOps {S} (step : S → op → S * answer) (s : S) (l : list op) : S * list answer :=
  match l with
  | [] => (s, [])
  | o :: l' => let '(s', a) := step s o in let '(s'', r) := runOps step s' l' in (s'', a :: r)
  end.

(** Arguments that fit the address space (a stored key and value, a grace
    period that is a [time.Duration]). *)
Definition op_fits (o : op) : Prop :=
  match o with
  | OpPut _ k v _ | OpPutUntil _ k v _ => fits k v
  | _ => True
  end.

(** ** Refinement *)

Definition abs (c : Cache) : lru_state :=
  {| l_max := maxBytes c; l_slots := slots c; l_closed := closed c;
     l_evictions := evictions c; l_ents := ents c |}.

Definition good (c : Cache) : Prop := wf c ∧ bounded c.

Lemma spec_find_lookup c k : wf c → spec_find k (ents c) = lookup_entry c k.
Proof.
  intros W. unfold spec_find. destruct (lookup_entry c k) as [e|] eqn:E.
  - apply lookup_entry_Some in E as [He Hk]; [|done].
    destruct (head (filter (λ e0, key e0 = k) (ents c))) as [e'|] eqn:E'.
    + apply head_Some_elem_of in E' as H. apply list_elem_of_filter in H as [Hk' He'].
      f_equal. assert (lookup_entry c k = Some e) by by apply lookup_entry_Some.
      assert (lookup_entry c k = Some e') by by apply lookup_entry_Some. congruence.
    + apply head_None in E'. by apply (filter_nil_not_elem_of _ _ e E' Hk) in He.
  - rewrite lookup_entry_None in E by done.
    destruct (filter (λ e0, key e0 = k) (ents c)) as [|e' l] eqn:E'; [done|].
    assert (H : e' ∈ filter (λ e0, key e0 = k) (ents c)) by (rewrite E'; left).
    apply list_elem_of_filter in H as [Hk He]. by apply E in He.
Qed.

Lemma slots_not_zero c : slots c ≠ Some O.
Proof. unfold slots. case_if; [|done]. ztests. intros [=]. lia. Qed.

Lemma good_without c c' k :
  good c → wf c' → same_limits c c' → ents c' = without k (ents c) → bounded c'.
Proof.
  intros [W B] W' (HB & HE & _) He. unfold bounded in *. rewrite HB, HE.
  rewrite (wf_bytes c' W'), <- (length_ents c' W'), He.
  rewrite (wf_bytes c W), <- (length_ents c W) in B.
  assert (Hle : ∀ l, (∀ e, e ∈ l → 0 < estimatedSize e) →
            sumZ estimatedSize (without k l) <= sumZ estimatedSize l).
  { unfold without. induction l as [|e l IH]; intros Hp; [done|]. rewrite filter_cons.
    assert (0 < estimatedSize e) by (apply Hp; left).
    assert (sumZ estimatedSize (filter (λ e0, key e0 ≠ k) l) <= sumZ estimatedSize l)
      by (apply IH; intros; apply Hp; by right).
    case_decide; simpl; lia. }
  pose proof (Hle (ents c) (ents_size_pos c W)).
  pose proof (length_filter (λ e, key e ≠ k) (ents c)). unfold without in *.
  split; [lia|]. intros ?. destruct B as [_ B]. specialize (B ltac:(lia)). lia.
Qed.

Lemma delete_refines c k :
  good c →
  good (Delete c k).1 ∧ abs (Delete c k).1 = spec_delete (abs c) k ∧
  (Delete c k).2 = bool_decide (is_Some (spec_find k (ents c))).
Proof.
  intros [W B]. destruct (remove_refines c k W) as (W' & Hs & He & Hb).
  assert (Hev : evictions (Delete c k).1 = evictions c).
  { unfold Delete, removeLocked. destruct (items c !! k); [|done]. simpl.
    unfold removeElementLocked. by case_match. }
  unfold Delete in *. split_and!.
  - split; [done|]. by apply (good_without c _ k).
  - unfold abs, spec_delete, spec_set. simpl. rewrite He, (same_limits_slots _ _ Hs), Hev.
    destruct Hs as (-> & _ & ->). done.
  - by rewrite spec_find_lookup.
Qed.

Lemma put_refines c k v now exp :
  good c → fits k v →
  good (put c k v now exp).1 ∧ abs (put c k v now exp).1 = (spec_put (abs c) k v now exp).1 ∧
  (put c k v now exp).2 = (spec_put (abs c) k v now exp).2.
Proof.
  intros G Hf. pose proof G as [W B]. unfold put, spec_put. rewrite (EstimateSize_exact k v Hf).
  set (sz := slen k + blen v + entryOverheadBytes). simpl.
  assert (Hsz : 0 < sz) by (unfold sz, slen, blen, entryOverheadBytes; lia).
  assert (Hc : closed c || (maxBytes c <=? 0) || (maxBytes c <? sz) = closed c || (maxBytes c <? sz)).
  { destruct (closed c); [done|]. simpl. destruct (maxBytes c <=? 0) eqn:E; [|done]. ztests.
    symmetry. apply Z.ltb_lt. lia. }
  rewrite Hc. destruct (closed c || (maxBytes c <? sz)) eqn:E.
  - destruct (delete_refines c k G) as (? & ? & _). done.
  - ztests.
    set (ent := {| key := k; value := v; insertedAt := now; expiresAt := exp;
                   lastAccess := now; estimatedSize := sz |}).
    destruct (insertEntry_refines c ent W B) as (W' & Hs & He); try done.
    unfold enforceLimitsLocked.
    destruct (enforceLoop_refines (length (lru (insertEntry c ent))) (insertEntry c ent) W')
      as (W'' & Hs' & Hfit & Hev); [done|].
    assert (Hev0 : evictions (insertEntry c ent) = evictions c).
    { unfold insertEntry. by case_match. }
    pose proof (same_limits_trans _ _ _ Hs Hs') as Hs''.
    rewrite He, (same_limits_slots _ _ Hs), (proj1 Hs) in Hfit.
    rewrite He, (same_limits_slots _ _ Hs), (proj1 Hs), Hev0 in Hev.
    split_and!; [split| |]; simpl; try done.
    + apply bounded_not_over; [done|]. rewrite Hfit, (same_limits_slots _ _ Hs''), (proj1 Hs'').
      apply fit_within. apply W.
    + unfold abs. rewrite Hfit, Hev, (same_limits_slots _ _ Hs''), (proj1 Hs'').
      destruct Hs'' as (_ & _ & ->). done.
Qed.

Lemma get_refines c now k grace stale :
  good c →
  let g := if (stale : bool) then Some grace else None in
  good (get c now k grace stale).1 ∧
  abs (get c now k grace stale).1 = (spec_get (abs c) now k g).1 ∧
  (get c now k grace stale).2 = (spec_get (abs c) now k g).2.
Proof.
  intros G g. pose proof G as [W B]. unfold get, spec_get. simpl. rewrite spec_find_lookup by done.
  unfold lookup_entry. destruct (items c !! k) as [el|] eqn:Ek; simpl; [|done].
  apply W in Ek as Hk. destruct Hk as (e & He & Hk). rewrite He. simpl.
  set (lim := if stale && (0 <? grace) then t_add (expiresAt e) grace else expiresAt e).
  assert (Hlim : lim = expiresAt e + Z.max 0 (default 0 g)).
  { unfold lim, g, t_add. destruct stale; simpl; [|lia].
    destruct (0 <? grace) eqn:E; ztests; lia. }
  unfold t_before. rewrite Hlim. destruct (now <? _); simpl.
  - set (c' := {| maxBytes := _ |}).
    destruct (overwrite_refines c el e (touch e now) c') as (W' & He'); try done.
    + simpl. by eapply W.
    + simpl. lia.
    + simpl. apply W.
    + rewrite Hk in He'. split_and!; [split; [done|]| |done].
      * pose proof (length_ents c' W') as Hlen. rewrite He' in Hlen. simpl in Hlen.
        unfold bounded. simpl. destruct B as [B1 B2]. split; [done|]. intros HE.
        rewrite <- Hlen. specialize (B2 HE). rewrite <- (length_ents c W) in B2.
        assert (Hlt : (length (without k (ents c)) < length (ents c))%nat).
        { unfold without. apply (length_filter_lt _ _ e); [|naive_solver].
          apply ents_elem; eauto. }
        simpl. lia.
      * unfold abs. rewrite He'. done.
  - assert (Hb : negb stale || negb (grace =? 0) = negb (bool_decide (g = Some 0))).
    { unfold g. destruct stale; simpl; [|done]. f_equal.
      destruct (Z.eqb_spec grace 0) as [->|Hne]; symmetry; [by apply bool_decide_eq_true_2|].
      apply bool_decide_eq_false_2. by intros [= ?]. }
    rewrite Hb. destruct (bool_decide (g = Some 0)); simpl; [done|].
    destruct (delete_refines c k G) as (Hg & Ha & _). unfold Delete, removeLocked in Hg, Ha.
    rewrite Ek in Hg, Ha. done.
Qed.

Lemma empty_good mb me ev cl n :
  0 <= mb < maxBudget → in_u64 ev →
  good {| maxBytes := mb; maxEntries := me; items := ∅; elems := ∅; lru := []; cbytes := 0;
          evictions := ev; closed := cl; next := n |}.
Proof.
  intros Hm He. split; [constructor|split]; simpl; try done; try width_lia.
  - apply NoDup_nil_2.
  - intros el. rewrite lookup_empty. split; [by intros ?%elem_of_nil|by intros [? ?]].
  - intros k el. rewrite lookup_empty. split; [done|]. intros (e & He' & _).
    by rewrite lookup_empty in He'.
  - by intros el ?%elem_of_nil.
Qed.

Lemma exec_refines c o :
  good c → op_fits o →
  good (exec c o).1 ∧ abs (exec c o).1 = (spec_exec (abs c) o).1 ∧
  (exec c o).2 = (spec_exec (abs c) o).2.
Proof.
  intros G Hf. pose proof G as [W B]. destruct o as [now k v ttl|now k v exp|now k|now k g|now k|k| | |]; simpl in *.
  - unfold Put, t_add. case_if; [done|].
    destruct (put_refines c k v now (now + ttl) G Hf) as (? & ? & Hb).
    destruct (put c k v now (now + ttl)), (spec_put (abs c) k v now (now + ttl)). simpl in *. by subst.
  - unfold PutUntil, t_before. case_if; [done|].
    destruct (Z.ltb_spec now exp); simpl.
    + rewrite (proj2 (Z.leb_gt exp now)) by lia.
      destruct (put_refines c k v now exp G Hf) as (? & ? & Hb).
      destruct (put c k v now exp), (spec_put (abs c) k v now exp). simpl in *. by subst.
    + rewrite (proj2 (Z.leb_le exp now)) by lia.
      destruct (delete_refines c k G) as (? & ? & _). done.
  - unfold Get. destruct (get_refines c now k 0 false G) as (? & ? & Hb).
    destruct (get c now k 0 false), (spec_get (abs c) now k None). simpl in *. by subst.
  - unfold GetStale. destruct (get_refines c now k g true G) as (? & ? & Hb).
    destruct (get c now k g true), (spec_get (abs c) now k (Some g)). simpl in *. by subst.
  - split_and!; [done|done|]. rewrite spec_find_lookup by done.
    unfold Inspect, lookup_entry, t_before. destruct (items c !! k) as [el|]; simpl; [|done].
    destruct (elems c !! el) as [e|]; simpl; [|done]. by destruct (now <? expiresAt e).
  - destruct (delete_refines c k G) as (? & ? & Hb). destruct (Delete c k). simpl in *. by subst.
  - split_and!; [|done|done]. by apply empty_good; apply W.
  - split_and!; [|done|done]. by apply empty_good; apply W.
  - split_and!; [done|done|]. unfold stats. by rewrite (size_items c W), <- (length_ents c W), (wf_bytes c W).
Qed.

Lemma New_good maxB maxE :
  maxB < maxBudget → good (New maxB maxE) ∧ abs (New maxB maxE) = spec_new maxB maxE.
Proof.
  intros H. assert (Hm : (if maxB <? 0 then 0 else maxB) = Z.max 0 maxB) by (case_if; ztests; lia).
  unfold New, abs, spec_new, slots, ents. simpl. rewrite Hm. split; [|done].
  apply empty_good; simpl; unfold maxBudget in *; width_lia.
Qed.

Lemma runOps_refines l c :
  good c → Forall op_fits l →
  good (runOps exec c l).1 ∧ abs (runOps exec c l).1 = (runOps spec_exec (abs c) l).1 ∧
  (runOps exec c l).2 = (runOps spec_exec (abs c) l).2.
Proof.
  revert c. induction l as [|o l IH]; intros c G Hf; [done|]. apply Forall_cons in Hf as [Ho Hl].
  simpl. destruct (exec_refines c o G Ho) as (G' & Ha & Hr).
  destruct (exec c o) as [c' r], (spec_exec (abs c) o) as [a' r']. simpl in *. subst.
  destruct (IH c' G' Hl) as (? & Hr & Hr'). destruct (runOps exec c' l), (runOps spec_exec (abs c') l).
  simpl in *. by subst.
Qed.

Lemma spec_exec_limits a o :
  l_max (spec_exec a o).1 = l_max a ∧ l_slots (spec_exec a o).1 = l_slots a.
Proof.
  destruct o; simpl; unfold spec_put, spec_get, spec_delete, spec_set; repeat case_match; simpl;
    simplify_eq; try done; simpl; split; done.
Qed.

Lemma runOps_spec_limits l a :
  l_max (runOps spec_exec a l).1 = l_max a ∧ l_slots (runOps spec_exec a l).1 = l_slots a.
Proof.
  revert a. induction l as [|o l IH]; intros a; [done|]. simpl.
  destruct (spec_exec_limits a o) as [H1 H2]. destruct (spec_exec a o) as [a' r]. simpl in *.
  destruct (IH a') as [H3 H4]. destruct (runOps spec_exec a' l). simpl in *. by rewrite H3, H4.
Qed.

Lemma ents_bytes c : wf c →
  cbytes c = sumZ (λ e, slen (key e) + blen (value e) + entryOverheadBytes) (ents c).
Proof.
  intros W. rewrite (wf_bytes c W). apply sumZ_ext. intros e He.
  apply ents_elem in He as [el He]; [|done]. by eapply W.
Qed.

Lemma lookup_after_put c k v now exp :
  good c → fits k v → closed c = false → slen k + blen v + entryOverheadBytes <= maxBytes c →
  lookup_entry (put c k v now exp).1 k =
    Some {| key := k; value := v; insertedAt := now; expiresAt := exp; lastAccess := now;
            estimatedSize := slen k + blen v + entryOverheadBytes |}.
Proof.
  intros G Hf Hc Hle. destruct (put_refines c k v now exp G Hf) as ([W' _] & Ha & _).
  apply (f_equal l_ents) in Ha. unfold spec_put in Ha. simpl in Ha.
  rewrite Hc, (proj2 (Z.ltb_ge _ _) Hle) in Ha. simpl in Ha.
  apply lookup_entry_Some; [done|]. split; [|done].
  rewrite (proj2 (Z.leb_le _ _) Hle) in Ha. rewrite Ha.
  pose proof (slots_not_zero c). destruct (slots c) as [[|n]|]; try done; left.
Qed.

End lrumachine.

(** ** Guarantees *)
Import cache lruspec lrumachine.

(** C3. The map, the linked list and the byte counter of the Go cache implement an
    abstract LRU cache: from [New maxB maxE], any sequence of [Put], [PutUntil],
    [Get], [GetStale], [Inspect], [Delete], [Purge], [Close] and [Stats] calls (with
    any clock readings) gets exactly the answers of the machine whose state is the
    list of entries, most recent first, and whose eviction keeps the longest prefix
    within the byte and entry limits. *)
Theorem cache_refines_lru maxB maxE ops :
  maxB < maxBudget → Forall op_fits ops →
  (runOps exec (New maxB maxE) ops).2 = (runOps spec_exec (spec_new maxB maxE) ops).2.
Proof.
  intros Hb Hf. destruct (New_good maxB maxE Hb) as [G Ha].
  destruct (runOps_refines ops _ G Hf) as (_ & _ & ->). by rewrite Ha.
Qed.

Definition demo_ops : list op :=
  [OpPut 10 "a" (bytes_of "one") 100; OpPut 11 "b" (bytes_of "two") 5; OpGet 12 "a";
   OpPut 13 "c" (bytes_of "three") 50; OpGet 14 "b"; OpGetStale 80 "c" 0; OpGet 80 "c"; OpStats].

Lemma cache_refines_lru_witness :
  300 < maxBudget ∧ Forall op_fits demo_ops ∧
  (runOps exec (New 300 2) demo_ops).2 = (runOps spec_exec (spec_new 300 2) demo_ops).2.
Proof.
  assert (H1 : 300 < maxBudget) by (unfold maxBudget; lia).
  assert (H2 : Forall op_fits demo_ops) by (repeat constructor; vm_compute; congruence).
  split_and!; [done|done|]. apply (cache_refines_lru 300 2 demo_ops); done.
Defined.

(** Whatever calls are made, the cache stays within the limits it was built
    with: the reported bytes are the sum of the accounted entry sizes (key plus
    value plus 128), never negative and never above the byte limit, and when an
    entry limit is set the reported entries never exceed it. *)
Theorem cache_within_limits maxB maxE ops :
  maxB < maxBudget → Forall op_fits ops →
  let c := (runOps exec (New maxB maxE) ops).1 in
  0 <= Bytes (stats c) <= Z.max 0 maxB ∧
  (0 < maxE → Entries (stats c) <= maxE) ∧
  Entries (stats c) = Z.of_nat (length (ents c)) ∧
  Bytes (stats c) = sumZ (λ e, slen (key e) + blen (value e) + entryOverheadBytes) (ents c).
Proof.
  intros Hb Hf c. destruct (New_good maxB maxE Hb) as [G Ha].
  destruct (runOps_refines ops _ G Hf) as ([W B] & Habs & _). fold c in W, B, Habs.
  destruct (runOps_spec_limits ops (abs (New maxB maxE))) as [Hm Hs].
  rewrite <- Habs, Ha in Hm. rewrite <- Habs, Ha in Hs. simpl in Hm, Hs.
  destruct B as [B1 B2]. unfold stats. simpl. rewrite (size_items c W), <- (length_ents c W) in *.
  split_and!; [|lia| |done|by apply ents_bytes].
  - rewrite (wf_bytes c W). apply sumZ_nonneg. intros e He. apply Z.lt_le_incl. by eapply ents_size_pos.
  - intros HE. rewrite (proj2 (Z.ltb_lt _ _) HE) in Hs. unfold slots in Hs.
    destruct (0 <? maxEntries c) eqn:E; [|done]. ztests. injection Hs as Hs. lia.
Qed.

Lemma cache_within_limits_witness :
  let c := (runOps exec (New 300 2) demo_ops).1 in
  0 <= Bytes (stats c) <= Z.max 0 300 ∧ (0 < 2 → Entries (stats c) <= 2) ∧
  Entries (stats c) = Z.of_nat (length (ents c)) ∧
  Bytes (stats c) = sumZ (λ e, slen (key e) + blen (value e) + entryOverheadBytes) (ents c).
Proof.
  apply (cache_within_limits 300 2 demo_ops); [unfold maxBudget; lia|].
  repeat constructor; vm_compute; congruence.
Defined.

(** Round trip: a value stored with [Put] in an open cache that can hold it is
    what every [Get] of that key returns until the entry's lifetime ends, with the
    expiry of the store, whatever had to be evicted to make room. *)
Theorem put_get_roundtrip c k v now now' ttl :
  good c → closed c = false → k ≠ EmptyString → fits k v →
  slen k + blen v + entryOverheadBytes <= maxBytes c → 0 < ttl → now' < now + ttl →
  ∃ s, (Get (Put c now k v ttl).1 now' k).2 = Some s ∧
       sKey s = k ∧ sValue s = v ∧ sExpiresAt s = now + ttl ∧ sInsertedAt s = now.
Proof.
  intros G Hc Hk Hf Hle Httl Hnow. unfold Put.
  rewrite (proj2 (Z.leb_gt _ _) Httl), bool_decide_eq_false_2 by done. simpl.
  pose proof (lookup_after_put c k v now (t_add now ttl) G Hf Hc Hle) as Hl.
  destruct (put_refines c k v now (t_add now ttl) G Hf) as (G' & _ & _).
  set (c' := (put c k v now (t_add now ttl)).1) in *.
  destruct (get_refines c' now' k 0 false G') as (_ & _ & Hr). unfold Get. rewrite Hr.
  unfold spec_get. simpl. rewrite spec_find_lookup, Hl by apply G'. simpl. unfold t_add.
  rewrite Z.add_0_r, (proj2 (Z.ltb_lt _ _) Hnow). eexists. by split_and!.
Qed.

Lemma put_get_roundtrip_witness :
  ∃ s, (Get (Put (New 300 2) 10 "a" (bytes_of "one") 100).1 50 "a").2 = Some s ∧
       sKey s = "a" ∧ sValue s = bytes_of "one" ∧ sExpiresAt s = 10 + 100 ∧ sInsertedAt s = 10.
Proof.
  apply (put_get_roundtrip (New 300 2) "a" (bytes_of "one") 10 50 100);
    try (vm_compute; congruence).
  apply New_good. unfold maxBudget. lia.
Defined.

(** A lookup answers exactly the entry stored under the key, and only while
    the clock is before its expiry (plus the grace period of a stale read): an
    expired value is never returned, on any branch. *)
Theorem get_returns_unexpired c now k grace stale s :
  good c →
  (get c now k grace stale).2 = Some s ↔
  ∃ e, lookup_entry c k = Some e ∧
       now < expiresAt e + (if stale then Z.max 0 grace else 0) ∧
       s = snapshot (touch e now) now.
Proof.
  intros G. destruct (get_refines c now k grace stale G) as (_ & _ & ->). unfold spec_get. simpl.
  rewrite spec_find_lookup by apply G.
  replace (default 0 _) with (if stale then grace else 0) by by destruct stale.
  replace (Z.max 0 _) with (if stale then Z.max 0 grace else 0) by by destruct stale.
  destruct (lookup_entry c k) as [e|]; [|naive_solver].
  destruct (Z.ltb_spec now (expiresAt e + (if stale then Z.max 0 grace else 0))); simpl; split.
  - intros [= <-]. by exists e.
  - by intros (e' & [= <-] & _ & ->).
  - done.
  - intros (e' & [= <-] & ? & _). lia.
Qed.

Definition demo_cache : Cache := (runOps exec (New 300 2) (take 2 demo_ops)).1.

Lemma get_returns_unexpired_witness :
  ((get demo_cache 20 "b" 7 true).2 = Some
     {| sKey := "b"; sValue := bytes_of "two"; sInsertedAt := 11; sExpiresAt := 16;
        sLastAccess := 20; sEstimatedSize := 132; sAge := 9; sTTL := 0 |}) ↔
  ∃ e, lookup_entry demo_cache "b" = Some e ∧
       20 < expiresAt e + (if true then Z.max 0 7 else 0) ∧
       {| sKey := "b"; sValue := bytes_of "two"; sInsertedAt := 11; sExpiresAt := 16;
          sLastAccess := 20; sEstimatedSize := 132; sAge := 9; sTTL := 0 |}
       = snapshot (touch e 20) 20.
Proof.
  apply (get_returns_unexpired demo_cache 20 "b" 7 true). unfold demo_cache.
  apply runOps_refines; [apply New_good; unfold maxBudget; lia|].
  repeat constructor; vm_compute; congruence.
Defined.

(** [PutUntil], which moves a value between cache tiers, never extends a
    lifetime: what is stored under the key afterwards expires at the given instant,
    in the future of the clock reading, and no other entry is changed. *)
Theorem putUntil_keeps_expiry c now k v exp k' e :
  good c → fits k v → k ≠ EmptyString →
  lookup_entry (PutUntil c now k v exp).1 k' = Some e →
  if decide (k' = k) then now < exp ∧ expiresAt e = exp ∧ value e = v
  else lookup_entry c k' = Some e.
Proof.
  intros G Hf Hk. pose proof G as [W _]. unfold PutUntil.
  rewrite bool_decide_eq_false_2 by done. unfold t_before.
  destruct (delete_refines c k G) as ([Wd _] & Hd & _). apply (f_equal l_ents) in Hd. simpl in Hd.
  assert (Hdel : lookup_entry (Delete c k).1 k' = Some e → k' ≠ k ∧ lookup_entry c k' = Some e).
  { intros H. apply lookup_entry_Some in H as [He Hk']; [|done]. rewrite Hd in He.
    apply without_elem in He as [He Hne]. split; [by subst|]. by apply lookup_entry_Some. }
  destruct (Z.ltb_spec now exp) as [Hlt|]; simpl.
  2:{ intros [Hne ?]%Hdel. by rewrite decide_False. }
  destruct (put_refines c k v now exp G Hf) as ([Wp _] & Hp & _).
  apply (f_equal l_ents) in Hp. unfold spec_put in Hp. cbn -[fit] in Hp.
  intros H. apply lookup_entry_Some in H as [He Hk']; [|done]. rewrite Hp in He.
  destruct (closed c || _); cbn -[fit] in He.
  - apply without_elem in He as [He Hne]. rewrite decide_False by (by subst).
    by apply lookup_entry_Some.
  - apply fit_elem in He. apply elem_of_cons in He as [->|He].
    + simpl in Hk'. by rewrite decide_True.
    + apply without_elem in He as [He Hne]. rewrite decide_False by (by subst).
      by apply lookup_entry_Some.
Qed.

Lemma putUntil_keeps_expiry_witness :
  if decide ("b" = "b") then 12 < 40 ∧ expiresAt
    {| key := "b"; value := bytes_of "x"; insertedAt := 12; expiresAt := 40; lastAccess := 12;
       estimatedSize := 130 |} = 40 ∧ bytes_of "x" = bytes_of "x"
  else lookup_entry demo_cache "b" = Some
    {| key := "b"; value := bytes_of "x"; insertedAt := 12; expiresAt := 40; lastAccess := 12;
       estimatedSize := 130 |}.
Proof.
  apply (putUntil_keeps_expiry demo_cache 12 "b" (bytes_of "x") 40 "b"
    {| key := "b"; value := bytes_of "x"; insertedAt := 12; expiresAt := 40; lastAccess := 12;
       estimatedSize := 130 |}); try (vm_compute; congruence).
  unfold demo_cache. apply runOps_refines; [apply New_good; unfold maxBudget; lia|].
  repeat constructor; vm_compute; congruence.
Defined.
