(* ===== verification/CacheHeld.v ===== *)
(** * What a cache operation can do to the values that are held

    The view of internal/cache that the service needs: which value is held for a
    key, that no operation makes a value appear except the one it stores, and that
    limits and well-formedness are kept. *)
From stdpp Require Import prelude gmap strings list fin_maps.
From Stdlib Require Import ZArith Lia.
From S2P Require Import Prelude Cache CacheSpec CacheProps.
Local Open Scope Z_scope.

Module cacheheld.
Import cache lruspec lrumachine.

(** The value held for a key, expired or not. *)
Definition held (c : Cache) (k : string) : option bytes := value <$> lookup_entry c k.

Lemma held_Some c k v : wf c → held c k = Some v ↔ ∃ e, e ∈ ents c ∧ key e = k ∧ value e = v.
Proof.
  intros W. unfold held. rewrite fmap_Some. split.
  - intros (e & He & ->). apply lookup_entry_Some in He as [? ?]; [|done]. eauto.
  - intros (e & He & Hk & <-). exists e. split; [|done]. by apply lookup_entry_Some.
Qed.

(** [c'] may follow [c] in an operation that stores at most the values of [new]. *)
Record follows (new : string → bytes → Prop) (c c' : Cache) : Prop := {
  fo_good : good c';
  fo_max : maxBytes c' = maxBytes c;
  fo_slots : slots c' = slots c;
  fo_held : ∀ k v, held c' k = Some v → held c k = Some v ∨ new k v
}.

Definition nothing : string → bytes → Prop := λ _ _, False.
Definition only (k0 : string) (v0 : bytes) : string → bytes → Prop := λ k v, k = k0 ∧ v = v0.

(** The value an operation stores, if it stores one. *)
Definition stores (o : op) : string → bytes → Prop :=
  match o with
  | OpPut _ k v _ | OpPutUntil _ k v _ => only k v
  | _ => nothing
  end.

Lemma spec_put_ents a k v now exp e :
  e ∈ l_ents (spec_put a k v now exp).1 → e ∈ l_ents a ∨ (key e = k ∧ value e = v).
Proof.
  unfold spec_put. case_if; cbn -[fit].
  - intros [? _]%without_elem. by left.
  - intros He. apply fit_elem in He.
    apply elem_of_cons in He as [->|[? _]%without_elem]; [by right|by left].
Qed.

Lemma spec_find_elem k l e : spec_find k l = Some e → e ∈ l ∧ key e = k.
Proof. unfold spec_find. intros He%head_Some_elem_of. apply list_elem_of_filter in He. tauto. Qed.

Lemma spec_get_ents a now k g e :
  e ∈ l_ents (spec_get a now k g).1 → ∃ e', e' ∈ l_ents a ∧ key e' = key e ∧ value e' = value e.
Proof.
  unfold spec_get. destruct (spec_find k (l_ents a)) as [e0|] eqn:E; [|by eauto].
  apply spec_find_elem in E as [E Hk]. repeat case_if; simpl.
  - intros [->|[? _]%without_elem]%elem_of_cons; eauto.
  - eauto.
  - intros [? _]%without_elem. eauto.
Qed.

Lemma spec_exec_ents a o e :
  e ∈ l_ents (spec_exec a o).1 →
  (∃ e', e' ∈ l_ents a ∧ key e' = key e ∧ value e' = value e) ∨ stores o (key e) (value e).
Proof.
  assert (Hput : ∀ k v now exp, e ∈ l_ents (spec_put a k v now exp).1 →
    (∃ e', e' ∈ l_ents a ∧ key e' = key e ∧ value e' = value e) ∨ only k v (key e) (value e)).
  { intros k v now exp He. apply spec_put_ents in He as [?|[? ?]]; [left; eauto|by right]. }
  destruct o; simpl.
  - case_if; simpl; [by left; eauto|]. destruct (spec_put _ _ _ _ _) eqn:E. simpl. intros He.
    eapply Hput. by rewrite E.
  - case_if; simpl; [by left; eauto|]. case_if; simpl; [intros [? _]%without_elem; left; eauto|].
    destruct (spec_put _ _ _ _ _) eqn:E. simpl. intros He. eapply Hput. by rewrite E.
  - destruct (spec_get _ _ _ _) eqn:E. simpl. intros He. left. eapply spec_get_ents. by rewrite E.
  - destruct (spec_get _ _ _ _) eqn:E. simpl. intros He. left. eapply spec_get_ents. by rewrite E.
  - eauto.
  - intros [? _]%without_elem. eauto.
  - by intros ?%elem_of_nil.
  - by intros ?%elem_of_nil.
  - eauto.
Qed.

Lemma exec_follows c o : good c → op_fits o → follows (stores o) c (exec c o).1.
Proof.
  intros G Hf. destruct (exec_refines c o G Hf) as (G' & Ha & _). split; [done|..].
  - apply (f_equal l_max) in Ha. simpl in Ha. rewrite Ha. apply (spec_exec_limits (abs c) o).
  - apply (f_equal l_slots) in Ha. simpl in Ha. rewrite Ha. apply (spec_exec_limits (abs c) o).
  - intros k v Hh. apply held_Some in Hh as (e & He & <- & <-); [|apply G'].
    apply (f_equal l_ents) in Ha. simpl in Ha. rewrite Ha in He. apply spec_exec_ents in He as [(e' & ? & ? & ?)|?].
    + left. apply held_Some; [apply G|]. eauto.
    + by right.
Qed.

Lemma follows_refl c : good c → follows nothing c c.
Proof. intros G. split; [done..|]. by left. Qed.

Lemma follows_mono (new new' : string → bytes → Prop) c c' :
  (∀ k v, new k v → new' k v) → follows new c c' → follows new' c c'.
Proof. intros Hn [? ? ? Hh]. split; [done..|]. intros k v Hk. destruct (Hh k v Hk); auto. Qed.

(** ** Operation by operation *)
Section ops.
Context (c : Cache) (G : good c).

Lemma Delete_follows k : follows nothing c (Delete c k).1.
Proof. pose proof (exec_follows c (OpDelete k) G I) as Hx. simpl in Hx. by destruct (Delete c k). Qed.

Lemma Delete_held k : held (Delete c k).1 k = None.
Proof.
  destruct (held _ _) as [v|] eqn:E; [|done]. destruct (delete_refines c k G) as ([W' _] & Ha & _).
  apply held_Some in E as (e & He & Hk & _); [|done].
  apply (f_equal l_ents) in Ha. simpl in Ha. rewrite Ha in He. by apply without_elem in He as [_ ?].
Qed.

Lemma get_follows now k grace stale : follows nothing c (get c now k grace stale).1.
Proof.
  destruct stale.
  - pose proof (exec_follows c (OpGetStale now k grace) G I) as Hx. simpl in Hx. unfold GetStale in Hx.
    by destruct (get c now k grace true).
  - pose proof (exec_follows c (OpGet now k) G I) as Hx. simpl in Hx. unfold Get in Hx.
    change (get c now k grace false) with (get c now k 0 false). by destruct (get c now k 0 false).
Qed.

(** What a lookup answers is what is held. *)
Lemma get_held now k grace stale s :
  (get c now k grace stale).2 = Some s → held c k = Some (sValue s).
Proof.
  intros Hs. unfold held, lookup_entry. unfold get in Hs.
  destruct (items c !! k) as [el|]; [|done]. simpl. destruct (elems c !! el) as [e|]; [|done].
  simpl. revert Hs. repeat case_if; simpl; try done; by intros [= <-].
Qed.

Lemma Put_follows now k v ttl : fits k v → follows (only k v) c (Put c now k v ttl).1.
Proof.
  intros Hf. pose proof (exec_follows c (OpPut now k v ttl) G Hf) as Hx. simpl in Hx. by destruct (Put _ _ _ _ _).
Qed.

Lemma PutUntil_follows now k v exp : fits k v → follows (only k v) c (PutUntil c now k v exp).1.
Proof.
  intros Hf. pose proof (exec_follows c (OpPutUntil now k v exp) G Hf) as Hx. simpl in Hx.
  by destruct (PutUntil _ _ _ _ _).
Qed.

Lemma Purge_follows : follows nothing c (Purge c).
Proof. apply (exec_follows c OpPurge G I). Qed.

Lemma Purge_held k : held (Purge c) k = None.
Proof. done. Qed.

Lemma Close_follows : follows nothing c (Close c).
Proof. apply (exec_follows c OpClose G I). Qed.

End ops.

Lemma New_held maxB maxE k : held (New maxB maxE) k = None.
Proof. done. Qed.

End cacheheld.
