(* ===== verification/Float64.v ===== *)
(** * float64 arithmetic

    The hotness tracker computes scores with [float64] and [math.Pow],
    [math.Log], [math.Floor] and [math.Round]. [Float64] is the interface the
    tracker is written against: operations only, no laws, so what is proved about
    the tracker holds for every interpretation of them, rounding and NaN included.
    [binary64] is the IEEE-754 double interpretation that Go computes with
    (round to nearest even, no fused multiply-add), with the algorithms of Go's
    portable math package; it makes the model executable. *)
From stdpp Require Import prelude.
From Stdlib Require Import ZArith Lia SpecFloat.
From S2P Require Import Prelude.
Local Open Scope Z_scope.

Class Float64 (F : Type) := {
  fadd : F → F → F;
  fsub : F → F → F;
  fmul : F → F → F;
  fdiv : F → F → F;
  flt : F → F → bool;
  fle : F → F → bool;
  feq : F → F → bool;
  (** [float64(n)] for an integer [n]. *)
  fofZ : Z → F;
  (** [int64(x)]: truncation. *)
  ftoi64 : F → Z;
  fpow : F → F → F;
  flog : F → F;
  ffloor : F → F;
  fround : F → F;
  (** [math.IsNaN] and [math.IsInf(x, 0)]. *)
  fisnan : F → bool;
  fisinf : F → bool
}.

Declare Scope f64_scope.
Delimit Scope f64_scope with f64.
Infix "+" := fadd : f64_scope.
Infix "-" := fsub : f64_scope.
Infix "*" := fmul : f64_scope.
Infix "/" := fdiv : f64_scope.
Notation "x <? y" := (flt x y) : f64_scope.
Notation "x <=? y" := (fle x y) : f64_scope.
(** Go's [x >= y] and [x > y]: false when an operand is NaN. *)
Notation "x >=? y" := (fle y x) : f64_scope.
Notation "x >? y" := (flt y x) : f64_scope.
Notation "x =? y" := (feq x y) : f64_scope.

Section constants.
Context {F : Type} `{Float64 F}.

Definition f0 : F := fofZ 0.
Definition f1 : F := fofZ 1.
Definition fhalf : F := (fofZ 1 / fofZ 2)%f64.

(** [Duration.Seconds]: whole seconds plus the fraction over 1e9. *)
Definition seconds (d : Duration) : F :=
  (fofZ (Z.quot d Second) + fofZ (Z.rem d Second) / fofZ 1000000000)%f64.

End constants.

(** ** The IEEE-754 instance *)
Module binary64.

Definition prec : Z := 53.
Definition emax : Z := 1024.

Definition ofZ (z : Z) : spec_float := binary_normalize prec emax z 0 false.

(** A finite positive double from its 64 bits. *)
Definition ofBits (b : Z) : spec_float :=
  let m := Z.land b (2 ^ 52 - 1) in
  let e := Z.shiftr b 52 in
  if e =? 0 then binary_normalize prec emax m (-1074) false
  else binary_normalize prec emax (2 ^ 52 + m) (e - 1075) false.

Definition add := SFadd prec emax.
Definition sub := SFsub prec emax.
Definition mul := SFmul prec emax.
Definition div := SFdiv prec emax.

(** The integer part toward zero, of the magnitude of a finite number. *)
Definition truncMag (m : positive) (e : Z) : Z :=
  if 0 <=? e then Z.pos m * 2 ^ e else Z.pos m / 2 ^ (- e).

Definition signed (s : bool) (z : Z) : Z := if s then - z else z.

Definition toi64 (x : spec_float) : Z :=
  match x with
  | S754_zero _ => 0
  | S754_finite s m e =>
      let z := signed s (truncMag m e) in
      if (minInt64 <=? z) && (z <=? maxInt64) then z else minInt64
  | _ => minInt64
  end.

Definition floor (x : spec_float) : spec_float :=
  match x with
  | S754_finite s m e =>
      if 0 <=? e then x else ofZ (signed s (Z.pos m) / 2 ^ (- e))
  | _ => x
  end.

(** [math.Round]: half away from zero, keeping the sign of a zero. *)
Definition round (x : spec_float) : spec_float :=
  match x with
  | S754_finite s m e =>
      if 0 <=? e then x
      else let q := (2 * Z.pos m + 2 ^ (- e)) / (2 * 2 ^ (- e)) in
           if q =? 0 then S754_zero s else ofZ (signed s q)
  | _ => x
  end.

Definition isnan (x : spec_float) : bool := match x with S754_nan => true | _ => false end.
Definition isinf (x : spec_float) : bool := match x with S754_infinity _ => true | _ => false end.

(** [math.Pow] for an integral exponent: repeated squaring on the fraction of
    [math.Frexp] with the exponent carried apart. The loop halves [i]. *)
Fixpoint powLoop (fuel : nat) (i : Z) (a1 : spec_float) (ae : Z) (x1 : spec_float) (xe : Z)
    : spec_float * Z :=
  match fuel with
  | O => (a1, ae)
  | S fuel' =>
      if i =? 0 then (a1, ae)
      else if (xe <? -4096) || (4096 <? xe) then (a1, ae + xe)
      else
        let '(a1', ae') := if Z.odd i then (mul a1 x1, ae + xe) else (a1, ae) in
        let x2 := mul x1 x1 in
        let xe2 := 2 * xe in
        let '(x3, xe3) := if SFltb x2 (div (ofZ 1) (ofZ 2)) then (add x2 x2, xe2 - 1) else (x2, xe2) in
        powLoop fuel' (Z.shiftr i 1) a1' ae' x3 xe3
  end.

Definition pow (x y : spec_float) : spec_float :=
  if SFeqb y (ofZ 0) || SFeqb x (ofZ 1) then ofZ 1
  else if SFeqb y (ofZ 1) then x
  else if isnan x || isnan y then S754_nan
  else match x with
  | S754_zero _ => if SFltb y (ofZ 0) then S754_infinity false else S754_zero false
  | S754_infinity _ => if SFltb y (ofZ 0) then S754_zero false else S754_infinity false
  | _ =>
      let n := toi64 y in
      let '(x1, xe) := SFfrexp prec emax x in
      let '(a1, ae) := powLoop 64 (Z.abs n) (ofZ 1) 0 x1 xe in
      if SFltb y (ofZ 0) then SFldexp prec emax (div (ofZ 1) a1) (- ae)
      else SFldexp prec emax a1 ae
  end.

(** [math.Log], the FreeBSD algorithm of Go's portable implementation. *)
Definition log (x : spec_float) : spec_float :=
  if isnan x then x
  else match x with
  | S754_infinity false => x
  | S754_zero _ => S754_infinity true
  | S754_infinity true | S754_finite true _ _ => S754_nan
  | _ =>
      let '(fr0, ki0) := SFfrexp prec emax x in
      let '(fr, ki) := if SFltb fr0 (ofBits 0x3FE6A09E667F3BCD) then (mul fr0 (ofZ 2), ki0 - 1)
                       else (fr0, ki0) in
      let f := sub fr (ofZ 1) in
      let k := ofZ ki in
      let s := div f (add (ofZ 2) f) in
      let s2 := mul s s in
      let s4 := mul s2 s2 in
      let t1 := mul s2 (add (ofBits 0x3FE5555555555593)
                  (mul s4 (add (ofBits 0x3FD2492494229359)
                    (mul s4 (add (ofBits 0x3FC7466496CB03DE)
                      (mul s4 (ofBits 0x3FC2F112DF3E5244))))))) in
      let t2 := mul s4 (add (ofBits 0x3FD999999997FA04)
                  (mul s4 (add (ofBits 0x3FCC71C51D8E78AF)
                    (mul s4 (ofBits 0x3FC39A09D078C69F))))) in
      let r := add t1 t2 in
      let hfsq := mul (mul (div (ofZ 1) (ofZ 2)) f) f in
      sub (mul k (ofBits 0x3FE62E42FEE00000))
          (sub (sub hfsq (add (mul s (add f r)) (mul k (ofBits 0x3DEA39EF35793C76)))) f)
  end.

#[export] Instance binary64 : Float64 spec_float := {|
  fadd := add; fsub := sub; fmul := mul; fdiv := div;
  flt := SFltb; fle := SFleb; feq := SFeqb;
  fofZ := ofZ; ftoi64 := toi64; fpow := pow; flog := log; ffloor := floor; fround := round;
  fisnan := isnan; fisinf := isinf |}.

Example pow_half_ten : pow (div (ofZ 1) (ofZ 2)) (ofZ 10) = div (ofZ 1) (ofZ 1024).
Proof. vm_compute. reflexivity. Qed.

Example log_ratio : toi64 (floor (div (log (div (ofZ 20) (ofZ 1000))) (log (div (ofZ 1) (ofZ 2))))) = 5.
Proof. vm_compute. reflexivity. Qed.

End binary64.
