(* ===== verification/GoStd.v ===== *)
(** * The parts of Go's standard library the program computes with

    [strings.TrimSpace], [strings.ToUpper], [strings.ToLower] and [strings.EqualFold] (on what they
    can be compared with: ASCII literals), [net.SplitHostPort], [strconv.Itoa] and
    [strconv.Atoi], [strconv.ParseBool]; the order of strings. *)
From stdpp Require Import prelude strings list pretty.
From Stdlib Require Import ZArith Lia Ascii OrdersEx.
From S2P Require Import Prelude.
Local Open Scope Z_scope.

Module gostd.

Definition chr (n : nat) : ascii := ascii_of_nat n.
Definition chars (s : string) : list ascii := String.list_ascii_of_string s.
Definition ofChars (l : list ascii) : string := String.string_of_list_ascii l.

Lemma ofChars_chars s : ofChars (chars s) = s.
Proof. apply String.string_of_list_ascii_of_string. Qed.

(** ** strings *)

(** The UTF-8 encodings of the runes with [unicode.IsSpace]. *)
Definition spaceRunes : list (list ascii) :=
  map (map chr)
    ([[9]; [10]; [11]; [12]; [13]; [32]; [194; 133]; [194; 160]; [225; 154; 128]]
     ++ map (λ n, [226; 128; n]) (seq 128 11)
     ++ [[226; 128; 168]; [226; 128; 169]; [226; 128; 175]; [226; 129; 159]; [227; 128; 128]])%nat.

Fixpoint dropPrefix (p s : list ascii) : option (list ascii) :=
  match p, s with
  | [], _ => Some s
  | a :: p', b :: s' => if bool_decide (a = b) then dropPrefix p' s' else None
  | _ :: _, [] => None
  end.

(** Strip the given encodings from the front; each round consumes at least one
    byte, so the length of the text bounds the number of rounds. *)
Fixpoint trimFront (runes : list (list ascii)) (fuel : nat) (s : list ascii) : list ascii :=
  match fuel with
  | O => s
  | S fuel' =>
      match head (omap (λ p, dropPrefix p s) runes) with
      | Some s' => trimFront runes fuel' s'
      | None => s
      end
  end.

Definition TrimSpace (s : string) : string :=
  let l := trimFront spaceRunes (String.length s) (chars s) in
  let r := trimFront (map (@rev ascii) spaceRunes) (length l) (rev l) in
  ofChars (rev r).

Definition upperByte (a : ascii) : ascii :=
  let n := nat_of_ascii a in
  if (97 <=? n)%nat && (n <=? 122)%nat then chr (n - 32) else a.

(** [strings.ToUpper]. Besides the ASCII letters, two runes have an ASCII upper
    case: U+0131 (dotless i) gives I and U+017F (long s) gives S. Every other rune
    outside ASCII gives a rune outside ASCII; those are left as they are, so the
    result is exact wherever it is compared with ASCII text. *)
Fixpoint upperChars (l : list ascii) : list ascii :=
  match l with
  | [] => []
  | a :: l' =>
      match l' with
      | b :: l'' =>
          if bool_decide (a = chr 196 ∧ b = chr 177) then chr 73 :: upperChars l''
          else if bool_decide (a = chr 197 ∧ b = chr 191) then chr 83 :: upperChars l''
          else upperByte a :: upperChars l'
      | [] => [upperByte a]
      end
  end.

Definition ToUpper (s : string) : string := ofChars (upperChars (chars s)).

Definition lowerByte (a : ascii) : ascii :=
  let n := nat_of_ascii a in
  if (65 <=? n)%nat && (n <=? 90)%nat then chr (n + 32) else a.

(** [strings.ToLower], for the texts of error messages. U+0130 and the Kelvin sign
    U+212A give i and k; other runes outside ASCII are left as they are. *)
Fixpoint lowerChars (l : list ascii) : list ascii :=
  match l with
  | [] => []
  | a :: l' =>
      match l' with
      | b :: l'' =>
          if bool_decide (a = chr 196 ∧ b = chr 176) then chr 105 :: lowerChars l''
          else
            match l'' with
            | c :: l3 =>
                if bool_decide (a = chr 226 ∧ b = chr 132 ∧ c = chr 170) then chr 107 :: lowerChars l3
                else lowerByte a :: lowerChars l'
            | [] => lowerByte a :: lowerChars l'
            end
      | [] => [lowerByte a]
      end
  end.

Definition ToLower (s : string) : string := ofChars (lowerChars (chars s)).

(** [strings.EqualFold s t] for an upper-case ASCII text [t]: simple folding adds
    to the case pairs of ASCII only the long s with S and the Kelvin sign with K. *)
Fixpoint foldEq (s t : list ascii) : bool :=
  match t with
  | [] => bool_decide (s = [])
  | u :: t' =>
      match s with
      | a :: s1 =>
          if bool_decide (upperByte a = u) then foldEq s1 t'
          else if bool_decide (u = chr 83) then
            match dropPrefix [chr 197; chr 191] s with Some s' => foldEq s' t' | None => false end
          else if bool_decide (u = chr 75) then
            match dropPrefix [chr 226; chr 132; chr 170] s with Some s' => foldEq s' t' | None => false end
          else false
      | [] => false
      end
  end.

Definition EqualFold (s t : string) : bool := foldEq (chars s) (chars t).

(** The position of the first and of the last occurrence of a byte. *)
Fixpoint indexByte (l : list ascii) (c : ascii) : option nat :=
  match l with
  | [] => None
  | a :: l' => if bool_decide (a = c) then Some O else S <$> indexByte l' c
  end.

Definition lastIndexByte (l : list ascii) (c : ascii) : option nat :=
  (λ i, (length l - 1 - i)%nat) <$> indexByte (rev l) c.

Definition contains (l : list ascii) (c : ascii) : bool := bool_decide (is_Some (indexByte l c)).

(** ** net *)

(** [net.SplitHostPort]; [None] is an address error. *)
Definition SplitHostPort (hostport : string) : option (string * string) :=
  let l := chars hostport in
  match lastIndexByte l ":"%char with
  | None => None
  | Some i =>
      let finish (host : list ascii) (j k : nat) :=
        if contains (drop j l) "["%char then None
        else if contains (drop k l) "]"%char then None
        else Some (ofChars host, ofChars (drop (S i) l)) in
      if bool_decide (head l = Some "["%char) then
        match indexByte l "]"%char with
        | None => None
        | Some e => if (S e =? i)%nat then finish (take (e - 1) (drop 1 l)) 1%nat (S e) else None
        end
      else
        let host := take i l in
        if contains host ":"%char then None else finish host O O
  end.

(** ** strconv *)

Definition Itoa (z : Z) : string := pretty z.

Definition digit (a : ascii) : option Z :=
  let n := nat_of_ascii a in
  if (48 <=? n)%nat && (n <=? 57)%nat then Some (Z.of_nat (n - 48)) else None.

Fixpoint digits (acc : Z) (l : list ascii) : option Z :=
  match l with
  | [] => Some acc
  | a :: l' => match digit a with Some d => digits (acc * 10 + d) l' | None => None end
  end.

(** [strconv.Atoi]: a sign, at least one digit, and a value of 64 bits. *)
Definition Atoi (s : string) : option Z :=
  let '(neg, l) :=
    match chars s with
    | "-"%char :: l => (true, l)
    | "+"%char :: l => (false, l)
    | l => (false, l)
    end in
  if bool_decide (l = []) then None
  else match digits 0 l with
       | None => None
       | Some n =>
           let z := if neg : bool then - n else n in
           if (minInt64 <=? z) && (z <=? maxInt64) then Some z else None
       end.

Definition ParseBool (s : string) : option bool :=
  if decide (s ∈ ["1"; "t"; "T"; "true"; "TRUE"; "True"]%string) then Some true
  else if decide (s ∈ ["0"; "f"; "F"; "false"; "FALSE"; "False"]%string) then Some false
  else None.

Example split_v6 : SplitHostPort "[::1]:6380" = Some ("::1"%string, "6380"%string).
Proof. vm_compute. reflexivity. Qed.

Example split_bare : SplitHostPort "::1:6380" = None.
Proof. vm_compute. reflexivity. Qed.

Example trim_both : TrimSpace "  a b 	" = "a b"%string.
Proof. vm_compute. reflexivity. Qed.

Example atoi_neg : Atoi "-12" = Some (-12).
Proof. vm_compute. reflexivity. Qed.

(** ** The order of strings *)

Lemma compare_OT s t : String.compare s t = String_as_OT.compare s t.
Proof. revert t. induction s as [|a s IH]; intros [|b t]; simpl; [done..|]. by rewrite IH. Qed.

Lemma ltb_lt s t : String.ltb s t = true ↔ String_as_OT.lt s t.
Proof. unfold String.ltb, String_as_OT.lt. rewrite compare_OT. by destruct (String_as_OT.compare s t). Qed.

Lemma ltb_trans s t r : String.ltb s t = true → String.ltb t r = true → String.ltb s r = true.
Proof. rewrite !ltb_lt. apply String_as_OT.lt_strorder. Qed.

Lemma ltb_irrefl s : String.ltb s s = false.
Proof.
  destruct (String.ltb s s) eqn:E; [|done]. apply ltb_lt in E. by apply String_as_OT.lt_strorder in E.
Qed.

Lemma ltb_tricho s t : String.ltb s t = true ∨ s = t ∨ String.ltb t s = true.
Proof. rewrite !ltb_lt. destruct (String_as_OT.compare_spec s t); auto. Qed.

End gostd.
