(* ===== verification/GoTime.v ===== *)
(** * The time package: ParseDuration, Duration.String, Duration.Round, Format

    The functions of Go's [time] package that the configuration and the reports use,
    translated from its algorithm: 64-bit accumulators with their overflow tests,
    fractions through [float64]. Durations of whole seconds survive a round trip. *)
From stdpp Require Import prelude strings list pretty.
From Stdlib Require Import ZArith Lia Ascii.
From S2P Require Import Prelude Float64 GoStd.
Local Open Scope Z_scope.

Module gotime.
Import gostd.

Inductive durationError :=
  | InvalidDuration (orig : string)
  | MissingUnit (orig : string)
  | UnknownUnit (unit orig : string).

Definition two63div10 : Z := 922337203685477580.

(** [leadingInt]: the leading digits as a number, [None] when it overflows. *)
Fixpoint leadingInt (x : Z) (l : list ascii) : option (Z * list ascii) :=
  match l with
  | [] => Some (x, [])
  | c :: l' =>
      match digit c with
      | None => Some (x, l)
      | Some d =>
          if two63div10 <? x then None
          else let x := x * 10 + d in if two63 <? x then None else leadingInt x l'
      end
  end.

(** [leadingFraction]: the digits that fit, their power of ten, and the rest. *)
Fixpoint leadingFraction {F} `{Float64 F} (x : Z) (scale : F) (overflow : bool) (l : list ascii)
    : Z * F * list ascii :=
  match l with
  | [] => (x, scale, [])
  | c :: l' =>
      match digit c with
      | None => (x, scale, l)
      | Some d =>
          if overflow then leadingFraction x scale true l'
          else if two63div10 <? x then leadingFraction x scale true l'
          else let y := x * 10 + d in
               if two63 <? y then leadingFraction x scale true l'
               else leadingFraction y (scale * fofZ 10)%f64 false l'
      end
  end.

Definition unitMap (u : string) : option Z :=
  if bool_decide (u = "ns"%string) then Some 1
  else if bool_decide (u = "us"%string) then Some 1000
  else if bool_decide (u = ofChars [chr 194; chr 181; "s"%char]) then Some 1000
  else if bool_decide (u = ofChars [chr 206; chr 188; "s"%char]) then Some 1000
  else if bool_decide (u = "ms"%string) then Some 1000000
  else if bool_decide (u = "s"%string) then Some 1000000000
  else if bool_decide (u = "m"%string) then Some 60000000000
  else if bool_decide (u = "h"%string) then Some 3600000000000
  else None.

Definition numeric (c : ascii) : bool :=
  bool_decide (c = "."%char) || match digit c with Some _ => true | None => false end.

(** The bytes up to the next digit or point: the unit. *)
Fixpoint spanUnit (l : list ascii) : list ascii * list ascii :=
  match l with
  | [] => ([], [])
  | c :: l' => if numeric c then ([], l) else let '(u, r) := spanUnit l' in (c :: u, r)
  end.

Section parse.
Context {F : Type} `{Float64 F}.
Context (orig : string).

(** One number with its unit, from a text that is not empty. *)
Definition parseTerm (l : list ascii) : (Z * list ascii) + durationError :=
  match l with
  | [] => inr (InvalidDuration orig)
  | c :: _ =>
      if negb (numeric c) then inr (InvalidDuration orig)
      else
        match leadingInt 0 l with
        | None => inr (InvalidDuration orig)
        | Some (v, l1) =>
            let pre := negb (length l =? length l1)%nat in
            let '(f, scale, l2, post) :=
              match l1 with
              | "."%char :: l1' =>
                  let '(f, scale, l2) := leadingFraction 0 (fofZ 1 : F) false l1' in
                  (f, scale, l2, negb (length l1' =? length l2)%nat)
              | _ => (0, fofZ 1, l1, false)
              end in
            if negb pre && negb post then inr (InvalidDuration orig)
            else
              let '(u, rest) := spanUnit l2 in
              if bool_decide (u = []) then inr (MissingUnit orig)
              else
                match unitMap (ofChars u) with
                | None => inr (UnknownUnit (ofChars u) orig)
                | Some unit =>
                    if two63 / unit <? v then inr (InvalidDuration orig)
                    else
                      let v := v * unit in
                      let v := if 0 <? f then u64 (v + u64 (ftoi64 (fofZ f * (fofZ unit / scale))%f64)) else v in
                      if (0 <? f) && (two63 <? v) then inr (InvalidDuration orig) else inl (v, rest)
                end
        end
  end.

(** The loop over the terms; every term takes at least one byte. *)
Fixpoint parseTerms (fuel : nat) (d : Z) (l : list ascii) : Z + durationError :=
  match l with
  | [] => inl d
  | _ =>
      match fuel with
      | O => inr (InvalidDuration orig)
      | S fuel' =>
          match parseTerm l with
          | inr e => inr e
          | inl (v, rest) =>
              let d := u64 (d + v) in
              if two63 <? d then inr (InvalidDuration orig) else parseTerms fuel' d rest
          end
      end
  end.

End parse.

(** The optional sign. *)
Definition splitSign (l : list ascii) : bool * list ascii :=
  match l with
  | "-"%char :: l' => (true, l')
  | "+"%char :: l' => (false, l')
  | _ => (false, l)
  end.

Definition ParseDuration {F} `{Float64 F} (s : string) : Duration + durationError :=
  let '(neg, l) := splitSign (chars s) in
  if bool_decide (l = ["0"%char]) then inl 0
  else if bool_decide (l = []) then inr (InvalidDuration s)
  else
    match parseTerms (F := F) s (length l) 0 l with
    | inr e => inr e
    | inl d =>
        if neg : bool then inl (i64 (- d))
        else if maxInt64 <? d then inr (InvalidDuration s)
        else inl d
    end.

(** ** Duration.String *)

(** [fmtFrac] on the digits of [v] before [prec]: the fraction without trailing
    zeros, with its point, and what is left of [v]. *)
Fixpoint fmtFrac (prec : nat) (print : bool) (buf : string) (v : Z) : string * Z :=
  match prec with
  | O => (if print then String "."%char buf else buf, v)
  | S prec' =>
      let d := v mod 10 in
      let print := print || negb (d =? 0) in
      fmtFrac prec' print (if print then (pretty d ++ buf)%string else buf) (v / 10)
  end.

(** [fmtInt] *)
Definition fmtInt (v : Z) : string := pretty v.

Definition DurationString (d : Duration) : string :=
  let neg := d <? 0 in
  let u := Z.abs d in
  let body :=
    if u <? Second then
      if u =? 0 then "0s"%string
      else
        let '(prec, unit) :=
          if u <? 1000 then (0%nat, "ns"%string)
          else if u <? 1000000 then (3%nat, ofChars [chr 194; chr 181; "s"%char])
          else (6%nat, "ms"%string) in
        let '(frac, u) := fmtFrac prec false unit u in
        (fmtInt u ++ frac)%string
    else
      let '(frac, u) := fmtFrac 9 false "s" u in
      let s := (fmtInt (u mod 60) ++ frac)%string in
      let u := u / 60 in
      if 0 <? u then
        let s := (fmtInt (u mod 60) ++ "m" ++ s)%string in
        let u := u / 60 in
        if 0 <? u then (fmtInt u ++ "h" ++ s)%string else s
      else s in
  if neg then ("-" ++ body)%string else body.

(** [Duration.Round]: half away from zero, saturating. *)
Definition Round (d m : Duration) : Duration :=
  if m <=? 0 then d
  else
    let r := Z.rem d m in
    let lessThanHalf x y := ((x + x) mod two64 <? y) in
    if d <? 0 then
      let r := - r in
      if lessThanHalf r m then d +i r
      else let d1 := i64 (i64 (d - m) + r) in if d1 <? d then d1 else minInt64
    else if lessThanHalf r m then d -i r
    else let d1 := i64 (i64 (d + m) - r) in if d <? d1 then d1 else maxInt64.

(** ** Time.Format(time.RFC3339Nano), in UTC *)

(** The civil date of a day counted from January 1, 1970. *)
Definition civil (days : Z) : Z * Z * Z :=
  let z := days + 719468 in
  let era := z / 146097 in
  let doe := z mod 146097 in
  let yoe := (doe - doe / 1460 + doe / 36524 - doe / 146096) / 365 in
  let doy := doe - (365 * yoe + yoe / 4 - yoe / 100) in
  let mp := (5 * doy + 2) / 153 in
  let month := if mp <? 10 then mp + 3 else mp - 9 in
  (yoe + era * 400 + (if month <=? 2 then 1 else 0), month, doy - (153 * mp + 2) / 5 + 1).

(** At least [width] digits. *)
Definition padded (width : nat) (v : Z) : string :=
  let s := fmtInt v in (ofChars (replicate (width - String.length s) "0"%char) ++ s)%string.

Definition FormatRFC3339Nano (t : Time) : string :=
  let secs := t / Second in
  let '(y, m, d) := civil (secs / 86400) in
  let s := secs mod 86400 in
  (padded 4 y ++ "-" ++ padded 2 m ++ "-" ++ padded 2 d ++ "T" ++
   padded 2 (s / 3600) ++ ":" ++ padded 2 (s / 60 mod 60) ++ ":" ++ padded 2 (s mod 60) ++
   (fmtFrac 9 false EmptyString (t mod Second)).1 ++ "Z")%string.

Example format_epoch : FormatRFC3339Nano 0 = "1970-01-01T00:00:00Z"%string.
Proof. vm_compute. reflexivity. Qed.

Example format_leap : FormatRFC3339Nano (1709164800 * Second + 120000000) = "2024-02-29T00:00:00.12Z"%string.
Proof. vm_compute. reflexivity. Qed.

Example round_half : Round 1500000000 Second = 2 * Second.
Proof. vm_compute. reflexivity. Qed.

(** ** Decimal numbers *)

Lemma chars_app s t : chars (s ++ t) = (chars s ++ chars t)%list.
Proof. induction s as [|a s IH]; simpl; [done|]. by f_equal. Qed.

Lemma digit_char x : (x < 10)%N → digit (pretty_N_char x) = Some (Z.of_N x).
Proof.
  intros Hx. assert (Hc : ∀ n, (n < 10)%nat → digit (pretty_N_char (N.of_nat n)) = Some (Z.of_N (N.of_nat n))).
  { intros n Hn. do 10 (destruct n as [|n]; [reflexivity|]). lia. }
  rewrite <-(N2Nat.id x). apply Hc. lia.
Qed.

(** Reading back the digits that are printed. *)
Lemma leadingInt_go x s :
  (Z.of_N x <= two63) → leadingInt 0 (chars (pretty_N_go x s)) = leadingInt (Z.of_N x) (chars s).
Proof.
  revert s. induction (N.lt_wf_0 x) as [x _ IH]. intros s Hx.
  destruct (decide (x = 0)%N) as [->|Hne]; [by rewrite pretty_N_go_0|].
  rewrite pretty_N_go_step by lia.
  assert (Hlt : (x / 10 < x)%N) by (apply N.div_lt; lia).
  pose proof (N.div_mod x 10 ltac:(lia)) as Hdm. pose proof (N.mod_lt x 10 ltac:(lia)) as Hm.
  rewrite IH; [|done|lia]. cbn [chars String.list_ascii_of_string leadingInt].
  fold (chars s). rewrite digit_char by done.
  set (q := (x / 10)%N) in *. set (m := (x mod 10)%N) in *. clearbody q m.
  assert (Hd : (two63div10 <? Z.of_N q) = false) by (apply Z.ltb_ge; unfold two63, two63div10 in *; lia).
  rewrite Hd. replace (Z.of_N q * 10 + Z.of_N m) with (Z.of_N x) by lia.
  by rewrite (proj2 (Z.ltb_ge _ _) Hx).
Qed.

(** A nonnegative number followed by something that is not a digit. *)
Definition stops (l : list ascii) : Prop := match l with [] => True | c :: _ => digit c = None end.

Lemma leadingInt_stops x l : stops l → leadingInt x l = Some (x, l).
Proof. destruct l as [|c l]; simpl; [done|]. by intros ->. Qed.

Lemma go_app x s t : (pretty_N_go x s ++ t)%string = pretty_N_go x (s ++ t).
Proof.
  revert s. induction (N.lt_wf_0 x) as [x _ IH]. intros s.
  destruct (decide (x = 0)%N) as [->|Hne]; [by rewrite !pretty_N_go_0|].
  rewrite (pretty_N_go_step x s), (pretty_N_go_step x (s ++ t)) by lia.
  apply (IH (x / 10)%N). apply N.div_lt; lia.
Qed.

Lemma leadingInt_pretty n t :
  0 <= n <= two63 → stops (chars t) → leadingInt 0 (chars (pretty n ++ t)) = Some (n, chars t).
Proof.
  intros Hn Ht. destruct (decide (n = 0)) as [->|Hne].
  { change (leadingInt 0 (chars t) = Some (0, chars t)). by apply leadingInt_stops. }
  destruct n as [|p|p]; try lia. change (pretty (Z.pos p)) with (pretty_N_go (N.pos p) EmptyString).
  rewrite go_app, leadingInt_go by lia. by apply leadingInt_stops.
Qed.

(** The text of a number starts with a digit. *)
Lemma go_head x s : (0 < x)%N → ∃ c r, chars (pretty_N_go x s) = c :: r ∧ is_Some (digit c).
Proof.
  revert s. induction (N.lt_wf_0 x) as [x _ IH]. intros s Hx. rewrite pretty_N_go_step by lia.
  destruct (decide (x / 10 = 0)%N) as [Hz|Hne].
  - rewrite Hz, pretty_N_go_0. do 2 eexists. split; [reflexivity|]. rewrite digit_char; [by eexists|]. apply N.mod_lt. lia.
  - apply IH; [apply N.div_lt; [exact Hx|reflexivity]|by apply N.neq_0_lt_0].
Qed.

Lemma pretty_head n t : 0 <= n → ∃ c r, chars (pretty n ++ t) = c :: r ∧ is_Some (digit c).
Proof.
  intros Hn. destruct n as [|p|p]; [|..|lia]; [do 2 eexists; split; [reflexivity|by eexists]|].
  change (pretty (Z.pos p)) with (pretty_N_go (N.pos p) EmptyString). rewrite go_app. by apply go_head.
Qed.

Section roundtrip.
Context {F : Type} `{Float64 F}.

Definition boundary (l : list ascii) : Prop := match l with [] => True | c :: _ => numeric c = true end.

Lemma spanUnit_app u rest :
  Forall (λ c, numeric c = false) u → boundary rest → spanUnit (u ++ rest) = (u, rest).
Proof.
  intros Hu Hr. induction Hu as [|c u Hc _ IH]; simpl.
  - destruct rest as [|c rest]; [done|]. simpl in *. by rewrite Hr.
  - by rewrite Hc, IH.
Qed.

(** A whole number of a unit. *)
Lemma parseTerm_whole orig n u unit rest :
  0 <= n → 0 < unit → n * unit <= two63 → unitMap (ofChars u) = Some unit →
  u ≠ [] → Forall (λ c, numeric c = false) u → boundary rest →
  parseTerm (F := F) orig (chars (pretty n) ++ u ++ rest) = inl (n * unit, rest).
Proof.
  intros Hn Hunit Hov Hmap Hne Hu Hrest.
  assert (Hl : chars (pretty n ++ ofChars (u ++ rest)) = (chars (pretty n) ++ u ++ rest)%list).
  { rewrite chars_app. unfold chars at 2, ofChars. by rewrite String.list_ascii_of_string_of_list_ascii. }
  assert (Hc : chars (ofChars (u ++ rest)) = (u ++ rest)%list).
  { unfold chars, ofChars. by rewrite String.list_ascii_of_string_of_list_ascii. }
  destruct (pretty_head n (ofChars (u ++ rest)) Hn) as (c & r & Hcr & Hd). rewrite Hl in Hcr.
  assert (Hle : n <= two63) by nia.
  assert (Hlead := leadingInt_pretty n (ofChars (u ++ rest)) (conj Hn Hle)). rewrite Hl, Hc in Hlead.
  destruct u as [|a u]; [done|]. apply Forall_cons in Hu as [Ha Hu].
  assert (Hda : digit a = None).
  { unfold numeric in Ha. apply orb_false_elim in Ha as [_ Ha]. by destruct (digit a). }
  specialize (Hlead Hda). unfold parseTerm. rewrite Hcr in *.
  assert (Hnum : numeric c = true) by (unfold numeric; destruct Hd as [x ->]; apply orb_true_r).
  rewrite Hnum. cbn [negb]. rewrite Hlead.
  assert (Hlen : (length (c :: r) =? length ((a :: u) ++ rest))%nat = false).
  { apply Nat.eqb_neq. rewrite <-Hcr. destruct (pretty_head n EmptyString Hn) as (c' & r' & Hcr' & _).
    rewrite chars_app in Hcr'. simpl in Hcr'. rewrite app_nil_r in Hcr'. rewrite length_app, Hcr'. simpl. lia. }
  rewrite Hlen. cbn [negb andb].
  assert (Hdot : ∀ B (x : list ascii → B) (y : B),
    match (a :: u) ++ rest with "."%char :: l1' => x l1' | _ => y end = y).
  { intros B x y. assert (Hna : a ≠ "."%char).
    { intros ->. vm_compute in Ha. discriminate. }
    destruct a as [[] [] [] [] [] [] [] []]; try reflexivity. by destruct Hna. }
  rewrite Hdot. rewrite spanUnit_app by (try constructor; done).
  rewrite bool_decide_false by done. rewrite Hmap.
  assert (Hdiv : (two63 / unit <? n) = false) by (apply Z.ltb_ge, Z.div_le_lower_bound; lia).
  by rewrite Hdiv.
Qed.

Lemma parseTerms_step orig fuel d v l rest :
  l ≠ [] → parseTerm (F := F) orig l = inl (v, rest) → 0 <= d + v <= two63 →
  parseTerms (F := F) orig (S fuel) d l = parseTerms (F := F) orig fuel (d + v) rest.
Proof.
  intros Hne Hp Hov. destruct l as [|c l]; [done|]. cbn [parseTerms]. rewrite Hp.
  rewrite u64_id by width_lia. by rewrite (proj2 (Z.ltb_ge two63 (d + v))) by lia.
Qed.

Lemma fmtFrac_whole n buf k : fmtFrac n false buf (k * 10 ^ Z.of_nat n) = (buf, k).
Proof.
  induction n as [|n IH]; [simpl; by rewrite Z.mul_1_r|].
  replace (k * 10 ^ Z.of_nat (S n)) with ((k * 10 ^ Z.of_nat n) * 10) by (rewrite Nat2Z.inj_succ, Z.pow_succ_r; lia).
  cbn [fmtFrac]. rewrite Z.mod_mul, Z.div_mul by lia. simpl. apply IH.
Qed.

(** The text of a positive number of seconds: hours and minutes only when needed. *)
Definition wholeText (k : Z) : string :=
  let s := (pretty (k mod 60) ++ "s")%string in
  if 0 <? k / 60 then
    let s := (pretty (k / 60 mod 60) ++ String "m" s)%string in
    if 0 <? k / 60 / 60 then (pretty (k / 60 / 60) ++ String "h" s)%string else s
  else s.

Lemma DurationString_whole k :
  0 < k → DurationString (k * Second) = wholeText k ∧ DurationString (- (k * Second)) = ("-" ++ wholeText k)%string.
Proof.
  intros Hk. unfold DurationString.
  assert (Habs : Z.abs (- (k * Second)) = k * Second) by (unfold Second; lia).
  assert (Habs' : Z.abs (k * Second) = k * Second) by (unfold Second; lia).
  assert (Hf : fmtFrac 9 false "s" (k * Second) = ("s"%string, k)) by apply (fmtFrac_whole 9).
  rewrite Habs, Habs', Hf. assert (H1 : (k * Second <? Second) = false) by (apply Z.ltb_ge; unfold Second; lia).
  assert (H2 : (k * Second <? 0) = false) by (apply Z.ltb_ge; unfold Second; lia).
  assert (H3 : (- (k * Second) <? 0) = true) by (apply Z.ltb_lt; unfold Second; lia).
  by rewrite H1, H2, H3.
Qed.

Lemma pretty_boundary n t : 0 <= n → boundary (chars (pretty n ++ t)).
Proof.
  intros Hn. destruct (pretty_head n t Hn) as (c & r & -> & x & Hx). simpl. unfold numeric. rewrite Hx.
  apply orb_true_r.
Qed.

(** One term of the text: a number, a unit of one letter, and the rest. *)
Lemma parse_letter orig fuel d n a unit t :
  0 <= n → 0 < unit → 0 <= d → d + n * unit <= two63 → unitMap (ofChars [a]) = Some unit → numeric a = false →
  boundary (chars t) →
  parseTerms (F := F) orig (S fuel) d (chars (pretty n ++ String a t)) =
  parseTerms (F := F) orig fuel (d + n * unit) (chars t).
Proof.
  intros Hn Hu Hd Hov Hmap Ha Ht. assert (0 <= n * unit) by nia. apply parseTerms_step; [|rewrite chars_app|lia].
  - destruct (pretty_head n (String a t) Hn) as (c & r & -> & _). done.
  - apply (parseTerm_whole orig n [a] unit (chars t)); try done; [lia|by constructor].
Qed.

Lemma length_pretty_app n t : 0 <= n → (length (chars t) < length (chars (pretty n ++ t)))%nat.
Proof.
  intros Hn. rewrite chars_app, length_app. destruct (pretty_head n EmptyString Hn) as (c & r & Hc & _).
  rewrite chars_app, app_nil_r in Hc. rewrite Hc. simpl. lia.
Qed.

Lemma parse_wholeText orig k :
  0 < k → k * Second <= two63 →
  parseTerms (F := F) orig (length (chars (wholeText k))) 0 (chars (wholeText k)) = inl (k * Second).
Proof.
  intros Hk Hov. pose proof (Z.mod_pos_bound k 60 ltac:(lia)) as Hs. pose proof (Z.div_mod k 60 ltac:(lia)) as Hd.
  pose proof (Z.mod_pos_bound (k / 60) 60 ltac:(lia)) as Hm. pose proof (Z.div_mod (k / 60) 60 ltac:(lia)) as Hd'.
  assert (Hk60 : 0 <= k / 60) by (apply Z.div_pos; lia).
  unfold wholeText. set (s := k mod 60) in *. set (q := k / 60) in *. set (m := q mod 60) in *. set (h := q / 60) in *.
  assert (Hone : ∀ fuel d, (0 < fuel)%nat → 0 <= d → d + s * Second <= two63 →
    parseTerms (F := F) orig fuel d (chars (pretty s ++ "s")) = inl (d + s * Second)).
  { intros fuel d Hf Hd0 Hle. destruct fuel as [|fuel]; [lia|].
    rewrite (parse_letter orig fuel d s "s"%char Second); try done; [|lia].
    by destruct fuel. }
  assert (Hlen1 : (1 <= length (chars (pretty s ++ "s")))%nat).
  { pose proof (length_pretty_app s "s" ltac:(lia)). simpl in *. lia. }
  destruct (0 <? q) eqn:Eq; ztests.
  2:{ rewrite Hone by (unfold Second in *; lia). f_equal. unfold Second. lia. }
  assert (Hlen2 : (2 <= length (chars (pretty m ++ String "m" (pretty s ++ "s"))))%nat).
  { pose proof (length_pretty_app m (String "m" (pretty s ++ "s")) ltac:(lia)). simpl in *. lia. }
  assert (Htwo : ∀ fuel d, (1 < fuel)%nat → 0 <= d → d + m * Minute + s * Second <= two63 →
    parseTerms (F := F) orig fuel d (chars (pretty m ++ String "m" (pretty s ++ "s"))) = inl (d + m * Minute + s * Second)).
  { intros fuel d Hf Hd0 Hle. destruct fuel as [|fuel]; [lia|].
    rewrite (parse_letter orig fuel d m "m"%char Minute); try done; try (unfold Minute, Second in *; lia).
    - apply Hone; [lia|unfold Minute, Second in *; lia|done].
    - apply pretty_boundary. lia. }
  destruct (0 <? h) eqn:Eh; ztests.
  2:{ rewrite Htwo by (unfold Minute, Second in *; lia). f_equal. unfold Minute, Second. lia. }
  pose proof (length_pretty_app h (String "h" (pretty m ++ String "m" (pretty s ++ "s"))) ltac:(lia)) as Hlen3.
  cbn [chars String.list_ascii_of_string length] in Hlen3.
  destruct (length (chars (pretty h ++ _))) as [|f] eqn:Ef; [lia|].
  rewrite (parse_letter orig f 0 h "h"%char (60 * Minute)); try done; try (unfold Minute, Second in *; lia).
  - rewrite Htwo.
    + f_equal. unfold Minute, Second. lia.
    + unfold chars in *. lia.
    + unfold Minute, Second. lia.
    + unfold Minute, Second in *. lia.
  - apply pretty_boundary. lia.
Qed.

Lemma wholeText_head k : 0 < k → ∃ c r, chars (wholeText k) = c :: r ∧ is_Some (digit c).
Proof.
  intros Hk. unfold wholeText.
  pose proof (Z.mod_pos_bound k 60 ltac:(lia)). pose proof (Z.mod_pos_bound (k / 60) 60 ltac:(lia)).
  repeat case_if; ztests; apply pretty_head; lia.
Qed.

Lemma length_letter n a t : 0 <= n → (2 <= length (chars (pretty n ++ String a t)))%nat.
Proof.
  intros Hn. pose proof (length_pretty_app n (String a t) Hn) as Hl.
  change (length (chars (String a t))) with (S (length (chars t))) in Hl. lia.
Qed.

Lemma wholeText_not_zero k : 0 < k → chars (wholeText k) ≠ ["0"%char].
Proof.
  intros Hk Heq. assert (Hl : (2 <= length (chars (wholeText k)))%nat); [|rewrite Heq in Hl; simpl in Hl; lia].
  unfold wholeText. pose proof (Z.mod_pos_bound k 60 ltac:(lia)). pose proof (Z.mod_pos_bound (k / 60) 60 ltac:(lia)).
  repeat case_if; ztests; apply length_letter; lia.
Qed.

(** A sign is only taken from a text that starts with one. *)
Lemma splitSign_digit c r : is_Some (digit c) → splitSign (c :: r) = (false, c :: r).
Proof.
  intros [d Hd]. destruct c as [[] [] [] [] [] [] [] []]; try reflexivity; vm_compute in Hd; discriminate.
Qed.

End roundtrip.
End gotime.

Import gotime.

(** A duration of whole seconds, of either sign and up to the limits of 64 bits,
    is read back from the text that [Duration.String] prints for it. *)
Lemma ParseDuration_String {F} `{Float64 F} k :
  in_i64 (k * Second) → ParseDuration (F := F) (DurationString (k * Second)) = inl (k * Second).
Proof.
  intros Hi. destruct (Z.lt_trichotomy k 0) as [Hk|[->|Hk]]; [|vm_compute; reflexivity|].
  - destruct (DurationString_whole (- k) ltac:(lia)) as [_ Hs].
    replace (- (- k * Second)) with (k * Second) in Hs by lia. rewrite Hs. unfold ParseDuration.
    change (gostd.chars ("-" ++ wholeText (- k))) with ("-"%char :: gostd.chars (wholeText (- k))).
    cbn [splitSign].
    rewrite bool_decide_false by (apply wholeText_not_zero; lia).
    destruct (wholeText_head (- k) ltac:(lia)) as (c & r & Hcr & _).
    rewrite bool_decide_false by (rewrite Hcr; done).
    rewrite parse_wholeText; [|lia|unfold Second in *; width_lia].
    rewrite i64_id; [f_equal; lia|]. unfold Second in *. width_lia.
  - destruct (DurationString_whole k Hk) as [Hs _]. rewrite Hs. unfold ParseDuration.
    destruct (wholeText_head k Hk) as (c & r & Hcr & Hd). rewrite Hcr, (splitSign_digit c r Hd), <-Hcr.
    rewrite bool_decide_false by (by apply wholeText_not_zero).
    rewrite bool_decide_false by (rewrite Hcr; done).
    rewrite parse_wholeText; [|lia|unfold Second in *; width_lia].
    by rewrite (proj2 (Z.ltb_ge _ _)) by (unfold Second in *; width_lia).
Qed.
