(* ===== verification/GoHeap.v ===== *)
(** * container/heap and sort.Slice

    Go's binary heap on a slice, translated from its algorithm: [up], [down],
    [Push] and [Fix] over a [less] function on the elements. For a strict weak order
    each keeps the heap property and the contents. *)
From stdpp Require Import prelude list.
From Stdlib Require Import Lia Sorting.Permutation Sorting.Sorted.
From S2P Require Import Prelude.

Module goheap.

Section heap.
Context {A : Type} (less : A → A → bool).

Definition swap (l : list A) (i j : nat) : list A :=
  match l !! i, l !! j with
  | Some a, Some b => <[i := b]> (<[j := a]> l)
  | _, _ => l
  end.

(** [h.Less(i, j)], false out of range. *)
Definition Less (l : list A) (i j : nat) : bool :=
  match l !! i, l !! j with
  | Some a, Some b => less a b
  | _, _ => false
  end.

(** The parent of a position; Go computes [(j - 1) / 2], which is 0 for 0. *)
Definition parent (j : nat) : nat := (j - 1) / 2.

#[global] Arguments parent : simpl never.

(** [up]: the position halves, so it bounds the number of rounds. *)
Fixpoint up (fuel : nat) (l : list A) (j : nat) : list A :=
  match fuel with
  | O => l
  | S fuel' =>
      let i := parent j in
      if (i =? j) || negb (Less l j i) then l else up fuel' (swap l i j) i
  end.

(** The smaller child of [i] among the first [n]. *)
Definition child (l : list A) (i n : nat) : nat :=
  let j1 := 2 * i + 1 in
  let j2 := j1 + 1 in
  if (j2 <? n) && Less l j2 j1 then j2 else j1.

(** [down]: the position grows up to the length; with whether it moved. *)
Fixpoint down (fuel : nat) (l : list A) (i : nat) (moved : bool) : list A * bool :=
  match fuel with
  | O => (l, moved)
  | S fuel' =>
      if length l <=? 2 * i + 1 then (l, moved)
      else
        let j := child l i (length l) in
        if negb (Less l j i) then (l, moved) else down fuel' (swap l i j) j true
  end.

Definition Push (l : list A) (x : A) : list A :=
  let l := l ++ [x] in up (length l) l (length l - 1).

Definition Fix (l : list A) (i : nat) : list A :=
  let '(l', moved) := down (length l) l i false in
  if moved then l' else up (length l) l' i.

(** [sort.Slice]: an insertion sort. For a strict weak order every sort gives the
    same list up to the order of equivalent elements. *)
Fixpoint insertSorted (x : A) (l : list A) : list A :=
  match l with
  | [] => [x]
  | y :: l' => if less y x then y :: insertSorted x l' else x :: l
  end.

Fixpoint sortSlice (l : list A) : list A :=
  match l with
  | [] => []
  | x :: l' => insertSorted x (sortSlice l')
  end.

(** ** Swaps *)

Lemma length_swap l i j : length (swap l i j) = length l.
Proof. unfold swap. destruct (l !! i), (l !! j); rewrite ?length_insert; done. Qed.

Lemma swap_lookup l i j k a b :
  l !! i = Some a → l !! j = Some b →
  swap l i j !! k = if decide (k = i) then Some b else if decide (k = j) then Some a else l !! k.
Proof.
  intros Hi Hj. unfold swap. rewrite Hi, Hj. apply lookup_lt_Some in Hi as Hli. apply lookup_lt_Some in Hj as Hlj.
  case_decide as H1; [subst; apply list_lookup_insert_eq; by rewrite length_insert|].
  rewrite list_lookup_insert_ne by done.
  case_decide as H2; [subst; by apply list_lookup_insert_eq|]. by rewrite list_lookup_insert_ne.
Qed.

Lemma swap_perm l i j : swap l i j ≡ₚ l.
Proof.
  unfold swap. destruct (l !! i) as [a|] eqn:Hi; [|done]. destruct (l !! j) as [b|] eqn:Hj; [|done].
  by apply Permutation_insert_swap.
Qed.

Lemma up_perm fuel l j : up fuel l j ≡ₚ l.
Proof.
  revert l j. induction fuel as [|fuel IH]; intros l j; [done|]. cbn. case_match; [done|]. by rewrite IH, swap_perm.
Qed.

Lemma down_perm fuel l i m : (down fuel l i m).1 ≡ₚ l.
Proof.
  revert l i m. induction fuel as [|fuel IH]; intros l i m; [done|]. cbn. case_match; [done|]. case_match; [done|].
  by rewrite IH, swap_perm.
Qed.

Lemma Push_perm l x : Push l x ≡ₚ x :: l.
Proof. unfold Push. rewrite up_perm. symmetry. apply Permutation_cons_append. Qed.

Lemma Fix_perm l i : Fix l i ≡ₚ l.
Proof.
  unfold Fix. pose proof (down_perm (length l) l i false) as Hd. destruct (down _ _ _ _) as [l' []]; [done|].
  cbn in Hd. by rewrite up_perm.
Qed.

(** ** The heap property *)

Lemma parent_lt j : 0 < j → parent j < j.
Proof. intros. unfold parent. apply Nat.Div0.div_lt_upper_bound. lia. Qed.

Lemma parent_eq k j : 0 < k → parent k = j ↔ k = 2 * j + 1 ∨ k = 2 * j + 2.
Proof.
  intros. unfold parent. pose proof (Nat.div_mod (k - 1) 2 ltac:(lia)). pose proof (Nat.mod_upper_bound (k - 1) 2 ltac:(lia)). lia.
Qed.

Definition heap (l : list A) : Prop :=
  ∀ k x y, 0 < k → l !! k = Some x → l !! parent k = Some y → less x y = false.

(** What [up] relies on: position [j] may be out of order with its parent, its
    children are in order with it. *)
Definition upHeap (l : list A) (j : nat) : Prop :=
  (∀ k x y, 0 < k → k ≠ j → l !! k = Some x → l !! parent k = Some y → less x y = false) ∧
  (∀ k x y, 0 < k → 0 < j → parent k = j → l !! k = Some x → l !! parent j = Some y → less x y = false).

(** What [down] relies on: position [i] may be out of order with its children. *)
Definition downHeap (l : list A) (i : nat) : Prop :=
  (∀ k x y, 0 < k → parent k ≠ i → l !! k = Some x → l !! parent k = Some y → less x y = false) ∧
  (∀ k x y, 0 < k → 0 < i → parent k = i → l !! k = Some x → l !! parent i = Some y → less x y = false).

(** [less] is a strict weak order on the elements that satisfy [P]. *)
Record weakOrder (P : A → Prop) : Prop := {
  less_asym a b : P a → P b → less a b = true → less b a = false;
  less_negtrans a b c : P a → P b → P c → less b a = false → less c b = false → less c a = false
}.

Section order.
Context (P : A → Prop) (W : weakOrder P).

Lemma Forall_at l k x : Forall P l → l !! k = Some x → P x.
Proof. intros Hf Hk. by eapply Forall_lookup_1. Qed.

Lemma less_irrefl x : P x → less x x = false.
Proof. intros Px. destruct (less x x) eqn:E; [|done]. by rewrite (less_asym P W x x Px Px E) in E. Qed.

Lemma up_step l j a b :
  Forall P l → upHeap l j → 0 < j → l !! j = Some a → l !! parent j = Some b → less a b = true →
  upHeap (swap l (parent j) j) (parent j).
Proof.
  intros HP [H1 H2] Hj Ha Hb Hlt. pose proof (parent_lt j Hj) as Hpj.
  pose proof (Forall_at _ _ _ HP Ha) as Pa. pose proof (Forall_at _ _ _ HP Hb) as Pb.
  pose proof (less_asym P W a b Pa Pb Hlt) as Hba.
  split.
  - intros k x y Hk Hne. rewrite !(swap_lookup _ _ _ _ _ _ Hb Ha).
    pose proof (parent_lt k Hk). rewrite (decide_False (P := k = parent j)) by done.
    destruct (decide (k = j)) as [->|Hkj].
    { rewrite decide_True by done. congruence. }
    intros Hx. pose proof (Forall_at _ _ _ HP Hx) as Px.
    destruct (decide (parent k = parent j)) as [E|].
    { intros [= <-]. apply (less_negtrans P W a b x); try done. by apply (H1 k); [..|rewrite E]. }
    destruct (decide (parent k = j)) as [E|]; [|by apply H1].
    intros [= <-]. by apply (H2 k).
  - intros k x y Hk Hi Hpk. rewrite !(swap_lookup _ _ _ _ _ _ Hb Ha).
    pose proof (parent_lt k Hk). pose proof (parent_lt _ Hi).
    rewrite (decide_False (P := k = parent j)), (decide_False (P := parent (parent j) = parent j)),
      (decide_False (P := parent (parent j) = j)) by lia.
    intros Hx Hy. assert (Hby : less b y = false) by (apply (H1 (parent j)); [done|lia|done..]).
    destruct (decide (k = j)) as [->|Hkj]; [congruence|].
    apply (less_negtrans P W y b x); eauto using Forall_at. apply (H1 k); [done..|by rewrite Hpk].
Qed.

Lemma up_heap fuel l j : Forall P l → upHeap l j → j < fuel → j < length l → heap (up fuel l j).
Proof.
  revert l j. induction fuel as [|fuel IH]; intros l j HP Hu Hf Hl; [lia|]. cbn.
  destruct (decide (j = 0)) as [->|Hj].
  { cbn. intros k x y Hk. destruct Hu as [H1 _]. apply H1; lia. }
  pose proof (parent_lt j ltac:(lia)). rewrite (proj2 (Nat.eqb_neq _ _)) by lia. cbn [orb].
  destruct (lookup_lt_is_Some_2 l j Hl) as [a Ha]. destruct (lookup_lt_is_Some_2 l (parent j) ltac:(lia)) as [b Hb].
  unfold Less. rewrite Ha, Hb. destruct (less a b) eqn:E; cbn [negb].
  - apply IH; [by rewrite swap_perm|by apply (up_step l j a b); [..|lia|done|done|done]|lia|rewrite length_swap; lia].
  - intros k x y Hk Hx Hy. destruct (decide (k = j)) as [->|]; [congruence|]. destruct Hu as [H1 _]. by apply (H1 k).
Qed.

Lemma Push_heap l x : Forall P l → P x → heap l → heap (Push l x).
Proof.
  intros HP Px Hh. unfold Push. rewrite length_app. cbn [length].
  apply up_heap; [by apply Forall_app; split; [|constructor]| |lia|rewrite length_app; cbn; lia].
  replace (length l + 1 - 1) with (length l) by lia. split.
  - intros k u v Hk Hne Hu Hv. pose proof (parent_lt k Hk). apply lookup_lt_Some in Hu as Hlt.
    rewrite length_app in Hlt. cbn in Hlt. rewrite lookup_app_l in Hu, Hv by lia. by apply (Hh k).
  - intros k u v Hk _ Hp Hu. pose proof (parent_lt k Hk). apply lookup_lt_Some in Hu as Hlt.
    rewrite length_app in Hlt. cbn in Hlt. lia.
Qed.

(** The child [down] compares with is a child, in range, and not above its sibling. *)
Lemma child_spec l i :
  Forall P l → 2 * i + 1 < length l →
  let j := child l i (length l) in
  (j = 2 * i + 1 ∨ j = 2 * i + 2) ∧ j < length l ∧
  ∀ k x y, 0 < k → parent k = i → l !! k = Some x → l !! j = Some y → less x y = false.
Proof.
  intros HP Hl. set (j1 := 2 * i + 1) in *.
  destruct (lookup_lt_is_Some_2 l j1 Hl) as [a Ha]. unfold child. fold j1. cbv zeta.
  destruct (j1 + 1 <? length l) eqn:E2; cbn [andb].
  - apply Nat.ltb_lt in E2. destruct (lookup_lt_is_Some_2 l (j1 + 1) E2) as [b Hb].
    unfold Less. rewrite Ha, Hb. destruct (less b a) eqn:E; (split; [lia|split; [lia|]]);
      intros k x y Hk Hp Hx Hy; apply parent_eq in Hp; try done; fold j1 in Hp;
      (destruct Hp as [-> | ->]; [|replace (2 * i + 2) with (j1 + 1) in Hx by lia]); simplify_eq; eauto using less_asym, less_irrefl, Forall_at.
  - apply Nat.ltb_ge in E2. split; [lia|split; [done|]]. intros k x y Hk Hp Hx Hy. apply parent_eq in Hp; [|done].
    apply lookup_lt_Some in Hx as Hlt. assert (k = j1) as -> by lia. simplify_eq. eauto using less_irrefl, Forall_at.
Qed.

Lemma down_step l i j a b :
  Forall P l → downHeap l i → (j = 2 * i + 1 ∨ j = 2 * i + 2) → l !! i = Some a → l !! j = Some b → less b a = true →
  (∀ k x y, 0 < k → parent k = i → l !! k = Some x → l !! j = Some y → less x y = false) →
  downHeap (swap l i j) j.
Proof.
  intros HP [H1 H2] Hj Ha Hb Hlt Hmin. assert (Hpj : parent j = i) by (apply parent_eq; lia).
  pose proof (Forall_at _ _ _ HP Ha) as Pa. pose proof (Forall_at _ _ _ HP Hb) as Pb.
  split.
  - intros k x y Hk Hne. rewrite !(swap_lookup _ _ _ _ _ _ Ha Hb). pose proof (parent_lt k Hk).
    rewrite (decide_False (P := parent k = j)) by done.
    destruct (decide (k = i)) as [->|Hki].
    { rewrite decide_False by lia. intros [= <-] Hy. apply (H2 j); [lia|lia|done..]. }
    destruct (decide (k = j)) as [->|Hkj].
    { rewrite decide_True by done. intros [= <-] [= <-]. by apply (less_asym P W). }
    intros Hx. destruct (decide (parent k = i)) as [E|]; [|by apply H1].
    intros [= <-]. by apply (Hmin k).
  - intros k x y Hk Hj0 Hpk. rewrite !(swap_lookup _ _ _ _ _ _ Ha Hb). pose proof (parent_lt k Hk).
    rewrite Hpj. rewrite (decide_True (P := i = i)), !(decide_False (P := k = _)) by lia.
    intros Hx [= <-]. apply (H1 k); [done|lia|done|by rewrite Hpk].
Qed.

Lemma down_heap fuel l i m : Forall P l → downHeap l i → length l <= i + fuel → heap (down fuel l i m).1.
Proof.
  revert l i m. induction fuel as [|fuel IH]; intros l i m HP Hd Hf; cbn [down].
  { cbn [fst]. intros k x y Hk Hx Hy. apply lookup_lt_Some in Hy as Hlt. apply (proj1 Hd k); [done|lia|done..]. }
  destruct (length l <=? 2 * i + 1) eqn:El.
  { apply Nat.leb_le in El. cbn [fst]. intros k x y Hk Hx Hy. apply lookup_lt_Some in Hx as Hlt.
    apply (proj1 Hd k); [done|intros Hp%parent_eq; lia|done..]. }
  apply Nat.leb_gt in El. destruct (child_spec l i HP El) as (Hj & Hjl & Hmin). cbv zeta.
  set (j := child l i (length l)) in *. unfold Less.
  destruct (lookup_lt_is_Some_2 l j Hjl) as [b Hb]. destruct (lookup_lt_is_Some_2 l i ltac:(lia)) as [a Ha].
  rewrite Hb, Ha. destruct (less b a) eqn:E; cbn [negb].
  - apply IH; [by rewrite swap_perm|by apply (down_step l i j a b)|rewrite length_swap; lia].
  - cbn [fst]. intros k x y Hk Hx Hy. destruct (decide (parent k = i)) as [Hp|Hp]; [|by apply (proj1 Hd k)].
    rewrite Hp in Hy. simplify_eq/=. apply (less_negtrans P W a b x); eauto using Forall_at.
Qed.

(** Replacing the root and fixing the heap there. *)
Lemma Fix_root_heap l x : Forall P l → P x → heap l → heap (Fix (<[0 := x]> l) 0).
Proof.
  intros HP Px Hh. unfold Fix.
  assert (HP' : Forall P (<[0 := x]> l)) by (destruct l; [done|]; inversion HP; by constructor).
  assert (Hd : downHeap (<[0 := x]> l) 0).
  { split; [|lia]. intros k u v Hk Hp. rewrite !list_lookup_insert_ne by lia. by apply (Hh k). }
  pose proof (down_heap (length (<[0 := x]> l)) _ 0 false HP' Hd ltac:(lia)) as Hres.
  destruct (down _ _ _ _) as [l' []]; cbn in Hres; [done|]. by destruct (length (<[0:=x]> l)).
Qed.

(** Nothing is below the root. *)
Lemma heap_root l r : Forall P l → heap l → l !! 0 = Some r → Forall (λ x, less x r = false) l.
Proof.
  intros HP Hh Hr. apply Forall_lookup_2. intros k. induction k as [k IH] using lt_wf_ind. intros x Hx.
  assert (Pr : P r) by eauto using Forall_at.
  destruct (decide (k = 0)) as [->|Hk].
  { simplify_eq. by apply less_irrefl. }
  pose proof (parent_lt k ltac:(lia)) as Hp. destruct (lookup_lt_is_Some_2 l (parent k)) as [y Hy].
  { apply lookup_lt_Some in Hx. lia. }
  apply (less_negtrans P W r y x); eauto using Forall_at. apply (Hh k); [lia|done..].
Qed.

(** ** Sorting *)

(** In descending rank: nothing later is before something earlier. *)
Definition sorted (l : list A) : Prop := StronglySorted (λ x y, less y x = false) l.

Lemma insertSorted_perm x l : insertSorted x l ≡ₚ x :: l.
Proof. induction l as [|y l IH]; [done|]. cbn. case_match; [|done]. rewrite IH. apply Permutation_swap. Qed.

Lemma sortSlice_perm l : sortSlice l ≡ₚ l.
Proof. induction l as [|x l IH]; [done|]. cbn. by rewrite insertSorted_perm, IH. Qed.

Lemma insertSorted_sorted x l : P x → Forall P l → sorted l → sorted (insertSorted x l).
Proof.
  intros Px HP. induction l as [|y l IH]; intros Hs; cbn; [repeat constructor|].
  apply Forall_cons in HP as [Py HP]. apply StronglySorted_inv in Hs as [Hs Hy].
  destruct (less y x) eqn:E.
  - constructor; [by apply IH|]. rewrite insertSorted_perm. constructor; [by apply (less_asym P W)|done].
  - constructor; [by constructor|]. constructor; [done|].
    rewrite Forall_forall in Hy, HP |- *. intros z Hz. apply (less_negtrans P W x y z); eauto.
Qed.

Lemma sortSlice_sorted l : Forall P l → sorted (sortSlice l).
Proof.
  induction l as [|x l IH]; intros HP; [constructor|]. apply Forall_cons in HP as [Px HP]. cbn.
  apply insertSorted_sorted; [done|by rewrite sortSlice_perm|by apply IH].
Qed.

(** Where distinct elements are never equivalent, there is one sorted arrangement. *)
Lemma sorted_unique l1 l2 :
  (∀ x y, x ∈ l1 → y ∈ l1 → less x y = false → less y x = false → x = y) →
  sorted l1 → sorted l2 → l1 ≡ₚ l2 → l1 = l2.
Proof.
  revert l2. induction l1 as [|x l1 IH]; intros l2 Hat S1 S2 Hp.
  { by apply Permutation_nil_l in Hp. }
  destruct l2 as [|y l2]; [by apply Permutation_nil_r in Hp|].
  apply StronglySorted_inv in S1 as [S1 Hx]. apply StronglySorted_inv in S2 as [S2 Hy].
  rewrite Forall_forall in Hx, Hy.
  assert (x = y) as <-.
  { assert (Hx2 : x ∈ y :: l2) by (rewrite <-Hp; left). assert (Hy1 : y ∈ x :: l1) by (rewrite Hp; left).
    apply elem_of_cons in Hx2 as [?|Hx2]; [done|]. apply elem_of_cons in Hy1 as [?|Hy1]; [done|].
    apply Hat; [left|by right|by apply Hy|by apply Hx]. }
  f_equal. apply IH; [|done|done|by eapply Permutation_cons_inv].
  intros u v Hu Hv. apply Hat; by right.
Qed.

End order.
End heap.

(** ** Lexicographic orders *)

Section lex.
Context {A : Type}.

(** First by [less1], ties by [less2]. *)
Definition lex (less1 less2 : A → A → bool) (a b : A) : bool := less1 a b || (negb (less1 b a) && less2 a b).

Lemma lex_false (less1 less2 : A → A → bool) a b :
  lex less1 less2 a b = false ↔ less1 a b = false ∧ (less1 b a = false → less2 a b = false).
Proof. unfold lex. destruct (less1 a b), (less1 b a), (less2 a b); cbn; intuition congruence. Qed.

Context (P : A → Prop).

Lemma lex_weakOrder less1 less2 : weakOrder less1 P → weakOrder less2 P → weakOrder (lex less1 less2) P.
Proof.
  intros W1 W2. constructor.
  - intros a b Pa Pb Hab. apply lex_false. unfold lex in Hab. destruct (less1 a b) eqn:E1.
    + split; [by apply (less_asym _ P W1)|done].
    + cbn in Hab. apply andb_true_iff in Hab as [Hba Hab]. apply negb_true_iff in Hba.
      split; [done|]. intros _. by apply (less_asym _ P W2).
  - intros a b c Pa Pb Pc. rewrite !lex_false. intros [H1 H2] [H3 H4].
    split; [by apply (less_negtrans _ P W1 a b c)|]. intros Hac.
    assert (Hab : less1 a b = false) by (by apply (less_negtrans _ P W1 b c a)).
    assert (Hbc : less1 b c = false) by (by apply (less_negtrans _ P W1 c a b)).
    apply (less_negtrans _ P W2 a b c); auto.
Qed.

Lemma weakOrder_ext (less1 less2 : A → A → bool) :
  (∀ a b, P a → P b → less1 a b = less2 a b) → weakOrder less1 P → weakOrder less2 P.
Proof.
  intros He W. constructor.
  - intros a b Pa Pb. rewrite <-!He by done. by apply (less_asym _ P W).
  - intros a b c Pa Pb Pc. rewrite <-!He by done. by apply (less_negtrans _ P W).
Qed.

Lemma weakOrder_flip (less : A → A → bool) : weakOrder less P → weakOrder (λ a b, less b a) P.
Proof.
  intros W. constructor.
  - intros a b Pa Pb. by apply (less_asym _ P W).
  - intros a b c Pa Pb Pc H1 H2. by apply (less_negtrans _ P W c b a).
Qed.

End lex.
End goheap.
