(* ===== verification/Hotness.v ===== *)
(** * internal/hotness: the hot-key tracker

    [hotness.Tracker] is the state of the Go type. Entries are heap objects that
    the map [items] and the slice [admissionRing] share: every entry is created by
    appending to the ring and never leaves it (an evicted slot is overwritten in
    place), so a pointer is an index of [ring], and [items] maps a key to its
    index. Map iteration visits the entries in an order Go leaves unspecified: the
    operations that iterate take that order as an argument. *)
From stdpp Require Import prelude gmap strings list fin_maps.
From Stdlib Require Import ZArith Lia.
From S2P Require Import Prelude Float64.
Local Open Scope Z_scope.

Module hotness.

Definition MaxTrackedKeyBytes : Z := 1024.

Inductive State := StateCold | StateWarm | StateHot | StateCooling.

#[global] Instance State_eq_dec : EqDecision State.
Proof. solve_decision. Defined.

Record Transition := mkTransition { tKey : string; tFrom : State; tTo : State }.

Section tracker.
Context {F : Type} `{Float64 F}.

Record Config := mkConfig {
  Window : Duration;
  EWMAAlpha : F;
  PromotionThreshold : F;
  DemotionThreshold : F;
  MinimumHotWindows : Z;
  Cooldown : Duration;
  MaxTrackedKeys : Z
}.

Record Snapshot := mkSnapshot {
  snKey : string;
  snState : State;
  snScore : F;
  snRequestRate : F;
  snLastSeen : Time;
  snAge : Duration
}.

Record entry := mkEntry {
  key : string;
  state : State;
  score : F;
  count : Z;
  lastRate : F;
  lastSeen : Time;
  createdAt : Time;
  hotWindows : Z;
  coolingAt : Time
}.

Record Tracker := mkTracker {
  cfg : Config;
  window : Time;
  items : gmap string nat;
  ring : list entry;
  nextVictim : nat;
  hot : Z;
  evictions : Z;
  capacityDrops : Z;
  oversizedObservationsDropped : Z
}.

Record View := mkView {
  vTransitions : list Transition;
  vSnapshots : list Snapshot;
  vTracked : Z;
  vHot : Z;
  vEvictions : Z;
  vCapacityDrops : Z;
  vOversized : Z
}.

(** The state of an observation of an untracked key is Go's zero value, [None]. *)
Record Observation := mkObservation {
  oTransitions : list Transition;
  oState : option State;
  oHot : Z;
  oCapacityObservationDropped : bool;
  oCapacityDrops : Z;
  oOversizedObservationDropped : bool;
  oOversizedObservationsDropped : Z
}.

(** Field assignments. *)
Definition set_state (e : entry) (s : State) : entry :=
  mkEntry (key e) s (score e) (count e) (lastRate e) (lastSeen e) (createdAt e) (hotWindows e) (coolingAt e).
Definition set_score (e : entry) (x : F) : entry :=
  mkEntry (key e) (state e) x (count e) (lastRate e) (lastSeen e) (createdAt e) (hotWindows e) (coolingAt e).
Definition set_count (e : entry) (n : Z) : entry :=
  mkEntry (key e) (state e) (score e) n (lastRate e) (lastSeen e) (createdAt e) (hotWindows e) (coolingAt e).
Definition set_lastRate (e : entry) (x : F) : entry :=
  mkEntry (key e) (state e) (score e) (count e) x (lastSeen e) (createdAt e) (hotWindows e) (coolingAt e).
Definition set_lastSeen (e : entry) (t : Time) : entry :=
  mkEntry (key e) (state e) (score e) (count e) (lastRate e) t (createdAt e) (hotWindows e) (coolingAt e).
Definition set_hotWindows (e : entry) (n : Z) : entry :=
  mkEntry (key e) (state e) (score e) (count e) (lastRate e) (lastSeen e) (createdAt e) n (coolingAt e).
Definition set_coolingAt (e : entry) (t : Time) : entry :=
  mkEntry (key e) (state e) (score e) (count e) (lastRate e) (lastSeen e) (createdAt e) (hotWindows e) t.

Definition set_ring (t : Tracker) (r : list entry) (h : Z) : Tracker :=
  mkTracker (cfg t) (window t) (items t) r (nextVictim t) h (evictions t) (capacityDrops t)
    (oversizedObservationsDropped t).

(** The entry literal of [getOrCreateLocked]. *)
Definition newEntry (k : string) (now : Time) : entry :=
  mkEntry k StateCold f0 0 f0 now now 0 zeroTime.

Definition normalizeConfig (c : Config) : Config :=
  {| Window := if Window c <=? 0 then Second else Window c;
     EWMAAlpha := if (EWMAAlpha c <=? f0)%f64 || (EWMAAlpha c >? f1)%f64 then fhalf else EWMAAlpha c;
     PromotionThreshold := PromotionThreshold c;
     DemotionThreshold := DemotionThreshold c;
     MinimumHotWindows := if MinimumHotWindows c <=? 0 then 2 else MinimumHotWindows c;
     Cooldown := Cooldown c;
     MaxTrackedKeys := if MaxTrackedKeys c <=? 0 then 1 else MaxTrackedKeys c |}.

Definition New (c : Config) (now : Time) : Tracker :=
  mkTracker (normalizeConfig c) now ∅ [] 0 0 0 0 0.

Definition adjustHotCount (hotc : Z) (before after : State) : Z :=
  let h1 := if bool_decide (before = StateHot) && negb (bool_decide (after = StateHot))
            then hotc -i 1 else hotc in
  if negb (bool_decide (before = StateHot)) && bool_decide (after = StateHot)
  then h1 +i 1 else h1.

(** A transition list for a state change, empty when the state is unchanged. *)
Definition transitionIf (k : string) (before after : State) : list Transition :=
  if bool_decide (before = after) then [] else [mkTransition k before after].

(** The switch has no default: a NaN score changes nothing. *)
Definition applyState (c : Config) (ent : entry) (now : Time) : entry * list Transition :=
  let before := state ent in
  let sc := score ent in
  let ent' :=
    if (sc >=? PromotionThreshold c)%f64 then
      let ent := set_hotWindows ent (hotWindows ent +i 1) in
      if bool_decide (state ent = StateCooling) then
        set_coolingAt (set_state ent StateHot) zeroTime
      else if MinimumHotWindows c <=? hotWindows ent then set_state ent StateHot
      else if bool_decide (state ent = StateCold) then set_state ent StateWarm
      else ent
    else if (sc >=? DemotionThreshold c)%f64 then
      let ent := set_hotWindows ent 0 in
      if bool_decide (state ent = StateCold) then set_state ent StateWarm else ent
    else if (sc <? DemotionThreshold c)%f64 then
      let ent := set_hotWindows ent 0 in
      if bool_decide (state ent = StateHot) then
        set_coolingAt (set_state ent StateCooling) now
      else if bool_decide (state ent = StateCooling) && (Cooldown c <=? t_sub now (coolingAt ent)) then
        set_coolingAt (set_state ent StateCold) zeroTime
      else if bool_decide (state ent = StateWarm) && (sc =? f0)%f64 then set_state ent StateCold
      else ent
    else ent in
  (ent', transitionIf (key ent') before (state ent')).

(** [initial * math.Pow(decay, n)], the score after [n] empty windows. *)
Definition decayed (initial decay : F) (n : Z) : F := (initial * fpow decay (fofZ n))%f64.

(** The two loops that correct the logarithmic estimate: down while the estimate
    is too high, then up while the next window still qualifies. *)
Definition estimateDown (initial decay threshold : F) (estimate : Z) : Z :=
  match loop (Z.to_pos (estimate + 1))
          (λ e, if (0 <? e) && (decayed initial decay e <? threshold)%f64 then inl (e - 1) else inr e)
          estimate with
  | inl e => e | inr e => e
  end.

Definition estimateUp (initial decay threshold : F) (maxWindows estimate : Z) : Z :=
  match loop (Z.to_pos (maxWindows - estimate + 1))
          (λ e, if (e <? maxWindows) && (decayed initial decay (e + 1) >=? threshold)%f64
                then inl (e + 1) else inr e)
          estimate with
  | inl e => e | inr e => e
  end.

Definition decayWindowsAtLeast (initial decay threshold : F) (maxWindows : Z) : Z :=
  if (maxWindows <=? 0) || (initial <=? f0)%f64 || (threshold <=? f0)%f64 || (decay <=? f0)%f64
     || (initial * decay <? threshold)%f64 then 0
  else if (decay >=? f1)%f64 || (decayed initial decay maxWindows >=? threshold)%f64 then maxWindows
  else
    let estimate := ftoi64 (ffloor (flog (threshold / initial) / flog decay)%f64) in
    let estimate := if estimate <? 0 then 0 else estimate in
    let estimate := if maxWindows <? estimate then maxWindows else estimate in
    estimateUp initial decay threshold maxWindows (estimateDown initial decay threshold estimate).

(** The block for windows whose decayed score is still at the promotion level. *)
Definition highSegment (c : Config) (ent : entry) (highWindows : Z) : entry * list Transition :=
  if 0 <? highWindows then
    let before := state ent in
    let ent := if bool_decide (state ent = StateCooling)
               then set_coolingAt (set_state ent StateHot) zeroTime else ent in
    let needed := MinimumHotWindows c -i hotWindows ent in
    let needed := if needed <? 0 then 0 else needed in
    let ent := if negb (bool_decide (state ent = StateHot)) && (needed <=? highWindows)
               then set_state ent StateHot else ent in
    let ent :=
      if (MinimumHotWindows c <=? highWindows) || (MinimumHotWindows c <=? (hotWindows ent +i highWindows))
      then set_hotWindows ent (MinimumHotWindows c)
      else set_hotWindows ent (hotWindows ent +i highWindows) in
    (ent, transitionIf (key ent) before (state ent))
  else (ent, []).

(** The block for windows between the two thresholds. *)
Definition midSegment (ent : entry) (midWindows : Z) : entry * list Transition :=
  if 0 <? midWindows then
    let before := state ent in
    let ent := set_hotWindows ent 0 in
    let ent := if bool_decide (state ent = StateCold) then set_state ent StateWarm else ent in
    (ent, transitionIf (key ent) before (state ent))
  else (ent, []).

(** The block for windows below the demotion threshold. *)
Definition lowSegment (c : Config) (ent : entry) (highWindows midWindows lowWindows remaining : Z)
    (firstBoundary : Time) (finalScore : F) : entry * list Transition :=
  if 0 <? lowWindows then
    let ent := set_hotWindows ent 0 in
    let lowStartOffset := (highWindows +i midWindows) +i 1 in
    let lowStart := t_add firstBoundary (lowStartOffset *i Window c) in
    let '(ent, tr1) :=
      if bool_decide (state ent = StateHot)
      then (set_coolingAt (set_state ent StateCooling) lowStart,
            [mkTransition (key ent) StateHot StateCooling])
      else (ent, []) in
    let finalBoundary := t_add firstBoundary (remaining *i Window c) in
    if bool_decide (state ent = StateCooling) && (Cooldown c <=? t_sub finalBoundary (coolingAt ent)) then
      (set_coolingAt (set_state ent StateCold) zeroTime,
       tr1 ++ [mkTransition (key ent) StateCooling StateCold])
    else if bool_decide (state ent = StateWarm) && (finalScore =? f0)%f64 then
      (set_state ent StateCold, tr1 ++ [mkTransition (key ent) StateWarm StateCold])
    else (ent, tr1)
  else (ent, []).

Definition advanceEntry (c : Config) (ent : entry) (rate : F) (elapsedWindows : Z)
    (firstBoundary : Time) : entry * list Transition :=
  let beta := (f1 - EWMAAlpha c)%f64 in
  let firstScore := (EWMAAlpha c * rate + beta * score ent)%f64 in
  let ent := set_lastRate (set_score ent firstScore) rate in
  let '(ent, tr0) := applyState c ent firstBoundary in
  if elapsedWindows =? 1 then (ent, tr0)
  else
    let remaining := elapsedWindows -i 1 in
    let ent := set_lastRate ent f0 in
    let highWindows := decayWindowsAtLeast firstScore beta (PromotionThreshold c) remaining in
    let atLeastDemotion := decayWindowsAtLeast firstScore beta (DemotionThreshold c) remaining in
    let midWindows := atLeastDemotion -i highWindows in
    let lowWindows := remaining -i atLeastDemotion in
    let '(ent, tr1) := highSegment c ent highWindows in
    let '(ent, tr2) := midSegment ent midWindows in
    let finalScore := (firstScore * fpow beta (fofZ remaining))%f64 in
    let '(ent, tr3) := lowSegment c ent highWindows midWindows lowWindows remaining firstBoundary finalScore in
    (set_score ent finalScore, tr0 ++ tr1 ++ tr2 ++ tr3).

(** One iteration of the loop of [advanceLocked] over the entries. *)
Definition advanceOne (c : Config) (elapsedWindows : Z) (firstBoundary : Time)
    (acc : list entry * Z * list Transition) (i : nat) : list entry * Z * list Transition :=
  let '(r, h, trs) := acc in
  match r !! i with
  | None => acc
  | Some ent =>
      let rate := (fofZ (count ent) / seconds (Window c))%f64 in
      let before := state ent in
      let '(ent', tr) := advanceEntry c ent rate elapsedWindows firstBoundary in
      (<[i := set_count ent' 0]> r, adjustHotCount h before (state ent'), trs ++ tr)
  end.

(** [order] is the order in which the iteration over [items] visits the entries. *)
Definition advanceLocked (t : Tracker) (now : Time) (order : list nat) : Tracker * list Transition :=
  let c := cfg t in
  if t_before now (t_add (window t) (Window c)) then (t, [])
  else
    let elapsed := Z.quot (t_sub now (window t)) (Window c) in
    let elapsed := if elapsed <? 1 then 1 else elapsed in
    let firstBoundary := t_add (window t) (Window c) in
    let '(r, h, trs) := fold_left (advanceOne c elapsed firstBoundary) order (ring t, hot t, []) in
    (mkTracker c (t_add (window t) (elapsed *i Window c)) (items t) r (nextVictim t) h
       (evictions t) (capacityDrops t) (oversizedObservationsDropped t), trs).

(** The result of [getOrCreateLocked]: the entry (by index) with the transition
    of an evicted entry, or a capacity drop; an index outside the ring would be a
    run-time panic. *)
Inductive created :=
  | Got (i : nat) (tr : option Transition)
  | Dropped
  | IndexPanic.

Definition getOrCreateLocked (t : Tracker) (k : string) (now : Time) : Tracker * created :=
  match items t !! k with
  | Some i => (t, Got i None)
  | None =>
      if Z.of_nat (length (ring t)) <? MaxTrackedKeys (cfg t) then
        (mkTracker (cfg t) (window t) (<[k := length (ring t)]> (items t))
           (ring t ++ [newEntry k now]) (nextVictim t) (hot t) (evictions t) (capacityDrops t)
           (oversizedObservationsDropped t), Got (length (ring t)) None)
      else
        match ring t !! nextVictim t with
        | None => (t, IndexPanic)
        | Some victim =>
            let nv := S (nextVictim t) in
            let nv := if Nat.eqb nv (length (ring t)) then O else nv in
            if bool_decide (state victim = StateHot) then
              (mkTracker (cfg t) (window t) (items t) (ring t) nv (hot t) (evictions t)
                 (capacityDrops t +u 1) (oversizedObservationsDropped t), Dropped)
            else
              let victimKey := key victim in
              let victimState := state victim in
              (mkTracker (cfg t) (window t)
                 (<[k := nextVictim t]> (delete victimKey (items t)))
                 (<[nextVictim t := newEntry k now]> (ring t)) nv
                 (adjustHotCount (hot t) victimState StateCold)
                 (evictions t +u 1) (capacityDrops t) (oversizedObservationsDropped t),
               Got (nextVictim t)
                 (if bool_decide (victimState = StateCold) then None
                  else Some (mkTransition victimKey victimState StateCold)))
        end
  end.

(** [commitGuaranteedPromotionLocked], on the entry at index [i]. *)
Definition commitGuaranteedPromotion (t : Tracker) (i : nat) : Tracker * option Transition :=
  match ring t !! i with
  | None => (t, None)
  | Some ent =>
      let c := cfg t in
      if negb (bool_decide (state ent = StateWarm)) || (hotWindows ent <=? 0)
         || ((hotWindows ent +i 1) <? MinimumHotWindows c) then (t, None)
      else
        let currentRateFloor := (fofZ (count ent) / seconds (Window c))%f64 in
        let nextScoreFloor :=
          (EWMAAlpha c * currentRateFloor + (f1 - EWMAAlpha c) * score ent)%f64 in
        if (nextScoreFloor <? PromotionThreshold c)%f64 then (t, None)
        else
          let before := state ent in
          let ent' := set_hotWindows (set_state ent StateHot) (hotWindows ent +i 1) in
          (set_ring t (<[i := ent']> (ring t)) (adjustHotCount (hot t) before StateHot),
           Some (mkTransition (key ent) before StateHot))
  end.

(** [ObserveWithState]; [None] is a run-time panic. *)
Definition ObserveWithState (t : Tracker) (now : Time) (order : list nat) (k : string)
    : option (Tracker * Observation) :=
  let '(t, transitions) := advanceLocked t now order in
  let oversized := MaxTrackedKeyBytes <? slen k in
  if bool_decide (k = EmptyString) || oversized then
    let t := if oversized
             then mkTracker (cfg t) (window t) (items t) (ring t) (nextVictim t) (hot t) (evictions t)
                    (capacityDrops t) (oversizedObservationsDropped t +u 1)
             else t in
    Some (t, mkObservation transitions None (hot t) false (capacityDrops t) oversized
               (oversizedObservationsDropped t))
  else
    match getOrCreateLocked t k now with
    | (_, IndexPanic) => None
    | (t, Dropped) =>
        Some (t, mkObservation transitions None (hot t) true (capacityDrops t) false
                   (oversizedObservationsDropped t))
    | (t, Got i evictionTransition) =>
        match ring t !! i with
        | None => None
        | Some ent =>
            let transitions := transitions ++ option_list evictionTransition in
            let ent := set_lastSeen (set_count ent (count ent +i 1)) now in
            let t := set_ring t (<[i := ent]> (ring t)) (hot t) in
            let '(t, promotion) := commitGuaranteedPromotion t i in
            Some (t, mkObservation (transitions ++ option_list promotion)
                       (state <$> ring t !! i) (hot t) false (capacityDrops t) false
                       (oversizedObservationsDropped t))
        end
    end.

Definition Observe (t : Tracker) (now : Time) (order : list nat) (k : string)
    : option (Tracker * list Transition) :=
  prod_map id oTransitions <$> ObserveWithState t now order k.

Definition Admit (t : Tracker) (now : Time) (order : list nat) (k : string) : Tracker * Observation :=
  let '(t, transitions) := advanceLocked t now order in
  match items t !! k ≫= λ i, (λ e, (i, e)) <$> ring t !! i with
  | None =>
      (t, mkObservation transitions None (hot t) false (capacityDrops t) false
            (oversizedObservationsDropped t))
  | Some (i, ent) =>
      if negb (bool_decide (state ent = StateHot)) then
        let before := state ent in
        let ent' := set_coolingAt (set_hotWindows (set_state ent StateHot) 0) zeroTime in
        let t := set_ring t (<[i := ent']> (ring t)) (adjustHotCount (hot t) before StateHot) in
        (t, mkObservation (transitions ++ [mkTransition (key ent) before StateHot])
              (Some StateHot) (hot t) false (capacityDrops t) false (oversizedObservationsDropped t))
      else
        (t, mkObservation transitions (Some (state ent)) (hot t) false (capacityDrops t) false
              (oversizedObservationsDropped t))
  end.

Definition Advance (t : Tracker) (now : Time) (order : list nat) : Tracker * list Transition :=
  advanceLocked t now order.

Definition IsHot (t : Tracker) (k : string) : bool :=
  match items t !! k ≫= λ i, ring t !! i with
  | Some ent => bool_decide (state ent = StateHot)
  | None => false
  end.

Definition IsTracked (t : Tracker) (k : string) : bool := bool_decide (is_Some (items t !! k)).

Definition Stats (t : Tracker) : Z * Z := (Z.of_nat (size (items t)), hot t).

(** [entry.snapshot]: scores and rates rounded to two decimals. *)
Definition snapshot (e : entry) (now : Time) : Snapshot :=
  {| snKey := key e; snState := state e;
     snScore := (fround (score e * fofZ 100) / fofZ 100)%f64;
     snRequestRate := (fround (lastRate e * fofZ 100) / fofZ 100)%f64;
     snLastSeen := lastSeen e;
     snAge := t_sub now (createdAt e) |}.

End tracker.
Arguments Config F : clear implicits.
Arguments entry F : clear implicits.
Arguments Tracker F : clear implicits.
Arguments Snapshot F : clear implicits.
Arguments View F : clear implicits.
End hotness.
