(* ===== verification/HotnessInv.v ===== *)
(** * Invariants of the hot-key tracker

    The well-formedness of a tracker, that every operation preserves it, that the
    index into the admission ring is never out of range, and the accounting of
    transitions. Nothing here uses a law of float64 arithmetic. *)
From stdpp Require Import prelude gmap strings list fin_maps.
From Stdlib Require Import ZArith Lia.
From S2P Require Import Prelude Float64 Hotness.
Local Open Scope Z_scope.

Module hotinv.
Import hotness.

Section invariant.
Context {F : Type} `{Float64 F}.

Implicit Types (t : Tracker F) (e ent : entry F) (r : list (entry F)).

Definition isHot (s : State) : Z := if decide (s = StateHot) then 1 else 0.

(** The number of HOT entries of the ring. *)
Definition hotCount (r : list (entry F)) : Z := sumZ (λ e, isHot (state e)) r.

Record wf (t : Tracker F) : Prop := {
  wf_items : ∀ k i, items t !! k = Some i ↔ ∃ e, ring t !! i = Some e ∧ key e = k;
  wf_window : 0 < Window (cfg t);
  wf_cap : 1 <= MaxTrackedKeys (cfg t) <= maxInt64;
  wf_len : Z.of_nat (length (ring t)) <= MaxTrackedKeys (cfg t);
  wf_victim : (nextVictim t < Nat.max 1 (length (ring t)))%nat;
  wf_hot : hot t = hotCount (ring t);
  wf_keys : ∀ i e, ring t !! i = Some e → key e ≠ EmptyString ∧ slen (key e) <= MaxTrackedKeyBytes
}.

(** A legal order for an iteration over the map: every entry exactly once. *)
Definition valid_order (t : Tracker F) (order : list nat) : Prop :=
  order ≡ₚ (map_to_list (items t)).*2.

(** The order in which the map's own enumeration visits the entries. *)
Definition anyOrder (t : Tracker F) : list nat := (map_to_list (items t)).*2.

Lemma anyOrder_valid t : valid_order t (anyOrder t).
Proof. unfold valid_order, anyOrder. reflexivity. Qed.

Lemma isHot_bound s : 0 <= isHot s <= 1.
Proof. unfold isHot. case_decide; lia. Qed.

Lemma hotCount_bound r : 0 <= hotCount r <= Z.of_nat (length r).
Proof. apply sumZ_count_bound. intros. apply isHot_bound. Qed.

Lemma adjustHotCount_exact h before after :
  in_i64 (h - isHot before + isHot after) → in_i64 h →
  adjustHotCount h before after = h - isHot before + isHot after.
Proof.
  intros H1 H2. unfold adjustHotCount, isHot in *.
  repeat case_bool_decide; simplify_eq; repeat case_decide; simplify_eq; simpl;
    rewrite ?i64_id by width_lia; lia.
Qed.

(** ** Transitions form a path *)

(** [path k s trs s'] : the transitions are all of key [k], each changes the
    state, and they lead from [s] to [s']. *)
Fixpoint path (k : string) (s : State) (trs : list Transition) (s' : State) : Prop :=
  match trs with
  | [] => s = s'
  | tr :: trs' => tKey tr = k ∧ tFrom tr = s ∧ s ≠ tTo tr ∧ path k (tTo tr) trs' s'
  end.

Lemma path_app k s1 s2 s3 l1 l2 : path k s1 l1 s2 → path k s2 l2 s3 → path k s1 (l1 ++ l2) s3.
Proof. revert s1. induction l1 as [|tr l1 IH]; intros s1; simpl; [by intros ->|naive_solver]. Qed.

Lemma path_transitionIf k s s' : path k s (transitionIf k s s') s'.
Proof. unfold transitionIf. case_bool_decide; simpl; done. Qed.

#[local] Hint Resolve path_transitionIf : slizen.

(** An update of an entry that keeps its identity and emits a path. *)
Definition follows (ent : entry F) (res : entry F * list Transition) : Prop :=
  key res.1 = key ent ∧ createdAt res.1 = createdAt ent ∧
  path (key ent) (state ent) res.2 (state res.1).

(** Compute the identity and the state of an entry after field assignments. *)
Ltac entry_cases :=
  repeat (case_match; simplify_eq; simpl in *); simplify_eq; simpl in *.

Lemma applyState_follows c ent now : follows ent (applyState c ent now).
Proof.
  unfold applyState, follows. cbv zeta. repeat case_if; simpl; auto with slizen.
Qed.

Lemma highSegment_follows c ent n : follows ent (highSegment c ent n).
Proof.
  unfold highSegment, follows. cbv zeta. destruct (0 <? n); simpl; [|done].
  repeat case_if; simpl; auto with slizen.
Qed.

Lemma midSegment_follows ent n : follows ent (midSegment ent n).
Proof.
  unfold midSegment, follows. cbv zeta. destruct (0 <? n); simpl; [|done].
  repeat case_if; simpl; auto with slizen.
Qed.

Lemma lowSegment_follows c ent h m l rem fb fs : follows ent (lowSegment c ent h m l rem fb fs).
Proof.
  unfold lowSegment, follows. cbv zeta. destruct (0 <? l); simpl; [|done].
  destruct (bool_decide (state ent = StateHot)) eqn:Es; simpl;
    [apply bool_decide_eq_true in Es|apply bool_decide_eq_false in Es];
    repeat case_if; simpl; repeat match goal with
    | E : bool_decide _ && _ = true |- _ => apply andb_prop in E as [E ?]
    | E : bool_decide _ = true |- _ => apply bool_decide_eq_true in E
    end; simpl in *; split_and!; try done; congruence.
Qed.

Lemma advanceEntry_follows c ent rate el fb : follows ent (advanceEntry c ent rate el fb).
Proof.
  unfold advanceEntry. cbv zeta.
  set (e0 := set_lastRate (set_score ent _) rate).
  pose proof (applyState_follows c e0 fb) as H0.
  destruct (applyState c e0 fb) as [e1 tr0]. destruct H0 as (K0 & C0 & P0). simpl in *.
  destruct (el =? 1); [done|].
  pose proof (highSegment_follows c (set_lastRate e1 f0)
    (decayWindowsAtLeast (EWMAAlpha c * rate + (f1 - EWMAAlpha c) * score ent)%f64
       (f1 - EWMAAlpha c)%f64 (PromotionThreshold c) (el -i 1))) as H1.
  destruct (highSegment _ _ _) as [e2 tr1]. destruct H1 as (K1 & C1 & P1). simpl in *.
  match goal with |- context [midSegment e2 ?m] => pose proof (midSegment_follows e2 m) as H2 end.
  destruct (midSegment _ _) as [e3 tr2]. destruct H2 as (K2 & C2 & P2). simpl in *.
  match goal with |- context [lowSegment c e3 ?a ?b ?d ?e ?f ?g] =>
    pose proof (lowSegment_follows c e3 a b d e f g) as H3 end.
  destruct (lowSegment _ _ _ _ _ _ _ _) as [e4 tr3]. destruct H3 as (K3 & C3 & P3). simpl in *.
  unfold follows. simpl. split_and!; [congruence|congruence|].
  eapply path_app; [done|]. rewrite K0 in K1, P1. rewrite K1 in K2, P2. rewrite K2 in P3.
  eapply path_app; [done|]. eapply path_app; done.
Qed.

(** ** The advance of the scoring window *)

(** What one iteration of [advanceLocked] makes of an entry, and emits for it. *)
Definition advEntry (c : Config F) (el : Z) (fb : Time) (e : entry F) : entry F :=
  set_count (advanceEntry c e (fofZ (count e) / seconds (Window c))%f64 el fb).1 0.
Definition advTransitions (c : Config F) (el : Z) (fb : Time) (e : entry F) : list Transition :=
  (advanceEntry c e (fofZ (count e) / seconds (Window c))%f64 el fb).2.

Lemma advEntry_follows c el fb e :
  key (advEntry c el fb e) = key e ∧ createdAt (advEntry c el fb e) = createdAt e ∧
  path (key e) (state e) (advTransitions c el fb e) (state (advEntry c el fb e)).
Proof.
  unfold advEntry, advTransitions. destruct (advanceEntry_follows c e
    (fofZ (count e) / seconds (Window c))%f64 el fb) as (? & ? & ?). by simpl.
Qed.

(** The ring after the entries of [order] have been advanced. *)
Definition advRing (c : Config F) (el : Z) (fb : Time) (order : list nat) (r : list (entry F)) :=
  imap (λ i e, if decide (i ∈ order) then advEntry c el fb e else e) r.

Lemma advRing_nil c el fb r : advRing c el fb [] r = r.
Proof.
  apply list_eq. intros i. unfold advRing. rewrite list_lookup_imap. by destruct (r !! i).
Qed.

Lemma advRing_cons c el fb i order r e :
  i ∉ order → r !! i = Some e →
  advRing c el fb order (<[i := advEntry c el fb e]> r) = advRing c el fb (i :: order) r.
Proof.
  intros Hi Hr. apply list_eq. intros j. unfold advRing. rewrite !list_lookup_imap.
  destruct (decide (j = i)) as [->|Hne].
  - rewrite list_lookup_insert_eq by (by eapply lookup_lt_Some). rewrite Hr. simpl. f_equal.
    rewrite decide_False by done. by rewrite decide_True by left.
  - rewrite list_lookup_insert_ne by done. destruct (r !! j) as [x|]; simpl; [|done]. f_equal.
    destruct (decide (j ∈ order)); [by rewrite decide_True by (by right)|].
    rewrite decide_False; [done|]. by rewrite not_elem_of_cons.
Qed.

Lemma advRing_cons_None c el fb i order r :
  r !! i = None → advRing c el fb (i :: order) r = advRing c el fb order r.
Proof.
  intros Hr. apply imap_ext_in. intros j x Hx. assert (j ≠ i) by congruence.
  destruct (decide (j ∈ order)); [by rewrite decide_True by (by right)|].
  rewrite decide_False; [done|]. by rewrite not_elem_of_cons.
Qed.

(** The hot counter after one entry has been replaced. *)
Lemma adjust_insert r i e e' s :
  Z.of_nat (length r) <= maxInt64 → r !! i = Some e → state e' = s →
  adjustHotCount (hotCount r) (state e) s = hotCount (<[i := e']> r).
Proof.
  intros Hlen Hr <-. pose proof (hotCount_bound r). pose proof (hotCount_bound (<[i := e']> r)) as Hb1.
  rewrite length_insert in Hb1.
  assert (Heq : hotCount (<[i := e']> r) = hotCount r - isHot (state e) + isHot (state e')).
  { unfold hotCount. by apply (sumZ_insert (λ x, isHot (state x))). }
  rewrite Heq in *. apply adjustHotCount_exact; width_lia.
Qed.

(** The loop over the entries: every visited entry is advanced once, the
    transitions come in the order of the visit, the counter follows. *)
Lemma fold_advance c el fb order r trs :
  NoDup order → Z.of_nat (length r) <= maxInt64 →
  fold_left (advanceOne c el fb) order (r, hotCount r, trs) =
    (advRing c el fb order r, hotCount (advRing c el fb order r),
     trs ++ (order ≫= λ i, default [] (advTransitions c el fb <$> r !! i))).
Proof.
  revert r trs. induction order as [|i order IH]; intros r trs Hnd Hlen; csimpl.
  { by rewrite app_nil_r, advRing_nil. }
  apply NoDup_cons in Hnd as [Hi Hnd]. destruct (r !! i) as [e|] eqn:Hr; simpl.
  2:{ rewrite IH by done. by rewrite advRing_cons_None. }
  pose proof (adjust_insert r i e (advEntry c el fb e) _ Hlen Hr eq_refl) as Hh.
  unfold advEntry at 1 in Hh. unfold advTransitions at 1.
  destruct (advanceEntry c e _ el fb) as [e' tr] eqn:Ee. simpl in *. rewrite Hh.
  assert (Hr1 : set_count e' 0 = advEntry c el fb e) by (unfold advEntry; by rewrite Ee).
  rewrite Hr1, IH by (try rewrite length_insert; done).
  rewrite (advRing_cons c el fb i order r e Hi Hr), <- app_assoc. f_equal. f_equal. f_equal.
  apply bind_ext_in. intros j Hj. rewrite list_lookup_insert_ne; [done|]. by intros ->.
Qed.

Lemma items_index t k i : wf t → items t !! k = Some i → ∃ e, ring t !! i = Some e ∧ key e = k.
Proof. intros W Hk. by apply W. Qed.

Lemma ring_key_inj t i j e1 e2 :
  wf t → ring t !! i = Some e1 → ring t !! j = Some e2 → key e1 = key e2 → i = j.
Proof.
  intros W H1 H2 Hk. assert (items t !! key e1 = Some i) by (apply W; eauto).
  assert (items t !! key e1 = Some j) by (apply W; eauto). congruence.
Qed.

Lemma order_nodup t order : wf t → valid_order t order → NoDup order.
Proof.
  intros W Hv. rewrite Hv. apply NoDup_fmap_2_strong; [|apply NoDup_map_to_list].
  intros [k1 i1] [k2 i2] H1 H2 Heq. simpl in Heq. subst.
  apply elem_of_map_to_list in H1, H2.
  apply items_index in H1 as (e1 & He1 & <-); [|done].
  apply items_index in H2 as (e2 & He2 & <-); [|done]. congruence.
Qed.

Lemma order_elem t order i : wf t → valid_order t order → i ∈ order ↔ (i < length (ring t))%nat.
Proof.
  intros W Hv. rewrite Hv. rewrite list_elem_of_fmap. split.
  - intros ([k j] & -> & Hin). apply elem_of_map_to_list in Hin.
    apply items_index in Hin as (e & He & _); [|done]. by eapply lookup_lt_Some.
  - intros Hi. apply lookup_lt_is_Some in Hi as [e He]. exists (key e, i). split; [done|].
    apply elem_of_map_to_list. apply W. eauto.
Qed.

(** The number of tracked keys is the number of slots in use. *)
Lemma tracked_size t : wf t → size (items t) = length (ring t).
Proof.
  intros W. assert (Hv : valid_order t (map_to_list (items t)).*2) by (unfold valid_order; reflexivity).
  rewrite <- length_map_to_list, <- (length_fmap snd).
  transitivity (length (seq 0 (length (ring t)))); [|apply length_seq].
  apply Permutation_length, NoDup_Permutation.
  - exact (order_nodup t _ W Hv).
  - apply NoDup_seq.
  - intros i. rewrite (order_elem t _ i W Hv), elem_of_seq. lia.
Qed.

(** The tracker after [el] windows, and the transitions in the visiting order. *)
Definition advanced (t : Tracker F) (el : Z) : Tracker F :=
  let fb := t_add (window t) (Window (cfg t)) in
  let r := advEntry (cfg t) el fb <$> ring t in
  mkTracker (cfg t) (t_add (window t) (el *i Window (cfg t))) (items t) r (nextVictim t) (hotCount r)
    (evictions t) (capacityDrops t) (oversizedObservationsDropped t).

Definition elapsedWindows (t : Tracker F) (now : Time) : Z :=
  Z.max 1 (Z.quot (t_sub now (window t)) (Window (cfg t))).

Lemma advanceLocked_spec t now order :
  wf t → valid_order t order →
  advanceLocked t now order =
    if t_before now (t_add (window t) (Window (cfg t))) then (t, [])
    else (advanced t (elapsedWindows t now),
          order ≫= λ i, default [] (advTransitions (cfg t) (elapsedWindows t now)
                                     (t_add (window t) (Window (cfg t))) <$> ring t !! i)).
Proof.
  intros W Hv. unfold advanceLocked. case_if; [done|]. cbv zeta.
  assert (Hel : (if Z.quot (t_sub now (window t)) (Window (cfg t)) <? 1 then 1
                 else Z.quot (t_sub now (window t)) (Window (cfg t))) = elapsedWindows t now).
  { unfold elapsedWindows. case_if; ztests; lia. }
  rewrite Hel, (wf_hot t W).
  rewrite fold_advance; [|by eapply order_nodup|pose proof (wf_len t W); pose proof (wf_cap t W); lia].
  assert (Hr : advRing (cfg t) (elapsedWindows t now) (t_add (window t) (Window (cfg t))) order (ring t)
               = advEntry (cfg t) (elapsedWindows t now) (t_add (window t) (Window (cfg t))) <$> ring t).
  { apply list_eq. intros i. unfold advRing. rewrite list_lookup_imap, list_lookup_fmap.
    destruct (ring t !! i) as [e|] eqn:E; simpl; [|done]. rewrite decide_True; [done|].
    apply (order_elem t order i W Hv). by eapply lookup_lt_Some. }
  by rewrite Hr.
Qed.

Lemma advanced_wf t el : wf t → wf (advanced t el).
Proof.
  intros W. set (fb := t_add (window t) (Window (cfg t))).
  assert (Hl : ∀ i e, (advEntry (cfg t) el fb <$> ring t) !! i = Some e →
                 ∃ e0, ring t !! i = Some e0 ∧ key e = key e0).
  { intros i e. rewrite list_lookup_fmap. intros (e0 & He0 & ->)%fmap_Some. exists e0. split; [done|].
    apply advEntry_follows. }
  constructor; simpl; try apply W.
  - intros k i. rewrite (wf_items t W). split.
    + intros (e & He & <-). eexists. rewrite list_lookup_fmap, He. split; [done|]. apply advEntry_follows.
    + intros (e & He & <-). apply Hl in He as (e0 & He0 & ->). eauto.
  - rewrite length_fmap. apply W.
  - rewrite length_fmap. apply W.
  - done.
  - intros i e He. apply Hl in He as (e0 & He0 & ->). by eapply W.
Qed.

Lemma advanceLocked_wf t now order :
  wf t → valid_order t order → wf (advanceLocked t now order).1.
Proof.
  intros W Hv. rewrite advanceLocked_spec by done. case_if; [done|]. by apply advanced_wf.
Qed.

(** Replacing a slot by an entry of the same key. *)
Lemma set_entry_wf t i e e' :
  wf t → ring t !! i = Some e → key e' = key e →
  wf (set_ring t (<[i := e']> (ring t)) (hotCount (<[i := e']> (ring t)))).
Proof.
  intros W He Hk. pose proof (lookup_lt_Some _ _ _ He) as Hlt.
  constructor; simpl; rewrite ?length_insert; try apply W; [|done|].
  - intros k j. rewrite (wf_items t W). destruct (decide (j = i)) as [->|Hne].
    + rewrite list_lookup_insert_eq by done. naive_solver congruence.
    + by rewrite list_lookup_insert_ne by done.
  - intros j x Hx. destruct (decide (j = i)) as [->|Hne].
    + rewrite list_lookup_insert_eq in Hx by done. simplify_eq. rewrite Hk. by eapply W.
    + rewrite list_lookup_insert_ne in Hx by done. by eapply W.
Qed.

(** A field assignment that does not change the state. *)
Lemma set_entry_same_state_wf t i e e' :
  wf t → ring t !! i = Some e → key e' = key e → state e' = state e →
  wf (set_ring t (<[i := e']> (ring t)) (hot t)).
Proof.
  intros W He Hk Hs.
  assert (Heq : hot t = hotCount (<[i := e']> (ring t))).
  { rewrite (wf_hot t W). unfold hotCount.
    rewrite (sumZ_insert (λ x, isHot (state x)) _ _ _ _ He), Hs. lia. }
  rewrite Heq. by eapply set_entry_wf.
Qed.

Lemma len_i64 t : wf t → Z.of_nat (length (ring t)) <= maxInt64.
Proof. intros W. pose proof (wf_len t W). pose proof (wf_cap t W). lia. Qed.

(** [getOrCreateLocked]: well-formed, in range, and it answers an entry of the key. *)
Lemma getOrCreate_spec t k now :
  wf t → k ≠ EmptyString → slen k <= MaxTrackedKeyBytes →
  wf (getOrCreateLocked t k now).1 ∧
  match (getOrCreateLocked t k now).2 with
  | Got i _ => ∃ e, ring (getOrCreateLocked t k now).1 !! i = Some e ∧ key e = k ∧
                    items (getOrCreateLocked t k now).1 !! k = Some i
  | Dropped => True
  | IndexPanic => False
  end.
Proof.
  intros W Hk1 Hk2. unfold getOrCreateLocked. destruct (items t !! k) as [i|] eqn:Hk.
  { split; [done|]. simpl. destruct (items_index t k i W Hk) as (e & He & <-). eauto. }
  assert (Hnew : ∀ j e, ring t !! j = Some e → key e ≠ k).
  { intros j e He Hke. assert (items t !! k = Some j) by (apply W; eauto). congruence. }
  pose proof (wf_len t W) as Hlen. pose proof (wf_victim t W) as Hv. pose proof (wf_cap t W) as Hcap.
  destruct (Z.of_nat (length (ring t)) <? MaxTrackedKeys (cfg t)) eqn:Hfull; ztests.
  - (* append a slot *)
    assert (Hl : (ring t ++ [newEntry k now]) !! length (ring t) = Some (newEntry k now)).
    { rewrite lookup_app_r, Nat.sub_diag by lia. done. }
    split; [|simpl; exists (newEntry k now); by rewrite lookup_insert_eq].
    constructor; simpl; try apply W; try (rewrite length_app; simpl; lia).
    + intros k' j. destruct (decide (k' = k)) as [->|Hne].
      * rewrite lookup_insert_eq. split; [intros [= <-]; eauto|]. intros (e & He & Hke).
        apply lookup_snoc_Some in He as [[? He]|[<- <-]]; [|done]. by apply Hnew in He.
      * rewrite lookup_insert_ne by done. rewrite (wf_items t W). split.
        -- intros (e & He & <-). exists e. split; [|done]. by apply lookup_app_l_Some.
        -- intros (e & He & <-). apply lookup_snoc_Some in He as [[? He]|[-> <-]]; [eauto|done].
    + unfold hotCount. rewrite sumZ_app. simpl. rewrite (wf_hot t W). unfold hotCount, isHot.
      rewrite decide_False by done. lia.
    + intros j e He. apply lookup_snoc_Some in He as [[? He]|[-> <-]]; [by eapply W|done].
  - (* inspect one slot *)
    destruct (ring t !! nextVictim t) as [victim|] eqn:Hvic.
    2:{ apply lookup_ge_None in Hvic. lia. }
    assert (Hnv : ∀ n, (n = nextVictim t) →
      ((if Nat.eqb (S n) (length (ring t)) then O else S n) < Nat.max 1 (length (ring t)))%nat).
    { intros n ->. apply lookup_lt_Some in Hvic. destruct (Nat.eqb_spec (S (nextVictim t)) (length (ring t))); lia. }
    case_bool_decide as Hhot.
    + split; [|done]. constructor; simpl; try apply W. by apply Hnv.
    + pose proof (lookup_lt_Some _ _ _ Hvic) as Hlt.
      split; [|simpl; exists (newEntry k now); rewrite list_lookup_insert_eq, lookup_insert_eq by done; done].
      constructor; simpl; rewrite ?length_insert; try apply W; [| by apply Hnv| |].
      * intros k' j. destruct (decide (k' = k)) as [->|Hne].
        -- rewrite lookup_insert_eq. split.
           ++ intros [= <-]. eexists. by rewrite list_lookup_insert_eq.
           ++ intros (e & He & Hke). destruct (decide (j = nextVictim t)) as [->|Hj]; [done|].
              rewrite list_lookup_insert_ne in He by done. by apply Hnew in He.
        -- rewrite lookup_insert_ne by done. destruct (decide (k' = key victim)) as [->|Hne'].
           ++ rewrite lookup_delete_eq. split; [done|]. intros (e & He & Hke).
              destruct (decide (j = nextVictim t)) as [->|Hj].
              ** rewrite list_lookup_insert_eq in He by done. by simplify_eq.
              ** rewrite list_lookup_insert_ne in He by done. destruct Hj. by eapply ring_key_inj.
           ++ rewrite lookup_delete_ne by done. rewrite (wf_items t W).
              destruct (decide (j = nextVictim t)) as [->|Hj].
              ** rewrite list_lookup_insert_eq by done. rewrite Hvic. split; intros (e & He & Hke); simplify_eq.
              ** by rewrite list_lookup_insert_ne by done.
      * rewrite (wf_hot t W). by rewrite <- (adjust_insert (ring t) _ victim (newEntry k now) StateCold) by (done || by apply len_i64).
      * intros j e He. destruct (decide (j = nextVictim t)) as [->|Hj].
        -- rewrite list_lookup_insert_eq in He by done. by simplify_eq.
        -- rewrite list_lookup_insert_ne in He by done. by eapply W.
Qed.

Lemma commit_wf t i : wf t → wf (commitGuaranteedPromotion t i).1.
Proof.
  intros W. unfold commitGuaranteedPromotion. destruct (ring t !! i) as [e|] eqn:He; [|done].
  cbv zeta. case_if; [done|]. case_if; [done|]. simpl.
  rewrite (wf_hot t W), (adjust_insert (ring t) i e
    (set_hotWindows (set_state e StateHot) (hotWindows e +i 1)) StateHot); [|by apply len_i64|done..].
  by eapply set_entry_wf.
Qed.

Lemma oversized_wf t n :
  wf t →
  wf (mkTracker (cfg t) (window t) (items t) (ring t) (nextVictim t) (hot t) (evictions t)
        (capacityDrops t) n).
Proof. intros []. by constructor. Qed.

(** [ObserveWithState] returns (no index panic) and keeps the tracker well-formed. *)
Lemma ObserveWithState_wf t now order k :
  wf t → valid_order t order →
  ∃ t' o, ObserveWithState t now order k = Some (t', o) ∧ wf t'.
Proof.
  intros W Hv. unfold ObserveWithState.
  pose proof (advanceLocked_wf t now order W Hv) as W1.
  destruct (advanceLocked t now order) as [t1 trs]. simpl in W1.
  destruct (bool_decide (k = EmptyString) || (MaxTrackedKeyBytes <? slen k)) eqn:Hk.
  { eexists _, _. split; [done|]. case_if; [by apply oversized_wf|done]. }
  ztests. apply bool_decide_eq_false in H0.
  destruct (getOrCreate_spec t1 k now W1) as [W2 Hg]; [done..|].
  destruct (getOrCreateLocked t1 k now) as [t2 [i tr| |]]; simpl in *; [|by eauto|done].
  destruct Hg as (e & He & Hke & _). rewrite He.
  set (e' := set_lastSeen (set_count e (count e +i 1)) now).
  assert (W3 : wf (set_ring t2 (<[i := e']> (ring t2)) (hot t2))) by (by eapply set_entry_same_state_wf).
  pose proof (commit_wf _ i W3) as W4.
  destruct (commitGuaranteedPromotion _ i) as [t4 p]. eauto.
Qed.

Lemma Admit_wf t now order k :
  wf t → valid_order t order → wf (Admit t now order k).1.
Proof.
  intros W Hv. unfold Admit. pose proof (advanceLocked_wf t now order W Hv) as W1.
  destruct (advanceLocked t now order) as [t1 trs]. simpl in W1.
  destruct (items t1 !! k) as [i|]; simpl; [|done].
  destruct (ring t1 !! i) as [e|] eqn:He; simpl; [|done].
  case_if; [|done]. simpl.
  rewrite (wf_hot t1 W1), (adjust_insert (ring t1) i e
    (set_coolingAt (set_hotWindows (set_state e StateHot) 0) zeroTime) StateHot); [|by apply len_i64|done..].
  by eapply set_entry_wf.
Qed.

Lemma New_wf c now : MaxTrackedKeys c <= maxInt64 → wf (New c now).
Proof.
  intros Hc. constructor; simpl; try done.
  - intros k i. rewrite lookup_empty. split; [done|]. by intros (e & He & _).
  - unfold Second. case_if; ztests; lia.
  - case_if; ztests; width_lia.
  - case_if; ztests; lia.
  - lia.
Qed.

(** ** Reachable trackers *)

(** The operations that change a tracker, with the clock reading and the map
    iteration order of the call. *)
Inductive tracker_op :=
  | TObserve (now : Time) (order : list nat) (k : string)
  | TAdmit (now : Time) (order : list nat) (k : string)
  | TAdvance (now : Time) (order : list nat).

Inductive tracker_step : Tracker F → tracker_op → Tracker F → list Transition → Prop :=
  | step_observe t now order k t' o :
      valid_order t order → ObserveWithState t now order k = Some (t', o) →
      tracker_step t (TObserve now order k) t' (oTransitions o)
  | step_admit t now order k t' o :
      valid_order t order → Admit t now order k = (t', o) →
      tracker_step t (TAdmit now order k) t' (oTransitions o)
  | step_advance t now order t' trs :
      valid_order t order → Advance t now order = (t', trs) →
      tracker_step t (TAdvance now order) t' trs.

Inductive reachable (c : Config F) (now : Time) : Tracker F → Prop :=
  | reach_new : reachable c now (New c now)
  | reach_step t o t' trs : reachable c now t → tracker_step t o t' trs → reachable c now t'.

Lemma tracker_step_wf t o t' trs : wf t → tracker_step t o t' trs → wf t'.
Proof.
  intros W Hs. destruct Hs as [t now order k t' o Hv Ho|t now order k t' o Hv Ho|t now order t' trs Hv Ho].
  - destruct (ObserveWithState_wf t now order k W Hv) as (t2 & o2 & Heq & W2). congruence.
  - pose proof (Admit_wf t now order k W Hv) as W2. by rewrite Ho in W2.
  - pose proof (advanceLocked_wf t now order W Hv) as W2. unfold Advance in Ho. by rewrite Ho in W2.
Qed.

Lemma reachable_wf c now t : MaxTrackedKeys c <= maxInt64 → reachable c now t → wf t.
Proof. intros Hc. induction 1; [by apply New_wf|]. by eapply tracker_step_wf. Qed.

End invariant.
End hotinv.
