(* ===== verification/HotnessProps.v ===== *)
(** * What internal/hotness guarantees

    Bounded memory, exact counters, no panic, independence of Go's map iteration
    order, and protection of HOT entries. These hold for every interpretation of float64 arithmetic. *)
From stdpp Require Import prelude gmap strings list fin_maps.
From Stdlib Require Import ZArith Lia SpecFloat.
From S2P Require Import Prelude Float64 Hotness HotnessInv.
Local Open Scope Z_scope.

Module hotlemmas.
Import hotness hotinv.

Section lemmas.
Context {F : Type} `{Float64 F}.
Implicit Types (t : Tracker F) (e : entry F) (r : list (entry F)).

(** ** Counting *)

Lemma sumZ_fmap {A B} (g : A → B) (f : B → Z) (l : list A) : sumZ f (g <$> l) = sumZ (λ x, f (g x)) l.
Proof. induction l; csimpl; congruence. Qed.

Definition hotAt (r : list (entry F)) (i : nat) : Z :=
  match r !! i with Some e => isHot (state e) | None => 0 end.

Lemma hotCount_seq r : hotCount r = sumZ (hotAt r) (seq 0 (length r)).
Proof.
  unfold hotCount, hotAt. induction r as [|e r IH]; [done|]. simpl. rewrite IH. f_equal.
  rewrite <- fmap_S_seq, sumZ_fmap. apply sumZ_ext. by intros i _.
Qed.

Lemma IsHot_hotAt t k i : wf t → items t !! k = Some i → (if IsHot t k then 1 else 0) = hotAt (ring t) i.
Proof.
  intros W Hk. unfold IsHot, hotAt, isHot. rewrite Hk. simpl.
  destruct (ring t !! i); [|done]. case_bool_decide; by case_decide.
Qed.

Lemma hot_counts_keys t :
  wf t → hot t = sumZ (λ p, if IsHot t p.1 then 1 else 0) (map_to_list (items t)).
Proof.
  intros W. rewrite (wf_hot t W), hotCount_seq.
  assert (Hp : seq 0 (length (ring t)) ≡ₚ (map_to_list (items t)).*2).
  { apply NoDup_Permutation; [apply NoDup_seq|apply (order_nodup t _ W (anyOrder_valid t))|].
    intros i. rewrite (order_elem t _ i W (anyOrder_valid t)). rewrite elem_of_seq. lia. }
  rewrite (sumZ_perm _ _ _ Hp), sumZ_fmap. apply sumZ_ext.
  intros [k i] Hin%elem_of_map_to_list. simpl. symmetry. by apply IsHot_hotAt.
Qed.

(** ** Accounting of transitions *)

(** How the service counts transitions: promotions minus demotions. *)
Definition promoted (tr : Transition) : Z := isHot (tTo tr) - isHot (tFrom tr).
Definition net (trs : list Transition) : Z := sumZ promoted trs.

Lemma path_net k s trs s' : path k s trs s' → net trs = isHot s' - isHot s.
Proof.
  revert s. induction trs as [|tr trs IH]; intros s; simpl; [intros ->; unfold net; simpl; lia|].
  intros (_ & <- & _ & Hp). unfold net in *. simpl. rewrite (IH _ Hp). unfold promoted. lia.
Qed.

Lemma net_app l1 l2 : net (l1 ++ l2) = net l1 + net l2.
Proof. apply sumZ_app. Qed.

Lemma net_bind c el fb r order :
  net (order ≫= λ i, default [] (advTransitions c el fb <$> r !! i)) =
  sumZ (λ i, hotAt (advEntry c el fb <$> r) i - hotAt r i) order.
Proof.
  induction order as [|i order IH]; csimpl; [done|]. rewrite net_app, IH. f_equal.
  unfold hotAt. rewrite list_lookup_fmap. destruct (r !! i) as [e|]; simpl; [|done].
  eapply path_net. apply advEntry_follows.
Qed.

Lemma sumZ_sub {A} (f g : A → Z) l : sumZ (λ x, f x - g x) l = sumZ f l - sumZ g l.
Proof. induction l; simpl; lia. Qed.

Lemma advance_net t now order :
  wf t → valid_order t order →
  hot (advanceLocked t now order).1 = hot t + net (advanceLocked t now order).2.
Proof.
  intros W Hv. rewrite advanceLocked_spec by done. case_if; simpl; [unfold net; simpl; lia|].
  rewrite net_bind, sumZ_sub, (wf_hot t W), !hotCount_seq.
  assert (Hp : seq 0 (length (ring t)) ≡ₚ order).
  { apply NoDup_Permutation; [apply NoDup_seq|by apply (order_nodup t)|].
    intros i. rewrite (order_elem t _ i W Hv). rewrite elem_of_seq. lia. }
  rewrite length_fmap, !(sumZ_perm _ _ _ Hp). lia.
Qed.

Lemma hotCount_insert_net r i e (e' : entry F) :
  r !! i = Some e → hotCount (<[i := e']> r) = hotCount r + (isHot (state e') - isHot (state e)).
Proof.
  intros He. unfold hotCount. rewrite (sumZ_insert (λ x, isHot (state x)) _ _ _ _ He). lia.
Qed.

Lemma getOrCreate_net t k now :
  wf t → k ≠ EmptyString → slen k <= MaxTrackedKeyBytes →
  hot (getOrCreateLocked t k now).1 =
    hot t + net (match (getOrCreateLocked t k now).2 with Got _ tr => option_list tr | _ => [] end).
Proof.
  intros W Hk1 Hk2. destruct (getOrCreate_spec t k now W Hk1 Hk2) as [W' _]. revert W'.
  unfold getOrCreateLocked. destruct (items t !! k); simpl; [unfold net; simpl; lia|].
  case_if; simpl; [unfold net; simpl; lia|].
  destruct (ring t !! nextVictim t) as [victim|] eqn:Hv; simpl; [|unfold net; simpl; lia].
  case_bool_decide as Hh; simpl; [unfold net; simpl; lia|]. intros W'. pose proof (wf_hot _ W') as Hw.
  simpl in Hw. rewrite Hw, (hotCount_insert_net _ _ _ _ Hv), (wf_hot t W). simpl.
  case_bool_decide as Hc; unfold net; simpl; unfold promoted; simpl; [rewrite Hc|]; lia.
Qed.

Lemma commit_net t i :
  wf t → hot (commitGuaranteedPromotion t i).1 =
         hot t + net (option_list (commitGuaranteedPromotion t i).2).
Proof.
  intros W. pose proof (commit_wf t i W) as W'. revert W'. unfold commitGuaranteedPromotion.
  destruct (ring t !! i) as [e|] eqn:He; simpl; [|unfold net; simpl; lia]. cbv zeta.
  case_if; simpl; [unfold net; simpl; lia|]. case_if; simpl; [unfold net; simpl; lia|].
  intros W'. pose proof (wf_hot _ W') as Hw. simpl in Hw.
  rewrite Hw, (hotCount_insert_net _ _ _ _ He), (wf_hot t W). unfold net, promoted. simpl. lia.
Qed.

Lemma observe_net t now order k t' o :
  wf t → valid_order t order → ObserveWithState t now order k = Some (t', o) →
  hot t' = hot t + net (oTransitions o).
Proof.
  intros W Hv. unfold ObserveWithState.
  pose proof (advanceLocked_wf t now order W Hv) as W1. pose proof (advance_net t now order W Hv) as N1.
  destruct (advanceLocked t now order) as [t1 trs]. simpl in *.
  destruct (bool_decide (k = EmptyString) || (MaxTrackedKeyBytes <? slen k)) eqn:Hk.
  { intros [= <- <-]. simpl. by destruct (MaxTrackedKeyBytes <? slen k). }
  ztests. match goal with E : bool_decide _ = false |- _ => apply bool_decide_eq_false in E end.
  destruct (getOrCreate_spec t1 k now W1) as [W2 Hg]; [done..|].
  pose proof (getOrCreate_net t1 k now W1 ltac:(done) ltac:(done)) as N2.
  destruct (getOrCreateLocked t1 k now) as [t2 [i tr| |]]; simpl in *; [|intros [= <- <-]; unfold net in *; simpl in *; lia|done].
  destruct Hg as (e & He & Hke & _). rewrite He.
  set (e' := set_lastSeen (set_count e (count e +i 1)) now).
  assert (W3 : wf (set_ring t2 (<[i := e']> (ring t2)) (hot t2))) by (by eapply set_entry_same_state_wf).
  pose proof (commit_net _ i W3) as N4.
  destruct (commitGuaranteedPromotion _ i) as [t4 p]. intros [= <- <-]. simpl in *.
  rewrite !net_app. lia.
Qed.

Lemma admit_net t now order k t' o :
  wf t → valid_order t order → Admit t now order k = (t', o) → hot t' = hot t + net (oTransitions o).
Proof.
  intros W Hv Ha. pose proof (Admit_wf t now order k W Hv) as W'. rewrite Ha in W'. simpl in W'.
  revert Ha W'. unfold Admit.
  pose proof (advanceLocked_wf t now order W Hv) as W1. pose proof (advance_net t now order W Hv) as N1.
  destruct (advanceLocked t now order) as [t1 trs]. simpl in *.
  destruct (items t1 !! k) as [i|]; simpl; [|intros [= <- <-]; done].
  destruct (ring t1 !! i) as [e|] eqn:He; simpl; [|intros [= <- <-]; done].
  case_bool_decide as Hh; simpl; intros [= <- <-] W'; [done|].
  pose proof (wf_hot _ W') as Hw. simpl in Hw. simpl.
  rewrite Hw, (hotCount_insert_net _ _ _ _ He), <- (wf_hot t1 W1), N1, net_app.
  unfold net, promoted. simpl. lia.
Qed.

(** ** HOT entries under capacity pressure *)

Lemma IsHot_ring t k : wf t → IsHot t k = true ↔ ∃ i e, ring t !! i = Some e ∧ key e = k ∧ state e = StateHot.
Proof.
  intros W. unfold IsHot. split.
  - destruct (items t !! k) as [i|] eqn:Hk; simpl; [|done].
    destruct (items_index t k i W Hk) as (e & He & <-). rewrite He.
    intros ?%bool_decide_eq_true. eauto.
  - intros (i & e & He & <- & Hs). assert (Hi : items t !! key e = Some i) by (apply W; eauto).
    rewrite Hi. simpl. rewrite He. by apply bool_decide_eq_true.
Qed.

Lemma getOrCreate_keeps_hot t k now k' :
  wf t → k ≠ EmptyString → slen k <= MaxTrackedKeyBytes →
  IsHot t k' = true → IsHot (getOrCreateLocked t k now).1 k' = true.
Proof.
  intros W Hk1 Hk2. destruct (getOrCreate_spec t k now W Hk1 Hk2) as [W' _].
  rewrite !IsHot_ring by done. intros (i & e & He & Hke & Hs). revert W'.
  unfold getOrCreateLocked. destruct (items t !! k); simpl; [eauto 10|].
  case_if; simpl.
  { intros _. exists i, e. split_and!; try done. by apply lookup_app_l_Some. }
  destruct (ring t !! nextVictim t) as [victim|] eqn:Hv; simpl; [|eauto 10].
  case_bool_decide as Hh; simpl; [eauto 10|]. intros _. exists i, e. split_and!; try done.
  rewrite list_lookup_insert_ne; [done|]. intros <-. congruence.
Qed.

Lemma commit_keeps_hot t i k' :
  wf t → IsHot t k' = true → IsHot (commitGuaranteedPromotion t i).1 k' = true.
Proof.
  intros W. rewrite !IsHot_ring by (try apply commit_wf; done). intros (j & e & He & Hke & Hs).
  unfold commitGuaranteedPromotion. destruct (ring t !! i) as [e0|] eqn:He0; simpl; [|eauto 10].
  cbv zeta. case_if; simpl; [eauto 10|]. case_if; simpl; [eauto 10|].
  ztests. exists j, e. split_and!; try done. rewrite list_lookup_insert_ne; [done|].
  intros <-. simplify_eq. match goal with E : negb (bool_decide _) = false |- _ =>
    apply negb_false_iff, bool_decide_eq_true in E; congruence end.
Qed.

Lemma set_entry_keeps_hot t i e e' k' :
  wf t → ring t !! i = Some e → key e' = key e → state e' = state e →
  IsHot t k' = true → IsHot (set_ring t (<[i := e']> (ring t)) (hot t)) k' = true.
Proof.
  intros W He Hk Hs. rewrite !IsHot_ring by (try (by eapply set_entry_same_state_wf); done).
  intros (j & x & Hx & Hkx & Hsx). simpl. destruct (decide (j = i)) as [->|Hne].
  - exists i, e'. rewrite list_lookup_insert_eq by (by eapply lookup_lt_Some).
    simplify_eq. by rewrite Hk, Hs.
  - exists j, x. by rewrite list_lookup_insert_ne.
Qed.

(** The promotion step keeps the index: the observed key stays at its slot. *)
Lemma commit_keeps_index t i k :
  items t !! k = Some i → is_Some (ring t !! i) →
  items (commitGuaranteedPromotion t i).1 !! k = Some i ∧
  is_Some (ring (commitGuaranteedPromotion t i).1 !! i).
Proof.
  intros Hk [e He]. unfold commitGuaranteedPromotion. rewrite He. cbv zeta.
  repeat case_if; simpl; (split; [done|]); eauto.
  rewrite list_lookup_insert_eq by (by eapply lookup_lt_Some). eauto.
Qed.

Lemma untracked t k : items t !! k = None → IsHot t k = false ∧ IsTracked t k = false.
Proof. intros Hx. unfold IsHot, IsTracked. by rewrite Hx. Qed.

(** An empty or oversized key is never tracked. *)
Lemma wf_untrackable t k :
  wf t → bool_decide (k = EmptyString) || (MaxTrackedKeyBytes <? slen k) = true → items t !! k = None.
Proof.
  intros W Hk. destruct (items t !! k) as [i|] eqn:Hi; [|done].
  apply items_index in Hi as (e & He & <-); [|done]. destruct (wf_keys t W i e He) as [Hk1 Hk2].
  rewrite bool_decide_eq_false_2, (proj2 (Z.ltb_ge _ _) Hk2) in Hk by done. done.
Qed.

Lemma getOrCreate_dropped t k now t' : getOrCreateLocked t k now = (t', Dropped) → items t' !! k = None.
Proof.
  unfold getOrCreateLocked. destruct (items t !! k) eqn:E; [done|].
  repeat case_match; intros; simplify_eq; done.
Qed.

End lemmas.
End hotlemmas.

(** ** Guarantees *)
Import hotness hotinv hotlemmas.
#[local] Existing Instance binary64.binary64.

(** A concrete configuration and tracker over IEEE-754 doubles, for the witnesses. *)
Definition demo_config : Config spec_float :=
  {| Window := Second; EWMAAlpha := fhalf; PromotionThreshold := fofZ 4; DemotionThreshold := fofZ 2;
     MinimumHotWindows := 2; Cooldown := 5 * Second; MaxTrackedKeys := 2 |}.

Definition observeAll (t : Tracker spec_float) (l : list (Time * string)) : Tracker spec_float :=
  fold_left (λ t p, match ObserveWithState t p.1 (anyOrder t) p.2 with
                    | Some (t', _) => t' | None => t end) l t.

(** Twelve reads of one key in the first window, then a few in the second. *)
Definition demo_reads : list (Time * string) :=
  replicate 12 (10, "hot") ++ [(20, "cold")] ++ replicate 6 (Second + 10, "hot").

Definition demo_tracker : Tracker spec_float := observeAll (New demo_config 0) demo_reads.

Lemma observeAll_reachable l t :
  reachable demo_config 0 t → wf t → reachable demo_config 0 (observeAll t l).
Proof.
  revert t. induction l as [|[now k] l IH]; intros t Hr W; [done|]. unfold observeAll. simpl.
  destruct (ObserveWithState_wf t now (anyOrder t) k W (anyOrder_valid t)) as (t' & o & Ho & W').
  rewrite Ho. apply IH; [|done]. eapply reach_step; [done|]. by econstructor; [apply anyOrder_valid|].
Qed.

Lemma demo_reachable : reachable demo_config 0 demo_tracker.
Proof.
  apply observeAll_reachable; [constructor|]. apply New_wf. vm_compute. congruence.
Qed.

(** C5. Whatever is observed, admitted or advanced, at whatever times and in
    whatever map iteration orders, the tracker holds at most [MaxTrackedKeys] keys
    (at least one after normalisation), each non-empty and at most 1024 bytes, and
    its HOT counter is exactly the number of tracked keys that are HOT. *)
Theorem tracker_bounded_and_counted {F} `{Float64 F} (c : Config F) now t :
  MaxTrackedKeys c <= maxInt64 → reachable c now t →
  (Stats t).1 <= MaxTrackedKeys (cfg t) ∧
  (Stats t).2 = sumZ (λ p, if IsHot t p.1 then 1 else 0) (map_to_list (items t)) ∧
  0 <= (Stats t).2 <= (Stats t).1 ∧
  ∀ k, IsTracked t k = true → k ≠ EmptyString ∧ slen k <= MaxTrackedKeyBytes.
Proof.
  intros Hc Hr. pose proof (reachable_wf c now t Hc Hr) as W. unfold Stats. simpl.
  rewrite (tracked_size t W). split_and!.
  - apply W.
  - by apply hot_counts_keys.
  - rewrite (wf_hot t W). apply hotCount_bound.
  - rewrite (wf_hot t W). apply hotCount_bound.
  - intros k Hk. unfold IsTracked in Hk. apply bool_decide_eq_true in Hk as [i Hi].
    apply items_index in Hi as (e & He & <-); [|done]. by eapply W.
Qed.

Lemma tracker_bounded_and_counted_witness :
  let t := demo_tracker in
  (Stats t).1 <= MaxTrackedKeys (cfg t) ∧
  (Stats t).2 = sumZ (λ p, if IsHot t p.1 then 1 else 0) (map_to_list (items t)) ∧
  0 <= (Stats t).2 <= (Stats t).1 ∧
  ∀ k, IsTracked t k = true → k ≠ EmptyString ∧ slen k <= MaxTrackedKeyBytes.
Proof.
  apply (tracker_bounded_and_counted demo_config 0 demo_tracker); [vm_compute; congruence|].
  exact demo_reachable.
Defined.

(** Observing a key never indexes outside the admission ring: the call returns,
    and what it reports is the tracker it leaves behind: the HOT count, and the
    state of the key, which is reported exactly when the key is tracked. *)
Theorem observe_total_and_consistent {F} `{Float64 F} (c : Config F) now0 t now order k :
  MaxTrackedKeys c <= maxInt64 → reachable c now0 t → valid_order t order →
  ∃ t' o, ObserveWithState t now order k = Some (t', o) ∧
    oHot o = (Stats t').2 ∧
    (oState o = Some StateHot ↔ IsHot t' k = true) ∧
    (is_Some (oState o) ↔ IsTracked t' k = true).
Proof.
  intros Hc Hr Hv. pose proof (reachable_wf c now0 t Hc Hr) as W.
  destruct (ObserveWithState_wf t now order k W Hv) as (t' & o & Ho & W').
  exists t', o. split; [done|]. unfold Stats. simpl. revert Ho. unfold ObserveWithState.
  pose proof (advanceLocked_wf t now order W Hv) as W1.
  destruct (advanceLocked t now order) as [t1 trs]. simpl in *.
  destruct (bool_decide (k = EmptyString) || (MaxTrackedKeyBytes <? slen k)) eqn:Hk.
  { intros [= <- <-]. destruct (untracked t1 k (wf_untrackable t1 k W1 Hk)) as [H1 H2].
    destruct (MaxTrackedKeyBytes <? slen k); simpl; unfold IsHot, IsTracked in *; simpl;
      rewrite H1, H2; (split_and!; [done|done|]); (split; [by intros [? ?]|done]). }
  ztests. match goal with E : bool_decide _ = false |- _ => apply bool_decide_eq_false in E end.
  destruct (getOrCreate_spec t1 k now W1) as [W2 Hg]; [done..|].
  destruct (getOrCreateLocked t1 k now) as [t2 [i tr| |]] eqn:Eg; simpl in *; [| |done].
  - destruct Hg as (e & He & Hke & Hi). rewrite He.
    set (t3 := set_ring t2 _ (hot t2)).
    destruct (commit_keeps_index t3 i k) as [Hit [e4 He4]]; [done| |].
    { simpl. rewrite list_lookup_insert_eq by (by eapply lookup_lt_Some). eauto. }
    destruct (commitGuaranteedPromotion t3 i) as [t4 p]. simpl in Hit, He4.
    intros [= <- <-]. simpl. unfold IsHot, IsTracked. rewrite Hit. simpl. rewrite He4. simpl.
    rewrite !bool_decide_eq_true. split_and!; [done|by split; [intros [= ->]|intros ->]|].
    split; intros; by eexists.
  - intros [= <- <-]. simpl. destruct (untracked t2 k (getOrCreate_dropped _ _ _ _ Eg)) as [-> ->].
    split_and!; [done|done|]. split; [by intros [? ?]|done].
Qed.

Lemma observe_total_and_consistent_witness :
  ∃ t' o, ObserveWithState demo_tracker (3 * Second) (anyOrder demo_tracker) "new" = Some (t', o) ∧
    oHot o = (Stats t').2 ∧
    (oState o = Some StateHot ↔ IsHot t' "new" = true) ∧
    (is_Some (oState o) ↔ IsTracked t' "new" = true).
Proof.
  apply (observe_total_and_consistent demo_config 0 demo_tracker (3 * Second) (anyOrder demo_tracker) "new");
    [vm_compute; congruence|exact demo_reachable|apply anyOrder_valid].
Defined.

(** C24. Go leaves the iteration order over the tracked keys unspecified, and the
    window advance does not depend on it: two legal orders leave the same tracker
    and emit the same transitions up to their order. *)
Theorem advance_order_independent {F} `{Float64 F} (c : Config F) now0 t now order1 order2 :
  MaxTrackedKeys c <= maxInt64 → reachable c now0 t →
  valid_order t order1 → valid_order t order2 →
  (advanceLocked t now order1).1 = (advanceLocked t now order2).1 ∧
  (advanceLocked t now order1).2 ≡ₚ (advanceLocked t now order2).2.
Proof.
  intros Hc Hr H1 H2. pose proof (reachable_wf c now0 t Hc Hr) as W.
  rewrite !advanceLocked_spec by done. case_if; [done|]. split; [done|]. simpl.
  apply bind_Permutation. by rewrite H1, H2.
Qed.

Lemma advance_order_independent_witness :
  (advanceLocked demo_tracker (9 * Second) [0%nat; 1%nat]).1 =
    (advanceLocked demo_tracker (9 * Second) [1%nat; 0%nat]).1 ∧
  (advanceLocked demo_tracker (9 * Second) [0%nat; 1%nat]).2 ≡ₚ
    (advanceLocked demo_tracker (9 * Second) [1%nat; 0%nat]).2.
Proof.
  apply (advance_order_independent demo_config 0 demo_tracker (9 * Second) [0%nat; 1%nat] [1%nat; 0%nat]).
  - vm_compute. congruence.
  - exact demo_reachable.
  - unfold valid_order. change [0%nat; 1%nat] with (seq 0 2).
    assert (Hs : (map_to_list (items demo_tracker)).*2 = [0%nat; 1%nat] ∨
                 (map_to_list (items demo_tracker)).*2 = [1%nat; 0%nat]) by (vm_compute; tauto).
    destruct Hs as [-> | ->]; simpl; [done|constructor].
  - unfold valid_order.
    assert (Hs : (map_to_list (items demo_tracker)).*2 = [0%nat; 1%nat] ∨
                 (map_to_list (items demo_tracker)).*2 = [1%nat; 0%nat]) by (vm_compute; tauto).
    destruct Hs as [-> | ->]; simpl; [constructor|done].
Defined.

(** The transitions an operation emits account for the HOT counter exactly:
    the counter changes by the promotions (to HOT) minus the demotions (from HOT)
    among them. No promotion or demotion is lost or invented. *)
Theorem transitions_account_for_hot {F} `{Float64 F} (c : Config F) now t o t' trs :
  MaxTrackedKeys c <= maxInt64 → reachable c now t → tracker_step t o t' trs →
  (Stats t').2 = (Stats t).2
    + Z.of_nat (length (filter (λ tr, tTo tr = StateHot ∧ tFrom tr ≠ StateHot) trs))
    - Z.of_nat (length (filter (λ tr, tFrom tr = StateHot ∧ tTo tr ≠ StateHot) trs)).
Proof.
  intros Hc Hr Hs. pose proof (reachable_wf c now t Hc Hr) as W. unfold Stats. simpl.
  assert (Hn : ∀ l, net l = Z.of_nat (length (filter (λ tr, tTo tr = StateHot ∧ tFrom tr ≠ StateHot) l))
    - Z.of_nat (length (filter (λ tr, tFrom tr = StateHot ∧ tTo tr ≠ StateHot) l))).
  { induction l as [|tr l IH]; [done|]. unfold net in *. cbn [sumZ]. rewrite IH, !filter_cons.
    unfold promoted, isHot. repeat case_decide; simpl; try tauto; lia. }
  enough (hot t' = hot t + net trs) by (rewrite Hn in *; lia).
  destruct Hs as [t now1 order k t' o Hv Ho|t now1 order k t' o Hv Ho|t now1 order t' trs Hv Ho].
  - by eapply observe_net.
  - by eapply admit_net.
  - pose proof (advance_net t now1 order W Hv) as Hnet. unfold Advance in Ho. by rewrite Ho in Hnet.
Qed.

Lemma transitions_account_for_hot_witness :
  let r := Advance demo_tracker (9 * Second) (anyOrder demo_tracker) in
  (Stats r.1).2 = (Stats demo_tracker).2
    + Z.of_nat (length (filter (λ tr, tTo tr = StateHot ∧ tFrom tr ≠ StateHot) r.2))
    - Z.of_nat (length (filter (λ tr, tFrom tr = StateHot ∧ tTo tr ≠ StateHot) r.2)).
Proof.
  apply (transitions_account_for_hot demo_config 0 demo_tracker
    (TAdvance (9 * Second) (anyOrder demo_tracker))).
  - vm_compute. congruence.
  - exact demo_reachable.
  - constructor; [apply anyOrder_valid|]. apply surjective_pairing.
Defined.

(** C22. A scan of unseen keys cannot evict a HOT key: a key that is HOT once the
    elapsed windows have been applied is still tracked and HOT after the
    observation of any key, whatever the tracker's capacity. *)
Theorem observe_preserves_hot {F} `{Float64 F} (c : Config F) now0 t now order k t' o k' :
  MaxTrackedKeys c <= maxInt64 → reachable c now0 t → valid_order t order →
  ObserveWithState t now order k = Some (t', o) →
  IsHot (advanceLocked t now order).1 k' = true → IsHot t' k' = true.
Proof.
  intros Hc Hr Hv. pose proof (reachable_wf c now0 t Hc Hr) as W. unfold ObserveWithState.
  pose proof (advanceLocked_wf t now order W Hv) as W1.
  destruct (advanceLocked t now order) as [t1 trs]. simpl in *. intros Ho Hh. revert Ho.
  destruct (bool_decide (k = EmptyString) || (MaxTrackedKeyBytes <? slen k)) eqn:Hk.
  { intros [= <- <-]. by destruct (MaxTrackedKeyBytes <? slen k). }
  ztests. match goal with E : bool_decide _ = false |- _ => apply bool_decide_eq_false in E end.
  destruct (getOrCreate_spec t1 k now W1) as [W2 Hg]; [done..|].
  pose proof (getOrCreate_keeps_hot t1 k now k' W1 ltac:(done) ltac:(done) Hh) as Hh2.
  destruct (getOrCreateLocked t1 k now) as [t2 [i tr| |]]; simpl in *; [|by intros [= <- <-]|done].
  destruct Hg as (e & He & Hke & _). rewrite He.
  set (e' := set_lastSeen (set_count e (count e +i 1)) now).
  assert (W3 : wf (set_ring t2 (<[i := e']> (ring t2)) (hot t2))) by (by eapply set_entry_same_state_wf).
  assert (Hh3 : IsHot (set_ring t2 (<[i := e']> (ring t2)) (hot t2)) k' = true)
    by (by eapply set_entry_keeps_hot).
  pose proof (commit_keeps_hot _ i k' W3 Hh3) as Hh4.
  destruct (commitGuaranteedPromotion _ i) as [t4 p]. by intros [= <- <-].
Qed.

Lemma observe_preserves_hot_witness :
  match ObserveWithState demo_tracker (Second + 20) (anyOrder demo_tracker) "scan" with
  | Some (t', _) => IsHot t' "hot" = true
  | None => False
  end.
Proof.
  destruct (ObserveWithState demo_tracker (Second + 20) (anyOrder demo_tracker) "scan")
    as [[t' o]|] eqn:E; [|vm_compute in E; discriminate].
  apply (observe_preserves_hot demo_config 0 demo_tracker (Second + 20) (anyOrder demo_tracker) "scan" t' o "hot").
  - vm_compute. congruence.
  - exact demo_reachable.
  - apply anyOrder_valid.
  - exact E.
  - vm_compute. reflexivity.
Defined.
