(* ===== verification/HotnessDecay.v ===== *)
(** * The window catch-up search of the hot-key tracker

    When the tracker has slept through many windows it must know for how many of
    them a decaying score stays above a threshold. [decayWindowsAtLeast] guesses with
    logarithms and corrects the guess with [math.Pow]; it is exact whenever the
    decayed scores do not increase, however bad the guess is. *)
From stdpp Require Import prelude gmap strings list fin_maps.
From Stdlib Require Import ZArith Lia SpecFloat.
From S2P Require Import Prelude Float64 Hotness.
Local Open Scope Z_scope.

Module hotdecay.
Import hotness.

Section decay.
Context {F : Type} `{Float64 F} (initial decay threshold : F) (maxWindows : Z).

(** The score after [n] empty windows still qualifies. *)
Definition qualifies (n : Z) : Prop := (decayed initial decay n >=? threshold)%f64 = true.

(** The scores are numbers and do not increase. *)
Context (comparable : ∀ n, 1 <= n <= maxWindows →
  (decayed initial decay n <? threshold)%f64 = negb (decayed initial decay n >=? threshold)%f64).
Context (antitone : ∀ n, 1 <= n → n + 1 <= maxWindows → qualifies (n + 1) → qualifies n).

Lemma qualifies_below n d : 1 <= n → n + Z.of_nat d <= maxWindows → qualifies (n + Z.of_nat d) → qualifies n.
Proof.
  intros Hn. induction d as [|d IH]; intros Hd Hq; [by rewrite Z.add_0_r in Hq|].
  apply IH; [lia|]. apply antitone; [lia|lia|]. by replace (n + Z.of_nat d + 1) with (n + Z.of_nat (S d)) by lia.
Qed.

Lemma qualifies_le n m : 1 <= n <= m → m <= maxWindows → qualifies m → qualifies n.
Proof.
  intros Hnm Hm Hq. apply (qualifies_below n (Z.to_nat (m - n))); [lia|lia|].
  by replace (n + Z.of_nat (Z.to_nat (m - n))) with m by lia.
Qed.

(** Correcting downwards ends at a window that qualifies, or at none. *)
Lemma estimateDown_spec e :
  0 <= e <= maxWindows →
  let r := estimateDown initial decay threshold e in 0 <= r <= maxWindows ∧ (0 < r → qualifies r).
Proof.
  intros He. unfold estimateDown. set (f := λ e, _). pose (I e := 0 <= e <= maxWindows).
  assert (Hstep : ∀ a, I a → match f a with
    | inl a' => I a' ∧ 0 <= a' < a
    | inr r => I r ∧ (0 < r → qualifies r) end).
  { intros a Ha. unfold f, I in *. destruct (0 <? a) eqn:E1; cbn [andb]; ztests.
    - rewrite comparable by lia. unfold qualifies. destruct (fle threshold (decayed initial decay a)) eqn:E2; cbn [negb]; split; [done|done|lia|lia].
    - split; [done|]. lia. }
  destruct (loop_terminates f I (λ e, e)) with (p := Z.to_pos (e + 1)) (a := e) as [r Hr].
  - intros a a' Ha Hf. specialize (Hstep a Ha). by rewrite Hf in Hstep.
  - done.
  - lia.
  - rewrite Hr. cbv zeta. pose proof (loop_invariant f I (λ r, I r ∧ (0 < r → qualifies r))) as Hi.
    specialize (Hi ltac:(intros a Ha; specialize (Hstep a Ha); destruct (f a); [by destruct Hstep|done])
      (Z.to_pos (e + 1)) e He). by rewrite Hr in Hi.
Qed.

(** Correcting upwards ends where the next window no longer qualifies. *)
Lemma estimateUp_spec e :
  0 <= e <= maxWindows → (0 < e → qualifies e) →
  let r := estimateUp initial decay threshold maxWindows e in
  0 <= r <= maxWindows ∧ (0 < r → qualifies r) ∧ (r < maxWindows → ¬ qualifies (r + 1)).
Proof.
  intros He Hq. unfold estimateUp. set (f := λ e, _).
  pose (I e := 0 <= e <= maxWindows ∧ (0 < e → qualifies e)).
  assert (Hstep : ∀ a, I a → match f a with
    | inl a' => I a' ∧ 0 <= maxWindows - a' < maxWindows - a
    | inr r => I r ∧ (r < maxWindows → ¬ qualifies (r + 1)) end).
  { intros a [Ha Hqa]. unfold f. destruct (a <? maxWindows) eqn:E1; cbn [andb]; ztests.
    - destruct (decayed initial decay (a + 1) >=? threshold)%f64 eqn:E2.
      + split; [|lia]. split; [lia|]. intros _. exact E2.
      + split; [done|]. intros _ Hc. unfold qualifies in Hc. congruence.
    - split; [done|]. lia. }
  destruct (loop_terminates f I (λ e, maxWindows - e)) with (p := Z.to_pos (maxWindows - e + 1)) (a := e) as [r Hr].
  - intros a a' Ha Hf. specialize (Hstep a Ha). by rewrite Hf in Hstep.
  - done.
  - lia.
  - rewrite Hr. cbv zeta.
    pose proof (loop_invariant f I (λ r, I r ∧ (r < maxWindows → ¬ qualifies (r + 1)))) as Hi.
    specialize (Hi ltac:(intros a Ha; specialize (Hstep a Ha); destruct (f a); [by destruct Hstep|done])
      (Z.to_pos (maxWindows - e + 1)) e (conj He Hq)). rewrite Hr in Hi. destruct Hi as [[? ?] ?]. done.
Qed.

End decay.
End hotdecay.

Import hotness hotdecay.
#[local] Existing Instance binary64.binary64.

(** C23. [decayWindowsAtLeast] counts exactly the windows whose decayed score is at
    least the threshold: the first [r] of them and no other, whatever estimate the
    logarithms gave. Of the library functions only this is assumed: [math.Pow(x, 1)]
    is x, the decayed scores are numbers and do not increase. *)
Theorem decay_search_exact {F} `{Float64 F} (initial decay threshold : F) maxWindows :
  0 < maxWindows →
  (initial <=? f0)%f64 = false → (threshold <=? f0)%f64 = false → (decay <=? f0)%f64 = false → (decay >=? f1)%f64 = false →
  fpow decay (fofZ 1) = decay →
  (∀ n, 1 <= n <= maxWindows →
     (decayed initial decay n <? threshold)%f64 = negb (decayed initial decay n >=? threshold)%f64) →
  (∀ n, 1 <= n → n + 1 <= maxWindows →
     (decayed initial decay (n + 1) >=? threshold)%f64 = true → (decayed initial decay n >=? threshold)%f64 = true) →
  let r := decayWindowsAtLeast initial decay threshold maxWindows in
  0 <= r <= maxWindows ∧
  ∀ n, 1 <= n <= maxWindows → (decayed initial decay n >=? threshold)%f64 = true ↔ n <= r.
Proof.
  intros Hm Hi Ht Hd Hd1 Hpow Hcmp Hanti. unfold decayWindowsAtLeast.
  rewrite (proj2 (Z.leb_gt maxWindows 0) Hm), Hi, Ht, Hd, Hd1. cbn [orb].
  assert (Hone : decayed initial decay 1 = (initial * decay)%f64) by (unfold decayed; by rewrite Hpow).
  rewrite <-Hone. pose proof (qualifies_le initial decay threshold maxWindows Hanti) as Hle. unfold qualifies in Hle.
  destruct (decayed initial decay 1 <? threshold)%f64 eqn:E1; cbn [orb].
  { cbv zeta. split; [lia|]. intros n Hn. split; [|lia]. intros Hq.
    rewrite (Hcmp 1 ltac:(lia)), (Hle 1 n) in E1; [done|lia|lia|done]. }
  destruct (decayed initial decay maxWindows >=? threshold)%f64 eqn:E2.
  { cbv zeta. split; [lia|]. intros n Hn. split; [lia|]. intros _. by apply (Hle n maxWindows); [lia|lia|]. }
  cbv zeta. set (e0 := ftoi64 _). set (e1 := if e0 <? 0 then 0 else e0). set (e2 := if maxWindows <? e1 then maxWindows else e1).
  assert (He : 0 <= e2 <= maxWindows) by (unfold e2, e1; repeat case_match; ztests; lia).
  destruct (estimateDown_spec initial decay threshold maxWindows Hcmp e2 He) as [Hr1 Hq1].
  destruct (estimateUp_spec initial decay threshold maxWindows _ Hr1 Hq1) as (Hr & Hq & Hstop).
  split; [done|]. intros n Hn. unfold qualifies in *. split.
  - intros Hqn. destruct (decide (n <= estimateUp initial decay threshold maxWindows (estimateDown initial decay threshold e2))); [done|].
    destruct Hstop; [lia|]. by apply (Hle _ n); [lia|lia|].
  - intros Hnr. eapply Hle; [| |apply Hq]; lia.
Qed.

(** Checking a property of the windows one by one. *)
Lemma forallb_windows (f : Z → bool) m : forallb f (seqZ 1 m) = true → ∀ n, 1 <= n <= m → f n = true.
Proof.
  intros Hf n Hn. rewrite forallb_forall in Hf. apply Hf, list_elem_of_In, elem_of_seqZ. lia.
Qed.

(** A score of 1000 that halves stays at 20 or more for five of ten windows. *)
Lemma decay_search_exact_witness :
  let r := decayWindowsAtLeast (F := spec_float) (fofZ 1000) fhalf (fofZ 20) 10 in
  0 <= r <= 10 ∧ r = 5.
Proof.
  split; [|vm_compute; reflexivity].
  apply (decay_search_exact (F := spec_float) (fofZ 1000) fhalf (fofZ 20) 10);
    [lia|vm_compute; reflexivity..| |].
  - intros n Hn. apply eqb_prop. revert n Hn. apply forallb_windows. vm_compute. reflexivity.
  - intros n H1 H2. apply (implb_true_iff (decayed (fofZ 1000) fhalf (n + 1) >=? fofZ 20)%f64).
    apply (forallb_windows (λ n, implb (decayed (fofZ 1000) fhalf (n + 1) >=? fofZ 20)%f64
      (decayed (fofZ 1000) fhalf n >=? fofZ 20)%f64) 9); [vm_compute; reflexivity|lia].
Defined.
