(* ===== verification/Scorer.v ===== *)
(** * internal/hotness: ranking the tracked keys

    scorer.go selects the best snapshots with a bounded heap whose root is the worst
    kept so far, and sorts the survivors. [topSnapshots] is proved equal to the
    reference that sorts everything and takes a prefix, whatever order the iteration
    over the map takes. *)
From Stdlib Require Import ZArith Lia Floats.SpecFloat Sorting.Permutation Sorting.Sorted.
From stdpp Require Import prelude gmap strings list.
From S2P Require Import Prelude Float64 GoStd GoHeap Hotness HotnessInv HotnessProps.
Local Open Scope Z_scope.

(** What the ranking needs of IEEE comparison away from NaN. *)
Class FloatOrder (F : Type) `{Float64 F} : Prop := {
  flt_asym x y : flt x y = true → flt y x = false;
  flt_negtrans x y z :
    fisnan x = false → fisnan y = false → fisnan z = false →
    flt y x = false → flt z y = false → flt z x = false;
  feq_spec x y :
    fisnan x = false → fisnan y = false → feq x y = true ↔ flt x y = false ∧ flt y x = false
}.

Module scorer.
Import hotness hotinv goheap gostd.

Section scorer.
Context {F : Type} `{Float64 F}.
Implicit Types (s : Snapshot F).

Definition snapshotBetter (left right : Snapshot F) : bool :=
  let lh := bool_decide (snState left = StateHot) in
  let rh := bool_decide (snState right = StateHot) in
  if lh && negb rh then true
  else if negb lh && rh then false
  else if feq (snScore left) (snScore right) then String.ltb (snKey left) (snKey right)
  else flt (snScore right) (snScore left).

(** [worstSnapshotHeap.Less]. *)
Definition worstLess (left right : Snapshot F) : bool := snapshotBetter right left.

Definition sortSnapshots (l : list (Snapshot F)) : list (Snapshot F) := sortSlice snapshotBetter l.

(** One round of the selection loop. The last case is an index out of range of an
    empty slice; it needs a limit below 1, which the caller excludes. *)
Definition selectOne (limit : Z) (selected : list (Snapshot F)) (s : Snapshot F) : list (Snapshot F) :=
  if Z.of_nat (length selected) <? limit then Push worstLess selected s
  else match selected with
  | worst :: _ => if snapshotBetter s worst then Fix worstLess (<[0%nat := s]> selected) 0 else selected
  | [] => selected
  end.

(** [entries] are the values of the map in the order the iteration takes. *)
Definition topSnapshots (entries : list (entry F)) (now : Time) (limit : Z) : list (Snapshot F) :=
  let snapshots := map (λ e, snapshot e now) entries in
  if (limit <=? 0) || (Z.of_nat (length entries) <=? limit) then sortSnapshots snapshots
  else sortSnapshots (fold_left (selectOne limit) snapshots []).

Definition entriesOf (t : Tracker F) (order : list nat) : list (entry F) := omap (λ i, ring t !! i) order.

Definition Snapshots (t : Tracker F) (now : Time) (order : list nat) (limit : Z) : list (Snapshot F) :=
  topSnapshots (entriesOf t order) now limit.

(** The two iterations over the map take an order each. *)
Definition AdvanceAndSnapshot (t : Tracker F) (now : Time) (order1 order2 : list nat) (limit : Z)
    : Tracker F * View F :=
  let '(t, transitions) := advanceLocked t now order1 in
  (t, mkView transitions (topSnapshots (entriesOf t order2) now limit)
        (Z.of_nat (size (items t))) (hot t) (evictions t) (capacityDrops t) (oversizedObservationsDropped t)).

Definition Evictions (t : Tracker F) : Z := evictions t.
Definition CapacityDrops (t : Tracker F) : Z := capacityDrops t.
Definition OversizedObservationsDropped (t : Tracker F) : Z := oversizedObservationsDropped t.

(** ** What is selected, whatever the order *)

Lemma selectOne_perm limit kept s :
  0 < limit → Z.of_nat (length kept) <= limit →
  ∃ dropped, kept ++ [s] ≡ₚ selectOne limit kept s ++ dropped ∧
    Z.of_nat (length (selectOne limit kept s)) = Z.min limit (Z.of_nat (length kept) + 1).
Proof.
  intros Hl Hk. unfold selectOne. destruct (Z.of_nat (length kept) <? limit) eqn:E.
  - apply Z.ltb_lt in E. exists []. rewrite Push_perm, app_nil_r. split; [symmetry; apply Permutation_cons_append|].
    cbn. lia.
  - apply Z.ltb_ge in E. destruct kept as [|worst kept]; [cbn in *; lia|]. case_match.
    + exists [worst]. rewrite Fix_perm. cbn [insert list_insert]. split; [|cbn in *; lia].
      rewrite <-!Permutation_cons_append. apply Permutation_swap.
    + exists [s]. split; [done|]. cbn in *. lia.
Qed.

Lemma select_perm limit snapshots kept :
  0 < limit → Z.of_nat (length kept) <= limit →
  ∃ dropped, kept ++ snapshots ≡ₚ fold_left (selectOne limit) snapshots kept ++ dropped ∧
    Z.of_nat (length (fold_left (selectOne limit) snapshots kept)) =
      Z.min limit (Z.of_nat (length kept + length snapshots)).
Proof.
  intros Hl. revert kept. induction snapshots as [|s snapshots IH]; intros kept Hk; cbn [fold_left].
  { exists []. rewrite !app_nil_r. cbn. split; [done|]. lia. }
  destruct (selectOne_perm limit kept s Hl Hk) as (d1 & Hp1 & L1).
  destruct (IH (selectOne limit kept s)) as (d2 & Hp2 & L2); [lia|].
  exists (d2 ++ d1). split; [|rewrite L2; cbn; lia].
  rewrite (assoc_L (++)), <-Hp2, cons_middle, (assoc_L (++) kept), Hp1, <-!(assoc_L (++)).
  apply Permutation_app_head, Permutation_app_comm.
Qed.

(** A part of the snapshots, of the length asked for. *)
Lemma topSnapshots_part entries now limit :
  ∃ dropped, ((λ e, snapshot e now) <$> entries) ≡ₚ topSnapshots entries now limit ++ dropped ∧
    Z.of_nat (length (topSnapshots entries now limit)) =
      if limit <=? 0 then Z.of_nat (length entries) else Z.min limit (Z.of_nat (length entries)).
Proof.
  unfold topSnapshots. cbv zeta. set (snapshots := map (λ e, snapshot e now) entries).
  assert (Hlen : length snapshots = length entries) by apply length_map.
  change ((λ e, snapshot e now) <$> entries) with snapshots.
  destruct (limit <=? 0) eqn:E0; cbn [orb].
  { exists []. unfold sortSnapshots. rewrite sortSlice_perm, app_nil_r, Hlen. done. }
  apply Z.leb_gt in E0. destruct (Z.of_nat (length entries) <=? limit) eqn:E1.
  { apply Z.leb_le in E1. exists []. unfold sortSnapshots. rewrite sortSlice_perm, app_nil_r, Hlen. split; [done|]. lia. }
  destruct (select_perm limit snapshots [] E0) as (d & Hp & Hl); [cbn; lia|]. cbn [app length] in Hp, Hl.
  exists d. unfold sortSnapshots. rewrite !sortSlice_perm. split; [done|]. rewrite Hl. f_equal. lia.
Qed.

(** ** The order *)

Definition number (s : Snapshot F) : Prop := fisnan (snScore s) = false.

Context `{!FloatOrder F}.

Definition hotter (a b : Snapshot F) : bool :=
  bool_decide (snState a = StateHot) && negb (bool_decide (snState b = StateHot)).
Definition higher (a b : Snapshot F) : bool := flt (snScore b) (snScore a).
Definition earlier (a b : Snapshot F) : bool := String.ltb (snKey a) (snKey b).

(** The comparison is lexicographic: HOT first, then the score, then the key. *)
Lemma snapshotBetter_lex a b :
  number a → number b → lex hotter (lex higher earlier) a b = snapshotBetter a b.
Proof.
  intros Na Nb. unfold snapshotBetter, lex, hotter, higher, earlier.
  pose proof (feq_spec (snScore a) (snScore b) Na Nb) as E.
  destruct (feq (snScore a) (snScore b)).
  - destruct (proj1 E eq_refl) as [-> ->]. repeat case_bool_decide; done.
  - assert (He : flt (snScore b) (snScore a) || (negb (flt (snScore a) (snScore b)) && String.ltb (snKey a) (snKey b))
      = flt (snScore b) (snScore a)).
    { destruct (flt (snScore b) (snScore a)), (flt (snScore a) (snScore b)); try done. discriminate (proj2 E (conj eq_refl eq_refl)). }
    rewrite He. repeat case_bool_decide; cbn; try done; by rewrite ?orb_false_r.
Qed.

Lemma better_weakOrder : weakOrder snapshotBetter number.
Proof.
  apply (weakOrder_ext _ _ _ snapshotBetter_lex). apply lex_weakOrder; [|apply lex_weakOrder]; constructor.
  - intros a b _ _. unfold hotter. repeat case_bool_decide; done.
  - intros a b c _ _ _. unfold hotter. repeat case_bool_decide; done.
  - intros a b _ _. apply flt_asym.
  - intros a b c Na Nb Nc H1 H2. by apply (flt_negtrans (snScore c) (snScore b) (snScore a)).
  - intros a b _ _ Hl. unfold earlier in *. destruct (String.ltb (snKey b) (snKey a)) eqn:Hr; [|done].
    by rewrite <-(ltb_irrefl (snKey a)), (ltb_trans _ _ _ Hl Hr).
  - intros a b c _ _ _. unfold earlier. intros H1 H2. destruct (String.ltb (snKey c) (snKey a)) eqn:Hr; [|done].
    destruct (ltb_tricho (snKey a) (snKey b)) as [E|[E|E]]; [|by rewrite <-E, Hr in H2|by rewrite E in H1].
    by rewrite (ltb_trans _ _ _ Hr E) in H2.
Qed.

(** Distinct keys are never tied. *)
Lemma better_total a b : number a → number b → snapshotBetter a b = false → snapshotBetter b a = false → snKey a = snKey b.
Proof.
  intros Na Nb. rewrite <-!snapshotBetter_lex by done. rewrite !lex_false. unfold earlier.
  intros [H1 H2] [H3 H4]. destruct (H2 H3) as [H5 H6], (H4 H1) as [H7 H8].
  destruct (ltb_tricho (snKey a) (snKey b)) as [E|[E|E]]; [by rewrite (H6 H7) in E|done|by rewrite (H8 H5) in E].
Qed.

Lemma worst_weakOrder : weakOrder worstLess number.
Proof. apply weakOrder_flip, better_weakOrder. Qed.

(** ** The selection *)

(** The kept ones are a heap of at most [limit] snapshots, and the dropped ones are
    no better than any kept one. *)
Definition selection (limit : Z) (seen kept : list (Snapshot F)) : Prop :=
  heap worstLess kept ∧ Z.of_nat (length kept) = Z.min limit (Z.of_nat (length seen)) ∧
  ∃ dropped, seen ≡ₚ kept ++ dropped ∧
    Forall (λ d, Forall (λ k, snapshotBetter d k = false) kept) dropped.

Lemma selectOne_selection limit seen kept s :
  0 < limit → Forall number seen → number s → selection limit seen kept →
  selection limit (seen ++ [s]) (selectOne limit kept s).
Proof.
  intros Hl HP Ns (Hh & Hlen & dropped & Hp & Hd).
  assert (HPk : Forall number kept) by (rewrite Hp in HP; by apply Forall_app in HP as [? _]).
  assert (HPd : Forall number dropped) by (rewrite Hp in HP; by apply Forall_app in HP as [_ ?]).
  unfold selectOne. destruct (Z.of_nat (length kept) <? limit) eqn:E.
  - apply Z.ltb_lt in E.
    assert (dropped = []) as ->.
    { apply length_zero_iff_nil. apply Permutation_length in Hp. rewrite length_app in Hp. lia. }
    split; [by apply (Push_heap _ number worst_weakOrder)|]. split.
    { rewrite Push_perm, length_app. cbn. lia. }
    exists []. split; [|done]. rewrite Push_perm, Hp, !app_nil_r. symmetry. apply Permutation_cons_append.
  - apply Z.ltb_ge in E. destruct kept as [|worst kept]; [cbn in *; lia|].
    assert (Hroot := heap_root _ number worst_weakOrder (worst :: kept) worst HPk Hh eq_refl).
    unfold worstLess in Hroot. inversion HPk as [|? ? Nw HPk']; subst.
    apply Forall_cons in Hroot as [_ Hroot].
    rewrite Forall_forall in Hroot, HPk'. rewrite Forall_forall in HPd.
    destruct (snapshotBetter s worst) eqn:Es.
    + cbn [insert list_insert]. split; [by apply (Fix_root_heap _ number worst_weakOrder (worst :: kept) s)|].
      split; [rewrite Fix_perm, length_app; cbn in *; lia|].
      exists (worst :: dropped). split.
      { rewrite Fix_perm, Hp, (Permutation_app_comm _ [s]). cbn. by rewrite <-Permutation_middle. }
      assert (Hws : snapshotBetter worst s = false) by (by apply (less_asym _ _ better_weakOrder)).
      apply Forall_cons. split.
      * rewrite Fix_perm. apply Forall_cons. split; [done|]. by apply Forall_forall.
      * rewrite Forall_forall in Hd |- *. intros d Hd1. specialize (Hd d Hd1). apply Forall_cons in Hd as [Hd2 Hd3].
        rewrite Fix_perm. apply Forall_cons. split; [|done].
        apply (less_negtrans _ _ better_weakOrder s worst d); auto.
    + split; [done|]. split; [rewrite length_app; cbn in *; lia|].
      exists (s :: dropped). split.
      { rewrite <-Permutation_cons_append, Hp. apply Permutation_middle. }
      constructor; [|done]. apply Forall_cons. split; [done|]. apply Forall_forall. intros k Hk.
      apply (less_negtrans _ _ better_weakOrder k worst s); auto.
Qed.

Lemma select_selection limit snapshots seen kept :
  0 < limit → Forall number (seen ++ snapshots) → selection limit seen kept →
  selection limit (seen ++ snapshots) (fold_left (selectOne limit) snapshots kept).
Proof.
  intros Hl. revert seen kept. induction snapshots as [|s snapshots IH]; intros seen kept HP Hs; cbn.
  { by rewrite app_nil_r. }
  rewrite (cons_middle s seen snapshots), (assoc_L (++)) in HP |- *.
  assert (HP' := HP). apply Forall_app in HP' as [[Hseen Hn]%Forall_app _].
  apply IH; [done|]. apply selectOne_selection; try done. by inversion Hn.
Qed.

Lemma sorted_app l1 l2 :
  StronglySorted (λ x y, snapshotBetter y x = false) l1 → StronglySorted (λ x y, snapshotBetter y x = false) l2 →
  Forall (λ d, Forall (λ k, snapshotBetter d k = false) l1) l2 →
  StronglySorted (λ x y, snapshotBetter y x = false) (l1 ++ l2).
Proof.
  intros S1 S2 Hd. induction S1 as [|x l1 S1 IH Hx]; cbn; [done|]. constructor.
  - apply IH. eapply Forall_impl; [exact Hd|]. intros d Hk. by apply Forall_cons in Hk as [_ ?].
  - apply Forall_app. split; [done|]. eapply Forall_impl; [exact Hd|]. intros d Hk. by apply Forall_cons in Hk as [? _].
Qed.

(** The reference: sort everything, take a prefix. *)
Definition bestOf (snapshots : list (Snapshot F)) (limit : Z) : list (Snapshot F) :=
  if limit <=? 0 then sortSnapshots snapshots else take (Z.to_nat limit) (sortSnapshots snapshots).

Lemma sortSnapshots_unique l1 l2 :
  Forall number l1 → NoDup (snKey <$> l1) → l1 ≡ₚ l2 → StronglySorted (λ x y, snapshotBetter y x = false) l2 →
  sortSnapshots l1 = l2.
Proof.
  intros HN Hk Hp Hs. apply (sorted_unique snapshotBetter); [|by apply (sortSlice_sorted _ _ better_weakOrder)|done|].
  - intros x y Hx Hy. unfold sortSnapshots in *. rewrite sortSlice_perm in Hx, Hy. rewrite Forall_forall in HN.
    intros H1 H2. assert (E := better_total x y (HN x Hx) (HN y Hy) H1 H2).
    apply list_elem_of_lookup in Hx as [i Hi], Hy as [j Hj].
    assert (i = j) as ->; [|congruence]. eapply NoDup_lookup; [exact Hk|..]; rewrite list_lookup_fmap; [by rewrite Hi|by rewrite Hj, E].
  - unfold sortSnapshots. by rewrite sortSlice_perm.
Qed.

Lemma topSnapshots_best entries now limit all :
  let snapshots := (λ e, snapshot e now) <$> entries in
  Forall number snapshots → NoDup (snKey <$> snapshots) → all ≡ₚ snapshots →
  topSnapshots entries now limit = bestOf all limit.
Proof.
  cbv zeta. set (snapshots := (λ e, snapshot e now) <$> entries). intros HN Hk Hall.
  assert (Hsort : sortSnapshots all = sortSnapshots snapshots).
  { symmetry. apply sortSnapshots_unique; [done|done|unfold sortSnapshots; by rewrite sortSlice_perm, Hall|].
    apply (sortSlice_sorted _ _ better_weakOrder). by rewrite Hall. }
  assert (Hlen : length snapshots = length entries) by apply length_fmap.
  unfold topSnapshots, bestOf. rewrite Hsort. change (map (λ e, snapshot e now) entries) with snapshots.
  destruct (limit <=? 0) eqn:E0; [done|]. apply Z.leb_gt in E0. cbn [orb].
  destruct (Z.of_nat (length entries) <=? limit) eqn:E1.
  { apply Z.leb_le in E1. rewrite take_ge; [done|]. unfold sortSnapshots. rewrite sortSlice_perm. lia. }
  apply Z.leb_gt in E1.
  destruct (select_selection limit snapshots [] []) as (_ & Hlk & dropped & Hp & Hd); try done.
  { split; [intros k x y _ Hx; by rewrite lookup_nil in Hx|]. split; [cbn; lia|]. by exists []. }
  cbn [app] in Hlk, Hp. set (kept := fold_left (selectOne limit) snapshots []) in *.
  assert (HNk : Forall number (kept ++ dropped)) by (by rewrite <-Hp). apply Forall_app in HNk as [HNk HNd].
  rewrite (sortSnapshots_unique snapshots (sortSnapshots kept ++ sortSnapshots dropped)); try done.
  - rewrite take_app_length'; [done|]. unfold sortSnapshots. rewrite sortSlice_perm. lia.
  - unfold sortSnapshots. by rewrite !sortSlice_perm.
  - apply sorted_app; [by apply (sortSlice_sorted _ _ better_weakOrder)..|].
    unfold sortSnapshots. rewrite Forall_forall in Hd |- *. intros d Hin. rewrite sortSlice_perm in Hin |- *. by apply Hd.
Qed.

(** With distinct keys the sorted order is strict. *)
Lemma sorted_strict l :
  Forall number l → NoDup (snKey <$> l) → StronglySorted (λ x y, snapshotBetter x y = true) (sortSnapshots l).
Proof.
  intros HN Hk.
  assert (Hs : StronglySorted (λ x y, snapshotBetter y x = false) (sortSnapshots l))
    by (by apply (sortSlice_sorted _ _ better_weakOrder)).
  assert (HN' : Forall number (sortSnapshots l)) by (unfold sortSnapshots; by rewrite sortSlice_perm).
  assert (Hk' : NoDup (snKey <$> sortSnapshots l)) by (unfold sortSnapshots; by rewrite sortSlice_perm).
  induction Hs as [|x r Hs IH Hx]; [constructor|].
  apply Forall_cons in HN' as [Nx HN']. rewrite fmap_cons in Hk'. apply NoDup_cons in Hk' as [Hin Hk'].
  constructor; [by apply IH|]. rewrite Forall_forall in Hx, HN' |- *. intros y Hy.
  destruct (snapshotBetter x y) eqn:E; [done|]. destruct Hin.
  rewrite (better_total x y Nx (HN' y Hy) E (Hx y Hy)). by apply list_elem_of_fmap_2.
Qed.

(** ** The tracker's entries *)

Lemma omap_seq {A} (l0 l : list A) : omap (λ i, (l0 ++ l) !! i) (seq (length l0) (length l)) = l.
Proof.
  revert l0. induction l as [|x l IH]; intros l0; [done|]. cbn.
  rewrite list_lookup_middle by done. f_equal.
  specialize (IH (l0 ++ [x])). rewrite <-(assoc_L (++)), length_app, Nat.add_1_r in IH. exact IH.
Qed.

Lemma entries_perm t order : wf t → valid_order t order → entriesOf t order ≡ₚ ring t.
Proof.
  intros W Hv. unfold entriesOf.
  assert (Ho : order ≡ₚ seq 0 (length (ring t))).
  { apply NoDup_Permutation; [by eapply order_nodup|apply NoDup_seq|].
    intros i. rewrite (order_elem t _ i W Hv), elem_of_seq. lia. }
  rewrite Ho. apply reflexive_eq. exact (omap_seq [] (ring t)).
Qed.

Lemma ring_keys t now : wf t → NoDup (snKey <$> ((λ e, snapshot e now) <$> ring t)).
Proof.
  intros W. apply NoDup_alt. intros i j k. rewrite !list_lookup_fmap.
  destruct (ring t !! i) as [e1|] eqn:E1; [|done]. destruct (ring t !! j) as [e2|] eqn:E2; [|done].
  cbn. intros [= <-] [= Hk].
  assert (H1 : items t !! key e1 = Some i) by (apply (wf_items t W); eauto).
  assert (H2 : items t !! key e1 = Some j) by (apply (wf_items t W); eauto). congruence.
Qed.

(** A view tells of one state of the tracker: its counts are that state's, its
    snapshots are of distinct entries, as many as the limit allows. *)
Definition viewOf (limit : Z) (t : Tracker F) (now : Time) (v : View F) : Prop :=
  wf t ∧ vTracked v = Z.of_nat (length (ring t)) ∧ vHot v = hot t ∧ vEvictions v = evictions t ∧
  vCapacityDrops v = capacityDrops t ∧ vOversized v = oversizedObservationsDropped t ∧
  ∃ dropped, ((λ e, snapshot e now) <$> ring t) ≡ₚ vSnapshots v ++ dropped ∧
    Z.of_nat (length (vSnapshots v)) =
      if limit <=? 0 then vTracked v else Z.min limit (vTracked v).

Lemma AdvanceAndSnapshot_view t now order1 order2 limit :
  wf t → valid_order t order1 → valid_order t order2 →
  let '(t', v) := AdvanceAndSnapshot t now order1 order2 limit in viewOf limit t' now v.
Proof.
  intros W H1 H2. unfold AdvanceAndSnapshot. pose proof (advanceLocked_wf t now order1 W H1) as W'.
  assert (H2' : valid_order (advanceLocked t now order1).1 order2).
  { unfold valid_order. rewrite advanceLocked_spec by done. by case_if. }
  destruct (advanceLocked t now order1) as [t' l]. cbn [fst] in *.
  pose proof (entries_perm t' order2 W' H2') as Hp.
  destruct (topSnapshots_part (entriesOf t' order2) now limit) as (dropped & Hd & Hl).
  split_and!; cbn; [done|by rewrite tracked_size|done..|].
  exists dropped. split; [by rewrite <-Hd, Hp|]. cbn [vTracked]. by rewrite Hl, (Permutation_length Hp), tracked_size by done.
Qed.

Lemma Snapshots_best t now order limit :
  wf t → valid_order t order → Forall (λ e, number (snapshot e now)) (ring t) →
  Snapshots t now order limit = bestOf ((λ e, snapshot e now) <$> ring t) limit.
Proof.
  intros W Hv HN. pose proof (entries_perm t order W Hv) as Hp. unfold Snapshots.
  apply topSnapshots_best.
  - rewrite Hp. by apply Forall_fmap.
  - rewrite Hp. by apply ring_keys.
  - by rewrite Hp.
Qed.

End scorer.
Lemma numbers_dec {F} `{Float64 F} now (l : list (entry F)) :
  forallb (λ e, negb (fisnan (snScore (snapshot e now)))) l = true → Forall (λ e, number (snapshot e now)) l.
Proof.
  induction l as [|e l IH]; [constructor|]. cbn. intros [He Hl]%andb_true_iff. constructor; [|by apply IH].
  unfold number. by apply negb_true_iff in He.
Qed.

(** ** Double precision is ordered *)

(** The rank of a number: its class, then its exponent, then its significand. *)
Definition rank (x : spec_float) : Z * Z * Z :=
  match x with
  | S754_infinity true => (-2, 0, 0)
  | S754_finite true m e => (-1, - e, - Z.pos m)
  | S754_zero _ | S754_nan => (0, 0, 0)
  | S754_finite false m e => (1, e, Z.pos m)
  | S754_infinity false => (2, 0, 0)
  end.

Definition rankLt (a b : Z * Z * Z) : Prop :=
  a.1.1 < b.1.1 ∨ (a.1.1 = b.1.1 ∧ (a.1.2 < b.1.2 ∨ (a.1.2 = b.1.2 ∧ a.2 < b.2))).

Lemma SFcompare_rank x y :
  binary64.isnan x = false → binary64.isnan y = false →
  match SFcompare x y with
  | Some Lt => rankLt (rank x) (rank y)
  | Some Eq => rank x = rank y
  | Some Gt => rankLt (rank y) (rank x)
  | None => False
  end.
Proof.
  unfold rankLt. destruct x as [s1|s1| |s1 m1 e1], y as [s2|s2| |s2 m2 e2]; try done; intros _ _; cbn;
    repeat match goal with s : bool |- _ => destruct s end; cbn; try done; try lia;
    destruct (Z.compare_spec e1 e2) as [->|E|E]; cbn; try lia;
    change (Pos.compare_cont Eq m1 m2) with (Pos.compare m1 m2);
    destruct (Pos.compare_spec m1 m2) as [->|E2|E2]; cbn; try lia; try done.
Qed.

#[export] Instance binary64_order : FloatOrder spec_float (H := binary64.binary64).
Proof.
  constructor; cbn; unfold SFltb, SFeqb.
  - intros x y. destruct (binary64.isnan x) eqn:Nx; [by destruct x|].
    destruct (binary64.isnan y) eqn:Ny; [by destruct x as [[]|[]| |[]], y|].
    pose proof (SFcompare_rank x y Nx Ny) as H1. pose proof (SFcompare_rank y x Ny Nx) as H2. unfold rankLt in *.
    destruct (SFcompare x y) as [[]|]; try done. intros _. destruct (SFcompare y x) as [[]|]; try done. lia.
  - intros x y z Nx Ny Nz. pose proof (SFcompare_rank y x Ny Nx) as H1. pose proof (SFcompare_rank z y Nz Ny) as H2.
    pose proof (SFcompare_rank z x Nz Nx) as H3. unfold rankLt in *.
    destruct (SFcompare y x) as [[]|]; try done; destruct (SFcompare z y) as [[]|]; try done;
      destruct (SFcompare z x) as [[]|]; try done; intros _ _; exfalso; rewrite ?H1, ?H2 in *; rewrite <-?H1, <-?H2 in *; lia.
  - intros x y Nx Ny. pose proof (SFcompare_rank x y Nx Ny) as H1. pose proof (SFcompare_rank y x Ny Nx) as H2.
    unfold rankLt in *. destruct (SFcompare x y) as [[]|]; try done; destruct (SFcompare y x) as [[]|]; try done;
      first [split; [done|by intros [? ?]]|exfalso; rewrite ?H1, ?H2 in *; lia].
Qed.

End scorer.

Import hotness hotinv hotlemmas scorer goheap.
#[local] Existing Instance binary64.binary64.

(** C29. The ranking of the admin view is exact: on a tracker in any reachable state,
    with every score a number, [Snapshots] returns the best [limit] entries (all of
    them for a limit of 0 or less) in the order HOT first, then by score, then by
    key; the heap selection agrees with sorting everything, and Go's iteration order
    does not show. *)
Theorem top_snapshots_exact {F} `{FloatOrder F} (c : Config F) now0 t now order limit :
  MaxTrackedKeys c <= maxInt64 → reachable c now0 t → valid_order t order →
  Forall (λ e, number (snapshot e now)) (ring t) →
  let all := sortSlice snapshotBetter ((λ e, snapshot e now) <$> ring t) in
  Snapshots t now order limit = (if limit <=? 0 then all else take (Z.to_nat limit) all) ∧
  StronglySorted (λ x y, snapshotBetter x y = true) all ∧
  all ≡ₚ ((λ e, snapshot e now) <$> ring t).
Proof.
  intros Hc Hr Hv HN all. pose proof (reachable_wf c now0 t Hc Hr) as W. split_and!.
  - by apply Snapshots_best.
  - apply sorted_strict; [by apply Forall_fmap|by apply ring_keys].
  - apply sortSlice_perm.
Qed.

Lemma top_snapshots_exact_witness :
  (snKey <$> Snapshots demo_tracker (2 * Second) (anyOrder demo_tracker) 1) = ["hot"%string] ∧
  length (ring demo_tracker) = 2%nat.
Proof.
  split; [|vm_compute; reflexivity].
  rewrite (proj1 (top_snapshots_exact demo_config 0 demo_tracker (2 * Second) (anyOrder demo_tracker) 1
    ltac:(vm_compute; congruence) demo_reachable (anyOrder_valid _)
    ltac:(apply numbers_dec; vm_compute; reflexivity))).
  vm_compute. reflexivity.
Defined.
