(* ===== verification/Compatibility.v ===== *)
(** * internal/compatibility: the command contract

    The catalogue of commands with their classes, the lookup by binary search
    ([sort.Search]), and the compatibility report with its gate. *)
From stdpp Require Import prelude strings list.
From Stdlib Require Import ZArith Lia.
From S2P Require Import Prelude GoStd.

Module compatibility.
Import gostd.
Local Open Scope string_scope.

Definition SchemaVersion : string := "slizen.compatibility.v1".

Inductive Status := StatusSupported | StatusPassThrough | StatusRejected | StatusUnsupported.

Inductive Class :=
  | ClassLocal | ClassRead | ClassWrite | ClassPassThrough
  | ClassRejectedMutation | ClassRejectedStateful | ClassRejectedBlocking | ClassUnsupported.

#[global] Instance Status_eq_dec : EqDecision Status.
Proof. solve_decision. Defined.
#[global] Instance Class_eq_dec : EqDecision Class.
Proof. solve_decision. Defined.

Record Entry := mkEntry {
  Command : string;
  eStatus : Status;
  eClass : Class;
  Compatible : bool;
  ArgumentReviewRequired : bool;
  Behavior : string;
  Limitations : string
}.

Definition supported (command : string) (class : Class) (behavior : string) : Entry :=
  let '(status, compatible) :=
    match class with
    | ClassPassThrough => (StatusPassThrough, true)
    | ClassRejectedMutation | ClassRejectedStateful | ClassRejectedBlocking => (StatusRejected, false)
    | ClassUnsupported => (StatusUnsupported, false)
    | _ => (StatusSupported, true)
    end in
  mkEntry command status class compatible false behavior EmptyString.

Definition supportedWithLimitations (command : string) (class : Class) (behavior limitation : string) : Entry :=
  let e := supported command class behavior in
  mkEntry (Command e) (eStatus e) (eClass e) (Compatible e) true (Behavior e) limitation.

Definition commandCatalog : list Entry :=
  [supported "BLMOVE" ClassRejectedBlocking
     "Rejected before upstream dispatch because blocking commands are outside the v0.2 connection model.";
   supported "BLPOP" ClassRejectedBlocking
     "Rejected before upstream dispatch because blocking commands are outside the v0.2 connection model.";
   supported "BRPOP" ClassRejectedBlocking
     "Rejected before upstream dispatch because blocking commands are outside the v0.2 connection model.";
   supported "BRPOPLPUSH" ClassRejectedBlocking
     "Rejected before upstream dispatch because blocking commands are outside the v0.2 connection model.";
   supported "BZPOPMAX" ClassRejectedBlocking
     "Rejected before upstream dispatch because blocking commands are outside the v0.2 connection model.";
   supported "BZPOPMIN" ClassRejectedBlocking
     "Rejected before upstream dispatch because blocking commands are outside the v0.2 connection model.";
   supported "DEL" ClassWrite
     "Affected local entries are invalidated before upstream dispatch and remain invalidated if the upstream returns an error or the outcome is ambiguous.";
   supported "EXEC" ClassRejectedStateful
     "Rejected before upstream dispatch because transactions are stateful and unsupported.";
   supported "EXISTS" ClassPassThrough
     "Forwarded to the upstream without local cache behavior.";
   supportedWithLimitations "EXPIRE" ClassWrite
     "The affected local entry is invalidated before upstream dispatch and remains invalidated if the upstream returns an error or the outcome is ambiguous."
     "Only EXPIRE key seconds is accepted; NX, XX, GT, and LT options are unsupported.";
   supported "GET" ClassRead
     "Cache-aware in cache mode and always forwarded in observe mode.";
   supported "HDEL" ClassRejectedMutation
     "Rejected before upstream dispatch because hash mutations are outside the v0.2 invalidation contract.";
   supported "HSET" ClassRejectedMutation
     "Rejected before upstream dispatch because hash mutations are outside the v0.2 invalidation contract.";
   supported "LPOP" ClassRejectedMutation
     "Rejected before upstream dispatch because list mutations are outside the v0.2 invalidation contract.";
   supported "LPUSH" ClassRejectedMutation
     "Rejected before upstream dispatch because list mutations are outside the v0.2 invalidation contract.";
   supported "MGET" ClassRead
     "Ordered multi-key cache-aware read in cache mode and upstream read in observe mode.";
   supported "MONITOR" ClassRejectedStateful
     "Rejected before upstream dispatch because monitoring mode is connection-stateful.";
   supported "MSET" ClassRejectedMutation
     "Rejected before upstream dispatch because multi-key writes are outside the v0.2 invalidation contract.";
   supported "MULTI" ClassRejectedStateful
     "Rejected before upstream dispatch because transactions are stateful and unsupported.";
   supported "PERSIST" ClassWrite
     "The affected local entry is invalidated before upstream dispatch and remains invalidated if the upstream returns an error or the outcome is ambiguous.";
   supportedWithLimitations "PEXPIRE" ClassWrite
     "The affected local entry is invalidated before upstream dispatch and remains invalidated if the upstream returns an error or the outcome is ambiguous."
     "Only PEXPIRE key milliseconds is accepted; NX, XX, GT, and LT options are unsupported.";
   supported "PING" ClassLocal
     "Handled locally and returns PONG or the provided payload.";
   supported "PSETEX" ClassWrite
     "The affected local entry is invalidated before upstream dispatch and remains invalidated if the upstream returns an error or the outcome is ambiguous.";
   supported "PSUBSCRIBE" ClassRejectedStateful
     "Rejected before upstream dispatch because Pub/Sub is connection-stateful and unsupported.";
   supported "PTTL" ClassPassThrough
     "Forwarded to the upstream without local cache behavior.";
   supported "QUIT" ClassLocal
     "Returns OK, stops dispatching the current pipeline, and closes the client connection.";
   supported "RENAME" ClassRejectedMutation
     "Rejected before upstream dispatch until source and destination invalidation are supported.";
   supported "RPOP" ClassRejectedMutation
     "Rejected before upstream dispatch because list mutations are outside the v0.2 invalidation contract.";
   supported "RPUSH" ClassRejectedMutation
     "Rejected before upstream dispatch because list mutations are outside the v0.2 invalidation contract.";
   supported "SADD" ClassRejectedMutation
     "Rejected before upstream dispatch because set mutations are outside the v0.2 invalidation contract.";
   supportedWithLimitations "SELECT" ClassLocal
     "SELECT 0 is accepted as a local no-op."
     "Databases other than 0 are rejected.";
   supportedWithLimitations "SET" ClassWrite
     "The key is invalidated before upstream dispatch and remains invalidated if the upstream returns an error or the outcome is ambiguous. After an exact option-free SET succeeds, eligible cache-policy state may be refreshed locally."
     "SET GET is rejected; only an exact option-free SET can refresh an already admitted cache-policy key.";
   supported "SETEX" ClassWrite
     "The affected local entry is invalidated before upstream dispatch and remains invalidated if the upstream returns an error or the outcome is ambiguous.";
   supported "SREM" ClassRejectedMutation
     "Rejected before upstream dispatch because set mutations are outside the v0.2 invalidation contract.";
   supported "SSUBSCRIBE" ClassRejectedStateful
     "Rejected before upstream dispatch because Pub/Sub is connection-stateful and unsupported.";
   supported "SUBSCRIBE" ClassRejectedStateful
     "Rejected before upstream dispatch because Pub/Sub is connection-stateful and unsupported.";
   supported "TTL" ClassPassThrough
     "Forwarded to the upstream without local cache behavior.";
   supported "UNLINK" ClassWrite
     "Affected local entries are invalidated before upstream dispatch and remain invalidated if the upstream returns an error or the outcome is ambiguous.";
   supported "UNWATCH" ClassRejectedStateful
     "Rejected before upstream dispatch because transactions are stateful and unsupported.";
   supported "WATCH" ClassRejectedStateful
     "Rejected before upstream dispatch because transactions are stateful and unsupported.";
   supported "XREAD" ClassRejectedBlocking
     "Rejected before upstream dispatch because stream reads may block and are outside the v0.2 connection model.";
   supported "XREADGROUP" ClassRejectedBlocking
     "Rejected before upstream dispatch because stream reads may block and are outside the v0.2 connection model."].

Definition Catalog : list Entry := commandCatalog.

(** [sort.Search n f]: the smallest index from which [f] is true. The interval
    [i, j) shrinks in every round, so [n] rounds are enough. *)
Fixpoint searchLoop (fuel : nat) (f : nat → bool) (i j : nat) : nat :=
  match fuel with
  | O => i
  | S fuel' =>
      if (i <? j)%nat then
        let h := ((i + j) / 2)%nat in
        if negb (f h) then searchLoop fuel' f (S h) j else searchLoop fuel' f i h
      else i
  end.

Definition Search (n : nat) (f : nat → bool) : nat := searchLoop n f 0 n.

(** [s >= t] on strings. *)
Definition geString (s t : string) : bool := negb (String.ltb s t).

Definition unsupportedEntry (command : string) : Entry :=
  mkEntry command StatusUnsupported ClassUnsupported false false
    "Unsupported because it is not part of the v0.2 command contract." EmptyString.

Definition LookupNormalized (command : string) : Entry :=
  let index := Search (length commandCatalog) (λ i,
    match commandCatalog !! i with Some e => geString (Command e) command | None => true end) in
  match commandCatalog !! index with
  | Some e => if bool_decide (Command e = command) then e else unsupportedEntry command
  | None => unsupportedEntry command
  end.

Definition Lookup (command : string) : Entry := LookupNormalized (ToUpper (TrimSpace command)).

(** ** The report *)

Record Report := mkReport {
  Schema : string;
  BinaryVersion : string;
  BinaryCommit : string;
  Scope : string;
  UnknownCommandStatus : Status;
  GateApplied : bool;
  rCompatible : option bool;
  rArgumentReviewRequired : option bool;
  LimitationsAccepted : bool;
  ArgumentReviewCommands : list string;
  Commands : list Entry
}.

(** The loop over the selected commands, with its variables. *)
Fixpoint reportLoop (accept : bool) (commands : list string) (compatible review : bool)
    (reviewCommands : list string) (entries : list Entry) : bool * bool * list string * list Entry :=
  match commands with
  | [] => (compatible, review, reviewCommands, entries)
  | command :: commands' =>
      let entry := Lookup command in
      let entries := entries ++ [entry] in
      let compatible := if negb (Compatible entry) then false else compatible in
      if ArgumentReviewRequired entry then
        reportLoop accept commands' (if negb accept then false else compatible) true
          (reviewCommands ++ [Command entry]) entries
      else reportLoop accept commands' compatible review reviewCommands entries
  end%list.

Definition BuildReportWithOptions (binaryVersion binaryCommit : string) (commands : list string)
    (acceptLimitations : bool) : Report :=
  if bool_decide (commands = []) then
    mkReport SchemaVersion binaryVersion binaryCommit "catalog" StatusUnsupported false None None
      acceptLimitations [] Catalog
  else
    let '(compatible, review, reviewCommands, entries) := reportLoop acceptLimitations commands true false [] [] in
    mkReport SchemaVersion binaryVersion binaryCommit "selection" StatusUnsupported true (Some compatible)
      (Some review) acceptLimitations reviewCommands entries.

Definition BuildReport (binaryVersion binaryCommit : string) (commands : list string) : Report :=
  BuildReportWithOptions binaryVersion binaryCommit commands false.

Definition IncompatibleCommands (r : Report) : list string :=
  Command <$> filter (λ e, Compatible e = false) (Commands r).

Definition UnacceptedArgumentReviewCommands (r : Report) : list string :=
  if LimitationsAccepted r then [] else ArgumentReviewCommands r.

(** ** Binary search *)

Lemma searchLoop_spec fuel f i j n :
  i <= j <= n → j - i <= fuel →
  (∀ a b, a <= b → b < n → f a = true → f b = true) →
  (∀ a, a < i → f a = false) → (∀ a, j <= a < n → f a = true) →
  let r := searchLoop fuel f i j in
  r <= n ∧ (∀ a, a < r → f a = false) ∧ (∀ a, r <= a < n → f a = true).
Proof.
  revert i j. induction fuel as [|fuel IH]; intros i j Hij Hfu Hmono Hlo Hhi; cbn [searchLoop]; cbv zeta.
  { split_and!; [lia|done|]. intros a Ha. apply Hhi. lia. }
  destruct (i <? j)%nat eqn:E; [apply Nat.ltb_lt in E|apply Nat.ltb_ge in E].
  2:{ split_and!; [lia|done|]. intros a Ha. apply Hhi. lia. }
  assert (Hh : i <= (i + j) / 2 < j).
  { split; [apply Nat.div_le_lower_bound; lia|apply Nat.Div0.div_lt_upper_bound; lia]. }
  destruct (f ((i + j) / 2)) eqn:Ef; cbn [negb]; apply IH; try done; try lia.
  - intros a Ha. apply (Hmono ((i + j) / 2)); [lia|lia|done].
  - intros a Ha. destruct (f a) eqn:Ea; [|done].
    rewrite (Hmono a ((i + j) / 2)) in Ef; [done|lia|lia|done].
Qed.

(** The answer separates the false positions from the true ones. *)
Lemma Search_spec n f :
  (∀ a b, a <= b → b < n → f a = true → f b = true) →
  Search n f <= n ∧ (∀ a, a < Search n f → f a = false) ∧ (∀ a, Search n f <= a < n → f a = true).
Proof. intros Hm. apply searchLoop_spec; [lia|lia|done|lia|lia]. Qed.

(** ** The order of the catalogue *)

Lemma ltb_ge_trans s t r : String.ltb s t = true → geString s r = true → String.ltb t r = false.
Proof.
  unfold geString. intros Hst Hsr. destruct (String.ltb t r) eqn:E; [|done].
  by rewrite (ltb_trans s t r Hst E) in Hsr.
Qed.

(** Strictly ascending, entry by entry. *)
Fixpoint ascending (l : list string) : bool :=
  match l with
  | s :: (t :: _) as l' => String.ltb s t && ascending l'
  | _ => true
  end.

Lemma ascending_lookup l a b s t :
  ascending l = true → a < b → l !! a = Some s → l !! b = Some t → String.ltb s t = true.
Proof.
  revert a b s. induction l as [|x l IH]; intros a b s Hasc Hab Ha Hb; [done|].
  destruct b as [|b]; [lia|]. simpl in Hb. destruct l as [|y l]; [done|].
  assert (Hxy : String.ltb x y = true ∧ ascending (y :: l) = true) by (by apply andb_prop).
  destruct Hxy as [Hxy Hasc']. destruct a as [|a]; simpl in Ha; [simplify_eq|apply (IH a b); auto with lia].
  destruct b as [|b]; simpl in Hb; [by simplify_eq|].
  eapply ltb_trans; [exact Hxy|]. apply (IH 0 (S b)); auto with lia.
Qed.

Lemma catalog_ascending : ascending (Command <$> commandCatalog) = true.
Proof. vm_compute. reflexivity. Qed.

Lemma catalog_lt a b e1 e2 :
  a < b → commandCatalog !! a = Some e1 → commandCatalog !! b = Some e2 →
  String.ltb (Command e1) (Command e2) = true.
Proof.
  intros Hab H1 H2. eapply ascending_lookup; [apply catalog_ascending|exact Hab|..];
    rewrite list_lookup_fmap; [by rewrite H1|by rewrite H2].
Qed.

Lemma catalog_index a b e1 e2 :
  commandCatalog !! a = Some e1 → commandCatalog !! b = Some e2 → Command e1 = Command e2 → a = b.
Proof.
  intros H1 H2 He. destruct (Nat.lt_trichotomy a b) as [Hlt|[?|Hlt]]; [|done|].
  - pose proof (catalog_lt a b e1 e2 Hlt H1 H2) as Hl. by rewrite He, ltb_irrefl in Hl.
  - pose proof (catalog_lt b a e2 e1 Hlt H2 H1) as Hl. by rewrite He, ltb_irrefl in Hl.
Qed.

(** Where the search stops: everything before is smaller, everything after is not. *)
Lemma catalog_search command :
  let f := λ i, match commandCatalog !! i with Some e => geString (Command e) command | None => true end in
  let r := Search (length commandCatalog) f in
  (∀ a, a < r → f a = false) ∧ (∀ a, r <= a < length commandCatalog → f a = true).
Proof.
  intros f r. destruct (Search_spec (length commandCatalog) f) as (_ & H1 & H2); [|done].
  intros a b Hab Hb. unfold f. destruct (decide (a = b)) as [->|Hne]; [done|].
  destruct (commandCatalog !! b) as [e2|] eqn:E2; [|done].
  destruct (commandCatalog !! a) as [e1|] eqn:E1; [|apply lookup_ge_None in E1; lia].
  intros Hge. unfold geString. rewrite (ltb_ge_trans (Command e1)); [done| |done].
  eapply catalog_lt; [|done..]. lia.
Qed.

Lemma lookup_found e : e ∈ commandCatalog → LookupNormalized (Command e) = e.
Proof.
  intros [i Hi]%list_elem_of_lookup. unfold LookupNormalized.
  destruct (catalog_search (Command e)) as [Hlo Hhi]. set (r := Search _ _) in *.
  assert (Hr : r = i).
  { destruct (Nat.lt_trichotomy r i) as [Hlt|[?|Hlt]]; [|done|].
    - assert (Hri : r < length commandCatalog) by (apply lookup_lt_Some in Hi; lia).
      apply lookup_lt_is_Some_2 in Hri as [e' He']. specialize (Hhi r). rewrite He' in Hhi. unfold geString in Hhi.
      rewrite (catalog_lt r i e' e) in Hhi by done. apply lookup_lt_Some in He'. ospecialize (Hhi _); [lia|done].
    - specialize (Hlo i Hlt). rewrite Hi in Hlo. unfold geString in Hlo. by rewrite ltb_irrefl in Hlo. }
  rewrite Hr, Hi. by rewrite bool_decide_true.
Qed.

Lemma lookup_unknown command :
  (∀ e, e ∈ commandCatalog → Command e ≠ command) → LookupNormalized command = unsupportedEntry command.
Proof.
  intros Hn. unfold LookupNormalized. destruct (commandCatalog !! _) as [e|] eqn:E; [|done].
  rewrite bool_decide_false; [done|]. apply Hn. by eapply list_elem_of_lookup_2.
Qed.

Lemma selected_none {A B C} (f : A → B) (g : B → C) (P : B → Prop) `{∀ x, Decision (P x)} (l : list A) :
  g <$> filter P (f <$> l) = [] ↔ ∀ x, x ∈ l → ¬ P (f x).
Proof.
  induction l as [|x l IH]; [split; [by intros _ ? ?%elem_of_nil|done]|]. rewrite fmap_cons, filter_cons.
  setoid_rewrite elem_of_cons. case_decide; naive_solver.
Qed.

(** What a report accumulates. *)
Lemma reportLoop_spec accept commands c r rc es c' r' rc' es' :
  reportLoop accept commands c r rc es = (c', r', rc', es') →
  es' = (es ++ (Lookup <$> commands))%list ∧
  rc' = (rc ++ (Command <$> filter (λ e, ArgumentReviewRequired e = true) (Lookup <$> commands)))%list ∧
  (r' = true ↔ r = true ∨ ∃ x, x ∈ commands ∧ ArgumentReviewRequired (Lookup x) = true) ∧
  (c' = true ↔ c = true ∧ ∀ x, x ∈ commands →
     Compatible (Lookup x) = true ∧ (ArgumentReviewRequired (Lookup x) = true → accept = true)).
Proof.
  revert c r rc es. induction commands as [|x commands IH]; intros c r rc es.
  { simpl. intros [= <- <- <- <-]. rewrite !app_nil_r. split_and!; [done..| |].
    - split; [tauto|]. intros [?|(? & []%elem_of_nil & _)]; done.
    - split; [|tauto]. intros ->. split; [done|]. by intros ? ?%elem_of_nil. }
  cbn [reportLoop]. rewrite !fmap_cons.
  assert (Hcons : ∀ (P : string → Prop), (∀ y, y ∈ x :: commands → P y) ↔ P x ∧ ∀ y, y ∈ commands → P y).
  { intros P. setoid_rewrite elem_of_cons. naive_solver. }
  assert (Hex : ∀ (P : string → Prop), (∃ y, y ∈ x :: commands ∧ P y) ↔ P x ∨ ∃ y, y ∈ commands ∧ P y).
  { intros P. setoid_rewrite elem_of_cons. naive_solver. }
  rewrite Hcons, Hex. destruct (ArgumentReviewRequired (Lookup x)) eqn:Er; intros Hl;
    apply IH in Hl as (-> & -> & Hr & Hc).
  - rewrite filter_cons_True by done. rewrite fmap_cons, <-!app_assoc. split_and!; [done..|tauto|].
    rewrite Hc. clear. destruct accept, (Compatible (Lookup x)), c; intuition congruence.
  - rewrite filter_cons_False by congruence. rewrite <-!app_assoc. split_and!; [done..|rewrite Hr; clear; intuition congruence|].
    rewrite Hc. clear. destruct (Compatible (Lookup x)), c; intuition congruence.
Qed.

End compatibility.

Import compatibility.

(** The command contract is looked up exactly: the binary search finds the entry
    of every catalogued command, and answers "unsupported", not compatible, for every
    other name. *)
Theorem lookup_exact command :
  (∀ e, e ∈ commandCatalog → Command e = command → LookupNormalized command = e) ∧
  ((∀ e, e ∈ commandCatalog → Command e ≠ command) → LookupNormalized command = unsupportedEntry command).
Proof. split; [intros e He <-; by apply lookup_found|apply lookup_unknown]. Qed.

(** The gate of a compatibility report over a selection of commands passes
    exactly when every selected command is compatible and every one that needs an
    argument review has its limitations accepted; the report lists one entry per
    selected command in order, and the commands that need a review. *)
Theorem report_gate_exact version commit commands accept :
  commands ≠ [] →
  let r := BuildReportWithOptions version commit commands accept in
  Commands r = Lookup <$> commands ∧
  (rCompatible r = Some true ↔
     IncompatibleCommands r = [] ∧ UnacceptedArgumentReviewCommands r = []) ∧
  (rArgumentReviewRequired r = Some true ↔ ArgumentReviewCommands r ≠ []).
Proof.
  intros Hne r. subst r. unfold BuildReportWithOptions. rewrite bool_decide_false by done.
  destruct (reportLoop accept commands true false [] []) as [[[c rv] rc] es] eqn:E.
  apply reportLoop_spec in E as (-> & -> & Hr & Hc). rewrite !app_nil_l.
  unfold IncompatibleCommands, UnacceptedArgumentReviewCommands. simpl.
  rewrite (selected_none Lookup Command (λ e, Compatible e = false)).
  pose proof (selected_none Lookup Command (λ e, ArgumentReviewRequired e = true) commands) as Hrev.
  split_and!; [done| |].
  - trans (c = true); [naive_solver|]. rewrite Hc.
    assert (Hcomp : ∀ x, Compatible (Lookup x) ≠ false ↔ Compatible (Lookup x) = true).
    { intros x. by destruct (Compatible (Lookup x)). }
    setoid_rewrite Hcomp. destruct accept; [naive_solver|]. rewrite Hrev. naive_solver.
  - trans (rv = true); [naive_solver|]. rewrite Hr, Hrev. split; [naive_solver|]. intros Hn. right.
    destruct (decide (Exists (λ x, ArgumentReviewRequired (Lookup x) = true) commands)) as [Hx|Hx].
    + by apply Exists_exists in Hx.
    + destruct Hn. intros x Hin Ha. apply Hx, Exists_exists. eauto.
Qed.

Lemma report_gate_exact_witness :
  rCompatible (BuildReportWithOptions "v" "c" ["get"; "SET"] true) = Some true.
Proof.
  destruct (report_gate_exact "v" "c" ["get"; "SET"]%string true) as (_ & H & _); [done|].
  apply H. vm_compute. split; reflexivity.
Defined.
