(* ===== verification/CachePolicy.v ===== *)
(** * internal/cachepolicy: the policy matcher

    [cachepolicy.Matcher] is built from a fallback decision and a list of prefix
    rules; [Match] tries the distinct prefix lengths from the longest to the
    shortest and looks each prefix of the key up in a map. The theorem states it
    against the plain reading of a longest-prefix table. *)
From stdpp Require Import prelude gmap strings list sorting.
From Stdlib Require Import ZArith Lia.
From S2P Require Import Prelude.
Local Open Scope Z_scope.

Module cachepolicy.

Inductive Mode := ModeDeny | ModeObserve | ModeCache.

#[global] Instance Mode_eq_dec : EqDecision Mode.
Proof. solve_decision. Defined.

(** The order of [sort.Reverse(sort.IntSlice(lengths))]. *)
Definition descending (x y : nat) : Prop := (y <= x)%nat.

#[export] Instance descending_dec : RelDecision descending.
Proof. intros x y. unfold descending. apply _. Defined.

#[export] Instance descending_total : Total descending.
Proof. intros x y. unfold descending. lia. Qed.

#[export] Instance descending_trans : Transitive descending.
Proof. intros x y z. unfold descending. lia. Qed.

(** The second result tells whether the text names a mode. *)
Definition ParseMode (v : string) : Mode * bool :=
  if bool_decide (v = "deny"%string) then (ModeDeny, true)
  else if bool_decide (v = "observe"%string) then (ModeObserve, true)
  else if bool_decide (v = "cache"%string) then (ModeCache, true)
  else (ModeDeny, false).

Record Decision := mkDecision {
  dMode : Mode;
  dMaxItemBytes : Z;
  dMaxLocalTTL : Duration
}.

Record Rule := mkRule { rPrefix : string; rDecision : Decision }.

Record Matcher := mkMatcher {
  fallback : Decision;
  rules : gmap string Decision;
  lengths : list nat
}.

(** The loop of [New] over the rules: a later rule overwrites an earlier one with
    the same prefix, and each length is recorded once. The map of seen lengths is
    the list of lengths itself. *)
Definition addRule (acc : gmap string Decision * list nat) (r : Rule) : gmap string Decision * list nat :=
  let '(byPrefix, lens) := acc in
  let n := String.length (rPrefix r) in
  (<[rPrefix r := rDecision r]> byPrefix, if decide (n ∈ lens) then lens else lens ++ [n]).

Definition New (fb : Decision) (rs : list Rule) : Matcher :=
  let '(byPrefix, lens) := fold_left addRule rs (∅, []) in
  mkMatcher fb byPrefix (merge_sort descending lens).

(** The loop of [Match] over the lengths. *)
Fixpoint matchLoop (rs : gmap string Decision) (fb : Decision) (lens : list nat) (key : string) : Decision :=
  match lens with
  | [] => fb
  | n :: lens' =>
      if (String.length key <? n)%nat then matchLoop rs fb lens' key
      else match rs !! String.substring 0 n key with
           | Some d => d
           | None => matchLoop rs fb lens' key
           end
  end.

Definition Match (m : Matcher) (key : string) : Decision :=
  matchLoop (rules m) (fallback m) (lengths m) key.

(** ** Strings and prefixes *)

Lemma substring_prefix n (s : string) :
  (n <= String.length s)%nat →
  String.prefix (String.substring 0 n s) s = true ∧ String.length (String.substring 0 n s) = n.
Proof.
  revert n. induction s as [|a s IH]; intros n Hn; simpl in Hn.
  - by replace n with 0%nat by lia.
  - destruct n as [|n]; [done|]. simpl. destruct (IH n) as [H1 H2]; [lia|].
    destruct (Ascii.ascii_dec a a); [|done]. by rewrite H1, H2.
Qed.

Lemma prefix_substring (p s : string) :
  String.prefix p s = true → String.substring 0 (String.length p) s = p ∧ (String.length p <= String.length s)%nat.
Proof.
  revert s. induction p as [|a p IH]; intros s Hp.
  - split; [by destruct s|simpl; lia].
  - destruct s as [|b s]; [done|]. simpl in *. destruct (Ascii.ascii_dec a b) as [->|]; [|done].
    destruct (IH s Hp) as [-> ?]. split; [done|lia].
Qed.

(** ** The table that [New] builds *)

(** The rule that counts for a prefix is the last one written for it. *)
Definition ruleFor (rs : list Rule) (p : string) : option Decision :=
  rDecision <$> last (filter (λ r, rPrefix r = p) rs).

Lemma addRules_spec rs m0 l0 :
  let '(m, l) := fold_left addRule rs (m0, l0) in
  (∀ p, m !! p = match ruleFor rs p with Some d => Some d | None => m0 !! p end) ∧
  (∀ n, n ∈ l ↔ n ∈ l0 ∨ ∃ r, r ∈ rs ∧ String.length (rPrefix r) = n).
Proof.
  revert m0 l0. induction rs as [|r rs IH]; intros m0 l0; cbn [fold_left].
  { split; [done|]. intros n. split; [by left|]. intros [?|(r & Hr & _)]; [done|by apply elem_of_nil in Hr]. }
  unfold addRule at 2. specialize (IH (<[rPrefix r := rDecision r]> m0)
    (if decide (String.length (rPrefix r) ∈ l0) then l0 else l0 ++ [String.length (rPrefix r)])).
  destruct (fold_left addRule rs _) as [m l]. destruct IH as [Hm Hl]. split.
  - intros p. rewrite Hm. unfold ruleFor. rewrite filter_cons.
    destruct (decide (rPrefix r = p)) as [<-|Hne].
    + rewrite last_cons. destruct (last (filter _ rs)); simpl; [done|]. by rewrite lookup_insert_eq.
    + destruct (last (filter _ rs)); simpl; [done|]. by rewrite lookup_insert_ne.
  - intros n. rewrite Hl. setoid_rewrite elem_of_cons. case_decide.
    + naive_solver.
    + rewrite elem_of_app, list_elem_of_singleton. naive_solver.
Qed.

(** A prefix that has a rule has its length in the table. *)
Lemma ruleFor_length rs p d : ruleFor rs p = Some d → ∃ r, r ∈ rs ∧ String.length (rPrefix r) = String.length p.
Proof.
  unfold ruleFor. destruct (last (filter _ rs)) as [r|] eqn:E; [|done]. intros _.
  apply last_Some_elem_of, list_elem_of_filter in E as [<- Hr]. eauto.
Qed.

(** ** The specification *)

(** [p] is the longest prefix of [key] that has a rule. *)
Definition longestRule (rs : list Rule) (key p : string) : Prop :=
  String.prefix p key = true ∧ is_Some (ruleFor rs p) ∧
  ∀ q, String.prefix q key = true → is_Some (ruleFor rs q) → (String.length q <= String.length p)%nat.

Lemma matchLoop_spec (m : gmap string Decision) fb lens key :
  Sorted descending lens →
  (∃ p d, matchLoop m fb lens key = d ∧ m !! p = Some d ∧ String.prefix p key = true ∧
     ∀ q, String.prefix q key = true → is_Some (m !! q) → String.length q ∈ lens →
       (String.length q <= String.length p)%nat) ∨
  (matchLoop m fb lens key = fb ∧
     ∀ q, String.prefix q key = true → is_Some (m !! q) → String.length q ∉ lens).
Proof.
  intros Hs. apply (Sorted_StronglySorted _) in Hs. induction Hs as [|n lens Hs IH Hn]; simpl.
  { right. split; [done|]. intros. by apply not_elem_of_nil. }
  assert (Hskip : (∀ q, String.prefix q key = true → is_Some (m !! q) → String.length q ≠ n) →
    (∃ p d, matchLoop m fb lens key = d ∧ m !! p = Some d ∧ String.prefix p key = true ∧
     ∀ q, String.prefix q key = true → is_Some (m !! q) → String.length q ∈ n :: lens →
       (String.length q <= String.length p)%nat) ∨
    (matchLoop m fb lens key = fb ∧
     ∀ q, String.prefix q key = true → is_Some (m !! q) → String.length q ∉ n :: lens)).
  { intros Hne. setoid_rewrite elem_of_cons. destruct IH as [(p & d & ? & ? & ? & IH)|[? IH]].
    - left. exists p, d. split_and!; try done. intros q Hq1 Hq2 [?|?]; [by destruct (Hne q)|by apply IH].
    - right. split; [done|]. intros q Hq1 Hq2 [?|?]; [by destruct (Hne q)|by eapply IH]. }
  destruct (String.length key <? n)%nat eqn:Hlen.
  { apply Hskip. intros q Hq _ <-. apply prefix_substring in Hq as [_ Hq].
    apply Nat.ltb_lt in Hlen. lia. }
  apply Nat.ltb_ge in Hlen. destruct (substring_prefix n key Hlen) as [Hp Hpn].
  destruct (m !! String.substring 0 n key) as [d|] eqn:Hd.
  - left. exists (String.substring 0 n key), d. split_and!; try done. rewrite Hpn.
    intros q _ _ [->|Hq]%elem_of_cons; [done|]. rewrite Forall_forall in Hn. by apply Hn in Hq.
  - apply Hskip. intros q Hq [d Hd'] Hqn. apply prefix_substring in Hq as [Hq _].
    rewrite Hqn in Hq. congruence.
Qed.

(** Every answer is the fallback or the decision of a rule. *)
Lemma Match_source fb rs key :
  Match (New fb rs) key = fb ∨ ∃ r, r ∈ rs ∧ Match (New fb rs) key = rDecision r.
Proof.
  unfold New. pose proof (addRules_spec rs ∅ []) as Hsp.
  destruct (fold_left addRule rs (∅, [])) as [m l]. destruct Hsp as [Hm _].
  destruct (matchLoop_spec m fb (merge_sort descending l) key (Sorted_merge_sort descending l))
    as [(p & d & He & Hd & _)|[He _]]; unfold Match; simpl; rewrite He; [right|by left].
  rewrite Hm, lookup_empty in Hd. unfold ruleFor in Hd.
  destruct (last (filter _ rs)) as [r|] eqn:E; simplify_eq/=.
  apply last_Some_elem_of, list_elem_of_filter in E as [_ Hr]. eauto.
Qed.

End cachepolicy.

(** ** What the matcher decides *)
Import cachepolicy.

(** C25. The matcher answers with the decision of the longest configured prefix of
    the key (the last rule wins when a prefix is configured twice) and with the
    fallback exactly when no configured prefix matches. *)
Theorem match_longest_prefix fb rs key :
  (∃ p d, longestRule rs key p ∧ ruleFor rs p = Some d ∧ Match (New fb rs) key = d) ∨
  ((∀ p, String.prefix p key = true → ruleFor rs p = None) ∧ Match (New fb rs) key = fb).
Proof.
  unfold New. pose proof (addRules_spec rs ∅ []) as Hsp.
  destruct (fold_left addRule rs (∅, [])) as [m l]. destruct Hsp as [Hm Hl].
  assert (Hm' : ∀ p, m !! p = ruleFor rs p).
  { intros p. rewrite Hm, lookup_empty. by destruct (ruleFor rs p). }
  assert (Hlen : ∀ q, is_Some (m !! q) → String.length q ∈ merge_sort descending l).
  { intros q [d Hd]. rewrite Hm' in Hd. rewrite merge_sort_Permutation.
    apply Hl. right. by eapply ruleFor_length. }
  pose proof (Sorted_merge_sort descending l) as Hs.
  unfold Match. simpl. destruct (matchLoop_spec m fb _ key Hs) as [(p & d & He & Hd & Hp & Hmax)|[He Hno]].
  - left. exists p, d. rewrite <-Hm'. split_and!; try done. split_and!; [done|by rewrite <-Hm'; eexists|].
    intros q Hq Hr. rewrite <-Hm' in Hr. apply Hmax; auto.
  - right. split; [|done]. intros p Hp. rewrite <-Hm'. destruct (m !! p) eqn:E; [|done].
    destruct (Hno p Hp); [eauto|]. apply Hlen. eauto.
Qed.
