(* ===== verification/Config.v ===== *)
(** * internal/config: the configuration and its validation

    The configuration records, the defaults, and [Validate] with the messages it
    joins. Floating-point fields are over the [Float64] interface. *)
From stdpp Require Import prelude gmap strings list pretty.
From Stdlib Require Import ZArith Lia.
From S2P Require Import Prelude Float64 GoStd CachePolicy.
Local Open Scope Z_scope.

Module config.
Import gostd.

Definition maxCachePolicies : Z := 1024.
Definition maxCachePolicyPrefixBytes : Z := 1024.
Definition maxCachePolicyTotalPrefixBytes : Z := 256 * 1024.
Definition maxHotnessTrackedKeys : Z := 100000.
Definition maxProxyCommandBytes : Z := 16 * 1024 * 1024.
Definition maxProxyCommandArgs : Z := 4096.
Definition maxProxyMGetKeys : Z := 2048.
Definition maxProxyConnections : Z := 10000.

Record ProxyConfig := mkProxy {
  proxyListen : string;
  proxyReadTimeout : Duration;
  proxyWriteTimeout : Duration;
  proxyShutdownTimeout : Duration;
  proxyMaxCommandBytes : Z;
  proxyMaxCommandArgs : Z;
  proxyMaxMGetKeys : Z;
  proxyMaxConnections : Z
}.

Record AdminConfig := mkAdmin { adminListen : string; adminExposeRawKeys : bool }.

Record UpstreamConfig := mkUpstream {
  upstreamAddress : string;
  upstreamUsername : string;
  upstreamPassword : string;
  upstreamDatabase : Z;
  upstreamDialTimeout : Duration;
  upstreamReadTimeout : Duration;
  upstreamWriteTimeout : Duration
}.

Record CachePolicyConfig := mkPolicy {
  policyPrefix : string;
  policyMode : string;
  policyMaxItemBytes : Z;
  policyMaxLocalTTL : Duration
}.

Record CacheConfig := mkCacheConfig {
  cacheMaxBytes : Z;
  cacheMaxEntries : Z;
  cacheMaxLocalTTL : Duration;
  cacheAllowStaleOnUpstreamError : bool;
  cacheStaleGrace : Duration;
  cacheNegativeTTL : Duration;
  cachePolicies : list CachePolicyConfig
}.

Record PrivacyConfig := mkPrivacy {
  privacyKeyVisibility : string;
  privacyKeyHashSecret : string;
  privacyKeyHashSalt : string
}.

Record LoggingConfig := mkLogging { loggingLevel : string; loggingFormat : string }.

Section config.
Context {F : Type} `{Float64 F}.

Record HotnessConfig := mkHotness {
  hotnessWindow : Duration;
  hotnessEWMAAlpha : F;
  hotnessPromotionThreshold : F;
  hotnessDemotionThreshold : F;
  hotnessMinimumHotWindows : Z;
  hotnessCooldown : Duration;
  hotnessMaxTrackedKeys : Z
}.

Record Config := mkConfig {
  Mode : string;
  Proxy : ProxyConfig;
  Admin : AdminConfig;
  Upstream : UpstreamConfig;
  Cache : CacheConfig;
  Hotness : HotnessConfig;
  Privacy : PrivacyConfig;
  Logging : LoggingConfig
}.

(** [Default]; the random text of [crypto/rand] is the argument [secret]. *)
Definition Default (secret : string) : Config :=
  {| Mode := "observe";
     Proxy := mkProxy "0.0.0.0:6380" (5 * Minute) (3 * Second) (10 * Second) (1 * 1024 * 1024) 1024 512 1024;
     Admin := mkAdmin "127.0.0.1:9090" false;
     Upstream := mkUpstream "127.0.0.1:6379" EmptyString EmptyString 0 (2 * Second) (2 * Second) (2 * Second);
     Cache := mkCacheConfig (64 * 1024 * 1024) 100000 (30 * Second) false 0 0 [];
     Hotness := mkHotness Second fhalf (fofZ 100) (fofZ 20) 2 (30 * Second) 100000;
     Privacy := mkPrivacy "hash" secret EmptyString;
     Logging := mkLogging "info" "json" |}.

Definition finiteFloat (x : F) : bool := negb (fisnan x) && negb (fisinf x).

(** A check answers the messages it appends to [errs]. *)
Definition unless (ok : bool) (msg : string) : list string := if ok then [] else [msg].

Definition checkAddress (name value : string) : list string :=
  if bool_decide (TrimSpace value = EmptyString) then [(name ++ " address is required")%string]
  else match SplitHostPort value with
       | Some (host, port) =>
           unless (negb (bool_decide (host = EmptyString)) && negb (bool_decide (port = EmptyString)))
             (name ++ " must be host:port")
       | None => [(name ++ " must be host:port")%string]
       end.

Definition positiveDuration (name : string) (d : Duration) : list string :=
  unless (negb (d <=? 0)) (name ++ " must be greater than zero").
Definition nonNegativeDuration (name : string) (d : Duration) : list string :=
  unless (negb (d <? 0)) (name ++ " must be non-negative").

Definition positiveBoundedInt (name : string) (value maximum : Z) : list string :=
  if value <=? 0 then [(name ++ " must be greater than zero")%string]
  else unless (negb (maximum <? value)) (name ++ " must not exceed " ++ Itoa maximum).

(** One iteration of the loop over the policies, with its loop variables. *)
Record policyScan := mkScan { seenPolicyPrefixes : gset string; totalPrefixBytes : Z; scanErrs : list string }.

Definition addPrefixBytes (total prefixBytes : Z) : Z :=
  if total <=? maxCachePolicyTotalPrefixBytes then
    if maxCachePolicyTotalPrefixBytes - total <? prefixBytes then maxCachePolicyTotalPrefixBytes + 1
    else total + prefixBytes
  else total.

Definition checkPolicyMode (c : CacheConfig) (path : string) (p : CachePolicyConfig) : list string :=
  match cachepolicy.ParseMode (policyMode p) with
  | (_, false) => [(path ++ ".mode must be deny, observe, or cache")%string]
  | (cachepolicy.ModeCache, true) =>
      (if policyMaxItemBytes p <=? 0
       then [(path ++ ".max_item_bytes must be greater than zero in cache mode")%string]
       else unless (negb (cacheMaxBytes c <? policyMaxItemBytes p))
              (path ++ ".max_item_bytes must not exceed cache.max_bytes")) ++
      (if policyMaxLocalTTL p <=? 0
       then [(path ++ ".max_local_ttl must be greater than zero in cache mode")%string]
       else unless (negb (cacheMaxLocalTTL c <? policyMaxLocalTTL p))
              (path ++ ".max_local_ttl must not exceed cache.max_local_ttl"))
  | (_, true) =>
      unless ((policyMaxItemBytes p =? 0) && (policyMaxLocalTTL p =? 0))
        (path ++ " cache limits must be omitted outside cache mode")
  end.

Definition checkPolicy (c : CacheConfig) (s : policyScan) (ip : nat * CachePolicyConfig) : policyScan :=
  let '(i, p) := ip in
  let path := ("cache.policies[" ++ Itoa (Z.of_nat i) ++ "]")%string in
  let prefixBytes := slen (policyPrefix p) in
  let dup := bool_decide (policyPrefix p ∈ seenPolicyPrefixes s) in
  {| seenPolicyPrefixes := {[policyPrefix p]} ∪ seenPolicyPrefixes s;
     totalPrefixBytes := addPrefixBytes (totalPrefixBytes s) prefixBytes;
     scanErrs := scanErrs s
       ++ unless (negb (maxCachePolicyPrefixBytes <? prefixBytes))
            (path ++ ".prefix must contain at most " ++ Itoa maxCachePolicyPrefixBytes ++ " bytes")
       ++ unless (negb dup) (path ++ ".prefix duplicates another policy")
       ++ checkPolicyMode c path p |}.

Definition enumerate {A} (l : list A) : list (nat * A) := imap pair l.

Definition checkPolicies (c : CacheConfig) : list string :=
  let over := maxCachePolicies <? Z.of_nat (length (cachePolicies c)) in
  let policies := if over then take (Z.to_nat maxCachePolicies) (cachePolicies c) else cachePolicies c in
  let s := fold_left (checkPolicy c) (enumerate policies) (mkScan ∅ 0 []) in
  unless (negb over) ("cache.policies must contain at most " ++ Itoa maxCachePolicies ++ " entries")
  ++ scanErrs s
  ++ unless (negb (maxCachePolicyTotalPrefixBytes <? totalPrefixBytes s))
       ("cache.policies prefixes must contain at most " ++ Itoa maxCachePolicyTotalPrefixBytes
        ++ " bytes in total").

Definition checkProxyLimits (p : ProxyConfig) : list string :=
  positiveBoundedInt "proxy.max_command_bytes" (proxyMaxCommandBytes p) maxProxyCommandBytes
  ++ positiveBoundedInt "proxy.max_command_args" (proxyMaxCommandArgs p) maxProxyCommandArgs
  ++ positiveBoundedInt "proxy.max_mget_keys" (proxyMaxMGetKeys p) maxProxyMGetKeys
  ++ positiveBoundedInt "proxy.max_connections" (proxyMaxConnections p) maxProxyConnections
  ++ unless (negb ((0 <? proxyMaxCommandArgs p) && (proxyMaxCommandArgs p <=? proxyMaxMGetKeys p)))
       "proxy.max_mget_keys must be less than proxy.max_command_args".

Definition checkHotness (h : HotnessConfig) : list string :=
  let promotionValid := finiteFloat (hotnessPromotionThreshold h) && (hotnessPromotionThreshold h >? f0)%f64 in
  let demotionValid := finiteFloat (hotnessDemotionThreshold h) && (hotnessDemotionThreshold h >? f0)%f64 in
  (if hotnessMaxTrackedKeys h <=? 0 then ["hotness.max_tracked_keys must be greater than zero"%string]
   else unless (negb (maxHotnessTrackedKeys <? hotnessMaxTrackedKeys h))
          ("hotness.max_tracked_keys must not exceed " ++ Itoa maxHotnessTrackedKeys))
  ++ unless (negb (negb (finiteFloat (hotnessEWMAAlpha h)) || (hotnessEWMAAlpha h <=? f0)%f64
                   || (hotnessEWMAAlpha h >? f1)%f64))
       "hotness.ewma_alpha must be greater than 0 and at most 1"
  ++ unless promotionValid "hotness.promotion_threshold must be finite and greater than zero"
  ++ unless demotionValid "hotness.demotion_threshold must be finite and greater than zero"
  ++ unless (negb (promotionValid && demotionValid
                   && (hotnessPromotionThreshold h <=? hotnessDemotionThreshold h)%f64))
       "hotness.promotion_threshold must be greater than demotion_threshold"
  ++ unless (negb (hotnessMinimumHotWindows h <=? 0)) "hotness.minimum_hot_windows must be greater than zero".

Definition checkPrivacyLogging (p : PrivacyConfig) (l : LoggingConfig) : list string :=
  unless (bool_decide (privacyKeyVisibility p ∈ ["hash"; "plain"]%string))
    "privacy.key_visibility must be hash or plain"
  ++ unless (negb (bool_decide (privacyKeyVisibility p = "hash"%string)
                   && bool_decide (TrimSpace (privacyKeyHashSecret p) = EmptyString)))
       "privacy.key_hash_secret is required when key_visibility is hash"
  ++ unless (bool_decide (loggingLevel l ∈ ["debug"; "info"; "warn"; "error"]%string))
       "logging.level must be debug, info, warn, or error"
  ++ unless (bool_decide (loggingFormat l ∈ ["json"; "text"]%string)) "logging.format must be json or text".

(** [Validate]: the messages in the order they are appended; [errors.Join] of
    none of them is the nil error. *)
Definition Validate (cfg : Config) : list string :=
  checkAddress "proxy.listen" (proxyListen (Proxy cfg))
  ++ checkAddress "admin.listen" (adminListen (Admin cfg))
  ++ checkAddress "upstream.address" (upstreamAddress (Upstream cfg))
  ++ unless (bool_decide (Mode cfg ∈ ["cache"; "observe"]%string)) "mode must be cache or observe"
  ++ positiveDuration "proxy.read_timeout" (proxyReadTimeout (Proxy cfg))
  ++ positiveDuration "proxy.write_timeout" (proxyWriteTimeout (Proxy cfg))
  ++ positiveDuration "proxy.shutdown_timeout" (proxyShutdownTimeout (Proxy cfg))
  ++ positiveDuration "upstream.dial_timeout" (upstreamDialTimeout (Upstream cfg))
  ++ positiveDuration "upstream.read_timeout" (upstreamReadTimeout (Upstream cfg))
  ++ positiveDuration "upstream.write_timeout" (upstreamWriteTimeout (Upstream cfg))
  ++ positiveDuration "cache.max_local_ttl" (cacheMaxLocalTTL (Cache cfg))
  ++ nonNegativeDuration "cache.stale_grace" (cacheStaleGrace (Cache cfg))
  ++ positiveDuration "hotness.window" (hotnessWindow (Hotness cfg))
  ++ positiveDuration "hotness.cooldown" (hotnessCooldown (Hotness cfg))
  ++ checkProxyLimits (Proxy cfg)
  ++ unless (upstreamDatabase (Upstream cfg) =? 0) "upstream.database must be 0"
  ++ unless (negb (cacheMaxBytes (Cache cfg) <=? 0)) "cache.max_bytes must be greater than zero"
  ++ unless (negb (cacheMaxEntries (Cache cfg) <? 0)) "cache.max_entries must be non-negative"
  ++ unless (cacheNegativeTTL (Cache cfg) =? 0) "cache.negative_ttl is reserved and must be zero"
  ++ checkPolicies (Cache cfg)
  ++ checkHotness (Hotness cfg)
  ++ checkPrivacyLogging (Privacy cfg) (Logging cfg).

Definition EffectiveKeyVisibility (cfg : Config) : string :=
  if adminExposeRawKeys (Admin cfg) then "plain" else privacyKeyVisibility (Privacy cfg).

Definition redactPresence (v : string) : string :=
  if bool_decide (v = EmptyString) then "unset" else "set".

End config.
Arguments HotnessConfig F : clear implicits.
Arguments Config F : clear implicits.
End config.
