(* ===== verification/ConfigLoad.v ===== *)
(** * internal/config: loading

    [Load]: the defaults, a TOML file over them ([applyRaw]), environment variables
    over that ([applyEnv]), and validation. Reading the file and the TOML library
    are parameters; the environment is a function from names to values. Errors are
    values: the first one is returned. [RedactedSummary] is here too. *)
From stdpp Require Import prelude gmap strings list pretty.
From Stdlib Require Import ZArith Lia.
From S2P Require Import Prelude Float64 GoStd GoTime CachePolicy Config.
Local Open Scope Z_scope.

Module configload.
Import gostd gotime config.

Inductive error :=
  | Errorf (msg : string)
  | InvalidDurationFor (name : string) (cause : durationError)
  | InvalidNumberFor (name value : string)
  | ReadConfig (cause : string)
  | ParseConfig (cause : string)
  | Joined (msgs : list string).

Notation R := (res error).

(** ** The file *)

Record rawProxy := mkRawProxy {
  rpListen : option string;
  rpReadTimeout : option string;
  rpWriteTimeout : option string;
  rpShutdownTimeout : option string;
  rpMaxCommandBytes : option Z;
  rpMaxCommandArgs : option Z;
  rpMaxMGetKeys : option Z;
  rpMaxConnections : option Z
}.

Record rawAdmin := mkRawAdmin { raListen : option string; raExposeRawKeys : option bool }.

Record rawUpstream := mkRawUpstream {
  ruAddress : option string;
  ruUsername : option string;
  ruPassword : option string;
  ruDatabase : option Z;
  ruDialTimeout : option string;
  ruReadTimeout : option string;
  ruWriteTimeout : option string
}.

Record rawCachePolicy := mkRawPolicy {
  rqPrefix : option string;
  rqMode : option string;
  rqMaxItemBytes : option Z;
  rqMaxLocalTTL : option string
}.

(** A nil slice of policies is [None]. *)
Record rawCache := mkRawCache {
  rcMaxBytes : option Z;
  rcMaxEntries : option Z;
  rcMaxLocalTTL : option string;
  rcAllowStaleOnUpstreamError : option bool;
  rcStaleGrace : option string;
  rcNegativeTTL : option string;
  rcPolicies : option (list rawCachePolicy)
}.

Record rawPrivacy := mkRawPrivacy {
  rvKeyVisibility : option string;
  rvKeyHashSecret : option string;
  rvKeyHashSalt : option string
}.

Record rawLogging := mkRawLogging { rlLevel : option string; rlFormat : option string }.

Record rawHotness (F : Type) := mkRawHotness {
  rhWindow : option string;
  rhEWMAAlpha : option F;
  rhPromotionThreshold : option F;
  rhDemotionThreshold : option F;
  rhMinimumHotWindows : option Z;
  rhCooldown : option string;
  rhMaxTrackedKeys : option Z
}.
Arguments rhWindow {F}. Arguments rhEWMAAlpha {F}. Arguments rhPromotionThreshold {F}.
Arguments rhDemotionThreshold {F}. Arguments rhMinimumHotWindows {F}. Arguments rhCooldown {F}.
Arguments rhMaxTrackedKeys {F}. Arguments mkRawHotness {F}.

Record rawConfig (F : Type) := mkRaw {
  rawMode : option string;
  rawProxyOf : rawProxy;
  rawAdminOf : rawAdmin;
  rawUpstreamOf : rawUpstream;
  rawCacheOf : rawCache;
  rawHotnessOf : rawHotness F;
  rawPrivacyOf : rawPrivacy;
  rawLoggingOf : rawLogging
}.
Arguments rawMode {F}. Arguments rawProxyOf {F}. Arguments rawAdminOf {F}. Arguments rawUpstreamOf {F}.
Arguments rawCacheOf {F}. Arguments rawHotnessOf {F}. Arguments rawPrivacyOf {F}. Arguments rawLoggingOf {F}.
Arguments mkRaw {F}.

Section load.
Context {F : Type} `{Float64 F}.

Definition setDuration (raw : option string) (target : Duration) (name : string) : R Duration :=
  match raw with
  | None => mret target
  | Some text =>
      match ParseDuration (F := F) text with
      | inl d => mret d
      | inr e => Fail (InvalidDurationFor name e)
      end
  end.

Definition applyRawProxy (p : ProxyConfig) (raw : rawProxy) : R ProxyConfig :=
  rt ← setDuration (rpReadTimeout raw) (proxyReadTimeout p) "proxy.read_timeout";
  wt ← setDuration (rpWriteTimeout raw) (proxyWriteTimeout p) "proxy.write_timeout";
  st ← setDuration (rpShutdownTimeout raw) (proxyShutdownTimeout p) "proxy.shutdown_timeout";
  mret (mkProxy (default (proxyListen p) (rpListen raw)) rt wt st
    (default (proxyMaxCommandBytes p) (rpMaxCommandBytes raw))
    (default (proxyMaxCommandArgs p) (rpMaxCommandArgs raw))
    (default (proxyMaxMGetKeys p) (rpMaxMGetKeys raw))
    (default (proxyMaxConnections p) (rpMaxConnections raw))).

Definition applyRawAdmin (a : AdminConfig) (raw : rawAdmin) : AdminConfig :=
  mkAdmin (default (adminListen a) (raListen raw)) (default (adminExposeRawKeys a) (raExposeRawKeys raw)).

Definition applyRawUpstream (u : UpstreamConfig) (raw : rawUpstream) : R UpstreamConfig :=
  dt ← setDuration (ruDialTimeout raw) (upstreamDialTimeout u) "upstream.dial_timeout";
  rt ← setDuration (ruReadTimeout raw) (upstreamReadTimeout u) "upstream.read_timeout";
  wt ← setDuration (ruWriteTimeout raw) (upstreamWriteTimeout u) "upstream.write_timeout";
  mret (mkUpstream (default (upstreamAddress u) (ruAddress raw)) (default (upstreamUsername u) (ruUsername raw))
    (default (upstreamPassword u) (ruPassword raw)) (default (upstreamDatabase u) (ruDatabase raw)) dt rt wt).

(** One policy of the file; its limits default to zero. *)
Definition applyRawPolicy (i : nat) (raw : rawCachePolicy) : R CachePolicyConfig :=
  let path := ("cache.policies[" ++ Itoa (Z.of_nat i) ++ "]")%string in
  match rqPrefix raw, rqMode raw with
  | None, _ => Fail (Errorf (path ++ ".prefix is required"))
  | Some _, None => Fail (Errorf (path ++ ".mode is required"))
  | Some prefix, Some mode =>
      ttl ← setDuration (rqMaxLocalTTL raw) 0 (path ++ ".max_local_ttl");
      mret (mkPolicy prefix mode (default 0 (rqMaxItemBytes raw)) ttl)
  end.

Fixpoint applyRawPolicies (i : nat) (raws : list rawCachePolicy) : R (list CachePolicyConfig) :=
  match raws with
  | [] => mret []
  | raw :: raws' =>
      p ← applyRawPolicy i raw;
      ps ← applyRawPolicies (S i) raws';
      mret (p :: ps)
  end.

Definition applyRawCache (c : CacheConfig) (raw : rawCache) : R CacheConfig :=
  ttl ← setDuration (rcMaxLocalTTL raw) (cacheMaxLocalTTL c) "cache.max_local_ttl";
  grace ← setDuration (rcStaleGrace raw) (cacheStaleGrace c) "cache.stale_grace";
  neg ← setDuration (rcNegativeTTL raw) (cacheNegativeTTL c) "cache.negative_ttl";
  policies ← match rcPolicies raw with
             | None => mret (cachePolicies c)
             | Some raws =>
                 if maxCachePolicies <? Z.of_nat (length raws)
                 then Fail (Errorf ("cache.policies must contain at most " ++ Itoa maxCachePolicies ++ " entries"))
                 else applyRawPolicies O raws
             end;
  mret (mkCacheConfig (default (cacheMaxBytes c) (rcMaxBytes raw)) (default (cacheMaxEntries c) (rcMaxEntries raw))
    ttl (default (cacheAllowStaleOnUpstreamError c) (rcAllowStaleOnUpstreamError raw)) grace neg policies).

Definition applyRawHotness (h : HotnessConfig F) (raw : rawHotness F) : R (HotnessConfig F) :=
  w ← setDuration (rhWindow raw) (hotnessWindow h) "hotness.window";
  cd ← setDuration (rhCooldown raw) (hotnessCooldown h) "hotness.cooldown";
  mret (mkHotness w (default (hotnessEWMAAlpha h) (rhEWMAAlpha raw))
    (default (hotnessPromotionThreshold h) (rhPromotionThreshold raw))
    (default (hotnessDemotionThreshold h) (rhDemotionThreshold raw))
    (default (hotnessMinimumHotWindows h) (rhMinimumHotWindows raw)) cd
    (default (hotnessMaxTrackedKeys h) (rhMaxTrackedKeys raw))).

(** The deprecated salt doubles as the secret when the file sets no secret. *)
Definition applyRawPrivacy (p : PrivacyConfig) (raw : rawPrivacy) : PrivacyConfig :=
  let secret := default (privacyKeyHashSecret p) (rvKeyHashSecret raw) in
  let visibility := default (privacyKeyVisibility p) (rvKeyVisibility raw) in
  match rvKeyHashSalt raw with
  | None => mkPrivacy visibility secret (privacyKeyHashSalt p)
  | Some salt =>
      mkPrivacy visibility (match rvKeyHashSecret raw with None => salt | Some _ => secret end) salt
  end.

Definition applyRawLogging (l : LoggingConfig) (raw : rawLogging) : LoggingConfig :=
  mkLogging (default (loggingLevel l) (rlLevel raw)) (default (loggingFormat l) (rlFormat raw)).

Definition applyRaw (cfg : Config F) (raw : rawConfig F) : R (Config F) :=
  p ← applyRawProxy (Proxy cfg) (rawProxyOf raw);
  u ← applyRawUpstream (Upstream cfg) (rawUpstreamOf raw);
  c ← applyRawCache (Cache cfg) (rawCacheOf raw);
  h ← applyRawHotness (Hotness cfg) (rawHotnessOf raw);
  mret (mkConfig (default (Mode cfg) (rawMode raw)) p (applyRawAdmin (Admin cfg) (rawAdminOf raw)) u c h
    (applyRawPrivacy (Privacy cfg) (rawPrivacyOf raw)) (applyRawLogging (Logging cfg) (rawLoggingOf raw))).

(** ** The environment *)

(** [os.LookupEnv]; [os.Getenv] answers the empty string for an unset name. *)
Context (env : string → option string).

Definition Getenv (name : string) : string := default EmptyString (env name).

Definition setString (name target : string) : string :=
  let value := TrimSpace (Getenv name) in
  if bool_decide (value = EmptyString) then target else value.

Definition setOpaqueString (name target : string) : string := default target (env name).

Definition setBool (name : string) (target : bool) : R bool :=
  let value := TrimSpace (Getenv name) in
  if bool_decide (value = EmptyString) then mret target
  else match ParseBool value with Some b => mret b | None => Fail (InvalidNumberFor name value) end.

Definition setInt (name : string) (target : Z) : R Z :=
  let value := TrimSpace (Getenv name) in
  if bool_decide (value = EmptyString) then mret target
  else match Atoi value with Some n => mret n | None => Fail (InvalidNumberFor name value) end.

Definition applyEnv (cfg : Config F) : R (Config F) :=
  let p := Proxy cfg in let u := Upstream cfg in let v := Privacy cfg in
  bytes ← setInt "SLIZEN_PROXY_MAX_COMMAND_BYTES" (proxyMaxCommandBytes p);
  args ← setInt "SLIZEN_PROXY_MAX_COMMAND_ARGS" (proxyMaxCommandArgs p);
  keys ← setInt "SLIZEN_PROXY_MAX_MGET_KEYS" (proxyMaxMGetKeys p);
  conns ← setInt "SLIZEN_PROXY_MAX_CONNECTIONS" (proxyMaxConnections p);
  expose ← setBool "SLIZEN_ADMIN_EXPOSE_RAW_KEYS" (adminExposeRawKeys (Admin cfg));
  mret (mkConfig (setString "SLIZEN_MODE" (Mode cfg))
    (mkProxy (setString "SLIZEN_PROXY_LISTEN" (proxyListen p)) (proxyReadTimeout p) (proxyWriteTimeout p)
       (proxyShutdownTimeout p) bytes args keys conns)
    (mkAdmin (setString "SLIZEN_ADMIN_LISTEN" (adminListen (Admin cfg))) expose)
    (mkUpstream (setString "SLIZEN_UPSTREAM_ADDRESS" (upstreamAddress u))
       (setOpaqueString "SLIZEN_UPSTREAM_USERNAME" (upstreamUsername u))
       (setOpaqueString "SLIZEN_UPSTREAM_PASSWORD" (upstreamPassword u))
       (upstreamDatabase u) (upstreamDialTimeout u) (upstreamReadTimeout u) (upstreamWriteTimeout u))
    (Cache cfg) (Hotness cfg)
    (mkPrivacy (setString "SLIZEN_KEY_VISIBILITY" (privacyKeyVisibility v))
       (setOpaqueString "SLIZEN_KEY_HASH_SECRET" (privacyKeyHashSecret v)) (privacyKeyHashSalt v))
    (mkLogging (setString "SLIZEN_LOG_LEVEL" (loggingLevel (Logging cfg))) (loggingFormat (Logging cfg)))).

(** ** Load *)

(** The file system and the TOML library; [secret] is the random text of [Default]. *)
Context (readFile : string → res string string) (unmarshal : string → res string (rawConfig F)) (secret : string).

Definition fromFile (path : string) (cfg : Config F) : R (Config F) :=
  if bool_decide (path = EmptyString) then mret cfg
  else
    match readFile path with
    | Fail e => Fail (ReadConfig e)
    | Ok contents =>
        match unmarshal contents with
        | Fail e => Fail (ParseConfig e)
        | Ok raw => applyRaw cfg raw
        end
    end.

Definition checked (cfg : Config F) : R (Config F) :=
  match Validate cfg with [] => mret cfg | msgs => Fail (Joined msgs) end.

Definition Load (path : string) : R (Config F) :=
  cfg ← fromFile path (Default secret);
  cfg ← applyEnv cfg;
  checked cfg.

(** ** The startup summary *)

Inductive field := FString (s : string) | FInt (z : Z).

Definition RedactedSummary (cfg : Config F) : list (string * field) :=
  [("mode", FString (Mode cfg));
   ("proxy_listen", FString (proxyListen (Proxy cfg)));
   ("proxy_max_command_bytes", FInt (proxyMaxCommandBytes (Proxy cfg)));
   ("proxy_max_command_args", FInt (proxyMaxCommandArgs (Proxy cfg)));
   ("proxy_max_mget_keys", FInt (proxyMaxMGetKeys (Proxy cfg)));
   ("proxy_max_connections", FInt (proxyMaxConnections (Proxy cfg)));
   ("admin_listen", FString (adminListen (Admin cfg)));
   ("upstream_address", FString (upstreamAddress (Upstream cfg)));
   ("upstream_username", FString (redactPresence (upstreamUsername (Upstream cfg))));
   ("upstream_password", FString (redactPresence (upstreamPassword (Upstream cfg))));
   ("upstream_database", FInt (upstreamDatabase (Upstream cfg)));
   ("key_visibility", FString (EffectiveKeyVisibility cfg));
   ("key_hash_secret", FString (redactPresence (privacyKeyHashSecret (Privacy cfg))));
   ("cache_max_bytes", FInt (cacheMaxBytes (Cache cfg)));
   ("cache_max_entries", FInt (cacheMaxEntries (Cache cfg)));
   ("cache_max_ttl", FString (DurationString (cacheMaxLocalTTL (Cache cfg))));
   ("cache_policy_count", FInt (Z.of_nat (length (cachePolicies (Cache cfg)))));
   ("hotness_window", FString (DurationString (hotnessWindow (Hotness cfg))));
   ("log_level", FString (loggingLevel (Logging cfg)))]%string.

End load.
End configload.
