(* ===== verification/Metrics.v ===== *)
(** * internal/metrics: the recorder

    The [Recorder] owns atomic counters, which the admin API reports, and forwards
    every event to the Prometheus client. That client is a library outside the
    program: the calls made to it are kept as a trace, in order, newest first. Each
    method is one transition of the recorder. *)
From stdpp Require Import prelude gmap strings list.
From Stdlib Require Import ZArith Lia.
From S2P Require Import Prelude GoStd.
Local Open Scope Z_scope.

Module metrics.
Import gostd.

(** A [uint8]; callers outside the package may pass any of its values. *)
Definition CacheMissReason : Type := Z.
Definition CacheMissReasonUnclassified : CacheMissReason := 0.
Definition CacheMissReasonPolicyBypass : CacheMissReason := 1.
Definition CacheMissReasonNotAdmitted : CacheMissReason := 2.
Definition CacheMissReasonNotPresent : CacheMissReason := 3.
Definition cacheMissReasonCount : CacheMissReason := 4.

Definition normalizeCacheMissReason (reason : CacheMissReason) : CacheMissReason :=
  if cacheMissReasonCount <=? reason then CacheMissReasonUnclassified else reason.

(** A call on a metric of the Prometheus client, by metric name and labels. *)
Inductive PromCall :=
  | PInc (name : string) (labels : list string)
  | PDec (name : string)
  | PAdd (name : string) (v : Z)
  | PSet (name : string) (v : Z)
  | PObserve (name : string) (labels : list string) (d : Duration).

(** The fields of type [atomic.Uint64]; the misses by reason are an array. *)
Inductive counter :=
  | totalRequests | totalCacheHits | totalCacheMisses
  | totalCacheMissesByReason (r : CacheMissReason)
  | totalUpstreamReqs | totalUpstreamGets | totalUpstreamErrs
  | totalPromotions | totalDemotions | totalInvalidates | totalCoalesced
  | evictionSeen | hotnessCapacityDropSeen | hotnessOversizedDropSeen.

#[global] Instance counter_eq_dec : EqDecision counter.
Proof. solve_decision. Defined.

Record Recorder := mkRecorder { load : counter → Z; prom : list PromCall }.

Definition New : Recorder := mkRecorder (λ _, 0) [].

Definition store (r : Recorder) (c : counter) (v : Z) : Recorder :=
  mkRecorder (λ c', if decide (c' = c) then v else load r c') (prom r).

(** [c.Add(1)] *)
Definition add1 (r : Recorder) (c : counter) : Recorder := store r c (load r c +u 1).

Definition emit (r : Recorder) (c : PromCall) : Recorder := mkRecorder (load r) (c :: prom r).

Definition knownCommands : list string :=
  ["PING"; "QUIT"; "SELECT"; "GET"; "MGET"; "SET"; "SETEX"; "PSETEX"; "DEL"; "UNLINK"; "EXPIRE";
   "PEXPIRE"; "PERSIST"; "TTL"; "PTTL"; "EXISTS"]%string.

Definition unsafeCommands : list string :=
  ["MULTI"; "EXEC"; "WATCH"; "UNWATCH"; "SUBSCRIBE"; "PSUBSCRIBE"; "SSUBSCRIBE"; "MONITOR"; "BLPOP";
   "BRPOP"; "BRPOPLPUSH"; "BLMOVE"; "BZPOPMIN"; "BZPOPMAX"; "XREAD"; "XREADGROUP"]%string.

Definition commandLabel (command : string) : string :=
  let c := ToUpper command in
  if decide (c ∈ knownCommands) then c
  else if decide (c ∈ unsafeCommands) then "unsafe"
  else if decide (c ∈ [EmptyString; "UNKNOWN"%string]) then "invalid"
  else "unsupported".

Definition cacheMissReasonLabel (reason : CacheMissReason) : string :=
  let reason := normalizeCacheMissReason reason in
  if reason =? CacheMissReasonPolicyBypass then "policy_bypass"
  else if reason =? CacheMissReasonNotAdmitted then "not_admitted"
  else if reason =? CacheMissReasonNotPresent then "not_present"
  else "unclassified".

(** [advanceHighWater]: the new mark and the delta that the caller adds. Without
    contention the first compare-and-swap succeeds. *)
Definition advanceHighWater (mark total : Z) : Z * Z :=
  if total <=? mark then (mark, 0) else (total, total - mark).

(** The series that [New] resolves once: [getRequestOK], [getRequestOKLatency],
    [getCacheHits] and the array [cacheMissByReason]. *)
Definition getRequestOK : PromCall := PInc "slizen_requests_total" ["GET"; "ok"]%string.
Definition getRequestOKLatency (d : Duration) : PromCall :=
  PObserve "slizen_request_duration_seconds" ["GET"; "ok"]%string d.
Definition getCacheHits : PromCall := PInc "slizen_cache_hits_total" ["GET"%string].
Definition cacheMissByReason (reason : CacheMissReason) : PromCall :=
  PInc "slizen_cache_miss_reasons_total" [cacheMissReasonLabel reason].

Definition ObserveRequest (r : Recorder) (command result : string) (d : Duration) : Recorder :=
  let command := commandLabel command in
  let r := add1 r totalRequests in
  if bool_decide (command = "GET"%string) && bool_decide (result = "ok"%string)
  then emit (emit r getRequestOK) (getRequestOKLatency d)
  else emit (emit r (PInc "slizen_requests_total" [command; result]))
         (PObserve "slizen_request_duration_seconds" [command; result] d).

Definition CacheHit (r : Recorder) (command : string) : Recorder :=
  let command := commandLabel command in
  let r := add1 r totalCacheHits in
  if bool_decide (command = "GET"%string) then emit r getCacheHits
  else emit r (PInc "slizen_cache_hits_total" [command]).

Definition CacheMissWithReason (r : Recorder) (command : string) (reason : CacheMissReason) : Recorder :=
  let command := commandLabel command in
  let reason := normalizeCacheMissReason reason in
  let r := add1 (add1 r totalCacheMisses) (totalCacheMissesByReason reason) in
  emit (emit r (PInc "slizen_cache_misses_total" [command])) (cacheMissByReason reason).

Definition CacheMiss (r : Recorder) (command : string) : Recorder :=
  CacheMissWithReason r command CacheMissReasonUnclassified.

(** Advance a high-water mark and add what it advanced by to a counter. *)
Definition advance (r : Recorder) (mark : counter) (total : Z) (name : string) : Recorder :=
  let '(m, delta) := advanceHighWater (load r mark) total in
  let r := store r mark m in
  if 0 <? delta then emit r (PAdd name delta) else r.

Definition ObserveCache (r : Recorder) (entries bytes evictions : Z) : Recorder :=
  let r := emit (emit r (PSet "slizen_cache_entries" entries)) (PSet "slizen_cache_bytes" bytes) in
  advance r evictionSeen evictions "slizen_cache_evictions_total".

Definition SetCacheLimits (r : Recorder) (maxBytes maxEntries : Z) : Recorder :=
  emit (emit r (PSet "slizen_cache_max_bytes" maxBytes)) (PSet "slizen_cache_max_entries" maxEntries).

Definition ConnectionOpened (r : Recorder) : Recorder := emit r (PInc "slizen_active_connections" []).
Definition ConnectionClosed (r : Recorder) : Recorder := emit r (PDec "slizen_active_connections").

Definition ObserveUpstream (r : Recorder) (command : string) (d : Duration) (failed : bool) : Recorder :=
  let command := commandLabel command in
  let r := add1 r totalUpstreamReqs in
  let r := if bool_decide (command = "GET"%string) then add1 r totalUpstreamGets else r in
  let r := emit r (PInc "slizen_upstream_requests_total" [command]) in
  let r := if failed
           then emit (add1 r totalUpstreamErrs) (PInc "slizen_upstream_errors_total" [command]) else r in
  emit r (PObserve "slizen_upstream_duration_seconds"
            [command; if failed then "error"%string else "ok"%string] d).

Definition Promotion (r : Recorder) : Recorder :=
  emit (add1 r totalPromotions) (PInc "slizen_promotions_total" []).

Definition Demotion (r : Recorder) : Recorder :=
  emit (add1 r totalDemotions) (PInc "slizen_demotions_total" []).

Definition Invalidation (r : Recorder) (reason : string) : Recorder :=
  emit (add1 r totalInvalidates) (PInc "slizen_invalidations_total" [reason]).

Definition Coalesced (r : Recorder) : Recorder :=
  emit (add1 r totalCoalesced) (PInc "slizen_coalesced_requests_total" []).

Definition SetHotKeys (r : Recorder) (count : Z) : Recorder := emit r (PSet "slizen_hot_keys" count).

Definition ObserveHotnessOversizedDrops (r : Recorder) (total : Z) : Recorder :=
  advance r hotnessOversizedDropSeen total "slizen_hotness_oversized_observations_dropped_total".

Definition ObserveHotnessCapacityDrops (r : Recorder) (total : Z) : Recorder :=
  advance r hotnessCapacityDropSeen total "slizen_hotness_capacity_observations_dropped_total".

(** [Snapshot] reports the atomic counters. *)
Record Snapshot := mkSnapshot {
  snTotalRequests : Z;
  snCacheHits : Z;
  snCacheMisses : Z;
  snCacheMissesUnclassified : Z;
  snCacheMissesPolicyBypass : Z;
  snCacheMissesNotAdmitted : Z;
  snCacheMissesNotPresent : Z;
  snUpstreamRequests : Z;
  snUpstreamGets : Z;
  snUpstreamErrors : Z;
  snPromotions : Z;
  snDemotions : Z;
  snInvalidations : Z;
  snCoalescedRequests : Z
}.

Definition takeSnapshot (r : Recorder) : Snapshot :=
  {| snTotalRequests := load r totalRequests;
     snCacheHits := load r totalCacheHits;
     snCacheMisses := load r totalCacheMisses;
     snCacheMissesUnclassified := load r (totalCacheMissesByReason CacheMissReasonUnclassified);
     snCacheMissesPolicyBypass := load r (totalCacheMissesByReason CacheMissReasonPolicyBypass);
     snCacheMissesNotAdmitted := load r (totalCacheMissesByReason CacheMissReasonNotAdmitted);
     snCacheMissesNotPresent := load r (totalCacheMissesByReason CacheMissReasonNotPresent);
     snUpstreamRequests := load r totalUpstreamReqs;
     snUpstreamGets := load r totalUpstreamGets;
     snUpstreamErrors := load r totalUpstreamErrs;
     snPromotions := load r totalPromotions;
     snDemotions := load r totalDemotions;
     snInvalidations := load r totalInvalidates;
     snCoalescedRequests := load r totalCoalesced |}.

End metrics.
