(* ===== verification/Conc.v ===== *)
(** * Concurrent programs

    Go code that runs in several goroutines is a [prog]: a tree of atomic actions
    on the shared state. An action sees the index of its goroutine, a tick of the
    environment (the clock reading, an outcome the environment chooses) and the
    state; it may be blocked (a held mutex), or it changes the state and goes on.
    [pstep] interleaves the goroutines of a pool in every possible way. [safe] is a
    rely/guarantee judgement: what one goroutine guarantees, whatever the others do
    within its rely. *)
From stdpp Require Import prelude list.
From Stdlib Require Import ZArith Lia.
From S2P Require Import Prelude.

Inductive prog (E S A : Type) : Type :=
  | Ret (a : A)
  | Panic
  | Step (f : nat → E → S → option (S * prog E S A)).
Arguments Ret {E S A} a.
Arguments Panic {E S A}.
Arguments Step {E S A} f.

Fixpoint prog_bind {E S A B} (k : A → prog E S B) (p : prog E S A) : prog E S B :=
  match p with
  | Ret a => k a
  | Panic => Panic
  | Step f => Step (λ i e s, match f i e s with
                             | Some (s', p') => Some (s', prog_bind k p')
                             | None => None
                             end)
  end.

#[export] Instance prog_mret {E S} : MRet (prog E S) := λ A a, Ret a.
#[export] Instance prog_mbind {E S} : MBind (prog E S) := λ A B k p, prog_bind k p.

(** Induction on a program: the hypothesis covers every continuation of an action. *)
Lemma prog_induction {E S A} (P : prog E S A → Prop) :
  (∀ a, P (Ret a)) → P Panic →
  (∀ f, (∀ i e s s' p, f i e s = Some (s', p) → P p) → P (Step f)) → ∀ p, P p.
Proof.
  intros HR HP HS. fix REC 1. intros [a| |f]; [apply HR|apply HP|].
  apply HS. intros i e s s' p. destruct (f i e s) as [[s1 p1]|]; [|discriminate].
  pose proof (REC p1) as H1. intros Heq. injection Heq. intros H2 _. rewrite <-H2. exact H1.
Qed.

(** An action that answers a value. *)
Definition act {E S A} (f : nat → E → S → option (S * A)) : prog E S A :=
  Step (λ i e s, match f i e s with Some (s', a) => Some (s', Ret a) | None => None end).

(** A loop over a list, for its effects. *)
Fixpoint prog_iter {E S A} (f : A → prog E S unit) (l : list A) : prog E S unit :=
  match l with
  | [] => Ret tt
  | x :: l' => f x ≫= λ _, prog_iter f l'
  end.

(** Every value the program can return, whatever the states it meets, satisfies [Q]. *)
Fixpoint returns {E S A} (p : prog E S A) (Q : A → Prop) : Prop :=
  match p with
  | Ret a => Q a
  | Panic => True
  | Step f => ∀ i e s, match f i e s with Some (_, p') => returns p' Q | None => True end
  end.

Lemma returns_bind {E S A B} (p : prog E S A) (k : A → prog E S B) Q :
  returns p (λ a, returns (k a) Q) → returns (p ≫= k) Q.
Proof.
  change (p ≫= k) with (prog_bind k p).
  induction p as [a| |f IH] using prog_induction; simpl; [done..|].
  intros Hp i e s. specialize (Hp i e s). destruct (f i e s) as [[s1 p1]|] eqn:Ef; [|done]. by eapply IH.
Qed.

Lemma returns_all {E S A} (p : prog E S A) (Q : A → Prop) : (∀ a, Q a) → returns p Q.
Proof.
  intros HQ. induction p as [a| |f IH] using prog_induction; simpl; [done..|].
  intros i e s. destruct (f i e s) as [[s1 p1]|] eqn:Ef; [|done]. by eapply IH.
Qed.

Lemma returns_weaken {E S A} (p : prog E S A) (Q Q' : A → Prop) :
  returns p Q → (∀ a, Q a → Q' a) → returns p Q'.
Proof.
  intros Hp HQ. induction p as [a| |f IH] using prog_induction; simpl in *; [by apply HQ|done|].
  intros i e s. specialize (Hp i e s). destruct (f i e s) as [[s1 p1]|] eqn:Ef; [|done]. by eapply IH.
Qed.

(** ** A pool of goroutines *)
Section pool.
Context {E S A : Type}.

(** Which ticks the environment may give in a state, and which goroutines may
    start. *)
Context (tick_ok : S → E → Prop) (arrive : S → S → prog E S A → Prop).

Inductive pstep : S * list (prog E S A) → S * list (prog E S A) → Prop :=
  | pstep_act s ps i f e s' p' :
      ps !! i = Some (Step f) → tick_ok s e → f i e s = Some (s', p') →
      pstep (s, ps) (s', <[i := p']> ps)
  | pstep_arrive s ps s' p :
      arrive s s' p → pstep (s, ps) (s', ps ++ [p]).

Inductive preachable (s0 : S) : S * list (prog E S A) → Prop :=
  | preach_init : preachable s0 (s0, [])
  | preach_step c c' : preachable s0 c → pstep c c' → preachable s0 c'.

(** Letting one goroutine of a pool run until it returns, panics or is blocked,
    with the ticks that [mk] makes up (or until the fuel is spent). *)
Fixpoint runAlone (mk : S → option E) (fuel : nat) (i : nat) (s : S) (p : prog E S A)
    : S * prog E S A :=
  match p, fuel with
  | Step f, Datatypes.S fuel' =>
      match mk s with
      | Some e => match f i e s with
                  | Some (s', p') => runAlone mk fuel' i s' p'
                  | None => (s, p)
                  end
      | None => (s, p)
      end
  | _, _ => (s, p)
  end.

Lemma runAlone_reachable mk fuel i s0 s p ps s' p' :
  (∀ s e, mk s = Some e → tick_ok s e) →
  preachable s0 (s, ps) → ps !! i = Some p → runAlone mk fuel i s p = (s', p') →
  preachable s0 (s', <[i := p']> ps).
Proof.
  intros Hmk. revert s p ps. induction fuel as [|fuel IH]; intros s p ps Hr Hi Hrun.
  - destruct p; simplify_eq/=; by rewrite list_insert_id.
  - destruct p as [a| |f]; simpl in Hrun; [simplify_eq; by rewrite list_insert_id..|].
    destruct (mk s) as [e|] eqn:He; [|simplify_eq; by rewrite list_insert_id].
    destruct (f i e s) as [[s1 p1]|] eqn:Hf; [|simplify_eq; by rewrite list_insert_id].
    assert (Hr1 : preachable s0 (s1, <[i := p1]> ps)).
    { eapply preach_step; [exact Hr|]. eapply pstep_act; eauto. }
    apply (IH s1 p1) in Hr1; [by rewrite list_insert_insert_eq in Hr1| |done].
    apply list_lookup_insert_eq. by eapply lookup_lt_Some.
Qed.

End pool.

(** ** Rely and guarantee *)
Section rely_guarantee.
Context {E S : Type} (tick_ok : S → E → Prop).
Context (I : S → Prop) (rely guar : nat → S → S → Prop).
Context `{Hpre : ∀ i, PreOrder (rely i)}.

Fixpoint safe {A} (i : nat) (p : prog E S A) (Q : A → S → Prop) : S → Prop :=
  match p with
  | Ret a => λ s, ∀ s1, rely i s s1 → I s1 → Q a s1
  | Panic => λ s, False
  | Step f => λ s, ∀ s1, rely i s s1 → I s1 → ∀ e, tick_ok s1 e →
      match f i e s1 with
      | None => True
      | Some (s2, p2) => I s2 ∧ guar i s1 s2 ∧ safe i p2 Q s2
      end
  end.

Lemma safe_rely {A} i (p : prog E S A) Q s s1 :
  safe i p Q s → rely i s s1 → safe i p Q s1.
Proof.
  destruct p as [a| |f]; simpl; [|done|]; intros Hp Hr s2 Hr2; apply Hp; by etrans.
Qed.

Lemma safe_bind {A B} i (p : prog E S A) (k : A → prog E S B) Q s :
  safe i p (λ a s, safe i (k a) Q s) s → I s → safe i (prog_bind k p) Q s.
Proof.
  revert s. induction p as [a| |f IH] using prog_induction; intros s Hp HI; simpl in *; [|done|].
  - by apply Hp.
  - intros s1 Hr HI1 e He. specialize (Hp s1 Hr HI1 e He).
    destruct (f i e s1) as [[s2 p2]|] eqn:Ef; [|done].
    destruct Hp as (HI2 & Hg & Hp2). split_and!; [done..|]. by eapply IH.
Qed.

Lemma safe_mono {A} i (p : prog E S A) (Q Q' : A → S → Prop) s :
  safe i p Q s → (∀ a s, I s → Q a s → Q' a s) → safe i p Q' s.
Proof.
  intros Hp HQ. revert s Hp. induction p as [a| |f IH] using prog_induction; intros s Hp; simpl in *; [|done|].
  - intros s1 Hr HI1. apply HQ; [done|]. by apply Hp.
  - intros s1 Hr HI1 e He. specialize (Hp s1 Hr HI1 e He).
    destruct (f i e s1) as [[s2 p2]|] eqn:Ef; [|done].
    destruct Hp as (HI2 & Hg & Hp2). split_and!; [done..|]. by eapply IH.
Qed.

Lemma safe_ret {A} i (a : A) (Q : A → S → Prop) s :
  (∀ s1, rely i s s1 → I s1 → Q a s1) → safe i (Ret a) Q s.
Proof. done. Qed.

(** An action is judged in the states the rely can lead to. *)
Lemma safe_act {A} i (f : nat → E → S → option (S * A)) Q s :
  (∀ s1 e s2 a, rely i s s1 → I s1 → tick_ok s1 e → f i e s1 = Some (s2, a) →
     I s2 ∧ guar i s1 s2 ∧ ∀ s3, rely i s2 s3 → I s3 → Q a s3) →
  safe i (act f) Q s.
Proof.
  intros Hf s1 Hr HI e He. specialize (Hf s1 e).
  destruct (f i e s1) as [[s2 a]|]; [|done]. by destruct (Hf s2 a) as (H1 & H2 & H3).
Qed.

(** A loop keeps a stable assertion that each iteration keeps. *)
Lemma safe_iter {A} i (f : A → prog E S unit) (P : S → Prop) l s :
  (∀ s s1, P s → rely i s s1 → I s1 → P s1) →
  (∀ x s, x ∈ l → P s → I s → safe i (f x) (λ _, P) s) →
  P s → I s → safe i (prog_iter f l) (λ _, P) s.
Proof.
  intros Hst. revert s. induction l as [|x l IH]; intros s Hf HP HI; simpl.
  - intros s1 Hr HI1. by eapply Hst.
  - apply safe_bind; [|done]. eapply safe_mono; [apply Hf; [left|done..]|].
    intros [] s1 HI1 HP1. apply IH; [|done..]. intros y s2 Hy. apply Hf. by right.
Qed.

(** ** Triples

    [hoare i Φ p Ψ]: run by goroutine [i] from a state with [Φ], [p] keeps the
    invariant and the guarantee at every action and ends with [Ψ]. An assertion is
    stable when the other goroutines cannot falsify it. *)
Definition stableAt (i : nat) (Φ : S → Prop) : Prop := ∀ s s1, Φ s → rely i s s1 → I s1 → Φ s1.

Definition hoare {A} (i : nat) (Φ : S → Prop) (p : prog E S A) (Ψ : A → S → Prop) : Prop :=
  ∀ s, I s → Φ s → safe i p Ψ s.

Lemma hoare_ret {A} i (a : A) (Ψ : A → S → Prop) : stableAt i (Ψ a) → hoare i (Ψ a) (mret a) Ψ.
Proof. intros Hst s HI Hs s1 Hr HI1. by eapply Hst. Qed.

Lemma hoare_bind {A B} i Φ (p : prog E S A) (q : A → prog E S B) Ξ Ψ :
  hoare i Φ p Ξ → (∀ a, hoare i (Ξ a) (q a) Ψ) → hoare i Φ (p ≫= q) Ψ.
Proof.
  intros Hp Hq s HI Hs. apply safe_bind; [|done].
  eapply safe_mono; [by apply Hp|]. intros a s1 HI1 Hs1. by apply Hq.
Qed.

Lemma hoare_conseq {A} i Φ Φ' (p : prog E S A) (Ψ Ψ' : A → S → Prop) :
  hoare i Φ' p Ψ' → (∀ s, I s → Φ s → Φ' s) → (∀ a s, I s → Ψ' a s → Ψ a s) → hoare i Φ p Ψ.
Proof. intros Hp H1 H2 s HI Hs. eapply safe_mono; [apply Hp; auto|]. auto. Qed.

Lemma hoare_pre {A} i Φ Φ' (p : prog E S A) Ψ :
  hoare i Φ' p Ψ → (∀ s, I s → Φ s → Φ' s) → hoare i Φ p Ψ.
Proof. intros Hp H1. eapply hoare_conseq; eauto. Qed.

(** An atomic action, judged in the states where it can be taken. *)
Lemma hoare_act {A} i Φ (f : nat → E → S → option (S * A)) (Ψ : A → S → Prop) :
  stableAt i Φ → (∀ a, stableAt i (Ψ a)) →
  (∀ s e s' a, I s → Φ s → tick_ok s e → f i e s = Some (s', a) → I s' ∧ guar i s s' ∧ Ψ a s') →
  hoare i Φ (act f) Ψ.
Proof.
  intros HΦ HΨ Hf s HI Hs. apply safe_act. intros s1 e s2 a Hr HI1 He Hf1.
  destruct (Hf s1 e s2 a) as (HI2 & Hg & Hs2); [done|by eapply HΦ|done|done|].
  split_and!; [done|done|]. intros s3 Hr3 HI3. by eapply HΨ.
Qed.

(** An assertion that neither the others nor the goroutine itself can falsify is
    kept by every program. *)
Lemma hoare_frame {A} i Φ (p : prog E S A) (Ψ : A → S → Prop) (φ : S → Prop) :
  stableAt i φ → (∀ s s', φ s → guar i s s' → I s' → φ s') →
  hoare i Φ p Ψ → hoare i (λ s, Φ s ∧ φ s) p (λ a s, Ψ a s ∧ φ s).
Proof.
  intros Hst Hg Hp s HI [HΦ Hφ]. specialize (Hp s HI HΦ). clear HΦ. revert s HI Hφ Hp.
  induction p as [a| |f IH] using prog_induction; intros s HI Hφ Hp; simpl in *; [|done|].
  - intros s1 Hr HI1. split; [by apply Hp|by eapply Hst].
  - intros s1 Hr HI1 e He. specialize (Hp s1 Hr HI1 e He).
    destruct (f i e s1) as [[s2 p2]|] eqn:Ef; [|done]. destruct Hp as (HI2 & Hg2 & Hp2).
    split_and!; [done..|]. eapply IH; [done|done| |done]. eapply Hg; [|done..]. by eapply Hst.
Qed.

(** A loop over a list with an assertion that follows the rest of the list. *)
Lemma hoare_iter {A} i (f : A → prog E S unit) (Φ : list A → S → Prop) (l : list A) :
  (∀ l', stableAt i (Φ l')) →
  (∀ x l', hoare i (Φ (x :: l')) (f x) (λ _, Φ l')) →
  hoare i (Φ l) (prog_iter f l) (λ _, Φ []).
Proof.
  intros Hst Hf. induction l as [|x l IH]; simpl.
  - by apply (hoare_ret i () (λ _, Φ [])).
  - eapply hoare_bind; [apply Hf|]. intros []. apply IH.
Qed.

(** ** Soundness: the invariant holds in every interleaving

    [J j] is what holds of goroutine [j] before it starts, [Q j] what it ends
    with. *)
Section soundness.
Context {A : Type} (arrive : S → S → prog E S A → Prop).
Context (J : nat → S → Prop) (Q : nat → A → S → Prop).

Definition pool_ok (c : S * list (prog E S A)) : Prop :=
  I c.1 ∧ (∀ j, (length c.2 <= j)%nat → J j c.1) ∧
  ∀ i p, c.2 !! i = Some p → safe i p (Q i) c.1.

Hypothesis guar_rely : ∀ i j s s', i ≠ j → guar i s s' → rely j s s'.
Hypothesis J_stable : ∀ j, stableAt j (J j).
Hypothesis arrive_ok : ∀ s s' p i, I s → J i s → arrive s s' p →
  I s' ∧ (∀ j, rely j s s') ∧ safe i p (Q i) s'.

Lemma pstep_pool_ok c c' : pool_ok c → pstep tick_ok arrive c c' → pool_ok c'.
Proof.
  intros (HI & HJ & Hs) Hstep. destruct Hstep as [s ps i f e s' p' Hi He Hf|s ps s' p Ha]; simpl in *.
  - pose proof (Hs i _ Hi s ltac:(reflexivity) HI e He) as Hp. rewrite Hf in Hp.
    assert (Hlt : (i < length ps)%nat) by (by eapply lookup_lt_Some).
    destruct Hp as (HI' & Hg & Hp'). split_and!; [done| |]; simpl.
    + intros j. rewrite length_insert. intros Hj. eapply J_stable; [by apply HJ| |done].
      apply (guar_rely i j); [lia|done].
    + intros j q. destruct (decide (i = j)) as [<-|Hne].
      * rewrite list_lookup_insert_eq by done. by intros [= <-].
      * rewrite list_lookup_insert_ne by done. intros Hj. eapply safe_rely; [by apply Hs|]. by eapply guar_rely.
  - destruct (arrive_ok s s' p (length ps) HI (HJ (length ps) (le_n _)) Ha) as (HI' & Hr & Hp).
    split_and!; [done| |]; simpl.
    + intros j. rewrite length_app. simpl. intros Hj. eapply J_stable; [apply HJ; lia|apply Hr|done].
    + intros j q. destruct (decide (j < length ps)%nat) as [Hlt|Hge].
      * rewrite lookup_app_l by done. intros Hj. eapply safe_rely; [by apply Hs|done].
      * rewrite lookup_app_r by lia. intros Hj. destruct (j - length ps)%nat as [|n] eqn:Hn; [|done].
        simplify_eq/=. replace j with (length ps) by lia. done.
Qed.

Theorem preachable_ok s0 c :
  I s0 → (∀ j, J j s0) → preachable tick_ok arrive s0 c → pool_ok c.
Proof.
  intros HI HJ. induction 1 as [|c c' _ IH Hst]; [by split_and!|]. by eapply pstep_pool_ok.
Qed.

End soundness.
End rely_guarantee.

(** ** Programs on a part of the state

    A program of one component, run on the state of two. *)
Fixpoint zoom {E S E' S' A} (ge : E' → E) (get : S' → S) (put : S → S' → S') (p : prog E S A) : prog E' S' A :=
  match p with
  | Ret a => Ret a
  | Panic => Panic
  | Step f => Step (λ i e s, match f i (ge e) (get s) with
                             | Some (s', p') => Some (put s' s, zoom ge get put p')
                             | None => None
                             end)
  end.

Section both.
Context {E1 S1 E2 S2 : Type}.

Definition onL {A} (p : prog E1 S1 A) : prog (E1 * E2) (S1 * S2) A := zoom fst fst (λ s1 s, (s1, s.2)) p.
Definition onR {A} (p : prog E2 S2 A) : prog (E1 * E2) (S1 * S2) A := zoom snd snd (λ s2 s, (s.1, s2)) p.

Context (t1 : S1 → E1 → Prop) (I1 : S1 → Prop) (r1 g1 : nat → S1 → S1 → Prop).
Context (t2 : S2 → E2 → Prop) (I2 : S2 → Prop) (r2 g2 : nat → S2 → S2 → Prop).

Definition tickB (s : S1 * S2) (e : E1 * E2) : Prop := t1 s.1 e.1 ∧ t2 s.2 e.2.
Definition invB (s : S1 * S2) : Prop := I1 s.1 ∧ I2 s.2.
Definition relyB (i : nat) (s s' : S1 * S2) : Prop := r1 i s.1 s'.1 ∧ r2 i s.2 s'.2.
Definition guarB (i : nat) (s s' : S1 * S2) : Prop := g1 i s.1 s'.1 ∧ g2 i s.2 s'.2.

#[export] Instance relyB_preorder i : PreOrder (r1 i) → PreOrder (r2 i) → PreOrder (relyB i).
Proof.
  intros H1 H2. split; [intros s; by split|].
  intros s s' s'' [Ha Hb] [Hc Hd]. split; [by trans s'.1|by trans s'.2].
Qed.

(** A triple of one component holds of both, with a stable assertion on the other. *)
Lemma hoare_onL {A} i Φ (p : prog E1 S1 A) Ψ (φ : S2 → Prop) :
  (∀ s, g2 i s s) → stableAt I2 r2 i φ → hoare t1 I1 r1 g1 i Φ p Ψ →
  hoare tickB invB relyB guarB i (λ s, Φ s.1 ∧ φ s.2) (onL p) (λ a s, Ψ a s.1 ∧ φ s.2).
Proof.
  intros Hg Hst Hp s HI [HΦ Hφ]. specialize (Hp s.1 (proj1 HI) HΦ). clear HΦ. revert s HI Hφ Hp.
  induction p as [a| |f IH] using prog_induction; intros s HI Hφ Hp; simpl in *; [|done|].
  - intros s1 [Hr1 Hr2] [HI1 HI2]. split; [by apply Hp|by eapply Hst].
  - intros s1 [Hr1 Hr2] [HI1 HI2] e [He1 He2]. specialize (Hp s1.1 Hr1 HI1 e.1 He1).
    destruct (f i e.1 s1.1) as [[s' p']|] eqn:Ef; [|done]. destruct Hp as (HI' & Hg' & Hp').
    split_and!; [done..|]. apply (IH i e.1 s1.1 s' p' Ef (s', s1.2)); simpl; [done|by eapply Hst|done].
Qed.

Lemma hoare_onR {A} i Φ (p : prog E2 S2 A) Ψ (φ : S1 → Prop) :
  (∀ s, g1 i s s) → stableAt I1 r1 i φ → hoare t2 I2 r2 g2 i Φ p Ψ →
  hoare tickB invB relyB guarB i (λ s, φ s.1 ∧ Φ s.2) (onR p) (λ a s, φ s.1 ∧ Ψ a s.2).
Proof.
  intros Hg Hst Hp s HI [Hφ HΦ]. specialize (Hp s.2 (proj2 HI) HΦ). clear HΦ. revert s HI Hφ Hp.
  induction p as [a| |f IH] using prog_induction; intros s HI Hφ Hp; simpl in *; [|done|].
  - intros s1 [Hr1 Hr2] [HI1 HI2]. split; [by eapply Hst|by apply Hp].
  - intros s1 [Hr1 Hr2] [HI1 HI2] e [He1 He2]. specialize (Hp s1.2 Hr2 HI2 e.2 He2).
    destruct (f i e.2 s1.2) as [[s' p']|] eqn:Ef; [|done]. destruct Hp as (HI' & Hg' & Hp').
    split_and!; [done..|]. apply (IH i e.2 s1.2 s' p' Ef (s1.1, s')); simpl; [done|by eapply Hst|done].
Qed.

End both.
