(* ===== verification/Drain.v ===== *)
(** * internal/proxy: the drain tracker

    [drainTracker] counts admitted command handlers and accepted connections and
    closes the channel [drained] when a drain has emptied both. Handler admission is
    lock-free (a double-checked reservation), everything else happens under [mu].
    Connections are numbers, a [trackedConnection] lives in a heap under a pointer,
    and pending ones form the doubly linked list the Go code threads through them.

    [reserved], [admitted], [owing] and [holding] are auxiliary variables that have no
    influence on anything else: the goroutines that have incremented the counter,
    those whose handler was admitted, those that still have to check whether the
    drain is complete after a change that may have completed it, and the connection
    that a goroutine has had accepted and not yet closed. *)
From stdpp Require Import prelude gmap list fin_maps.
From Stdlib Require Import ZArith Lia.
From S2P Require Import Prelude Conc.
Local Open Scope Z_scope.

Module drain.

Definition Conn := nat.

Record trackedConnection := mkTracked {
  conn : Conn;
  prev : option nat;
  next : option nat;
  pending : bool
}.

Record drainTracker := mkDrain {
  mu : option nat;
  draining : bool;
  active : Z;
  connections : gmap Conn nat;
  heap : gmap nat trackedConnection;
  pendingHead : option nat;
  fresh : nat;
  startedClosed : bool;
  drainedClosed : bool;
  (** Connections whose read deadline the drain has moved to now, in order. *)
  woken : list Conn;
  reserved : gset nat;
  admitted : gset nat;
  owing : gset nat;
  holding : gmap nat Conn
}.

Definition newDrainTracker : drainTracker :=
  mkDrain None false 0 ∅ ∅ None 0 false false [] ∅ ∅ ∅ ∅.

(** What the environment decides: the outcome of setting a deadline, and whether
    the clock is still before the drain's deadline. *)
Record Tick := mkTick { deadlineErr : bool; beforeDeadline : bool }.

Notation P := (prog Tick drainTracker).

(** Field assignments. *)
Definition set_mu (d : drainTracker) (o : option nat) : drainTracker :=
  mkDrain o (draining d) (active d) (connections d) (heap d) (pendingHead d) (fresh d) (startedClosed d)
    (drainedClosed d) (woken d) (reserved d) (admitted d) (owing d) (holding d).
Definition set_started (d : drainTracker) : drainTracker :=
  mkDrain (mu d) true (active d) (connections d) (heap d) (pendingHead d) (fresh d) true
    (drainedClosed d) (woken d) (reserved d) (admitted d) (owing d) (holding d).
Definition set_active (d : drainTracker) (a : Z) (r : gset nat) : drainTracker :=
  mkDrain (mu d) (draining d) a (connections d) (heap d) (pendingHead d) (fresh d) (startedClosed d)
    (drainedClosed d) (woken d) r (admitted d) (owing d) (holding d).
Definition set_list (d : drainTracker) (h : gmap nat trackedConnection) (hd : option nat) : drainTracker :=
  mkDrain (mu d) (draining d) (active d) (connections d) h hd (fresh d) (startedClosed d)
    (drainedClosed d) (woken d) (reserved d) (admitted d) (owing d) (holding d).
Definition set_connections (d : drainTracker) (c : gmap Conn nat) : drainTracker :=
  mkDrain (mu d) (draining d) (active d) c (heap d) (pendingHead d) (fresh d) (startedClosed d)
    (drainedClosed d) (woken d) (reserved d) (admitted d) (owing d) (holding d).
Definition set_fresh (d : drainTracker) (n : nat) : drainTracker :=
  mkDrain (mu d) (draining d) (active d) (connections d) (heap d) (pendingHead d) n (startedClosed d)
    (drainedClosed d) (woken d) (reserved d) (admitted d) (owing d) (holding d).
Definition set_drained (d : drainTracker) : drainTracker :=
  mkDrain (mu d) (draining d) (active d) (connections d) (heap d) (pendingHead d) (fresh d) (startedClosed d)
    true (woken d) (reserved d) (admitted d) (owing d) (holding d).
Definition set_woken (d : drainTracker) (w : list Conn) : drainTracker :=
  mkDrain (mu d) (draining d) (active d) (connections d) (heap d) (pendingHead d) (fresh d) (startedClosed d)
    (drainedClosed d) w (reserved d) (admitted d) (owing d) (holding d).
Definition set_admitted (d : drainTracker) (a : gset nat) : drainTracker :=
  mkDrain (mu d) (draining d) (active d) (connections d) (heap d) (pendingHead d) (fresh d) (startedClosed d)
    (drainedClosed d) (woken d) (reserved d) a (owing d) (holding d).
Definition set_owing (d : drainTracker) (o : gset nat) : drainTracker :=
  mkDrain (mu d) (draining d) (active d) (connections d) (heap d) (pendingHead d) (fresh d) (startedClosed d)
    (drainedClosed d) (woken d) (reserved d) (admitted d) o (holding d).

Definition set_holding (d : drainTracker) (m : gmap nat Conn) : drainTracker :=
  mkDrain (mu d) (draining d) (active d) (connections d) (heap d) (pendingHead d) (fresh d) (startedClosed d)
    (drainedClosed d) (woken d) (reserved d) (admitted d) (owing d) m.

(** ** The pending list *)

Definition set_next (h : gmap nat trackedConnection) (p : nat) (o : option nat) : gmap nat trackedConnection :=
  match h !! p with
  | Some t => <[p := mkTracked (conn t) (prev t) o (pending t)]> h
  | None => h
  end.

Definition set_prev (h : gmap nat trackedConnection) (p : nat) (o : option nat) : gmap nat trackedConnection :=
  match h !! p with
  | Some t => <[p := mkTracked (conn t) o (next t) (pending t)]> h
  | None => h
  end.

(** [removePendingLocked] on the object at [p]. *)
Definition removePendingLocked (d : drainTracker) (p : nat) : drainTracker :=
  match heap d !! p with
  | None => d
  | Some t =>
      if negb (pending t) then d
      else
        let '(h, hd) := match prev t with
                        | None => (heap d, next t)
                        | Some q => (set_next (heap d) q (next t), pendingHead d)
                        end in
        let h := match next t with Some q => set_prev h q (prev t) | None => h end in
        let h := match h !! p with
                 | Some t' => <[p := mkTracked (conn t') None None false]> h
                 | None => h
                 end in
        set_list d h hd
  end.

(** The end of [accept]: link a new object in front of the list and register it. *)
Definition pushPending (d : drainTracker) (c : Conn) : drainTracker :=
  let p := fresh d in
  let h := match pendingHead d with
           | Some q => set_prev (heap d) q (Some p)
           | None => heap d
           end in
  let h := <[p := mkTracked c None (pendingHead d) true]> h in
  set_fresh (set_connections (set_list d h (Some p)) (<[c := p]> (connections d))) (S p).

(** Up to [n] objects from the front of the list, unlinked: their connections. *)
Fixpoint takeBatch (n : nat) (d : drainTracker) : drainTracker * list Conn :=
  match n with
  | O => (d, [])
  | S n' =>
      match pendingHead d with
      | None => (d, [])
      | Some p =>
          match heap d !! p with
          | None => (d, [])
          | Some t => let '(d', l) := takeBatch n' (removePendingLocked d p) in (d', conn t :: l)
          end
      end
  end.

Definition batchSize : nat := 128.

(** ** Actions *)

Definition lockA : P unit :=
  act (λ i _ d, match mu d with Some _ => None | None => Some (set_mu d (Some i), ()) end).
Definition unlockA : P unit := act (λ _ _ d, Some (set_mu d None, ())).

(** A section of straight-line code that only touches what [mu] protects. *)
Definition lockedA {A} (f : drainTracker → drainTracker * A) : P A := act (λ _ _ d, Some (f d)).

Definition loadDraining : P bool := act (λ _ _ d, Some (d, draining d)).

(** The second load of [beginHandler]: a handler is admitted when it answers false. *)
Definition loadDrainingAdmit : P bool :=
  act (λ i _ d, if draining d then Some (d, true)
                else Some (set_admitted d ({[i]} ∪ admitted d), false)).

(** [active.Add(1)] and [active.Add(-1)], with the new value. *)
Definition addActive : P Z :=
  act (λ i _ d, let a := active d +i 1 in Some (set_active d a ({[i]} ∪ reserved d), a)).
Definition subActive (owe : bool) : P Z :=
  act (λ i _ d,
    let a := active d -i 1 in
    let d := set_admitted (set_active d a (reserved d ∖ {[i]})) (admitted d ∖ {[i]}) in
    Some (if owe then set_owing d ({[i]} ∪ owing d) else d, a)).

(** [decrementActiveHandler]; [owe] when a check of the drain follows. *)
Definition decrementActiveHandler (owe : bool) : P unit :=
  remaining ← subActive owe;
  if remaining <? 0 then addActive ;; Panic else mret ().

(** [signalDrainedLocked]: three reads, then the channel is closed once. *)
Definition signalDrainedLocked : P unit :=
  dr ← act (λ i _ d, Some (if draining d then d else set_owing d (owing d ∖ {[i]}), draining d));
  if negb dr then mret ()
  else
    a ← act (λ i _ d, Some (if active d =? 0 then d else set_owing d (owing d ∖ {[i]}), active d));
    if negb (a =? 0) then mret ()
    else act (λ i _ d,
           let d := if bool_decide (connections d = ∅) then set_drained d else d in
           Some (set_owing d (owing d ∖ {[i]}), ())).

(** [stopAdmissionLocked]: [draining.Swap(true)], and [started] is closed the first time. *)
Definition stopAdmissionLocked : P unit :=
  act (λ i _ d, Some (set_owing (if draining d then d else set_started d) ({[i]} ∪ owing d), ())).

(** ** Methods *)

Inductive acceptResult := Accepted | Refused | LimitReached | DeadlineFailed.

Definition accept (c : option Conn) (maxConnections : Z) : P acceptResult :=
  match c with
  | None => mret Refused
  | Some c =>
      lockA ;;
      r ← act (λ i e d,
        if draining d then Some (d, Refused)
        else if maxConnections <=? Z.of_nat (size (connections d)) then Some (d, LimitReached)
        else if deadlineErr e then Some (d, DeadlineFailed)
        else Some (set_holding (pushPending d c) (<[i := c]> (holding d)), Accepted));
      unlockA ;;
      mret r
  end.

Definition connectionClosed (c : option Conn) : P unit :=
  match c with
  | None => mret ()
  | Some c =>
      lockA ;;
      act (λ i _ d,
        let d := match connections d !! c with Some p => removePendingLocked d p | None => d end in
        let d := set_connections d (delete c (connections d)) in
        let d := if bool_decide (holding d !! i = Some c) then set_holding d (delete i (holding d)) else d in
        Some (set_owing d ({[i]} ∪ owing d), ())) ;;
      signalDrainedLocked ;;
      unlockA
  end.

Definition beginHandler : P bool :=
  dr ← loadDraining;
  if dr : bool then mret false
  else
    n ← addActive;
    if n <=? 0 then subActive false ;; Panic
    else
      dr ← loadDrainingAdmit;
      if negb dr then mret true
      else
        decrementActiveHandler true ;;
        lockA ;;
        signalDrainedLocked ;;
        unlockA ;;
        mret false.

(** [prepareHandlerDone]: whether the handler must complete through the drain; the
    deadlines of the connection are set in between, by the environment. *)
Definition prepareHandlerDone : P bool :=
  dr ← loadDraining;
  if dr : bool then mret true
  else
    lockA ;;
    dr ← loadDraining;
    (if dr : bool then mret () else decrementActiveHandler false) ;;
    unlockA ;;
    mret dr.

Definition completeDrainingHandler : P unit :=
  lockA ;;
  dr ← loadDraining;
  if negb dr then Panic
  else
    decrementActiveHandler true ;;
    signalDrainedLocked ;;
    unlockA.

Definition stopAdmission : P unit :=
  lockA ;; stopAdmissionLocked ;; signalDrainedLocked ;; unlockA.

(** The deadlines of one batch: two calls per connection, each may fail. *)
Definition wakeRead (c : Conn) : P nat :=
  act (λ _ e d, Some (set_woken d (woken d ++ [c]), if deadlineErr e then 1%nat else 0%nat)).
Definition wakeWrite : P nat := act (λ _ e d, Some (d, if deadlineErr e then 1%nat else 0%nat)).

Fixpoint wakeBatch (batch : list Conn) (failures : nat) : P nat :=
  match batch with
  | [] => mret failures
  | c :: batch' =>
      r ← wakeRead c;
      w ← wakeWrite;
      wakeBatch batch' (failures + r + w)
  end.

(** The wake-up loop of [beginDrain]: batches of pending connections get an
    immediate read deadline until none is left, the drain completes or the deadline
    passes. The fuel bounds the number of rounds; running out of it is a panic. *)
Fixpoint wakeLoop (fuel : nat) (failures : nat) : P nat :=
  match fuel with
  | O => Panic
  | S fuel' =>
      before ← act (λ _ e d, Some (d, beforeDeadline e));
      if negb before then mret failures
      else
        done ← act (λ _ _ d, Some (d, drainedClosed d));
        if done : bool then mret failures
        else
          lockA ;;
          batch ← lockedA (λ d, takeBatch batchSize d);
          unlockA ;;
          if bool_decide (batch = []) then mret failures
          else
            failures ← wakeBatch batch failures;
            wakeLoop fuel' failures
  end.

(** [beginDrain]: the handlers and connections at the start, and the deadlines that
    could not be set. The fuel of the loop is one more than the objects allocated
    until admission stops: each round unlinks at least one of them. *)
Definition beginDrain : P (Z * nat * nat) :=
  lockA ;;
  stopAdmissionLocked ;;
  a ← act (λ _ _ d, Some (d, active d));
  '(n, objects) ← lockedA (λ d, (d, (size (connections d), size (heap d))));
  signalDrainedLocked ;;
  unlockA ;;
  failures ← wakeLoop (S objects) O;
  mret (a, n, failures).

(** [snapshot] *)
Definition snapshot : P (Z * nat) :=
  lockA ;;
  a ← act (λ _ _ d, Some (d, active d));
  n ← lockedA (λ d, (d, size (connections d)));
  unlockA ;;
  mret (a, n).

(** What a command handler does with the tracker: admission, the command,
    completion ([dispatch] and [finishHandler] of server.go). *)
Definition handler : P bool :=
  ok ← beginHandler;
  if negb ok then mret false
  else
    dr ← prepareHandlerDone;
    (if dr : bool then completeDrainingHandler else mret ()) ;;
    mret true.

(** What the goroutine of a connection does with it: it is accepted or refused,
    handles some commands, and is closed. *)
Fixpoint handlers (n : nat) : P unit :=
  match n with
  | O => mret ()
  | S n' => handler ;; handlers n'
  end.

Definition connection (c : option Conn) (maxConnections : Z) (n : nat) : P acceptResult :=
  r ← accept c maxConnections;
  match r with
  | Accepted => handlers n ;; connectionClosed c ;; mret r
  | _ => mret r
  end.

End drain.
