(* ===== verification/DrainList.v ===== *)
(** * internal/proxy: the pending list of the drain tracker

    The pointers [prev], [next] and [pendingHead] represent a list of objects. A
    push is a cons, an unlinking is a removal wherever the object is, and a batch is
    a prefix: the pointer code refines the list. *)
From stdpp Require Import prelude gmap list fin_maps.
From Stdlib Require Import ZArith Lia.
From S2P Require Import Prelude Conc Drain.

Module drainlist.
Import drain.

Notation store := (gmap nat trackedConnection).

(** The object a segment starts with, and the one it ends with. *)
Definition firstOr (l : list nat) (o : option nat) : option nat :=
  match l with [] => o | p :: _ => Some p end.
Definition lastOr (l : list nat) (o : option nat) : option nat :=
  match last l with Some p => Some p | None => o end.

(** The objects [l] are linked in this order, between [prv] and [nxt]. *)
Fixpoint seg (h : store) (prv : option nat) (l : list nat) (nxt : option nat) : Prop :=
  match l with
  | [] => True
  | p :: l' => (∃ t, h !! p = Some t ∧ pending t = true ∧ prev t = prv ∧ next t = firstOr l' nxt)
               ∧ seg h (Some p) l' nxt
  end.

Lemma lastOr_cons p l o : lastOr (p :: l) o = lastOr l (Some p).
Proof. unfold lastOr. rewrite last_cons. by destruct (last l). Qed.

Lemma lastOr_snoc l p o : lastOr (l ++ [p]) o = Some p.
Proof. unfold lastOr. by rewrite last_snoc. Qed.

Lemma firstOr_app l1 l2 o : firstOr (l1 ++ l2) o = firstOr l1 (firstOr l2 o).
Proof. by destruct l1. Qed.

Lemma seg_app h prv l1 l2 nxt :
  seg h prv (l1 ++ l2) nxt ↔ seg h prv l1 (firstOr l2 nxt) ∧ seg h (lastOr l1 prv) l2 nxt.
Proof.
  revert prv. induction l1 as [|p l1 IH]; intros prv; simpl; [tauto|].
  rewrite IH, firstOr_app, lastOr_cons. tauto.
Qed.

(** A segment only depends on its own objects. *)
Lemma seg_agree h h' prv l nxt :
  (∀ p, p ∈ l → h' !! p = h !! p) → seg h prv l nxt → seg h' prv l nxt.
Proof.
  revert prv. induction l as [|p l IH]; intros prv Ha; simpl; [done|].
  intros [Ht Hl]. rewrite Ha by left. split; [done|]. apply IH; [|done]. intros q Hq. apply Ha. by right.
Qed.

Lemma set_next_lookup h p o q :
  set_next h p o !! q = (if decide (p = q) then (λ t, mkTracked (conn t) (prev t) o (pending t)) <$> h !! q else h !! q).
Proof.
  unfold set_next. case_decide as Hpq; [subst|].
  - destruct (h !! q) eqn:E; [by rewrite lookup_insert_eq|by rewrite E].
  - destruct (h !! p); [by rewrite lookup_insert_ne|done].
Qed.

Lemma set_prev_lookup h p o q :
  set_prev h p o !! q = (if decide (p = q) then (λ t, mkTracked (conn t) o (next t) (pending t)) <$> h !! q else h !! q).
Proof.
  unfold set_prev. case_decide as Hpq; [subst|].
  - destruct (h !! q) eqn:E; [by rewrite lookup_insert_eq|by rewrite E].
  - destruct (h !! p); [by rewrite lookup_insert_ne|done].
Qed.

Lemma seg_set_next h prv l q nxt o :
  NoDup (l ++ [q]) → seg h prv (l ++ [q]) nxt → seg (set_next h q o) prv (l ++ [q]) o.
Proof.
  intros (_ & Hq & _)%NoDup_app. rewrite !seg_app. simpl. intros (Hl & (t & Ht & Hp & Hv & Hn) & _).
  split_and!; [| |done].
  - eapply seg_agree; [|exact Hl]. intros p Hp'. rewrite set_next_lookup, decide_False; [done|].
    intros ->. apply (Hq p Hp'). left.
  - rewrite set_next_lookup, decide_True by done. rewrite Ht. by eexists.
Qed.

Lemma seg_set_prev h prv l q nxt o :
  NoDup (q :: l) → seg h prv (q :: l) nxt → seg (set_prev h q o) o (q :: l) nxt.
Proof.
  intros [Hq _]%NoDup_cons. simpl. intros ((t & Ht & Hp & Hv & Hn) & Hl). split.
  - rewrite set_prev_lookup, decide_True by done. rewrite Ht. by eexists.
  - eapply seg_agree; [|exact Hl]. intros p Hp'. rewrite set_prev_lookup, decide_False; [done|]. by intros ->.
Qed.

(** The list the tracker represents, with what the map of connections points to. *)
Record represents (d : drainTracker) (l : list nat) : Prop := {
  rep_head : pendingHead d = firstOr l None;
  rep_nodup : NoDup l;
  rep_seg : seg (heap d) None l None;
  rep_pending : ∀ p t, heap d !! p = Some t → (pending t = true ↔ p ∈ l);
  rep_fresh : ∀ p t, heap d !! p = Some t → p < fresh d;
  rep_conn : ∀ c p, connections d !! c = Some p → ∃ t, heap d !! p = Some t ∧ conn t = c
}.

Lemma seg_in h prv l nxt p : seg h prv l nxt → p ∈ l → ∃ t, h !! p = Some t ∧ pending t = true.
Proof.
  revert prv. induction l as [|q l IH]; intros prv; simpl; [by intros _ ?%elem_of_nil|].
  intros [(t & Ht & Hp & _) Hl] [->|Hin]%elem_of_cons; [by eexists|by eapply IH].
Qed.

Lemma new_represents : represents newDrainTracker [].
Proof. split; try done. constructor. Qed.

(** *** A push *)

Lemma pushPending_represents d l c :
  represents d l → represents (pushPending d c) (fresh d :: l).
Proof.
  intros [Hh Hnd Hs Hp Hf Hc].
  assert (Hnf : heap d !! fresh d = None).
  { destruct (heap d !! fresh d) eqn:E; [|done]. apply Hf in E. lia. }
  assert (Hnl : fresh d ∉ l) by (intros Hin; destruct (seg_in _ _ _ _ _ Hs Hin) as (t & Ht & _); congruence).
  set (h1 := match pendingHead d with Some q => set_prev (heap d) q (Some (fresh d)) | None => heap d end).
  assert (Hl1 : ∀ q, fmap (λ t, (conn t, pending t)) (h1 !! q) = fmap (λ t, (conn t, pending t)) (heap d !! q)).
  { intros q. unfold h1. destruct (pendingHead d) as [r|]; [|done]. rewrite set_prev_lookup.
    case_decide; [|done]. by destruct (heap d !! q). }
  assert (Hs1 : seg h1 (Some (fresh d)) l None).
  { unfold h1. rewrite Hh. destruct l as [|q l]; [done|]. by eapply seg_set_prev. }
  assert (Hn1 : h1 !! fresh d = None).
  { specialize (Hl1 (fresh d)). rewrite Hnf in Hl1. by destruct (h1 !! fresh d). }
  unfold pushPending. fold h1. split; simpl.
  - done.
  - by constructor.
  - rewrite lookup_insert_eq. split; [by eexists|].
    eapply seg_agree; [|exact Hs1]. intros p Hin. apply lookup_insert_ne. by intros <-.
  - intros p t. destruct (decide (fresh d = p)) as [<-|Hne].
    + rewrite lookup_insert_eq. intros [= <-]. simpl. split; [left|done].
    + rewrite lookup_insert_ne by done. intros Ht. specialize (Hl1 p). rewrite Ht in Hl1. simpl in Hl1.
      destruct (heap d !! p) as [t'|] eqn:E; simplify_eq/=. rewrite elem_of_cons, <-(Hp p t' E).
      split; [intros; right; congruence|]. intros [->|?]; congruence.
  - intros p t. destruct (decide (fresh d = p)) as [<-|Hne]; [lia|].
    rewrite lookup_insert_ne by done. intros Ht. specialize (Hl1 p). rewrite Ht in Hl1. simpl in Hl1.
    destruct (heap d !! p) as [t'|] eqn:E; simplify_eq/=. apply Hf in E. lia.
  - intros c' p. destruct (decide (c = c')) as [<-|Hne].
    + rewrite lookup_insert_eq. intros [= <-]. rewrite lookup_insert_eq. by eexists.
    + rewrite lookup_insert_ne by done. intros (t & Ht & Hct)%Hc.
      rewrite lookup_insert_ne by (intros <-; congruence). specialize (Hl1 p). rewrite Ht in Hl1. simpl in Hl1.
      destruct (h1 !! p) as [t'|] eqn:E; simplify_eq/=. by eexists.
Qed.

(** *** An unlinking *)

(** What [removePendingLocked] does to the heap around [p]. *)
Definition unlinked (h : store) (p : nat) (prv nxt : option nat) : store :=
  let h1 := match prv with None => h | Some q => set_next h q nxt end in
  let h2 := match nxt with Some q => set_prev h1 q prv | None => h1 end in
  match h2 !! p with Some t' => <[p := mkTracked (conn t') None None false]> h2 | None => h2 end.

Lemma unlinked_lookup h p prv nxt q :
  (λ t, (conn t, pending t)) <$> unlinked h p prv nxt !! q =
  (λ t, (conn t, if decide (p = q) then false else pending t)) <$> h !! q.
Proof.
  unfold unlinked.
  set (h1 := match prv with None => h | Some r => set_next h r nxt end).
  set (h2 := match nxt with Some r => set_prev h1 r prv | None => h1 end).
  assert (H1 : ∀ q, (λ t, (conn t, pending t)) <$> h1 !! q = (λ t, (conn t, pending t)) <$> h !! q).
  { intros x. unfold h1. destruct prv; [|done]. rewrite set_next_lookup. case_decide; [|done]. by destruct (h !! x). }
  assert (H2 : ∀ q, (λ t, (conn t, pending t)) <$> h2 !! q = (λ t, (conn t, pending t)) <$> h !! q).
  { intros x. rewrite <-H1. unfold h2. destruct nxt; [|done]. rewrite set_prev_lookup. case_decide; [|done].
    by destruct (h1 !! x). }
  specialize (H2 q) as Hq. case_decide as Hpq.
  - subst q. destruct (h2 !! p) as [t'|] eqn:E; rewrite ?lookup_insert_eq, ?E; destruct (h !! p); simplify_eq/=; congruence.
  - destruct (h2 !! p) as [t'|] eqn:E; [rewrite lookup_insert_ne by done|]; apply Hq.
Qed.

Lemma firstOr_in l q : firstOr l None = Some q → q ∈ l.
Proof. destruct l; [done|]. intros [= <-]. left. Qed.

Lemma lastOr_in l q : lastOr l None = Some q → q ∈ l.
Proof. unfold lastOr. destruct (last l) eqn:E; [|done]. intros [= <-]. by apply last_Some_elem_of. Qed.

(** The two sides of [p] are linked to each other. *)
Lemma unlinked_seg h p l1 l2 :
  NoDup (l1 ++ p :: l2) → seg h None (l1 ++ p :: l2) None →
  seg (unlinked h p (lastOr l1 None) (firstOr l2 None)) None (l1 ++ l2) None.
Proof.
  intros Hnd Hs. apply seg_app in Hs as [Hs1 [_ Hs2]]. simpl in Hs1.
  apply NoDup_app in Hnd as (Hn1 & Hd & [Hp2 Hn2]%NoDup_cons).
  assert (Hp1 : p ∉ l1) by (intros Hin; apply (Hd p Hin); left).
  set (h1 := match lastOr l1 None with None => h | Some q => set_next h q (firstOr l2 None) end).
  set (h2 := match firstOr l2 None with Some q => set_prev h1 q (lastOr l1 None) | None => h1 end).
  assert (H12 : ∀ q, q ∈ l1 → q ∉ l2) by (intros q Hin Hin2; apply (Hd q Hin); by right).
  assert (Ha2 : ∀ q, q ∈ l1 → h2 !! q = h1 !! q).
  { intros q Hq. unfold h2. destruct (firstOr l2 None) as [r|] eqn:E; [|done].
    rewrite set_prev_lookup, decide_False; [done|]. intros ->. apply firstOr_in in E. by apply (H12 q). }
  assert (Ha1 : ∀ q, q ∈ l2 → h1 !! q = h !! q).
  { intros q Hq. unfold h1. destruct (lastOr l1 None) as [r|] eqn:E; [|done].
    rewrite set_next_lookup, decide_False; [done|]. intros ->. apply lastOr_in in E. by apply (H12 q). }
  assert (Hg1 : seg h1 None l1 (firstOr l2 None)).
  { unfold h1. destruct l1 as [|q l1 _] using rev_ind; [done|]. rewrite lastOr_snoc. by eapply seg_set_next. }
  assert (Hg2 : seg h2 (lastOr l1 None) l2 None).
  { eapply seg_agree in Hs2; [|exact Ha1]. unfold h2. destruct l2 as [|q l2]; [done|]. by eapply seg_set_prev. }
  assert (Hu : ∀ q, q ≠ p → unlinked h p (lastOr l1 None) (firstOr l2 None) !! q = h2 !! q).
  { intros q Hq. unfold unlinked. fold h1 h2. destruct (h2 !! p); [by rewrite lookup_insert_ne|done]. }
  apply seg_app. split.
  - eapply seg_agree; [|exact Hg1]. intros q Hq. rewrite Hu by congruence. by apply Ha2.
  - eapply seg_agree; [|exact Hg2]. intros q Hq. apply Hu. congruence.
Qed.

Lemma removePending_unlinked d l1 p l2 :
  represents d (l1 ++ p :: l2) →
  removePendingLocked d p =
    set_list d (unlinked (heap d) p (lastOr l1 None) (firstOr l2 None)) (firstOr (l1 ++ l2) None).
Proof.
  intros [Hh Hnd Hs _ _ _]. apply seg_app in Hs as [_ [(t & Ht & Hp & Hv & Hn) _]].
  unfold removePendingLocked, unlinked. rewrite Ht, Hp. cbn [negb]. rewrite Hv, Hn, Hh.
  destruct l1 as [|q l1]; [done|]. rewrite lastOr_cons. unfold lastOr at 1. rewrite firstOr_app. simpl.
  destruct (last l1) eqn:E; unfold lastOr; by rewrite E.
Qed.

Lemma removePending_absent d l p : represents d l → p ∉ l → removePendingLocked d p = d.
Proof.
  intros Hr Hp. unfold removePendingLocked. destruct (heap d !! p) as [t|] eqn:E; [|done].
  destruct (pending t) eqn:Ep; [|done]. by apply (rep_pending d l Hr p t E) in Ep.
Qed.

Lemma filter_ne_middle {A} `{EqDecision A} (l1 l2 : list A) p :
  NoDup (l1 ++ p :: l2) → filter (.≠ p) (l1 ++ p :: l2) = l1 ++ l2.
Proof.
  intros (_ & Hd & [Hp _]%NoDup_cons)%NoDup_app. rewrite filter_app, filter_cons_False by naive_solver.
  rewrite !filter_ne_not_in; [done|done|]. intros Hin. apply (Hd p Hin). left.
Qed.

Lemma removePending_represents d l p :
  represents d l → represents (removePendingLocked d p) (filter (.≠ p) l).
Proof.
  intros Hr. destruct (decide (p ∈ l)) as [Hin|Hni].
  2:{ by rewrite (removePending_absent d l p Hr Hni), filter_ne_not_in. }
  apply list_elem_of_split in Hin as (l1 & l2 & ->). rewrite (removePending_unlinked d l1 p l2 Hr).
  destruct Hr as [Hh Hnd Hs Hp Hf Hc]. rewrite filter_ne_middle by done.
  pose proof (unlinked_lookup (heap d) p (lastOr l1 None) (firstOr l2 None)) as Hu.
  assert (Hback : ∀ q t, unlinked (heap d) p (lastOr l1 None) (firstOr l2 None) !! q = Some t →
    ∃ t', heap d !! q = Some t' ∧ conn t = conn t' ∧ pending t = (if decide (p = q) then false else pending t')).
  { intros q t Ht. specialize (Hu q). rewrite Ht in Hu. destruct (heap d !! q) as [t'|]; simplify_eq/=. by eexists. }
  split; simpl.
  - done.
  - apply NoDup_app in Hnd as (? & Hd & [? ?]%NoDup_cons). apply NoDup_app. split_and!; [done| |done].
    intros q Hq Hq2. apply (Hd q Hq). by right.
  - by apply unlinked_seg.
  - intros q t (t' & Ht' & _ & ->)%Hback. pose proof Hnd as (_ & Hd & [Hp2 _]%NoDup_cons)%NoDup_app.
    case_decide as Hpq.
    + subst q. split; [done|]. rewrite elem_of_app. intros [Hin|Hin]; [|done]. destruct (Hd p Hin). left.
    + rewrite (Hp q t' Ht'), !elem_of_app, elem_of_cons. naive_solver.
  - intros q t (t' & Ht' & _)%Hback. by eapply Hf.
  - intros c q (t & Ht & <-)%Hc. specialize (Hu q). rewrite Ht in Hu. simpl in Hu.
    destruct (unlinked _ _ _ _ !! q) as [t'|]; simplify_eq/=. by eexists.
Qed.

(** An unlinking touches nothing but the list. *)
Lemma removePending_set_list d p : ∃ h hd, removePendingLocked d p = set_list d h hd.
Proof.
  assert (Hd : d = set_list d (heap d) (pendingHead d)) by (by destruct d).
  unfold removePendingLocked. destruct (heap d !! p) as [t|]; [|eauto]. destruct (pending t); [|eauto].
  cbn [negb]. destruct (prev t); eauto.
Qed.

(** *** A batch *)

Definition connAt (d : drainTracker) (p : nat) : option Conn := conn <$> heap d !! p.

Lemma removePending_connAt d p q : connAt (removePendingLocked d p) q = connAt d q.
Proof.
  unfold connAt, removePendingLocked. destruct (heap d !! p) as [t|] eqn:E; [|done].
  destruct (pending t); [|done]. cbn [negb].
  pose proof (unlinked_lookup (heap d) p (prev t) (next t) q) as Hu. unfold unlinked in Hu.
  destruct (prev t) as [r|]; simpl in *.
  all: match type of Hu with _ <$> ?x = _ <$> ?y =>
         destruct x as [t1|], y as [t2|]; simplify_eq/=; congruence end.
Qed.

Lemma takeBatch_represents n d l d' cs :
  represents d l → takeBatch n d = (d', cs) →
  represents d' (drop n l) ∧ Some <$> cs = connAt d <$> take n l ∧ ∃ h hd, d' = set_list d h hd.
Proof.
  revert d l cs. induction n as [|n IH]; intros d l cs Hr; simpl.
  { intros [= <- <-]. rewrite drop_0. split_and!; [done..|]. exists (heap d), (pendingHead d). by destruct d. }
  rewrite (rep_head d l Hr). destruct l as [|p l]; simpl.
  { intros [= <- <-]. split_and!; [done..|]. exists (heap d), (pendingHead d). by destruct d. }
  destruct (seg_in _ _ _ _ p (rep_seg _ _ Hr)) as (t & Ht & Hp); [left|]. rewrite Ht.
  destruct (takeBatch n (removePendingLocked d p)) as [d1 cs1] eqn:Hb. intros [= <- <-].
  pose proof (removePending_represents d (p :: l) p Hr) as Hr1.
  pose proof (rep_nodup _ _ Hr) as Hnd. apply (filter_ne_middle [] l p) in Hnd. simpl in Hnd. rewrite Hnd in Hr1.
  destruct (IH _ _ _ Hr1 Hb) as (H1 & H2 & h & hd & ->). split_and!; [done| |].
  - csimpl. f_equal; [unfold connAt; by rewrite Ht|]. rewrite H2. apply list_fmap_ext. intros ???.
    apply removePending_connAt.
  - destruct (removePending_set_list d p) as (h' & hd' & ->). by exists h, hd.
Qed.

End drainlist.
