(* ===== verification/DrainInv.v ===== *)
(** * internal/proxy: the invariant of the drain tracker

    What every interleaving of connections, handlers and drains keeps, what a
    goroutine may rely on, and a triple for each method. *)
From stdpp Require Import prelude gmap list fin_maps sets.
From Stdlib Require Import ZArith Lia.
From S2P Require Import Prelude Conc Drain DrainList.
Local Open Scope Z_scope.

Module draininv.
Import drain drainlist.

(** The objects still linked in the pending list. *)
Definition npending (d : drainTracker) : nat :=
  size (filter (λ pt : nat * trackedConnection, pending pt.2 = true) (heap d)).

Lemma npending_represents d l : represents d l → npending d = length l.
Proof.
  intros Hr. unfold npending. rewrite <-size_dom.
  rewrite <-(size_list_to_set (C := gset nat) l) by apply Hr.
  f_equal. apply leibniz_equiv. intros p.
  rewrite elem_of_list_to_set, elem_of_dom. split.
  - intros [t Ht]. apply map_lookup_filter_Some in Ht as [Ht Hp]. by apply (rep_pending d l Hr p t Ht).
  - intros Hin. destruct (seg_in _ _ _ _ p (rep_seg _ _ Hr) Hin) as (t & Ht & Hp). exists t.
    by apply map_lookup_filter_Some.
Qed.

Section limit.
(** The connection limit of the server. *)
Context (limit : Z).

Record inv (d : drainTracker) : Prop := {
  inv_limit : Z.of_nat (size (connections d)) <= Z.max 0 limit;
  inv_active : active d = Z.of_nat (size (reserved d));
  inv_bound : Z.of_nat (size (reserved d)) <= maxInt64;
  inv_admitted : admitted d ⊆ reserved d;
  inv_started : startedClosed d = draining d;
  inv_drained : drainedClosed d = true → draining d = true ∧ connections d = ∅ ∧ admitted d = ∅;
  (** A drain that has nothing left to wait for is signalled, or some goroutine is
      about to check. *)
  inv_signal : draining d = true → reserved d = ∅ → connections d = ∅ → drainedClosed d = false → owing d ≠ ∅;
  inv_list : ∃ l, represents d l;
  (** Every registered connection has a goroutine that will close it. *)
  inv_held : ∀ c p, connections d !! c = Some p → ∃ j, holding d !! j = Some c
}.

(** What [mu] protects. *)
Definition guarded (d : drainTracker) :=
  (draining d, connections d, heap d, (pendingHead d, fresh d, drainedClosed d)).

(** What goroutine [i] may rely on. *)
Record rely (i : nat) (s s' : drainTracker) : Prop := {
  re_mu : mu s' = Some i ↔ mu s = Some i;
  re_guarded : mu s = Some i → guarded s' = guarded s;
  re_reserved : i ∈ reserved s' ↔ i ∈ reserved s;
  re_admitted : i ∈ admitted s' ↔ i ∈ admitted s;
  re_owing : i ∈ owing s' ↔ i ∈ owing s;
  re_holding : holding s' !! i = holding s !! i;
  re_draining : draining s = true → draining s' = true ∧ admitted s' ⊆ admitted s ∧ (npending s' <= npending s)%nat
}.

Definition guar (i : nat) (s s' : drainTracker) : Prop := ∀ j, j ≠ i → rely j s s'.

(** What everybody may rely on holds of a goroutine's own actions too. *)
Lemma guar_draining i s s' :
  guar i s s' → draining s = true →
  draining s' = true ∧ admitted s' ⊆ admitted s ∧ (npending s' <= npending s)%nat.
Proof. intros Hg. apply (re_draining (S i)), Hg. lia. Qed.

#[local] Instance rely_preorder i : PreOrder (rely i).
Proof.
  split; [by split|]. intros s s1 s2 H1 H2. split.
  - rewrite (re_mu _ _ _ H2). apply (re_mu _ _ _ H1).
  - intros Hm. rewrite (re_guarded _ _ _ H2); [by apply (re_guarded _ _ _ H1)|]. by apply (re_mu _ _ _ H1).
  - rewrite (re_reserved _ _ _ H2). apply (re_reserved _ _ _ H1).
  - rewrite (re_admitted _ _ _ H2). apply (re_admitted _ _ _ H1).
  - rewrite (re_owing _ _ _ H2). apply (re_owing _ _ _ H1).
  - by rewrite (re_holding _ _ _ H2), (re_holding _ _ _ H1).
  - intros Hd. destruct (re_draining _ _ _ H1 Hd) as (Hd1 & Ha1 & Hp1).
    destruct (re_draining _ _ _ H2 Hd1) as (Hd2 & Ha2 & Hp2). split_and!; [done|set_solver|lia].
Qed.

(** The number of goroutines is below the range of the counter. *)
Definition tick_ok (s : drainTracker) (_ : Tick) : Prop := Z.of_nat (size (reserved s)) < maxInt64.

Notation triple := (hoare tick_ok inv rely guar).
Notation stable := (stableAt inv rely).

(** ** Assertions *)

(** Where goroutine [i] stands: whether it holds [mu], has a reservation, is an
    admitted handler, owes a check of the drain, and which connection is its own. *)
Definition At (i : nat) (m r a o : bool) (h : option Conn) (s : drainTracker) : Prop :=
  (mu s = Some i ↔ m = true) ∧ (i ∈ reserved s ↔ r = true) ∧ (i ∈ admitted s ↔ a = true) ∧
  (i ∈ owing s ↔ o = true) ∧ holding s !! i = h.
Definition serving (i : nat) (h : option Conn) : drainTracker → Prop := At i false false false false h.
Definition idle (i : nat) : drainTracker → Prop := serving i None.

Definition Draining (s : drainTracker) : Prop := draining s = true.

Lemma At_stable i m r a o h : stable i (At i m r a o h).
Proof.
  intros s s1 (H1 & H2 & H3 & H4 & H5) Hr _. unfold At.
  rewrite (re_holding _ _ _ Hr), (re_mu _ _ _ Hr), (re_reserved _ _ _ Hr), (re_admitted _ _ _ Hr), (re_owing _ _ _ Hr). done.
Qed.

Lemma and_stable i (Φ Ψ : drainTracker → Prop) :
  stable i Φ → stable i Ψ → stable i (λ s, Φ s ∧ Ψ s).
Proof. intros H1 H2 s s1 [Hs1 Hs2] Hr HI. split; [by eapply H1|by eapply H2]. Qed.

Lemma Draining_stable i : stable i Draining.
Proof. intros s s1 Hs Hr _. by apply (re_draining _ _ _ Hr). Qed.

Lemma impl_stable i (P : Prop) (Φ : drainTracker → Prop) : stable i Φ → stable i (λ s, P → Φ s).
Proof. intros H1 s s1 Hs Hr HI HP. eapply H1; [by apply Hs|done..]. Qed.

(** No admitted handler is left once draining. *)
Definition Emptied (s : drainTracker) : Prop := Draining s ∧ admitted s = ∅.

Lemma Emptied_stable i : stable i Emptied.
Proof.
  intros s s1 [Hd He] Hr HI. split; [by apply (Draining_stable i s)|].
  destruct (re_draining _ _ _ Hr Hd) as (_ & Ha & _). set_solver.
Qed.

(** Fewer than [n] objects are pending, and there will not be more. *)
Definition Pending (n : nat) (s : drainTracker) : Prop := Draining s ∧ (npending s < n)%nat.

Lemma Pending_stable i n : stable i (Pending n).
Proof.
  intros s s1 [Hd Hn] Hr HI. destruct (re_draining _ _ _ Hr Hd) as (Hd1 & _ & Hp). split; [done|lia].
Qed.

Lemma frame_Draining {A} i Φ (p : P A) (Ψ : A → drainTracker → Prop) :
  triple i Φ p Ψ → triple i (λ s, Φ s ∧ Draining s) p (λ a s, Ψ a s ∧ Draining s).
Proof. apply hoare_frame; [apply Draining_stable|]. intros s s' Hs Hg _. by apply (guar_draining i s s' Hg). Qed.

Lemma frame_Pending {A} i n Φ (p : P A) (Ψ : A → drainTracker → Prop) :
  triple i Φ p Ψ → triple i (λ s, Φ s ∧ Pending n s) p (λ a s, Ψ a s ∧ Pending n s).
Proof.
  apply hoare_frame; [apply Pending_stable|]. intros s s' [Hd Hn] Hg _.
  destruct (guar_draining i s s' Hg Hd) as (Hd1 & _ & Hp). split; [done|lia].
Qed.

(** Under the mutex, what it protects stays as it is. *)
Lemma locked_stable i r a o h (φ : drainTracker → Prop) :
  (∀ s s1, guarded s1 = guarded s → φ s → φ s1) → stable i (λ s, At i true r a o h s ∧ φ s).
Proof.
  intros Hφ s s1 [Ha Hs] Hr HI. split; [by eapply At_stable|].
  eapply Hφ; [|exact Hs]. apply (re_guarded _ _ _ Hr). by apply Ha.
Qed.

Lemma draining_locked_stable i r a o h b : stable i (λ s, At i true r a o h s ∧ draining s = b).
Proof. apply locked_stable. intros s s1 Hg. injection Hg. congruence. Qed.

#[local] Hint Resolve At_stable and_stable impl_stable Emptied_stable Draining_stable Pending_stable draining_locked_stable : slizen.

(** ** Actions *)

(** The state of the list does not depend on the other fields. *)
Lemma represents_same d d' :
  connections d' = connections d → heap d' = heap d → pendingHead d' = pendingHead d → fresh d' = fresh d →
  (∃ l, represents d l) → ∃ l, represents d' l.
Proof. intros H1 H2 H3 H4 [l [Ha Hb Hc Hd He Hf]]. exists l. split; rewrite ?H1, ?H2, ?H3, ?H4; done. Qed.

Lemma size_reserved_add (X : gset nat) i : i ∉ X → Z.of_nat (size ({[i]} ∪ X)) = Z.of_nat (size X) + 1.
Proof. intros Hi. rewrite size_union by set_solver. rewrite size_singleton. lia. Qed.

Lemma size_reserved_del (X : gset nat) i : i ∈ X → Z.of_nat (size (X ∖ {[i]})) = Z.of_nat (size X) - 1.
Proof.
  intros Hi. rewrite size_difference by set_solver. rewrite size_singleton.
  assert (size X ≠ 0%nat) by (intros H0; apply size_empty_inv in H0; set_solver). lia.
Qed.

(** The others see a change of what concerns goroutine [i] alone. *)
Ltac others :=
  intros j Hj; split; simpl;
  [first [done|split; congruence]
  |first [done|intros; congruence]
  |clear -Hj; set_solver|clear -Hj; set_solver|clear -Hj; set_solver
  |first [done|by apply lookup_insert_ne|by apply lookup_delete_ne]
  |first [done|congruence|intros; split_and!; [done|clear; set_solver|first [done|lia]]]].

(** The list is as it was. *)
Ltac same_list HI := eapply represents_same; [..|exact (inv_list _ HI)]; done.

Lemma map_size_insert_le (c : Conn) (p : nat) (m : gmap Conn nat) : (size (<[c := p]> m) <= S (size m))%nat.
Proof. rewrite map_size_insert. destruct (m !! c); simpl; lia. Qed.

Lemma map_size_delete_le (c : Conn) (m : gmap Conn nat) : (size (delete c m) <= size m)%nat.
Proof. rewrite map_size_delete. destruct (m !! c); simpl; lia. Qed.

Section actions.
Context (i : nat) (h : option Conn).

(** Reads change nothing. *)
Lemma h_read {A} Φ (f : Tick → drainTracker → A) (φ : A → drainTracker → Prop) :
  stable i Φ → (∀ a, stable i (λ s, Φ s ∧ φ a s)) → (∀ s e, inv s → Φ s → φ (f e s) s) →
  triple i Φ (act (λ _ e d, Some (d, f e d))) (λ a s, Φ s ∧ φ a s).
Proof.
  intros H1 H2 Hf. apply hoare_act; [done..|]. intros s e s' a HI Hs _ [= <- <-].
  split_and!; [done|by intros j _|done|by apply Hf].
Qed.

Lemma h_load Φ : stable i Φ → triple i Φ loadDraining (λ b s, Φ s ∧ (b = true → Draining s)).
Proof.
  intros H1. apply (h_read Φ (λ _ d, draining d) (λ b s, b = true → Draining s)); [done| |done].
  intros b. apply and_stable; [done|]. intros s s1 Hs Hr HI Hb. apply (Draining_stable i s); [by apply Hs|done..].
Qed.

Lemma h_loadLocked r a o :
  triple i (At i true r a o h) loadDraining (λ b s, At i true r a o h s ∧ draining s = b).
Proof. apply (h_read _ (λ _ d, draining d) (λ b s, draining s = b)); eauto with slizen. Qed.

Lemma h_lock r a o : triple i (At i false r a o h) lockA (λ _, At i true r a o h).
Proof.
  apply hoare_act; [auto with slizen..|]. intros s e s' [] HI (H1 & H2) _ Hf.
  destruct (mu s) eqn:Hm; simplify_eq. split_and!; [|others|].
  - split; try apply HI. same_list HI.
  - split; simpl; [tauto|done].
Qed.

Lemma h_unlock r a o : triple i (At i true r a o h) unlockA (λ _, At i false r a o h).
Proof.
  apply hoare_act; [auto with slizen..|]. intros s e s' [] HI (H1 & H2) _ Hf.
  simplify_eq. assert (Hm : mu s = Some i) by tauto. split_and!; [|others|].
  - split; try apply HI. same_list HI.
  - split; simpl; [naive_solver|done].
Qed.

Lemma h_add a o :
  triple i (At i false false a o h) addActive (λ n s, At i false true a o h s ∧ 0 < n).
Proof.
  apply hoare_act; [auto with slizen| |].
  { intros n. apply and_stable; [auto with slizen|]. by intros s s1. }
  intros s e s' n HI (H1 & H2 & H3 & H4 & H5) He Hf. cbv beta zeta in Hf. injection Hf as <- <-. unfold tick_ok in He.
  assert (Hi : i ∉ reserved s) by (rewrite H2; done).
  pose proof (inv_active s HI) as Hact. pose proof (size_reserved_add (reserved s) i Hi) as Hsz.
  assert (Hr : active s +i 1 = active s + 1) by (apply i64_id; width_lia). rewrite Hr. split_and!.
  - split; simpl; try apply HI; try lia; [|set_solver|same_list HI]. pose proof (inv_admitted s HI). set_solver.
  - others.
  - clear -H1 H2 H3 H4 H5. split; simpl; [done|]. set_solver.
  - lia.
Qed.

Lemma h_admit :
  triple i (At i false true false false h) loadDrainingAdmit
    (λ b s, At i false true (negb b) false h s ∧ (b = true → Draining s)).
Proof.
  apply hoare_act; [auto with slizen| |].
  { intros b. apply and_stable; [auto with slizen|]. intros s s1 Hs Hr HI Hb. apply (Draining_stable i s); [by apply Hs|done..]. }
  intros s e s' b HI (H1 & H2 & H3 & H4 & H5) _ Hf. destruct (draining s) eqn:Hd; injection Hf as <- <-.
  - split_and!; [done|by intros j _| |done]. by split.
  - split_and!; [| | |done].
    + split; simpl; try apply HI; [| |same_list HI].
      * apply union_subseteq. split; [|apply HI]. apply singleton_subseteq_l. by apply H2.
      * intros Hc. destruct (inv_drained s HI Hc). congruence.
    + others.
    + clear -H1 H2 H3 H4 H5. split; simpl; [done|]. set_solver.
Qed.

(** A decrement that leaves a check to do, and one outside a drain. *)
Lemma h_sub_owe m a o :
  triple i (At i m true a o h) (subActive true) (λ n s, At i m false false true h s ∧ 0 <= n).
Proof.
  apply hoare_act; [auto with slizen| |].
  { intros n. apply and_stable; [auto with slizen|]. by intros s s1. }
  intros s e s' n HI (H1 & H2 & H3 & H4 & H5) He Hf. cbv beta zeta in Hf. injection Hf as <- <-.
  assert (Hi : i ∈ reserved s) by (rewrite H2; done).
  pose proof (inv_active s HI) as Hact. pose proof (inv_bound s HI) as Hb.
  pose proof (size_reserved_del (reserved s) i Hi) as Hsz.
  assert (Hr : active s -i 1 = active s - 1) by (apply i64_id; width_lia). rewrite Hr. split_and!.
  - pose proof (inv_admitted s HI). split; simpl; try apply HI; try lia; [set_solver| |set_solver|same_list HI].
    intros Hc. destruct (inv_drained s HI Hc) as (? & ? & ->). split_and!; [done..|]. set_solver.
  - others.
  - clear -H1 H2 H3 H4 H5. split; simpl; [done|]. set_solver.
  - lia.
Qed.

Lemma h_sub a o :
  triple i (λ s, At i true true a o h s ∧ draining s = false) (subActive false)
    (λ n s, At i true false false o h s ∧ 0 <= n).
Proof.
  apply hoare_act; [auto with slizen| |].
  { intros n. apply and_stable; [auto with slizen|]. by intros s s1. }
  intros s e s' n HI [(H1 & H2 & H3 & H4 & H5) Hnd] He Hf. cbv beta zeta in Hf. injection Hf as <- <-.
  assert (Hi : i ∈ reserved s) by (rewrite H2; done).
  pose proof (inv_active s HI) as Hact. pose proof (inv_bound s HI) as Hb.
  pose proof (size_reserved_del (reserved s) i Hi) as Hsz.
  assert (Hr : active s -i 1 = active s - 1) by (apply i64_id; width_lia). rewrite Hr. split_and!.
  - pose proof (inv_admitted s HI). split; simpl; try apply HI; try lia; [set_solver| |congruence|same_list HI].
    intros Hc. destruct (inv_drained s HI Hc). congruence.
  - others.
  - clear -H1 H2 H3 H4 H5. split; simpl; [done|]. set_solver.
  - lia.
Qed.

Lemma h_decrement_owe m a o :
  triple i (At i m true a o h) (decrementActiveHandler true) (λ _, At i m false false true h).
Proof.
  eapply hoare_bind; [apply _|apply h_sub_owe|]. intros n s HI [Hs Hn].
  destruct (n <? 0) eqn:E; ztests; [lia|]. by apply (hoare_ret _ _ _ _ i () (λ _, At i m false false true h)); [apply At_stable|..].
Qed.

Lemma h_decrement a o :
  triple i (λ s, At i true true a o h s ∧ draining s = false) (decrementActiveHandler false)
    (λ _, At i true false false o h).
Proof.
  eapply hoare_bind; [apply _|apply h_sub|]. intros n s HI [Hs Hn].
  destruct (n <? 0) eqn:E; ztests; [lia|]. by apply (hoare_ret _ _ _ _ i () (λ _, At i true false false o h)); [apply At_stable|..].
Qed.

(** [signalDrainedLocked] pays the check the goroutine owes. *)
Lemma h_signal r a : triple i (At i true r a true h) signalDrainedLocked (λ _, At i true r a false h).
Proof.
  eapply hoare_bind; [apply _| |intros dr].
  { apply (hoare_act _ _ _ _ i _ _ (λ dr s, At i true r a dr h s ∧ (dr = true → Draining s)));
      [auto with slizen..|].
    intros s e s' b HI (H1 & H2 & H3 & H4 & H5) _ Hf. injection Hf as <- <-.
    destruct (draining s) eqn:Hd; [split_and!; [done|by intros j _|done..]|].
    split_and!; [|others|split; simpl; [done|clear -H1 H2 H3 H4 H5; set_solver]|done].
    split; simpl; try apply HI; [congruence|same_list HI]. }
  destruct dr; cbn [negb].
  2:{ eapply hoare_pre; [apply (hoare_ret _ _ _ _ i () (λ _, At i true r a false h)); auto with slizen|by intros s _ [? _]]. }
  eapply hoare_bind; [apply _| |intros n].
  { apply (hoare_act _ _ _ _ i _ _ (λ n s, At i true r a (n =? 0) h s ∧ (n = 0 → Emptied s))); [auto with slizen..|].
    intros s e s' n HI [(H1 & H2 & H3 & H4 & H5) Hd] _ Hf. injection Hf as <- <-.
      pose proof (inv_active s HI) as Hact. destruct (active s =? 0) eqn:E; ztests.
      + split_and!; [done|by intros j _|done|]. intros _. split; [by apply Hd|].
        assert (reserved s = ∅) by (apply leibniz_equiv, size_empty_inv; lia).
        pose proof (inv_admitted s HI). set_solver.
      + split_and!; [|others|split; simpl; [done|clear -H1 H2 H3 H4 H5; set_solver]|done].
        split; simpl; try apply HI; [|same_list HI]. intros _ Hz. rewrite Hz, size_empty in Hact. lia. }
  cbv beta. destruct (n =? 0) eqn:E; cbn [negb]; ztests.
  2:{ eapply hoare_pre; [apply (hoare_ret _ _ _ _ i () (λ _, At i true r a false h)); auto with slizen|by intros s _ [? _]]. }
  apply hoare_act; [auto with slizen..|].
  intros s e s' [] HI [(H1 & H2 & H3 & H4 & H5) Hd] _ Hf. cbv beta zeta in Hf. injection Hf as <-.
  assert (Hm : mu s = Some i) by (by apply H1).
  destruct (Hd E) as [Hdr Hadm]. case_bool_decide as Hc.
  - split_and!; [|others|split; simpl; [done|clear -H1 H2 H3 H4 H5; set_solver]].
    split; simpl; try apply HI; [done|done|same_list HI].
  - split_and!; [|others|split; simpl; [done|clear -H1 H2 H3 H4 H5; set_solver]].
    split; simpl; try apply HI; [done|same_list HI].
Qed.

Lemma h_stopAdmissionLocked r a o :
  triple i (At i true r a o h) stopAdmissionLocked (λ _ s, At i true r a true h s ∧ Draining s).
Proof.
  apply hoare_act; [auto with slizen..|]. intros s e s' [] HI (H1 & H2 & H3 & H4 & H5) _ Hf. injection Hf as <-.
  assert (Hm : mu s = Some i) by (by apply H1).
  destruct (draining s) eqn:Hd.
  - split_and!; [|others|split; simpl; [done|clear -H1 H2 H3 H4 H5; set_solver]|done].
    split; simpl; try apply HI; [set_solver|same_list HI].
  - split_and!; [|others|split; simpl; [done|clear -H1 H2 H3 H4 H5; set_solver]|done].
    split; simpl; try apply HI; [done| |set_solver|same_list HI].
    intros Hc. destruct (inv_drained s HI Hc). congruence.
Qed.

(** The body of [accept]. *)
Lemma h_accept c :
  triple i (At i true false false false None)
    (act (λ i e d, if draining d then Some (d, Refused)
        else if limit <=? Z.of_nat (size (connections d)) then Some (d, LimitReached)
        else if deadlineErr e then Some (d, DeadlineFailed)
        else Some (set_holding (pushPending d c) (<[i := c]> (holding d)), Accepted)))
    (λ x, At i true false false false (match x with Accepted => Some c | _ => None end)).
Proof.
  apply hoare_act; [auto with slizen..|]. intros s e s' x HI Hs _ Hf.
  destruct (draining s) eqn:Hd; [injection Hf as <- <-; split_and!; [done|by intros j _|done..]|].
  destruct (limit <=? _) eqn:El; [injection Hf as <- <-; split_and!; [done|by intros j _|done..]|].
  destruct (deadlineErr e); [injection Hf as <- <-; split_and!; [done|by intros j _|done..]|].
  injection Hf as <- <-. destruct Hs as (H1 & H2 & H3 & H4 & H5).
  assert (Hm : mu s = Some i) by (by apply H1).
  split_and!; [|others|split; simpl; [done|]; split_and!; [done..|apply lookup_insert_eq]].
  split; simpl; try apply HI.
  - ztests. pose proof (map_size_insert_le c (fresh s) (connections s)). lia.
  - intros Hc. destruct (inv_drained s HI Hc). congruence.
  - congruence.
  - destruct (inv_list s HI) as [l Hl]. apply (represents_same (pushPending s c)); [done..|].
    eexists. by apply pushPending_represents.
  - intros c' p Hc. destruct (decide (c' = c)) as [->|Hne]; [exists i; apply lookup_insert_eq|].
    rewrite lookup_insert_ne in Hc by done. destruct (inv_held s HI c' p Hc) as [j Hj]. exists j.
    rewrite lookup_insert_ne; [done|]. intros ->. congruence.
Qed.

(** The body of [connectionClosed]: the object is unlinked, the connection forgotten. *)
Lemma remove_and_forget d l c :
  represents d l →
  let d1 := match connections d !! c with Some p => removePendingLocked d p | None => d end in
  (∃ h hd, d1 = set_list d h hd) ∧
  ∃ l', represents (set_connections d1 (delete c (connections d1))) l' ∧ (length l' <= length l)%nat.
Proof.
  intros Hr d1.
  assert (H1 : (∃ h hd, d1 = set_list d h hd) ∧ ∃ l', represents d1 l' ∧ (length l' <= length l)%nat).
  { unfold d1. destruct (connections d !! c) as [p|].
    - split; [apply removePending_set_list|]. eexists. split; [by apply removePending_represents|apply length_filter].
    - split; [exists (heap d), (pendingHead d); by destruct d|]. by eexists. }
  destruct H1 as [Hd (l' & [Ha Hb Hc He Hf Hg] & Hlen)]. split; [done|]. exists l'. split; [|done].
  split; simpl; try done. intros c' p [_ Hp]%lookup_delete_Some. by apply Hg.
Qed.

Lemma h_forget c :
  triple i (At i true false false false (Some c))
    (act (λ i _ d,
        let d := match connections d !! c with Some p => removePendingLocked d p | None => d end in
        let d := set_connections d (delete c (connections d)) in
        let d := if bool_decide (holding d !! i = Some c) then set_holding d (delete i (holding d)) else d in
        Some (set_owing d ({[i]} ∪ owing d), ())))
    (λ _, At i true false false true None).
Proof.
  apply hoare_act; [auto with slizen..|]. intros s e s' [] HI (H1 & H2 & H3 & H4 & H5) _ Hf.
  assert (Hm : mu s = Some i) by (by apply H1).
  destruct (inv_list s HI) as [l Hl]. destruct (remove_and_forget s l c Hl) as ((hp & hd & Hd) & l' & Hl' & Hlen).
  cbv beta zeta in Hf. rewrite Hd in *. simpl in Hf. rewrite bool_decide_true in Hf by done. injection Hf as <-.
  set (d' := set_owing _ _).
  assert (Hrep : represents d' l') by (by destruct Hl'; split).
  assert (Hnp : (npending d' <= npending s)%nat) by (apply npending_represents in Hl, Hrep; lia).
  split_and!.
  - split; simpl; try apply HI; [| |clear; set_solver|by exists l'|].
    + pose proof (inv_limit s HI). pose proof (map_size_delete_le c (connections s)). lia.
    + intros Hc. destruct (inv_drained s HI Hc) as (? & He & ?). split_and!; [done| |done].
      simpl. rewrite He. apply delete_empty.
    + intros c' p [Hne Hc]%lookup_delete_Some. destruct (inv_held s HI c' p Hc) as [j Hj]. exists j.
      rewrite lookup_delete_ne; [done|]. intros ->. congruence.
  - clear - Hm Hnp. others.
  - clear - H1 H2 H3 H4. split; simpl; [done|]. split_and!; [set_solver..|apply lookup_delete_eq].
Qed.

(** A batch shortens the pending list. *)
Lemma h_batch n :
  triple i (λ s, At i true false false false h s ∧ Pending (S n) s) (lockedA (λ d, takeBatch batchSize d))
    (λ batch s, At i true false false false h s ∧ (batch ≠ [] → Pending n s)).
Proof.
  apply hoare_act.
  { apply and_stable; [auto with slizen|apply Pending_stable]. }
  { intros b. apply and_stable; [auto with slizen|]. intros s s1 Hs Hr HI Hb. by eapply Pending_stable; [apply Hs|..]. }
  intros s e s' batch HI [(H1 & H2 & H3 & H4 & H5) [Hdr Hn]] _ Hf. apply Some_inj in Hf.
  assert (Hm : mu s = Some i) by (by apply H1).
  destruct (inv_list s HI) as [l Hl].
  destruct (takeBatch_represents batchSize s l s' batch Hl Hf) as (Hr & Hb & hp & hd & ->).
  apply npending_represents in Hl as Hlen. apply npending_represents in Hr as Hlen'. rewrite length_drop in Hlen'.
  split_and!; [| |done|].
  - split; simpl; try apply HI. by eexists.
  - others.
  - intros Hne. split; [done|]. assert (length batch ≠ 0%nat) by (by destruct batch).
    apply (f_equal length) in Hb. rewrite !length_fmap, length_take in Hb.
    assert (batchSize ≠ 0%nat) by done. lia.
Qed.

End actions.

(** ** Methods: each leaves its goroutine idle, and none panics *)
Ltac bind l := eapply hoare_bind; [apply _|apply l|intros ?].

Section methods.
Context (i : nat) (h : option Conn).

Lemma h_ret {A} (a : A) (Ψ : A → drainTracker → Prop) : stable i (Ψ a) → triple i (Ψ a) (mret a) Ψ.
Proof. apply hoare_ret. Qed.

(** Give up the mutex and return. *)
Lemma h_unlock_ret {A} r a o (x : A) :
  triple i (At i true r a o h) (unlockA ≫= λ _, mret x) (λ _, At i false r a o h).
Proof.
  eapply hoare_bind; [apply _|apply h_unlock|]. intros ?. apply (h_ret x (λ _, At i false r a o h)). auto with slizen.
Qed.

Lemma h_signal_unlock r a : triple i (At i true r a true h) (signalDrainedLocked ≫= λ _, unlockA) (λ _, At i false r a false h).
Proof. bind h_signal. apply h_unlock. Qed.

Definition accepted (c : option Conn) (x : acceptResult) : option Conn :=
  match x with Accepted => c | _ => None end.

Lemma h_accept_method c : triple i (idle i) (accept c limit) (λ x, serving i (accepted c x)).
Proof.
  destruct c as [c|]; [|apply (h_ret Refused (λ x, serving i (accepted None x))); apply At_stable].
  bind h_lock. bind h_accept. bind h_unlock.
  apply (h_ret a0 (λ x, serving i (accepted (Some c) x))). apply At_stable.
Qed.

Lemma h_connectionClosed c : triple i (serving i c) (connectionClosed c) (λ _, idle i).
Proof.
  destruct c as [c|]; [|apply (h_ret _ (λ _, idle i)); apply At_stable].
  bind h_lock. bind h_forget. bind h_signal. apply h_unlock.
Qed.

(** An admitted handler has a reservation; a refused one has nothing. *)
Lemma h_beginHandler : triple i (serving i h) beginHandler (λ ok, At i false ok ok false h).
Proof.
  bind h_load. { apply At_stable. }
  destruct a; [eapply hoare_pre; [apply (h_ret false (λ ok, At i false ok ok false h)); apply At_stable|by intros s _ [? _]]|].
  eapply hoare_bind; [apply _|eapply hoare_pre; [apply h_add|by intros s _ [? _]]|intros n].
  intros s HI [Hs Hn]. revert s HI Hs. destruct (n <=? 0) eqn:E; ztests; [lia|].
  bind h_admit. destruct a; cbn [negb].
  - eapply hoare_bind; [apply _|eapply hoare_pre; [apply (h_decrement_owe i h false false false)|by intros s _ [? _]]|intros ?].
    bind h_lock. bind h_signal. bind h_unlock. apply (h_ret false (λ ok, At i false ok ok false h)). apply At_stable.
  - eapply hoare_pre; [apply (h_ret true (λ ok, At i false ok ok false h)); apply At_stable|by intros s _ [? _]].
Qed.

Lemma h_prepareHandlerDone :
  triple i (At i false true true false h) prepareHandlerDone (λ dr s, At i false dr dr false h s ∧ (dr = true → Draining s)).
Proof.
  assert (Hst : ∀ dr, stable i (λ s, At i false dr dr false h s ∧ (dr = true → Draining s))) by auto with slizen.
  bind h_load. { apply At_stable. }
  destruct a; [by apply (h_ret true (λ dr s, At i false dr dr false h s ∧ (dr = true → Draining s)))|].
  eapply hoare_bind; [apply _|eapply hoare_pre; [apply h_lock|by intros s _ [? _]]|intros []].
  eapply hoare_bind; [apply _|apply h_loadLocked|intros dr].
  eapply (hoare_bind _ _ _ _ _ _ _ _ (λ _ s, At i true dr dr false h s ∧ (dr = true → Draining s))).
  - destruct dr.
    + eapply hoare_pre; [apply (h_ret () (λ _ s, At i true true true false h s ∧ (true = true → Draining s)))|].
      * auto with slizen.
      * by intros s _ [? ?].
    + eapply hoare_conseq; [apply (h_decrement i h true false)|done|by intros [] s _ ?].
  - intros _. eapply (hoare_bind _ _ _ _ _ _ _ _ (λ _ s, At i false dr dr false h s ∧ (dr = true → Draining s))).
    { destruct dr.
      - eapply hoare_conseq; [apply frame_Draining, h_unlock|naive_solver|by intros ? s _ [? ?]].
      - eapply hoare_conseq; [apply h_unlock|by intros s _ [? _]|done]. }
    intros ?. by apply (h_ret dr (λ dr s, At i false dr dr false h s ∧ (dr = true → Draining s))).
Qed.

Lemma h_completeDrainingHandler :
  triple i (λ s, At i false true true false h s ∧ Draining s) completeDrainingHandler (λ _, serving i h).
Proof.
  eapply hoare_bind; [apply _|apply frame_Draining, h_lock|intros ?].
  eapply hoare_bind; [apply _| |intros dr].
  { apply (h_read i _ (λ _ d, draining d) (λ b _, b = true)); [auto with slizen| |by intros s e _ [_ ?]].
    intros b. apply and_stable; [auto with slizen|]. by intros s s1. }
  destruct dr; cbn [negb]; [|by intros s _ [_ ?]].
  eapply hoare_bind; [apply _|eapply hoare_pre; [apply (h_decrement_owe i h true true false)|by intros s _ [[? _] _]]|intros ?].
  apply h_signal_unlock.
Qed.

Lemma h_handler : triple i (serving i h) handler (λ _, serving i h).
Proof.
  bind h_beginHandler. destruct a; cbn [negb]; [|apply (h_ret false (λ _, serving i h)); apply At_stable].
  bind h_prepareHandlerDone. eapply (hoare_bind _ _ _ _ _ _ _ _ (λ _, serving i h)).
  - destruct a.
    + eapply hoare_pre; [apply h_completeDrainingHandler|]. intros s _ [? Hd]. split; [done|by apply Hd].
    + eapply hoare_pre; [apply (h_ret () (λ _, serving i h)); apply At_stable|by intros s _ [? _]].
  - intros ?. apply (h_ret true (λ _, serving i h)). apply At_stable.
Qed.

Lemma h_handlers n : triple i (serving i h) (handlers n) (λ _, serving i h).
Proof.
  induction n as [|n IH]; cbn [handlers]; [apply (h_ret () (λ _, serving i h)); apply At_stable|].
  eapply hoare_bind; [apply _|apply h_handler|]. intros ?. apply IH.
Qed.

End methods.

Section methods.
Context (i : nat).

Lemma h_connection c n : triple i (idle i) (connection c limit n) (λ _, idle i).
Proof.
  bind h_accept_method. destruct a; try (apply (h_ret i _ (λ _, idle i)); apply At_stable).
  bind h_handlers. bind h_connectionClosed. apply (h_ret i _ (λ _, idle i)). apply At_stable.
Qed.

Lemma h_stopAdmission : triple i (idle i) stopAdmission (λ _, idle i).
Proof.
  bind h_lock. bind h_stopAdmissionLocked. eapply hoare_pre; [apply h_signal_unlock|by intros s _ [? _]].
Qed.

(** *** The wake-up loop *)

Lemma h_wakeBatch n batch failures :
  triple i (λ s, idle i s ∧ Pending n s) (wakeBatch batch failures) (λ _ s, idle i s ∧ Pending n s).
Proof.
  assert (Hst : stable i (λ s, idle i s ∧ Pending n s)) by (apply and_stable; [apply At_stable|apply Pending_stable]).
  revert failures. induction batch as [|c batch IH]; intros failures; cbn [wakeBatch].
  { by apply (h_ret i failures (λ _ s, idle i s ∧ Pending n s)). }
  eapply (hoare_bind _ _ _ _ _ _ _ _ (λ _ s, idle i s ∧ Pending n s)).
  { apply hoare_act; [done..|]. intros s e s' r HI Hs _ [= <- <-]. split_and!; [|others|apply Hs..].
    split; simpl; try apply HI. same_list HI. }
  intros r. eapply (hoare_bind _ _ _ _ _ _ _ _ (λ _ s, idle i s ∧ Pending n s)); [|intros w; apply IH].
  apply hoare_act; [done..|]. intros s e s' w HI Hs _ [= <- <-]. split_and!; [done|by intros j _|apply Hs..].
Qed.

(** Every round with a batch shortens the list, so the fuel is enough. *)
Lemma h_wakeLoop n failures :
  triple i (λ s, idle i s ∧ Pending n s) (wakeLoop n failures) (λ _, idle i).
Proof.
  revert failures. induction n as [|n IH]; intros failures; [by intros s _ [_ [_ ?%Nat.nlt_0_r]]|].
  assert (Hst : stable i (λ s, idle i s ∧ Pending (S n) s)) by (apply and_stable; [apply At_stable|apply Pending_stable]).
  assert (Hread : ∀ f : Tick → drainTracker → bool,
    triple i (λ s, idle i s ∧ Pending (S n) s) (act (λ _ e d, Some (d, f e d))) (λ _ s, idle i s ∧ Pending (S n) s)).
  { intros f. apply hoare_act; [done..|]. intros s e s' b HI Hs _ [= <- <-]. split_and!; [done|by intros j _|apply Hs..]. }
  assert (Hend : ∀ x : nat, triple i (λ s, idle i s) (mret x) (λ _, idle i)).
  { intros x. apply (h_ret i x (λ _, idle i)). apply At_stable. }
  cbn [wakeLoop]. eapply hoare_bind; [apply _|apply Hread|]. intros before.
  destruct before; cbn [negb]; [|eapply hoare_pre; [apply Hend|by intros s _ [? _]]].
  eapply hoare_bind; [apply _|apply (Hread (λ _ d, drainedClosed d))|]. intros closed.
  destruct closed; [eapply hoare_pre; [apply Hend|by intros s _ [? _]]|].
  eapply hoare_bind; [apply _|apply frame_Pending, h_lock|intros ?].
  bind h_batch.
  destruct (decide (a0 = [])) as [->|Hne].
  { eapply hoare_bind; [apply _|eapply hoare_pre; [apply h_unlock|by intros s _ [? _]]|intros ?; apply Hend]. }
  eapply hoare_bind; [apply _|eapply hoare_pre; [apply (frame_Pending i n), h_unlock|naive_solver]|].
  intros ?. rewrite bool_decide_false by done.
  eapply hoare_bind; [apply _|apply h_wakeBatch|intros f; apply IH].
Qed.

Lemma npending_objects d : (npending d < S (size (heap d)))%nat.
Proof. unfold npending. apply Nat.lt_succ_r, map_size_filter. Qed.

Lemma h_beginDrain : triple i (idle i) beginDrain (λ _, idle i).
Proof.
  bind h_lock. bind h_stopAdmissionLocked.
  assert (Hst : stable i (λ s, At i true false false true None s ∧ Draining s)) by auto with slizen.
  eapply (hoare_bind _ _ _ _ _ _ _ _ (λ _ s, At i true false false true None s ∧ Draining s)).
  { apply hoare_act; [done..|]. intros s e s' b HI Hs _ [= <- <-]. split_and!; [done|by intros j _|apply Hs..]. }
  intros act0. eapply (hoare_bind _ _ _ _ _ _ _ _ (λ nm s, At i true false false true None s ∧ Pending (S nm.2) s)).
  { apply hoare_act; [done| |].
    - intros nm. apply and_stable; [apply At_stable|apply Pending_stable].
    - intros s e s' b HI [Ha Hd] _ [= <- <-]. split; [done|]. split; [by intros j _|]. split; [done|]. split; [done|apply npending_objects]. }
  intros [n objects]. cbn [snd].
  eapply hoare_bind; [apply _|apply frame_Pending, h_signal|intros ?].
  eapply hoare_bind; [apply _|apply frame_Pending, h_unlock|intros ?].
  bind h_wakeLoop. apply (h_ret i _ (λ _, idle i)). apply At_stable.
Qed.

Lemma h_snapshot : triple i (idle i) snapshot (λ _, idle i).
Proof.
  bind h_lock. do 2 (eapply (hoare_bind _ _ _ _ _ _ _ _ (λ _, At i true false false false None));
    [apply hoare_act; [auto with slizen..|]; intros s e s' b HI Hs _ [= <- <-];
     split_and!; [done|by intros j _|apply Hs..]|intros ?]).
  apply h_unlock_ret.
Qed.

End methods.
End limit.
End draininv.
