(* ===== verification/DrainProps.v ===== *)
(** * internal/proxy: the drain contract

    Connections, command handlers, drains and snapshots run as goroutines that
    interleave in every way. The drain signal is given only when nothing is left,
    it is never lost, and no interleaving panics. *)
From stdpp Require Import prelude gmap list fin_maps sets.
From Stdlib Require Import ZArith Lia.
From S2P Require Import Prelude Conc Drain DrainList DrainInv.
Local Open Scope Z_scope.

Module drainpool.
Import drain drainlist draininv.

(** The goroutines that use the tracker: a connection with some commands, the two
    ways to stop, and the administrative snapshot. *)
Inductive call :=
  | CConnection (c : option Conn) (n : nat)
  | CStop
  | CDrain
  | CSnapshot.

Definition run (limit : Z) (x : call) : P unit :=
  match x with
  | CConnection c n => connection c limit n ;; mret ()
  | CStop => stopAdmission
  | CDrain => beginDrain ;; mret ()
  | CSnapshot => snapshot ;; mret ()
  end.

Inductive arrive (limit : Z) : drainTracker → drainTracker → P unit → Prop :=
  | arrive_call d x : arrive limit d d (run limit x).

Definition reached (limit : Z) (c : drainTracker * list (P unit)) : Prop :=
  preachable tick_ok (arrive limit) newDrainTracker c.

(** Every goroutine has returned. *)
Definition quiet (ps : list (P unit)) : Prop := ∀ i p, ps !! i = Some p → p = Ret ().

Lemma run_idle limit i x : hoare tick_ok (inv limit) rely guar i (idle i) (run limit x) (λ _, idle i).
Proof.
  assert (Hret : ∀ A (p : P A), hoare tick_ok (inv limit) rely guar i (idle i) p (λ _, idle i) →
    hoare tick_ok (inv limit) rely guar i (idle i) (p ≫= λ _, mret ()) (λ _, idle i)).
  { intros A p Hp. eapply hoare_bind; [apply rely_preorder|exact Hp|]. intros ?.
    apply (hoare_ret _ _ _ _ i () (λ _, idle i)). apply At_stable. }
  destruct x; cbn [run].
  - apply Hret, h_connection.
  - apply h_stopAdmission.
  - apply Hret, h_beginDrain.
  - apply Hret, h_snapshot.
Qed.

Lemma new_inv limit : inv limit newDrainTracker.
Proof. split; try done; [simpl; rewrite map_size_empty; lia|]. exists []. apply new_represents. Qed.

Lemma drain_reached_ok limit c :
  reached limit c → pool_ok tick_ok (inv limit) rely guar idle (λ i _, idle i) c.
Proof.
  apply preachable_ok.
  - apply rely_preorder.
  - intros i j s s' Hij Hg. by apply Hg.
  - intros j. apply At_stable.
  - intros s s' p i HI HJ Ha. destruct Ha as [s x]. split_and!; [done|intros j; by apply rely_preorder|].
    by apply run_idle.
  - apply new_inv.
  - intros j. split; simpl; [done|]. set_solver.
Qed.

Lemma drain_reached_inv limit d ps : reached limit (d, ps) → inv limit d.
Proof. intros Hr. by destruct (drain_reached_ok limit _ Hr). Qed.

(** In a quiet pool no goroutine holds or owes anything. *)
Lemma quiet_idle limit d ps i : reached limit (d, ps) → quiet ps → idle i d.
Proof.
  intros Hr Hq. destruct (drain_reached_ok limit _ Hr) as (HI & HJ & Hp). simpl in *.
  destruct (ps !! i) as [p|] eqn:Hi.
  - pose proof (Hp i p Hi) as Hs. rewrite (Hq i p Hi) in Hs. apply Hs; [by apply rely_preorder|done].
  - apply HJ. by apply lookup_ge_None.
Qed.

(** When nobody is busy, a started drain is complete. *)
Lemma all_idle_drained limit d :
  inv limit d → (∀ i, idle i d) → draining d = true →
  drainedClosed d = true ∧ connections d = ∅ ∧ active d = 0.
Proof.
  intros HI Hid Hd.
  assert (Hres : reserved d = ∅).
  { apply leibniz_equiv, elem_of_equiv_empty. intros i Hi. destruct (Hid i) as (_ & H & _). by apply H in Hi. }
  assert (How : owing d = ∅).
  { apply leibniz_equiv, elem_of_equiv_empty. intros i Hi. destruct (Hid i) as (_ & _ & _ & H & _). by apply H in Hi. }
  assert (Hc : connections d = ∅).
  { apply map_empty. intros c. destruct (connections d !! c) as [p|] eqn:E; [|done].
    destruct (inv_held _ d HI c p E) as [j Hj]. destruct (Hid j) as (_ & _ & _ & _ & H). congruence. }
  split_and!; [|done|by rewrite (inv_active _ d HI), Hres, size_empty].
  destruct (drainedClosed d) eqn:E; [done|]. by destruct (inv_signal _ d HI Hd Hres Hc E).
Qed.

(** ** A concrete run: a connection, a handler that overlaps a drain *)

Definition demoTick : Tick := mkTick false true.

Definition demoRun (d : drainTracker) (i : nat) (p : P unit) (fuel : nat) : drainTracker * P unit :=
  runAlone (λ s, if Z.of_nat (size (reserved s)) <? maxInt64 then Some demoTick else None) fuel i d p.

Lemma demoRun_resume d ps i p fuel d' p' :
  reached 10 (d, ps) → ps !! i = Some p → demoRun d i p fuel = (d', p') → reached 10 (d', <[i := p']> ps).
Proof.
  intros Hr Hi Hd. eapply runAlone_reachable; [|exact Hr|exact Hi|exact Hd].
  intros s e. cbv beta. case_if; [|done]. intros _. by apply Z.ltb_lt.
Qed.

Lemma demoRun_start d ps x fuel d' p' :
  reached 10 (d, ps) → demoRun d (length ps) (run 10 x) fuel = (d', p') → reached 10 (d', ps ++ [p']).
Proof.
  intros Hr Hd. eapply (demoRun_resume d (ps ++ [run 10 x]) (length ps)) in Hd.
  - by rewrite insert_app_r_alt, Nat.sub_diag in Hd by lia.
  - eapply preach_step; [exact Hr|]. apply pstep_arrive. constructor.
  - rewrite lookup_app_r by lia. by rewrite Nat.sub_diag.
Qed.

(** Goroutine 0 accepts connection 7 and admits a handler; goroutine 1 starts a
    drain; then the handler completes and the connection is closed. *)
Definition demo : drainTracker * list (P unit) :=
  let '(d, p0) := demoRun newDrainTracker 0 (run 10 (CConnection (Some 7%nat) 1)) 6 in
  let '(d, p1) := demoRun d 1 (run 10 CDrain) 100 in
  let '(d, p0) := demoRun d 0 p0 100 in
  (d, [p0; p1]).

Lemma drain_demo_reached : reached 10 demo.
Proof.
  unfold demo. destruct (demoRun newDrainTracker _ _ _) as [d0 p0] eqn:H0.
  apply (demoRun_start newDrainTracker [] (CConnection (Some 7%nat) 1)) in H0; [|apply preach_init].
  destruct (demoRun d0 _ _ _) as [d1 p1] eqn:H1. apply (demoRun_start d0 [p0] CDrain) in H1; [|done].
  destruct (demoRun d1 _ _ _) as [d2 p0'] eqn:H2. by apply (demoRun_resume d1 [p0; p1] 0) in H2.
Qed.

Definition demo_state : drainTracker := demo.1.
Definition demo_threads : list (P unit) := demo.2.

Lemma demo_parts : reached 10 (demo_state, demo_threads).
Proof. pose proof drain_demo_reached as H. unfold demo_state, demo_threads. by destruct demo. Qed.

Lemma demo_quiet : quiet demo_threads.
Proof.
  assert (H : demo_threads = [Ret (); Ret ()]) by (vm_compute; reflexivity).
  intros i p. rewrite H. do 2 (destruct i as [|i]; [by intros [= <-]|]). done.
Qed.

End drainpool.

Import drain drainlist draininv drainpool.

(** The drain signal is given only when the drain has nothing left to wait for:
    once [drained] is closed, admission has stopped, no connection is registered and
    no admitted handler is running, in every interleaving. *)
Theorem drained_signal_sound limit d ps :
  reached limit (d, ps) → drainedClosed d = true →
  draining d = true ∧ startedClosed d = true ∧ connections d = ∅ ∧ admitted d = ∅.
Proof.
  intros Hr Hc. pose proof (drain_reached_inv limit d ps Hr) as HI.
  destruct (inv_drained _ d HI Hc) as (Hd & Hconn & Ha). split_and!; [done| |done..].
  by rewrite (inv_started _ d HI).
Qed.

Lemma drained_signal_sound_witness :
  connections demo_state = ∅ ∧ admitted demo_state = ∅.
Proof.
  destruct (drained_signal_sound 10 demo_state demo_threads demo_parts) as (_ & _ & H); [vm_compute; reflexivity|].
  exact H.
Defined.

(** A drain completes: once it has started and every goroutine has returned, the
    signal [drained] has been given, no connection is registered and the handler
    counter is zero, whatever the order in which reservations, completions and closed
    connections interleaved with the drain. *)
Theorem drain_completes limit d ps :
  reached limit (d, ps) → quiet ps → draining d = true →
  drainedClosed d = true ∧ connections d = ∅ ∧ active d = 0.
Proof.
  intros Hr Hq Hd. apply (all_idle_drained limit); [by eapply drain_reached_inv|by intros i; eapply quiet_idle|done].
Qed.

Lemma drain_completes_witness :
  drainedClosed demo_state = true ∧ connections demo_state = ∅ ∧ active demo_state = 0.
Proof.
  apply (drain_completes 10 demo_state demo_threads demo_parts demo_quiet). vm_compute. reflexivity.
Defined.

(** No goroutine of the tracker panics: the handler counter neither overflows nor
    underflows, a handler completes through the drain path only after a drain has
    started, and the wake-up loop of [beginDrain] ends. *)
Theorem drain_never_panics limit d ps i :
  reached limit (d, ps) → ps !! i ≠ Some Panic.
Proof. intros Hr Hi. destruct (drain_reached_ok limit _ Hr) as (_ & _ & Hp). by apply (Hp i Panic). Qed.

Lemma drain_never_panics_witness : demo_threads !! 1%nat ≠ Some Panic.
Proof. exact (drain_never_panics 10 demo_state demo_threads 1 demo_parts). Defined.

(** The counters are exact: [active] is the number of goroutines that hold a
    reservation, which include every admitted handler, it stays within an [int64],
    and the registered connections never exceed the configured limit. *)
Theorem drain_counters_exact limit d ps :
  reached limit (d, ps) →
  active d = Z.of_nat (size (reserved d)) ∧ admitted d ⊆ reserved d ∧
  0 <= active d <= maxInt64 ∧ Z.of_nat (size (connections d)) <= Z.max 0 limit.
Proof.
  intros Hr. pose proof (drain_reached_inv limit d ps Hr) as HI. pose proof (inv_active _ d HI).
  pose proof (inv_bound _ d HI). split_and!; [done|apply HI|lia|lia|apply HI].
Qed.

Lemma drain_counters_exact_witness :
  active demo_state = Z.of_nat (size (reserved demo_state)) ∧ admitted demo_state ⊆ reserved demo_state ∧
  0 <= active demo_state <= maxInt64 ∧ Z.of_nat (size (connections demo_state)) <= Z.max 0 10.
Proof. exact (drain_counters_exact 10 demo_state demo_threads demo_parts). Defined.

(** C21. The doubly linked pending list refines a list of objects: accepting a
    connection conses a fresh object, unlinking an object removes exactly it wherever
    it stands (and does nothing when it is not linked), and the batches of the drain
    are prefixes, delivered in order and unlinked. *)
Theorem pending_list_refines d l n c p d' batch :
  represents d l → takeBatch n d = (d', batch) →
  represents (pushPending d c) (fresh d :: l) ∧
  represents (removePendingLocked d p) (filter (.≠ p) l) ∧
  represents d' (drop n l) ∧ Some <$> batch = connAt d <$> take n l.
Proof.
  intros Hr Hb. destruct (takeBatch_represents n d l d' batch Hr Hb) as (H1 & H2 & _).
  split_and!; [by apply pushPending_represents|by apply removePending_represents|done..].
Qed.

Lemma pending_list_refines_witness :
  let d := pushPending (pushPending newDrainTracker 5%nat) 6%nat in
  represents (removePendingLocked d 0%nat) [1%nat] ∧ represents d [1; 0]%nat.
Proof.
  pose proof (pushPending_represents _ _ 5%nat new_represents) as H0.
  pose proof (pushPending_represents _ _ 6%nat H0) as H1.
  destruct (pending_list_refines _ _ 1%nat 9%nat 0%nat _ _ H1 (surjective_pairing _)) as (_ & H2 & _).
  split; [exact H2|exact H1].
Defined.
