(* ===== verification/ServiceBase.v ===== *)
(** * internal/service: policies, tiers, stripes and lifetimes

    The pure parts of the service: [newPolicyMatcher] (policy.go),
    [splitCacheTierLimits] and [combinedCacheStats] (cache_tiers.go), the stripe
    hash, the local lifetime, the miss reason and the read timeouts (service.go),
    and the audit recommendation (audit.go). [upstream.Value] and the dynamic
    values of [upstream.Client.Do] are here too. *)
From stdpp Require Import prelude gmap strings list.
From Stdlib Require Import ZArith Lia.
From S2P Require Import Prelude Float64 GoStd CachePolicy Config Cache Hotness Metrics.
Local Open Scope Z_scope.

Module upstream.

Record Value := mkValue { vData : bytes; vExists : bool; vPTTL : Duration }.

(** [upstream.Value{}] *)
Definition noValue : Value := mkValue [] false 0.

Definition Err := string.

(** The dynamic types a reply of [Do] can have ([any] in the source). *)
Inductive any :=
  | AnyNil
  | AnyString (s : string)
  | AnyInt (z : Z)
  | AnyInt64 (z : Z)
  | AnyUint64 (z : Z)
  | AnyBool (b : bool)
  | AnyBytes (b : bytes)
  | AnyList (l : list any)
  | AnyOther (text : string).

End upstream.

Module svcbase.
Import upstream.

(** ** cache_tiers.go *)

Definition probationaryCacheShare : Z := 8.

Record cacheTierLimits := mkLimits {
  protectedBytes : Z;
  protectedEntries : Z;
  probationaryBytes : Z;
  probationaryEntries : Z;
  probationaryEnabled : bool
}.

Definition splitCacheTierLimits (maxBytes maxEntries : Z) : cacheTierLimits :=
  let limits := mkLimits maxBytes maxEntries 0 0 false in
  if (maxBytes <? 2) || (maxEntries =? 1) then limits
  else
    let pb := Z.quot maxBytes probationaryCacheShare in
    let pb := if pb <? 1 then 1 else pb in
    let prot := maxBytes -i pb in
    if prot <? 1 then limits
    else
      let '(pe, re) :=
        if 1 <? maxEntries then
          let pe := Z.quot maxEntries probationaryCacheShare in
          let pe := if pe <? 1 then 1 else pe in
          (pe, maxEntries -i pe)
        else (0, maxEntries) in
      mkLimits prot re pb pe true.

Definition combinedCacheStats (protected : cache.Stats) (probationary : option cache.Cache) : cache.Stats :=
  match probationary with
  | None => protected
  | Some p =>
      let candidate := cache.stats p in
      {| cache.Entries := cache.Entries protected +i cache.Entries candidate;
         cache.Bytes := cache.Bytes protected +i cache.Bytes candidate;
         cache.MaxBytes := cache.MaxBytes protected +i cache.MaxBytes candidate;
         cache.Evictions := cache.Evictions protected +u cache.Evictions candidate |}
  end.

(** ** Stripes *)

Definition cacheEpochStripeCount : nat := 256.

Definition fnvOffset : Z := 2166136261.
Definition fnvPrime : Z := 16777619.

Fixpoint fnvLoop (hash : Z) (l : bytes) : Z :=
  match l with
  | [] => hash
  | b :: l' => fnvLoop (u32 (Z.lxor hash (Z.of_N (Byte.to_N b)) * fnvPrime)) l'
  end.

Definition cacheEpochStripe (key : string) : nat :=
  Z.to_nat (fnvLoop fnvOffset (bytes_of key) mod Z.of_nat cacheEpochStripeCount).

Section cfg.
Context {F : Type} `{Float64 F}.
Implicit Types cfg : config.Config F.

(** ** policy.go *)

Definition policyRule cfg (p : config.CachePolicyConfig) : cachepolicy.Rule :=
  let '(mode, valid) := cachepolicy.ParseMode (config.policyMode p) in
  let mode := if valid then mode else cachepolicy.ModeDeny in
  let mode := if bool_decide (config.Mode cfg = "observe"%string)
                 && bool_decide (mode = cachepolicy.ModeCache)
              then cachepolicy.ModeObserve else mode in
  cachepolicy.mkRule (config.policyPrefix p)
    (if bool_decide (mode = cachepolicy.ModeCache)
     then cachepolicy.mkDecision mode (config.policyMaxItemBytes p) (config.policyMaxLocalTTL p)
     else cachepolicy.mkDecision mode 0 0).

Definition newPolicyMatcher cfg : cachepolicy.Matcher :=
  let '(mode, ok) := cachepolicy.ParseMode (config.Mode cfg) in
  let fallbackMode := if ok then mode else cachepolicy.ModeDeny in
  let fallback :=
    if bool_decide (fallbackMode = cachepolicy.ModeCache)
    then cachepolicy.mkDecision fallbackMode (config.cacheMaxBytes (config.Cache cfg))
           (config.cacheMaxLocalTTL (config.Cache cfg))
    else cachepolicy.mkDecision fallbackMode 0 0 in
  cachepolicy.New fallback (map (policyRule cfg) (config.cachePolicies (config.Cache cfg))).

(** ** Lifetimes and timeouts *)

Definition localTTL cfg (upstreamTTL policyMaxTTL : Duration) : Duration :=
  let maxTTL := config.cacheMaxLocalTTL (config.Cache cfg) in
  if policyMaxTTL <=? 0 then 0
  else
    let maxTTL := if policyMaxTTL <? maxTTL then policyMaxTTL else maxTTL in
    if upstreamTTL =? 0 then 0
    else if (0 <? upstreamTTL) && (upstreamTTL <? maxTTL) then upstreamTTL
    else maxTTL.

(** The timeout of [upstreamContext]. *)
Definition upstreamTimeout cfg : Duration :=
  let timeout := config.upstreamReadTimeout (config.Upstream cfg) in
  if timeout <=? 0 then 2 * Second else timeout.

Definition sharedReadTimeout cfg : Duration :=
  let upTimeout := config.upstreamReadTimeout (config.Upstream cfg) in
  let upTimeout := if upTimeout <=? 0 then 2 * Second else upTimeout in
  let proxyTimeout := config.proxyReadTimeout (config.Proxy cfg) in
  if (0 <? proxyTimeout) && (proxyTimeout <? upTimeout) then proxyTimeout else upTimeout.

(** The configuration [service.New] passes to [hotness.New]. *)
Definition hotnessConfig cfg : hotness.Config F :=
  let h := config.Hotness cfg in
  hotness.mkConfig (config.hotnessWindow h) (config.hotnessEWMAAlpha h)
    (config.hotnessPromotionThreshold h) (config.hotnessDemotionThreshold h)
    (config.hotnessMinimumHotWindows h) (config.hotnessCooldown h) (config.hotnessMaxTrackedKeys h).

End cfg.

(** The tracker state of an unobserved or untracked key is the empty text, [None]. *)
Definition cacheMissReason (policy : cachepolicy.Decision) (state : option hotness.State)
    : metrics.CacheMissReason :=
  if negb (bool_decide (cachepolicy.dMode policy = cachepolicy.ModeCache))
  then metrics.CacheMissReasonPolicyBypass
  else if bool_decide (state = Some hotness.StateHot) then metrics.CacheMissReasonNotPresent
  else metrics.CacheMissReasonNotAdmitted.

(** ** audit.go *)

Definition DefaultAuditLimit : Z := 100.
Definition MaxAuditLimit : Z := 1000.

Definition normalizeAuditLimit (limit : Z) : Z :=
  if limit <=? 0 then DefaultAuditLimit
  else if MaxAuditLimit <? limit then MaxAuditLimit else limit.

Definition auditPolicyMode (m : cachepolicy.Mode) : string :=
  match m with
  | cachepolicy.ModeObserve => "observe"
  | cachepolicy.ModeCache => "cache"
  | cachepolicy.ModeDeny => "deny"
  end.

Definition auditRecommendation (policyMode : string) (state : hotness.State) : string * list string :=
  let isHot := bool_decide (state = hotness.StateHot) in
  if bool_decide (policyMode = "observe"%string) then
    if isHot then ("review_for_cache", ["effective_policy_observe"; "hotness_state_hot"])%string
    else ("continue_observing", ["effective_policy_observe"; "hotness_state_not_hot"])%string
  else if bool_decide (policyMode = "cache"%string) then
    ("no_change"%string, ["effective_policy_cache"%string;
       if isHot then "hotness_state_hot"%string else "hotness_state_not_hot"%string])
  else ("no_change", ["effective_policy_deny"])%string.

(** ** Bounds *)

(** The two tiers share the budget without exceeding it. *)
Lemma split_limits maxB maxE :
  0 <= maxB <= maxInt64 → maxE <= maxInt64 →
  let l := splitCacheTierLimits maxB maxE in
  0 <= protectedBytes l <= maxB ∧ 0 <= probationaryBytes l ∧
  (if probationaryEnabled l then protectedBytes l + probationaryBytes l = maxB else protectedBytes l = maxB) ∧
  (0 < maxE → 0 < protectedEntries l ∧
     if probationaryEnabled l then 0 < probationaryEntries l ∧ protectedEntries l + probationaryEntries l = maxE
     else protectedEntries l = maxE).
Proof.
  intros HB HE. unfold splitCacheTierLimits, probationaryCacheShare. cbv zeta.
  destruct ((maxB <? 2) || (maxE =? 1)) eqn:H1'; [simpl; split_and!; lia|]. ztests.
  assert (Hq : 0 <= Z.quot maxB 8 <= maxB) by (rewrite Z.quot_div_nonneg by lia; split; [apply Z.div_pos; lia|apply Z.div_le_upper_bound; lia]).
  assert (Hb : 1 <= (if Z.quot maxB 8 <? 1 then 1 else Z.quot maxB 8) <= maxB) by (case_if; ztests; lia).
  set (pb := if Z.quot maxB 8 <? 1 then 1 else Z.quot maxB 8) in *.
  rewrite (i64_id (maxB - pb)) by width_lia.
  destruct (maxB - pb <? 1) eqn:H3'; [simpl; split_and!; lia|]. ztests.
  destruct (1 <? maxE) eqn:H4'; ztests; simpl; [|split_and!; lia].
  assert (Hq' : 0 <= Z.quot maxE 8 < maxE) by (rewrite Z.quot_div_nonneg by lia; split; [apply Z.div_pos; lia|apply Z.div_lt; lia]).
  assert (He : 1 <= (if Z.quot maxE 8 <? 1 then 1 else Z.quot maxE 8) < maxE) by (case_if; ztests; lia).
  rewrite i64_id by width_lia. split_and!; lia.
Qed.

Lemma fnvLoop_range hash l : 0 <= hash < two32 → 0 <= fnvLoop hash l < two32.
Proof.
  revert hash. induction l as [|b l IH]; intros hash Hh; simpl; [done|].
  apply IH. unfold u32. apply Z.mod_pos_bound. unfold two32. lia.
Qed.

Lemma cacheEpochStripe_lt key : (cacheEpochStripe key < cacheEpochStripeCount)%nat.
Proof.
  unfold cacheEpochStripe, cacheEpochStripeCount.
  pose proof (Z.mod_pos_bound (fnvLoop fnvOffset (bytes_of key)) 256). lia.
Qed.

End svcbase.
