(* ===== verification/Redis.v ===== *)
(** * internal/upstream: the Redis client

    [RedisClient] turns the replies of a go-redis pipeline into upstream values. The
    library is a parameter: a pipeline is the outcome of its commands and of [Exec].
    What the library documents is stated as hypotheses: [Exec] answers the first
    error of its commands, and a server answers GET, MGET and PTTL from its data.
    The commands of a pipeline run one after the other, and other clients may write
    between them. *)
From stdpp Require Import prelude gmap strings list.
From Stdlib Require Import ZArith Lia.
From S2P Require Import Prelude ServiceBase.
Local Open Scope Z_scope.

Module redis.
Import upstream.

(** [redis.Nil], an error reply of the server (also a [redis.Error]), and an error of
    the connection or the context. *)
Inductive Error := Nil | Reply (message : string) | Broken (message : string).

#[global] Instance Error_eq_dec : EqDecision Error.
Proof. solve_decision. Defined.

(** [errors.As(err, &redisErr)] *)
Definition isReply (e : Error) : bool := match e with Broken _ => false | _ => true end.

Definition redisPTTLMissing : Duration := -2.

Definition missing : Value := mkValue [] false 0.

(** The commands of [Get]'s pipeline and the error of [Exec]. *)
Record getPipeline := mkGet { gGet : bytes + Error; gPTTL : Duration + Error; gExec : option Error }.

Definition Get (p : getPipeline) : Value + Error :=
  match gGet p with
  | inr Nil =>
      match gExec p with
      | Some e => if isReply e then inl missing else inr e
      | None => inl missing
      end
  | inr e => inr e
  | inl data =>
      match gPTTL p with
      | inr e => inr e
      | inl ttl =>
          match gExec p with
          | Some e => inr e
          | None => if ttl =? redisPTTLMissing then inl missing else inl (mkValue data true ttl)
          end
      end
  end.

(** An element of an MGET reply: nil, a string, bytes, or another dynamic value with
    its text under [fmt.Sprint]. *)
Inductive item := INil | IString (s : string) | IBytes (b : bytes) | IOther (text : string).

Definition itemData (x : item) : option bytes :=
  match x with
  | INil => None
  | IString s => Some (bytes_of s)
  | IBytes b => Some b
  | IOther text => Some (bytes_of text)
  end.

(** [ttlCmds[i].Val()] is 0 for a failed command. *)
Record mgetPipeline := mkMGet { mMGet : list item + Error; mPTTLs : list (Duration + Error); mExec : option Error }.

Definition ttlVal (r : Duration + Error) : Duration := match r with inl d => d | inr _ => 0 end.

(** The value of a position. *)
Definition mgetValue (x : item) (ttl : Duration) : Value :=
  match itemData x with
  | None => missing
  | Some data => if ttl =? redisPTTLMissing then missing else mkValue data true ttl
  end.

(** The loop over the reply: [values[i]] and [ttlCmds[i]] panic out of range, which
    is [None]. *)
Fixpoint mgetLoop (i : nat) (values : list Value) (ttls : list (Duration + Error)) (raw : list item) : option (list Value) :=
  match raw with
  | [] => Some values
  | x :: raw' =>
      match values !! i, ttls !! i with
      | Some _, Some ttl => mgetLoop (S i) (<[i := mgetValue x (ttlVal ttl)]> values) ttls raw'
      | _, _ => None
      end
  end.

Definition MGet (keys : list string) (p : mgetPipeline) : option (list Value + Error) :=
  match keys with
  | [] => Some (inl [])
  | _ =>
      let failed (o : option Error) := match o with Some Nil | None => None | Some e => Some e end in
      match failed (mExec p) with
      | Some e => Some (inr e)
      | None =>
          match mMGet p with
          | inr Nil => inl <$> mgetLoop 0 (replicate (length keys) missing) (mPTTLs p) []
          | inr e => Some (inr e)
          | inl raw => inl <$> mgetLoop 0 (replicate (length keys) missing) (mPTTLs p) raw
          end
      end
  end.

(** [Do]: a nil reply is not an error. *)
Definition Do (r : any + Error) : any + Error :=
  match r with
  | inr Nil => inl AnyNil
  | r => r
  end.

(** ** What the server and the library answer *)

(** A value with its remaining time to live, if it expires; the time is positive. *)
Definition store := gmap string (bytes * option Duration).

Definition getReply (m : store) (k : string) : bytes + Error :=
  match m !! k with Some (v, _) => inl v | None => inr Nil end.
Definition pttlReply (m : store) (k : string) : Duration :=
  match m !! k with Some (_, Some d) => d | Some (_, None) => -1 | None => redisPTTLMissing end.
Definition mgetItem (m : store) (k : string) : item :=
  match m !! k with Some (v, _) => IBytes v | None => INil end.

(** Times to live that are reported are never negative. *)
Definition lives (m : store) : Prop := ∀ k v d, m !! k = Some (v, Some d) → 0 <= d.

(** [Exec] answers the first error of the commands. *)
Definition firstError (l : list (option Error)) : option Error := list_find is_Some l ≫= snd.
Definition failure {A} (r : A + Error) : option Error := match r with inl _ => None | inr e => Some e end.

(** The value of a key that is present with its data in [m1] and still there in [m2]. *)
Definition valueAt (m1 m2 : store) (k : string) : Value :=
  match m1 !! k, m2 !! k with
  | Some (v, _), Some _ => mkValue v true (pttlReply m2 k)
  | _, _ => missing
  end.

Lemma pttl_missing m k : lives m → pttlReply m k = redisPTTLMissing ↔ m !! k = None.
Proof.
  intros Hl. unfold pttlReply, redisPTTLMissing. destruct (m !! k) as [[v [d|]]|] eqn:E; [|split; [lia|done]|done].
  pose proof (Hl k v d E). split; [lia|done].
Qed.

Lemma mgetValue_at m1 m2 k : lives m2 → mgetValue (mgetItem m1 k) (pttlReply m2 k) = valueAt m1 m2 k.
Proof.
  intros Hl. unfold mgetValue, mgetItem, valueAt. destruct (m1 !! k) as [[v o]|]; [|done]. cbn.
  pose proof (pttl_missing m2 k Hl) as Hm. destruct (pttlReply m2 k =? redisPTTLMissing) eqn:E; ztests.
  - by rewrite (proj1 Hm E).
  - destruct (m2 !! k); [done|]. by destruct E; apply Hm.
Qed.

(** The loop fills the positions one after the other. *)
Lemma mgetLoop_fill done_ rest ttls raw :
  length rest = length raw → length ttls = length (done_ ++ rest) →
  mgetLoop (length done_) (done_ ++ rest) ttls raw =
    Some (done_ ++ zip_with (λ x t, mgetValue x (ttlVal t)) raw (drop (length done_) ttls)).
Proof.
  revert done_ rest. induction raw as [|x raw IH]; intros done_ rest Hl Ht; cbn [mgetLoop].
  { apply nil_length_inv in Hl as ->. by rewrite !app_nil_r. }
  destruct rest as [|y rest]; [done|]. rewrite list_lookup_middle by done.
  assert (Hi : is_Some (ttls !! length done_)) by (apply lookup_lt_is_Some; rewrite Ht, length_app; cbn; lia).
  destruct Hi as [t Hi]. rewrite Hi, (drop_S _ t) by done. rewrite insert_app_r_alt, Nat.sub_diag by lia.
  cbn [insert list_insert zip_with].
  specialize (IH (done_ ++ [mgetValue x (ttlVal t)]) rest).
  replace (length (done_ ++ [mgetValue x (ttlVal t)])) with (S (length done_)) in IH by (rewrite length_app; cbn; lia).
  rewrite <-!(assoc_L (++)) in IH. cbn [app] in IH. apply IH; [by injection Hl|].
  rewrite Ht, !length_app. done.
Qed.

Lemma mgetLoop_all n ttls raw :
  length raw = n → length ttls = n →
  mgetLoop 0 (replicate n missing) ttls raw = Some (zip_with (λ x t, mgetValue x (ttlVal t)) raw ttls).
Proof.
  intros Hr Ht. pose proof (mgetLoop_fill [] (replicate n missing) ttls raw) as H.
  cbn [app length] in H. rewrite drop_0 in H. apply H; rewrite length_replicate; done.
Qed.

(** What MGET and the PTTL commands answer: MGET ran on [m], the PTTL of each key on
    a later state. *)
Definition mgetReplies (m : store) (ms : list store) (keys : list string) : mgetPipeline :=
  mkMGet (inl (map (mgetItem m) keys)) (zip_with (λ m k, inl (pttlReply m k)) ms keys) None.

Definition getReplies (m1 m2 : store) (k : string) : getPipeline :=
  mkGet (getReply m1 k) (inl (pttlReply m2 k)) (firstError [failure (getReply m1 k); None]).

Lemma Get_at m1 m2 k : lives m2 → Get (getReplies m1 m2 k) = inl (valueAt m1 m2 k).
Proof.
  intros Hl. pose proof (pttl_missing m2 k Hl) as Hm. unfold Get, getReplies, getReply, valueAt. cbn.
  destruct (m1 !! k) as [[v o]|]; [|done]. cbn.
  destruct (pttlReply m2 k =? redisPTTLMissing) eqn:E; ztests.
  - by rewrite (proj1 Hm E).
  - destruct (m2 !! k); [done|]. by destruct E; apply Hm.
Qed.

Lemma MGet_at m ms keys :
  length ms = length keys → Forall lives ms →
  MGet keys (mgetReplies m ms keys) = Some (inl (zip_with (valueAt m) ms keys)).
Proof.
  intros Hlen Hl. destruct keys as [|k keys]; [by destruct ms|].
  unfold MGet, mgetReplies. cbn [mExec mMGet mPTTLs]. cbv zeta.
  rewrite mgetLoop_all; [|by rewrite length_map|rewrite length_zip_with; lia]. cbn [fmap option_fmap option_map].
  do 2 f_equal. revert ms Hlen Hl. generalize (k :: keys). intros l. induction l as [|x l IH]; intros [|m2 ms] Hlen Hl; try done.
  cbn. apply Forall_cons in Hl as [H1 H2]. rewrite mgetValue_at by done. f_equal. apply IH; [by injection Hlen|done].
Qed.

End redis.

Import upstream redis.


