(* ===== verification/Service.v ===== *)
(** * internal/service: reads, writes and invalidation

    [Service] is the shared state that the goroutines of the proxy work on; every
    method of service.go is a [prog] of atomic actions on it: a mutex-protected call
    on the cache, on the probationary cache, on the tracker, an atomic load or store,
    a lock or unlock of a stripe, a channel operation, an upstream call. The
    upstream server and the singleflight group are libraries: they are interfaces
    ([Upstream], [SingleFlight]) that the methods are written against.

    [unsettled] and [racing] are auxiliary variables: no action reads them. A key
    is unsettled from the moment a write of it is applied upstream until the local
    tiers have been reconciled with that write, and racing until the epoch of its
    stripe has moved on after the write. *)
From stdpp Require Import prelude gmap strings list fin_maps.
From Stdlib Require Import ZArith Lia.
From S2P Require Import Prelude Float64 GoStd CachePolicy Config Cache Hotness Metrics ServiceBase Conc.
Local Open Scope Z_scope.

(** ** Interfaces *)

(** What [upstream.Client] answers when the call succeeds. *)
Class Upstream (U : Type) := {
  up_get : U → Time → string → upstream.Value;
  up_mget : U → Time → list string → list upstream.Value;
  up_do : U → Time → list string → U * upstream.any
}.

(** [singleflight.Group]: [sf_do] is [DoChan] (the call joined or created, and
    whether the function has to be started), [sf_finish] delivers the result of the
    function, [sf_poll] is a receive from the channel of a call (the result, and
    whether it was shared). *)
Class SingleFlight (G : Type) := {
  sf_do : G → string → G * (nat * bool);
  sf_finish : G → nat → upstream.Value + upstream.Err → G;
  sf_forget : G → string → G;
  sf_poll : G → nat → option ((upstream.Value + upstream.Err) * bool)
}.

Module service.
Import gostd upstream svcbase.

(** What the environment decides at an action: the clock reading, the orders of the
    map iterations (an action has at most two), whether the context is seen done, whether an upstream call
    fails, and whether a failed write was applied all the same. *)
Record Tick := mkTick {
  tNow : Time;
  tOrder : list nat;
  tOrder2 : list nat;
  tCtx : option Err;
  tFail : option Err;
  tApplied : bool
}.

(** [cacheEpochStripeState]; the owner of the mutex is the goroutine's index. *)
Record stripe := mkStripe {
  mu : option nat;
  epoch : Z;
  promotionInProgress : bool
}.

(** A goroutine started by [DoChan], with what its function captured. *)
Record flight := mkFlight {
  flCall : nat;
  flKey : string;
  flEpoch : Z;
  flPolicy : cachepolicy.Decision
}.

Section service.
Context {F : Type} `{Float64 F} {U : Type} `{Upstream U} {G : Type} `{SingleFlight G}.
Context (cfg : config.Config F).

Record Service := mkService {
  protected : cache.Cache;
  probationary : option cache.Cache;
  tracker : hotness.Tracker F;
  recorder : metrics.Recorder;
  cacheEpochs : list stripe;
  mutationGates : list (option nat);
  group : G;
  started : list flight;
  up : U;
  proxyActive : bool;
  closed : bool;
  unsettled : gset string;
  racing : gset string
}.

Definition set_protected (s : Service) (c : cache.Cache) : Service :=
  mkService c (probationary s) (tracker s) (recorder s) (cacheEpochs s) (mutationGates s) (group s)
    (started s) (up s) (proxyActive s) (closed s) (unsettled s) (racing s).
Definition set_probationary (s : Service) (c : option cache.Cache) : Service :=
  mkService (protected s) c (tracker s) (recorder s) (cacheEpochs s) (mutationGates s) (group s)
    (started s) (up s) (proxyActive s) (closed s) (unsettled s) (racing s).
Definition set_tracker (s : Service) (t : hotness.Tracker F) : Service :=
  mkService (protected s) (probationary s) t (recorder s) (cacheEpochs s) (mutationGates s) (group s)
    (started s) (up s) (proxyActive s) (closed s) (unsettled s) (racing s).
Definition set_recorder (s : Service) (r : metrics.Recorder) : Service :=
  mkService (protected s) (probationary s) (tracker s) r (cacheEpochs s) (mutationGates s) (group s)
    (started s) (up s) (proxyActive s) (closed s) (unsettled s) (racing s).
Definition set_stripe (s : Service) (n : nat) (st : stripe) : Service :=
  mkService (protected s) (probationary s) (tracker s) (recorder s) (<[n := st]> (cacheEpochs s))
    (mutationGates s) (group s) (started s) (up s) (proxyActive s) (closed s) (unsettled s) (racing s).
Definition set_gate (s : Service) (n : nat) (o : option nat) : Service :=
  mkService (protected s) (probationary s) (tracker s) (recorder s) (cacheEpochs s)
    (<[n := o]> (mutationGates s)) (group s) (started s) (up s) (proxyActive s) (closed s)
    (unsettled s) (racing s).
Definition set_group (s : Service) (g : G) (l : list flight) : Service :=
  mkService (protected s) (probationary s) (tracker s) (recorder s) (cacheEpochs s)
    (mutationGates s) g l (up s) (proxyActive s) (closed s) (unsettled s) (racing s).
Definition set_up (s : Service) (u : U) : Service :=
  mkService (protected s) (probationary s) (tracker s) (recorder s) (cacheEpochs s)
    (mutationGates s) (group s) (started s) u (proxyActive s) (closed s) (unsettled s) (racing s).
Definition set_flags (s : Service) (a c : bool) : Service :=
  mkService (protected s) (probationary s) (tracker s) (recorder s) (cacheEpochs s)
    (mutationGates s) (group s) (started s) (up s) a c (unsettled s) (racing s).
Definition set_aux (s : Service) (un ra : gset string) : Service :=
  mkService (protected s) (probationary s) (tracker s) (recorder s) (cacheEpochs s)
    (mutationGates s) (group s) (started s) (up s) (proxyActive s) (closed s) un ra.

Definition freeStripe : stripe := mkStripe None 0 false.

(** [New]: the tiers, the tracker and the recorder for a configuration; [now] is
    the clock reading of [hotness.New]. *)
Definition New (now : Time) (u : U) (g : G) : Service :=
  let limits := splitCacheTierLimits (config.cacheMaxBytes (config.Cache cfg))
                  (config.cacheMaxEntries (config.Cache cfg)) in
  {| protected := cache.New (protectedBytes limits) (protectedEntries limits);
     probationary := if probationaryEnabled limits
                     then Some (cache.New (probationaryBytes limits) (probationaryEntries limits))
                     else None;
     tracker := hotness.New (hotnessConfig cfg) now;
     recorder := metrics.SetCacheLimits metrics.New (config.cacheMaxBytes (config.Cache cfg))
                   (config.cacheMaxEntries (config.Cache cfg));
     cacheEpochs := replicate cacheEpochStripeCount freeStripe;
     mutationGates := replicate cacheEpochStripeCount None;
     group := g; started := []; up := u; proxyActive := false; closed := false;
     unsettled := ∅; racing := ∅ |}.

Definition policies : cachepolicy.Matcher := newPolicyMatcher cfg.

Notation P := (prog Tick Service).

(** ** Actions *)

Definition recordA (f : Tick → metrics.Recorder → metrics.Recorder) : P unit :=
  act (λ _ e s, Some (set_recorder s (f e (recorder s)), ())).

Definition clockNow : P Time := act (λ _ e s, Some (s, tNow e)).
Definition ctxErr : P (option Err) := act (λ _ e s, Some (s, tCtx e)).

(** A call on the protected cache. *)
Definition cacheA {A} (f : Time → cache.Cache → cache.Cache * A) : P A :=
  act (λ _ e s, let '(c, a) := f (tNow e) (protected s) in Some (set_protected s c, a)).

(** A call on the probationary cache; [None] when there is none. *)
Definition probA {A} (f : Time → cache.Cache → cache.Cache * A) : P (option A) :=
  act (λ _ e s, match probationary s with
                | None => Some (s, None)
                | Some c => let '(c', a) := f (tNow e) c in Some (set_probationary s (Some c'), Some a)
                end).

Definition trackerRead {A} (f : hotness.Tracker F → A) : P A := act (λ _ _ s, Some (s, f (tracker s))).

(** [tracker.ObserveWithState]; an index outside the ring is a panic. *)
Definition observe (key : string) : P hotness.Observation :=
  Step (λ _ e s, match hotness.ObserveWithState (tracker s) (tNow e) (tOrder e) key with
                 | Some (t, o) => Some (set_tracker s t, Ret o)
                 | None => Some (s, Panic)
                 end).

Definition admit_ (key : string) : P hotness.Observation :=
  act (λ _ e s, let '(t, o) := hotness.Admit (tracker s) (tNow e) (tOrder e) key in
                Some (set_tracker s t, o)).

Definition stripeAt (s : Service) (n : nat) : stripe := default freeStripe (cacheEpochs s !! n).

Definition lock (n : nat) : P unit :=
  act (λ i _ s, match mu (stripeAt s n) with
                | Some _ => None
                | None => Some (set_stripe s n (mkStripe (Some i) (epoch (stripeAt s n))
                                                  (promotionInProgress (stripeAt s n))), ())
                end).

(** Unlocking a stripe; the keys that [settle] names are settled from here on, unless
    they race with a newer write. *)
Definition unlock (n : nat) (settle : string → bool) : P unit :=
  act (λ _ _ s,
    let s := set_stripe s n (mkStripe None (epoch (stripeAt s n)) (promotionInProgress (stripeAt s n))) in
    Some (set_aux s (filter (λ k, settle k = false ∨ k ∈ racing s) (unsettled s)) (racing s), ())).

Definition none : string → bool := λ _, false.

Definition loadEpoch (n : nat) : P Z := act (λ _ _ s, Some (s, epoch (stripeAt s n))).

(** [epoch.Add(1)] *)
Definition addEpoch (n : nat) : P unit :=
  act (λ _ _ s,
    let s := set_stripe s n (mkStripe (mu (stripeAt s n)) (epoch (stripeAt s n) +u 1)
                               (promotionInProgress (stripeAt s n))) in
    Some (set_aux s (unsettled s) (filter (λ k, cacheEpochStripe k ≠ n) (racing s)), ())).

Definition loadPromotion (n : nat) : P bool := act (λ _ _ s, Some (s, promotionInProgress (stripeAt s n))).
Definition storePromotion (n : nat) (b : bool) : P unit :=
  act (λ _ _ s, Some (set_stripe s n (mkStripe (mu (stripeAt s n)) (epoch (stripeAt s n)) b), ())).

Definition upstreamGetA (key : string) : P (Value + Err) :=
  act (λ _ e s, Some (s, match tFail e with
                         | Some err => inr err
                         | None => inl (up_get (up s) (tNow e) key)
                         end)).

Definition upstreamMGetA (keys : list string) : P (list Value + Err) :=
  act (λ _ e s, Some (s, match tFail e with
                         | Some err => inr err
                         | None => inl (up_mget (up s) (tNow e) keys)
                         end)).

(** [upstream.Do] of a command that writes [keys]: a failed call may have been
    applied. *)
Definition upstreamDoA (command : list string) (keys : list string) : P (any + Err) :=
  act (λ _ e s,
    let '(u, r) := up_do (up s) (tNow e) command in
    let mark s := set_aux s (list_to_set keys ∪ unsettled s) (list_to_set keys ∪ racing s) in
    match tFail e with
    | Some err => Some (mark (if tApplied e then set_up s u else s), inr err)
    | None => Some (mark (set_up s u), inl r)
    end).

(** ** Metrics of the tiers *)

Definition observeCache : P unit :=
  st ← cacheA (λ _ c, (c, cache.stats c));
  all ← act (λ _ _ s, Some (s, combinedCacheStats st (probationary s)));
  recordA (λ _ r, metrics.ObserveCache r (cache.Entries all) (cache.Bytes all) (cache.Evictions all)).

(** ** Reads of the tiers *)

Definition getFreshProtected (key : string) : P (option cache.EntrySnapshot) :=
  if config.cacheAllowStaleOnUpstreamError (config.Cache cfg)
     && (0 <? config.cacheStaleGrace (config.Cache cfg))
  then cacheA (λ now c, cache.GetStale c now key 0)
  else cacheA (λ now c, cache.Get c now key).

Definition cacheDelete (key : string) : P bool := cacheA (λ _ c, cache.Delete c key).

(** [s.probationary != nil && s.probationary.Delete(key)] *)
Definition probDelete (key : string) : P bool :=
  r ← probA (λ _ c, cache.Delete c key); mret (default false r).

(** The side effects of the transitions: promotions are counted, a demoted key is
    dropped from both tiers unless it is HOT again. Answers whether a tier changed. *)
Fixpoint applyLoop (changed : bool) (l : list hotness.Transition) : P bool :=
  match l with
  | [] => mret changed
  | tr :: l' =>
      let toHot := bool_decide (hotness.tTo tr = hotness.StateHot) in
      let fromHot := bool_decide (hotness.tFrom tr = hotness.StateHot) in
      (if toHot && negb fromHot then recordA (λ _ r, metrics.Promotion r) else mret ()) ;;
      (if fromHot && negb toHot then
         let n := cacheEpochStripe (hotness.tKey tr) in
         lock n ;;
         hot ← trackerRead (λ t, hotness.IsHot t (hotness.tKey tr));
         changed' ← (if negb hot then
                       d1 ← cacheDelete (hotness.tKey tr);
                       d2 ← probDelete (hotness.tKey tr);
                       mret (changed || d1 || d2)
                     else mret changed);
         unlock n none ;;
         recordA (λ _ r, metrics.Demotion r) ;;
         mret changed'
       else mret changed) ≫= λ changed', applyLoop changed' l'
  end.

Definition applyTransitions (l : list hotness.Transition) : P unit :=
  changed ← applyLoop false l;
  if changed : bool then observeCache else mret ().

Definition handleTransitions (l : list hotness.Transition) : P unit :=
  applyTransitions l ;;
  st ← trackerRead hotness.Stats;
  recordA (λ _ r, metrics.SetHotKeys r st.2) ;;
  cd ← trackerRead hotness.capacityDrops;
  recordA (λ _ r, metrics.ObserveHotnessCapacityDrops r cd) ;;
  od ← trackerRead hotness.oversizedObservationsDropped;
  recordA (λ _ r, metrics.ObserveHotnessOversizedDrops r od).

Definition handleObservation (o : hotness.Observation) : P unit :=
  applyTransitions (hotness.oTransitions o) ;;
  (if bool_decide (hotness.oTransitions o ≠ [])
   then st ← trackerRead hotness.Stats; recordA (λ _ r, metrics.SetHotKeys r st.2)
   else mret ()) ;;
  (if hotness.oOversizedObservationDropped o
   then recordA (λ _ r, metrics.ObserveHotnessOversizedDrops r (hotness.oOversizedObservationsDropped o))
   else mret ()) ;;
  (if hotness.oCapacityObservationDropped o
   then recordA (λ _ r, metrics.ObserveHotnessCapacityDrops r (hotness.oCapacityDrops o))
   else mret ()).

(** The part of [getFreshCachedInState] that holds the key's stripe and may move a
    probationary candidate to the protected tier; with the observation of the
    admission, if there was one. *)
Definition promoteLocked (n : nat) (key : string)
    : P (option cache.EntrySnapshot * option hotness.Observation) :=
  hot ← trackerRead (λ t, hotness.IsHot t key);
  item ← (if hot : bool then getFreshProtected key else mret None);
  match item with
  | Some x => unlock n none ;; mret (Some x, None)
  | None =>
      candidate ← probA (λ now c, cache.Get c now key);
      match candidate with
      | Some (Some c) =>
          observation ← admit_ key;
          let promoting := bool_decide (hotness.oState observation = Some hotness.StateHot) in
          (if promoting then storePromotion n true else mret ()) ;;
          probDelete key ;;
          stored ← (if promoting
                    then cacheA (λ now p, cache.PutUntil p now key (cache.sValue c) (cache.sExpiresAt c))
                    else mret false);
          (if promoting then storePromotion n false else mret ()) ;;
          unlock n none ;;
          mret (if stored : bool then Some c else None, Some observation)
      | _ => unlock n none ;; mret (None, None)
      end
  end.

Definition getFreshCachedInState (key : string) (state : option hotness.State)
    : P (option cache.EntrySnapshot) :=
  item ← (if bool_decide (state = Some hotness.StateHot) then getFreshProtected key else mret None);
  match item with
  | Some x => mret (Some x)
  | None =>
      r ← probA (λ now c, cache.Get c now key);
      match r with
      | None => mret None
      | Some None =>
          hot ← trackerRead (λ t, hotness.IsHot t key);
          if negb hot then mret None
          else
            let n := cacheEpochStripe key in
            busy ← loadPromotion n;
            if busy : bool then
              lock n ;; item ← getFreshProtected key; unlock n none ;; mret item
            else getFreshProtected key
      | Some (Some _) =>
          let n := cacheEpochStripe key in
          lock n ;;
          r ← promoteLocked n key;
          match r with
          | (item, Some observation) => handleObservation observation ;; observeCache ;; mret item
          | (item, None) => mret item
          end
      end
  end.

(** ** Stores *)

Definition storeLocal (key : string) (value : Value) (policy : cachepolicy.Decision) : P bool :=
  if (cachepolicy.dMaxItemBytes policy <=? 0)
     || (cachepolicy.dMaxItemBytes policy <? cache.EstimateSize key (vData value))
  then cacheDelete key ;; mret false
  else
    let ttl := localTTL cfg (vPTTL value) (cachepolicy.dMaxLocalTTL policy) in
    if ttl <=? 0 then cacheDelete key ;; mret false
    else cacheA (λ now c, cache.Put c now key (vData value) ttl).

Definition storeProbationary (key : string) (value : Value) (policy : cachepolicy.Decision) : P bool :=
  enabled ← act (λ _ _ s, Some (s, bool_decide (is_Some (probationary s))));
  if negb enabled then mret false
  else
    tracked ← trackerRead (λ t, hotness.IsTracked t key);
    if negb tracked then mret false
    else if (cachepolicy.dMaxItemBytes policy <=? 0)
         || (cachepolicy.dMaxItemBytes policy <? cache.EstimateSize key (vData value))
    then probDelete key ;; mret false
    else
      let ttl := localTTL cfg (vPTTL value) (cachepolicy.dMaxLocalTTL policy) in
      let window := config.hotnessWindow (config.Hotness cfg) in
      let ttl := if (0 <? window) && (window <? ttl) then window else ttl in
      if ttl <=? 0 then probDelete key ;; mret false
      else r ← probA (λ now c, cache.Put c now key (vData value) ttl); mret (default false r).

Definition withCurrentCacheEpoch (key : string) (ep : Z) (mutate : P unit) : P bool :=
  let n := cacheEpochStripe key in
  lock n ;;
  now ← loadEpoch n;
  if negb (now =? ep) then unlock n none ;; mret false
  else mutate ;; unlock n none ;; mret true.

Definition reconcileBody (key : string) (value : Value) (policy : cachepolicy.Decision) : P unit :=
  if negb (vExists value) then cacheDelete key ;; probDelete key ;; mret ()
  else
    hot ← trackerRead (λ t, hotness.IsHot t key);
    if hot : bool then probDelete key ;; storeLocal key value policy ;; mret ()
    else cacheDelete key ;; storeProbationary key value policy ;; mret ().

Definition reconcileLocalIfCurrent (key : string) (value : Value) (ep : Z) (policy : cachepolicy.Decision)
    : P unit :=
  withCurrentCacheEpoch key ep (reconcileBody key value policy) ;; mret ().

(** ** Invalidation *)

(** The loop of [invalidateCacheKeys]; [advanced] holds the stripes whose epoch
    this call has advanced. *)
Fixpoint invalidateLoop (advanced : list nat) (invalidated : nat) (keys : list string) : P nat :=
  match keys with
  | [] => mret invalidated
  | key :: keys' =>
      let n := cacheEpochStripe key in
      lock n ;;
      (if bool_decide (n ∈ advanced) then mret () else addEpoch n) ;;
      d1 ← cacheDelete key;
      d2 ← probDelete key;
      unlock n (λ k, bool_decide (k = key)) ;;
      invalidateLoop (n :: advanced) (if d1 || d2 : bool then S invalidated else invalidated) keys'
  end.

Definition invalidateCacheKeys (keys : list string) : P nat := invalidateLoop [] O keys.

Definition stripeIndices : list nat := seq 0 cacheEpochStripeCount.

Definition purgeTiers : P unit :=
  cacheA (λ _ c, (cache.Purge c, ())) ;;
  probA (λ _ c, (cache.Purge c, ())) ;;
  mret ().

Definition purgeAllCache : P unit :=
  prog_iter lock stripeIndices ;;
  purgeTiers ;;
  prog_iter addEpoch stripeIndices ;;
  prog_iter (λ n, unlock n (λ k, bool_decide (cacheEpochStripe k = n))) (rev stripeIndices).

(** The end of [writeThroughSet]: store a HOT key's new value, drop any other key;
    the number of invalidated keys. *)
Definition writeThroughStore (key value : string) (prot prob : bool) : P nat :=
  let policy := cachepolicy.Match policies key in
  hot ← (if bool_decide (cachepolicy.dMode policy = cachepolicy.ModeCache)
         then trackerRead (λ t, hotness.IsHot t key) else mret false);
  if hot : bool then
    stored ← storeLocal key (mkValue (bytes_of value) true (-1)) policy;
    mret (if stored : bool then O else if prot || prob then 1%nat else O)
  else
    d ← cacheDelete key;
    mret (if d || prob then 1%nat else O).

Definition writeThroughSet (key value : string) : P nat :=
  let n := cacheEpochStripe key in
  lock n ;;
  addEpoch n ;;
  prot ← cacheA (λ now c, (c, bool_decide (is_Some (cache.Inspect c now key))));
  prob ← probA (λ now c, (c, bool_decide (is_Some (cache.Inspect c now key))));
  probDelete key ;;
  res ← writeThroughStore key value prot (default false prob);
  unlock n (λ k, bool_decide (k = key)) ;;
  mret res.

Definition isPlainSet (command : string) (args keys : list string) (result : any + Err) : option (string * string) :=
  match result, args, keys with
  | inl (AnyString status), [k; v], [k'] =>
      if EqualFold status "OK" && EqualFold command "SET" && bool_decide (k' = k) then Some (k, v) else None
  | _, _, _ => None
  end.

Definition finalizeWrite (command : string) (args keys : list string) (result : any + Err) : P nat :=
  match isPlainSet command args keys result with
  | Some (k, v) => writeThroughSet k v
  | None => invalidateCacheKeys keys
  end.

(** ** Mutation gates *)

Definition acquireGate (n : nat) : P (option Err) :=
  act (λ i e s, match tCtx e with
                | Some err => Some (s, Some err)
                | None => match default None (mutationGates s !! n) with
                          | Some _ => None
                          | None => Some (set_gate s n (Some i), None)
                          end
                end).

Definition releaseGate (n : nat) : P unit := act (λ _ _ s, Some (set_gate s n None, ())).

Definition releaseMutationStripes (stripes : list nat) : P unit := prog_iter releaseGate (rev stripes).

Fixpoint acquireLoop (acquired needed : list nat) : P (list nat + Err) :=
  match needed with
  | [] => mret (inl acquired)
  | n :: needed' =>
      err ← ctxErr;
      match err with
      | Some x => releaseMutationStripes acquired ;; mret (inr x)
      | None =>
          err ← acquireGate n;
          match err with
          | Some x => releaseMutationStripes acquired ;; mret (inr x)
          | None => acquireLoop (acquired ++ [n]) needed'
          end
      end
  end.

(** The required stripes in ascending order, each once. *)
Definition neededStripes (keys : list string) : list nat :=
  filter (λ n, n ∈ map cacheEpochStripe keys) stripeIndices.

Definition acquireMutationStripes (keys : list string) : P (list nat + Err) :=
  acquireLoop [] (neededStripes keys).

(** ** Requests *)

Definition forget (key : string) : P unit :=
  act (λ _ _ s, Some (set_group s (sf_forget (group s) key) (started s), ())).

Definition ExecuteWrite (command : string) (args keys : list string) : P (any + Err) :=
  acquired ← acquireMutationStripes keys;
  match acquired with
  | inr err => mret (inr err)
  | inl stripes =>
      n1 ← invalidateCacheKeys keys;
      start ← clockNow;
      result ← upstreamDoA (command :: args) keys;
      let failed := match result with inl _ => false | inr _ => true end in
      recordA (λ e r, metrics.ObserveUpstream r command (t_sub (tNow e) start) failed) ;;
      n2 ← finalizeWrite command args keys result;
      prog_iter forget keys ;;
      prog_iter (λ _, recordA (λ _ r, metrics.Invalidation r "write")) (seq 0 (n1 + n2)) ;;
      observeCache ;;
      releaseMutationStripes stripes ;;
      mret result
  end.

Definition PassThrough (command : string) (args : list string) : P (any + Err) :=
  start ← clockNow;
  result ← upstreamDoA (command :: args) [];
  let failed := match result with inl _ => false | inr _ => true end in
  recordA (λ e r, metrics.ObserveUpstream r command (t_sub (tNow e) start) failed) ;;
  mret result.

Definition fetchUpstreamGet (key : string) : P (Value + Err) :=
  start ← clockNow;
  r ← upstreamGetA key;
  recordA (λ e rec, metrics.ObserveUpstream rec "GET" (t_sub (tNow e) start)
                      (match r with inl _ => false | inr _ => true end)) ;;
  mret r.

(** The function that [DoChan] runs in a goroutine of its own. *)
Definition flightBody (fl : flight) : P unit :=
  r ← fetchUpstreamGet (flKey fl);
  (match r with
   | inr _ => mret ()
   | inl value => reconcileLocalIfCurrent (flKey fl) value (flEpoch fl) (flPolicy fl)
   end) ;;
  act (λ _ _ s, Some (set_group s (sf_finish (group s) (flCall fl) r) (started s), ())).

Definition doChan (key : string) (ep : Z) (policy : cachepolicy.Decision) : P nat :=
  act (λ _ _ s,
    let '(g, (call, lead)) := sf_do (group s) key in
    Some (set_group s g (if lead : bool then started s ++ [mkFlight call key ep policy] else started s),
          call)).

(** The select between the context and the result channel. *)
Definition awaitFlight (call : nat) : P (((Value + Err) * bool) + Err) :=
  act (λ _ e s, match tCtx e with
                | Some err => Some (s, inr err)
                | None => match sf_poll (group s) call with
                          | Some r => Some (s, inl r)
                          | None => None
                          end
                end).

Definition hitValue (item : cache.EntrySnapshot) : Value :=
  mkValue (cache.sValue item) true (cache.sTTL item).

Definition observeKey (policy : cachepolicy.Decision) (key : string) : P (option hotness.State) :=
  if bool_decide (cachepolicy.dMode policy = cachepolicy.ModeDeny) then mret None
  else o ← observe key; handleObservation o ;; mret (hotness.oState o).

Definition readCached (policy : cachepolicy.Decision) (key : string) (state : option hotness.State)
    : P (option cache.EntrySnapshot) :=
  if bool_decide (cachepolicy.dMode policy = cachepolicy.ModeCache)
  then getFreshCachedInState key state else mret None.

Definition Get (key : string) : P (Value + Err) :=
  if bool_decide (key = EmptyString) then mret (inr "key is required"%string)
  else
    err ← ctxErr;
    match err with
    | Some x => mret (inr x)
    | None =>
        let policy := cachepolicy.Match policies key in
        state ← observeKey policy key;
        item ← readCached policy key state;
        match item with
        | Some x => recordA (λ _ r, metrics.CacheHit r "GET") ;; mret (inl (hitValue x))
        | None =>
            recordA (λ _ r, metrics.CacheMissWithReason r "GET" (cacheMissReason policy state)) ;;
            if negb (bool_decide (cachepolicy.dMode policy = cachepolicy.ModeCache)) then
              value ← fetchUpstreamGet key; observeCache ;; mret value
            else
              ep ← loadEpoch (cacheEpochStripe key);
              call ← doChan key ep policy;
              r ← awaitFlight call;
              match r with
              | inr err => mret (inr err)
              | inl (res, shared) =>
                  (if shared : bool then recordA (λ _ r, metrics.Coalesced r) else mret ()) ;;
                  match res with
                  | inl v => observeCache ;; mret (inl v)
                  | inr err =>
                      if config.cacheAllowStaleOnUpstreamError (config.Cache cfg) then
                        stale ← cacheA (λ now c,
                          cache.GetStale c now key (config.cacheStaleGrace (config.Cache cfg)));
                        match stale with
                        | Some x => mret (inl (hitValue x))
                        | None => mret (inr err)
                        end
                      else mret (inr err)
                  end
              end
        end
    end.

(** ** MGet *)

(** [missingRead], with the key it reads. *)
Record missingRead := mkMissing {
  mrPosition : nat;
  mrEpoch : Z;
  mrPolicy : cachepolicy.Decision;
  mrKey : string
}.

(** The first loop: local hits fill [out], the other keys are collected. *)
Fixpoint mgetLocal (i : nat) (keys : list string) (out : list Value) (missing : list missingRead)
    : P (list Value * list missingRead) :=
  match keys with
  | [] => mret (out, missing)
  | key :: keys' =>
      let policy := cachepolicy.Match policies key in
      state ← observeKey policy key;
      item ← readCached policy key state;
      match item with
      | Some x =>
          recordA (λ _ r, metrics.CacheHit r "MGET") ;;
          mgetLocal (S i) keys' (<[i := hitValue x]> out) missing
      | None =>
          recordA (λ _ r, metrics.CacheMissWithReason r "MGET" (cacheMissReason policy state)) ;;
          ep ← (if bool_decide (cachepolicy.dMode policy = cachepolicy.ModeCache)
                then loadEpoch (cacheEpochStripe key) else mret 0);
          mgetLocal (S i) keys' out (missing ++ [mkMissing i ep policy key])
      end
  end.

(** The stale loop after a failed upstream call, with the number of stale hits. *)
Fixpoint mgetStale (missing : list missingRead) (out : list Value) (staleCount : nat) : P (list Value * nat) :=
  match missing with
  | [] => mret (out, staleCount)
  | m :: missing' =>
      if negb (bool_decide (cachepolicy.dMode (mrPolicy m) = cachepolicy.ModeCache))
      then mgetStale missing' out staleCount
      else
        item ← cacheA (λ now c, cache.GetStale c now (mrKey m) (config.cacheStaleGrace (config.Cache cfg)));
        match item with
        | Some x => mgetStale missing' (<[mrPosition m := hitValue x]> out) (S staleCount)
        | None => mgetStale missing' out staleCount
        end
  end.

(** The final loop over the upstream values: a value beyond the missing keys
    would index out of range. *)
Fixpoint mgetStore (values : list Value) (missing : list missingRead) (out : list Value) : P (list Value) :=
  match values, missing with
  | [], _ => mret out
  | _ :: _, [] => Panic
  | v :: values', m :: missing' =>
      let out := <[mrPosition m := v]> out in
      (if bool_decide (cachepolicy.dMode (mrPolicy m) = cachepolicy.ModeCache)
       then reconcileLocalIfCurrent (mrKey m) v (mrEpoch m) (mrPolicy m) else mret ()) ;;
      mgetStore values' missing' out
  end.

Definition MGet (keys : list string) : P (list Value + Err) :=
  let out := replicate (length keys) noValue in
  if bool_decide (keys = []) then mret (inl out)
  else
    r ← mgetLocal O keys out [];
    let '(out, missing) := r in
    if bool_decide (length missing = O) then mret (inl out)
    else
      start ← clockNow;
      values ← upstreamMGetA (map mrKey missing);
      recordA (λ e rec, metrics.ObserveUpstream rec "MGET" (t_sub (tNow e) start)
                          (match values with inl _ => false | inr _ => true end)) ;;
      match values with
      | inr err =>
          if config.cacheAllowStaleOnUpstreamError (config.Cache cfg) then
            r ← mgetStale missing out O;
            if bool_decide (r.2 = length missing) then mret (inl r.1) else mret (inr err)
          else mret (inr err)
      | inl vs => out ← mgetStore vs missing out; observeCache ;; mret (inl out)
      end.

(** ** Administration *)

Definition PurgeCache (key : string) : P bool :=
  if bool_decide (key = EmptyString) then purgeAllCache ;; observeCache ;; mret true
  else
    n ← invalidateCacheKeys [key];
    forget key ;;
    let ok := (0 <? n)%nat in
    (if ok then recordA (λ _ r, metrics.Invalidation r "admin_purge") else mret ()) ;;
    observeCache ;;
    mret ok.

Definition SetProxyActive (active : bool) : P unit := act (λ _ _ s, Some (set_flags s active (closed s), ())).

(** [Close]: the first call closes the tiers; the upstream client is closed last. *)
Definition Close : P unit :=
  first ← act (λ _ _ s, if closed s then Some (s, false) else Some (set_flags s (proxyActive s) true, true));
  if first : bool then
    cacheA (λ _ c, (cache.Close c, ())) ;;
    probA (λ _ c, (cache.Close c, ())) ;;
    mret ()
  else mret ().

End service.
Arguments Service F U G : clear implicits.
End service.
