(* ===== verification/Views.v ===== *)
(** * internal/service: the administrator's views, and internal/privacy

    [Ready], [Status], [HotKeys], [CacheInfo] (service.go) and [Audit] (audit.go):
    programs on the shared service state like the requests of clients, since they
    advance the tracker and drop demoted keys. Identifiers of keys go through
    internal/privacy, whose HMAC is a library function, a field of [Deployment]. *)
From stdpp Require Import prelude gmap strings list fin_maps.
From Stdlib Require Import ZArith Lia Ascii.
From S2P Require Import Prelude Float64 GoStd GoTime CachePolicy Config Cache Hotness Scorer Metrics ServiceBase Conc Service.
Local Open Scope Z_scope.

Module privacy.
Import gostd.

Definition VisibilityHash : string := "hash".
Definition VisibilityPlain : string := "plain".

(** [hex.EncodeToString] *)
Definition hexDigit (n : Z) : ascii := chr (Z.to_nat (if n <? 10 then 48 + n else 87 + n)).
Definition hexByte (b : Z) : list ascii := [hexDigit (Z.shiftr b 4); hexDigit (Z.land b 15)].
Definition EncodeToString (l : list Z) : string := ofChars (l ≫= hexByte).

(** What the views use besides the service's state: the HMAC-SHA-256 of a message
    under a secret (a library function: 32 bytes), and the fields of the service
    that are fixed when it is built. *)
Class Deployment := {
  hmac : string → string → list Z;
  hmac_size secret key : length (hmac secret key) = 32%nat;
  version : string;
  commit : string;
  startedAt : Time
}.

Section identifiers.
Context `{Deployment}.

Definition HMACKeyIdentifier (key secret : string) : string :=
  ("hmac-sha256:" ++ EncodeToString (take 16 (hmac secret key)))%string.

Definition KeyIdentifier (key secret visibility : string) : string :=
  if bool_decide (visibility = VisibilityPlain) then key else HMACKeyIdentifier key secret.

(** A hashed identifier has a fixed shape: the prefix and 32 hexadecimal digits. *)
Definition hashed (id : string) : Prop :=
  ∃ digits, id = ("hmac-sha256:" ++ ofChars digits)%string ∧ length digits = 32%nat.

Lemma HMACKeyIdentifier_hashed key secret : hashed (HMACKeyIdentifier key secret).
Proof.
  eexists. split; [reflexivity|].
  assert (Hl : ∀ l : list Z, length (l ≫= hexByte) = (2 * length l)%nat).
  { intros l. induction l as [|b l IH]; [done|]. cbn [mbind list_bind]. rewrite length_app, IH. cbn. lia. }
  rewrite Hl, length_take, hmac_size. done.
Qed.

End identifiers.
End privacy.

Module views.
Import gostd gotime upstream svcbase service privacy.

Record HotKey (F : Type) := mkHotKey {
  hkID : string;
  hkState : string;
  hkScore : F;
  hkRequestRate : F;
  hkLocallyCached : bool;
  hkCacheAge : string;
  hkRemainingLocalTTL : string
}.
Arguments mkHotKey {F}. Arguments hkID {F}. Arguments hkState {F}. Arguments hkScore {F}.
Arguments hkRequestRate {F}. Arguments hkLocallyCached {F}. Arguments hkCacheAge {F}.
Arguments hkRemainingLocalTTL {F}.

Record CacheInfo := mkCacheInfo { ciEntries : Z; ciBytes : Z; ciMaxBytes : Z; ciEvictions : Z }.

Record Status := mkStatus {
  stVersion : string;
  stCommit : string;
  stMode : string;
  stKeyVisibility : string;
  stUptime : string;
  stUpstreamStatus : string;
  stCacheBytes : Z;
  stCacheEntries : Z;
  stTrackedKeys : Z;
  stHotKeys : Z;
  stTotalRequests : Z;
  stCacheHits : Z;
  stCacheMisses : Z;
  stCacheMissesPolicyBypass : Z;
  stCacheMissesNotAdmitted : Z;
  stCacheMissesNotPresent : Z;
  stUpstreamRequests : Z;
  stRequestsTotal : Z;
  stCacheHitsTotal : Z;
  stCacheMissesTotal : Z;
  stUpstreamRequestsTotal : Z;
  stUpstreamGetsTotal : Z;
  stInvalidationsTotal : Z;
  stPromotionsTotal : Z;
  stDemotionsTotal : Z;
  stCoalescedRequestsTotal : Z;
  stPromotions : Z;
  stDemotions : Z;
  stCoalescedRequests : Z
}.

Record AuditEntry (F : Type) := mkAuditEntry {
  aeID : string;
  aeRequestRate : F;
  aeHotnessState : string;
  aeEffectivePolicyMode : string;
  aeRecommendation : string;
  aeReasonCodes : list string
}.
Arguments mkAuditEntry {F}. Arguments aeID {F}. Arguments aeRequestRate {F}. Arguments aeHotnessState {F}.
Arguments aeEffectivePolicyMode {F}. Arguments aeRecommendation {F}. Arguments aeReasonCodes {F}.

Record AuditReport (F : Type) := mkAuditReport {
  arSchemaVersion : string;
  arGeneratedAt : string;
  arMeasurementWindow : string;
  arMode : string;
  arKeyVisibility : string;
  arTrackedKeys : Z;
  arTrackingCapacity : Z;
  arTrackingEvictions : Z;
  arCapacityObservationsDropped : Z;
  arOversizedObservationsDropped : Z;
  arTelemetryComplete : bool;
  arReturnedEntries : Z;
  arTruncated : bool;
  arEntries : list (AuditEntry F)
}.
Arguments mkAuditReport {F}. Arguments arSchemaVersion {F}. Arguments arGeneratedAt {F}.
Arguments arMeasurementWindow {F}. Arguments arMode {F}. Arguments arKeyVisibility {F}.
Arguments arTrackedKeys {F}. Arguments arTrackingCapacity {F}. Arguments arTrackingEvictions {F}.
Arguments arCapacityObservationsDropped {F}. Arguments arOversizedObservationsDropped {F}.
Arguments arTelemetryComplete {F}. Arguments arReturnedEntries {F}. Arguments arTruncated {F}.
Arguments arEntries {F}.

Definition AuditSchemaVersion : string := "slizen.audit.v1".

(** [string(state)] *)
Definition stateName (s : hotness.State) : string :=
  match s with
  | hotness.StateCold => "COLD"
  | hotness.StateWarm => "WARM"
  | hotness.StateHot => "HOT"
  | hotness.StateCooling => "COOLING"
  end.

Definition Millisecond : Duration := 1000000.

Section views.
Context {F : Type} `{Float64 F} {U : Type} `{Upstream U} {G : Type} `{SingleFlight G}.
Context `{Deployment} (cfg : config.Config F).
Notation Sv := (Service F U G).
Notation P := (prog Tick Sv).

(** [upstream.Ping] *)
Definition ping : P (option Err) := act (λ _ e s, Some (s, tFail e)).

Definition Ready : P (option Err) :=
  active ← act (λ _ _ s, Some (s, proxyActive s));
  if negb active then mret (Some "proxy listener is not active"%string) else ping.

Definition advanceA : P (list hotness.Transition) :=
  act (λ _ e s, let '(t, l) := hotness.Advance (tracker s) (tNow e) (tOrder e) in Some (set_tracker s t, l)).

Definition advanceAndSnapshotA (limit : Z) : P (hotness.View F) :=
  act (λ _ e s, let '(t, v) := scorer.AdvanceAndSnapshot (tracker s) (tNow e) (tOrder e) (tOrder2 e) limit in
                Some (set_tracker s t, v)).

(** [combinedCacheStats(s.cache.Stats(), s.probationary)]: the protected tier is
    read first. *)
Definition cacheStats : P cache.Stats :=
  st ← cacheA (λ _ c, (c, cache.stats c));
  act (λ _ _ s, Some (s, combinedCacheStats st (probationary s))).

Definition loadA (c : metrics.counter) : P Z := act (λ _ _ s, Some (s, metrics.load (recorder s) c)).

(** [Recorder.Snapshot]: one atomic load after the other. *)
Definition metricsSnapshot : P metrics.Snapshot :=
  requests ← loadA metrics.totalRequests;
  hits ← loadA metrics.totalCacheHits;
  misses ← loadA metrics.totalCacheMisses;
  unclassified ← loadA (metrics.totalCacheMissesByReason metrics.CacheMissReasonUnclassified);
  bypass ← loadA (metrics.totalCacheMissesByReason metrics.CacheMissReasonPolicyBypass);
  notAdmitted ← loadA (metrics.totalCacheMissesByReason metrics.CacheMissReasonNotAdmitted);
  notPresent ← loadA (metrics.totalCacheMissesByReason metrics.CacheMissReasonNotPresent);
  upstreamReqs ← loadA metrics.totalUpstreamReqs;
  upstreamGets ← loadA metrics.totalUpstreamGets;
  upstreamErrs ← loadA metrics.totalUpstreamErrs;
  promotions ← loadA metrics.totalPromotions;
  demotions ← loadA metrics.totalDemotions;
  invalidates ← loadA metrics.totalInvalidates;
  coalesced ← loadA metrics.totalCoalesced;
  mret (metrics.mkSnapshot requests hits misses unclassified bypass notAdmitted notPresent upstreamReqs
          upstreamGets upstreamErrs promotions demotions invalidates coalesced).

Definition StatusView : P Status :=
  transitions ← advanceA;
  handleTransitions transitions ;;
  stats ← cacheStats;
  recordA (λ _ r, metrics.ObserveCache r (cache.Entries stats) (cache.Bytes stats) (cache.Evictions stats)) ;;
  counts ← trackerRead hotness.Stats;
  recordA (λ _ r, metrics.SetHotKeys r counts.2) ;;
  snap ← metricsSnapshot;
  err ← ping;
  now ← clockNow;
  mret
    {| stVersion := version; stCommit := commit; stMode := config.Mode cfg;
       stKeyVisibility := config.EffectiveKeyVisibility cfg;
       stUptime := DurationString (Round (t_sub now startedAt) Second);
       stUpstreamStatus := match err with Some _ => "error" | None => "ok" end%string;
       stCacheBytes := cache.Bytes stats; stCacheEntries := cache.Entries stats;
       stTrackedKeys := counts.1; stHotKeys := counts.2;
       stTotalRequests := metrics.snTotalRequests snap;
       stCacheHits := metrics.snCacheHits snap;
       stCacheMisses := metrics.snCacheMisses snap;
       stCacheMissesPolicyBypass := metrics.snCacheMissesPolicyBypass snap;
       stCacheMissesNotAdmitted := metrics.snCacheMissesNotAdmitted snap;
       stCacheMissesNotPresent := metrics.snCacheMissesNotPresent snap;
       stUpstreamRequests := metrics.snUpstreamRequests snap;
       stRequestsTotal := metrics.snTotalRequests snap;
       stCacheHitsTotal := metrics.snCacheHits snap;
       stCacheMissesTotal := metrics.snCacheMisses snap;
       stUpstreamRequestsTotal := metrics.snUpstreamRequests snap;
       stUpstreamGetsTotal := metrics.snUpstreamGets snap;
       stInvalidationsTotal := metrics.snInvalidations snap;
       stPromotionsTotal := metrics.snPromotions snap;
       stDemotionsTotal := metrics.snDemotions snap;
       stCoalescedRequestsTotal := metrics.snCoalescedRequests snap;
       stPromotions := metrics.snPromotions snap;
       stDemotions := metrics.snDemotions snap;
       stCoalescedRequests := metrics.snCoalescedRequests snap |}.

Definition identify (key : string) : string :=
  KeyIdentifier key (config.privacyKeyHashSecret (config.Privacy cfg)) (config.EffectiveKeyVisibility cfg).

(** One row of [HotKeys]. *)
Definition hotKeyRow (sn : hotness.Snapshot F) (item : option cache.EntrySnapshot) : HotKey F :=
  mkHotKey (identify (hotness.snKey sn)) (stateName (hotness.snState sn)) (hotness.snScore sn)
    (hotness.snRequestRate sn) (bool_decide (is_Some item))
    (match item with Some x => DurationString (Round (cache.sAge x) Millisecond) | None => EmptyString end)
    (match item with Some x => DurationString (Round (cache.sTTL x) Millisecond) | None => EmptyString end).

Fixpoint hotKeyRows (out : list (HotKey F)) (l : list (hotness.Snapshot F)) : P (list (HotKey F)) :=
  match l with
  | [] => mret out
  | sn :: l' =>
      item ← cacheA (λ now c, (c, cache.Inspect c now (hotness.snKey sn)));
      hotKeyRows (out ++ [hotKeyRow sn item]) l'
  end.

Definition HotKeys (limit : Z) : P (list (HotKey F)) :=
  view ← advanceAndSnapshotA limit;
  handleTransitions (hotness.vTransitions view) ;;
  hotKeyRows [] (hotness.vSnapshots view).

Definition CacheInfoView : P CacheInfo :=
  stats ← cacheStats;
  recordA (λ _ r, metrics.ObserveCache r (cache.Entries stats) (cache.Bytes stats) (cache.Evictions stats)) ;;
  mret (mkCacheInfo (cache.Entries stats) (cache.Bytes stats) (cache.MaxBytes stats) (cache.Evictions stats)).

(** One entry of the audit. *)
Definition auditEntry (sn : hotness.Snapshot F) : AuditEntry F :=
  let policyMode := auditPolicyMode (cachepolicy.dMode (cachepolicy.Match (policies cfg) (hotness.snKey sn))) in
  let '(recommendation, reasons) := auditRecommendation policyMode (hotness.snState sn) in
  mkAuditEntry (identify (hotness.snKey sn)) (hotness.snRequestRate sn) (stateName (hotness.snState sn))
    policyMode recommendation reasons.

Definition auditReport (view : hotness.View F) (now : Time) : AuditReport F :=
  let entries := map auditEntry (hotness.vSnapshots view) in
  let returned := Z.of_nat (length entries) in
  {| arSchemaVersion := AuditSchemaVersion;
     arGeneratedAt := FormatRFC3339Nano now;
     arMeasurementWindow := DurationString (config.hotnessWindow (config.Hotness cfg));
     arMode := config.Mode cfg;
     arKeyVisibility := config.EffectiveKeyVisibility cfg;
     arTrackedKeys := hotness.vTracked view;
     arTrackingCapacity := config.hotnessMaxTrackedKeys (config.Hotness cfg);
     arTrackingEvictions := hotness.vEvictions view;
     arCapacityObservationsDropped := hotness.vCapacityDrops view;
     arOversizedObservationsDropped := hotness.vOversized view;
     arTelemetryComplete := (hotness.vTracked view <=? returned) && (hotness.vEvictions view =? 0)
                            && (hotness.vCapacityDrops view =? 0) && (hotness.vOversized view =? 0);
     arReturnedEntries := returned;
     arTruncated := returned <? hotness.vTracked view;
     arEntries := entries |}.

Definition Audit (limit : Z) : P (AuditReport F) :=
  let limit := normalizeAuditLimit limit in
  view ← advanceAndSnapshotA limit;
  handleTransitions (hotness.vTransitions view) ;;
  now ← clockNow;
  mret (auditReport view now).

End views.
End views.
