(* ===== verification/ServiceInv.v ===== *)
(** * internal/service: the invariant of the shared state

    The laws that the upstream server is assumed to obey, the invariant that ties
    the local tiers to it, and the rely of a goroutine: what the others may do while
    it holds a stripe or a mutation gate. Every atomic action is shown to keep the
    invariant and to stay within the relies of the other goroutines. *)
From stdpp Require Import prelude gmap strings list fin_maps.
From Stdlib Require Import ZArith Lia.
From S2P Require Import Prelude Float64 GoStd CachePolicy Config Cache CacheSpec CacheProps CacheHeld.
From S2P Require Import Hotness HotnessInv Metrics ServiceBase Conc Service.
Local Open Scope Z_scope.

(** The value upstream holds for a key. *)
Definition data {U} `{Upstream U} (u : U) (k : string) : option bytes :=
  let v := up_get u 0 k in if upstream.vExists v then Some (upstream.vData v) else None.

(** What the service relies on of the server: no expiry while it runs, a multi-key
    read is a sequence of reads, keys and values are at most 512 MB, and an
    acknowledged plain SET has stored its value. *)
Class UpstreamLaws (U : Type) `{Upstream U} : Prop := {
  up_stable : ∀ u t k,
    upstream.vExists (up_get u t k) = upstream.vExists (up_get u 0 k) ∧
    upstream.vData (up_get u t k) = upstream.vData (up_get u 0 k);
  up_mget_get : ∀ u t ks, up_mget u t ks = map (up_get u t) ks;
  up_sizes : ∀ u t k, upstream.vExists (up_get u t k) = true →
    slen k <= 2 ^ 29 ∧ blen (upstream.vData (up_get u t k)) <= 2 ^ 29;
  up_set : ∀ u t cmd k v u' status,
    gostd.EqualFold cmd "SET" = true → gostd.EqualFold status "OK" = true →
    up_do u t [cmd; k; v] = (u', upstream.AnyString status) → data u' k = Some (bytes_of v)
}.

(** The command changes no key outside [keys], whatever the state of the server. *)
Definition writesOnly {U} `{Upstream U} (command keys : list string) : Prop :=
  ∀ (u : U) t k, k ∉ keys → data (up_do u t command).1 k = data u k.

Module svcinv.
Import upstream svcbase service cacheheld.

Section inv.
Context {F : Type} `{Float64 F} {U : Type} `{UpstreamLaws U} {G : Type} `{SingleFlight G}.
Context (cfg : config.Config F).
Notation Sv := (Service F U G).
Implicit Types (s : Sv) (k : string) (n : nat).

(** ** Views of the state *)

Definition owner s n : option nat := mu (stripeAt s n).
Definition epochAt s n : Z := epoch (stripeAt s n).
Definition gateOf s n : option nat := default None (mutationGates s !! n).
Definition heldP (o : option cache.Cache) k : option bytes := o ≫= λ c, held c k.

(** A value of a key in one of the tiers. *)
Definition tier s k (v : bytes) : Prop := held (protected s) k = Some v ∨ heldP (probationary s) k = Some v.

(** What may be cached at all. *)
Definition admissible k (v : bytes) : Prop :=
  let policy := cachepolicy.Match (policies cfg) k in
  cachepolicy.dMode policy = cachepolicy.ModeCache ∧
  cache.EstimateSize k v <= cachepolicy.dMaxItemBytes policy ∧ lruspec.fits k v.

(** [d] is the current upstream value, or a write of the key is being reconciled. *)
Definition cur s k (d : option bytes) : Prop := data (up s) k = d ∨ k ∈ unsettled s.

(** A value read upstream after the epoch [e] was loaded: as long as the epoch has
    not moved, it is current or the key is racing with a write. *)
Definition pend s k (d : option bytes) (e : Z) : Prop :=
  e <= epochAt s (cacheEpochStripe k) ∧
  (epochAt s (cacheEpochStripe k) = e → data (up s) k = d ∨ k ∈ racing s).

Definition flight_ok s (fl : flight) : Prop :=
  flPolicy fl = cachepolicy.Match (policies cfg) (flKey fl) ∧
  cachepolicy.dMode (flPolicy fl) = cachepolicy.ModeCache ∧
  flEpoch fl <= epochAt s (cacheEpochStripe (flKey fl)).

Definition limits : cacheTierLimits :=
  splitCacheTierLimits (config.cacheMaxBytes (config.Cache cfg)) (config.cacheMaxEntries (config.Cache cfg)).

(** A cache with the limits of [cache.New]. *)
Definition limited (maxB maxE : Z) (c : cache.Cache) : Prop :=
  cache.maxBytes c = cache.maxBytes (cache.New maxB maxE) ∧ lruspec.slots c = lruspec.slots (cache.New maxB maxE).

Definition tier_ok (maxB maxE : Z) (c : cache.Cache) : Prop := lrumachine.good c ∧ limited maxB maxE c.

(** ** The invariant *)
Record inv s : Prop := {
  inv_stripes : length (cacheEpochs s) = cacheEpochStripeCount;
  inv_gates : length (mutationGates s) = cacheEpochStripeCount;
  inv_prot : tier_ok (protectedBytes limits) (protectedEntries limits) (protected s);
  inv_prob : ∀ c, probationary s = Some c →
    tier_ok (probationaryBytes limits) (probationaryEntries limits) c ∧ probationaryEnabled limits = true;
  inv_tracker : hotinv.wf (tracker s);
  inv_racing : racing s ⊆ unsettled s;
  inv_gate : ∀ k, k ∈ unsettled s → is_Some (gateOf s (cacheEpochStripe k));
  inv_coherent : ∀ k v, tier s k v → cur s k (Some v);
  inv_apart : ∀ k v v', held (protected s) k = Some v → heldP (probationary s) k = Some v' → False;
  inv_admissible : ∀ k v, tier s k v → admissible k v;
  inv_started : ∀ fl, fl ∈ started s → flight_ok s fl
}.

(** ** The budget *)

(** Figures of the protected tier, read at some moment. *)
Definition statsWithin (st : cache.Stats) : Prop :=
  0 <= cache.Bytes st <= protectedBytes limits ∧
  (0 < protectedEntries limits → 0 <= cache.Entries st <= protectedEntries limits).

Lemma tier_bounds mb me c :
  tier_ok mb me c → 0 <= mb →
  0 <= cache.cbytes c <= mb ∧ (0 < me → 0 <= Z.of_nat (size (cache.items c)) <= me).
Proof.
  intros [[W [B1 B2]] [Hm Hsl]] Hmb. simpl in Hm.
  rewrite (proj2 (Z.ltb_ge _ _) Hmb) in Hm. rewrite Hm in B1. split.
  - split; [|done]. rewrite (lruspec.wf_bytes c W). apply sumZ_nonneg. intros e He.
    apply lruspec.ents_elem in He as [el He]; [|done]. rewrite (lruspec.wf_sizes c W el e He).
    unfold slen, blen, cache.entryOverheadBytes. lia.
  - intros Hme. split; [lia|]. rewrite (lruspec.size_items c W). revert Hsl B2. unfold lruspec.slots. simpl.
    rewrite (proj2 (Z.ltb_lt _ _) Hme). case_if; [|done]. ztests. intros [= Heq] B2. lia.
Qed.

Section budget.
Context (HB : 0 <= config.cacheMaxBytes (config.Cache cfg) < lruspec.maxBudget).
Context (HE : config.cacheMaxEntries (config.Cache cfg) <= maxInt64).

Lemma stats_within s : inv s → statsWithin (cache.stats (protected s)).
Proof.
  intros HI. destruct (split_limits (config.cacheMaxBytes (config.Cache cfg)) (config.cacheMaxEntries (config.Cache cfg)))
    as (Hp & _); [unfold lruspec.maxBudget in HB; width_lia|done|].
  exact (tier_bounds _ _ _ (inv_prot _ HI) (proj1 Hp)).
Qed.

(** The figures of the two tiers may be read at different moments. *)
Lemma combined_within st s :
  inv s → statsWithin st →
  let all := combinedCacheStats st (probationary s) in
  0 <= cache.Bytes all <= config.cacheMaxBytes (config.Cache cfg) ∧
  (0 < config.cacheMaxEntries (config.Cache cfg) →
     0 <= cache.Entries all <= config.cacheMaxEntries (config.Cache cfg)).
Proof.
  intros HI [Hb He] all.
  destruct (split_limits (config.cacheMaxBytes (config.Cache cfg)) (config.cacheMaxEntries (config.Cache cfg)))
    as (Hp & Hq & Hsum & Hent); [unfold lruspec.maxBudget in HB; width_lia|done|]. fold limits in *.
  unfold all, combinedCacheStats. destruct (probationary s) as [c|] eqn:Hpr; simpl.
  - destruct (inv_prob _ HI c Hpr) as [Hok Hen]. rewrite Hen in *.
    destruct (tier_bounds _ _ _ Hok Hq) as [Hb' He']. unfold lruspec.maxBudget in HB.
    rewrite i64_id by width_lia. split; [lia|]. intros Hpos. destruct (Hent Hpos) as (? & ? & ?).
    rewrite i64_id by width_lia. lia.
  - split; [destruct (probationaryEnabled _); lia|]. intros Hpos. destruct (Hent Hpos) as (? & Hx).
    specialize (He ltac:(lia)). destruct (probationaryEnabled _); [destruct Hx|]; lia.
Qed.
End budget.

(** ** What a goroutine may rely on *)

(** Whether it holds a stripe or not. *)
Record urely (i : nat) s s' : Prop := {
  re_gate : ∀ n, gateOf s n = Some i → gateOf s' n = Some i ∧
    ∀ k, cacheEpochStripe k = n → data (up s') k = data (up s) k ∧
      (k ∈ unsettled s' → k ∈ unsettled s) ∧ (k ∈ racing s' → k ∈ racing s);
  re_epoch : ∀ n, epochAt s n <= epochAt s' n;
  re_pend : ∀ k d e, pend s k d e → pend s' k d e
}.

(** On the stripes it holds: the epoch does not move, values only disappear from the
    tiers, and what is current stays current. *)
Record rely (i : nat) s s' : Prop := {
  re_u : urely i s s';
  re_owner : ∀ n, owner s n = Some i → owner s' n = Some i ∧ epochAt s' n = epochAt s n;
  re_prot : ∀ k v, owner s (cacheEpochStripe k) = Some i →
    held (protected s') k = Some v → held (protected s) k = Some v;
  re_prob : ∀ k v, owner s (cacheEpochStripe k) = Some i →
    heldP (probationary s') k = Some v → heldP (probationary s) k = Some v;
  re_cur : ∀ k d, owner s (cacheEpochStripe k) = Some i → cur s k d → cur s' k d
}.

Definition guar (i : nat) s s' : Prop := ∀ j, j ≠ i → rely j s s'.

#[global] Instance rely_preorder i : PreOrder (rely i).
Proof.
  split.
  - intros s. split; [split|..]; try done; naive_solver.
  - intros s1 s2 s3 [[Hg1 He1 Hp1] Ho1 Ha1 Hb1 Hc1] [[Hg2 He2 Hp2] Ho2 Ha2 Hb2 Hc2]. split; [split|..].
    + intros n Hn. destruct (Hg1 n Hn) as [Hn2 H12]. destruct (Hg2 n Hn2) as [Hn3 H23].
      split; [done|]. intros k Hk. destruct (H12 k Hk) as (? & ? & ?), (H23 k Hk) as (? & ? & ?).
      split_and!; [congruence|auto|auto].
    + intros n. specialize (He1 n). specialize (He2 n). lia.
    + eauto.
    + intros n Hn. destruct (Ho1 n Hn) as [Hn2 E1]. destruct (Ho2 n Hn2) as [Hn3 E2].
      split; [done|congruence].
    + intros k v Hk. destruct (Ho1 _ Hk). eauto.
    + intros k v Hk. destruct (Ho1 _ Hk). eauto.
    + intros k d Hk. destruct (Ho1 _ Hk). eauto.
Qed.

(** The environment: map iterations visit each entry once, and no stripe has been
    invalidated 2^64 - 1 times. *)
Definition tick_ok s (e : Tick) : Prop :=
  hotinv.valid_order (tracker s) (tOrder e) ∧ hotinv.valid_order (tracker s) (tOrder2 e) ∧ ∀ n, 0 <= epochAt s n < two64 - 1.

(** ** Stripes *)

Lemma stripeAt_set s n st m :
  (n < length (cacheEpochs s))%nat → stripeAt (set_stripe s n st) m = if decide (m = n) then st else stripeAt s m.
Proof.
  intros Hn. unfold stripeAt. simpl. case_decide as Hm.
  - subst. by rewrite list_lookup_insert_eq.
  - by rewrite list_lookup_insert_ne.
Qed.

Lemma gateOf_set s n o m :
  (n < length (mutationGates s))%nat → gateOf (set_gate s n o) m = if decide (m = n) then o else gateOf s m.
Proof.
  intros Hn. unfold gateOf. simpl. case_decide as Hm.
  - subst. by rewrite list_lookup_insert_eq.
  - by rewrite list_lookup_insert_ne.
Qed.

(** ** Actions that only touch the tracker, the recorder, the group or the flags *)

Definition same_core s s' : Prop :=
  protected s' = protected s ∧ probationary s' = probationary s ∧ cacheEpochs s' = cacheEpochs s ∧
  mutationGates s' = mutationGates s ∧ up s' = up s ∧ unsettled s' = unsettled s ∧ racing s' = racing s.

Lemma same_core_rely j s s' : same_core s s' → rely j s s'.
Proof.
  intros (E1 & E2 & E3 & E4 & E5 & E6 & E7).
  split; [split|..]; unfold pend, cur, owner, epochAt, gateOf, stripeAt; rewrite ?E1, ?E2, ?E3, ?E4, ?E5, ?E6, ?E7;
    naive_solver.
Qed.

Lemma same_core_inv s s' :
  inv s → same_core s s' → hotinv.wf (tracker s') → (∀ fl, fl ∈ started s' → flight_ok s fl) → inv s'.
Proof.
  intros I0 (E1 & E2 & E3 & E4 & E5 & E6 & E7) Ht Hf. destruct I0.
  split; try done; unfold tier, cur, gateOf, flight_ok, epochAt, stripeAt in *;
    rewrite ?E1, ?E2, ?E3, ?E4, ?E5, ?E6, ?E7; done.
Qed.

(** ** Tier actions *)

(** The protected tier changes: values disappear, or one for which the goroutine
    holds the stripe is stored. *)
Lemma prot_step i s c (new : string → bytes → Prop) :
  inv s → follows new (protected s) c →
  (∀ k v, new k v → owner s (cacheEpochStripe k) = Some i ∧ admissible k v ∧ cur s k (Some v) ∧
                    heldP (probationary s) k = None) →
  inv (set_protected s c) ∧ guar i s (set_protected s c) ∧ urely i s (set_protected s c) ∧
  ((∀ k v, ¬ new k v) → rely i s (set_protected s c)).
Proof.
  intros I0 Hf Hnew.
  assert (Hu : ∀ j, urely j s (set_protected s c)) by (intros j; split; naive_solver).
  assert (Hr : ∀ j, (∀ k v, new k v → owner s (cacheEpochStripe k) ≠ Some j) → rely j s (set_protected s c)).
  { intros j Hj. split; [done|naive_solver| |naive_solver|naive_solver].
    intros k v Ho Hh. destruct (fo_held _ _ _ Hf k v Hh) as [?|Hn]; [done|]. by destruct (Hj k v Hn). }
  split_and!; [|intros j Hj; apply Hr; intros k v Hn; destruct (Hnew k v Hn) as [-> _]; congruence|done|naive_solver].
  destruct I0 as [? ? [Hg [Hl1 Hl2]] ? ? ? ? Hc Ha Had ?]. split; try done.
  - split; [apply Hf|]. unfold limited. simpl. rewrite (fo_max _ _ _ Hf), (fo_slots _ _ _ Hf). done.
  - intros k v [Hh|Hh]; [|by apply Hc; right]. simpl in Hh.
    destruct (fo_held _ _ _ Hf k v Hh) as [?|Hn]; [by apply Hc; left|]. by destruct (Hnew k v Hn) as (_ & _ & ? & _).
  - intros k v v' Hh Hp. simpl in Hh, Hp.
    destruct (fo_held _ _ _ Hf k v Hh) as [?|Hn]; [by eapply Ha|]. destruct (Hnew k v Hn) as (_ & _ & _ & ?). congruence.
  - intros k v [Hh|Hh]; [|by apply Had; right]. simpl in Hh.
    destruct (fo_held _ _ _ Hf k v Hh) as [?|Hn]; [by apply Had; left|]. by destruct (Hnew k v Hn) as (_ & ? & _).
Qed.

Lemma prob_step i s c0 c (new : string → bytes → Prop) :
  inv s → probationary s = Some c0 → follows new c0 c →
  (∀ k v, new k v → owner s (cacheEpochStripe k) = Some i ∧ admissible k v ∧ cur s k (Some v) ∧
                    held (protected s) k = None) →
  inv (set_probationary s (Some c)) ∧ guar i s (set_probationary s (Some c)) ∧
  urely i s (set_probationary s (Some c)) ∧
  ((∀ k v, ¬ new k v) → rely i s (set_probationary s (Some c))).
Proof.
  intros I0 Hp Hf Hnew.
  assert (Hheld : ∀ k v, heldP (Some c) k = Some v → heldP (probationary s) k = Some v ∨ new k v).
  { intros k v Hh. rewrite Hp. by apply (fo_held _ _ _ Hf). }
  assert (Hu : ∀ j, urely j s (set_probationary s (Some c))) by (intros j; split; naive_solver).
  assert (Hr : ∀ j, (∀ k v, new k v → owner s (cacheEpochStripe k) ≠ Some j) → rely j s (set_probationary s (Some c))).
  { intros j Hj. split; [done|naive_solver|naive_solver| |naive_solver].
    intros k v Ho Hh. destruct (Hheld k v Hh) as [?|Hn]; [done|]. by destruct (Hj k v Hn). }
  split_and!; [|intros j Hj; apply Hr; intros k v Hn; destruct (Hnew k v Hn) as [-> _]; congruence|done|naive_solver].
  destruct I0 as [? ? ? Hpr ? ? ? Hc Ha Had ?]. split; try done.
  - intros c' [= <-]. destruct (Hpr c0 Hp) as [[Hg [Hl1 Hl2]] He]. split; [|done]. split; [apply Hf|].
    unfold limited. simpl. rewrite (fo_max _ _ _ Hf), (fo_slots _ _ _ Hf). done.
  - intros k v [Hh|Hh]; [by apply Hc; left|]. simpl in Hh.
    destruct (Hheld k v Hh) as [?|Hn]; [by apply Hc; right|]. by destruct (Hnew k v Hn) as (_ & _ & ? & _).
  - intros k v v' Hh Hh'. simpl in Hh, Hh'.
    destruct (Hheld k v' Hh') as [?|Hn]; [by eapply Ha|]. destruct (Hnew k v' Hn) as (_ & _ & _ & ?). congruence.
  - intros k v [Hh|Hh]; [by apply Had; left|]. simpl in Hh.
    destruct (Hheld k v Hh) as [?|Hn]; [by apply Had; right|]. by destruct (Hnew k v Hn) as (_ & ? & _).
Qed.

(** ** Stripe actions *)

Lemma stripe_lt s k : inv s → (cacheEpochStripe k < length (cacheEpochs s))%nat.
Proof. intros I0. rewrite (inv_stripes _ I0). apply cacheEpochStripe_lt. Qed.

Lemma owner_set s n st m : (n < length (cacheEpochs s))%nat →
  owner (set_stripe s n st) m = if decide (m = n) then mu st else owner s m.
Proof. intros Hn. unfold owner. rewrite stripeAt_set by done. by case_decide. Qed.

Lemma epochAt_set s n st m : (n < length (cacheEpochs s))%nat →
  epochAt (set_stripe s n st) m = if decide (m = n) then epoch st else epochAt s m.
Proof. intros Hn. unfold epochAt. rewrite stripeAt_set by done. by case_decide. Qed.

(** Replacing a stripe without moving its epoch. *)
Lemma stripe_epoch s n st m : (n < length (cacheEpochs s))%nat → epoch st = epochAt s n →
  epochAt (set_stripe s n st) m = epochAt s m.
Proof. intros Hn He. rewrite epochAt_set by done. case_decide; by subst. Qed.

Lemma stripe_urely j s n st : (n < length (cacheEpochs s))%nat → epoch st = epochAt s n →
  urely j s (set_stripe s n st).
Proof.
  intros Hn He. split.
  - naive_solver.
  - intros m. by rewrite stripe_epoch.
  - intros k d e. unfold pend. by rewrite stripe_epoch.
Qed.

Lemma stripe_rely j s n st : (n < length (cacheEpochs s))%nat → epoch st = epochAt s n →
  (owner s n = Some j → mu st = Some j) → rely j s (set_stripe s n st).
Proof.
  intros Hn He Hm. split; [by apply stripe_urely| |naive_solver|naive_solver|naive_solver].
  intros m Ho. rewrite stripe_epoch, owner_set by done. split; [|done]. case_decide; subst; auto.
Qed.

Lemma stripe_inv s n st : inv s → (n < length (cacheEpochs s))%nat → epoch st = epochAt s n →
  inv (set_stripe s n st).
Proof.
  intros I0 Hn He. destruct I0 as [Hl ? ? ? ? ? ? ? ? ? Hst]. split; try done.
  - simpl. by rewrite length_insert.
  - intros fl Hfl. destruct (Hst fl Hfl) as (? & ? & ?). unfold flight_ok. by rewrite stripe_epoch.
Qed.

Lemma unlock_step i s n (settle : string → bool) :
  inv s → (n < length (cacheEpochs s))%nat → owner s n = Some i →
  (∀ k, settle k = true → cacheEpochStripe k = n ∧
        (k ∉ racing s → ∀ v, tier s k v → data (up s) k = Some v)) →
  let s1 := set_stripe s n (mkStripe None (epoch (stripeAt s n)) (promotionInProgress (stripeAt s n))) in
  let s2 := set_aux s1 (filter (λ k, settle k = false ∨ k ∈ racing s) (unsettled s)) (racing s) in
  inv s2 ∧ guar i s s2 ∧ urely i s s2.
Proof.
  intros I0 Hn Ho Hset s1 s2.
  assert (I1 : inv s1) by (by apply stripe_inv).
  assert (Hun : ∀ k, k ∈ unsettled s2 ↔ (settle k = false ∨ k ∈ racing s) ∧ k ∈ unsettled s)
    by (intros k; unfold s2; simpl; by rewrite elem_of_filter).
  assert (Hu : ∀ j, urely j s s2).
  { intros j. destruct (stripe_urely j s n _ Hn (eq_refl : epoch (mkStripe None _ (promotionInProgress (stripeAt s n))) = _)).
    split; [|done|done]. intros m Hm. split; [done|]. intros k Hk. rewrite Hun. naive_solver. }
  split_and!; [|intros j Hj|done].
  - destruct I1 as [? ? ? ? ? Hra Hga Hco ? ? ?]. split; try done.
    + intros k Hk. apply Hun. split; [by right|by apply Hra].
    + intros k [_ Hk]%Hun. by apply Hga.
    + intros k v Ht. destruct (Hco k v Ht) as [?|Hk]; [by left|]. unfold cur. rewrite Hun.
      destruct (settle k) eqn:Hs; [|right; auto]. destruct (decide (k ∈ racing s)); [right; auto|].
      left. by apply (Hset k Hs).
  - assert (R : rely j s s1) by (apply stripe_rely; [done|done|congruence]).
    destruct R as [_ Ro Rp Rq Rc]. split; [apply Hu|done..|].
    intros k d Hk Hc. destruct Hc as [?|Hk2]; [by left|]. right. apply Hun. split; [|done].
    destruct (settle k) eqn:Hs; [|by left]. destruct (Hset k Hs) as [<- _]. congruence.
Qed.

Lemma addEpoch_step i s n :
  inv s → (n < length (cacheEpochs s))%nat → owner s n = Some i → 0 <= epochAt s n < two64 - 1 →
  let s1 := set_stripe s n (mkStripe (mu (stripeAt s n)) (epoch (stripeAt s n) +u 1)
                              (promotionInProgress (stripeAt s n))) in
  let s2 := set_aux s1 (unsettled s) (filter (λ k, cacheEpochStripe k ≠ n) (racing s)) in
  inv s2 ∧ guar i s s2 ∧ urely i s s2.
Proof.
  intros I0 Hn Ho Hb s1 s2.
  assert (Hep : ∀ m, epochAt s2 m = if decide (m = n) then epochAt s n + 1 else epochAt s m).
  { intros m. change (epochAt s2 m) with (epochAt s1 m). unfold s1. rewrite epochAt_set by done. simpl.
    case_decide; [|done]. apply u64_id. unfold epochAt in *. widths. lia. }
  assert (Hown : ∀ m, owner s2 m = owner s m).
  { intros m. change (owner s2 m) with (owner s1 m). unfold s1. rewrite owner_set by done. by case_decide; subst. }
  assert (Hra : ∀ k, k ∈ racing s2 ↔ cacheEpochStripe k ≠ n ∧ k ∈ racing s) by (intros k; unfold s2; simpl; by rewrite elem_of_filter).
  assert (Hmono : ∀ m, epochAt s m <= epochAt s2 m) by (intros m; rewrite Hep; case_decide; subst; lia).
  assert (Hu : ∀ j, urely j s s2).
  { intros j. split; [|done|].
    - intros m Hm. split; [done|]. intros k Hk. rewrite Hra. naive_solver.
    - intros k d e [He1 He2]. unfold pend. rewrite Hep, Hra. case_decide as Hk; [|naive_solver].
      rewrite Hk in He1. split; [lia|]. intros ?. lia. }
  split_and!; [|intros j Hj|done].
  - destruct I0 as [? ? ? ? ? Hsub ? ? ? ? Hst]. split; try done.
    + simpl. by rewrite length_insert.
    + intros k [_ Hk]%Hra. by apply Hsub.
    + intros fl Hfl. destruct (Hst fl Hfl) as (? & ? & Hle). unfold flight_ok.
      pose proof (Hmono (cacheEpochStripe (flKey fl))). split_and!; [done|done|lia].
  - split; [apply Hu| |naive_solver|naive_solver|naive_solver].
    intros m Hm. rewrite Hown, Hep. split; [done|]. case_decide; [subst; congruence|done].
Qed.

(** ** Gate actions *)

Lemma gate_rely j s n o : (n < length (mutationGates s))%nat → (gateOf s n = Some j → o = Some j) →
  rely j s (set_gate s n o).
Proof.
  intros Hn Ho. split; [split|..]; try naive_solver.
  intros m Hm. rewrite gateOf_set by done. split; [|naive_solver]. case_decide; subst; auto.
Qed.

Lemma gate_inv s n o :
  inv s → (n < length (mutationGates s))%nat → (o = None → ∀ k, cacheEpochStripe k = n → k ∉ unsettled s) →
  inv (set_gate s n o).
Proof.
  intros I0 Hn Ho. destruct I0 as [? Hl ? ? ? ? Hga ? ? ? ?]. split; try done.
  - simpl. by rewrite length_insert.
  - intros k Hk. rewrite gateOf_set by done. case_decide as Hkn; [|by apply Hga].
    destruct o; [by eexists|]. by destruct (Ho eq_refl k Hkn).
Qed.

(** An upstream write of [keys], whose gates the goroutine holds. *)
Lemma do_step i s u (keys : list string) :
  inv s → (∀ k, k ∈ keys → gateOf s (cacheEpochStripe k) = Some i) →
  (∀ k, k ∉ keys → data u k = data (up s) k) →
  let s' := set_aux (set_up s u) (list_to_set keys ∪ unsettled s) (list_to_set keys ∪ racing s) in
  inv s' ∧ guar i s s'.
Proof.
  intros I0 Hg Hd s'.
  assert (Hun : ∀ k, k ∈ unsettled s' ↔ k ∈ keys ∨ k ∈ unsettled s)
    by (intros k; simpl; by rewrite elem_of_union, elem_of_list_to_set).
  assert (Hra : ∀ k, k ∈ racing s' ↔ k ∈ keys ∨ k ∈ racing s)
    by (intros k; simpl; by rewrite elem_of_union, elem_of_list_to_set).
  assert (Hcur : ∀ k d, cur s k d → cur s' k d).
  { intros k d [Hc|Hc]; unfold cur; rewrite Hun; [|by right; right].
    destruct (decide (k ∈ keys)); [by right; left|]. left. simpl. by rewrite Hd. }
  split.
  - destruct I0 as [? ? ? ? ? Hsub Hga Hco ? ? ?]. split; try done.
    + intros k [?|?]%Hra; apply Hun; [by left|right; by apply Hsub].
    + intros k [Hk|Hk]%Hun; [|by apply Hga]. change (is_Some (gateOf s (cacheEpochStripe k))).
      rewrite Hg by done. by eexists.
    + intros k v Ht. by apply Hcur, Hco.
  - intros j Hj. split; [split|naive_solver|naive_solver|naive_solver|naive_solver].
    + intros n Hn. split; [done|]. intros k Hk.
      assert (Hnk : k ∉ keys) by (intros Hk'; apply Hg in Hk'; congruence).
      rewrite Hun, Hra. split_and!; [by apply Hd|naive_solver|naive_solver].
    + done.
    + intros k d e [He1 He2]. split; [done|]. intros He. rewrite Hra.
      destruct (decide (k ∈ keys)); [by right; left|]. simpl. rewrite Hd by done. naive_solver.
Qed.

End inv.
End svcinv.
