(* ===== verification/ServiceLogic.v ===== *)
(** * internal/service: a program logic for its methods

    [triple i P p Q]: run by goroutine [i] from a state with [P], program [p] keeps
    the invariant of the service and the relies of the other goroutines at every
    action, and ends with [Q]. Assertions are predicates of the state that the other
    goroutines cannot falsify ([Stable]). *)
From stdpp Require Import prelude gmap strings list fin_maps.
From Stdlib Require Import ZArith Lia.
From S2P Require Import Prelude Float64 GoStd CachePolicy Config Cache CacheSpec CacheProps CacheHeld.
From S2P Require Import Hotness HotnessInv Metrics ServiceBase Conc Service ServiceInv.
Local Open Scope Z_scope.

Module svclogic.
Import upstream svcbase service cacheheld svcinv.

Section logic.
Context {F : Type} `{Float64 F} {U : Type} `{UpstreamLaws U} {G : Type} `{SingleFlight G}.
Context (cfg : config.Config F).
Notation Sv := (Service F U G).
Notation P := (prog Tick Sv).
Notation assertion := (Sv → Prop).
Implicit Types (s : Sv) (k : string) (n : nat) (Φ Ψ : assertion).

(** ** Assertions *)

Class Stable (i : nat) (Φ : assertion) : Prop :=
  stable : ∀ s s1, Φ s → rely i s s1 → inv cfg s1 → Φ s1.
(** Stable even when the goroutine takes or gives up a stripe. *)
Class UStable (i : nat) (Φ : assertion) : Prop := ustable : ∀ s s1, Φ s → urely i s s1 → Φ s1.

#[global] Instance ustable_stable i Φ : UStable i Φ → Stable i Φ.
Proof. intros Hu s s1 Hs [Hr] _. by eapply Hu. Qed.

Definition both Φ Ψ : assertion := λ s, Φ s ∧ Ψ s.
Definition pure (φ : Prop) : assertion := λ _, φ.
Definition Own (i n : nat) : assertion := λ s, owner s n = Some i.
(** The goroutine holds the stripe of [k] and a tier does not hold [k]. *)
Definition NoProt (i : nat) k : assertion :=
  λ s, owner s (cacheEpochStripe k) = Some i ∧ held (protected s) k = None.
Definition NoProb (i : nat) k : assertion :=
  λ s, owner s (cacheEpochStripe k) = Some i ∧ heldP (probationary s) k = None.
Definition Cur (i : nat) k (d : option bytes) : assertion :=
  λ s, owner s (cacheEpochStripe k) = Some i ∧ cur s k d.
Definition EpochLe n (e : Z) : assertion := λ s, e <= epochAt s n.
Definition Pend k (d : option bytes) (e : Z) : assertion := λ s, pend s k d e.
(** The gates of [l] are held, and the unsettled keys behind them are among [ks]. *)
Definition Gates (i : nat) (l : list nat) (ks : list string) : assertion :=
  λ s, ∀ n, n ∈ l → gateOf s n = Some i ∧ ∀ k, cacheEpochStripe k = n → k ∈ unsettled s → k ∈ ks.

#[global] Instance both_stable i Φ Ψ : Stable i Φ → Stable i Ψ → Stable i (both Φ Ψ).
Proof. intros H1' H2' s s1 [Hs1 Hs2] Hr HI. split; by eapply stable. Qed.
#[global] Instance both_ustable i Φ Ψ : UStable i Φ → UStable i Ψ → UStable i (both Φ Ψ).
Proof. intros H1' H2' s s1 [Hs1 Hs2] Hr. split; by eapply ustable. Qed.
#[global] Instance pure_ustable i φ : UStable i (pure φ).
Proof. by intros s s1. Qed.
#[global] Instance EpochLe_ustable i n e : UStable i (EpochLe n e).
Proof. intros s s1 Hs Hr. unfold EpochLe in *. pose proof (re_epoch _ _ _ Hr n). lia. Qed.
#[global] Instance Pend_ustable i k d e : UStable i (Pend k d e).
Proof. intros s s1 Hs Hr. by eapply re_pend. Qed.
#[global] Instance Gates_ustable i l ks : UStable i (Gates i l ks).
Proof.
  intros s s1 Hs Hr n Hn. destruct (Hs n Hn) as [Hg Hk]. destruct (re_gate _ _ _ Hr n Hg) as [Hg1 Hd].
  split; [done|]. intros k Hkn Hu. apply Hk; [done|]. by apply (Hd k Hkn).
Qed.
#[global] Instance Own_stable i n : Stable i (Own i n).
Proof. intros s s1 Hs Hr _. by apply (re_owner _ _ _ Hr). Qed.
#[global] Instance NoProt_stable i k : Stable i (NoProt i k).
Proof.
  intros s s1 [Ho Hh] Hr _. split; [by apply (re_owner _ _ _ Hr)|].
  destruct (held (protected s1) k) eqn:E; [|done]. apply (re_prot _ _ _ Hr) in E; [congruence|done].
Qed.
#[global] Instance NoProb_stable i k : Stable i (NoProb i k).
Proof.
  intros s s1 [Ho Hh] Hr _. split; [by apply (re_owner _ _ _ Hr)|].
  destruct (heldP (probationary s1) k) eqn:E; [|done]. apply (re_prob _ _ _ Hr) in E; [congruence|done].
Qed.
#[global] Instance Cur_stable i k d : Stable i (Cur i k d).
Proof. intros s s1 [Ho Hh] Hr _. split; [by apply (re_owner _ _ _ Hr)|]. by apply (re_cur _ _ _ Hr). Qed.

(** ** Triples *)

Definition triple {A} (i : nat) Φ (p : P A) (Ψ : A → assertion) : Prop :=
  hoare tick_ok (inv cfg) rely guar i Φ p Ψ.

Lemma triple_ret {A} i (a : A) (Ψ : A → assertion) `{!Stable i (Ψ a)} : triple i (Ψ a) (mret a) Ψ.
Proof. by apply hoare_ret. Qed.

Lemma triple_bind {A B} i Φ (p : P A) (q : A → P B) (Ξ : A → assertion) (Ψ : B → assertion) :
  triple i Φ p Ξ → (∀ a, triple i (Ξ a) (q a) Ψ) → triple i Φ (p ≫= q) Ψ.
Proof. apply hoare_bind, _. Qed.

Lemma triple_conseq {A} i Φ Φ' (p : P A) (Ψ Ψ' : A → assertion) :
  triple i Φ' p Ψ' → (∀ s, inv cfg s → Φ s → Φ' s) → (∀ a s, inv cfg s → Ψ' a s → Ψ a s) → triple i Φ p Ψ.
Proof. apply hoare_conseq. Qed.

Lemma triple_pre {A} i Φ Φ' (p : P A) (Ψ : A → assertion) :
  triple i Φ' p Ψ → (∀ s, inv cfg s → Φ s → Φ' s) → triple i Φ p Ψ.
Proof. apply hoare_pre. Qed.

Lemma triple_pure {A} i (φ : Prop) Φ (p : P A) (Ψ : A → assertion) :
  (φ → triple i Φ p Ψ) → triple i (both Φ (pure φ)) p Ψ.
Proof. intros Hp s HI [Hs Hφ]. by apply Hp. Qed.

(** An atomic action, judged in the states where it can be taken. *)
Lemma triple_act {A} i Φ (f : nat → Tick → Sv → option (Sv * A)) (Ψ : A → assertion) `{!Stable i Φ} :
  (∀ a, Stable i (Ψ a)) →
  (∀ s e s' a, inv cfg s → Φ s → tick_ok s e → f i e s = Some (s', a) →
     inv cfg s' ∧ guar i s s' ∧ Ψ a s') →
  triple i Φ (act f) Ψ.
Proof. intros HΨ. by apply hoare_act. Qed.

(** An action that every goroutine, the acting one included, may rely on. *)
Lemma triple_silent {A} i Φ (f : nat → Tick → Sv → option (Sv * A)) (φ : A → assertion) `{!Stable i Φ} :
  (∀ a, Stable i (φ a)) →
  (∀ s e s' a, inv cfg s → Φ s → tick_ok s e → f i e s = Some (s', a) →
     inv cfg s' ∧ (∀ j, rely j s s') ∧ φ a s') →
  triple i Φ (act f) (λ a, both Φ (φ a)).
Proof.
  intros HΨ Hf. apply triple_act; [done|intros a; apply _|]. intros s e s' a HI Hs He Ha.
  destruct (Hf s e s' a) as (HI' & Hr & Hφ); [done..|].
  split_and!; [done|intros j _; apply Hr|]. split; [|done]. eapply stable; [done|apply Hr|done].
Qed.

Lemma triple_silent' {A} i Φ (f : nat → Tick → Sv → option (Sv * A)) `{!Stable i Φ} :
  (∀ s e s' a, inv cfg s → Φ s → tick_ok s e → f i e s = Some (s', a) →
     inv cfg s' ∧ (∀ j, rely j s s')) →
  triple i Φ (act f) (λ _, Φ).
Proof.
  intros Hf. eapply triple_conseq; [apply (triple_silent i Φ f (λ _, pure True)); [intros; apply _|]|done|].
  - intros s e s' a HI Hs He Ha. destruct (Hf s e s' a); done.
  - by intros a s _ [? _].
Qed.

Lemma triple_same {A} i Φ (f : nat → Tick → Sv → option (Sv * A)) `{!Stable i Φ} :
  (∀ s e s' a, inv cfg s → Φ s → tick_ok s e → f i e s = Some (s', a) →
     same_core s s' ∧ hotinv.wf (tracker s') ∧ ∀ fl, fl ∈ started s' → flight_ok cfg s fl) →
  triple i Φ (act f) (λ _, Φ).
Proof.
  intros Hf. apply triple_silent'; [done|]. intros s e s' a HI Hs He Ha.
  destruct (Hf s e s' a) as (Hc & Hw & Hst); [done..|].
  split; [by eapply same_core_inv|]. intros j. by apply same_core_rely.
Qed.

(** A loop over a list with an assertion that follows the rest of the list. *)
Lemma triple_iter {A} i (f : A → P unit) (Φ : list A → assertion) (l : list A) :
  (∀ l', Stable i (Φ l')) →
  (∀ x l', triple i (Φ (x :: l')) (f x) (λ _, Φ l')) →
  triple i (Φ l) (prog_iter f l) (λ _, Φ []).
Proof. intros Hst. apply hoare_iter; [apply _|done]. Qed.

(** ** Quiet actions *)
Section quiet.
Context (i : nat) (Φ : assertion) `{!Stable i Φ}.

Ltac quiet := apply triple_same; [done|]; intros s e s' a HI Hs He [= <- <-];
  (split_and!; [done|apply HI|apply HI]).

Lemma t_record f : triple i Φ (recordA f) (λ _, Φ).
Proof. quiet. Qed.
Lemma t_clockNow : triple i Φ clockNow (λ _, Φ).
Proof. quiet. Qed.
Lemma t_ctxErr : triple i Φ ctxErr (λ _, Φ).
Proof. quiet. Qed.
Lemma t_trackerRead {A} (f : hotness.Tracker F → A) : triple i Φ (trackerRead f) (λ _, Φ).
Proof. quiet. Qed.
Lemma t_loadPromotion n : triple i Φ (loadPromotion n) (λ _, Φ).
Proof. quiet. Qed.
Lemma t_forget k : triple i Φ (forget k) (λ _, Φ).
Proof. quiet. Qed.
Lemma t_flags (f : bool → bool → bool * bool) {A} (a : Sv → A) :
  triple i Φ (act (λ _ _ s, let '(x, y) := f (proxyActive s) (closed s) in Some (set_flags s x y, a s))) (λ _, Φ).
Proof.
  apply triple_same; [done|]. intros s e s' b HI Hs He. destruct (f _ _). intros [= <- <-].
  split_and!; [done|apply HI|apply HI].
Qed.
Lemma t_await call : triple i Φ (awaitFlight call) (λ _, Φ).
Proof.
  apply triple_same; [done|]. intros s e s' a HI Hs He.
  destruct (tCtx e); [|destruct (sf_poll _ _); [|done]]; intros [= <- <-]; (split_and!; [done|apply HI|apply HI]).
Qed.
Lemma t_loadEpoch n : triple i Φ (loadEpoch n) (λ e, both Φ (EpochLe n e)).
Proof.
  apply triple_silent; [done|intros; apply _|]. intros s e s' a HI Hs He [= <- <-].
  split_and!; [done|reflexivity|]. unfold EpochLe, epochAt. lia.
Qed.
Lemma t_admit k : triple i Φ (admit_ k) (λ _, Φ).
Proof.
  apply triple_same; [done|]. intros s e s' a HI Hs [Hv _].
  pose proof (hotinv.Admit_wf (tracker s) (tNow e) (tOrder e) k (inv_tracker _ _ HI) Hv) as Hw.
  destruct (hotness.Admit _ _ _ _) as [t o]. intros [= <- <-]. split_and!; [done|done|apply HI].
Qed.
Lemma t_observe k : triple i Φ (observe k) (λ _, Φ).
Proof.
  intros s HI Hs s1 Hr HI1 e [Hv _].
  destruct (hotinv.ObserveWithState_wf (tracker s1) (tNow e) (tOrder e) k (inv_tracker _ _ HI1) Hv)
    as (t & o & -> & Hw). simpl.
  assert (Hc : same_core s1 (set_tracker s1 t)) by done.
  assert (HI2 : inv cfg (set_tracker s1 t)) by (eapply same_core_inv; [done|done|done|apply HI1]).
  split_and!; [done|intros j _; by apply same_core_rely|].
  intros s3 Hr3 HI3. eapply stable; [|exact Hr3|done].
  eapply stable; [|by apply same_core_rely|done]. by eapply stable.
Qed.
End quiet.

(** ** Calls on the tiers *)

(** A call that stores nothing. *)
Lemma t_cache_drop {A} i Φ (f : Time → cache.Cache → cache.Cache * A) `{!Stable i Φ} :
  (∀ now c, lrumachine.good c → follows nothing c (f now c).1) → triple i Φ (cacheA f) (λ _, Φ).
Proof.
  intros Hf. apply triple_silent'; [done|]. intros s e s' a HI Hs He.
  pose proof (Hf (tNow e) (protected s) (proj1 (inv_prot _ _ HI))) as Hfo.
  destruct (f (tNow e) (protected s)) as [c b]. intros [= <- <-].
  destruct (prot_step cfg i s c nothing HI Hfo) as (HI' & Hg & _ & Hr); [done|].
  split; [done|]. intros j. destruct (decide (j = i)) as [->|Hj]; [apply Hr; by intros ? ? []|by apply Hg].
Qed.

Lemma t_prob_drop {A} i Φ (f : Time → cache.Cache → cache.Cache * A) `{!Stable i Φ} :
  (∀ now c, lrumachine.good c → follows nothing c (f now c).1) → triple i Φ (probA f) (λ _, Φ).
Proof.
  intros Hf. apply triple_silent'; [done|]. intros s e s' a HI Hs He.
  destruct (probationary s) as [c0|] eqn:Hp; [|by intros [= <- <-]].
  pose proof (Hf (tNow e) c0 (proj1 (proj1 (inv_prob _ _ HI c0 Hp)))) as Hfo.
  destruct (f (tNow e) c0) as [c b]. intros [= <- <-].
  destruct (prob_step cfg i s c0 c nothing HI Hp Hfo) as (HI' & Hg & _ & Hr); [done|].
  split; [done|]. intros j. destruct (decide (j = i)) as [->|Hj]; [apply Hr; by intros ? ? []|by apply Hg].
Qed.

Lemma t_getFreshProtected i Φ k `{!Stable i Φ} : triple i Φ (getFreshProtected cfg k) (λ _, Φ).
Proof.
  unfold getFreshProtected. case_if; apply t_cache_drop; [done| |done|]; intros now c Hc;
    unfold cache.GetStale, cache.Get; by apply get_follows.
Qed.

Lemma t_cacheDelete i Φ k `{!Stable i Φ} : triple i Φ (cacheDelete k) (λ _, Φ).
Proof. apply t_cache_drop; [done|]. intros now c Hc. by apply Delete_follows. Qed.

Lemma t_probDelete i Φ k `{!Stable i Φ} : triple i Φ (probDelete k) (λ _, Φ).
Proof.
  eapply triple_bind; [apply t_prob_drop; [done|]; intros now c Hc; by apply Delete_follows|].
  intros r. by apply (triple_ret i (default false r) (λ _, Φ)).
Qed.

Lemma t_observeCache i Φ `{!Stable i Φ} : triple i Φ observeCache (λ _, Φ).
Proof.
  eapply triple_bind; [apply t_cache_drop; [done|]; intros now c Hc; by apply follows_refl|]. intros st.
  eapply triple_bind; [|intros all; by apply t_record].
  apply triple_silent'; [done|]. intros s e s' a HI Hs He [= <- <-]. split; [done|reflexivity].
Qed.

(** With the stripe held, a deletion leaves the key absent. *)
Lemma t_cacheDelete_own i Φ k `{!Stable i Φ} :
  (∀ s, Φ s → Own i (cacheEpochStripe k) s) → triple i Φ (cacheDelete k) (λ _, both Φ (NoProt i k)).
Proof.
  intros Ho. apply triple_silent; [done|intros; apply _|]. intros s e s' a HI Hs He.
  pose proof (proj1 (inv_prot _ _ HI)) as Hc.
  pose proof (Delete_follows (protected s) Hc k) as Hfo. pose proof (Delete_held (protected s) Hc k) as Hh.
  destruct (cache.Delete (protected s) k) as [c b]. intros [= <- <-].
  destruct (prot_step cfg i s c nothing HI Hfo) as (HI' & Hg & _ & Hr); [done|].
  split_and!; [done| |split; [by apply (Ho s)|done]].
  intros j. destruct (decide (j = i)) as [->|Hj]; [apply Hr; by intros ? ? []|by apply Hg].
Qed.

Lemma t_probDelete_own i Φ k `{!Stable i Φ} :
  (∀ s, Φ s → Own i (cacheEpochStripe k) s) → triple i Φ (probDelete k) (λ _, both Φ (NoProb i k)).
Proof.
  intros Ho. eapply (triple_bind _ _ _ _ (λ _, both Φ (NoProb i k)));
    [|intros r; apply (triple_ret i (default false r) (λ _, both Φ (NoProb i k)))].
  apply triple_silent; [done|intros; apply _|]. intros s e s' a HI Hs He.
  destruct (probationary s) as [c0|] eqn:Hp.
  - pose proof (proj1 (proj1 (inv_prob _ _ HI c0 Hp))) as Hc.
    pose proof (Delete_follows c0 Hc k) as Hfo. pose proof (Delete_held c0 Hc k) as Hh.
    destruct (cache.Delete c0 k) as [c b]. intros [= <- <-].
    destruct (prob_step cfg i s c0 c nothing HI Hp Hfo) as (HI' & Hg & _ & Hr); [done|].
    split_and!; [done| |split; [by apply (Ho s)|done]].
    intros j. destruct (decide (j = i)) as [->|Hj]; [apply Hr; by intros ? ? []|by apply Hg].
  - intros [= <- <-]. split_and!; [done|reflexivity|split; [by apply (Ho s)|by rewrite Hp]].
Qed.

(** A probationary candidate read with the stripe held. *)
Definition Cand (i : nat) k (r : option (option cache.EntrySnapshot)) : assertion :=
  λ s, ∀ c, r = Some (Some c) → Cur i k (Some (cache.sValue c)) s ∧ admissible cfg k (cache.sValue c).

#[global] Instance Cand_stable i k r : Stable i (Cand i k r).
Proof. intros s s1 Hs Hr HI c Hc. destruct (Hs c Hc) as [Hcur ?]. split; [by eapply stable|done]. Qed.

Lemma t_probGet_own i Φ k `{!Stable i Φ} :
  (∀ s, Φ s → Own i (cacheEpochStripe k) s) →
  triple i Φ (probA (λ now c, cache.Get c now k)) (λ r, both Φ (Cand i k r)).
Proof.
  intros Ho. apply triple_silent; [done|intros; apply _|]. intros s e s' a HI Hs He.
  destruct (probationary s) as [c0|] eqn:Hp; [|intros [= <- <-]; split_and!; [done|reflexivity|by intros c]].
  pose proof (proj1 (proj1 (inv_prob _ _ HI c0 Hp))) as Hc. unfold cache.Get.
  pose proof (get_follows c0 Hc (tNow e) k 0 false) as Hfo.
  pose proof (get_held c0 (tNow e) k 0 false) as Hh.
  destruct (cache.get c0 (tNow e) k 0 false) as [c b]. simpl in Hh. intros [= <- <-].
  destruct (prob_step cfg i s c0 c nothing HI Hp Hfo) as (HI' & Hg & _ & Hr); [done|].
  assert (Hri : rely i s (set_probationary s (Some c))) by (apply Hr; by intros ? ? []).
  split_and!; [done|intros j; destruct (decide (j = i)) as [->|Hj]; [done|by apply Hg]|].
  intros x [= ->]. assert (Ht : tier s k (cache.sValue x)) by (right; rewrite Hp; by apply Hh).
  split; [|by apply (inv_admissible _ _ HI)].
  split; [by apply (Ho s)|]. by apply (inv_coherent _ _ HI).
Qed.

(** ** Stores, with the stripe held *)

(** The only value the protected tier can hold for [k] is [v]. *)
Definition OnlyProt (i : nat) k (v : bytes) : assertion :=
  λ s, owner s (cacheEpochStripe k) = Some i ∧ ∀ v', held (protected s) k = Some v' → v' = v.

#[global] Instance OnlyProt_stable i k v : Stable i (OnlyProt i k v).
Proof.
  intros s s1 [Ho Hh] Hr _. split; [by apply (re_owner _ _ _ Hr)|].
  intros v' Hv. apply Hh. by apply (re_prot _ _ _ Hr).
Qed.

Lemma t_cache_store {A} i Φ k v (f : Time → cache.Cache → cache.Cache * A) `{!UStable i Φ} :
  admissible cfg k v → (∀ now c, lrumachine.good c → follows (only k v) c (f now c).1) →
  triple i (both Φ (both (NoProb i k) (Cur i k (Some v)))) (cacheA f) (λ _, both Φ (NoProb i k)).
Proof.
  intros Ha Hf. apply triple_act; [apply _|intros; apply _|].
  intros s e s' a HI (Hs & [Ho Hp] & [_ Hc]) He.
  pose proof (Hf (tNow e) (protected s) (proj1 (inv_prot _ _ HI))) as Hfo.
  destruct (f (tNow e) (protected s)) as [c b]. intros [= <- <-].
  destruct (prot_step cfg i s c _ HI Hfo) as (HI' & Hg & Hu & _); [by intros k' v' [-> ->]|].
  split_and!; [done|done|]. split; [by eapply ustable|done].
Qed.

Lemma t_prob_store {A} i Φ k v (f : Time → cache.Cache → cache.Cache * A) `{!UStable i Φ} :
  admissible cfg k v → (∀ now c, lrumachine.good c → follows (only k v) c (f now c).1) →
  triple i (both Φ (both (NoProt i k) (Cur i k (Some v)))) (probA f) (λ _, both Φ (NoProt i k)).
Proof.
  intros Ha Hf. apply triple_act; [apply _|intros; apply _|].
  intros s e s' a HI (Hs & [Ho Hp] & [_ Hc]) He.
  destruct (probationary s) as [c0|] eqn:Hpr; [|intros [= <- <-]; split_and!; [done|intros ? _; reflexivity|by split]].
  pose proof (Hf (tNow e) c0 (proj1 (proj1 (inv_prob _ _ HI c0 Hpr)))) as Hfo.
  destruct (f (tNow e) c0) as [c b]. intros [= <- <-].
  destruct (prob_step cfg i s c0 c _ HI Hpr Hfo) as (HI' & Hg & Hu & _); [by intros k' v' [-> ->]|].
  split_and!; [done|done|]. split; [by eapply ustable|done].
Qed.

(** ** Stripes *)

Lemma t_lock_at i Φ n `{!Stable i Φ} : (n < cacheEpochStripeCount)%nat →
  triple i Φ (lock n) (λ _, both Φ (Own i n)).
Proof.
  intros Hn. apply triple_silent; [done|intros; apply _|]. intros s e s' [] HI Hs He.
  assert (Hlt : (n < length (cacheEpochs s))%nat) by (by rewrite (inv_stripes _ _ HI)).
  destruct (mu (stripeAt s n)) eqn:Hmu; [done|]. intros [= <-].
  split_and!; [by apply stripe_inv| |unfold Own; rewrite owner_set by done; by case_decide].
  intros j. apply stripe_rely; [done|done|]. unfold owner. congruence.
Qed.

Lemma t_lock i Φ k `{!Stable i Φ} : triple i Φ (lock (cacheEpochStripe k)) (λ _, both Φ (Own i (cacheEpochStripe k))).
Proof. apply t_lock_at; [done|]. apply cacheEpochStripe_lt. Qed.

Lemma t_storePromotion i Φ n b `{!Stable i Φ} : (n < cacheEpochStripeCount)%nat →
  triple i Φ (storePromotion n b) (λ _, Φ).
Proof.
  intros Hn. apply triple_silent'; [done|]. intros s e s' [] HI Hs He [= <-].
  assert (Hlt : (n < length (cacheEpochs s))%nat) by (by rewrite (inv_stripes _ _ HI)).
  split; [by apply stripe_inv|]. intros j. by apply stripe_rely.
Qed.

(** Unlocking: what [settle] names must be coherent unless it races; afterwards
    those keys are settled. *)
Lemma t_unlock_at i Φ Ψ n (settle : string → bool) `{!Stable i Φ} `{!Stable i Ψ} :
  (n < cacheEpochStripeCount)%nat →
  (∀ s, inv cfg s → Φ s → Own i n s ∧ ∀ k, settle k = true →
     cacheEpochStripe k = n ∧ (k ∉ racing s → ∀ v, tier s k v → data (up s) k = Some v)) →
  (∀ s s2, inv cfg s → Φ s → urely i s s2 →
     protected s2 = protected s → probationary s2 = probationary s →
     (∀ m, m ≠ n → owner s2 m = owner s m) →
     (∀ k, k ∈ unsettled s2 → k ∈ unsettled s ∧ (settle k = false ∨ k ∈ racing s)) → Ψ s2) →
  triple i Φ (unlock n settle) (λ _, Ψ).
Proof.
  intros Hn Hpre Hpost. apply triple_act; [done|done|]. intros s e s' [] HI Hs He [= <-].
  assert (Hlt : (n < length (cacheEpochs s))%nat) by (by rewrite (inv_stripes _ _ HI)).
  destruct (Hpre s HI Hs) as [Ho Hset].
  destruct (unlock_step cfg i s n settle HI Hlt Ho Hset) as (HI2 & Hg & Hu).
  split_and!; [done|done|]. eapply (Hpost s); [done|done|done|done|done| |].
  - intros m Hm. set (st := mkStripe _ _ _). change (owner (set_stripe s n st) m = owner s m).
    rewrite owner_set by done. by case_decide.
  - intros k. simpl. rewrite elem_of_filter. tauto.
Qed.

(** The plain unlock keeps what does not depend on holding the stripe. *)
Lemma t_unlock i Φ n `{!UStable i Φ} : (n < cacheEpochStripeCount)%nat →
  triple i (both Φ (Own i n)) (unlock n none) (λ _, Φ).
Proof.
  intros Hn. apply t_unlock_at; [apply _|apply _|done|by intros s _ [_ ?]|].
  intros s s2 _ [Hs _] Hu _ _ _ _. by eapply ustable.
Qed.

(** Advancing an epoch: no key of the stripe races any more. *)
Lemma t_addEpoch_at i Φ Ψ n `{!Stable i Φ} `{!Stable i Ψ} : (n < cacheEpochStripeCount)%nat →
  (∀ s, Φ s → Own i n s) →
  (∀ s s2, inv cfg s → Φ s → urely i s s2 →
     protected s2 = protected s → probationary s2 = probationary s → (∀ m, owner s2 m = owner s m) →
     mutationGates s2 = mutationGates s →
     (∀ k, k ∈ racing s2 → cacheEpochStripe k ≠ n) → Ψ s2) →
  triple i Φ (addEpoch n) (λ _, Ψ).
Proof.
  intros Hn Hpre Hpost. apply triple_act; [done|done|]. intros s e s' [] HI Hs (_ & _ & He) [= <-].
  assert (Hlt : (n < length (cacheEpochs s))%nat) by (by rewrite (inv_stripes _ _ HI)).
  destruct (addEpoch_step cfg i s n HI Hlt (Hpre s Hs) (He n)) as (HI2 & Hg & Hu).
  split_and!; [done|done|]. eapply (Hpost s); [done|done|done|done|done| |done|].
  - intros m. set (st := mkStripe _ _ _). change (owner (set_stripe s n st) m = owner s m).
    rewrite owner_set by done. by case_decide; subst.
  - intros k. simpl. rewrite elem_of_filter. tauto.
Qed.

(** The epoch check of [withCurrentCacheEpoch]: if the epoch is still [ep], a value
    read since is current. *)
Lemma t_checkEpoch i Φ k d ep `{!UStable i Φ} :
  triple i (both (both Φ (Pend k d ep)) (Own i (cacheEpochStripe k))) (loadEpoch (cacheEpochStripe k))
    (λ now, both (both Φ (Own i (cacheEpochStripe k))) (λ s, now = ep → Cur i k d s)).
Proof.
  apply triple_act; [apply _| |].
  - intros now. apply both_stable; [apply _|]. intros s s1 Hs Hr HI He. eapply stable; eauto.
  - intros s e s' now HI [[Hs [Hle Hp]] Ho] He [= <- <-]. split_and!; [done|intros j _; reflexivity|].
    split; [by split|]. intros Heq. split; [done|]. destruct (Hp Heq) as [?|?]; [by left|].
    right. by apply (inv_racing _ _ HI).
Qed.

(** ** Upstream calls *)

Definition dataOf (v : Value) : option bytes := if vExists v then Some (vData v) else None.

(** A value whose size the server allows. *)
Definition sized k (v : Value) : Prop := vExists v = true → lruspec.fits k (vData v).

Lemma dataOf_get u t k : dataOf (up_get u t k) = data u k.
Proof. unfold dataOf, data. destruct (up_stable u t k) as [-> ->]. done. Qed.

Lemma sized_get u t k : sized k (up_get u t k).
Proof.
  intros Hv. destruct (up_sizes u t k Hv) as [H1' H2'].
  unfold lruspec.fits, cache.entryOverheadBytes. widths. lia.
Qed.

(** What is known of the answer to a read, for an epoch loaded before it. *)
Definition Fetched k (ep : Z) (r : Value + Err) : assertion :=
  λ s, ∀ v, r = inl v → pend s k (dataOf v) ep ∧ sized k v.

#[global] Instance Fetched_ustable i k ep r : UStable i (Fetched k ep r).
Proof. intros s s1 Hs Hr v Hv. destruct (Hs v Hv). split; [by eapply re_pend|done]. Qed.

Lemma t_upstreamGet i Φ k ep `{!UStable i Φ} :
  triple i (both Φ (EpochLe (cacheEpochStripe k) ep)) (upstreamGetA k) (λ r, both Φ (Fetched k ep r)).
Proof.
  apply triple_act; [apply _|intros; apply _|]. intros s e s' r HI [Hs Hep] He [= <- <-].
  split_and!; [done|intros j _; reflexivity|]. split; [done|].
  intros v. destruct (tFail e); [done|]. intros [= <-]. split; [|apply sized_get].
  split; [done|]. intros _. left. by rewrite dataOf_get.
Qed.

(** Reads of several keys; a key that may be stored comes with the epoch loaded for it. *)
Definition FetchedAll (l : list (string * option Z)) (vs : list Value) : assertion :=
  λ s, ∀ j k o v, l !! j = Some (k, o) → vs !! j = Some v →
         sized k v ∧ ∀ ep, o = Some ep → pend s k (dataOf v) ep.

#[global] Instance FetchedAll_ustable i l vs : UStable i (FetchedAll l vs).
Proof.
  intros s s1 Hs Hr j k o v Hj Hv. destruct (Hs j k o v Hj Hv) as [Hz Hp]. split; [done|].
  intros ep Ho. eapply re_pend; [done|]. by apply Hp.
Qed.

Definition EpochsLe (l : list (string * option Z)) : assertion :=
  λ s, ∀ k ep, (k, Some ep) ∈ l → ep <= epochAt s (cacheEpochStripe k).

#[global] Instance EpochsLe_ustable i l : UStable i (EpochsLe l).
Proof.
  intros s s1 Hs Hr k ep Hk. pose proof (re_epoch _ _ _ Hr (cacheEpochStripe k)). specialize (Hs k ep Hk). lia.
Qed.

Definition FetchedMany (l : list (string * option Z)) (r : list Value + Err) : assertion :=
  λ s, ∀ vs, r = inl vs → length vs = length l ∧ FetchedAll l vs s.

#[global] Instance FetchedMany_ustable i l r : UStable i (FetchedMany l r).
Proof. intros s s1 Hs Hr vs Hvs. destruct (Hs vs Hvs). split; [done|]. by eapply ustable. Qed.

Lemma t_upstreamMGet i Φ (l : list (string * option Z)) `{!UStable i Φ} :
  triple i (both Φ (EpochsLe l)) (upstreamMGetA l.*1) (λ r, both Φ (FetchedMany l r)).
Proof.
  apply triple_act; [apply _|intros; apply _|].
  intros s e s' r HI [Hs Hep] He [= <- <-]. split_and!; [done|intros j _; reflexivity|]. split; [done|].
  intros vs. destruct (tFail e); [done|]. intros [= <-]. rewrite up_mget_get.
  split; [by rewrite !length_map|]. intros j k o v Hj Hv. rewrite !list_lookup_fmap, Hj in Hv.
  simplify_eq/=. split; [apply sized_get|]. intros ep ->.
  split; [|intros _; left; by rewrite dataOf_get].
  apply Hep. by eapply list_elem_of_lookup_2.
Qed.

End logic.
End svclogic.
