(* ===== verification/ServiceReads.v ===== *)
(** * internal/service: the read path keeps the invariant

    Stores, refills, the side effects of tracker transitions, promotion between the
    tiers, [Get], the shared flight of [Get] and [MGet]. *)
From stdpp Require Import prelude gmap strings list fin_maps.
From Stdlib Require Import ZArith Lia.
From S2P Require Import Prelude Float64 GoStd CachePolicy Config Cache CacheSpec CacheProps CacheHeld.
From S2P Require Import Hotness HotnessInv HotnessProps Metrics ServiceBase Conc Service ServiceInv ServiceLogic.
Local Open Scope Z_scope.

Module svcreads.
Import upstream svcbase service cacheheld svcinv svclogic.

Section reads.
Context {F : Type} `{Float64 F} {U : Type} `{UpstreamLaws U} {G : Type} `{SingleFlight G}.
Context (cfg : config.Config F).
Notation Sv := (Service F U G).
Notation assertion := (Sv → Prop).
Implicit Types (s : Sv) (k : string) (n : nat) (Φ Ψ : assertion) (policy : cachepolicy.Decision).
Notation triple := (triple cfg).
Notation Stable := (Stable cfg).

(** A read of whether the key is HOT: a HOT key is not empty. *)
Lemma t_isHot i Φ k `{!Stable i Φ} :
  triple i Φ (trackerRead (λ t, hotness.IsHot t k)) (λ b, both Φ (pure (b = true → k ≠ EmptyString))).
Proof.
  apply triple_silent; [done|intros; apply _|]. intros s e s' a HI Hs He [= <- <-].
  split_and!; [done|reflexivity|]. intros Hh ->. unfold hotness.IsHot in Hh.
  rewrite (hotlemmas.wf_untrackable (tracker s)) in Hh; [done|by apply HI|by rewrite bool_decide_eq_true_2].
Qed.

(** ** Stores *)

(** A decision under which the service stores: the key's own, in cache mode. *)
Definition storing k policy : Prop :=
  policy = cachepolicy.Match (policies cfg) k ∧ cachepolicy.dMode policy = cachepolicy.ModeCache.

Lemma storing_admissible k policy v :
  storing k policy → lruspec.fits k v → cache.EstimateSize k v <= cachepolicy.dMaxItemBytes policy →
  admissible cfg k v.
Proof. intros [-> Hm] Hf Hs. by split_and!. Qed.

(** A put of a non-empty key with a positive lifetime leaves its value or none. *)
Lemma Put_held c now k v ttl v' :
  lrumachine.good c → lruspec.fits k v → 0 < ttl → k ≠ EmptyString →
  held (cache.Put c now k v ttl).1 k = Some v' → v' = v.
Proof.
  intros Hg Hf Ht Hk Hh. apply held_Some in Hh as (e & He & Hek & <-);
    [|apply (fo_good _ _ _ (Put_follows c Hg now k v ttl Hf))].
  unfold cache.Put in He. rewrite bool_decide_eq_false_2, (proj2 (Z.leb_gt _ _) Ht) in He by done. simpl in He.
  destruct (lrumachine.put_refines c k v now (t_add now ttl) Hg Hf) as (_ & Ha & _).
  apply (f_equal lrumachine.l_ents) in Ha. simpl in Ha. rewrite Ha in He.
  unfold lrumachine.spec_put in He. revert He. case_if; cbn -[lruspec.fit].
  - intros [_ ?]%lruspec.without_elem. done.
  - intros He%lruspec.fit_elem. apply elem_of_cons in He as [->|[_ ?]%lruspec.without_elem]; done.
Qed.

Lemma t_storeLocal i Φ k (value : Value) policy `{!UStable i Φ} :
  storing k policy → lruspec.fits k (vData value) → k ≠ EmptyString →
  triple i (both Φ (both (NoProb i k) (Cur i k (Some (vData value))))) (storeLocal cfg k value policy)
    (λ _, both Φ (both (NoProb i k) (OnlyProt i k (vData value)))).
Proof.
  intros Hst Hf Hk. unfold storeLocal.
  assert (Hdel : triple i (both Φ (both (NoProb i k) (Cur i k (Some (vData value)))))
    (cacheDelete k ≫= λ _, mret false) (λ _, both Φ (both (NoProb i k) (OnlyProt i k (vData value))))).
  { eapply triple_bind; [apply t_cacheDelete_own; [apply _|by intros s (_ & [? _] & _)]|]. intros b.
    eapply triple_pre; [apply (triple_ret cfg i false (λ _, both Φ (both (NoProb i k) (OnlyProt i k (vData value)))))|].
    intros s _ [(Hs & Hp & _) [Ho Hh]]. split; [done|]. split; [done|]. split; [done|]. intros v'. by rewrite Hh. }
  destruct ((cachepolicy.dMaxItemBytes policy <=? 0) || _) eqn:Hsz; [done|].
  destruct (localTTL _ _ _ <=? 0) eqn:Ht; [done|]. ztests.
  apply triple_act; [apply _|intros; apply _|]. intros s e s' a HI (Hs & [Ho Hp] & [_ Hc]) He.
  pose proof (proj1 (inv_prot _ _ HI)) as Hg.
  set (ttl := localTTL cfg (vPTTL value) (cachepolicy.dMaxLocalTTL policy)) in *.
  pose proof (Put_follows (protected s) Hg (tNow e) k (vData value) ttl Hf) as Hfo.
  pose proof (λ v', Put_held (protected s) (tNow e) k (vData value) ttl v' Hg Hf ltac:(lia) Hk) as Hh.
  destruct (cache.Put _ _ _ _ _) as [c b]. simpl in *. intros [= <- <-].
  destruct (prot_step cfg i s c _ HI Hfo) as (HI' & Hgu & Hu & _).
  { intros k' v' [-> ->]. split_and!; [done|by eapply storing_admissible|done|done]. }
  split_and!; [done|done|]. split; [by eapply ustable|]. by split.
Qed.

Lemma t_storeProbationary i Φ k (value : Value) policy `{!UStable i Φ} :
  storing k policy → lruspec.fits k (vData value) →
  triple i (both Φ (both (NoProt i k) (Cur i k (Some (vData value))))) (storeProbationary cfg k value policy)
    (λ _, both Φ (Own i (cacheEpochStripe k))).
Proof.
  intros Hst Hf. unfold storeProbationary.
  set (Pre := both Φ (both (NoProt i k) (Cur i k (Some (vData value))))).
  assert (Hend : ∀ b : bool, triple i Pre (mret b) (λ _, both Φ (Own i (cacheEpochStripe k)))).
  { intros b. eapply triple_pre; [apply (triple_ret cfg i b (λ _, both Φ (Own i (cacheEpochStripe k))))|].
    intros s _ (Hs & [Ho _] & _). by split. }
  assert (Hdel : triple i Pre (probDelete k ≫= λ _, mret false) (λ _, both Φ (Own i (cacheEpochStripe k)))).
  { eapply triple_bind; [apply t_probDelete; apply _|]. intros b. apply Hend. }
  eapply triple_bind; [apply (triple_silent' cfg i Pre); [apply _|]; intros s e s' a HI Hs He [= <- <-]; split; [done|reflexivity]|].
  intros [|]; cbn [negb]; [|apply Hend].
  eapply triple_bind; [apply t_trackerRead; apply _|]. intros [|]; cbn [negb]; [|apply Hend].
  destruct ((cachepolicy.dMaxItemBytes policy <=? 0) || _) eqn:Hsz; [done|]. ztests.
  destruct (_ <=? 0); [done|].
  eapply triple_bind; [apply (t_prob_store cfg i Φ k (vData value)); [apply _|by eapply storing_admissible|]|].
  { intros now c Hg. by apply Put_follows. }
  intros r. eapply triple_pre; [apply (triple_ret cfg i (default false r) (λ _, both Φ (Own i (cacheEpochStripe k))))|].
  intros s _ [Hs [Ho _]]. by split.
Qed.

(** ** Refills *)

Lemma t_reconcileBody i Φ k (value : Value) policy `{!UStable i Φ} :
  storing k policy → sized k value →
  triple i (both Φ (Cur i k (dataOf value))) (reconcileBody cfg k value policy)
    (λ _, both Φ (Own i (cacheEpochStripe k))).
Proof.
  intros Hst Hsz. unfold reconcileBody.
  assert (Hend : ∀ Ψ, (∀ s, Ψ s → Own i (cacheEpochStripe k) s) → 
    triple i (both Φ Ψ) (mret ()) (λ _, both Φ (Own i (cacheEpochStripe k)))).
  { intros Ψ HΨ. eapply triple_pre; [apply (triple_ret cfg i () (λ _, both Φ (Own i (cacheEpochStripe k))))|].
    intros s _ [Hs Hp]. split; [done|by apply HΨ]. }
  destruct (vExists value) eqn:He; cbn [negb].
  - assert (Hd : dataOf value = Some (vData value)) by (unfold dataOf; by rewrite He). rewrite Hd.
    eapply triple_bind; [apply t_isHot; apply _|]. intros [|].
    + apply triple_pure. intros Hk.
      eapply triple_bind; [apply t_probDelete_own; [apply _|by intros s [_ [? _]]]|]. intros b.
      eapply triple_bind; [eapply triple_pre; [apply (t_storeLocal i Φ k value policy); [done|by apply Hsz|by apply Hk]|]|].
      { intros s _ [[Hs Hc] Hp]. by split. }
      intros b2. apply Hend. by intros s [[? _] _].
    + eapply triple_bind; [apply t_cacheDelete_own; [apply _|by intros s [[_ [? _]] _]]|]. intros b.
      eapply triple_bind; [eapply triple_pre; [apply (t_storeProbationary i Φ k value policy); [done|by apply Hsz]|]|].
      { intros s _ [[[Hs Hc] _] Hp]. by split. }
      intros b2. by apply Hend.
  - eapply triple_bind; [apply t_cacheDelete; apply _|]. intros b.
    eapply triple_bind; [apply t_probDelete; apply _|]. intros b2. apply Hend. by intros s [? _].
Qed.

Lemma t_reconcile i Φ k (value : Value) ep policy `{!UStable i Φ} :
  storing k policy → sized k value →
  triple i (both Φ (Pend k (dataOf value) ep)) (reconcileLocalIfCurrent cfg k value ep policy) (λ _, Φ).
Proof.
  intros Hst Hsz. unfold reconcileLocalIfCurrent, withCurrentCacheEpoch.
  assert (Hlt : (cacheEpochStripe k < cacheEpochStripeCount)%nat) by apply cacheEpochStripe_lt.
  eapply (triple_bind cfg i _ _ _ (λ _, Φ)); [|intros b; apply (triple_ret cfg i () (λ _, Φ))].
  eapply triple_bind; [apply t_lock; apply _|]. intros [].
  eapply triple_bind; [apply t_checkEpoch; apply _|]. intros now.
  destruct (now =? ep) eqn:E; cbn [negb]; ztests.
  - eapply triple_bind; [eapply triple_pre; [apply (t_reconcileBody i Φ k value policy Hst Hsz)|]|].
    { intros s _ [[Hs Ho] Hc]. split; [done|]. by apply Hc. }
    intros []. eapply triple_bind; [by apply t_unlock|]. intros []. apply (triple_ret cfg i true (λ _, Φ)).
  - eapply triple_bind; [eapply triple_pre; [by apply (t_unlock cfg i Φ)|by intros s _ [? _]]|].
    intros []. apply (triple_ret cfg i false (λ _, Φ)).
Qed.

(** ** Transitions and observations *)

Lemma t_applyLoop i Φ b l `{!UStable i Φ} : triple i Φ (applyLoop b l) (λ _, Φ).
Proof.
  revert b. induction l as [|tr l IH]; intros b; [apply (triple_ret cfg i b (λ _, Φ))|]. cbn [applyLoop].
  eapply triple_bind; [case_if; [by apply t_record; apply _|apply (triple_ret cfg i () (λ _, Φ))]|]. intros [].
  eapply (triple_bind cfg i _ _ _ (λ _, Φ)); [|intros b'; apply IH].
  case_if; [|apply (triple_ret cfg i b (λ _, Φ))].
  eapply triple_bind; [apply t_lock; apply _|]. intros [].
  set (Ψ := both Φ (Own i (cacheEpochStripe (hotness.tKey tr)))).
  eapply triple_bind; [apply (t_trackerRead cfg i Ψ)|]. intros h.
  eapply (triple_bind cfg i _ _ _ (λ _, Ψ)).
  { case_if; [|apply (triple_ret cfg i b (λ _, Ψ))].
    eapply triple_bind; [apply t_cacheDelete; apply _|]. intros d1.
    eapply triple_bind; [apply t_probDelete; apply _|]. intros d2. apply (triple_ret cfg i _ (λ _, Ψ)). }
  intros b'. eapply triple_bind; [apply (t_unlock cfg i Φ); [apply _|apply cacheEpochStripe_lt]|]. intros [].
  eapply triple_bind; [apply t_record; apply _|]. intros []. apply (triple_ret cfg i b' (λ _, Φ)).
Qed.

Lemma t_applyTransitions i Φ l `{!UStable i Φ} : triple i Φ (applyTransitions l) (λ _, Φ).
Proof.
  eapply triple_bind; [by apply t_applyLoop|].
  intros [|]; [apply t_observeCache; apply _|apply (triple_ret cfg i () (λ _, Φ))].
Qed.

Lemma t_handleTransitions i Φ l `{!UStable i Φ} : triple i Φ (handleTransitions l) (λ _, Φ).
Proof.
  eapply triple_bind; [by apply t_applyTransitions|]. intros [].
  eapply triple_bind; [apply t_trackerRead; apply _|]. intros st.
  eapply triple_bind; [apply t_record; apply _|]. intros [].
  eapply triple_bind; [apply t_trackerRead; apply _|]. intros cd.
  eapply triple_bind; [apply t_record; apply _|]. intros [].
  eapply triple_bind; [apply t_trackerRead; apply _|]. intros od.
  apply t_record; apply _.
Qed.

Lemma t_handleObservation i Φ o `{!UStable i Φ} : triple i Φ (handleObservation o) (λ _, Φ).
Proof.
  assert (Hskip : triple i Φ (mret ()) (λ _, Φ)) by (apply (triple_ret cfg i () (λ _, Φ))).
  assert (Hrec : ∀ f, triple i Φ (recordA f) (λ _, Φ)) by (intros f; apply t_record; apply _).
  eapply triple_bind; [by apply t_applyTransitions|]. intros [].
  eapply (triple_bind cfg i _ _ _ (λ _, Φ)).
  { case_if; [|done]. eapply triple_bind; [apply t_trackerRead; apply _|]. intros st. apply Hrec. }
  intros []. eapply (triple_bind cfg i _ _ _ (λ _, Φ)); [by case_if|]. intros []. by case_if.
Qed.

Lemma t_observeKey i Φ policy k `{!UStable i Φ} : triple i Φ (observeKey policy k) (λ _, Φ).
Proof.
  unfold observeKey. case_if; [apply (triple_ret cfg i None (λ _, Φ))|].
  eapply triple_bind; [apply t_observe; apply _|]. intros o.
  eapply triple_bind; [by apply t_handleObservation|]. intros []. apply (triple_ret cfg i _ (λ _, Φ)).
Qed.

(** ** Promotion *)

Lemma t_promoteLocked i Φ k `{!UStable i Φ} :
  triple i (both Φ (Own i (cacheEpochStripe k))) (promoteLocked cfg (cacheEpochStripe k) k) (λ _, Φ).
Proof.
  unfold promoteLocked. set (n := cacheEpochStripe k). set (Ψ := both Φ (Own i n)).
  assert (Hn : (n < cacheEpochStripeCount)%nat) by apply cacheEpochStripe_lt.
  assert (Hend : ∀ (x : option cache.EntrySnapshot * option hotness.Observation),
    triple i Ψ (unlock n none ≫= λ _, mret x) (λ _, Φ)).
  { intros x. eapply triple_bind; [by apply t_unlock|]. intros []. apply (triple_ret cfg i x (λ _, Φ)). }
  eapply triple_bind; [apply (t_trackerRead cfg i Ψ)|]. intros h.
  eapply (triple_bind cfg i _ _ _ (λ _, Ψ)).
  { case_if; [apply t_getFreshProtected; apply _|apply (triple_ret cfg i None (λ _, Ψ))]. }
  intros [x|]; [apply Hend|].
  eapply triple_bind; [apply (t_probGet_own cfg i Ψ); [apply _|by intros s [_ ?]]|]. intros r.
  destruct r as [[c|]|]; [|eapply triple_pre; [apply Hend|by intros s _ [? _]]..].
  eapply triple_bind; [apply t_admit; apply _|]. intros o. cbv zeta.
  set (pr := bool_decide _). set (Ξ := both Ψ (Cand cfg i k (Some (Some c)))).
  eapply (triple_bind cfg i _ _ _ (λ _, Ξ)).
  { case_if; [apply t_storePromotion; [apply _|done]|apply (triple_ret cfg i () (λ _, Ξ))]. }
  intros []. eapply triple_bind; [apply t_probDelete_own; [apply _|by intros s [[_ ?] _]]|]. intros d.
  eapply (triple_bind cfg i _ _ _ (λ _, Ψ)).
  { destruct pr; [|eapply triple_pre; [apply (triple_ret cfg i false (λ _, Ψ))|by intros s _ [[? _] _]]].
    intros s HI Hs. destruct (proj2 (proj1 Hs) c eq_refl) as [Hc Ha]. revert s HI Hs Hc.
    assert (Hst : triple i (both Φ (both (NoProb i k) (Cur i k (Some (cache.sValue c)))))
      (cacheA (λ now p, cache.PutUntil p now k (cache.sValue c) (cache.sExpiresAt c))) (λ _, both Φ (NoProb i k))).
    { apply (t_cache_store cfg i Φ k (cache.sValue c)); [apply _|done|]. intros now c' Hg.
      apply PutUntil_follows; [done|apply Ha]. }
    intros s HI [[[Hs _] _] Hp] Hc. eapply safe_mono; [apply Hst; [done|by split]|].
    intros b s1 _ [? [? _]]. by split. }
  intros stored. eapply (triple_bind cfg i _ _ _ (λ _, Ψ)).
  { case_if; [apply t_storePromotion; [apply _|done]|apply (triple_ret cfg i () (λ _, Ψ))]. }
  intros []. apply Hend.
Qed.

Lemma t_getFresh i Φ k state `{!UStable i Φ} : triple i Φ (getFreshCachedInState cfg k state) (λ _, Φ).
Proof.
  unfold getFreshCachedInState.
  assert (Hend : ∀ x : option cache.EntrySnapshot, triple i Φ (mret x) (λ _, Φ))
    by (intros x; apply (triple_ret cfg i x (λ _, Φ))).
  eapply (triple_bind cfg i _ _ _ (λ _, Φ)); [case_if; [apply t_getFreshProtected; apply _|done]|].
  intros [x|]; [done|].
  eapply triple_bind; [apply t_prob_drop; [apply _|]; intros now c Hg; unfold cache.Get; by apply get_follows|].
  intros [[y|]|]; [| |done].
  - eapply triple_bind; [apply t_lock; apply _|]. intros [].
    eapply triple_bind; [by apply t_promoteLocked|]. intros [it [o|]]; [|done].
    eapply triple_bind; [by apply t_handleObservation|]. intros [].
    eapply triple_bind; [apply t_observeCache; apply _|]. intros []. done.
  - eapply triple_bind; [apply t_trackerRead; apply _|]. intros [|]; cbn [negb]; [|done].
    eapply triple_bind; [apply t_loadPromotion; apply _|].
    intros [|]; [|apply t_getFreshProtected; apply _].
    eapply triple_bind; [apply t_lock; apply _|]. intros [].
    eapply triple_bind; [apply t_getFreshProtected; apply _|]. intros it.
    eapply triple_bind; [apply (t_unlock cfg i Φ); [apply _|apply cacheEpochStripe_lt]|]. intros []. done.
Qed.

Lemma t_readCached i Φ policy k state `{!UStable i Φ} : triple i Φ (readCached cfg policy k state) (λ _, Φ).
Proof. unfold readCached. case_if; [by apply t_getFresh|apply (triple_ret cfg i None (λ _, Φ))]. Qed.

(** ** Get *)

Lemma t_fetch i Φ k ep `{!UStable i Φ} :
  triple i (both Φ (EpochLe (cacheEpochStripe k) ep)) (fetchUpstreamGet k) (λ r, both Φ (Fetched k ep r)).
Proof.
  eapply triple_bind; [apply t_clockNow; apply _|]. intros st.
  eapply triple_bind; [apply t_upstreamGet; apply _|]. intros r.
  eapply triple_bind; [apply t_record; apply _|]. intros []. apply (triple_ret cfg i r (λ r, both Φ (Fetched k ep r))).
Qed.

(** A read whose value is not stored. *)
Lemma t_fetch_only i Φ k `{!Stable i Φ} : triple i Φ (fetchUpstreamGet k) (λ _, Φ).
Proof.
  eapply triple_bind; [apply t_clockNow; apply _|]. intros st.
  eapply triple_bind; [apply (triple_silent' cfg i Φ); [done|]; intros s e s' a HI Hs He [= <- <-]; split; [done|reflexivity]|].
  intros r. eapply triple_bind; [apply t_record; apply _|]. intros []. apply (triple_ret cfg i r (λ _, Φ)).
Qed.

Lemma t_flightBody i (fl : flight) :
  storing (flKey fl) (flPolicy fl) →
  triple i (EpochLe (cacheEpochStripe (flKey fl)) (flEpoch fl)) (flightBody cfg fl) (λ _, pure True).
Proof.
  intros Hst. unfold flightBody. set (k := flKey fl) in *.
  eapply triple_bind; [eapply triple_pre; [apply (t_fetch i (pure True) k (flEpoch fl))|by split]|]. intros r.
  eapply (triple_bind cfg i _ _ _ (λ _, pure True)).
  - destruct r as [v|err]; [|eapply triple_pre; [apply (triple_ret cfg i () (λ _, pure True))|done]].
    intros s HI [_ Hs]. destruct (Hs v eq_refl) as [Hp Hz].
    by apply (t_reconcile i (pure True) k v (flEpoch fl) (flPolicy fl) Hst Hz).
  - intros []. apply triple_same; [apply _|]. intros s e s' a HI Hs He [= <- <-].
    split_and!; [done|apply HI|apply HI].
Qed.

Lemma t_doChan i Φ k ep policy `{!UStable i Φ} :
  storing k policy →
  triple i (both Φ (EpochLe (cacheEpochStripe k) ep)) (doChan k ep policy)
    (λ _, both Φ (EpochLe (cacheEpochStripe k) ep)).
Proof.
  intros [Hpol Hm]. apply triple_same; [apply _|]. intros s e s' a HI [Hs Hep] He.
  destruct (sf_do (group s) k) as [g [call lead]]. intros [= <- <-]. split_and!; [done|apply HI|].
  destruct lead; simpl; [|apply HI]. intros fl [Hfl|Hfl%list_elem_of_singleton]%elem_of_app; [by apply HI|].
  subst fl. by split_and!.
Qed.

Lemma t_stale i Φ k g `{!Stable i Φ} : triple i Φ (cacheA (λ now c, cache.GetStale c now k g)) (λ _, Φ).
Proof. apply t_cache_drop; [done|]. intros now c Hg. unfold cache.GetStale. by apply get_follows. Qed.

Lemma t_Get i k : triple i (pure True) (Get cfg k) (λ _, pure True).
Proof.
  unfold Get. set (T := pure True : assertion).
  assert (Hend : ∀ x : Value + Err, triple i T (mret x) (λ _, T)) by (intros x; apply (triple_ret cfg i x (λ _, T))).
  destruct (bool_decide (k = _)); [done|]. eapply triple_bind; [apply t_ctxErr; apply _|]. intros [err|]; [done|]. cbv zeta.
  set (policy := cachepolicy.Match (policies cfg) k).
  eapply triple_bind; [apply t_observeKey; apply _|]. intros state.
  eapply triple_bind; [apply t_readCached; apply _|]. intros [x|].
  { eapply triple_bind; [apply t_record; apply _|]. by intros []. }
  eapply triple_bind; [apply t_record; apply _|]. intros [].
  destruct (bool_decide (cachepolicy.dMode policy = _)) eqn:Hm; cbn [negb].
  2: { eapply triple_bind; [apply t_fetch_only; apply _|]. intros v.
       eapply triple_bind; [apply t_observeCache; apply _|]. by intros []. }
  apply bool_decide_eq_true in Hm.
  eapply triple_bind; [apply t_loadEpoch; apply _|]. intros ep.
  eapply triple_bind; [apply t_doChan; [apply _|by split]|]. intros call.
  eapply triple_bind; [apply t_await; apply _|]. intros r.
  apply (triple_pre cfg i _ T); [|done].
  destruct r as [[res shared]|err]; [|done].
  eapply (triple_bind cfg i _ _ _ (λ _, T)).
  { destruct shared; [apply t_record; apply _|apply (triple_ret cfg i () (λ _, T))]. }
  intros []. destruct res as [v|err].
  { eapply triple_bind; [apply t_observeCache; apply _|]. by intros []. }
  case_if; [|done]. eapply triple_bind; [apply t_stale; apply _|]. by intros [x|].
Qed.

(** ** MGet *)

Definition readEpoch (m : missingRead) : string * option Z :=
  (mrKey m, if bool_decide (cachepolicy.dMode (mrPolicy m) = cachepolicy.ModeCache)
            then Some (mrEpoch m) else None).

(** The reads collected by the first loop: the epochs were loaded, and the
    decision is the key's own. *)
Definition Missing (l : list missingRead) : assertion :=
  λ s, EpochsLe (map readEpoch l) s ∧ ∀ m, m ∈ l → mrPolicy m = cachepolicy.Match (policies cfg) (mrKey m).

#[global] Instance Missing_ustable i l : UStable i (Missing l).
Proof. intros s s1 [Hs Hp] Hr. split; [by eapply ustable|done]. Qed.

Lemma t_mgetLocal i pos keys out l :
  triple i (Missing l) (mgetLocal cfg pos keys out l) (λ r, Missing r.2).
Proof.
  revert pos out l. induction keys as [|k keys IH]; intros pos out l; cbn [mgetLocal].
  { apply (triple_ret cfg i (out, l) (λ r, Missing r.2)). }
  set (policy := cachepolicy.Match (policies cfg) k). cbv zeta.
  eapply triple_bind; [apply t_observeKey; apply _|]. intros state.
  eapply triple_bind; [apply t_readCached; apply _|]. intros [x|].
  { eapply triple_bind; [apply t_record; apply _|]. intros []. apply IH. }
  eapply triple_bind; [apply t_record; apply _|]. intros [].
  eapply (triple_bind cfg i _ _ _ (λ ep, Missing (l ++ [mkMissing pos ep policy k]))); [|intros ep; apply IH].
  assert (Hadd : ∀ ep s, Missing l s →
    (cachepolicy.dMode policy = cachepolicy.ModeCache → EpochLe (cacheEpochStripe k) ep s) →
    Missing (l ++ [mkMissing pos ep policy k]) s).
  { intros ep s [He Hp] Hep. split.
    - intros k' ep'. rewrite map_app, elem_of_app. intros [?|Hk]; [by apply He|].
      apply list_elem_of_singleton in Hk. unfold readEpoch in Hk. simpl in Hk.
      destruct (bool_decide _) eqn:Hb; simplify_eq. apply bool_decide_eq_true in Hb. by apply Hep.
    - intros m. rewrite elem_of_app, list_elem_of_singleton. intros [?| ->]; [by apply Hp|done]. }
  case_if.
  - eapply triple_conseq; [apply (t_loadEpoch cfg i (Missing l))|done|].
    intros ep s _ [Hs Hep]. by apply Hadd.
  - eapply triple_pre; [apply (triple_ret cfg i 0 (λ ep, Missing (l ++ [mkMissing pos ep policy k])))|].
    intros s _ Hs. apply Hadd; [done|]. intros Hm. by rewrite bool_decide_eq_true_2 in *.
Qed.

Lemma t_mgetStale i l out c : triple i (pure True : assertion) (mgetStale cfg l out c) (λ _, pure True).
Proof.
  revert out c. induction l as [|m l IH]; intros out c; cbn [mgetStale].
  { apply (triple_ret cfg i (out, c) (λ _, pure True)). }
  case_if; [apply IH|]. eapply triple_bind; [apply t_stale; apply _|]. intros [x|]; apply IH.
Qed.

Lemma t_mgetStore i vs l out :
  length vs = length l → (∀ m, m ∈ l → mrPolicy m = cachepolicy.Match (policies cfg) (mrKey m)) →
  triple i (FetchedAll (map readEpoch l) vs : assertion) (mgetStore cfg vs l out) (λ _, pure True).
Proof.
  revert l out. induction vs as [|v vs IH]; intros [|m l] out Hlen Hp; try done; cbn [mgetStore].
  injection Hlen as Hlen. cbv zeta.
  eapply (triple_bind cfg i _ _ _ (λ _, FetchedAll (map readEpoch l) vs)).
  2: { intros []. apply IH; [done|]. intros m' Hm'. apply Hp. by right. }
  assert (Htl : ∀ s, FetchedAll (map readEpoch (m :: l)) (v :: vs) s → FetchedAll (map readEpoch l) vs s).
  { intros s Hs j k o v' Hj Hv. by apply (Hs (S j) k o v'). }
  destruct (bool_decide (cachepolicy.dMode (mrPolicy m) = cachepolicy.ModeCache)) eqn:Hm.
  - intros s HI Hs. destruct (Hs O (mrKey m) (Some (mrEpoch m)) v) as [Hz Hpe]; [|done|].
    { simpl. unfold readEpoch. by rewrite Hm. }
    apply bool_decide_eq_true in Hm.
    apply (t_reconcile i (FetchedAll (map readEpoch l) vs) (mrKey m) v (mrEpoch m) (mrPolicy m)); [|done|done|].
    + split; [apply Hp; by left|done].
    + split; [by apply Htl|by apply Hpe].
  - eapply triple_pre; [apply (triple_ret cfg i () (λ _, FetchedAll (map readEpoch l) vs))|]. intros s _. apply Htl.
Qed.

Lemma t_MGet i keys : triple i (pure True : assertion) (MGet cfg keys) (λ _, pure True).
Proof.
  unfold MGet. set (T := pure True : assertion). cbv zeta.
  assert (Hend : ∀ x : list Value + Err, triple i T (mret x) (λ _, T)) by (intros x; apply (triple_ret cfg i x (λ _, T))).
  case_if; [done|].
  eapply triple_bind; [eapply triple_pre; [apply (t_mgetLocal i O keys _ [])|]|].
  { intros s _ _. split; [by intros k ep ?%elem_of_nil|by intros m ?%elem_of_nil]. }
  intros [out l]. cbn [fst snd]. case_if; [eapply triple_pre; [apply Hend|done]|].
  eapply triple_bind; [apply t_clockNow; apply _|]. intros st.
  replace (map mrKey l) with ((map readEpoch l).*1) by (by rewrite <-list_fmap_compose).
  eapply triple_bind; [eapply triple_pre; [apply (t_upstreamMGet cfg i (Missing l) (map readEpoch l))|]|].
  { intros s _ Hs. split; [done|apply Hs]. }
  intros r. eapply triple_bind; [apply t_record; apply _|]. intros [].
  destruct r as [vs|err].
  - intros s HI [Hs Hf]. destruct (Hf vs eq_refl) as [Hlen Hall].
    revert s HI Hall Hf Hs. intros s HI Hall _ [_ Hp]. revert s HI Hall.
    eapply triple_bind; [apply t_mgetStore; [by rewrite length_map in Hlen|done]|]. intros out'.
    eapply triple_bind; [apply t_observeCache; apply _|]. by intros [].
  - apply (triple_pre cfg i _ T); [|done]. case_if; [|done].
    eapply triple_bind; [apply t_mgetStale|]. intros r. by case_if.
Qed.

End reads.
End svcreads.
