(* ===== verification/ServiceWrites.v ===== *)
(** * internal/service: the write path keeps the invariant

    Mutation gates, invalidation, write-through, [ExecuteWrite], [PassThrough] and
    the purges. *)
From stdpp Require Import prelude gmap strings list fin_maps.
From Stdlib Require Import ZArith Lia.
From S2P Require Import Prelude Float64 GoStd CachePolicy Config Cache CacheSpec CacheProps CacheHeld.
From S2P Require Import Hotness HotnessInv Metrics ServiceBase Conc Service ServiceInv ServiceLogic ServiceReads.
Local Open Scope Z_scope.

Module svcwrites.
Import gostd upstream svcbase service cacheheld svcinv svclogic svcreads.

Section writes.
Context {F : Type} `{Float64 F} {U : Type} `{UpstreamLaws U} {G : Type} `{SingleFlight G}.
Context (cfg : config.Config F).
Notation Sv := (Service F U G).
Notation assertion := (Sv → Prop).
Implicit Types (s : Sv) (k : string) (n : nat) (Φ Ψ : assertion).
Notation triple := (triple cfg).
Notation Stable := (Stable cfg).

(** ** Mutation gates *)

Definition inRange (l : list nat) : Prop := NoDup l ∧ ∀ n, n ∈ l → (n < cacheEpochStripeCount)%nat.

Lemma t_acquireGate i l n : (n < cacheEpochStripeCount)%nat →
  triple i (Gates i l [] : assertion) (acquireGate n)
    (λ r, match r with None => Gates i (l ++ [n]) [] | Some _ => Gates i l [] end).
Proof.
  intros Hn. apply triple_act; [apply _|intros []; apply _|]. intros s e s' r HI Hs He.
  destruct (tCtx e); [intros [= <- <-]; split_and!; [done|intros j _; reflexivity|done]|].
  destruct (default None (mutationGates s !! n)) eqn:Hg; [done|]. intros [= <- <-].
  assert (Hlt : (n < length (mutationGates s))%nat) by (by rewrite (inv_gates _ _ HI)).
  change (gateOf s n = None) in Hg.
  split_and!; [by apply gate_inv|intros j _; apply gate_rely; [done|congruence]|].
  intros m [Hm|Hm%list_elem_of_singleton]%elem_of_app; rewrite gateOf_set by done.
  - destruct (Hs m Hm) as [Hgm Hk]. case_decide; [congruence|done].
  - subst m. rewrite decide_True by done. split; [done|]. intros k Hk Hu.
    apply (inv_gate _ _ HI) in Hu. rewrite Hk, Hg in Hu. by destruct Hu.
Qed.

Lemma elem_of_rev {A} (x : A) l : x ∈ rev l ↔ x ∈ l.
Proof. rewrite !list_elem_of_In. symmetry. apply in_rev. Qed.

Lemma t_release i l : inRange l →
  triple i (Gates i l [] : assertion) (releaseMutationStripes l) (λ _, pure True).
Proof.
  intros [Hnd Hlt]. unfold releaseMutationStripes.
  set (Φ l' := both (Gates i l' []) (pure (inRange l')) : assertion).
  eapply triple_conseq; [apply (triple_iter cfg i releaseGate Φ)| |by intros].
  - intros l'. apply _.
  - clear l Hnd Hlt. intros n l. apply triple_act; [apply _|intros; apply _|].
    intros s e s' [] HI [Hs [Hnd Hlt]] He [= <-]. apply NoDup_cons in Hnd as [Hn Hnd].
    assert (Hl : (n < length (mutationGates s))%nat) by (rewrite (inv_gates _ _ HI); apply Hlt; by left).
    destruct (Hs n ltac:(by left)) as [Hg Hk].
    split_and!.
    + apply gate_inv; [done|done|]. intros _ k Hkn Hu. by apply (Hk k Hkn), elem_of_nil in Hu.
    + intros j Hj. apply gate_rely; [done|congruence].
    + split; [|split; [done|intros m Hm; apply Hlt; by right]].
      intros m Hm. rewrite gateOf_set by done. rewrite decide_False by (intros ->; done).
      apply Hs. by right.
  - intros s _ Hs. split.
    + intros n Hn. by apply Hs, elem_of_rev.
    + split; [by apply NoDup_ListNoDup, List.NoDup_rev, NoDup_ListNoDup|].
      intros n Hn. by apply Hlt, elem_of_rev.
Qed.

(** The result of acquiring the gates [l]. *)
Definition Acquired (i : nat) (l : list nat) (r : list nat + Err) : assertion :=
  match r with inl l' => both (Gates i l' []) (pure (l' = l)) | inr _ => pure True end.

#[global] Instance Acquired_ustable i l r : UStable i (Acquired i l r).
Proof. destruct r; apply _. Qed.

Lemma t_acquireLoop i acquired needed : inRange (acquired ++ needed) →
  triple i (Gates i acquired []) (acquireLoop acquired needed) (Acquired i (acquired ++ needed)).
Proof.
  revert acquired. induction needed as [|n needed IH]; intros acquired Hr; cbn [acquireLoop].
  { eapply triple_pre; [apply (triple_ret cfg i (inl acquired) (Acquired i (acquired ++ [])))|].
    intros s _ Hs. split; [done|]. by rewrite app_nil_r. }
  assert (Hrel : ∀ err : Err, triple i (Gates i acquired [])
    (releaseMutationStripes acquired ≫= λ _, mret (inr err)) (Acquired i (acquired ++ n :: needed))).
  { intros err. eapply triple_bind; [apply t_release|].
    - destruct Hr as [Hnd Hlt]. apply NoDup_app in Hnd as (? & _ & _). split; [done|].
      intros m Hm. apply Hlt, elem_of_app. by left.
    - intros []. apply (triple_ret cfg i (inr err) (Acquired i (acquired ++ n :: needed))). }
  eapply triple_bind; [apply t_ctxErr; apply _|]. intros [err|]; [done|].
  eapply triple_bind; [apply t_acquireGate; apply Hr, elem_of_app; right; left|]. intros [err|]; [done|].
  replace (acquired ++ n :: needed) with ((acquired ++ [n]) ++ needed) in * by (by rewrite <-app_assoc).
  by apply IH.
Qed.

Lemma neededStripes_range keys : inRange (neededStripes keys).
Proof.
  unfold neededStripes, stripeIndices. split; [apply NoDup_filter, NoDup_seq|].
  intros n [_ Hn]%list_elem_of_filter. apply elem_of_seq in Hn. lia.
Qed.

Lemma neededStripes_key keys k : k ∈ keys → cacheEpochStripe k ∈ neededStripes keys.
Proof.
  intros Hk. apply list_elem_of_filter. split; [by apply list_elem_of_fmap_2|].
  apply elem_of_seq. pose proof (cacheEpochStripe_lt k). lia.
Qed.

(** ** Invalidation *)

(** No key behind these gates races. *)
Definition Calm (i : nat) (l adv : list nat) : assertion :=
  λ s, ∀ n, n ∈ adv → n ∈ l → gateOf s n = Some i ∧ ∀ k, cacheEpochStripe k = n → k ∉ racing s.

#[global] Instance Calm_ustable i l adv : UStable i (Calm i l adv).
Proof.
  intros s s1 Hs Hr n Hn Hl. destruct (Hs n Hn Hl) as [Hg Hk]. destruct (re_gate _ _ _ Hr n Hg) as [Hg1 Hd].
  split; [done|]. intros k Hkn Hra. apply (Hk k Hkn). by apply (Hd k Hkn).
Qed.

(** Advancing the epoch of the stripe calms it. *)
Lemma t_addEpoch_calm i l adv ks Φ n `{!UStable i Φ} : (n < cacheEpochStripeCount)%nat →
  triple i (both (both Φ (both (Gates i l ks) (Calm i l adv))) (Own i n)) (addEpoch n)
    (λ _, both (both Φ (both (Gates i l ks) (Calm i l (n :: adv)))) (Own i n)).
Proof.
  intros Hn. apply t_addEpoch_at; [apply _|apply _|done|by intros s [_ ?]|].
  intros s s2 HI [(Hs & Hg & Hc) Ho] Hu _ _ Hown Hgates Hra.
  split; [|unfold Own; by rewrite Hown]. split; [by eapply ustable|]. split; [by eapply ustable|].
  intros m [->|Hm]%elem_of_cons Hl.
  - destruct (Hg n Hl) as [Hgn _]. split; [unfold gateOf; by rewrite Hgates|].
    intros k Hk Hr. by apply (Hra k).
  - by apply (ustable (Φ := Calm i l adv) s s2).
Qed.

(** Unlocking a stripe whose key is settled. *)
Lemma t_unlock_settled i l ks k Φ Ψ `{!Stable i Φ} `{!UStable i Ψ} :
  (∀ s, inv cfg s → Φ s → Ψ s ∧ Own i (cacheEpochStripe k) s ∧ Gates i l (k :: ks) s ∧
     Calm i l [cacheEpochStripe k] s ∧ ∀ v, tier s k v → data (up s) k = Some v) →
  triple i Φ (unlock (cacheEpochStripe k) (λ k', bool_decide (k' = k))) (λ _, both (Gates i l ks) Ψ).
Proof.
  intros HΦ. apply t_unlock_at; [done|apply _|apply cacheEpochStripe_lt| |].
  - intros s HI Hs. destruct (HΦ s HI Hs) as (_ & Ho & _ & _ & Ht). split; [done|].
    intros k' ->%bool_decide_eq_true. split; [done|]. by intros _.
  - intros s s2 HI Hs Hu _ _ _ Hun. destruct (HΦ s HI Hs) as (HΨ & _ & Hg & Hc & _).
    split; [|by eapply ustable]. intros m Hm.
    destruct (ustable _ _ Hg Hu m Hm) as [Hgm _]. split; [done|]. intros k' Hk' Hk2.
    destruct (Hun k' Hk2) as [Hk3 Hset]. apply (proj2 (Hg m Hm) k' Hk') in Hk3.
    apply elem_of_cons in Hk3 as [->|?]; [|done]. rewrite bool_decide_eq_true_2 in Hset by done.
    destruct Hset as [?|Hra]; [done|]. subst m.
    by destruct (proj2 (Hc _ ltac:(by left) Hm) k eq_refl Hra).
Qed.

Lemma t_invalidateLoop i l adv c keys :
  triple i (both (Gates i l keys) (Calm i l adv)) (invalidateLoop adv c keys) (λ _, Gates i l []).
Proof.
  revert adv c. induction keys as [|k keys IH]; intros adv c; cbn [invalidateLoop].
  { eapply triple_pre; [apply (triple_ret cfg i c (λ _, Gates i l []))|by intros s _ [? _]]. }
  set (n := cacheEpochStripe k). cbv zeta.
  set (Φ := both (both (pure True) (both (Gates i l (k :: keys)) (Calm i l (n :: adv)))) (Own i n) : assertion).
  eapply triple_bind; [apply t_lock; apply _|]. intros [].
  eapply (triple_bind cfg i _ _ _ (λ _, Φ)).
  { destruct (bool_decide _) eqn:Hadv.
    - apply bool_decide_eq_true in Hadv. eapply triple_pre; [apply (triple_ret cfg i () (λ _, Φ)); apply _|].
      intros s _ [[Hg Hc] Ho]. split; [|done]. split; [done|]. split; [done|].
      intros m Hm. apply Hc. apply elem_of_cons in Hm as [->|?]; done.
    - eapply triple_pre; [apply t_addEpoch_calm; [apply _|apply cacheEpochStripe_lt]|].
      intros s _ [[Hg Hc] Ho]. by split. }
  intros []. eapply triple_bind; [apply t_cacheDelete_own; [apply _|by intros s [_ ?]]|]. intros d1.
  eapply triple_bind; [apply t_probDelete_own; [apply _|by intros s [[_ ?] _]]|]. intros d2.
  eapply (triple_bind cfg i _ _ _ (λ _, both (Gates i l keys) (Calm i l (n :: adv)))); [|intros []; apply IH].
  apply t_unlock_settled; [apply _|apply _|].
  intros s _ [[[(_ & Hg & Hc) Ho] [_ Hp]] [_ Hq]]. split_and!; [done|done|done| |].
  - intros m ->%list_elem_of_singleton. apply Hc. by left.
  - intros v [Hv|Hv]; congruence.
Qed.

Lemma t_invalidate i l ks keys : (∀ k, k ∈ ks → k ∈ keys) →
  triple i (Gates i l ks : assertion) (invalidateCacheKeys keys) (λ _, Gates i l []).
Proof.
  intros Hks. eapply triple_pre; [apply t_invalidateLoop|]. intros s _ Hs. split; [|by intros n ?%elem_of_nil].
  intros n Hn. destruct (Hs n Hn) as [Hg Hk]. split; [done|]. intros k Hkn Hu. by apply Hks, (Hk k).
Qed.

(** ** Write-through *)

(** The gate of [k] is held and upstream holds [d] for it. *)
Definition HasData (i : nat) k (d : option bytes) : assertion :=
  λ s, gateOf s (cacheEpochStripe k) = Some i ∧ data (up s) k = d.

#[global] Instance HasData_ustable i k d : UStable i (HasData i k d).
Proof.
  intros s s1 [Hg Hd] Hr. destruct (re_gate _ _ _ Hr _ Hg) as [Hg1 Hk]. split; [done|].
  destruct (Hk k eq_refl) as [-> _]. done.
Qed.

Lemma data_fits (u : U) k v : data u k = Some v → lruspec.fits k v.
Proof.
  unfold data. destruct (vExists (up_get u 0 k)) eqn:He; [|done]. intros [= <-]. by apply sized_get.
Qed.

(** The new value, or no value, is what the protected tier holds afterwards. *)
Lemma t_writeThroughStore i Φ k (v : string) prot prob `{!UStable i Φ} :
  (∀ s, Φ s → data (up s) k = Some (bytes_of v)) →
  triple i (both Φ (NoProb i k)) (writeThroughStore cfg k v prot prob)
    (λ _, both Φ (both (NoProb i k) (OnlyProt i k (bytes_of v)))).
Proof.
  intros HΦ. unfold writeThroughStore. set (policy := cachepolicy.Match (policies cfg) k). cbv zeta.
  set (Pre := both Φ (NoProb i k)). set (Post := both Φ (both (NoProb i k) (OnlyProt i k (bytes_of v)))).
  assert (Hdel : triple i Pre (d ← cacheDelete k; mret (if d || prob then 1%nat else O)) (λ _, Post)).
  { eapply triple_bind; [apply t_cacheDelete_own; [apply _|by intros s [_ [? _]]]|]. intros d.
    eapply triple_pre; [apply (triple_ret cfg i _ (λ _, Post)); apply _|].
    intros s _ [[Hs Hp] [Ho Hh]]. split; [done|]. split; [done|]. split; [done|]. by rewrite Hh. }
  eapply (triple_bind cfg i _ _ _ (λ h, both Pre (pure (h = true → k ≠ EmptyString ∧ storing cfg k policy)))).
  { destruct (bool_decide _) eqn:Hm.
    - apply bool_decide_eq_true in Hm. eapply triple_conseq; [apply (t_isHot cfg i Pre k)|done|].
      intros h s _ [Hs Hk]. split; [done|]. intros Hh. split; [by apply Hk|done].
    - eapply triple_pre; [apply (triple_ret cfg i false
        (λ h, both Pre (pure (h = true → k ≠ EmptyString ∧ storing cfg k policy))))|by split]. }
  intros [|]; apply triple_pure; intros Hk; [|done]. destruct (Hk eq_refl) as [Hne Hst].
  eapply triple_bind; [|intros st; apply (triple_ret cfg i _ (λ _, Post)); apply _].
  intros s HI [Hs Hp]. pose proof (HΦ s Hs) as Hd.
  apply (t_storeLocal cfg i Φ k (mkValue (bytes_of v) true (-1)) policy); [done|by eapply data_fits|done|done|].
  split; [done|]. split; [done|]. split; [apply Hp|]. by left.
Qed.

Lemma t_writeThroughSet i l k v :
  triple i (both (HasData i k (Some (bytes_of v))) (Gates i l [k])) (writeThroughSet cfg k v)
    (λ _, Gates i l []).
Proof.
  unfold writeThroughSet. set (n := cacheEpochStripe k). cbv zeta.
  assert (Hn : (n < cacheEpochStripeCount)%nat) by apply cacheEpochStripe_lt.
  set (D := HasData i k (Some (bytes_of v))).
  set (Φ := both D (both (Gates i l [k]) (Calm i l [n]))).
  eapply triple_bind; [apply t_lock; apply _|]. intros [].
  eapply triple_bind; [eapply triple_pre; [apply (t_addEpoch_calm i l [] [k] D n Hn)|]|].
  { intros s _ [[Hd Hg] Ho]. split; [|done]. split; [done|]. split; [done|]. by intros m ?%elem_of_nil. }
  intros []. fold Φ.
  eapply triple_bind; [apply t_cache_drop; [apply _|]; intros now c Hc; by apply follows_refl|]. intros prot.
  eapply triple_bind; [apply t_prob_drop; [apply _|]; intros now c Hc; by apply follows_refl|]. intros prob.
  eapply triple_bind; [apply t_probDelete_own; [apply _|by intros s [_ ?]]|]. intros d.
  eapply triple_bind; [eapply triple_pre; [apply (t_writeThroughStore i Φ k v); [apply _|by intros s [[_ ?] _]]|]|].
  { intros s _ [[Hs _] Hp]. by split. }
  intros res. eapply triple_bind; [apply (t_unlock_settled i l [] k _ (pure True))|].
  - intros s _ ((Hd & Hg & Hc) & [Ho Hp] & [_ Hh]). split_and!; [done|done|done|done|].
    intros v' [Hv|Hv]; [|congruence]. rewrite (Hh v' Hv). apply Hd.
  - intros []. eapply triple_pre; [apply (triple_ret cfg i res (λ _, Gates i l []))|by intros s _ [? _]].
Qed.

(** ** Requests that write *)

(** After an acknowledged plain SET, upstream holds its value. *)
Definition SetDone (i : nat) (command : string) (args keys : list string) (r : any + Err) : assertion :=
  λ s, ∀ k v, isPlainSet command args keys r = Some (k, v) → HasData i k (Some (bytes_of v)) s.

#[global] Instance SetDone_ustable i command args keys r : UStable i (SetDone i command args keys r).
Proof. intros s s1 Hs Hr k v Hp. eapply ustable; [by apply Hs|done]. Qed.

Lemma isPlainSet_Some command args keys r k v :
  isPlainSet command args keys r = Some (k, v) →
  args = [k; v] ∧ keys = [k] ∧ EqualFold command "SET" = true ∧
  ∃ status, r = inl (AnyString status) ∧ EqualFold status "OK" = true.
Proof.
  unfold isPlainSet. intros Hp. repeat case_match; try done. simplify_eq. ztests.
  match goal with Hb : bool_decide _ = true |- _ => apply bool_decide_eq_true in Hb end. subst. eauto 10.
Qed.

Lemma t_do i l command args keys :
  writesOnly (U := U) (command :: args) keys → (∀ k, k ∈ keys → cacheEpochStripe k ∈ l) →
  triple i (Gates i l []) (upstreamDoA (command :: args) keys)
    (λ r, both (Gates i l keys) (SetDone i command args keys r)).
Proof.
  intros Hw Hl. apply triple_act; [apply _|intros; apply _|]. intros s e s' r HI Hs He.
  pose proof (Hw (up s) (tNow e)) as Hfr. pose proof (up_set (up s) (tNow e)) as Hset.
  destruct (up_do (up s) (tNow e) (command :: args)) as [u a] eqn:Hdo. simpl in Hfr.
  assert (Hgk : ∀ k, k ∈ keys → gateOf s (cacheEpochStripe k) = Some i) by (intros k Hk; apply Hs; auto).
  assert (Hstep : ∀ u', (∀ k, k ∉ keys → data u' k = data (up s) k) →
    let s' := set_aux (set_up s u') (list_to_set keys ∪ unsettled s) (list_to_set keys ∪ racing s) in
    inv cfg s' ∧ guar i s s' ∧ Gates i l keys s').
  { intros u' Hu'. destruct (do_step cfg i s u' keys HI Hgk Hu') as [HI' Hg]. split_and!; [done|done|].
    intros n Hn. destruct (Hs n Hn) as [Hgn Hk]. split; [done|]. intros k Hkn. simpl.
    rewrite elem_of_union, elem_of_list_to_set. intros [?|Hu]; [done|]. by apply (Hk k Hkn), elem_of_nil in Hu. }
  destruct (tFail e) as [err|].
  - intros [= <- <-].
    assert (Hs' : ∃ u', set_aux (if tApplied e then set_up s u else s)
        (list_to_set keys ∪ unsettled (if tApplied e then set_up s u else s))
        (list_to_set keys ∪ racing (if tApplied e then set_up s u else s)) =
        set_aux (set_up s u') (list_to_set keys ∪ unsettled s) (list_to_set keys ∪ racing s) ∧
        ∀ k, k ∉ keys → data u' k = data (up s) k).
    { destruct (tApplied e); [by exists u|]. exists (up s). by destruct s. }
    destruct Hs' as (u' & -> & Hu'). destruct (Hstep u' Hu') as (? & ? & ?). split_and!; [done|done|].
    split; [done|]. intros k v Hp. by apply isPlainSet_Some in Hp as (_ & _ & _ & st & ? & _).
  - intros [= <- <-]. destruct (Hstep u Hfr) as (HI' & Hg & HG). split_and!; [done|done|].
    split; [done|]. intros k v Hp. apply isPlainSet_Some in Hp as (-> & -> & Hc & st & [= ->] & Hok).
    split; [apply HG; apply Hl; by left|]. by eapply Hset.
Qed.

Lemma t_finalizeWrite i l command args keys r :
  triple i (both (Gates i l keys) (SetDone i command args keys r)) (finalizeWrite cfg command args keys r)
    (λ _, Gates i l []).
Proof.
  unfold finalizeWrite. destruct (isPlainSet command args keys r) as [[k v]|] eqn:Hp.
  - eapply triple_pre; [apply t_writeThroughSet|]. intros s _ [Hg Hd]. split; [by apply Hd|].
    by apply isPlainSet_Some in Hp as (_ & -> & _).
  - eapply triple_pre; [by apply (t_invalidate i l keys)|]. by intros s _ [? _].
Qed.

(** A loop of quiet actions. *)
Lemma t_iter_quiet {A} i Φ (f : A → prog Tick Sv unit) (l : list A) `{!Stable i Φ} :
  (∀ x, triple i Φ (f x) (λ _, Φ)) → triple i Φ (prog_iter f l) (λ _, Φ).
Proof. intros Hf. by apply (triple_iter cfg i f (λ _, Φ)). Qed.

Lemma t_ExecuteWrite i command args keys :
  writesOnly (U := U) (command :: args) keys →
  triple i (pure True) (ExecuteWrite cfg command args keys) (λ _, pure True).
Proof.
  intros Hw. unfold ExecuteWrite, acquireMutationStripes. set (l := neededStripes keys).
  assert (Hr : inRange l) by apply neededStripes_range.
  eapply triple_bind; [eapply triple_pre; [apply (t_acquireLoop i [] l Hr)|by intros s _ _ n ?%elem_of_nil]|].
  intros [st|err]; [|apply (triple_ret cfg i (inr err) (λ _, pure True))].
  apply triple_pure. intros ->. cbn [app].
  eapply triple_bind; [apply (t_invalidate i l []); by intros k ?%elem_of_nil|]. intros n1.
  eapply triple_bind; [apply t_clockNow; apply _|]. intros start.
  eapply triple_bind; [apply t_do; [done|intros k Hk; by apply neededStripes_key]|]. intros r. cbv zeta.
  eapply triple_bind; [apply t_record; apply _|]. intros [].
  eapply triple_bind; [apply t_finalizeWrite|]. intros n2.
  eapply triple_bind; [apply t_iter_quiet; [apply _|]; intros k; apply t_forget; apply _|]. intros [].
  eapply triple_bind; [apply t_iter_quiet; [apply _|]; intros k; apply t_record; apply _|]. intros [].
  eapply triple_bind; [apply t_observeCache; apply _|]. intros [].
  eapply triple_bind; [by apply t_release|]. intros []. apply (triple_ret cfg i r (λ _, pure True)).
Qed.

Lemma t_PassThrough i command args :
  writesOnly (U := U) (command :: args) [] →
  triple i (pure True : assertion) (PassThrough command args) (λ _, pure True).
Proof.
  intros Hw. unfold PassThrough. eapply triple_bind; [apply t_clockNow; apply _|]. intros start.
  eapply triple_bind; [eapply triple_pre; [apply (t_do i [] command args [] Hw); by intros k ?%elem_of_nil|]|].
  { by intros s _ _ n ?%elem_of_nil. }
  intros r. cbv zeta. eapply triple_bind; [apply t_record; apply _|]. intros [].
  eapply triple_pre; [apply (triple_ret cfg i r (λ _, pure True))|done].
Qed.

(** ** Purges *)

(** The goroutine holds the stripes of [l] and no tier holds a key of them. *)
Definition Cleared (i : nat) (l : list nat) : assertion :=
  λ s, ∀ k, cacheEpochStripe k ∈ l → NoProt i k s ∧ NoProb i k s.
Definition Holds (i : nat) (l : list nat) : assertion := λ s, ∀ n, n ∈ l → Own i n s.

#[global] Instance Cleared_stable i l : Stable i (Cleared i l).
Proof.
  intros s s1 Hs Hr HI k Hk. destruct (Hs k Hk).
  split; [by apply (NoProt_stable cfg i k s)|by apply (NoProb_stable cfg i k s)].
Qed.
#[global] Instance Holds_stable i l : Stable i (Holds i l).
Proof. intros s s1 Hs Hr HI n Hn. apply (Own_stable cfg i n s); [by apply Hs|done|done]. Qed.

Lemma t_lockAll i done l :
  (∀ n, n ∈ l → (n < cacheEpochStripeCount)%nat) →
  triple i (Holds i done) (prog_iter lock l) (λ _, Holds i (rev l ++ done)).
Proof.
  revert done. induction l as [|n l IH]; intros done Hl; cbn [prog_iter].
  { apply (triple_ret cfg i () (λ _, Holds i ([] ++ done))). }
  eapply triple_bind; [apply t_lock_at; [apply _|apply Hl; by left]|]. intros [].
  cbn [rev]. rewrite <-app_assoc. eapply triple_pre; [apply (IH (n :: done)); intros m Hm; apply Hl; by right|].
  intros s _ [Hs Ho] m [->|Hm]%elem_of_cons; [done|by apply Hs].
Qed.

Lemma t_addEpochAll i l l' :
  (∀ n, n ∈ l' → n ∈ l) → (∀ n, n ∈ l → (n < cacheEpochStripeCount)%nat) →
  triple i (both (Holds i l) (Cleared i l)) (prog_iter addEpoch l') (λ _, both (Holds i l) (Cleared i l)).
Proof.
  intros Hsub Hlt. induction l' as [|n l' IH]; cbn [prog_iter].
  { apply (triple_ret cfg i () (λ _, both (Holds i l) (Cleared i l))). }
  eapply (triple_bind cfg i _ _ _ (λ _, both (Holds i l) (Cleared i l)));
    [|intros []; apply IH; intros m Hm; apply Hsub; by right].
  apply t_addEpoch_at; [apply _|apply _|apply Hlt, Hsub; by left|intros s [Ho _]; apply Ho, Hsub; by left|].
  intros s s2 _ [Ho Hc] _ Hpr Hpb Hown _ _. split.
  - intros m Hm. unfold Own. rewrite Hown. by apply Ho.
  - intros k Hk. unfold NoProt, NoProb. rewrite Hown, Hpr, Hpb. by apply Hc.
Qed.

Lemma t_unlockAll i l :
  NoDup l → (∀ n, n ∈ l → (n < cacheEpochStripeCount)%nat) →
  triple i (both (Holds i l) (Cleared i l))
    (prog_iter (λ n, unlock n (λ k, bool_decide (cacheEpochStripe k = n))) l) (λ _, pure True).
Proof.
  induction l as [|n l IH]; intros Hnd Hlt; cbn [prog_iter].
  { eapply triple_pre; [apply (triple_ret cfg i () (λ _, pure True))|done]. }
  apply NoDup_cons in Hnd as [Hn Hnd].
  eapply (triple_bind cfg i _ _ _ (λ _, both (Holds i l) (Cleared i l)));
    [|intros []; apply IH; [done|intros m Hm; apply Hlt; by right]].
  apply t_unlock_at; [apply _|apply _|apply Hlt; by left| |].
  - intros s _ [Ho Hc]. split; [apply Ho; by left|]. intros k Hk%bool_decide_eq_true. split; [done|].
    destruct (Hc k) as [[_ Hp] [_ Hq]]; [rewrite Hk; by left|]. intros _ v [Hv|Hv]; congruence.
  - intros s s2 _ [Ho Hc] _ Hpr Hpb Hown _. split.
    + intros m Hm. unfold Own. rewrite Hown by (intros ->; done). apply Ho. by right.
    + intros k Hk. unfold NoProt, NoProb. rewrite Hpr, Hpb, Hown by (intros Heq; by rewrite Heq in Hk).
      apply Hc. by right.
Qed.

Lemma t_purgeTiers i l Φ : (∀ k, cacheEpochStripe k ∈ l) →
  Stable i Φ → (∀ s, Φ s → Holds i l s) →
  triple i Φ purgeTiers (λ _, both Φ (Cleared i l)).
Proof.
  intros Hall HΦ Hown. set (Ξ := (λ s, ∀ k, NoProt i k s) : assertion).
  assert (HΞ : Stable i Ξ) by (intros s s1 Hs Hr HI k; by apply (NoProt_stable cfg i k s)).
  eapply (triple_bind cfg i _ _ _ (λ _, both Φ Ξ)).
  - apply triple_silent; [done|done|]. intros s e s' [] HI Hs He [= <-].
    destruct (prot_step cfg i s _ nothing HI (Purge_follows _ (proj1 (inv_prot _ _ HI)))) as (HI' & Hg & _ & Hr); [done|].
    split_and!; [done| |intros k; split; [by apply (Hown s Hs)|done]].
    intros j. destruct (decide (j = i)) as [->|Hj]; [apply Hr; by intros ? ? []|by apply Hg].
  - intros []. set (Χ := (λ s, ∀ k, NoProb i k s) : assertion).
    assert (HΧ : Stable i Χ) by (intros s s1 Hs Hr HI k; by apply (NoProb_stable cfg i k s)).
    eapply (triple_bind cfg i _ _ _ (λ _, both (both Φ Ξ) Χ)).
    + apply triple_silent; [apply _|intros _; apply _|]. intros s e s' a HI [Hs Hn] He.
      destruct (probationary s) as [c|] eqn:Hp;
        [|intros [= <- <-]; split_and!; [done|reflexivity|intros k; split; [by apply (Hown s Hs)|by rewrite Hp]]].
      intros [= <- <-]. pose proof (proj1 (proj1 (inv_prob _ _ HI c Hp))) as Hc.
      destruct (prob_step cfg i s c _ nothing HI Hp (Purge_follows _ Hc)) as (HI' & Hg & _ & Hr); [done|].
      split_and!; [done| |intros k; split; [by apply (Hown s Hs)|done]].
      intros j. destruct (decide (j = i)) as [->|Hj]; [apply Hr; by intros ? ? []|by apply Hg].
    + intros _. eapply triple_pre; [apply (triple_ret cfg i () (λ _, both Φ (Cleared i l))); apply _|].
      intros s _ [[Hs H1'] H2']. split; [done|]. intros k _. by split.
Qed.

Lemma stripeIndices_lt n : n ∈ stripeIndices → (n < cacheEpochStripeCount)%nat.
Proof. unfold stripeIndices. rewrite elem_of_seq. lia. Qed.

Lemma t_purgeAll i : triple i (pure True : assertion) purgeAllCache (λ _, pure True).
Proof.
  unfold purgeAllCache. set (l := rev stripeIndices).
  assert (Hin : ∀ n, n ∈ l ↔ n ∈ stripeIndices) by (intros n; apply elem_of_rev).
  assert (Hlt : ∀ n, n ∈ l → (n < cacheEpochStripeCount)%nat) by (intros n Hn; by apply stripeIndices_lt, Hin).
  assert (Hall : ∀ k, cacheEpochStripe k ∈ l).
  { intros k. apply Hin, elem_of_seq. pose proof (cacheEpochStripe_lt k). lia. }
  eapply triple_bind; [eapply triple_pre; [apply (t_lockAll i []); apply stripeIndices_lt|by intros s _ _ n ?%elem_of_nil]|].
  intros []. rewrite app_nil_r. fold l.
  eapply triple_bind; [apply (t_purgeTiers i l (Holds i l)); [done|apply _|done]|]. intros [].
  eapply triple_bind; [apply (t_addEpochAll i l); [by intros n ?%Hin|done]|]. intros [].
  apply t_unlockAll; [|done]. apply NoDup_ListNoDup, List.NoDup_rev, NoDup_ListNoDup, NoDup_seq.
Qed.

Lemma t_PurgeCache i k : triple i (pure True : assertion) (PurgeCache k) (λ _, pure True).
Proof.
  unfold PurgeCache. case_if.
  - eapply triple_bind; [apply t_purgeAll|]. intros [].
    eapply triple_bind; [apply t_observeCache; apply _|]. intros []. apply (triple_ret cfg i true (λ _, pure True)).
  - eapply triple_bind; [eapply triple_pre; [apply (t_invalidate i [] []); by intros k' ?%elem_of_nil|]|].
    { by intros s _ _ n ?%elem_of_nil. }
    intros n. eapply triple_bind; [apply t_forget; apply _|]. intros []. cbv zeta.
    eapply (triple_bind cfg i _ _ _ (λ _, Gates i [] [])).
    { case_if; [apply t_record; apply _|apply (triple_ret cfg i () (λ _, Gates i [] []))]. }
    intros []. eapply triple_bind; [apply t_observeCache; apply _|]. intros [].
    eapply triple_pre; [apply (triple_ret cfg i _ (λ _, pure True)); apply _|done].
Qed.

Lemma t_SetProxyActive i b : triple i (pure True : assertion) (SetProxyActive b) (λ _, pure True).
Proof.
  apply triple_same; [apply _|]. intros s e s' a HI Hs He [= <- <-]. split_and!; [done|apply HI|apply HI].
Qed.

Lemma t_Close i : triple i (pure True : assertion) Close (λ _, pure True).
Proof.
  unfold Close. eapply triple_bind.
  { apply (triple_same cfg i (pure True)); [apply _|]. intros s e s' a HI Hs He.
    destruct (closed s); intros [= <- <-]; (split_and!; [done|apply HI|apply HI]). }
  intros [|]; [|apply (triple_ret cfg i () (λ _, pure True))].
  eapply triple_bind; [apply t_cache_drop; [apply _|]; intros now c Hc; by apply Close_follows|]. intros [].
  eapply triple_bind; [apply t_prob_drop; [apply _|]; intros now c Hc; by apply Close_follows|]. intros r.
  apply (triple_ret cfg i () (λ _, pure True)).
Qed.

End writes.
End svcwrites.
