(* ===== verification/ViewsLogic.v ===== *)
(** * internal/service: the administrator's views keep the service's invariant

    Each view is judged like a request of a client: it may run at any moment among
    them. What a view answers is exact even though it reads the state in several
    steps: the audit tells of one state of the tracker, and the cache figures are
    within the configured budget. *)
From stdpp Require Import prelude gmap strings list fin_maps.
From Stdlib Require Import ZArith Lia.
From S2P Require Import Prelude Float64 GoStd GoTime CachePolicy Config Cache CacheSpec CacheProps CacheHeld.
From S2P Require Import Hotness HotnessInv Scorer Metrics ServiceBase Conc Service Views ServiceInv ServiceLogic ServiceReads.
Local Open Scope Z_scope.

Module viewslogic.
Import gostd upstream svcbase service privacy views cacheheld svcinv svclogic svcreads.

Section views.
Context {F : Type} `{Float64 F} {U : Type} `{UpstreamLaws U} {G : Type} `{SingleFlight G}.
Context `{Deployment} (cfg : config.Config F).
Notation Sv := (Service F U G).
Notation P := (prog Tick Sv).
Notation triple := (triple cfg).
Notation assertion := (Sv → Prop).

(** A report is right about one state of the tracker. *)
Definition auditOk (limit : Z) (r : AuditReport F) : Prop :=
  ∃ t now view,
    scorer.viewOf (normalizeAuditLimit limit) t now view ∧
    arEntries r = map (auditEntry cfg) (hotness.vSnapshots view) ∧
    arTrackedKeys r = Z.of_nat (length (hotness.ring t)) ∧
    arReturnedEntries r = Z.of_nat (length (arEntries r)) ∧
    arTruncated r = bool_decide (arReturnedEntries r < arTrackedKeys r) ∧
    arTelemetryComplete r =
      bool_decide (arReturnedEntries r = arTrackedKeys r ∧ hotness.evictions t = 0 ∧
                   hotness.capacityDrops t = 0 ∧ hotness.oversizedObservationsDropped t = 0).

(** Cache figures are within the budget. *)
Definition figuresOk (entries bytes : Z) : Prop :=
  0 <= bytes <= config.cacheMaxBytes (config.Cache cfg) ∧
  (0 < config.cacheMaxEntries (config.Cache cfg) → 0 <= entries <= config.cacheMaxEntries (config.Cache cfg)).

Context (HB : 0 <= config.cacheMaxBytes (config.Cache cfg) < lruspec.maxBudget).
Context (HE : config.cacheMaxEntries (config.Cache cfg) <= maxInt64).

Ltac same := apply (triple_same cfg); [apply _|]; intros s e s' a HI Hs He [= <- <-]; (split_and!; [done|apply HI|apply HI]).

Lemma t_ping i (Φ : assertion) `{!Stable cfg i Φ} : triple i Φ ping (λ _, Φ).
Proof. same. Qed.

Lemma t_loadA i (Φ : assertion) c `{!Stable cfg i Φ} : triple i Φ (loadA c) (λ _, Φ).
Proof. same. Qed.

Lemma t_Ready i : triple i (pure True : assertion) Ready (λ _, pure True).
Proof.
  eapply triple_bind; [same|].
  intros [|]; cbn [negb]; [apply t_ping; apply _|apply (triple_ret cfg i _ (λ _, pure True))].
Qed.

Lemma t_advanceA i (Φ : assertion) `{!Stable cfg i Φ} : triple i Φ advanceA (λ _, Φ).
Proof.
  apply triple_same; [done|]. intros s e s' a HI Hs [Hv _]. unfold hotness.Advance.
  pose proof (hotinv.advanceLocked_wf (tracker s) (tNow e) (tOrder e) (inv_tracker _ _ HI) Hv) as Hw.
  destruct (hotness.advanceLocked _ _ _) as [t o]. intros [= <- <-]. split_and!; [done|done|apply HI].
Qed.

Lemma t_advanceAndSnapshotA i (Φ : assertion) limit `{!Stable cfg i Φ} :
  triple i Φ (advanceAndSnapshotA limit) (λ v, both Φ (pure (∃ t now, scorer.viewOf limit t now v))).
Proof.
  apply triple_silent; [done|intros; apply _|]. intros s e s' a HI Hs (Hv1 & Hv2 & _).
  pose proof (scorer.AdvanceAndSnapshot_view (tracker s) (tNow e) (tOrder e) (tOrder2 e) limit (inv_tracker _ _ HI) Hv1 Hv2) as Hview.
  destruct (scorer.AdvanceAndSnapshot _ _ _ _ _) as [t v]. intros [= <- <-].
  assert (Hc : same_core s (set_tracker s t)) by done.
  split_and!; [eapply same_core_inv; [done|done|apply Hview|apply HI]|intros j; by apply same_core_rely|].
  by exists t, (tNow e).
Qed.

(** The figures of the two tiers are read one after the other. *)
Lemma t_cacheStats i (Φ : assertion) `{!Stable cfg i Φ} :
  triple i Φ cacheStats (λ st, both Φ (pure (figuresOk (cache.Entries st) (cache.Bytes st)))).
Proof.
  eapply (triple_bind cfg i _ _ _ (λ st, both Φ (pure (statsWithin cfg st)))).
  - apply triple_silent; [done|intros; apply _|]. intros s e s' a HI Hs He [= <- <-].
    destruct s; cbn. split_and!; [done|reflexivity|]. by apply (stats_within cfg HB HE) in HI.
  - intros st. apply triple_pure. intros Hst. apply triple_silent; [done|intros; apply _|].
    intros s e s' a HI Hs He [= <- <-]. split_and!; [done|reflexivity|]. by apply combined_within.
Qed.

Lemma audit_fields limit t now v now2 : scorer.viewOf (normalizeAuditLimit limit) t now v → auditOk limit (auditReport cfg v now2).
Proof.
  intros Hview. exists t, now, v. assert (Hv := Hview). destruct Hv as (_ & Ht & _ & He & Hcd & Ho & _ & _ & Hl).
  assert (Hle : Z.of_nat (length (hotness.vSnapshots v)) <= hotness.vTracked v).
  { rewrite Hl. case_match; lia. }
  unfold auditReport; cbn -[Z.leb Z.ltb Z.eqb]. rewrite length_map. split_and!; try done;
    apply Bool.eq_iff_eq_true; rewrite bool_decide_eq_true, ?andb_true_iff, ?Z.leb_le, ?Z.ltb_lt, ?Z.eqb_eq; lia.
Qed.

Lemma t_Audit i limit : triple i (pure True : assertion) (Audit cfg limit) (λ r, pure (auditOk limit r)).
Proof.
  unfold Audit. cbv zeta. eapply triple_bind; [apply t_advanceAndSnapshotA; apply _|]. intros v.
  apply triple_pure. intros (t & now & Hview).
  eapply triple_bind; [apply t_handleTransitions; apply _|]. intros [].
  eapply triple_bind; [apply t_clockNow; apply _|]. intros now2.
  eapply triple_pre; [apply (triple_ret cfg i _ (λ r, pure (auditOk limit r)))|]. intros s _ _. by eapply audit_fields.
Qed.

Lemma t_hotKeyRows i (Φ : assertion) out l `{!Stable cfg i Φ} :
  triple i Φ (hotKeyRows cfg out l) (λ rows, both Φ (pure (length rows = (length out + length l)%nat))).
Proof.
  revert out. induction l as [|sn l IH]; intros out; cbn [hotKeyRows].
  - eapply triple_pre; [apply (triple_ret cfg i out (λ rows, both Φ (pure (length rows = (length out + 0)%nat))))|].
    intros s _ Hs. split; [done|]. unfold pure. lia.
  - eapply triple_bind; [apply t_cache_drop; [apply _|]; intros now c Hc; by apply follows_refl|]. intros item.
    eapply triple_conseq; [apply IH|done|]. intros rows s _ [Hs Hr]. split; [done|]. unfold pure in *.
    rewrite Hr, length_app. cbn. lia.
Qed.

Definition hotKeysOk (limit : Z) (rows : list (HotKey F)) : Prop :=
  ∃ t now view, scorer.viewOf limit t now view ∧ length rows = length (hotness.vSnapshots view).

Lemma t_HotKeys i limit : triple i (pure True : assertion) (HotKeys cfg limit) (λ rows, pure (hotKeysOk limit rows)).
Proof.
  unfold HotKeys. eapply triple_bind; [apply t_advanceAndSnapshotA; apply _|]. intros v.
  apply triple_pure. intros (t & now & Hview).
  eapply triple_bind; [apply t_handleTransitions; apply _|]. intros [].
  eapply triple_conseq; [apply (t_hotKeyRows i (pure True)); apply _|done|]. intros rows s _ [_ Hr]. by exists t, now, v.
Qed.

Lemma t_CacheInfoView i :
  triple i (pure True : assertion) CacheInfoView (λ r, pure (figuresOk (ciEntries r) (ciBytes r))).
Proof.
  unfold CacheInfoView. eapply triple_bind; [apply t_cacheStats; apply _|]. intros st. apply triple_pure. intros Hst.
  eapply triple_bind; [apply t_record; apply _|]. intros [].
  eapply triple_pre; [apply (triple_ret cfg i _ (λ r, pure (figuresOk (ciEntries r) (ciBytes r))))|]. by intros s _ _.
Qed.

Lemma t_metricsSnapshot i (Φ : assertion) `{!Stable cfg i Φ} : triple i Φ metricsSnapshot (λ _, Φ).
Proof.
  unfold metricsSnapshot. repeat (eapply triple_bind; [apply t_loadA; apply _|]; intros ?).
  apply (triple_ret cfg i _ (λ _, Φ)).
Qed.

Lemma t_StatusView i :
  triple i (pure True : assertion) (StatusView cfg) (λ r, pure (figuresOk (stCacheEntries r) (stCacheBytes r))).
Proof.
  unfold StatusView. eapply triple_bind; [apply t_advanceA; apply _|]. intros l.
  eapply triple_bind; [apply t_handleTransitions; apply _|]. intros [].
  eapply triple_bind; [apply t_cacheStats; apply _|]. intros st. apply triple_pure. intros Hst.
  eapply triple_bind; [apply t_record; apply _|]. intros [].
  eapply triple_bind; [apply t_trackerRead; apply _|]. intros counts.
  eapply triple_bind; [apply t_record; apply _|]. intros [].
  eapply triple_bind; [apply t_metricsSnapshot; apply _|]. intros snap.
  eapply triple_bind; [apply t_ping; apply _|]. intros err.
  eapply triple_bind; [apply t_clockNow; apply _|]. intros now.
  eapply triple_pre; [apply (triple_ret cfg i _ (λ r, pure (figuresOk (stCacheEntries r) (stCacheBytes r))))|].
  by intros s _ _.
Qed.

End views.
End viewslogic.
