(* ===== verification/Admin.v ===== *)
(** * internal/admin: the HTTP API

    The handlers of handlers.go as programs on the service. A request is what the
    handlers read of it: the method, the path, the [limit] parameter of the query,
    the content length and the outcome of decoding the body (at most 1024 bytes)
    as a JSON object with only the field [key]. An answer is a status and a payload; JSON has no NaN
    and no infinity, so a payload with one is answered with status 500. The
    Prometheus page is a library's, its content is not modelled. *)
From stdpp Require Import prelude gmap strings list fin_maps.
From Stdlib Require Import ZArith Lia.
From S2P Require Import Prelude Float64 GoStd GoTime CachePolicy Config Cache CacheSpec.
From S2P Require Import Hotness Scorer Metrics ServiceBase Conc Service Views ServiceInv ServiceLogic ServiceReads ServiceWrites ViewsLogic.
Local Open Scope Z_scope.

Module admin.
Import gostd upstream svcbase service privacy views.

(** [decoder.Decode(&body)]: [io.EOF], another error, or the key. *)
Inductive decoded := DecodeEOF | DecodeError | Decoded (key : string).

Record Request := mkRequest {
  rMethod : string;
  rPath : string;
  rLimit : string;
  rContentLength : Z;
  rBody : decoded
}.

Inductive payload (F : Type) :=
  | Text (s : string)
  | JStatus (s : Status)
  | JHotKeys (l : list (HotKey F))
  | JAudit (r : AuditReport F)
  | JCache (c : CacheInfo)
  | JPurged (b : bool)
  | Prometheus.
Arguments Text {F}. Arguments JStatus {F}. Arguments JHotKeys {F}. Arguments JAudit {F}.
Arguments JCache {F}. Arguments JPurged {F}. Arguments Prometheus {F}.

Record Response (F : Type) := mkResponse { code : Z; content : payload F }.
Arguments mkResponse {F}. Arguments code {F}. Arguments content {F}.

Section handlers.
Context {F : Type} `{Float64 F} {U : Type} `{Upstream U} {G : Type} `{SingleFlight G}.
Context `{Deployment} (cfg : config.Config F).
Notation Sv := (Service F U G).
Notation P := (prog Tick Sv).

(** [http.Error] *)
Definition Error (message : string) (status : Z) : Response F :=
  mkResponse status (Text (message ++ gostd.ofChars [gostd.chr 10])).

Definition methodNotAllowed : Response F := Error "method not allowed" 405.

Definition finite (x : F) : bool := negb (fisnan x) && negb (fisinf x).

(** Whether the JSON encoder accepts the value. *)
Definition encodable (p : payload F) : bool :=
  match p with
  | JHotKeys l => forallb (λ k, finite (hkScore k) && finite (hkRequestRate k)) l
  | JAudit r => forallb (λ e, finite (aeRequestRate e)) (arEntries r)
  | _ => true
  end.

Definition writeJSON (value : payload F) : Response F :=
  if encodable value then mkResponse 200 value else Error "response encoding failed" 500.

(** A write of a fixed text with status 200. *)
Definition ok (s : string) : Response F := mkResponse 200 (Text (s ++ gostd.ofChars [gostd.chr 10])).

Definition isGet (r : Request) : bool := bool_decide (rMethod r = "GET"%string).

Definition handleHealthz (r : Request) : P (Response F) :=
  if negb (isGet r) then mret methodNotAllowed else mret (ok "ok").

Definition handleReadyz (r : Request) : P (Response F) :=
  if negb (isGet r) then mret methodNotAllowed
  else
    err ← Ready;
    match err with
    | Some _ => mret (Error "not ready" 503)
    | None => mret (ok "ready")
    end.

Definition handleStatus (r : Request) : P (Response F) :=
  if negb (isGet r) then mret methodNotAllowed
  else st ← StatusView cfg; mret (writeJSON (JStatus st)).

(** The limit of a query: the default when it is absent, none when it is invalid. *)
Definition parseLimit (raw : string) (dflt maximum : Z) : option Z :=
  if bool_decide (raw = EmptyString) then Some dflt
  else match Atoi raw with
  | Some parsed => if (parsed <? 1) || (maximum <? parsed) then None else Some parsed
  | None => None
  end.

Definition handleHotKeys (r : Request) : P (Response F) :=
  if negb (isGet r) then mret methodNotAllowed
  else match parseLimit (rLimit r) 20 1000 with
  | None => mret (Error "invalid limit" 400)
  | Some limit => rows ← HotKeys cfg limit; mret (writeJSON (JHotKeys rows))
  end.

Definition handleAudit (r : Request) : P (Response F) :=
  if negb (isGet r) then mret methodNotAllowed
  else match parseLimit (rLimit r) DefaultAuditLimit MaxAuditLimit with
  | None => mret (Error "invalid limit" 400)
  | Some limit => report ← Audit cfg limit; mret (writeJSON (JAudit report))
  end.

Definition handleCache (r : Request) : P (Response F) :=
  if negb (isGet r) then mret methodNotAllowed
  else info ← CacheInfoView; mret (writeJSON (JCache info)).

Definition purge (key : string) : P (Response F) :=
  purged ← PurgeCache key; mret (writeJSON (JPurged purged)).

Definition handleCachePurge (r : Request) : P (Response F) :=
  if negb (bool_decide (rMethod r = "POST"%string)) then mret methodNotAllowed
  else if rContentLength r =? 0 then purge EmptyString
  else match rBody r with
  | DecodeEOF => purge EmptyString
  | DecodeError => mret (Error "invalid purge request" 400)
  | Decoded key => if 512 <? slen key then mret (Error "key is too long" 400) else purge key
  end.

(** The multiplexer of [routes], on clean paths. *)
Definition serveHTTP (r : Request) : P (Response F) :=
  if bool_decide (rPath r = "/healthz"%string) then handleHealthz r
  else if bool_decide (rPath r = "/readyz"%string) then handleReadyz r
  else if bool_decide (rPath r = "/metrics"%string) then mret (mkResponse 200 Prometheus)
  else if bool_decide (rPath r = "/v1/status"%string) then handleStatus r
  else if bool_decide (rPath r = "/v1/hotkeys"%string) then handleHotKeys r
  else if bool_decide (rPath r = "/v1/audit"%string) then handleAudit r
  else if bool_decide (rPath r = "/v1/cache"%string) then handleCache r
  else if bool_decide (rPath r = "/v1/cache/purge"%string) then handleCachePurge r
  else mret (Error "404 page not found" 404).

End handlers.

(** ** The answers *)

Section logic.
Import svcinv svclogic svcwrites viewslogic.
Context {F : Type} `{Float64 F} {U : Type} `{UpstreamLaws U} {G : Type} `{SingleFlight G}.
Context `{Deployment} (cfg : config.Config F).
Notation Sv := (Service F U G).
Notation P := (prog Tick Sv).
Notation triple := (triple cfg).
Notation assertion := (Sv → Prop).

(** What an answer may be: an error without a report, or a report that is right for
    the limit that was asked for. *)
Definition responseOk (r : Request) (a : Response F) : Prop :=
  match content a with
  | JAudit report => ∃ limit, parseLimit (rLimit r) DefaultAuditLimit MaxAuditLimit = Some limit ∧ auditOk cfg limit report
  | JHotKeys rows => ∃ limit, parseLimit (rLimit r) 20 1000 = Some limit ∧ hotKeysOk limit rows
  | JCache info => figuresOk cfg (ciEntries info) (ciBytes info)
  | JStatus st => figuresOk cfg (stCacheEntries st) (stCacheBytes st)
  | _ => True
  end.

Context (HB : 0 <= config.cacheMaxBytes (config.Cache cfg) < lruspec.maxBudget).
Context (HE : config.cacheMaxEntries (config.Cache cfg) <= maxInt64).

Lemma a_ret i (φ : Prop) r (a : Response F) :
  (φ → responseOk r a) → triple i (pure φ : assertion) (mret a) (λ a, pure (responseOk r a)).
Proof.
  intros Ha. eapply triple_pre; [apply (triple_ret cfg i a (λ a, pure (responseOk r a)))|]. intros s _. exact Ha.
Qed.

Lemma writeJSON_ok r (p : payload F) : responseOk r (mkResponse 200 p) → responseOk r (writeJSON p).
Proof. unfold writeJSON. by destruct (encodable p). Qed.

Lemma a_purge i r key : triple i (pure True : assertion) (purge key) (λ a, pure (responseOk r a)).
Proof. eapply triple_bind; [apply t_PurgeCache|]. intros b. by apply a_ret. Qed.

Lemma t_serveHTTP i r : triple i (pure True : assertion) (serveHTTP cfg r) (λ a, pure (responseOk r a)).
Proof.
  unfold serveHTTP. repeat case_match; try by apply a_ret.
  - unfold handleHealthz. destruct (isGet r); by apply a_ret.
  - unfold handleReadyz. destruct (isGet r); [|by apply a_ret]. cbn [negb].
    eapply triple_bind; [apply t_Ready|]. intros [err|]; by apply a_ret.
  - unfold handleStatus. destruct (isGet r); [|by apply a_ret]. cbn [negb].
    eapply triple_bind; [by apply t_StatusView|]. intros st. by apply a_ret.
  - unfold handleHotKeys. destruct (isGet r); [|by apply a_ret]. cbn [negb].
    destruct (parseLimit (rLimit r) 20 1000) as [limit|] eqn:El; [|by apply a_ret].
    eapply triple_bind; [by apply t_HotKeys|]. intros rows. apply a_ret. intros Hr. apply writeJSON_ok. by exists limit.
  - unfold handleAudit. destruct (isGet r); [|by apply a_ret]. cbn [negb].
    destruct (parseLimit (rLimit r) DefaultAuditLimit MaxAuditLimit) as [limit|] eqn:El; [|by apply a_ret].
    eapply triple_bind; [by apply t_Audit|]. intros report. apply a_ret. intros Hr. apply writeJSON_ok. by exists limit.
  - unfold handleCache. destruct (isGet r); [|by apply a_ret]. cbn [negb].
    eapply triple_bind; [by apply t_CacheInfoView|]. intros info. by apply a_ret.
  - unfold handleCachePurge. repeat case_match; try apply a_purge; by apply a_ret.
Qed.

End logic.
End admin.
