(* ===== verification/ServicePool.v ===== *)
(** * internal/service: any number of concurrent requests

    The pool of goroutines that serve requests: a request of a client or of the
    administrator, or a flight started by [Get]. Requests arrive at any moment and
    interleave in every way; the invariant holds in every state they reach. The end
    of the file is a small concrete server with a scenario, for the witnesses. *)
From stdpp Require Import prelude gmap strings list fin_maps.
From Stdlib Require Import ZArith Lia SpecFloat.
From S2P Require Import Prelude Float64 GoStd CachePolicy Config Cache CacheSpec CacheProps CacheHeld.
From S2P Require Import Hotness HotnessInv Metrics ServiceBase Conc Service ServiceInv ServiceLogic.
From S2P Require Import ServiceReads ServiceWrites Views ViewsLogic Admin.
Local Open Scope Z_scope.

Module svcpool.
Import gostd upstream svcbase service cacheheld svcinv svclogic svcreads svcwrites.

Inductive request :=
  | RGet (key : string)
  | RMGet (keys : list string)
  | RWrite (command : string) (args keys : list string)
  | RPassThrough (command : string) (args : list string)
  | RPurge (key : string)
  | RAdmin (r : admin.Request)
  | RSetProxyActive (active : bool)
  | RClose.

Inductive outcome (F : Type) :=
  | OValue (r : Value + Err)
  | OValues (r : list Value + Err)
  | OAny (r : any + Err)
  | OBool (b : bool)
  | OAdmin (r : admin.Request) (a : admin.Response F)
  | OUnit.
Arguments OValue {F}. Arguments OValues {F}. Arguments OAny {F}. Arguments OBool {F}.
Arguments OAdmin {F}. Arguments OUnit {F}.

Section pool.
Context {F : Type} `{Float64 F} {U : Type} `{UpstreamLaws U} {G : Type} `{SingleFlight G}.
Context `{privacy.Deployment} (cfg : config.Config F).
Notation Sv := (Service F U G).
Notation P := (prog Tick Sv).

Definition serve (r : request) : P (outcome F) :=
  match r with
  | RGet key => x ← Get cfg key; mret (OValue x)
  | RMGet keys => x ← MGet cfg keys; mret (OValues x)
  | RWrite command args keys => x ← ExecuteWrite cfg command args keys; mret (OAny x)
  | RPassThrough command args => x ← PassThrough command args; mret (OAny x)
  | RPurge key => x ← PurgeCache key; mret (OBool x)
  | RAdmin r => a ← admin.serveHTTP cfg r; mret (OAdmin r a)
  | RSetProxyActive b => SetProxyActive b ;; mret OUnit
  | RClose => Close ;; mret OUnit
  end.

(** A write names every key it changes; a pass-through changes none. *)
Definition legal (r : request) : Prop :=
  match r with
  | RWrite command args keys => writesOnly (U := U) (command :: args) keys
  | RPassThrough command args => writesOnly (U := U) (command :: args) []
  | _ => True
  end.

(** A goroutine starts: for a request, or for a flight that [Get] has started. *)
Inductive arrive : Sv → Sv → P (outcome F) → Prop :=
  | arrive_request s r : legal r → arrive s s (serve r)
  | arrive_flight s l1 fl l2 :
      started s = l1 ++ fl :: l2 →
      arrive s (set_group s (group s) (l1 ++ l2)) (flightBody cfg fl ;; mret OUnit).

(** The administrator's answers are right. *)
Definition outcomeOk (o : outcome F) : Prop :=
  match o with OAdmin r a => admin.responseOk cfg r a | _ => True end.

(** What is asked of the configuration: a byte budget below 2^62 and machine
    integers elsewhere. *)
Definition sane : Prop :=
  0 <= config.cacheMaxBytes (config.Cache cfg) < lruspec.maxBudget ∧
  config.cacheMaxEntries (config.Cache cfg) <= maxInt64 ∧
  config.hotnessMaxTrackedKeys (config.Hotness cfg) <= maxInt64.

Lemma t_serve i r : sane → legal r → triple cfg i (pure True) (serve r) (λ o, pure (outcomeOk o)).
Proof.
  intros (HB & HE & _) Hl.
  assert (Hret : ∀ o, outcomeOk o → triple cfg i (pure True : Sv → Prop) (mret o) (λ o, pure (outcomeOk o))).
  { intros o Ho. eapply triple_pre; [apply (triple_ret cfg i o (λ o, pure (outcomeOk o)))|]. by intros s _ _. }
  destruct r; cbn [serve];
    [eapply triple_bind; first [apply t_Get|apply t_MGet|by apply t_ExecuteWrite|by apply t_PassThrough|apply t_PurgeCache
       |intros x; by apply Hret]..| | |].
  - eapply triple_bind; [by apply admin.t_serveHTTP|]. intros a.
    eapply triple_pre; [apply (triple_ret cfg i _ (λ o, pure (outcomeOk o)))|]. intros s _. exact id.
  - eapply triple_bind; [apply t_SetProxyActive|]. intros x. by apply Hret.
  - eapply triple_bind; [apply t_Close|]. intros x. by apply Hret.
Qed.

(** A started flight may begin: it leaves the list of those to start. *)
Lemma flight_start s l1 fl l2 :
  inv cfg s → started s = l1 ++ fl :: l2 →
  let s' := set_group s (group s) (l1 ++ l2) in
  inv cfg s' ∧ (∀ j, rely j s s') ∧
  ∀ i, safe tick_ok (inv cfg) rely guar i (flightBody cfg fl) (λ _, pure True) s'.
Proof.
  intros HI Hst s'.
  assert (Hc : same_core s s') by done.
  assert (Hok : flight_ok cfg s fl) by (apply HI; rewrite Hst, elem_of_app; right; left).
  assert (HI' : inv cfg s').
  { eapply same_core_inv; [done|done|apply HI|]. intros fl' Hfl. apply HI. rewrite Hst.
    simpl in Hfl. rewrite elem_of_app in *. rewrite elem_of_cons. tauto. }
  split_and!; [done|intros j; by apply same_core_rely|]. destruct Hok as (H1' & H2' & H3').
  intros i. by apply (t_flightBody cfg i fl (conj H1' H2')).
Qed.

Lemma arrive_ok s s' p i :
  sane → inv cfg s → arrive s s' p →
  inv cfg s' ∧ (∀ j, rely j s s') ∧ safe tick_ok (inv cfg) rely guar i p (λ o, pure (outcomeOk o)) s'.
Proof.
  intros Hsane HI Ha. destruct Ha as [s r Hl|s l1 fl l2 Hst].
  - split_and!; [done|reflexivity|]. eapply safe_mono; [by apply (t_serve i r Hsane Hl s HI)|done].
  - destruct (flight_start s l1 fl l2 HI Hst) as (HI' & Hr & Hs). split_and!; [done..|].
    apply safe_bind; [apply _| |done]. eapply safe_mono; [apply Hs|]. by intros [] s1 HI1 _ s2 _ _.
Qed.

(** ** The initial state *)

Lemma heldP_none (o : option cache.Cache) k :
  (∀ c, o = Some c → held c k = None) → heldP o k = None.
Proof. intros Hc. destruct o; [|done]. by apply Hc. Qed.

Lemma New_inv now (u : U) (g : G) : sane → inv cfg (New cfg now u g).
Proof.
  intros (HB & HE & Ht).
  destruct (split_limits (config.cacheMaxBytes (config.Cache cfg)) (config.cacheMaxEntries (config.Cache cfg)))
    as (Hp & Hq & Hsum & _); [unfold lruspec.maxBudget in HB; width_lia|done|].
  assert (Htier : ∀ mb me, mb < lruspec.maxBudget → tier_ok mb me (cache.New mb me)).
  { intros mb me Hm. split; [by apply lrumachine.New_good|done]. }
  assert (Hno : ∀ k v, ¬ tier (New cfg now u g) k v).
  { intros k v [Hv|Hv]; [done|]. simpl in Hv. rewrite heldP_none in Hv; [done|].
    intros c. by case_if; intros [= <-]. }
  split; try done.
  - apply Htier. unfold limits. lia.
  - intros c. unfold limits. simpl. case_if; [|done]. intros [= <-].
    split; [|done]. apply Htier. lia.
  - by apply hotinv.New_wf.
  - intros k v Hv. by destruct (Hno k v).
  - intros k v Hv. by destruct (Hno k v).
  - by intros fl ?%elem_of_nil.
Qed.

Definition reached (now : Time) (u : U) (g : G) (c : Sv * list (P (outcome F))) : Prop :=
  preachable tick_ok arrive (New cfg now u g) c.

Lemma reached_ok now u g c :
  sane → reached now u g c → pool_ok tick_ok (inv cfg) rely guar (λ _ _, True) (λ _ o, pure (outcomeOk o)) c.
Proof.
  intros Hs Hr. eapply preachable_ok; [apply _| | | |by apply New_inv|done|exact Hr].
  - intros i j s s' Hij Hg. apply Hg. done.
  - by intros j s s'.
  - intros s s' p i HI _. by apply arrive_ok.
Qed.

Lemma reached_inv now u g s ps : sane → reached now u g (s, ps) → inv cfg s.
Proof. intros Hs Hr. by destruct (reached_ok now u g (s, ps) Hs Hr). Qed.

End pool.
End svcpool.
