(* ===== verification/ServiceDemo.v ===== *)
(** * A concrete server and a scenario

    A small in-memory server that obeys the upstream laws, a singleflight group,
    and a scenario in which three requests interleave with a flight. The theorems
    about the service are instantiated on it. *)
From stdpp Require Import prelude gmap strings list fin_maps.
From Stdlib Require Import ZArith Lia SpecFloat.
From S2P Require Import Prelude Float64 GoStd CachePolicy Config Cache CacheSpec CacheProps CacheHeld.
From S2P Require Import Hotness HotnessInv Metrics ServiceBase Conc Service ServiceInv Views ViewsLogic Admin ServicePool.
Local Open Scope Z_scope.

Module svcdemo.
Import gostd upstream svcbase service cacheheld svcinv svcpool.
#[local] Existing Instance binary64.binary64.

Notation store := (gmap string bytes).

Definition storable (k : string) (v : bytes) : bool := (slen k <=? 2 ^ 29) && (blen v <=? 2 ^ 29).

Definition storeGet (u : store) (k : string) : Value :=
  match u !! k with
  | Some v => if storable k v then mkValue v true (-1) else noValue
  | None => noValue
  end.

Definition storeDo (u : store) (command : list string) : store * any :=
  match command with
  | [c; k; v] =>
      if EqualFold c "SET" && storable k (bytes_of v)
      then (<[k := bytes_of v]> u, AnyString "OK") else (u, AnyNil)
  | _ => (u, AnyNil)
  end.

#[export] Instance store_upstream : Upstream store := {|
  up_get u _ k := storeGet u k;
  up_mget u _ ks := map (storeGet u) ks;
  up_do u _ command := storeDo u command |}.

#[export] Instance store_laws : UpstreamLaws store.
Proof.
  split; try done.
  - intros u t k. simpl. unfold storeGet, storable. repeat case_match; try done. ztests. intros _.
    simpl. ztests. lia.
  - intros u t cmd k v u' status Hc Hok Hdo. simpl in Hdo. unfold storeDo in Hdo. rewrite Hc in Hdo.
    destruct (storable k (bytes_of v)) eqn:Hs; simplify_eq/=. unfold data, up_get, store_upstream, storeGet.
    by rewrite lookup_insert_eq, Hs.
Qed.

Lemma store_set_only k v : writesOnly (U := store) ["SET"; k; v]%string [k].
Proof.
  intros u t k' Hk'. unfold data, up_get, up_do, store_upstream, storeDo, storeGet. destruct (EqualFold _ _ && storable k (bytes_of v)); [|done]. cbn [fst].
  rewrite lookup_insert_ne; [done|]. intros ->. apply Hk'. left.
Qed.

(** One call per key at a time; a finished call keeps its result. *)
Record calls := mkCalls { running : gmap string nat; results : gmap nat (Value + Err); nextCall : nat }.

#[export] Instance calls_flight : SingleFlight calls := {|
  sf_do g k := match running g !! k with
               | Some c => (g, (c, false))
               | None => (mkCalls (<[k := nextCall g]> (running g)) (results g) (S (nextCall g)),
                          (nextCall g, true))
               end;
  sf_finish g c r := mkCalls (filter (λ p, p.2 ≠ c) (running g)) (<[c := r]> (results g)) (nextCall g);
  sf_forget g k := mkCalls (delete k (running g)) (results g) (nextCall g);
  sf_poll g c := (λ r, (r, false)) <$> results g !! c |}.

(** The default configuration in cache mode. *)
Definition demo_cfg : config.Config spec_float :=
  let d := config.Default "secret" in
  config.mkConfig "cache" (config.Proxy d) (config.Admin d) (config.Upstream d) (config.Cache d)
    (config.Hotness d) (config.Privacy d) (config.Logging d).

(** A digest for the demonstration: the length of the key, padded. *)
#[export] Instance demo_deployment : privacy.Deployment := {|
  privacy.hmac _ key := Z.of_nat (String.length key) mod 256 :: replicate 31 0;
  privacy.hmac_size _ _ := eq_refl;
  privacy.version := "v0.2"; privacy.commit := "demo"; privacy.startedAt := 0 |}.

Notation Sv := (Service spec_float store calls).

(** A tick at time [now], when no epoch is near its end. *)
Definition tickAt (now : Time) (s : Sv) : option Tick :=
  if bool_decide (Forall (λ st, 0 <= epoch st < two64 - 1) (cacheEpochs s))
  then Some (mkTick now (hotinv.anyOrder (tracker s)) (hotinv.anyOrder (tracker s)) None None false) else None.

Lemma tickAt_ok now s e : tickAt now s = Some e → tick_ok s e.
Proof.
  unfold tickAt. destruct (bool_decide _) eqn:Hb; [|done]. intros [= <-]. apply bool_decide_eq_true in Hb.
  split_and!; [apply hotinv.anyOrder_valid..|]. intros n. unfold epochAt, stripeAt.
  destruct (cacheEpochs s !! n) as [st|] eqn:Hn; simpl; [|unfold two64; lia].
  rewrite Forall_lookup in Hb. by eapply Hb.
Qed.

(** A scenario: requests arrive, started flights start, goroutines run. *)
Inductive move := MRequest (r : request) | MFlight | MRun (i : nat) (now : Time).

Definition drive1 (c : Sv * list (prog Tick Sv (outcome spec_float))) (m : move) : Sv * list (prog Tick Sv (outcome spec_float)) :=
  let '(s, ps) := c in
  match m with
  | MRequest r => (s, ps ++ [serve demo_cfg r])
  | MFlight =>
      match started s with
      | fl :: l => (set_group s (group s) l, ps ++ [flightBody demo_cfg fl ≫= λ _, mret OUnit])
      | [] => (s, ps)
      end
  | MRun i now =>
      match ps !! i with
      | Some p => let '(s', p') := runAlone (tickAt now) 4000 i s p in (s', <[i := p']> ps)
      | None => (s, ps)
      end
  end.

Definition demo_init : Sv := New demo_cfg 0 (∅ : store) (mkCalls ∅ ∅ 0).

Lemma drive_reached moves c :
  (∀ r, MRequest r ∈ moves → legal (U := store) r) →
  reached demo_cfg 0 (∅ : store) (mkCalls ∅ ∅ 0) c →
  reached demo_cfg 0 (∅ : store) (mkCalls ∅ ∅ 0) (fold_left drive1 moves c).
Proof.
  revert c. induction moves as [|m moves IH]; intros c Hl Hr; [done|]. simpl.
  apply IH; [intros r Hm; apply Hl; by right|]. destruct c as [s ps], m as [r| |i now]; cbn [drive1].
  - eapply preach_step; [exact Hr|]. constructor. constructor. apply Hl. left.
  - destruct (started s) as [|fl l] eqn:Hst; [done|]. eapply preach_step; [exact Hr|].
    constructor. by apply (arrive_flight demo_cfg s [] fl l).
  - destruct (ps !! i) as [p|] eqn:Hi; [|done].
    destruct (runAlone _ _ _ _ _) as [s' p'] eqn:Hrun.
    eapply runAlone_reachable; [apply tickAt_ok|done|done|done].
Qed.

(** A SET, a GET that misses and starts a flight, the flight, and a second GET that
    moves the value to the protected tier. *)
Definition demo_moves : list move :=
  [MRequest (RWrite "SET" ["k"; "v"] ["k"])%string; MRun 0 10;
   MRequest (RGet "k"); MRun 1 20; MFlight; MRun 2 30; MRun 1 40;
   MRequest (RGet "k"); MRun 3 50].

Definition demo : Sv * list (prog Tick Sv (outcome spec_float)) := fold_left drive1 demo_moves (demo_init, []).

Definition demo_state : Sv := demo.1.
Definition demo_threads : list (prog Tick Sv (outcome spec_float)) := demo.2.

Lemma demo_reached : reached demo_cfg 0 (∅ : store) (mkCalls ∅ ∅ 0) (demo_state, demo_threads).
Proof.
  unfold demo_state, demo_threads. rewrite <-surjective_pairing.
  apply drive_reached; [|constructor]. intros r Hr.
  repeat (apply elem_of_cons in Hr as [Hr|Hr]; [simplify_eq; first [done|apply store_set_only]|]).
  by apply elem_of_nil in Hr.
Qed.

(** The scenario ends with the value in the protected tier. *)
Example demo_protected : held (protected demo_state) "k" = Some (bytes_of "v").
Proof. vm_compute. reflexivity. Qed.

Lemma demo_sane : sane demo_cfg.
Proof. unfold sane, lruspec.maxBudget. simpl. width_lia. Qed.

End svcdemo.
