(* ===== verification/AdminProps.v ===== *)
(** * What the admin API guarantees

    The audit report is right about one state of the tracker although requests run
    while it is made, and malformed requests are refused before they reach the
    service. *)
From stdpp Require Import prelude gmap strings list fin_maps.
From Stdlib Require Import ZArith Lia SpecFloat.
From S2P Require Import Prelude Float64 GoStd CachePolicy Config Cache CacheSpec CacheHeld.
From S2P Require Import Hotness HotnessInv Scorer Metrics ServiceBase Conc Service Views ServiceInv ViewsLogic Admin ServicePool ServiceDemo.
Local Open Scope Z_scope.

Module adminlemmas.
Import gostd svcbase service privacy views viewslogic admin.

(** The recommendation of an entry is decided by the policy and the state. *)
Lemma auditEntry_review {F} `{Float64 F} `{Deployment} (cfg : config.Config F) sn :
  aeRecommendation (auditEntry cfg sn) = "review_for_cache"%string ↔
  cachepolicy.dMode (cachepolicy.Match (policies cfg) (hotness.snKey sn)) = cachepolicy.ModeObserve ∧
  hotness.snState sn = hotness.StateHot.
Proof.
  unfold auditEntry, auditRecommendation. cbv zeta.
  destruct (cachepolicy.dMode _), (hotness.snState sn); cbn; split; intros; destruct_and?; done.
Qed.

Lemma auditEntry_hashed {F} `{Float64 F} `{Deployment} (cfg : config.Config F) sn :
  config.EffectiveKeyVisibility cfg ≠ VisibilityPlain → hashed (aeID (auditEntry cfg sn)).
Proof.
  intros Hv. unfold auditEntry. destruct (auditRecommendation _ _). cbn. unfold identify, KeyIdentifier.
  rewrite bool_decide_false by done. apply HMACKeyIdentifier_hashed.
Qed.

Lemma auditEntry_id {F} `{Float64 F} `{Deployment} (cfg : config.Config F) sn :
  aeID (auditEntry cfg sn) = identify cfg (hotness.snKey sn).
Proof. unfold auditEntry. by destruct (auditRecommendation _ _). Qed.

Lemma parseLimit_exact raw dflt maximum n :
  parseLimit raw dflt maximum = Some n ↔
  (raw = EmptyString ∧ n = dflt) ∨ (raw ≠ EmptyString ∧ Atoi raw = Some n ∧ 1 <= n <= maximum).
Proof.
  unfold parseLimit. case_bool_decide as He; [naive_solver|].
  destruct (Atoi raw) as [p|]; [|naive_solver].
  destruct ((p <? 1) || (maximum <? p)) eqn:E; ztests.
  - split; [done|]. intros [[??]|(_ & [= ->] & ?)]; [done|lia].
  - split; [intros [= ->]; right; split_and!; [done..|lia|lia]|].
    intros [[??]|(_ & [= ->] & ?)]; done.
Qed.

(** A view that leaves nothing out lists every entry. *)
Lemma complete_ids {F} `{Float64 F} `{Deployment} (cfg : config.Config F) (ring : list (hotness.entry F)) at' sns dropped entries :
  ((λ e, hotness.snapshot e at') <$> ring) ≡ₚ sns ++ dropped → entries = map (auditEntry cfg) sns →
  length ring = length entries →
  (aeID <$> entries) ≡ₚ ((λ e, identify cfg (hotness.key e)) <$> ring).
Proof.
  intros Hp -> Hl. assert (dropped = []) as ->.
  { apply length_zero_iff_nil. apply Permutation_length in Hp. rewrite length_fmap, length_app in Hp. rewrite length_map in Hl. lia. }
  rewrite app_nil_r in Hp. change (map (auditEntry cfg) sns) with (auditEntry cfg <$> sns).
  rewrite <-Hp, <-!list_fmap_compose. apply reflexive_eq, list_fmap_ext. intros j e _. unfold compose. cbn [compose].
  by rewrite auditEntry_id.
Qed.

End adminlemmas.

Import gostd svcbase service privacy views svcpool viewslogic admin adminlemmas svcdemo.
#[local] Existing Instance binary64.binary64.


(** A read, then an audit. *)
Definition audit_request : Request := mkRequest "GET" "/v1/audit" "10" 0 DecodeEOF.
Definition audit_moves : list move := demo_moves ++ [MRequest (RAdmin audit_request); MRun 4 60].
Definition audited : Sv * list (prog Tick Sv (outcome spec_float)) := fold_left drive1 audit_moves (demo_init, []).

Lemma audited_reached : reached demo_cfg 0 (∅ : store) (mkCalls ∅ ∅ 0) (audited.1, audited.2).
Proof.
  rewrite <-surjective_pairing. apply drive_reached; [|constructor]. intros r Hr.
  repeat (apply elem_of_cons in Hr as [Hr|Hr]; [simplify_eq; first [done|apply store_set_only]|]).
  by apply elem_of_nil in Hr.
Qed.

(** The report a goroutine has answered with. *)
Definition reportOf (p : option (prog Tick Sv (outcome spec_float))) : option (AuditReport spec_float) :=
  match p with
  | Some (Ret (OAdmin _ a)) => match content a with JAudit r => Some r | _ => None end
  | _ => None
  end.

Lemma reportOf_Some p r :
  reportOf p = Some r → ∃ req resp, p = Some (Ret (OAdmin req resp)) ∧ content resp = JAudit r.
Proof. unfold reportOf. intros Hr. repeat case_match; simplify_eq; by eexists _, _. Qed.

Definition audited_report : option (AuditReport spec_float) := reportOf (audited.2 !! 4%nat).


