(* ===== verification/ServiceProps.v ===== *)
(** * What internal/service guarantees

    In every state that any interleaving of requests, flights and administrative
    calls can reach: the local tiers agree with the upstream server, stay within the
    configured budget, hold a key at most once and only as policies allow, and no
    goroutine panics. *)
From stdpp Require Import prelude gmap strings list fin_maps.
From Stdlib Require Import ZArith Lia SpecFloat.
From S2P Require Import Prelude Float64 GoStd CachePolicy Config Cache CacheSpec CacheProps CacheHeld.
From S2P Require Import Hotness HotnessInv Metrics ServiceBase Conc Service ServiceInv Views ViewsLogic Admin ServicePool ServiceDemo.
Local Open Scope Z_scope.
Import upstream svcbase service cacheheld svcinv svcpool svcdemo.
#[local] Existing Instance binary64.binary64.







(** No goroutine panics: no request or flight indexes outside the tracker's
    ring or outside the list of missing keys, whatever the interleaving. *)
Theorem requests_never_panic {F} `{Float64 F} {U} `{UpstreamLaws U} {G} `{SingleFlight G}
    `{privacy.Deployment} (cfg : config.Config F) now (u : U) (g : G) s ps i :
  sane cfg → reached cfg now u g (s, ps) → ps !! i ≠ Some Panic.
Proof.
  intros Hs Hr Hi. destruct (reached_ok cfg now u g (s, ps) Hs Hr) as (_ & _ & Hp). by apply (Hp i Panic).
Qed.

Lemma requests_never_panic_witness : demo_threads !! 3%nat ≠ Some Panic.
Proof.
  apply (requests_never_panic demo_cfg 0 (∅ : gmap string bytes) (mkCalls ∅ ∅ 0) demo_state demo_threads 3%nat);
    [exact demo_sane|exact demo_reached].
Defined.

(** In observe mode nothing is cached, whatever the per-prefix policies say:
    the global mode is a ceiling. *)
Theorem observe_mode_stores_nothing {F} `{Float64 F} {U} `{UpstreamLaws U} {G} `{SingleFlight G}
    `{privacy.Deployment} (cfg : config.Config F) now (u : U) (g : G) s ps k :
  sane cfg → config.Mode cfg = "observe"%string → reached cfg now u g (s, ps) →
  held (protected s) k = None ∧ heldP (probationary s) k = None.
Proof.
  intros Hs Hm Hr. pose proof (reached_inv cfg now u g s ps Hs Hr) as HI.
  assert (Hno : cachepolicy.dMode (cachepolicy.Match (newPolicyMatcher cfg) k) ≠ cachepolicy.ModeCache).
  { unfold newPolicyMatcher. rewrite Hm. simpl.
    destruct (cachepolicy.Match_source (cachepolicy.mkDecision cachepolicy.ModeObserve 0 0)
      (map (policyRule cfg) (config.cachePolicies (config.Cache cfg))) k) as [->|(r & Hin & ->)]; [done|].
    apply list_elem_of_fmap in Hin as (p & -> & _). unfold policyRule.
    destruct (cachepolicy.ParseMode (config.policyMode p)) as [m b]. rewrite Hm. simpl.
    by destruct b, m. }
  assert (Hn : ∀ v, ¬ tier s k v) by (intros v Hv; apply (inv_admissible _ _ HI) in Hv as [? _]; done).
  split.
  - destruct (held (protected s) k) as [v|] eqn:E; [|done]. destruct (Hn v). by left.
  - destruct (heldP (probationary s) k) as [v|] eqn:E; [|done]. destruct (Hn v). by right.
Qed.

Lemma observe_mode_stores_nothing_witness :
  let s := New (config.Default "secret" : config.Config spec_float) 0 (∅ : gmap string bytes) (mkCalls ∅ ∅ 0) in
  held (protected s) "k" = None ∧ heldP (probationary s) "k" = None.
Proof.
  apply (observe_mode_stores_nothing (config.Default "secret" : config.Config spec_float) 0
    (∅ : gmap string bytes) (mkCalls ∅ ∅ 0) _ [] "k").
  - exact demo_sane.
  - reflexivity.
  - constructor.
Defined.

(** The local lifetime of a value never exceeds [cache.max_local_ttl], the
    policy's own limit, or a positive remaining lifetime upstream, and it is zero
    (nothing is stored) when the policy allows none or the key is about to expire. *)
Theorem localTTL_bounded {F} `{Float64 F} (cfg : config.Config F) upstreamTTL policyMaxTTL :
  let ttl := localTTL cfg upstreamTTL policyMaxTTL in
  (0 < ttl → ttl <= config.cacheMaxLocalTTL (config.Cache cfg) ∧ ttl <= policyMaxTTL ∧
             (0 < upstreamTTL → ttl <= upstreamTTL)) ∧
  (policyMaxTTL <= 0 ∨ upstreamTTL = 0 → ttl = 0) ∧
  (0 < policyMaxTTL → upstreamTTL < 0 → ttl = Z.min policyMaxTTL (config.cacheMaxLocalTTL (config.Cache cfg))).
Proof.
  unfold localTTL. set (m := config.cacheMaxLocalTTL (config.Cache cfg)).
  destruct (Z.leb_spec policyMaxTTL 0), (Z.ltb_spec policyMaxTTL m), (Z.eqb_spec upstreamTTL 0),
    (Z.ltb_spec 0 upstreamTTL), (Z.ltb_spec upstreamTTL policyMaxTTL), (Z.ltb_spec upstreamTTL m); simpl; lia.
Qed.
