(* ===== verification/Proxy.v ===== *)
(** * internal/proxy: commands, replies and the command handler

    [ParseCommand] and the classification of commands (commands.go), [writeAny]
    (response.go), the limits and the whole of [handle] (server.go). A redcon
    connection is its context and the trace of the calls made on it; a handler is a
    program on the state of the service. *)
From stdpp Require Import prelude gmap strings list.
From Stdlib Require Import ZArith Lia.
From S2P Require Import Prelude Float64 GoStd CachePolicy Config Cache Hotness Metrics ServiceBase Conc Service.
From S2P Require Import Compatibility.
Local Open Scope Z_scope.

Module proxy.
Import gostd upstream compatibility.
Local Open Scope string_scope.
Local Open Scope Z_scope.

(** ** redcon *)

(** [redcon.Command] *)
Record Cmd := mkCmd { Raw : bytes; Args : list bytes }.

(** What a handler writes. *)
Inductive reply :=
  | WString (s : string)
  | WBulk (b : bytes)
  | WBulkString (s : string)
  | WInt (z : Z)
  | WInt64 (z : Z)
  | WUint64 (z : Z)
  | WNull
  | WArray (n : nat)
  | WError (s : string).

Inductive connCall := Write (r : reply) | CloseConn | ReadPipeline.

Record connectionState := mkState { dispatchStopped : bool; metricCounted : bool }.

(** [redcon.Conn]: the context set on it and the calls made on it, in order. *)
Record Conn := mkConn { context : option connectionState; calls : list connCall }.

Definition call (conn : Conn) (c : connCall) : Conn := mkConn (context conn) (calls conn ++ [c])%list.
Definition write (conn : Conn) (r : reply) : Conn := call conn (Write r).
Definition WriteError (conn : Conn) (msg : string) : Conn := write conn (WError msg).

(** [dispatchStopped] and [stopDispatch] of server.go. *)
Definition isStopped (conn : Conn) : bool :=
  match context conn with Some state => dispatchStopped state | None => false end.

Definition stopDispatch (conn : Conn) : Conn :=
  let state := default (mkState false false) (context conn) in
  if dispatchStopped state then conn
  else call (mkConn (Some (mkState true (metricCounted state))) (calls conn)) ReadPipeline.

(** ** commands.go *)

Record ParsedCommand := mkParsed { Name : string; pArgs : list string }.

Definition ParseCommand (cmd : Cmd) : option ParsedCommand :=
  match map string_of (Args cmd) with
  | [] => None
  | a :: args => Some (mkParsed (ToUpper a) (a :: args))
  end.

Definition wrongArity (name : string) : string :=
  "ERR wrong number of arguments for '" ++ ToLower name ++ "' command".
Definition unsupported (name : string) : string :=
  "ERR unsupported command '" ++ ToLower name ++ "' in Slizen".
Definition rejectedUnsafe (name : string) : string :=
  "ERR command '" ++ ToLower name ++ "' is stateful or unsafe and is not supported by Slizen".
Definition rejectedSetGet : string := "ERR SET GET option is not supported by Slizen".
Definition rejectedMutation (name : string) : string :=
  "ERR mutating command '" ++ ToLower name ++ "' is not supported by Slizen".

(** The options that take a value skip it. *)
Fixpoint setUsesGetOption (options : list string) : bool :=
  match options with
  | [] => false
  | o :: options' =>
      let u := ToUpper o in
      if bool_decide (u = "GET") then true
      else if bool_decide (u ∈ ["EX"; "PX"; "EXAT"; "PXAT"]) then
        match options' with
        | [] => false
        | _ :: options'' => setUsesGetOption options''
        end
      else setUsesGetOption options'
  end.

Definition classifyNormalizedCommand (name : string) : Class := eClass (LookupNormalized name).
Definition isUnsafeClass (class : Class) : bool :=
  bool_decide (class = ClassRejectedStateful) || bool_decide (class = ClassRejectedBlocking).
Definition isRejectedMutationClass (class : Class) : bool := bool_decide (class = ClassRejectedMutation).
Definition isBlockingClass (class : Class) : bool := bool_decide (class = ClassRejectedBlocking).
Definition isUnsafeCommand (name : string) : bool := isUnsafeClass (classifyNormalizedCommand name).
Definition isRejectedMutation (name : string) : bool := isRejectedMutationClass (classifyNormalizedCommand name).
Definition isBlockingCommand (name : string) : bool := isBlockingClass (classifyNormalizedCommand name).

(** ** response.go *)

Fixpoint writeAny (conn : Conn) (value : any) : Conn :=
  match value with
  | AnyNil => write conn WNull
  | AnyString s => write conn (WString s)
  | AnyBytes b => write conn (WBulk b)
  | AnyInt z => write conn (WInt z)
  | AnyInt64 z => write conn (WInt64 z)
  | AnyUint64 z => write conn (WUint64 z)
  | AnyBool b => if b then write conn (WInt 1) else write conn (WInt 0)
  | AnyList l =>
      (fix items (conn : Conn) (l : list any) : Conn :=
         match l with
         | [] => conn
         | item :: l' => items (writeAny conn item) l'
         end) (write conn (WArray (length l))) l
  | AnyOther text => write conn (WBulkString text)
  end.

Definition writeUpstreamError (conn : Conn) : Conn := WriteError conn "ERR upstream request failed".

(** ** Limits of server.go *)

Definition nargs (cmd : Cmd) : Z := Z.of_nat (length (Args cmd)).

Fixpoint argsExceed (args : list bytes) (remaining : Z) : bool :=
  match args with
  | [] => false
  | arg :: args' => if remaining <? blen arg then true else argsExceed args' (remaining -i blen arg)
  end.

Definition commandBytesExceed (cmd : Cmd) (maximum : Z) : bool :=
  if 0 <? blen (Raw cmd) then maximum <? blen (Raw cmd) else argsExceed (Args cmd) maximum.

Definition isCommand (cmd : Cmd) (name : string) : bool :=
  match Args cmd with a :: _ => EqualFold (string_of a) name | [] => false end.

Definition commandLimitError (cmd : Cmd) (cfg : config.ProxyConfig) : string :=
  if commandBytesExceed cmd (config.proxyMaxCommandBytes cfg) then "ERR command exceeds proxy.max_command_bytes"
  else if config.proxyMaxCommandArgs cfg <? nargs cmd then "ERR command exceeds proxy.max_command_args"
  else if isCommand cmd "MGET" && (config.proxyMaxMGetKeys cfg <? nargs cmd - 1)
       then "ERR MGET exceeds proxy.max_mget_keys"
  else EmptyString.

(** ** The handler *)
Section handler.
Context {F : Type} `{Float64 F} {U : Type} `{Upstream U} {G : Type} `{SingleFlight G}.
Context (cfg : config.Config F).
Notation Sv := (service.Service F U G).
Notation P := (prog service.Tick Sv).

(** The connection after the command, with the command and the result that the
    deferred [ObserveRequest] reports. *)
Notation done := (Conn * string * string)%type.

Definition failArity (conn : Conn) (command : string) : P done :=
  mret (WriteError conn (wrongArity command), command, "error").

Definition finishAny (conn : Conn) (command : string) (r : any + Err) : P done :=
  match r with
  | inr _ => mret (writeUpstreamError conn, command, "error")
  | inl value => mret (writeAny conn value, command, "ok")
  end.

Definition handleWrite (conn : Conn) (command : string) (args keys : list string) : P done :=
  r ← service.ExecuteWrite cfg command args keys; finishAny conn command r.

Definition handlePassThrough (conn : Conn) (command : string) (args : list string) : P done :=
  r ← service.PassThrough command args; finishAny conn command r.

Definition writeValue (conn : Conn) (v : Value) : Conn :=
  if vExists v then write conn (WBulk (vData v)) else write conn WNull.

Definition handleGet (conn : Conn) (cmd : Cmd) : P done :=
  match Args cmd with
  | [_; key] =>
      r ← service.Get cfg (string_of key);
      match r with
      | inr _ => mret (writeUpstreamError conn, "GET", "error")
      | inl v => mret (writeValue conn v, "GET", "ok")
      end
  | _ => failArity conn "GET"
  end.

Definition handleMGet (conn : Conn) (args : list string) : P done :=
  if (length args <? 2)%nat then failArity conn "MGET"
  else
    r ← service.MGet cfg (drop 1 args);
    match r with
    | inr _ => mret (writeUpstreamError conn, "MGET", "error")
    | inl values =>
        mret (fold_left writeValue values (write conn (WArray (length values))), "MGET", "ok")
    end.

(** The [switch command] of [handle]; [args] includes the name. *)
Definition handleSwitch (conn : Conn) (command : string) (args : list string) : P done :=
  let n := length args in
  let arg i := default EmptyString (args !! i) in
  if bool_decide (command = "PING") then
    if (n =? 1)%nat then mret (write conn (WString "PONG"), command, "ok")
    else if (n =? 2)%nat then mret (write conn (WBulkString (arg 1%nat)), command, "ok")
    else failArity conn command
  else if bool_decide (command = "QUIT") then
    mret (call (write (stopDispatch conn) (WString "OK")) CloseConn, command, "ok")
  else if bool_decide (command = "SELECT") then
    if negb (n =? 2)%nat then failArity conn command
    else if negb (bool_decide (arg 1%nat = "0")) then
      mret (WriteError conn "ERR SELECT is supported only for database 0 in Slizen", command, "error")
    else mret (write conn (WString "OK"), command, "ok")
  else if bool_decide (command = "MGET") then handleMGet conn args
  else if bool_decide (command = "SET") then
    if (n <? 3)%nat then failArity conn command
    else if setUsesGetOption (drop 3 args) then mret (WriteError conn rejectedSetGet, command, "error")
    else handleWrite conn command (drop 1 args) [arg 1%nat]
  else if bool_decide (command ∈ ["SETEX"; "PSETEX"]) then
    if negb (n =? 4)%nat then failArity conn command
    else handleWrite conn command (drop 1 args) [arg 1%nat]
  else if bool_decide (command ∈ ["DEL"; "UNLINK"]) then
    if (n <? 2)%nat then failArity conn command
    else handleWrite conn command (drop 1 args) (drop 1 args)
  else if bool_decide (command ∈ ["EXPIRE"; "PEXPIRE"]) then
    if negb (n =? 3)%nat then failArity conn command
    else handleWrite conn command (drop 1 args) [arg 1%nat]
  else if bool_decide (command = "PERSIST") then
    if negb (n =? 2)%nat then failArity conn command
    else handleWrite conn command (drop 1 args) [arg 1%nat]
  else if bool_decide (command ∈ ["TTL"; "PTTL"]) then
    if negb (n =? 2)%nat then failArity conn command
    else handlePassThrough conn command (drop 1 args)
  else if bool_decide (command = "EXISTS") then
    if (n <? 2)%nat then failArity conn command
    else handlePassThrough conn command (drop 1 args)
  else mret (WriteError conn (unsupported (ToUpper command)), command, "error").

Definition handleBody (conn : Conn) (cmd : Cmd) : P done :=
  let limitError := commandLimitError cmd (config.Proxy cfg) in
  if negb (bool_decide (limitError = EmptyString)) then
    mret (call (WriteError (stopDispatch conn) limitError) CloseConn, "UNKNOWN", "error")
  else if isCommand cmd "GET" then handleGet conn cmd
  else
    match ParseCommand cmd with
    | None => mret (WriteError conn "ERR empty command", "UNKNOWN", "error")
    | Some parsed =>
        let command := Name parsed in
        let commandClass := classifyNormalizedCommand command in
        if isUnsafeClass commandClass then mret (WriteError conn (rejectedUnsafe command), command, "error")
        else if isRejectedMutationClass commandClass then
          mret (WriteError conn (rejectedMutation command), command, "error")
        else handleSwitch conn command (pArgs parsed)
    end.

(** [handle]: the body and the deferred metric. *)
Definition handle (conn : Conn) (cmd : Cmd) : P Conn :=
  start ← service.clockNow;
  '(conn, command, result) ← handleBody conn cmd;
  service.recordA (λ e r, metrics.ObserveRequest r command result (t_sub (service.tNow e) start)) ;;
  mret conn.

End handler.
End proxy.
