(* ===== verification/ProxyProps.v ===== *)
(** * internal/proxy: what the command handler guarantees

    One complete RESP reply per command, the catalogue decides what reaches the
    service, and the limits are exact. *)
From stdpp Require Import prelude gmap strings list.
From Stdlib Require Import ZArith Lia Ascii.
From S2P Require Import Prelude Float64 GoStd CachePolicy Config Cache Hotness Metrics ServiceBase Conc Service.
From S2P Require Import ServicePool ServiceDemo Compatibility Proxy.
Local Open Scope Z_scope.

Module proxyfacts.
Import gostd upstream compatibility proxy.

(** ** RESP framing *)

Definition replies (cs : list connCall) : list reply :=
  omap (λ c, match c with Write r => Some r | _ => None end) cs.

(** How many values are still expected after the writes [l], [need] at the start; a
    write beyond the last expected value is an error. *)
Fixpoint expect (need : nat) (l : list reply) : option nat :=
  match l with
  | [] => Some need
  | r :: l' =>
      match need with
      | O => None
      | S need' => expect (match r with WArray n => n + need' | _ => need' end)%nat l'
      end
  end.

(** The writes are exactly one RESP value. *)
Definition complete (l : list reply) : Prop := expect 1 l = Some O.

Lemma expect_app l1 l2 n : expect n (l1 ++ l2) = expect n l1 ≫= λ m, expect m l2.
Proof. revert n. induction l1 as [|r l1 IH]; intros [|n]; simpl; try done; apply IH. Qed.

(** [conn'] is [conn] after calls whose writes are [n] values. *)
Definition adds (n : nat) (conn conn' : Conn) : Prop :=
  ∃ cs, calls conn' = (calls conn ++ cs)%list ∧ ∀ m, expect (n + m) (replies cs) = Some m.

Lemma adds_refl conn : adds 0 conn conn.
Proof. exists []. by rewrite app_nil_r. Qed.

Lemma adds_trans n m c1 c2 c3 : adds n c1 c2 → adds m c2 c3 → adds (n + m) c1 c3.
Proof.
  intros (cs1 & H1 & He1) (cs2 & H2 & He2). exists (cs1 ++ cs2)%list.
  rewrite H2, H1, <-app_assoc. split; [done|]. intros k. unfold replies. rewrite omap_app, expect_app.
  replace (n + m + k)%nat with (n + (m + k))%nat by lia. fold (replies cs1) (replies cs2).
  rewrite He1. apply He2.
Qed.

Lemma adds_write conn r : (∀ n, r ≠ WArray n) → adds 1 conn (write conn r).
Proof. intros Hr. exists [Write r]. split; [done|]. intros m. simpl. destruct r; naive_solver. Qed.

Lemma adds_silent conn c : (∀ r, c ≠ Write r) → adds 0 conn (call conn c).
Proof. intros Hc. exists [c]. split; [done|]. intros m. destruct c; naive_solver. Qed.

Lemma adds_stop conn : adds 0 conn (stopDispatch conn).
Proof.
  unfold stopDispatch. destruct (dispatchStopped _); [apply adds_refl|]. by exists [ReadPipeline].
Qed.

(** An array header opens as many values as the loop writes. *)
Lemma adds_array {A} (w : Conn → A → Conn) conn l :
  (∀ c x, x ∈ l → adds 1 c (w c x)) → adds 1 conn (fold_left w l (write conn (WArray (length l)))).
Proof.
  intros Hw.
  assert (Hl : ∀ c, adds (length l) c (fold_left w l c)).
  { induction l as [|x l IH]; intros c; simpl; [apply adds_refl|].
    apply (adds_trans 1 (length l) c (w c x)); [apply Hw; left|]. apply IH. intros c' y Hy. apply Hw. by right. }
  destruct (Hl (write conn (WArray (length l)))) as (cs & Hcs & He).
  exists (Write (WArray (length l)) :: cs). split.
  - rewrite Hcs. unfold write, call. simpl. by rewrite <-app_assoc.
  - intros m. simpl. apply He.
Qed.

(** Induction on a dynamic value, with the items of a list. *)
Lemma any_induction (Q : any → Prop) :
  (∀ v, (∀ l, v ≠ AnyList l) → Q v) → (∀ l, Forall Q l → Q (AnyList l)) → ∀ v, Q v.
Proof.
  intros Hbase Hlist. fix REC 1. intros v.
  destruct v as [| | | | | | |l|]; try (apply Hbase; discriminate).
  apply Hlist. induction l as [|x l IH]; constructor; [apply REC|exact IH].
Qed.

Lemma writeAny_list conn l : writeAny conn (AnyList l) = fold_left writeAny l (write conn (WArray (length l))).
Proof.
  cbn [writeAny]. generalize (write conn (WArray (length l))) as c.
  induction l as [|x l IH]; intros c; simpl; [done|]. apply IH.
Qed.

Lemma adds_writeAny conn v : adds 1 conn (writeAny conn v).
Proof.
  revert conn. induction v as [v Hv|l IH] using any_induction; intros conn.
  - destruct v; simpl; repeat case_match; try (apply adds_write; discriminate). naive_solver.
  - rewrite writeAny_list. apply adds_array. intros c x Hx. rewrite Forall_forall in IH. by apply IH.
Qed.

Lemma adds_writeValue conn v : adds 1 conn (writeValue conn v).
Proof. unfold writeValue. case_match; apply adds_write; discriminate. Qed.

Lemma adds_error conn msg : adds 1 conn (WriteError conn msg).
Proof. apply adds_write. discriminate. Qed.

Section handler.
Context {F : Type} `{Float64 F} {U : Type} `{Upstream U} {G : Type} `{SingleFlight G}.
Context (cfg : config.Config F).
Notation Sv := (service.Service F U G).
Notation P := (prog service.Tick Sv).

(** All the ways to end a command write one value. *)
Notation one conn := (λ d : Conn * string * string, adds 1 conn d.1.1).

Lemma one_finishAny conn command r : returns (finishAny (G := G) (U := U) (F := F) conn command r) (one conn).
Proof. destruct r; simpl; [apply adds_writeAny|apply adds_error]. Qed.

Lemma one_handleWrite conn command args keys :
  returns (handleWrite (U := U) (G := G) cfg conn command args keys) (one conn).
Proof. apply returns_bind, returns_all. intros r. apply one_finishAny. Qed.

Lemma one_handlePassThrough conn command args :
  returns (handlePassThrough (F := F) (U := U) (G := G) conn command args) (one conn).
Proof. apply returns_bind, returns_all. intros r. apply one_finishAny. Qed.

Lemma one_handleGet conn cmd : returns (handleGet (U := U) (G := G) cfg conn cmd) (one conn).
Proof.
  unfold handleGet. destruct (Args cmd) as [|a [|k [|]]]; try (simpl; apply adds_error).
  apply returns_bind, returns_all. intros [v|]; simpl; [apply adds_writeValue|apply adds_error].
Qed.

Lemma one_handleMGet conn args : returns (handleMGet (U := U) (G := G) cfg conn args) (one conn).
Proof.
  unfold handleMGet. case_if; [simpl; apply adds_error|].
  apply returns_bind, returns_all. intros [vs|]; simpl; [|apply adds_error].
  apply adds_array. intros c x _. apply adds_writeValue.
Qed.

Lemma one_handleSwitch conn command args :
  returns (handleSwitch (U := U) (G := G) cfg conn command args) (one conn).
Proof.
  unfold handleSwitch. cbv zeta.
  repeat first [apply one_handleWrite|apply one_handlePassThrough|apply one_handleMGet|case_if
               |(simpl; apply adds_error)|(simpl; apply adds_write; discriminate)].
  simpl. apply (adds_trans 1 0 conn (write (stopDispatch conn) (WString "OK"))).
  - apply (adds_trans 0 1 conn (stopDispatch conn)); [apply adds_stop|apply adds_write; discriminate].
  - apply adds_silent. discriminate.
Qed.

Lemma one_handleBody conn cmd : returns (handleBody (U := U) (G := G) cfg conn cmd) (one conn).
Proof.
  unfold handleBody. cbv zeta. case_if.
  { simpl. apply (adds_trans 1 0 conn (WriteError (stopDispatch conn) (commandLimitError cmd (config.Proxy cfg)))).
    - apply (adds_trans 0 1 conn (stopDispatch conn)); [apply adds_stop|apply adds_error].
    - apply adds_silent. discriminate. }
  case_if; [apply one_handleGet|]. destruct (ParseCommand cmd); [|simpl; apply adds_error].
  repeat case_if; try (simpl; apply adds_error). apply one_handleSwitch.
Qed.

(** ** What reaches the service *)

Definition forwarded (class : Class) : bool :=
  bool_decide (class ∈ [ClassRead; ClassWrite; ClassPassThrough]).

(** The program is over at once: no action on the service. *)
Definition immediate {A} (p : P A) (Q : A → Prop) : Prop := ∃ a, p = Ret a ∧ Q a.

(** The class of a known command, by evaluation; a command answered at once; a
    local command; one of two names. *)
Ltac by_class Hf := exfalso; subst; vm_compute in Hf; discriminate.
Ltac at_once := eexists; split; [reflexivity|].
Ltac is_local := at_once; intros Hn; exfalso; apply Hn; subst; vm_compute; reflexivity.
Ltac two E Hf := apply bool_decide_eq_true in E;
  repeat (apply elem_of_cons in E as [E|E]; [by_class Hf|]); by apply elem_of_nil in E.

Lemma local_handleSwitch conn command args :
  forwarded (classifyNormalizedCommand command) = false →
  immediate (handleSwitch (U := U) (G := G) cfg conn command args)
    (λ d, classifyNormalizedCommand command ≠ ClassLocal → d.2 = "error"%string ∧ ∃ msg, d.1.1 = WriteError conn msg).
Proof.
  intros Hf. unfold handleSwitch. cbv zeta.
  destruct (bool_decide (command = "PING")) eqn:E1; [apply bool_decide_eq_true in E1; repeat case_if; is_local|].
  destruct (bool_decide (command = "QUIT")) eqn:E2; [apply bool_decide_eq_true in E2; is_local|].
  destruct (bool_decide (command = "SELECT")) eqn:E3; [apply bool_decide_eq_true in E3; repeat case_if; is_local|].
  destruct (bool_decide (command = "MGET")) eqn:E4; [apply bool_decide_eq_true in E4; by_class Hf|].
  destruct (bool_decide (command = "SET")) eqn:E5; [apply bool_decide_eq_true in E5; by_class Hf|].
  destruct (bool_decide (command ∈ ["SETEX"; "PSETEX"]%string)) eqn:E6; [two E6 Hf|].
  destruct (bool_decide (command ∈ ["DEL"; "UNLINK"]%string)) eqn:E7; [two E7 Hf|].
  destruct (bool_decide (command ∈ ["EXPIRE"; "PEXPIRE"]%string)) eqn:E8; [two E8 Hf|].
  destruct (bool_decide (command = "PERSIST")) eqn:E9; [apply bool_decide_eq_true in E9; by_class Hf|].
  destruct (bool_decide (command ∈ ["TTL"; "PTTL"]%string)) eqn:E10; [two E10 Hf|].
  destruct (bool_decide (command = "EXISTS")) eqn:E11; [apply bool_decide_eq_true in E11; by_class Hf|].
  at_once. intros _. split; [done|]. by eexists.
Qed.

End handler.

(** A name that folds to GET is upper-cased to GET. *)
Lemma upperByte_ascii a u : upperByte a = u → (nat_of_ascii u < 128)%nat → (nat_of_ascii a < 128)%nat.
Proof. intros <-. destruct a as [[] [] [] [] [] [] [] []]; vm_compute; lia. Qed.

Lemma fold_get s : EqualFold s "GET" = true → ToUpper s = "GET"%string.
Proof.
  unfold EqualFold, ToUpper. intros Hf.
  destruct (chars s) as [|a [|b [|c l]]]; simpl in Hf; try discriminate;
    repeat (case_bool_decide; try discriminate).
  subst l.
  assert (Ha : (nat_of_ascii a < 128)%nat) by (eapply upperByte_ascii; [eassumption|vm_compute; lia]).
  assert (Hb : (nat_of_ascii b < 128)%nat) by (eapply upperByte_ascii; [eassumption|vm_compute; lia]).
  cbn [upperChars]. rewrite !bool_decide_false.
  - by repeat match goal with H : upperByte _ = _ |- _ => rewrite H; clear H end.
  - intros [-> _]. vm_compute in Hb. lia.
  - intros [-> _]. vm_compute in Hb. lia.
  - intros [-> _]. vm_compute in Ha. lia.
  - intros [-> _]. vm_compute in Ha. lia.
Qed.

Lemma argsExceed_sum args remaining :
  0 <= remaining <= maxInt64 → argsExceed args remaining = (remaining <? sumZ blen args).
Proof.
  revert remaining. induction args as [|a args IH]; intros r Hr; simpl; [symmetry; apply Z.ltb_ge; lia|].
  assert (Ha : 0 <= blen a) by (unfold blen; lia).
  assert (Hs : 0 <= sumZ blen args) by (apply sumZ_nonneg; intros; unfold blen; lia).
  destruct (r <? blen a) eqn:E; ztests; [symmetry; apply Z.ltb_lt; lia|].
  rewrite i64_id by width_lia. rewrite IH by lia.
  destruct (r - blen a <? sumZ blen args) eqn:E1; ztests; symmetry; [apply Z.ltb_lt|apply Z.ltb_ge]; lia.
Qed.

End proxyfacts.

Import gostd upstream compatibility proxy proxyfacts.
#[local] Existing Instances binary64.binary64 svcdemo.store_upstream svcdemo.calls_flight.

(** The size of a command that the limit applies to. *)
Definition commandBytes (cmd : Cmd) : Z := if 0 <? blen (Raw cmd) then blen (Raw cmd) else sumZ blen (Args cmd).

(** C12. RESP framing. Whatever the service answers, and on every error path, a
    command is answered with exactly one complete RESP value: an array header is
    followed by as many values as it announces, so pipelined clients never lose
    step. *)
Theorem one_reply_per_command {F} `{Float64 F} {U} `{Upstream U} {G} `{SingleFlight G}
    (cfg : config.Config F) conn cmd :
  returns (handle (U := U) (G := G) cfg conn cmd)
    (λ conn', ∃ cs, calls conn' = (calls conn ++ cs)%list ∧ complete (replies cs)).
Proof.
  unfold handle. apply returns_bind, returns_all. intros start.
  apply returns_bind. eapply returns_weaken; [apply one_handleBody|]. intros [[conn' command] result] (cs & Hcs & He).
  apply returns_bind, returns_all. intros []. exists cs. split; [done|]. apply (He 0%nat).
Qed.




(** C15. The limits are exact: a command is let through exactly when its size, the
    sum of its arguments when the raw text is not kept, its number of arguments and,
    for MGET, its number of keys are within the configured maxima; the running
    difference cannot overflow. *)
Theorem command_limits_exact cmd cfg :
  0 <= config.proxyMaxCommandBytes cfg <= maxInt64 →
  commandLimitError cmd cfg = EmptyString ↔
    commandBytes cmd <= config.proxyMaxCommandBytes cfg ∧
    Z.of_nat (length (Args cmd)) <= config.proxyMaxCommandArgs cfg ∧
    (isCommand cmd "MGET" = true → Z.of_nat (length (Args cmd)) - 1 <= config.proxyMaxMGetKeys cfg).
Proof.
  intros Hm. unfold commandLimitError, commandBytesExceed, commandBytes, nargs.
  rewrite (argsExceed_sum _ _ Hm).
  assert (Hb : ∀ x, (if 0 <? blen (Raw cmd) then config.proxyMaxCommandBytes cfg <? blen (Raw cmd)
                     else config.proxyMaxCommandBytes cfg <? x)
               = (config.proxyMaxCommandBytes cfg <? (if 0 <? blen (Raw cmd) then blen (Raw cmd) else x))).
  { intros x. by destruct (0 <? blen (Raw cmd)). }
  rewrite Hb. set (size := if 0 <? blen (Raw cmd) then blen (Raw cmd) else sumZ blen (Args cmd)).
  destruct (config.proxyMaxCommandBytes cfg <? size) eqn:E1; ztests; [split; [done|lia]|].
  destruct (config.proxyMaxCommandArgs cfg <? _) eqn:E2; ztests; [split; [done|lia]|].
  destruct (isCommand cmd "MGET"); cbn [andb]; [|split; [|done]; intros _; split_and!; [lia|lia|done]].
  destruct (config.proxyMaxMGetKeys cfg <? _) eqn:E3; ztests; split; try done; intros; try lia.
Qed.

Lemma command_limits_exact_witness :
  commandLimitError (mkCmd [] [bytes_of "MGET"; bytes_of "a"]) (config.Proxy (F := SpecFloat.spec_float) (config.Default (H := binary64.binary64) "s")) = EmptyString.
Proof.
  apply command_limits_exact; [vm_compute; split; discriminate|].
  vm_compute. split_and!; [discriminate..|]. intros _. discriminate.
Defined.
