(* ===== verification/ProxyServer.v ===== *)
(** * internal/proxy: the server

    Connections and their commands over both the drain tracker and the service:
    [acceptConnection], [dispatch], [finishHandler] and [connectionClosed] of
    server.go, and the life of a connection as redcon calls them. Any number of
    connections, flights, administrative calls and drains run concurrently. *)
From stdpp Require Import prelude gmap strings list.
From Stdlib Require Import ZArith Lia.
From S2P Require Import Prelude Float64 GoStd CachePolicy Config Cache CacheHeld Hotness HotnessInv Metrics.
From S2P Require Import ServiceBase Conc Drain DrainInv DrainProps Service ServiceInv ServiceLogic ServiceReads ServiceWrites Views ViewsLogic Admin ServicePool.
From S2P Require Import Compatibility Proxy.
Local Open Scope Z_scope.

(** The keys that the commands the proxy forwards may change, as the Redis
    documentation states them. *)
Class CommandKeys (U : Type) `{Upstream U} : Prop := {
  ck_set : ∀ k v options, writesOnly (U := U) ("SET"%string :: k :: v :: options) [k];
  ck_setex : ∀ c k t v, c ∈ ["SETEX"; "PSETEX"]%string → writesOnly (U := U) [c; k; t; v] [k];
  ck_del : ∀ c ks, c ∈ ["DEL"; "UNLINK"]%string → writesOnly (U := U) (c :: ks) ks;
  ck_expire : ∀ c k t, c ∈ ["EXPIRE"; "PEXPIRE"]%string → writesOnly (U := U) [c; k; t] [k];
  ck_persist : ∀ k, writesOnly (U := U) ["PERSIST"%string; k] [k];
  ck_read : ∀ c ks, c ∈ ["TTL"; "PTTL"; "EXISTS"]%string → writesOnly (U := U) (c :: ks) []
}.

Module server.
Import proxy.

Section server.
Context {F : Type} `{Float64 F} {U : Type} `{Upstream U} {G : Type} `{SingleFlight G}.
Context `{privacy.Deployment} (cfg : config.Config F).
Notation St := (drain.drainTracker * service.Service F U G)%type.
Notation E := (drain.Tick * service.Tick)%type.
Notation P := (prog E St).
Notation D := (prog drain.Tick drain.drainTracker).
Notation V := (prog service.Tick (service.Service F U G)).

Definition onDrain {A} (p : D A) : P A := onL p.
Definition onService {A} (p : V A) : P A := onR p.

Definition acceptConnection (net : option drain.Conn) (conn : Conn) : P (bool * Conn) :=
  r ← onDrain (drain.accept net (config.proxyMaxConnections (config.Proxy cfg)));
  match r with
  | drain.Accepted =>
      let conn := mkConn (Some (mkState false true)) (calls conn) in
      onService (service.recordA (λ _ r, metrics.ConnectionOpened r)) ;;
      mret (true, conn)
  | _ => mret (false, conn)
  end.

Definition connectionClosed (net : option drain.Conn) (conn : Conn) : P Conn :=
  let counted := match context conn with Some state => metricCounted state | None => false end in
  let conn' := if counted then mkConn (Some (mkState (isStopped conn) false)) (calls conn) else conn in
  (if counted then onService (service.recordA (λ _ r, metrics.ConnectionClosed r)) else mret ()) ;;
  onDrain (drain.connectionClosed net) ;;
  mret conn'.

(** [finishHandler], deferred by [dispatch]. *)
Definition finishHandler (conn : Conn) : P Conn :=
  draining ← onDrain drain.prepareHandlerDone;
  if negb draining then mret conn
  else
    let conn := call (stopDispatch conn) CloseConn in
    onDrain drain.completeDrainingHandler ;;
    mret conn.

Definition dispatch (conn : Conn) (cmd : Cmd) : P Conn :=
  if isStopped conn then mret conn
  else
    ok ← onDrain drain.beginHandler;
    if negb ok then
      mret (call (WriteError (stopDispatch conn) "TRYAGAIN Slizen is shutting down") CloseConn)
    else
      conn ← onService (handle cfg conn cmd);
      finishHandler conn.

(** ** redcon: the goroutine of a connection *)

Fixpoint dispatchAll (conn : Conn) (cmds : list Cmd) : P Conn :=
  match cmds with
  | [] => mret conn
  | cmd :: cmds' => conn ← dispatch conn cmd; dispatchAll conn cmds'
  end.

Definition serveConnection (net : option drain.Conn) (cmds : list Cmd) : P unit :=
  '(ok, conn) ← acceptConnection net (mkConn None []);
  if ok : bool then
    conn ← dispatchAll conn cmds;
    connectionClosed net conn ;;
    mret ()
  else mret ().

(** ** Everything that runs in the daemon *)

Inductive activity :=
  | AConnection (net : option drain.Conn) (cmds : list Cmd)
  | AAdmin (r : admin.Request)
  | ASetProxyActive (active : bool)
  | AStopAdmission
  | ADrain
  | ASnapshot
  | ACloseService.

Definition perform (a : activity) : P unit :=
  match a with
  | AConnection net cmds => serveConnection net cmds
  | AAdmin r => onService (admin.serveHTTP cfg r) ;; mret ()
  | ASetProxyActive b => onService (service.SetProxyActive b)
  | AStopAdmission => onDrain drain.stopAdmission
  | ADrain => onDrain drain.beginDrain ;; mret ()
  | ASnapshot => onDrain drain.snapshot ;; mret ()
  | ACloseService => onService service.Close
  end.

Inductive arrive : St → St → P unit → Prop :=
  | arrive_activity s a : arrive s s (perform a)
  | arrive_flight d s l1 fl l2 :
      service.started s = l1 ++ fl :: l2 →
      arrive (d, s) (d, service.set_group s (service.group s) (l1 ++ l2)) (onService (service.flightBody cfg fl)).

Definition initial (now : Time) (u : U) (g : G) : St := (drain.newDrainTracker, service.New cfg now u g).

End server.

(** ** Its invariant: both components', and idle goroutines *)
Section proofs.
Context {F : Type} `{Float64 F} {U : Type} `{UpstreamLaws U} `{!CommandKeys U} {G : Type} `{SingleFlight G}.
Context `{privacy.Deployment} (cfg : config.Config F).
Notation St := (drain.drainTracker * service.Service F U G)%type.
Notation E := (drain.Tick * service.Tick)%type.
Notation P := (prog E St).
Notation limit := (config.proxyMaxConnections (config.Proxy cfg)).
Import draininv svclogic svcreads svcwrites.

(** *** The handler only issues legal requests *)

Lemma t_finishAny i conn command r :
  triple cfg i (pure True) (finishAny (F := F) (U := U) (G := G) conn command r) (λ _, pure True).
Proof. destruct r; apply (triple_ret cfg i _ (λ _, pure True)); apply _. Qed.

Lemma t_handleWrite i conn command args keys :
  writesOnly (U := U) (command :: args) keys →
  triple cfg i (pure True) (handleWrite (G := G) cfg conn command args keys) (λ _, pure True).
Proof. intros Hw. eapply triple_bind; [by apply t_ExecuteWrite|]. intros r. apply t_finishAny. Qed.

Lemma t_handlePassThrough i conn command args :
  writesOnly (U := U) (command :: args) [] →
  triple cfg i (pure True) (handlePassThrough (F := F) (G := G) conn command args) (λ _, pure True).
Proof. intros Hw. eapply triple_bind; [by apply t_PassThrough|]. intros r. apply t_finishAny. Qed.

Ltac ends := apply (triple_ret cfg _ _ (λ _, pure True)); apply _.

Lemma t_handleGet i conn cmd : triple cfg i (pure True) (handleGet (G := G) cfg conn cmd) (λ _, pure True).
Proof.
  unfold handleGet. destruct (Args cmd) as [|a [|k [|]]]; try ends.
  eapply triple_bind; [apply t_Get|]. intros [v|]; ends.
Qed.

Lemma t_handleMGet i conn args : triple cfg i (pure True) (handleMGet (G := G) cfg conn args) (λ _, pure True).
Proof.
  unfold handleMGet. case_if; [ends|]. eapply triple_bind; [apply t_MGet|]. intros [v|]; ends.
Qed.

(** The arguments of a command of fixed arity. *)
Lemma args2 (l : list string) : negb (length l =? 2)%nat = false → ∃ a b, l = [a; b].
Proof. destruct l as [|a [|b [|]]]; try done. by exists a, b. Qed.
Lemma args3 (l : list string) : negb (length l =? 3)%nat = false → ∃ a b c, l = [a; b; c].
Proof. destruct l as [|a [|b [|c [|]]]]; try done. by exists a, b, c. Qed.
Lemma args4 (l : list string) : negb (length l =? 4)%nat = false → ∃ a b c d, l = [a; b; c; d].
Proof. destruct l as [|a [|b [|c [|d [|]]]]]; try done. by exists a, b, c, d. Qed.

Lemma t_handleSwitch i conn command args :
  triple cfg i (pure True) (handleSwitch (G := G) cfg conn command args) (λ _, pure True).
Proof.
  unfold handleSwitch. cbv zeta.
  destruct (bool_decide (command = "PING")); [repeat case_if; ends|].
  destruct (bool_decide (command = "QUIT")); [ends|].
  destruct (bool_decide (command = "SELECT")); [repeat case_if; ends|].
  destruct (bool_decide (command = "MGET")); [apply t_handleMGet|].
  destruct (bool_decide (command = "SET")) eqn:E5; [apply bool_decide_eq_true in E5 as ->|].
  { destruct args as [|a0 [|k [|v options]]]; simpl; try ends. case_if; [ends|]. apply t_handleWrite, ck_set. }
  destruct (bool_decide (command ∈ ["SETEX"; "PSETEX"]%string)) eqn:E6; [apply bool_decide_eq_true in E6|].
  { destruct (negb (length args =? 4)%nat) eqn:En; [ends|]. apply args4 in En as (a0 & k & x & v & ->).
    by apply t_handleWrite, ck_setex. }
  destruct (bool_decide (command ∈ ["DEL"; "UNLINK"]%string)) eqn:E7; [apply bool_decide_eq_true in E7|].
  { case_if; [ends|]. by apply t_handleWrite, ck_del. }
  destruct (bool_decide (command ∈ ["EXPIRE"; "PEXPIRE"]%string)) eqn:E8; [apply bool_decide_eq_true in E8|].
  { destruct (negb (length args =? 3)%nat) eqn:En; [ends|]. apply args3 in En as (a0 & k & x & ->).
    by apply t_handleWrite, ck_expire. }
  destruct (bool_decide (command = "PERSIST")) eqn:E9; [apply bool_decide_eq_true in E9 as ->|].
  { destruct (negb (length args =? 2)%nat) eqn:En; [ends|]. apply args2 in En as (a0 & k & ->).
    apply t_handleWrite, ck_persist. }
  destruct (bool_decide (command ∈ ["TTL"; "PTTL"]%string)) eqn:E10; [apply bool_decide_eq_true in E10|].
  { case_if; [ends|]. apply t_handlePassThrough, ck_read.
    repeat (apply elem_of_cons in E10 as [->|E10]; [set_solver|]). by apply elem_of_nil in E10. }
  destruct (bool_decide (command = "EXISTS")) eqn:E11; [apply bool_decide_eq_true in E11 as ->|ends].
  case_if; [ends|]. apply t_handlePassThrough, ck_read. set_solver.
Qed.

Lemma t_handle i conn cmd : triple cfg i (pure True) (handle (G := G) cfg conn cmd) (λ _, pure True).
Proof.
  unfold handle. eapply triple_bind; [apply t_clockNow, _|]. intros start.
  eapply (triple_bind _ _ _ _ _ (λ _, pure True)).
  - unfold handleBody. cbv zeta. case_if; [ends|]. case_if; [apply t_handleGet|].
    destruct (ParseCommand cmd); [|ends]. repeat (case_if; [ends|]). apply t_handleSwitch.
  - intros [[c n] r]. eapply triple_bind; [apply t_record, _|]. intros ?. ends.
Qed.

(** *** Triples on the whole state *)

Notation invS := (invB (draininv.inv limit) (svcinv.inv cfg)).
Notation relyS := (relyB draininv.rely svcinv.rely).
Notation guarS := (guarB draininv.guar svcinv.guar).
Notation tickS := (tickB draininv.tick_ok svcinv.tick_ok).
Notation tripleS := (hoare tickS invS relyS guarS).

#[local] Existing Instance draininv.rely_preorder.

(** An assertion on the tracker. *)
Definition onTracker (Φ : drain.drainTracker → Prop) (s : St) : Prop := Φ s.1 ∧ True.

Lemma s_drain {A} i Φ (p : prog drain.Tick drain.drainTracker A) Ψ :
  hoare draininv.tick_ok (draininv.inv limit) draininv.rely draininv.guar i Φ p Ψ →
  tripleS i (onTracker Φ) (onDrain p) (λ a, onTracker (Ψ a)).
Proof.
  intros Hp. apply (hoare_onL _ _ _ _ _ _ _ _ i Φ p Ψ (λ _, True)); [|by intros s s1|done].
  intros s j _. reflexivity.
Qed.

Lemma s_service {A} i (Φ : drain.drainTracker → Prop) (p : prog service.Tick (service.Service F U G) A) :
  stableAt (draininv.inv limit) draininv.rely i Φ →
  triple cfg i (pure True) p (λ _, pure True) →
  tripleS i (onTracker Φ) (onService p) (λ _, onTracker Φ).
Proof.
  intros Hst Hp. apply (hoare_onR _ _ _ _ _ _ _ _ i (pure True) p (λ _, pure True) Φ); [|done|done].
  intros s j _. reflexivity.
Qed.

Lemma onTracker_stable i Φ :
  stableAt (draininv.inv limit) draininv.rely i Φ → stableAt invS relyS i (onTracker Φ).
Proof. intros Hst s s1 [Hs _] [Hr _] [HI _]. split; [|done]. by eapply Hst. Qed.

Lemma s_ret {A} i (a : A) (h : option drain.Conn) :
  tripleS i (onTracker (serving i h)) (mret a) (λ _, onTracker (serving i h)).
Proof. apply (hoare_ret _ _ _ _ i a (λ _, onTracker (serving i h))). apply onTracker_stable, At_stable. Qed.

Lemma s_bind {A B} i Φ (p : P A) (q : A → P B) Ξ Ψ :
  tripleS i Φ p Ξ → (∀ a, tripleS i (Ξ a) (q a) Ψ) → tripleS i Φ (p ≫= q) Ψ.
Proof. apply hoare_bind. intros j. apply _. Qed.

Lemma s_record i h f :
  tripleS i (onTracker (serving i h)) (onService (service.recordA f)) (λ _, onTracker (serving i h)).
Proof. apply s_service; [apply At_stable|]. apply t_record, _. Qed.

Lemma s_acceptConnection i net conn :
  tripleS i (onTracker (idle i)) (acceptConnection cfg net conn)
    (λ r, onTracker (serving i (if r.1 then net else None))).
Proof.
  eapply s_bind; [apply s_drain, h_accept_method|]. intros r.
  pose (Ψ := λ x : bool * Conn, onTracker (serving i (if x.1 then net else None))).
  assert (Hret : ∀ x, tripleS i (Ψ x) (mret x) Ψ).
  { intros x. apply (hoare_ret _ _ _ _ i x Ψ). apply onTracker_stable, At_stable. }
  destruct r; [|apply (Hret (false, conn))..].
  eapply s_bind; [apply s_record|]. intros ?. apply (Hret (true, _)).
Qed.

Lemma s_finishHandler i h conn :
  tripleS i (onTracker (At i false true true false h)) (finishHandler (G := G) conn) (λ _, onTracker (serving i h)).
Proof.
  eapply s_bind; [apply s_drain, h_prepareHandlerDone|]. intros dr. destruct dr; cbn [negb].
  - eapply s_bind; [|intros ?; apply s_ret].
    eapply hoare_pre; [apply s_drain, h_completeDrainingHandler|]. intros s _ [[Hs Hd] _]. split; [|done].
    split; [done|by apply Hd].
  - eapply hoare_pre; [apply s_ret|]. by intros s _ [[Hs _] _].
Qed.

Lemma s_dispatch i h conn cmd :
  tripleS i (onTracker (serving i h)) (dispatch cfg conn cmd) (λ _, onTracker (serving i h)).
Proof.
  unfold dispatch. destruct (isStopped conn); [apply s_ret|].
  eapply s_bind; [apply s_drain, h_beginHandler|]. intros ok. destruct ok; cbn [negb]; [|apply s_ret].
  eapply s_bind; [apply s_service; [apply At_stable|apply t_handle]|]. intros c. apply s_finishHandler.
Qed.

Lemma s_dispatchAll i h conn cmds :
  tripleS i (onTracker (serving i h)) (dispatchAll cfg conn cmds) (λ _, onTracker (serving i h)).
Proof.
  revert conn. induction cmds as [|cmd cmds IH]; intros conn; cbn [dispatchAll]; [apply s_ret|].
  eapply s_bind; [apply s_dispatch|]. intros c. apply IH.
Qed.

Lemma s_serveConnection i net cmds :
  tripleS i (onTracker (idle i)) (serveConnection cfg net cmds) (λ _, onTracker (idle i)).
Proof.
  eapply s_bind; [apply s_acceptConnection|]. intros [ok conn]. cbn [fst]. destruct ok; [|apply s_ret].
  eapply s_bind; [apply s_dispatchAll|]. intros c. eapply s_bind; [|intros ?; apply s_ret].
  unfold connectionClosed. cbv zeta. eapply (s_bind _ _ _ _ (λ _, onTracker (serving i net))).
  - destruct (match context c with Some state => metricCounted state | None => false end); [apply s_record|apply s_ret].
  - intros ?. eapply s_bind; [apply s_drain, h_connectionClosed|]. intros ?. apply s_ret.
Qed.

Lemma s_perform i a : svcpool.sane cfg → tripleS i (onTracker (idle i)) (perform cfg a) (λ _, onTracker (idle i)).
Proof.
  intros (HB & HE & _). destruct a; cbn [perform].
  - apply s_serveConnection.
  - eapply s_bind; [apply s_service; [apply At_stable|]|intros ?; apply s_ret].
    eapply triple_conseq; [by apply admin.t_serveHTTP|done|done].
  - apply s_service; [apply At_stable|apply t_SetProxyActive].
  - apply s_drain, h_stopAdmission.
  - eapply s_bind; [apply s_drain, h_beginDrain|]. intros ?. apply s_ret.
  - eapply s_bind; [apply s_drain, h_snapshot|]. intros ?. apply s_ret.
  - apply s_service; [apply At_stable|apply t_Close].
Qed.

(** *** Every interleaving *)

Definition reached (now : Time) (u : U) (g : G) (c : St * list (P unit)) : Prop :=
  preachable tickS (arrive cfg) (initial cfg now u g) c.

Definition quiet (ps : list (P unit)) : Prop := ∀ i p, ps !! i = Some p → p = Ret ().

Lemma server_arrive_ok s s' p i :
  svcpool.sane cfg → invS s → onTracker (idle i) s → arrive cfg s s' p →
  invS s' ∧ (∀ j, relyS j s s') ∧ safe tickS invS relyS guarS i p (λ _, onTracker (idle i)) s'.
Proof.
  intros Hsane HI HJ Ha. destruct Ha as [s a|d s l1 fl l2 Hst].
  - split_and!; [apply HI..|intros j; split; reflexivity|]. by apply s_perform.
  - destruct HI as [HId HIs]. destruct (svcpool.flight_start cfg s l1 fl l2 HIs Hst) as (HI' & Hr & Hs).
    split; [by split|]. split; [intros j; split; [reflexivity|apply Hr]|].
    eapply (hoare_onR _ _ _ _ _ _ _ _ i (λ x, x = service.set_group s (service.group s) (l1 ++ l2)) _ (λ _, pure True) (idle i));
      [intros x j _; reflexivity|apply At_stable| |done|split; [apply HJ|done]].
    intros x _ ->. apply Hs.
Qed.

Lemma server_reached_ok now u g c :
  svcpool.sane cfg → reached now u g c →
  pool_ok tickS invS relyS guarS (λ i, onTracker (idle i)) (λ i _, onTracker (idle i)) c.
Proof.
  intros Hs. apply preachable_ok.
  - intros i. apply _.
  - intros i j s s' Hij [Hg1 Hg2]. split; [by apply Hg1|by apply Hg2].
  - intros j. apply onTracker_stable, At_stable.
  - intros s s' p i HI HJ Ha. by apply server_arrive_ok.
  - split; [apply drainpool.new_inv|by apply svcpool.New_inv].
  - intros j. split; [|done]. split; simpl; [done|]. set_solver.
Qed.

Lemma server_reached_inv now u g d s ps :
  svcpool.sane cfg → reached now u g ((d, s), ps) → draininv.inv limit d ∧ svcinv.inv cfg s.
Proof. intros Hs Hr. by destruct (server_reached_ok now u g _ Hs Hr) as [[??] _]. Qed.

Lemma server_quiet_idle now u g d s ps i :
  svcpool.sane cfg → reached now u g ((d, s), ps) → quiet ps → idle i d.
Proof.
  intros Hs Hr Hq. destruct (server_reached_ok now u g _ Hs Hr) as (HI & HJ & Hp). simpl in *.
  destruct (ps !! i) as [p|] eqn:Hi.
  - pose proof (Hp i p Hi) as Hsafe. rewrite (Hq i p Hi) in Hsafe.
    by destruct (Hsafe (d, s) ltac:(split; reflexivity) HI).
  - by destruct (HJ i) as [? _]; [apply lookup_ge_None|].
Qed.

End proofs.
End server.
