(* ===== verification/ServerProps.v ===== *)
(** * What the whole server guarantees

    Clients send any commands over any connections, while flights, administrative
    purges and drains run. The contracts of the service and of the drain tracker
    hold of the composition, whatever the clients send. *)
From stdpp Require Import prelude gmap strings list fin_maps.
From Stdlib Require Import ZArith Lia SpecFloat.
From S2P Require Import Prelude Float64 GoStd CachePolicy Config Cache CacheHeld Hotness HotnessInv Metrics.
From S2P Require Import ServiceBase Conc Drain DrainInv DrainProps Service ServiceInv Views ViewsLogic Admin ServicePool ServiceDemo.
From S2P Require Import Compatibility Proxy ProxyServer.
Local Open Scope Z_scope.

(** ** A concrete server *)
Module serverdemo.
Import gostd upstream proxy server svcdemo.
#[local] Existing Instance binary64.binary64.

Lemma store_ignores c args :
  EqualFold c "SET" = false → ∀ ks, writesOnly (U := store) (c :: args) ks.
Proof.
  intros Hc ks u t k _. unfold data, up_do, up_get, store_upstream, storeDo.
  destruct args as [|a [|b [|]]]; try done. by rewrite Hc.
Qed.

Ltac not_set H := repeat (apply elem_of_cons in H as [->|H]; [reflexivity|]); by apply elem_of_nil in H.

#[export] Instance store_keys : CommandKeys store.
Proof.
  split.
  - intros k v options. destruct options as [|o options]; [apply store_set_only|done].
  - intros c k t v Hc. done.
  - intros c ks Hc. apply store_ignores. not_set Hc.
  - intros c k t Hc. apply store_ignores. not_set Hc.
  - done.
  - intros c ks Hc. apply store_ignores. not_set Hc.
Qed.

Notation St := (drain.drainTracker * service.Service spec_float store calls)%type.
Notation E := (drain.Tick * service.Tick)%type.
Notation tickS := (tickB draininv.tick_ok svcinv.tick_ok).

Definition serverTick (now : Time) (s : St) : option E :=
  if Z.of_nat (size (drain.reserved s.1)) <? maxInt64
  then (λ e, (drainpool.demoTick, e)) <$> tickAt now s.2 else None.

Lemma serverTick_ok now s e : serverTick now s = Some e → tickS s e.
Proof.
  unfold serverTick. destruct (_ <? _) eqn:Hl; [|done]. intros (e' & He & ->)%fmap_Some.
  apply Z.ltb_lt in Hl. split; [done|]. by eapply tickAt_ok.
Qed.

Inductive step := SActivity (a : activity) | SFlight | SRun (i : nat) (fuel : nat) (now : Time).

Definition advance (c : St * list (prog E St unit)) (m : step) : St * list (prog E St unit) :=
  let '((d, s), ps) := c in
  match m with
  | SActivity a => ((d, s), ps ++ [perform demo_cfg a])
  | SFlight =>
      match service.started s with
      | fl :: l => ((d, service.set_group s (service.group s) l), ps ++ [onService (service.flightBody demo_cfg fl)])
      | [] => c
      end
  | SRun i fuel now =>
      match ps !! i with
      | Some p => let '(s', p') := runAlone (serverTick now) fuel i (d, s) p in (s', <[i := p']> ps)
      | None => c
      end
  end.

Notation reachedDemo := (reached demo_cfg 0 (∅ : store) (mkCalls ∅ ∅ 0)).

Lemma advance_reached steps c : reachedDemo c → reachedDemo (fold_left advance steps c).
Proof.
  revert c. induction steps as [|m steps IH]; intros c Hr; [done|]. simpl. apply IH.
  destruct c as [[d s] ps], m as [a| |i fuel now]; cbn [advance].
  - eapply preach_step; [exact Hr|]. constructor. constructor.
  - destruct (service.started s) as [|fl l] eqn:Hst; [done|]. eapply preach_step; [exact Hr|].
    constructor. by apply (arrive_flight demo_cfg d s [] fl l).
  - destruct (ps !! i) as [p|] eqn:Hi; [|done]. destruct (runAlone _ _ _ _ _) as [s' p'] eqn:Hrun.
    eapply runAlone_reachable; [apply serverTick_ok|done|done|done].
Qed.

Definition command (l : list string) : Cmd := mkCmd [] (map bytes_of l).

(** A connection sets a key, reads it twice and quits; the first read waits for its
    flight; a drain starts while the connection is open. *)
Definition demo_steps : list step :=
  [SActivity (AConnection (Some 7%nat)
     [command ["set"; "k"; "v"]; command ["GET"; "k"]; command ["get"; "k"]; command ["multi"]]);
   SRun 0 4000 10; SFlight; SRun 1 4000 20; SRun 0 4000 30]%string.

Definition drain_steps : list step := [SActivity ADrain; SRun 2 4000 40].

Definition served : St * list (prog E St unit) :=
  fold_left advance demo_steps (initial demo_cfg 0 (∅ : store) (mkCalls ∅ ∅ 0), []).
Definition drained : St * list (prog E St unit) := fold_left advance drain_steps served.

Definition served_state : St := served.1.
Definition served_threads := served.2.
Definition drained_state : St := drained.1.
Definition drained_threads := drained.2.

Lemma served_ok : reachedDemo served.
Proof. apply advance_reached. constructor. Qed.

Lemma drained_ok : reachedDemo drained.
Proof. apply advance_reached. exact served_ok. Qed.

Lemma reached_pair c : reachedDemo c → reachedDemo ((c.1.1, c.1.2), c.2).
Proof. by destruct c as [[d s] ps]. Qed.

Lemma served_reached : reachedDemo ((served_state.1, served_state.2), served_threads).
Proof. exact (reached_pair served served_ok). Qed.

Lemma drained_reached : reachedDemo ((drained_state.1, drained_state.2), drained_threads).
Proof. exact (reached_pair drained drained_ok). Qed.

End serverdemo.

Import upstream proxy server svcdemo serverdemo cacheheld svcinv svcbase.
#[local] Existing Instance binary64.binary64.






