(* ===== verification/ConfigProps.v ===== *)
(** * What internal/config guarantees

    [Validate] accepts exactly the configurations that satisfy [valid]; [Load] only
    returns accepted ones, with the environment over the file over the defaults; a
    valid configuration meets what the service, the tracker and the proxy assume;
    and the startup summary is independent of the secrets. *)
From stdpp Require Import prelude gmap strings list pretty.
From Stdlib Require Import ZArith Lia.
From S2P Require Import Prelude Float64 GoStd GoTime CachePolicy Config ConfigLoad CacheSpec Hotness ServiceBase ServicePool.
Local Open Scope Z_scope.

Module configspec.
Import gostd config configload.

Definition address (a : string) : Prop :=
  TrimSpace a ≠ EmptyString ∧
  ∃ host port, SplitHostPort a = Some (host, port) ∧ host ≠ EmptyString ∧ port ≠ EmptyString.

Definition policyLimits (c : CacheConfig) (p : CachePolicyConfig) : Prop :=
  match cachepolicy.ParseMode (policyMode p) with
  | (_, false) => False
  | (cachepolicy.ModeCache, true) =>
      0 < policyMaxItemBytes p <= cacheMaxBytes c ∧ 0 < policyMaxLocalTTL p <= cacheMaxLocalTTL c
  | (_, true) => policyMaxItemBytes p = 0 ∧ policyMaxLocalTTL p = 0
  end.

Definition policiesValid (c : CacheConfig) : Prop :=
  Z.of_nat (length (cachePolicies c)) <= maxCachePolicies ∧
  NoDup (policyPrefix <$> cachePolicies c) ∧
  (∀ p, p ∈ cachePolicies c → slen (policyPrefix p) <= maxCachePolicyPrefixBytes ∧ policyLimits c p) ∧
  sumZ (λ p, slen (policyPrefix p)) (cachePolicies c) <= maxCachePolicyTotalPrefixBytes.

Definition proxyValid (p : ProxyConfig) : Prop :=
  address (proxyListen p) ∧
  0 < proxyReadTimeout p ∧ 0 < proxyWriteTimeout p ∧ 0 < proxyShutdownTimeout p ∧
  0 < proxyMaxCommandBytes p <= maxProxyCommandBytes ∧ 0 < proxyMaxCommandArgs p <= maxProxyCommandArgs ∧
  0 < proxyMaxMGetKeys p <= maxProxyMGetKeys ∧ 0 < proxyMaxConnections p <= maxProxyConnections ∧
  proxyMaxMGetKeys p < proxyMaxCommandArgs p.

Definition cacheValid (c : CacheConfig) : Prop :=
  0 < cacheMaxLocalTTL c ∧ 0 <= cacheStaleGrace c ∧ 0 < cacheMaxBytes c ∧ 0 <= cacheMaxEntries c ∧
  cacheNegativeTTL c = 0 ∧ policiesValid c.

Definition upstreamValid (u : UpstreamConfig) : Prop :=
  address (upstreamAddress u) ∧ 0 < upstreamDialTimeout u ∧ 0 < upstreamReadTimeout u ∧
  0 < upstreamWriteTimeout u ∧ upstreamDatabase u = 0.

Definition privacyValid (p : PrivacyConfig) : Prop :=
  privacyKeyVisibility p ∈ ["hash"; "plain"]%string ∧
  (privacyKeyVisibility p = "hash"%string → TrimSpace (privacyKeyHashSecret p) ≠ EmptyString).

Definition loggingValid (l : LoggingConfig) : Prop :=
  loggingLevel l ∈ ["debug"; "info"; "warn"; "error"]%string ∧ loggingFormat l ∈ ["json"; "text"]%string.

Section valid.
Context {F : Type} `{Float64 F}.

(** [x] is finite and greater than zero, as the comparisons of [float64] see it. *)
Definition positive (x : F) : Prop := finiteFloat x = true ∧ (x >? f0)%f64 = true.

Definition hotnessValid (h : HotnessConfig F) : Prop :=
  0 < hotnessWindow h ∧ 0 < hotnessCooldown h ∧
  0 < hotnessMaxTrackedKeys h <= maxHotnessTrackedKeys ∧ 0 < hotnessMinimumHotWindows h ∧
  (finiteFloat (hotnessEWMAAlpha h) = true ∧ (hotnessEWMAAlpha h <=? f0)%f64 = false ∧ (hotnessEWMAAlpha h >? f1)%f64 = false) ∧
  positive (hotnessPromotionThreshold h) ∧ positive (hotnessDemotionThreshold h) ∧
  (hotnessPromotionThreshold h <=? hotnessDemotionThreshold h)%f64 = false.

Definition valid (cfg : Config F) : Prop :=
  Mode cfg ∈ ["cache"; "observe"]%string ∧ proxyValid (Proxy cfg) ∧ address (adminListen (Admin cfg)) ∧
  upstreamValid (Upstream cfg) ∧ cacheValid (Cache cfg) ∧ hotnessValid (Hotness cfg) ∧
  privacyValid (Privacy cfg) ∧ loggingValid (Logging cfg).

(** ** The checks, one by one *)

Lemma unless_nil b m : unless b m = [] ↔ b = true.
Proof. destruct b; simpl; naive_solver. Qed.

Lemma unless_decide (P : Prop) `{Decision P} m : unless (bool_decide P) m = [] ↔ P.
Proof. rewrite unless_nil. apply bool_decide_eq_true. Qed.

Lemma checkAddress_nil name a : checkAddress name a = [] ↔ address a.
Proof.
  unfold checkAddress, address. case_bool_decide as Ht; [naive_solver|].
  destruct (SplitHostPort a) as [[h p]|]; [|naive_solver].
  rewrite unless_nil, andb_true_iff, !negb_true_iff, !bool_decide_eq_false. naive_solver.
Qed.

Lemma positiveDuration_nil name d : positiveDuration name d = [] ↔ 0 < d.
Proof. unfold positiveDuration. rewrite unless_nil, negb_true_iff, Z.leb_gt. done. Qed.

Lemma nonNegativeDuration_nil name d : nonNegativeDuration name d = [] ↔ 0 <= d.
Proof. unfold nonNegativeDuration. rewrite unless_nil, negb_true_iff, Z.ltb_ge. done. Qed.

Lemma positiveBoundedInt_nil name v m : positiveBoundedInt name v m = [] ↔ 0 < v <= m.
Proof.
  unfold positiveBoundedInt. destruct (v <=? 0) eqn:E; ztests; [split; [done|lia]|].
  rewrite unless_nil, negb_true_iff, Z.ltb_ge. lia.
Qed.

Lemma checkProxyLimits_nil p :
  checkProxyLimits p = [] ↔
  0 < proxyMaxCommandBytes p <= maxProxyCommandBytes ∧ 0 < proxyMaxCommandArgs p <= maxProxyCommandArgs ∧
  0 < proxyMaxMGetKeys p <= maxProxyMGetKeys ∧ 0 < proxyMaxConnections p <= maxProxyConnections ∧
  proxyMaxMGetKeys p < proxyMaxCommandArgs p.
Proof.
  unfold checkProxyLimits. rewrite !app_nil, !positiveBoundedInt_nil, unless_nil, negb_true_iff, andb_false_iff,
    Z.ltb_ge, Z.leb_gt. lia.
Qed.

Lemma checkPolicyMode_nil c path p : checkPolicyMode c path p = [] ↔ policyLimits c p.
Proof.
  unfold checkPolicyMode, policyLimits. destruct (cachepolicy.ParseMode (policyMode p)) as [m []]; [|by destruct m].
  destruct m; try (rewrite unless_nil, andb_true_iff, !Z.eqb_eq; done).
  rewrite app_nil. destruct (policyMaxItemBytes p <=? 0) eqn:E1, (policyMaxLocalTTL p <=? 0) eqn:E2; ztests;
    rewrite ?unless_nil, ?negb_true_iff, ?Z.ltb_ge; split; try (by intros []); try lia.
Qed.

End valid.

Lemma enumerate_shift {A} (l : list A) n : imap (λ i x, (n + i, x)%nat) l = zip (seq n (length l)) l.
Proof.
  revert n. induction l as [|x l IH]; intros n; [done|]. simpl. rewrite Nat.add_0_r. f_equal.
  rewrite <-IH. apply imap_ext. intros i y _. simpl. f_equal. lia.
Qed.

(** The scan of the policies, from any point. *)
Lemma scan_errs c l n seen total errs :
  scanErrs (fold_left (checkPolicy c) (zip (seq n (length l)) l) (mkScan seen total errs)) = [] ↔
  errs = [] ∧ (∀ p, p ∈ l → slen (policyPrefix p) <= maxCachePolicyPrefixBytes ∧ policyLimits c p) ∧
  NoDup (policyPrefix <$> l) ∧ (∀ p, p ∈ l → policyPrefix p ∉ seen).
Proof.
  revert n seen total errs. induction l as [|p l IH]; intros n seen total errs; cbn [length seq zip zip_with fold_left].
  { simpl. split; [|tauto]. intros ->. split_and!; [done|by intros ? ?%elem_of_nil|constructor|by intros ? ?%elem_of_nil]. }
  unfold checkPolicy at 2. cbv zeta. simpl seenPolicyPrefixes. rewrite IH. cbn [scanErrs].
  rewrite !app_nil, !unless_nil, !negb_true_iff, bool_decide_eq_false, Z.ltb_ge, checkPolicyMode_nil.
  rewrite fmap_cons, NoDup_cons. setoid_rewrite elem_of_cons. setoid_rewrite list_elem_of_fmap.
  setoid_rewrite not_elem_of_union. setoid_rewrite not_elem_of_singleton. naive_solver.
Qed.

Lemma scan_total c l n seen total errs :
  0 <= total <= maxCachePolicyTotalPrefixBytes + 1 →
  let t := totalPrefixBytes (fold_left (checkPolicy c) (zip (seq n (length l)) l) (mkScan seen total errs)) in
  0 <= t <= maxCachePolicyTotalPrefixBytes + 1 ∧
  (t <= maxCachePolicyTotalPrefixBytes ↔
   total + sumZ (λ p, slen (policyPrefix p)) l <= maxCachePolicyTotalPrefixBytes).
Proof.
  revert n seen total errs. induction l as [|p l IH]; intros n seen total errs Ht; cbn [length seq zip zip_with fold_left].
  { simpl. split; [done|]. by rewrite Z.add_0_r. }
  unfold checkPolicy at 2 4. cbv zeta. cbn [totalPrefixBytes seenPolicyPrefixes scanErrs sumZ].
  assert (Hs : 0 <= slen (policyPrefix p)) by (unfold slen; lia).
  assert (Hsum : 0 <= sumZ (λ p, slen (policyPrefix p)) l) by (apply sumZ_nonneg; intros; unfold slen; lia).
  assert (Ha : 0 <= addPrefixBytes total (slen (policyPrefix p)) <= maxCachePolicyTotalPrefixBytes + 1).
  { unfold addPrefixBytes. repeat case_if; ztests; lia. }
  edestruct IH as [H1 H2]; [exact Ha|]. split; [exact H1|]. etrans; [exact H2|].
  unfold addPrefixBytes. repeat case_if; ztests; lia.
Qed.

Lemma checkPolicies_nil c : checkPolicies c = [] ↔ policiesValid c.
Proof.
  unfold checkPolicies, policiesValid. cbv zeta.
  destruct (maxCachePolicies <? Z.of_nat (length (cachePolicies c))) eqn:E; ztests.
  { split; [done|]. intros [? _]. lia. }
  cbn [negb unless app]. rewrite app_nil, unless_nil, negb_true_iff, Z.ltb_ge.
  assert (He : enumerate (cachePolicies c) = zip (seq 0 (length (cachePolicies c))) (cachePolicies c)).
  { unfold enumerate. by rewrite <-enumerate_shift. }
  rewrite He, scan_errs.
  pose proof (scan_total c (cachePolicies c) 0 ∅ 0 [] ltac:(vm_compute; split; discriminate)) as [_ Ht].
  rewrite Ht, Z.add_0_l. split; [naive_solver|]. intros (H1 & H2 & H3 & H4).
  split_and!; [done..| |done]. intros p _. apply not_elem_of_empty.
Qed.

Section valid2.
Context {F : Type} `{Float64 F}.

Lemma checkHotness_nil (h : HotnessConfig F) :
  checkHotness h = [] ↔
  0 < hotnessMaxTrackedKeys h <= maxHotnessTrackedKeys ∧
  (finiteFloat (hotnessEWMAAlpha h) = true ∧ (hotnessEWMAAlpha h <=? f0)%f64 = false ∧ (hotnessEWMAAlpha h >? f1)%f64 = false) ∧
  positive (hotnessPromotionThreshold h) ∧ positive (hotnessDemotionThreshold h) ∧
  (hotnessPromotionThreshold h <=? hotnessDemotionThreshold h)%f64 = false ∧
  0 < hotnessMinimumHotWindows h.
Proof.
  assert (Hpos : ∀ x : F, positive x ↔ finiteFloat x && (x >? f0)%f64 = true).
  { intros x. unfold positive. by rewrite andb_true_iff. }
  assert (Ht : ∀ v m a b, (if v <=? 0 then [a] else unless (negb (m <? v)) b) = ([] : list string) ↔ 0 < v <= m).
  { intros v m a b. destruct (v <=? 0) eqn:E; ztests; [split; [done|lia]|]. rewrite unless_nil, negb_true_iff, Z.ltb_ge. lia. }
  unfold checkHotness. cbv zeta.
  rewrite !app_nil, Ht, !unless_nil, !negb_true_iff, !orb_false_iff, negb_false_iff, Z.leb_gt, !Hpos.
  set (p := finiteFloat (hotnessPromotionThreshold h) && _). set (d := finiteFloat (hotnessDemotionThreshold h) && _).
  destruct p, d; cbn [andb]; tauto || (split; intros; destruct_and?; done).
Qed.

Lemma checkPrivacyLogging_nil p l : checkPrivacyLogging p l = [] ↔ privacyValid p ∧ loggingValid l.
Proof.
  unfold checkPrivacyLogging, privacyValid, loggingValid.
  rewrite !app_nil, !unless_decide, unless_nil, negb_true_iff, andb_false_iff, !bool_decide_eq_false.
  destruct (decide (privacyKeyVisibility p = "hash"%string)); naive_solver.
Qed.

Lemma Validate_nil (cfg : Config F) : Validate cfg = [] ↔ valid cfg.
Proof.
  unfold Validate. rewrite !app_nil, !checkAddress_nil, !positiveDuration_nil, nonNegativeDuration_nil, unless_decide,
    checkProxyLimits_nil, checkPolicies_nil, checkHotness_nil, checkPrivacyLogging_nil, !unless_nil, !negb_true_iff,
    !Z.eqb_eq, Z.leb_gt, Z.ltb_ge.
  unfold valid, proxyValid, upstreamValid, cacheValid, hotnessValid. tauto.
Qed.

(** ** Loading *)

Context (env : string → option string) (readFile : string → res string string)
        (unmarshal : string → res string (rawConfig F)) (secret : string).

(** What the file contributes: nothing without a path. *)
Definition fileRaw (path : string) : option (rawConfig F) :=
  if bool_decide (path = EmptyString) then None
  else match readFile path with
       | Ok contents => match unmarshal contents with Ok raw => Some raw | Fail _ => None end
       | Fail _ => None
       end.

(** A setting of the file, when it is there. *)
Definition fileField {A} (path : string) (get : rawConfig F → option A) : option A :=
  match fileRaw path with Some raw => get raw | None => None end.

(** An integer variable: blank leaves the target, anything else must parse. *)
Lemma setInt_Ok name target n :
  setInt env name target = Ok n ↔
  (TrimSpace (Getenv env name) = EmptyString ∧ n = target) ∨
  (TrimSpace (Getenv env name) ≠ EmptyString ∧ Atoi (TrimSpace (Getenv env name)) = Some n).
Proof.
  unfold setInt. cbv zeta. case_bool_decide as Hb.
  { split; [intros [= <-]; by left|by intros [[_ ->]|[? _]]]. }
  destruct (Atoi _) as [z|]; split; try done.
  - intros [= <-]. by right.
  - intros [[? _]|[_ [= <-]]]; done.
  - intros [[? _]|[_ ?]]; done.
Qed.

Lemma fromFile_Ok path cfg :
  fromFile readFile unmarshal path (Default secret) = Ok cfg →
  match fileRaw path with
  | None => cfg = Default secret
  | Some raw => applyRaw (Default secret) raw = Ok cfg
  end.
Proof.
  unfold fromFile, fileRaw. case_bool_decide; [by intros [= <-]|].
  destruct (readFile path); [|done]. by destruct (unmarshal _).
Qed.

Lemma Load_Ok path cfg :
  Load env readFile unmarshal secret path = Ok cfg →
  ∃ base, fromFile readFile unmarshal path (Default secret) = Ok base ∧ applyEnv env base = Ok cfg ∧ Validate cfg = [].
Proof.
  unfold Load. rewrite bind_Ok. intros (base & Hb & Hrest). rewrite bind_Ok in Hrest.
  destruct Hrest as (c & Hc & Hv). unfold checked in Hv. destruct (Validate c) eqn:E; [|done].
  injection Hv as <-. by exists base.
Qed.

Lemma applyEnv_Ok (base cfg : Config F) :
  applyEnv env base = Ok cfg →
  Mode cfg = setString env "SLIZEN_MODE" (Mode base) ∧
  proxyListen (Proxy cfg) = setString env "SLIZEN_PROXY_LISTEN" (proxyListen (Proxy base)) ∧
  upstreamPassword (Upstream cfg) = setOpaqueString env "SLIZEN_UPSTREAM_PASSWORD" (upstreamPassword (Upstream base)) ∧
  setInt env "SLIZEN_PROXY_MAX_CONNECTIONS" (proxyMaxConnections (Proxy base)) = Ok (proxyMaxConnections (Proxy cfg)) ∧
  Cache cfg = Cache base ∧ Hotness cfg = Hotness base.
Proof.
  unfold applyEnv. cbv zeta. rewrite bind_Ok. intros (b & _ & H1). rewrite bind_Ok in H1.
  destruct H1 as (a & _ & H1). rewrite bind_Ok in H1. destruct H1 as (k & _ & H1).
  rewrite bind_Ok in H1. destruct H1 as (c & Hc & H1). rewrite bind_Ok in H1. destruct H1 as (e & _ & H1).
  injection H1 as <-. done.
Qed.

Lemma applyRaw_Ok (base : Config F) raw cfg :
  applyRaw base raw = Ok cfg →
  Mode cfg = default (Mode base) (rawMode raw) ∧
  proxyListen (Proxy cfg) = default (proxyListen (Proxy base)) (rpListen (rawProxyOf raw)) ∧
  upstreamPassword (Upstream cfg) = default (upstreamPassword (Upstream base)) (ruPassword (rawUpstreamOf raw)) ∧
  proxyMaxConnections (Proxy cfg) = default (proxyMaxConnections (Proxy base)) (rpMaxConnections (rawProxyOf raw)).
Proof.
  unfold applyRaw. rewrite bind_Ok. intros (p & Hp & H1). rewrite bind_Ok in H1. destruct H1 as (u & Hu & H1).
  rewrite bind_Ok in H1. destruct H1 as (c & _ & H1). rewrite bind_Ok in H1. destruct H1 as (h & _ & H1).
  injection H1 as <-. cbn [Mode Proxy Upstream].
  unfold applyRawProxy in Hp. unfold applyRawUpstream in Hu.
  repeat (rewrite bind_Ok in Hp; destruct Hp as (? & _ & Hp)). repeat (rewrite bind_Ok in Hu; destruct Hu as (? & _ & Hu)).
  injection Hp as <-. injection Hu as <-. done.
Qed.

End valid2.
End configspec.

Import gostd config configload configspec.

(** C26. [Validate] reports no error exactly for the configurations that satisfy the
    declarative predicate [valid]: addresses, timeouts, proxy limits, the cache
    policies with their prefixes (at most 1024, distinct, bounded one by one and in
    total) and limits, the tracker's parameters, privacy and logging. *)
Theorem validate_exact {F} `{Float64 F} (cfg : Config F) : Validate cfg = [] ↔ valid cfg.
Proof. apply Validate_nil. Qed.



(** Malformed settings are rejected: when an integer variable of the environment
    is set to something that is not a 64-bit decimal, or the boolean one to something
    that is not a boolean, [Load] fails whatever the file says. *)
Theorem load_rejects_malformed {F} `{Float64 F} env readFile (unmarshal : string → res string (rawConfig F)) secret path :
  (∃ name, name ∈ ["SLIZEN_PROXY_MAX_COMMAND_BYTES"; "SLIZEN_PROXY_MAX_COMMAND_ARGS"; "SLIZEN_PROXY_MAX_MGET_KEYS";
                   "SLIZEN_PROXY_MAX_CONNECTIONS"]%string ∧
     TrimSpace (Getenv env name) ≠ EmptyString ∧ Atoi (TrimSpace (Getenv env name)) = None) ∨
  (TrimSpace (Getenv env "SLIZEN_ADMIN_EXPOSE_RAW_KEYS") ≠ EmptyString ∧
   ParseBool (TrimSpace (Getenv env "SLIZEN_ADMIN_EXPOSE_RAW_KEYS")) = None) →
  ∃ e, Load env readFile unmarshal secret path = Fail e.
Proof.
  intros Hbad. destruct (Load env readFile unmarshal secret path) as [cfg|e] eqn:E; [exfalso|by exists e].
  apply Load_Ok in E as (base & _ & He & _). unfold applyEnv in He. cbv zeta in He.
  rewrite bind_Ok in He. destruct He as (b & E1 & He). rewrite bind_Ok in He. destruct He as (a & E2 & He).
  rewrite bind_Ok in He. destruct He as (k & E3 & He). rewrite bind_Ok in He. destruct He as (c & E4 & He).
  rewrite bind_Ok in He. destruct He as (x & E5 & _).
  apply setInt_Ok in E1, E2, E3, E4.
  destruct Hbad as [(name & Hin & Hne & Hat)|[Hne Hpb]].
  - repeat (apply elem_of_cons in Hin as [->|Hin]; [naive_solver|]). by apply elem_of_nil in Hin.
  - unfold setBool in E5. cbv zeta in E5. rewrite bool_decide_false in E5 by done. by rewrite Hpb in E5.
Qed.

Lemma load_rejects_malformed_witness :
  ∃ e, Load (F := SpecFloat.spec_float) (H := binary64.binary64)
         (λ name, if bool_decide (name = "SLIZEN_PROXY_MAX_MGET_KEYS"%string) then Some "many"%string else None)
         (λ _, Fail EmptyString) (λ _, Fail EmptyString) "secret" EmptyString = Fail e.
Proof.
  apply load_rejects_malformed. left. exists "SLIZEN_PROXY_MAX_MGET_KEYS"%string.
  split; [right; right; left|]. split; vm_compute; [discriminate|reflexivity].
Defined.

(** A validated configuration is what the other components assume of it: the
    tracker runs with it unchanged (its own fallbacks never apply), the service's
    budget and capacities are in range, and so are the limits of the proxy. The byte
    budget has no upper bound in [Validate]; it is asked to be below 2^62. *)
Theorem validated_config_sane {F} `{Float64 F} (cfg : Config F) :
  Validate cfg = [] →
  cacheMaxBytes (Cache cfg) < lruspec.maxBudget → in_i64 (cacheMaxEntries (Cache cfg)) →
  svcpool.sane cfg ∧
  hotness.normalizeConfig (svcbase.hotnessConfig cfg) = svcbase.hotnessConfig cfg ∧
  0 <= proxyMaxCommandBytes (Proxy cfg) <= maxInt64 ∧ 0 < proxyMaxConnections (Proxy cfg) <= maxInt64.
Proof.
  intros Hv Hb He. apply Validate_nil in Hv as (_ & Hp & _ & _ & Hc & Hh & _).
  destruct Hp as (_ & _ & _ & _ & Hp1 & _ & _ & Hp2 & _). destruct Hc as (_ & _ & Hc1 & _).
  destruct Hh as (Hw & _ & Ht & Hm & (_ & Ha1 & Ha2) & _).
  unfold maxProxyCommandBytes, maxProxyConnections, maxHotnessTrackedKeys, svcpool.sane in *.
  split_and!; try lia; try width_lia.
  unfold hotness.normalizeConfig, svcbase.hotnessConfig. cbv zeta. cbn.
  rewrite Ha1, Ha2. cbn [orb]. by rewrite !(proj2 (Z.leb_gt _ 0)) by lia.
Qed.

Lemma validated_config_sane_witness :
  svcpool.sane (F := SpecFloat.spec_float) (config.Default (H := binary64.binary64) "secret").
Proof.
  apply (validated_config_sane (H := binary64.binary64) (config.Default (H := binary64.binary64) "secret"));
    [vm_compute; reflexivity|vm_compute; reflexivity|split; vm_compute; discriminate].
Defined.

(** The configuration with other credentials. *)
Definition withSecrets {F} (cfg : Config F) (username password secret salt : string) : Config F :=
  let u := Upstream cfg in
  mkConfig (Mode cfg) (Proxy cfg) (Admin cfg)
    (mkUpstream (upstreamAddress u) username password (upstreamDatabase u) (upstreamDialTimeout u)
       (upstreamReadTimeout u) (upstreamWriteTimeout u))
    (Cache cfg) (Hotness cfg) (mkPrivacy (privacyKeyVisibility (Privacy cfg)) secret salt) (Logging cfg).

(** C28. The startup summary leaks no secret: it depends on the user name, the password
    and the hash secret only through whether they are set, and not at all on the
    salt. *)
Theorem summary_hides_secrets {F} `{Float64 F} (cfg : Config F) u1 p1 s1 t1 u2 p2 s2 t2 :
  (u1 = EmptyString ↔ u2 = EmptyString) → (p1 = EmptyString ↔ p2 = EmptyString) →
  (s1 = EmptyString ↔ s2 = EmptyString) →
  RedactedSummary (withSecrets cfg u1 p1 s1 t1) = RedactedSummary (withSecrets cfg u2 p2 s2 t2).
Proof.
  intros Hu Hp Hs.
  assert (Hr : ∀ a b : string, (a = EmptyString ↔ b = EmptyString) → redactPresence a = redactPresence b).
  { intros a b Hab. unfold redactPresence. by rewrite (bool_decide_ext _ _ Hab). }
  unfold RedactedSummary, withSecrets, EffectiveKeyVisibility. cbn -[redactPresence gotime.DurationString].
  by rewrite (Hr _ _ Hu), (Hr _ _ Hp), (Hr _ _ Hs).
Qed.

Lemma summary_hides_secrets_witness :
  RedactedSummary (F := SpecFloat.spec_float) (withSecrets (config.Default (H := binary64.binary64) "a") "u" "p" "s" "t") =
  RedactedSummary (withSecrets (config.Default (H := binary64.binary64) "a") "v" "q" "r" EmptyString).
Proof. apply (summary_hides_secrets (H := binary64.binary64)); split; discriminate. Defined.

(** The durations of the startup summary can be copied into a file or an
    environment: the text printed for the cache lifetime or for the window, of whole
    seconds, is read back by [setDuration] as the same duration. *)
Theorem summary_duration_roundtrip {F} `{Float64 F} (cfg : Config F) k w target name :
  cacheMaxLocalTTL (Cache cfg) = k * Second → hotnessWindow (Hotness cfg) = w * Second →
  in_i64 (k * Second) → in_i64 (w * Second) →
  ∃ ttl window,
    ("cache_max_ttl"%string, FString ttl) ∈ RedactedSummary cfg ∧
    ("hotness_window"%string, FString window) ∈ RedactedSummary cfg ∧
    setDuration (Some ttl) target name = Ok (k * Second) ∧
    setDuration (Some window) target name = Ok (w * Second).
Proof.
  intros Hk Hw Ik Iw. exists (gotime.DurationString (k * Second)), (gotime.DurationString (w * Second)).
  unfold setDuration. rewrite !ParseDuration_String by done. rewrite <-Hk, <-Hw.
  split_and!; [..|done|done]; unfold RedactedSummary; rewrite !elem_of_cons; tauto.
Qed.

Lemma summary_duration_roundtrip_witness :
  ∃ ttl window,
    ("cache_max_ttl"%string, FString ttl) ∈ RedactedSummary (config.Default (H := binary64.binary64) "s") ∧
    ("hotness_window"%string, FString window) ∈ RedactedSummary (config.Default (H := binary64.binary64) "s") ∧
    setDuration (F := SpecFloat.spec_float) (H := binary64.binary64) (Some ttl) 0 "x" = Ok (30 * Second) ∧
    setDuration (F := SpecFloat.spec_float) (H := binary64.binary64) (Some window) 0 "x" = Ok (1 * Second).
Proof.
  apply (summary_duration_roundtrip (H := binary64.binary64) (config.Default (H := binary64.binary64) "s"));
    vm_compute; first [reflexivity|split; discriminate].
Defined.
