(* ===== verification/Lifecycle.v ===== *)
(** * internal/proxy: the life cycle of the server

    [Start], [Close], [drainAndClose], [waitAfterListenerExit], [waitForDrain],
    [closeListener] and [pollServeResult] of server.go as programs on the fields of
    [Server]. Start and Close may be called at any moment, from any goroutine, and
    more than once. The service's readiness flag, the end of admission of the drain
    tracker and the cancellation of requests are flags here: their components are
    modelled elsewhere, with these calls at any moment. The listener is redcon's:
    when it is up, when and how it returns, and what closing it answers is decided
    by the environment. Log messages, with the counts they report, are left out.

    [starter], [pendingClose] and [opened] are auxiliary: no action reads them. They
    name the goroutine whose Start was accepted, the goroutine that has marked the
    listener closed and has yet to close it, and whether it has ever been ready. *)
From stdpp Require Import prelude strings list.
From Stdlib Require Import ZArith Lia.
From S2P Require Import Prelude Conc.
Local Open Scope Z_scope.

Module lifecycle.

Definition Err := string.

Record Server := mkServer {
  lifecycleMu : option nat;
  started : bool;
  closing : bool;
  listenerReady : bool;
  listenerClosed : bool;
  finished : bool;
  hasServer : bool;
  listening : bool;
  forceClose : bool;
  forceOnce : bool;
  cancelled : bool;
  proxyActive : bool;
  admissionStopped : bool;
  closeCalls : nat;
  starter : option nat;
  pendingClose : option nat;
  opened : bool
}.

Definition NewServer : Server :=
  mkServer None false false false false false false false false false false false false 0 None None false.

(** Which case of a select is taken, where several are possible. *)
Inductive selected := SDone (err : option Err) | SContext | SForce.
Inductive drainOutcome := drainCompleted | drainTimedOut | drainForced.

(** What the environment decides: what the listener signals, what serving returned
    (if it has), which case a select takes, whether the drain is complete, the
    clock, and what closing the listener answers (and whether that is
    [net.ErrClosed]). *)
Record Tick := mkTick {
  tListen : option (option Err);
  tDone : option (option Err);
  tSelect : selected;
  tDrained : bool;
  tWait : drainOutcome;
  tNow : Time;
  tClose : option (Err * bool)
}.

Notation P := (prog Tick Server).

Definition read {A} (f : Server → A) : P A := act (λ _ _ s, Some (s, f s)).
Definition write (f : nat → Server → Server) : P unit := act (λ i _ s, Some (f i s, ())).

Definition set_mu (s : Server) (o : option nat) : Server :=
  mkServer o (started s) (closing s) (listenerReady s) (listenerClosed s) (finished s) (hasServer s) (listening s)
    (forceClose s) (forceOnce s) (cancelled s) (proxyActive s) (admissionStopped s) (closeCalls s) (starter s)
    (pendingClose s) (opened s).

Definition lock : P unit :=
  act (λ i _ s, match lifecycleMu s with Some _ => None | None => Some (set_mu s (Some i), ()) end).
Definition unlock : P unit := act (λ _ _ s, Some (set_mu s None, ())).

(** [s.started = true; s.server = server] *)
Definition setStarted (i : nat) (s : Server) : Server :=
  mkServer (lifecycleMu s) true (closing s) (listenerReady s) (listenerClosed s) (finished s) true (listening s)
    (forceClose s) (forceOnce s) (cancelled s) (proxyActive s) (admissionStopped s) (closeCalls s) (Some i)
    (pendingClose s) (opened s).

(** [s.listenerReady = true] *)
Definition setReady (_ : nat) (s : Server) : Server :=
  mkServer (lifecycleMu s) (started s) (closing s) true (listenerClosed s) (finished s) (hasServer s) (listening s)
    (forceClose s) (forceOnce s) (cancelled s) (proxyActive s) (admissionStopped s) (closeCalls s) (starter s)
    (pendingClose s) true.

(** [s.listenerReady = false; s.finished = true] *)
Definition setFinished (_ : nat) (s : Server) : Server :=
  mkServer (lifecycleMu s) (started s) (closing s) false (listenerClosed s) true (hasServer s) (listening s)
    (forceClose s) (forceOnce s) (cancelled s) (proxyActive s) (admissionStopped s) (closeCalls s) (starter s)
    (pendingClose s) (opened s).

(** [s.closing = true] *)
Definition setClosing (_ : nat) (s : Server) : Server :=
  mkServer (lifecycleMu s) (started s) true (listenerReady s) (listenerClosed s) (finished s) (hasServer s) (listening s)
    (forceClose s) (forceOnce s) (cancelled s) (proxyActive s) (admissionStopped s) (closeCalls s) (starter s)
    (pendingClose s) (opened s).

(** [s.listenerClosed = true] *)
Definition setListenerClosed (i : nat) (s : Server) : Server :=
  mkServer (lifecycleMu s) (started s) (closing s) (listenerReady s) true (finished s) (hasServer s) (listening s)
    (forceClose s) (forceOnce s) (cancelled s) (proxyActive s) (admissionStopped s) (closeCalls s) (starter s)
    (Some i) (opened s).

Definition set_listening (s : Server) : Server :=
  mkServer (lifecycleMu s) (started s) (closing s) (listenerReady s) (listenerClosed s) (finished s) (hasServer s) true
    (forceClose s) (forceOnce s) (cancelled s) (proxyActive s) (admissionStopped s) (closeCalls s) (starter s)
    (pendingClose s) (opened s).

Definition set_force (s : Server) : Server :=
  mkServer (lifecycleMu s) (started s) (closing s) (listenerReady s) (listenerClosed s) (finished s) (hasServer s)
    (listening s) true true (cancelled s) (proxyActive s) (admissionStopped s) (closeCalls s) (starter s)
    (pendingClose s) (opened s).

Definition set_cancelled (_ : nat) (s : Server) : Server :=
  mkServer (lifecycleMu s) (started s) (closing s) (listenerReady s) (listenerClosed s) (finished s) (hasServer s)
    (listening s) (forceClose s) (forceOnce s) true (proxyActive s) (admissionStopped s) (closeCalls s) (starter s)
    (pendingClose s) (opened s).

Definition set_active (b : bool) (_ : nat) (s : Server) : Server :=
  mkServer (lifecycleMu s) (started s) (closing s) (listenerReady s) (listenerClosed s) (finished s) (hasServer s)
    (listening s) (forceClose s) (forceOnce s) (cancelled s) b (admissionStopped s) (closeCalls s) (starter s)
    (pendingClose s) (opened s).

Definition set_stopped (_ : nat) (s : Server) : Server :=
  mkServer (lifecycleMu s) (started s) (closing s) (listenerReady s) (listenerClosed s) (finished s) (hasServer s)
    (listening s) (forceClose s) (forceOnce s) (cancelled s) (proxyActive s) true (closeCalls s) (starter s)
    (pendingClose s) (opened s).

Definition set_close_call (s : Server) : Server :=
  mkServer (lifecycleMu s) (started s) (closing s) (listenerReady s) (listenerClosed s) (finished s) (hasServer s)
    (listening s) (forceClose s) (forceOnce s) (cancelled s) (proxyActive s) (admissionStopped s) (S (closeCalls s))
    (starter s) None (opened s).

Definition cancelRequests : P unit := write set_cancelled.
Definition SetProxyActive (b : bool) : P unit := write (set_active b).

(** [drain.stopAdmission]; [drain.beginDrain] stops admission too. *)
Definition stopAdmission : P unit := write set_stopped.

(** [close(s.listening)]: closing a closed channel panics. *)
Definition closeListening : P unit :=
  Step (λ _ _ s, if listening s then Some (s, Panic) else Some (set_listening s, Ret ())).

(** [s.forceOnce.Do(func() { close(s.forceClose) })] *)
Definition forceDo : P unit :=
  Step (λ _ _ s, if forceOnce s then Some (s, Ret ())
                 else if forceClose s then Some (s, Panic) else Some (set_force s, Ret ())).

(** [server.Close()] of the listener. *)
Definition serverClose : P (option (Err * bool)) := act (λ _ e s, Some (set_close_call s, tClose e)).

Definition closeListener : P (option Err) :=
  lock ;;
  skip ← read (λ s, listenerClosed s || negb (listenerReady s) || finished s || negb (hasServer s));
  if skip : bool then unlock ;; mret None
  else
    write setListenerClosed ;;
    unlock ;;
    err ← serverClose;
    match err with
    | Some (e, false) => mret (Some ("close proxy listener: " ++ e)%string)
    | _ => mret None
    end.

(** A receive from [done], and a receive that does not wait; the goroutine that
    waits in its place only logs. *)
Definition receiveDone : P (option Err) :=
  act (λ _ e s, match tDone e with Some err => Some (s, err) | None => None end).
Definition pollServeResult : P (option Err) := act (λ _ e s, Some (s, default None (tDone e))).

Definition now : P Time := act (λ _ e s, Some (s, tNow e)).

(** The select of [waitForDrain] with a timer. *)
Definition awaitDrain : P drainOutcome :=
  act (λ _ e s, match tWait e with
                | drainForced => if forceClose s then Some (s, drainForced) else None
                | drainCompleted => if tDrained e then Some (s, drainCompleted) else None
                | drainTimedOut => Some (s, drainTimedOut)
                end).

Definition waitForDrain (deadline : Time) : P drainOutcome :=
  force ← read forceClose;
  if force : bool then mret drainForced
  else
    drained ← act (λ _ e s, Some (s, tDrained e));
    if drained : bool then mret drainCompleted
    else
      t ← now;
      if t_sub deadline t <=? 0 then mret drainTimedOut else awaitDrain.

Section start.
Context (shutdownTimeout : Duration).

Definition drainAndClose : P (option Err) :=
  SetProxyActive false ;;
  t ← now;
  let deadline := t_add t shutdownTimeout in
  stopAdmission ;;
  outcome ← waitForDrain deadline;
  (match outcome with drainCompleted => mret () | _ => cancelRequests end) ;;
  err ← closeListener;
  match err with
  | Some e => mret (Some e)
  | None => match outcome with drainCompleted => receiveDone | _ => pollServeResult end
  end.

Definition waitAfterListenerExit (serveErr : option Err) : P (option Err) :=
  SetProxyActive false ;;
  cancelRequests ;;
  t ← now;
  stopAdmission ;;
  waitForDrain (t_add t shutdownTimeout) ;;
  mret serveErr.

(** [<-listenSignal] *)
Definition receiveListen : P (option Err) :=
  act (λ _ e s, match tListen e with Some err => Some (s, err) | None => None end).

Definition selectServe : P selected :=
  act (λ _ e s, match tSelect e with
                | SForce => if forceClose s then Some (s, SForce) else None
                | x => Some (s, x)
                end).

Definition closeAndPoll : P (option Err) :=
  err ← closeListener;
  match err with Some e => mret (Some e) | None => pollServeResult end.

(** The body of [Start] once it has been accepted. *)
Definition serveBody : P (option Err) :=
  err ← receiveListen;
  match err with
  | Some e => mret (Some e)
  | None =>
      lock ;;
      write setReady ;;
      cl ← read closing;
      (if cl : bool then mret () else SetProxyActive true) ;;
      unlock ;;
      closeListening ;;
      if cl : bool then closeAndPoll
      else
        choice ← selectServe;
        match choice with
        | SDone err => waitAfterListenerExit err
        | SContext => drainAndClose
        | SForce => cancelRequests ;; stopAdmission ;; closeAndPoll
        end
  end.

(** The deferred function. *)
Definition finish : P unit :=
  cancelRequests ;;
  SetProxyActive false ;;
  lock ;;
  write setFinished ;;
  unlock.

Definition Start : P (option Err) :=
  lock ;;
  st ← read started;
  if st : bool then unlock ;; mret (Some "proxy server already started"%string)
  else
    cl ← read closing;
    if cl : bool then unlock ;; mret (Some "proxy server is closed"%string)
    else
      write setStarted ;;
      unlock ;;
      result ← serveBody;
      finish ;;
      mret result.

Definition Close : P (option Err) :=
  lock ;;
  write setClosing ;;
  SetProxyActive false ;;
  stopAdmission ;;
  unlock ;;
  cancelRequests ;;
  forceDo ;;
  closeListener.

(** Any number of Starts and Closes. *)
Inductive call := CStart | CClose.
Definition perform (c : call) : P (call * option Err) :=
  match c with
  | CStart => r ← Start; mret (CStart, r)
  | CClose => r ← Close; mret (CClose, r)
  end.

Inductive arrive : Server → Server → P (call * option Err) → Prop :=
  | arrive_call s c : arrive s s (perform c).

End start.
End lifecycle.
