(* ===== verification/LifecycleProps.v ===== *)
(** * What the life cycle of the proxy guarantees

    In every interleaving of any number of Start and Close calls: no channel is
    closed twice, the listener is closed at most once, readiness is only announced
    while the listener is up and admits connections, and shutdown leaves nothing
    behind. *)
From stdpp Require Import prelude strings list.
From Stdlib Require Import ZArith Lia.
From S2P Require Import Prelude Conc Lifecycle.
Local Open Scope Z_scope.

Module lifeinv.
Import lifecycle.

(** What is written only under the mutex. *)
Definition guarded (s : Server) : bool * bool * bool * bool * bool :=
  (started s, closing s, listenerReady s, listenerClosed s, finished s).

(** What only the goroutine of the accepted Start writes. *)
Definition owned (s : Server) : bool * bool * bool := (listening s, opened s, finished s).

Record inv (s : Server) : Prop := {
  inv_closed : (closeCalls s + (if pendingClose s then 1 else 0))%nat = (if listenerClosed s then 1 else 0)%nat;
  inv_started : started s = bool_decide (is_Some (starter s));
  inv_active : proxyActive s = true →
    listenerReady s = true ∧ finished s = false ∧ listenerClosed s = false ∧ admissionStopped s = false;
  inv_force : forceClose s = forceOnce s;
  inv_forced : forceClose s = true → closing s = true ∧ proxyActive s = false;
  inv_fresh : starter s = None →
    listening s = false ∧ opened s = false ∧ finished s = false ∧ proxyActive s = false;
  inv_stopped : admissionStopped s = true → closing s = true ∨ opened s = true;
  inv_ready : listenerReady s = true → opened s = true ∧ finished s = false;
  inv_lclosed : listenerClosed s = true → opened s = true
}.

Record rely (i : nat) (s s' : Server) : Prop := {
  rl_mu : lifecycleMu s = Some i → lifecycleMu s' = Some i ∧ guarded s' = guarded s;
  rl_nomu : lifecycleMu s ≠ Some i → lifecycleMu s' ≠ Some i;
  rl_pending : pendingClose s = Some i ↔ pendingClose s' = Some i;
  rl_starter : starter s = Some i ↔ starter s' = Some i;
  rl_owned : starter s = Some i → owned s' = owned s;
  rl_stopped : starter s = Some i → lifecycleMu s = Some i → admissionStopped s' = admissionStopped s;
  rl_quiet : proxyActive s = false → closing s = true ∨ starter s = Some i → proxyActive s' = false;
  rl_mono : (closing s = true → closing s' = true) ∧ (cancelled s = true → cancelled s' = true) ∧
            (forceClose s = true → forceClose s' = true) ∧
            (admissionStopped s = true → admissionStopped s' = true) ∧ (finished s = true → finished s' = true)
}.

Definition guar (i : nat) (s s' : Server) : Prop := ∀ j, j ≠ i → rely j s s'.

#[global] Instance lrely_preorder i : PreOrder (rely i).
Proof.
  split.
  - intros s. by split.
  - intros s1 s2 s3 [A1 A2 A3 A4 A5 A6 A7 A8] [B1 B2 B3 B4 B5 B6 B7 B8]. split.
    + intros Hm. destruct (A1 Hm) as [Hm2 Hg]. destruct (B1 Hm2) as [Hm3 Hg3]. split; [done|congruence].
    + auto.
    + by rewrite A3.
    + by rewrite A4.
    + intros Hs. rewrite B5 by (by apply A4). auto.
    + intros Hs Hm. rewrite B6; [by apply A6|by apply A4|by apply A1].
    + intros Hp Hc. apply B7; [by apply A7|]. destruct Hc; [left; by apply A8|right; by apply A4].
    + destruct A8 as (?&?&?&?&?), B8 as (?&?&?&?&?). split_and!; auto.
Qed.

Definition tick_ok (s : Server) (e : Tick) : Prop := tDrained e = true → admissionStopped s = true.

(** ** Assertions the other goroutines cannot falsify *)

Class Stable (i : nat) (Φ : Server → Prop) : Prop := stable : stableAt inv rely i Φ.

Definition both (Φ Ψ : Server → Prop) : Server → Prop := λ s, Φ s ∧ Ψ s.
Definition pure (φ : Prop) : Server → Prop := λ _, φ.

(** The goroutine holds the mutex or not, has to close the listener or not, serves or
    not. *)
Definition mutex (i : nat) (b : bool) (s : Server) : Prop := lifecycleMu s = Some i ↔ b = true.
Definition closer (i : nat) (b : bool) (s : Server) : Prop := pendingClose s = Some i ↔ b = true.
Definition server (i : nat) (b : bool) (s : Server) : Prop := starter s = Some i ↔ b = true.

(** Under the mutex, the guarded fields satisfy [φ]. *)
Definition holding (i : nat) (φ : bool * bool * bool * bool * bool → Prop) (s : Server) : Prop :=
  lifecycleMu s = Some i ∧ φ (guarded s).
(** The serving goroutine's own fields. *)
Definition owns (i : nat) (o : bool * bool * bool) (s : Server) : Prop := starter s = Some i ∧ owned s = o.
(** Not ready, and nobody else will announce readiness. *)
Definition quiet (i : nat) (s : Server) : Prop := proxyActive s = false ∧ (closing s = true ∨ starter s = Some i).
(** Admission is open as long as nobody is closing the server. *)
Definition admitting (i : nat) (s : Server) : Prop :=
  starter s = Some i ∧ lifecycleMu s = Some i ∧ (closing s = true ∨ admissionStopped s = false).

#[export] Instance lboth_stable i Φ Ψ : Stable i Φ → Stable i Ψ → Stable i (both Φ Ψ).
Proof. intros H1 H2 s s1 [? ?] Hr HI. split; [by eapply H1|by eapply H2]. Qed.
#[export] Instance pure_stable i φ : Stable i (pure φ).
Proof. by intros s s1. Qed.
#[export] Instance if_stable i (b : bool) Φ Ψ : Stable i Φ → Stable i Ψ → Stable i (if b then Φ else Ψ).
Proof. by destruct b. Qed.
#[export] Instance mutex_stable i b : Stable i (mutex i b).
Proof.
  intros s s1 Hm [A1 A2 _ _ _ _ _ _] _. unfold mutex in *. destruct b.
  - split; [done|]. intros _. apply A1. by apply Hm.
  - split; [|done]. intros Hm1. destruct A2; [|done]. intros Hm2. by apply Hm in Hm2.
Qed.
#[export] Instance closer_stable i b : Stable i (closer i b).
Proof. intros s s1 Hm [_ _ A3 _ _ _ _ _] _. unfold closer in *. by rewrite <-A3. Qed.
#[export] Instance server_stable i b : Stable i (server i b).
Proof. intros s s1 Hm [_ _ _ A4 _ _ _ _] _. unfold server in *. by rewrite <-A4. Qed.
#[export] Instance holding_stable i φ : Stable i (holding i φ).
Proof. intros s s1 [Hm Hg] [A1 _ _ _ _ _ _ _] _. destruct (A1 Hm) as [? E]. split; [done|]. by rewrite E. Qed.
#[export] Instance owns_stable i o : Stable i (owns i o).
Proof. intros s s1 [Hs Ho] [_ _ _ A4 A5 _ _ _] _. split; [by apply A4|]. by rewrite (A5 Hs). Qed.
#[export] Instance quiet_stable i : Stable i (quiet i).
Proof.
  intros s s1 [Hp Hc] [_ _ _ A4 _ _ A7 A8] _. split; [by apply A7|].
  destruct Hc; [left; by apply A8|right; by apply A4].
Qed.
#[export] Instance admitting_stable i : Stable i (admitting i).
Proof.
  intros s s1 (Hs & Hm & Hc) [A1 _ _ A4 _ A6 _ A8] _. split_and!; [by apply A4|by apply A1|].
  destruct Hc; [left; by apply A8|right; by rewrite A6].
Qed.

(** Flags that are never reset. *)
Definition flag (f : Server → bool) : Prop := ∀ i s s', rely i s s' → f s = true → f s' = true.
Definition flagged (f : Server → bool) (s : Server) : Prop := f s = true.
Lemma flagged_stable i f : flag f → Stable i (flagged f).
Proof. intros Hf s s1 Hs Hr _. by eapply Hf. Qed.
#[export] Instance closing_stable i : Stable i (flagged closing).
Proof. apply flagged_stable. intros j s s' Hr. apply Hr. Qed.
#[export] Instance cancelled_stable i : Stable i (flagged cancelled).
Proof. apply flagged_stable. intros j s s' Hr. apply Hr. Qed.
#[export] Instance forceClose_stable i : Stable i (flagged forceClose).
Proof. apply flagged_stable. intros j s s' Hr. apply Hr. Qed.
#[export] Instance admissionStopped_stable i : Stable i (flagged admissionStopped).
Proof. apply flagged_stable. intros j s s' Hr. apply Hr. Qed.
#[export] Instance finished_stable i : Stable i (flagged finished).
Proof. apply flagged_stable. intros j s s' Hr. apply Hr. Qed.

(** ** Actions *)

Notation hoareL := (hoare tick_ok inv rely guar).

Lemma l_bind {A B} i Φ (p : P A) (q : A → P B) Ξ Ψ :
  hoareL i Φ p Ξ → (∀ a, hoareL i (Ξ a) (q a) Ψ) → hoareL i Φ (p ≫= q) Ψ.
Proof. apply hoare_bind. apply _. Qed.

Lemma l_ret {A} i Φ (a : A) `{!Stable i Φ} : hoareL i Φ (mret a) (λ _, Φ).
Proof. by apply (hoare_ret _ _ _ _ i a (λ _, Φ)). Qed.

Lemma l_write i Φ Ψ f `{!Stable i Φ} `{!Stable i Ψ} :
  (∀ s, inv s → Φ s → inv (f i s) ∧ guar i s (f i s) ∧ Ψ (f i s)) → hoareL i Φ (write f) (λ _, Ψ).
Proof.
  intros Hf. apply hoare_act; [done|done|]. intros s e s' a HI Hs He [= <- <-]. by apply Hf.
Qed.

(** An action that only looks. *)
Lemma l_look {A} i Φ (f : nat → Tick → Server → option (Server * A)) (φ : A → Server → Prop) `{!Stable i Φ} :
  (∀ a, Stable i (φ a)) →
  (∀ e s s' a, inv s → Φ s → f i e s = Some (s', a) → s' = s ∧ φ a s) →
  hoareL i Φ (act f) (λ a, both Φ (φ a)).
Proof.
  intros Hφ Hf. apply hoare_act; [done|intros a; apply lboth_stable; [done|apply Hφ]|].
  intros s e s' a HI Hs _ Ha. destruct (Hf e s s' a HI Hs Ha) as [-> Hp]. split_and!; [done| |by split].
  intros j _. reflexivity.
Qed.

Lemma l_env {A} i Φ (f : nat → Tick → Server → option (Server * A)) `{!Stable i Φ} :
  (∀ e s s' a, f i e s = Some (s', a) → s' = s) → hoareL i Φ (act f) (λ _, Φ).
Proof.
  intros Hf. apply hoare_act; [done|intros a; done|].
  intros s e s' a HI Hs _ Ha. rewrite (Hf e s s' a Ha). split_and!; [done| |done]. intros j _. reflexivity.
Qed.

(** Goals that take conjunctions of assertions apart. *)
Ltac parts := intros; unfold both in *; destruct_and?; split_and?; try done; auto.

(** Goals about the fields of a state before and after a write. *)
Ltac fields := cbn in *; unfold guarded, owned in *; cbn in *; intuition (simplify_eq; auto; congruence).

Lemma lock_ok i s : inv s → lifecycleMu s = None → inv (set_mu s (Some i)) ∧ guar i s (set_mu s (Some i)).
Proof.
  intros [] Hm. split; [by split|]. intros j Hj. split; fields.
Qed.

Lemma unlock_ok i s : inv s → lifecycleMu s = Some i → inv (set_mu s None) ∧ guar i s (set_mu s None).
Proof.
  intros [] Hm. split; [by split|]. intros j Hj. split; fields.
Qed.

(** Taking and giving back the mutex. *)
Lemma l_lock i Φ `{!Stable i Φ} :
  (∀ s o, Φ s → Φ (set_mu s o)) →
  hoareL i (both (mutex i false) Φ) lock (λ _, both (holding i (λ _, True)) (both (mutex i true) Φ)).
Proof.
  intros HΦ. apply hoare_act; [apply lboth_stable; [apply _|done]|intros a; apply lboth_stable; [apply _|apply lboth_stable; [apply _|done]]|].
  intros s e s' a HI [_ Hs] _. destruct (lifecycleMu s) as [k|] eqn:Hm; [done|]. intros [= <- <-].
  destruct (lock_ok i s HI Hm) as [HI' Hg]. split_and!; [done|done|]. split; [done|]. split; [done|by apply HΦ].
Qed.

Lemma l_unlock i Φ `{!Stable i Φ} :
  (∀ s o, Φ s → Φ (set_mu s o)) →
  hoareL i (both (mutex i true) Φ) unlock (λ _, both (mutex i false) Φ).
Proof.
  intros HΦ. apply hoare_act; [apply lboth_stable; [apply _|done]|intros a; apply lboth_stable; [apply _|done]|].
  intros s e s' a HI [Hm Hs] _ [= <- <-]. destruct (unlock_ok i s HI ltac:(by apply Hm)) as [HI' Hg].
  split_and!; [done|done|]. split; [by split|by apply HΦ].
Qed.

(** Cancelling requests, from anywhere. *)
Lemma l_cancel i Φ `{!Stable i Φ} :
  (∀ s, Φ s → Φ (set_cancelled i s)) → hoareL i Φ cancelRequests (λ _, both Φ (flagged cancelled)).
Proof.
  intros HΦ. apply l_write; [done|apply _|]. intros s [] Hs. split_and!; [by split|intros j Hj; split; fields|].
  split; [by apply HΦ|done].
Qed.

(** Giving up readiness: by the serving goroutine, or by one that closes the server. *)
Lemma l_deactivate i Φ `{!Stable i Φ} :
  (∀ s, Φ s → closing s = true ∨ starter s = Some i) → (∀ s, Φ s → Φ (set_active false i s)) →
  hoareL i Φ (SetProxyActive false) (λ _, both Φ (quiet i)).
Proof.
  intros Hc HΦ. apply l_write; [done|apply _|]. intros s [] Hs.
  split_and!; [split; cbn; auto; fields|intros j Hj; split; fields|]. split; [by apply HΦ|]. split; [done|]. exact (Hc s Hs).
Qed.

(** Ending admission, when not ready. Under the mutex of another goroutine only the
    serving goroutine may do it, and it is not the one that holds the mutex. *)
Lemma l_stop i Φ `{!Stable i Φ} :
  (∀ s, Φ s → proxyActive s = false ∧ (closing s = true ∨ opened s = true) ∧
              (lifecycleMu s = Some i ∨ starter s = Some i)) →
  (∀ s, Φ s → Φ (set_stopped i s)) →
  hoareL i Φ stopAdmission (λ _, both Φ (flagged admissionStopped)).
Proof.
  intros Hc HΦ. apply l_write; [done|apply _|]. intros s [] Hs. destruct (Hc s Hs) as (Hp & Ho & Hm).
  split_and!; [split; cbn; auto; fields|intros j Hj; split; fields|]. split; [by apply HΦ|done].
Qed.

(** The listener is closed by the one goroutine that marked it. *)
Lemma l_mark i Φ `{!Stable i Φ} :
  (∀ s, Φ s → Φ (setListenerClosed i s)) →
  hoareL i (both (holding i (λ g, g.1.2 = false ∧ g.1.1.2 = true)) (both (mutex i true) (both (quiet i) Φ)))
    (write setListenerClosed) (λ _, both (mutex i true) (both (closer i true) (both (quiet i) Φ))).
Proof.
  intros HΦ. apply l_write; [apply _..|]. intros s [] ([Hm [Hl Hr]] & Hmu & [Hp Hq] & Hs). cbn in Hl, Hr.
  assert (Hpn : pendingClose s = None ∧ closeCalls s = 0%nat).
  { rewrite Hl in inv_closed0. destruct (pendingClose s); [lia|]. split; [done|lia]. }
  destruct Hpn as [Hpn Hcc].
  split_and!; [split; cbn; auto; first [by rewrite Hcc|fields]|intros j Hj; split; fields|].
  split; [done|]. split; [done|]. split; [done|by apply HΦ].
Qed.

Lemma l_serverClose i Φ `{!Stable i Φ} :
  (∀ s, Φ s → Φ (set_close_call s)) →
  hoareL i (both (closer i true) Φ) serverClose (λ _, both (closer i false) Φ).
Proof.
  intros HΦ. apply hoare_act; [apply lboth_stable; [apply _|done]|intros a; apply lboth_stable; [apply _|done]|].
  intros s e s' a [] [Hc Hs] _ [= <- <-]. assert (Hp : pendingClose s = Some i) by (by apply Hc).
  rewrite Hp in inv_closed0.
  split_and!; [split; cbn; auto; lia|intros j Hj; split; fields|]. split; [by split|by apply HΦ].
Qed.

(** Reads that wait for the environment. *)
Lemma l_receiveDone i Φ `{!Stable i Φ} : hoareL i Φ receiveDone (λ _, Φ).
Proof. apply l_env; [done|]. intros e s s' a. destruct (tDone e); congruence. Qed.
Lemma l_poll i Φ `{!Stable i Φ} : hoareL i Φ pollServeResult (λ _, Φ).
Proof. apply l_env; [done|]. intros e s s' a. congruence. Qed.
Lemma l_now i Φ `{!Stable i Φ} : hoareL i Φ now (λ _, Φ).
Proof. apply l_env; [done|]. intros e s s' a. congruence. Qed.
Lemma l_receiveListen i Φ `{!Stable i Φ} : hoareL i Φ receiveListen (λ _, Φ).
Proof. apply l_env; [done|]. intros e s s' a. destruct (tListen e); congruence. Qed.

Lemma l_waitForDrain i Φ d `{!Stable i Φ} : hoareL i Φ (waitForDrain d) (λ _, Φ).
Proof.
  unfold waitForDrain. eapply l_bind; [apply l_env; [done|]; intros e s s' a; congruence|]. intros [|]; [apply l_ret; done|].
  eapply l_bind; [apply l_env; [done|]; intros e s s' a; congruence|]. intros [|]; [apply l_ret; done|].
  eapply l_bind; [by apply l_now|]. intros t. destruct (_ <=? _); [apply l_ret; done|].
  apply l_env; [done|]. intros e s s' a. repeat case_match; congruence.
Qed.

(** The listener is closed by whoever finds it open, once. *)
Lemma l_closeListener i Φ `{!Stable i Φ} :
  (∀ s o, Φ s → Φ (set_mu s o)) → (∀ s, Φ s → Φ (setListenerClosed i s)) → (∀ s, Φ s → Φ (set_close_call s)) →
  hoareL i (both (mutex i false) (both (closer i false) (both (quiet i) Φ))) closeListener
    (λ _, both (mutex i false) (both (closer i false) (both (quiet i) Φ))).
Proof.
  intros K1 K2 K3. set (Ψ := both (closer i false) (both (quiet i) Φ)).
  assert (KΨ : ∀ s o, Ψ s → Ψ (set_mu s o)) by (unfold Ψ; parts).
  unfold closeListener. eapply l_bind; [apply (l_lock i Ψ KΨ)|]. intros [].
  eapply l_bind.
  { apply (l_look i _ _ (λ (a : bool), if a then pure True else holding i (λ g, g.1.2 = false ∧ g.1.1.2 = true)));
      [intros []; apply _|].
    intros e s s' a _ [[Hm _] _] [= <- <-]. split; [done|]. destruct (_ || _) eqn:E; [done|].
    apply orb_false_iff in E as [E _]. apply orb_false_iff in E as [E _]. apply orb_false_iff in E as [E1 E2].
    apply negb_false_iff in E2. by split. }
  intros [|].
  - eapply l_bind; [eapply hoare_pre; [apply (l_unlock i Ψ KΨ)|]|]. { unfold Ψ. parts. }
    intros []. apply l_ret. apply _.
  - eapply l_bind; [eapply hoare_pre; [apply (l_mark i Φ K2)|]|].
    { unfold Ψ. parts. }
    intros []. eapply l_bind.
    { apply (l_unlock i (both (closer i true) (both (quiet i) Φ))). parts. }
    intros []. eapply l_bind.
    { eapply hoare_pre; [apply (l_serverClose i (both (mutex i false) (both (quiet i) Φ)))|].
      - parts.
      - parts. }
    intros err. assert (Hend : ∀ r : option Err, hoareL i (both (closer i false) (both (mutex i false) (both (quiet i) Φ)))
      (mret r) (λ _, both (mutex i false) Ψ)).
    { intros r. eapply hoare_pre; [apply l_ret; apply _|]. unfold Ψ. parts. }
    destruct err as [[e []]|]; apply Hend.
Qed.

(** ** Start *)

(** The goroutine serves and is between critical sections. *)
Definition serving (i : nat) (Φ : Server → Prop) : Server → Prop :=
  both (mutex i false) (both (closer i false) (both (server i true) Φ)).

#[export] Instance serving_stable i Φ : Stable i Φ → Stable i (serving i Φ).
Proof. intros. unfold serving. apply _. Qed.

(** Fields of [guarded]: closing, ready, closed, finished. *)
Definition up (g : bool * bool * bool * bool * bool) : Prop := g.1.1.2 = true ∧ g.1.2 = false ∧ g.2 = false.
Definition upOpen (g : bool * bool * bool * bool * bool) : Prop := up g ∧ g.1.1.1.2 = false.

Lemma l_setStarted i :
  hoareL i (both (holding i (λ g, g.1.1.1.1 = false)) (both (mutex i true) (closer i false))) (write setStarted)
    (λ _, both (mutex i true) (both (closer i false) (both (server i true) (both (owns i (false, false, false)) (quiet i))))).
Proof.
  apply l_write; [apply _..|]. intros s [] ([Hm Hg] & Hmu & Hc). cbn in Hg.
  assert (Hs : starter s = None).
  { rewrite Hg in inv_started0. symmetry in inv_started0. apply bool_decide_eq_false in inv_started0.
    destruct (starter s); [destruct inv_started0; by eexists|done]. }
  destruct (inv_fresh0 Hs) as (F1 & F2 & F3 & F4).
  split_and!; [split; cbn; auto; fields|intros j Hj; split; fields|].
  unfold both. split_and!; [done|done|by split|split; [done|]; unfold owned; cbn; by rewrite F1, F2, F3|].
  split; [done|by right].
Qed.

Lemma l_setReady i :
  hoareL i (both (mutex i true) (both (closer i false) (both (server i true) (both (owns i (false, false, false)) (quiet i)))))
    (write setReady)
    (λ _, both (holding i up) (both (admitting i) (both (mutex i true) (both (closer i false)
            (both (server i true) (both (owns i (false, true, false)) (quiet i))))))).
Proof.
  apply l_write; [apply _..|]. intros s [] (Hmu & Hc & Hsv & [Hs Ho] & [Hp Hq]).
  assert (Hm : lifecycleMu s = Some i) by (by apply Hmu).
  unfold owned in Ho. injection Ho as O1 O2 O3.
  assert (Hl : listenerClosed s = false).
  { destruct (listenerClosed s) eqn:E; [|done]. by rewrite (inv_lclosed0 eq_refl) in O2. }
  assert (Ha : closing s = true ∨ admissionStopped s = false).
  { destruct (admissionStopped s); [|by right]. left. destruct (inv_stopped0 eq_refl); [done|congruence]. }
  split_and!; [split; cbn; auto; fields|intros j Hj; split; fields|].
  unfold both. split_and!; try done.
  split; [done|]. unfold owned. cbn. by rewrite O1, O3.
Qed.

Lemma l_activate i :
  hoareL i (both (holding i upOpen) (both (admitting i) (both (mutex i true) (both (closer i false)
            (both (server i true) (owns i (false, true, false)))))))
    (SetProxyActive true)
    (λ _, both (mutex i true) (both (closer i false) (both (server i true) (owns i (false, true, false))))).
Proof.
  apply l_write; [apply _..|].
  intros s [] ([Hm [(G1 & G2 & G3) G4]] & (_ & _ & Ha) & Hmu & Hc & Hsv & [Hs Ho]). cbn in G1, G2, G3, G4.
  assert (Hst : admissionStopped s = false) by (destruct Ha; congruence).
  split_and!; [split; cbn; auto; fields|intros j Hj; split; fields|]. by split_and!.
Qed.

Lemma l_closeListening i o f Φ `{!Stable i Φ} :
  (∀ s, Φ s → Φ (set_listening s)) →
  hoareL i (both (owns i (false, o, f)) Φ) closeListening (λ _, both (owns i (true, o, f)) Φ).
Proof.
  intros HΦ s HI [Ho HP] s1 Hr HI1 e He. assert (Ho1 : owns i (false, o, f) s1) by (by eapply owns_stable).
  assert (HP1 : Φ s1) by (by eapply stable). destruct Ho1 as [Hs Ho1]. unfold owned in Ho1. injection Ho1 as O1 O2 O3.
  rewrite O1. destruct HI1.
  assert (HI2 : inv (set_listening s1)) by (split; cbn; auto; fields).
  assert (Hpost : both (owns i (true, o, f)) Φ (set_listening s1)).
  { split; [|by apply HΦ]. split; [done|]. unfold owned. cbn. by rewrite O2, O3. }
  split_and!; [done|intros j Hj; split; fields|]. cbn.
  intros s3 Hr3 HI3. eapply (lboth_stable i); [apply _|done|exact Hpost|done|done].
Qed.

(** What the serving goroutine does after it has left the listener. *)
Definition left (i : nat) : Server → Prop := serving i (pure True).

Lemma l_closeAndPoll i : hoareL i (serving i (quiet i)) closeAndPoll (λ _, left i).
Proof.
  unfold closeAndPoll. eapply l_bind.
  { eapply hoare_pre; [apply (l_closeListener i (server i true)); done|]. unfold serving. parts. }
  intros [e|]; [eapply hoare_pre; [by apply l_ret; apply _|]|eapply hoare_pre; [by apply l_poll; apply _|]];
    unfold left, serving; parts.
Qed.

Lemma l_opened_stop i : hoareL i (serving i (both (quiet i) (owns i (true, true, false)))) stopAdmission
  (λ _, serving i (both (quiet i) (owns i (true, true, false)))).
Proof.
  eapply hoare_conseq; [eapply (l_stop i (serving i (both (quiet i) (owns i (true, true, false)))))| |].
  - intros s (_ & _ & _ & [Hp _] & [Hs Ho]). unfold owned in Ho. injection Ho as _ O _. split_and!; auto.
  - done.
  - done.
  - by intros a s _ [? _].
Qed.

Lemma l_drainAndClose timeout i :
  hoareL i (serving i (owns i (true, true, false))) (drainAndClose timeout) (λ _, left i).
Proof.
  unfold drainAndClose. set (Φ := serving i (both (quiet i) (owns i (true, true, false)))).
  assert (HΦ : Stable i Φ) by apply _.
  eapply l_bind.
  { eapply (l_deactivate i (serving i (owns i (true, true, false)))); [|done].
    intros s (_ & _ & _ & [Hs _]). by right. }
  intros []. eapply l_bind; [eapply hoare_pre; [by apply (l_now i Φ)|unfold Φ, serving; parts]|]. intros t. cbv zeta.
  eapply l_bind; [apply l_opened_stop|]. intros []. eapply l_bind; [by apply (l_waitForDrain i Φ)|]. intros outcome.
  eapply (l_bind i _ _ _ (λ _, Φ)).
  { destruct outcome; [apply l_ret; apply _|..];
      (eapply hoare_conseq; [by apply (l_cancel i Φ)|done|by intros a s _ [? _]]). }
  intros []. eapply l_bind.
  { eapply hoare_pre; [apply (l_closeListener i (server i true)); done|]. unfold Φ, serving. parts. }
  assert (Hend : ∀ s, inv s → both (mutex i false) (both (closer i false) (both (quiet i) (server i true))) s → left i s)
    by (unfold left, serving; parts).
  intros [e|]; [eapply hoare_pre; [by apply l_ret; apply _|done]|].
  destruct outcome; eapply hoare_pre; first [by apply l_receiveDone; apply _|by apply l_poll; apply _|done].
Qed.

Lemma l_waitAfterListenerExit timeout i err :
  hoareL i (serving i (owns i (true, true, false))) (waitAfterListenerExit timeout err) (λ _, left i).
Proof.
  unfold waitAfterListenerExit. set (Φ := serving i (both (quiet i) (owns i (true, true, false)))).
  assert (HΦ : Stable i Φ) by apply _.
  eapply l_bind.
  { eapply (l_deactivate i (serving i (owns i (true, true, false)))); [|done].
    intros s (_ & _ & _ & [Hs _]). by right. }
  intros []. eapply (l_bind i _ _ _ (λ _, Φ)).
  { eapply hoare_conseq; [by apply (l_cancel i Φ)|unfold Φ, serving; parts|by intros a s _ [? _]]. }
  intros []. eapply l_bind; [by apply (l_now i Φ)|]. intros t.
  eapply l_bind; [apply l_opened_stop|]. intros []. eapply l_bind; [by apply (l_waitForDrain i Φ)|]. intros ?.
  eapply hoare_pre; [by apply l_ret; apply _|]. unfold Φ, left, serving. parts.
Qed.

Lemma l_selectServe i Φ `{!Stable i Φ} :
  hoareL i Φ selectServe (λ c, both Φ (match c with SForce => flagged forceClose | _ => pure True end)).
Proof.
  apply l_look; [done|intros []; apply _|]. intros e s s' a _ _. destruct (tSelect e); [by intros [= <- <-]..|].
  destruct (forceClose s) eqn:E; [|done]. intros [= <- <-]. done.
Qed.

Lemma l_serveBody timeout i :
  hoareL i (serving i (both (owns i (false, false, false)) (quiet i))) (serveBody timeout) (λ _, left i).
Proof.
  unfold serveBody. eapply l_bind; [by apply l_receiveListen; apply _|].
  intros [e|]; [eapply hoare_pre; [by apply l_ret; apply _|unfold left, serving; parts]|].
  eapply l_bind; [by apply l_lock; [apply _|]|]. intros [].
  eapply l_bind; [eapply hoare_pre; [apply l_setReady|parts]|]. intros [].
  set (Φ := both (closer i false) (both (server i true) (owns i (false, true, false)))).
  eapply l_bind.
  { apply (l_look i _ _ (λ cl : bool, if cl then pure True else holding i upOpen)); [intros []; apply _|].
    intros e s s' a _ [[Hm Hup] _] [= <- <-]. split; [done|]. destruct (closing s) eqn:E; [done|]. split; [done|].
    split; [done|]. unfold guarded. cbn. exact E. }
  intros cl. eapply (l_bind i _ _ _ (λ _, both (mutex i true) (both Φ (if cl then quiet i else pure True)))).
  { destruct cl; [eapply hoare_pre; [apply l_ret; apply _|unfold Φ; parts]|].
    eapply hoare_conseq; [apply l_activate|parts|unfold Φ; parts]. }
  intros []. eapply l_bind; [apply l_unlock; [apply _|destruct cl; unfold Φ; parts]|]. intros [].
  eapply l_bind.
  { eapply hoare_pre; [apply (l_closeListening i true false
      (both (mutex i false) (both (closer i false) (both (server i true) (if cl then quiet i else pure True)))));
      destruct cl; parts|unfold Φ; parts]. }
  intros []. destruct cl.
  { eapply hoare_pre; [apply l_closeAndPoll|unfold serving; parts]. }
  eapply l_bind; [eapply hoare_pre; [apply (l_selectServe i (serving i (owns i (true, true, false))))|unfold serving; parts]|].
  intros [err| |].
  - eapply hoare_pre; [apply l_waitAfterListenerExit|by intros s _ [? _]].
  - eapply hoare_pre; [apply l_drainAndClose|by intros s _ [? _]].
  - pose (Ψ := serving i (both (quiet i) (owns i (true, true, false)))). assert (HΨ : Stable i Ψ) by apply _.
    eapply (l_bind i _ _ _ (λ _, Ψ)).
    { eapply hoare_conseq; [by apply (l_cancel i Ψ)| |by intros a s _ [? _]].
      intros s HI [(? & ? & ? & Ho) Hf]. destruct (inv_forced s HI Hf). unfold Ψ, serving. parts. split; [done|by left]. }
    intros []. eapply l_bind; [apply l_opened_stop|]. intros []. eapply hoare_pre; [apply l_closeAndPoll|unfold serving; parts].
Qed.

(** What remains of a Start: nothing held, and the server finished if it served. *)
Definition ended (i : nat) (s : Server) : Prop :=
  lifecycleMu s ≠ Some i ∧ pendingClose s ≠ Some i ∧
  (starter s = Some i → finished s = true ∧ cancelled s = true ∧ proxyActive s = false).

#[export] Instance ended_stable i : Stable i (ended i).
Proof.
  intros s s1 (H1 & H2 & H3) [A1 A2 A3 A4 A5 A6 A7 A8] HI. split_and!; [by apply A2|by rewrite <-A3|].
  intros Hs. apply A4 in Hs. destruct (H3 Hs) as (? & ? & ?). split_and!; [by apply A8|by apply A8|by apply A7; [|right]].
Qed.

Lemma l_finish i : hoareL i (left i) finish (λ _, ended i).
Proof.
  unfold finish. eapply l_bind; [by apply (l_cancel i (left i))|]. intros [].
  eapply l_bind.
  { apply (l_deactivate i (both (left i) (flagged cancelled))); [|done]. intros s ((_ & _ & Hs & _) & _). right. by apply Hs. }
  intros []. pose (Φ := both (closer i false) (both (server i true) (both (flagged cancelled) (quiet i)))).
  eapply l_bind; [eapply hoare_pre; [by apply (l_lock i Φ)|unfold Φ, left, serving; parts]|]. intros [].
  eapply (l_bind i _ _ _ (λ _, both (mutex i true) (both Φ (flagged finished)))).
  { apply l_write; [apply _..|]. intros s [] ([Hm _] & Hmu & Hc & Hs & Hf & [Hp Hq]).
    assert (Hst : starter s = Some i) by (by apply Hs). split_and!; [split; cbn; auto; fields|intros j Hj; split; fields|]. unfold Φ. parts. }
  intros []. eapply hoare_conseq; [by apply (l_unlock i (both Φ (flagged finished)))|done|].
  intros a s _ (Hm & (Hc & Hs & Hf & [Hp _]) & Hfi). split_and!; [by intros ?%Hm|by intros ?%Hc|done].
Qed.

Definition idle (i : nat) : Server → Prop := both (mutex i false) (both (closer i false) (server i false)).

Lemma idle_ended i s : idle i s → ended i s.
Proof. intros (H1 & H2 & H3). split_and!; [by intros ?%H1|by intros ?%H2|by intros ?%H3]. Qed.

Lemma l_Start timeout i : hoareL i (idle i) (Start timeout) (λ _, ended i).
Proof.
  unfold Start. eapply l_bind; [by apply l_lock; [apply _|]|]. intros [].
  pose (Φ := both (closer i false) (server i false)).
  assert (Hback : ∀ e : option Err, hoareL i (both (mutex i true) Φ) (unlock ;; mret e) (λ _, ended i)).
  { intros e. eapply l_bind; [by apply (l_unlock i Φ)|]. intros [].
    eapply hoare_pre; [apply l_ret; apply _|]. intros s _ Hs. by apply idle_ended. }
  eapply l_bind.
  { apply (l_look i _ _ (λ st : bool, if st then pure True else holding i (λ g, g.1.1.1.1 = false))); [intros []; apply _|].
    intros e s s' a _ [[Hm _] _] [= <- <-]. split; [done|]. destruct (started s) eqn:E; [done|]. split; [done|]. exact E. }
  intros [|]; [eapply hoare_pre; [apply Hback|unfold Φ; parts]|].
  eapply l_bind; [by apply l_env; [apply _|]; intros e s s' a; congruence|].
  intros [|]; [eapply hoare_pre; [apply Hback|unfold Φ; parts]|].
  eapply l_bind; [eapply hoare_pre; [apply l_setStarted|parts]|]. intros [].
  eapply l_bind; [by apply l_unlock; [apply _|]|]. intros [].
  eapply l_bind; [eapply hoare_pre; [apply l_serveBody|unfold serving; parts]|]. intros r.
  eapply l_bind; [apply l_finish|]. intros []. apply l_ret. apply _.
Qed.

(** ** Close *)

(** What a Close leaves behind. *)
Definition shut (s : Server) : Prop :=
  closing s = true ∧ cancelled s = true ∧ forceClose s = true ∧ admissionStopped s = true ∧ proxyActive s = false.

#[export] Instance shut_stable i : Stable i shut.
Proof.
  intros s s1 (H1 & H2 & H3 & H4 & H5) [A1 A2 A3 A4 A5 A6 A7 A8] HI.
  split_and!; [by apply A8..|]. apply A7; [done|by left].
Qed.

Lemma l_setClosing i :
  hoareL i (both (mutex i true) (both (closer i false) (server i false))) (write setClosing)
    (λ _, both (mutex i true) (both (closer i false) (both (server i false) (flagged closing)))).
Proof.
  apply l_write; [apply _..|]. intros s [] (Hmu & Hc & Hs). assert (Hm : lifecycleMu s = Some i) by (by apply Hmu).
  split_and!; [split; cbn; auto; fields|intros j Hj; split; fields|]. parts.
Qed.

Lemma l_forceDo i Φ `{!Stable i Φ} :
  (∀ s, Φ s → closing s = true ∧ proxyActive s = false) → (∀ s, Φ s → Φ (set_force s)) →
  hoareL i Φ forceDo (λ _, both Φ (flagged forceClose)).
Proof.
  intros Hc HΦ s HI Hs s1 Hr HI1 e He. assert (Hs1 : Φ s1) by (by eapply stable).
  assert (Hst : Stable i (both Φ (flagged forceClose))) by apply _.
  destruct (Hc s1 Hs1) as [Hc1 Hp1]. pose proof (inv_force s1 HI1) as Hf. destruct (forceOnce s1) eqn:E.
  - split_and!; [done|intros j _; reflexivity|]. intros s3 Hr3 HI3. eapply Hst; [|done|done]. by split.
  - rewrite Hf. destruct HI1. split_and!; [split; cbn; auto; fields|intros j Hj; split; fields|].
    intros s3 Hr3 HI3. eapply Hst; [|done|done]. split; [by apply HΦ|done].
Qed.

Lemma l_Close i : hoareL i (idle i) Close (λ _, both (idle i) shut).
Proof.
  unfold Close. eapply l_bind; [by apply l_lock; [apply _|]|]. intros [].
  eapply l_bind; [eapply hoare_pre; [apply l_setClosing|parts]|]. intros [].
  pose (Φ := both (closer i false) (both (server i false) (flagged closing))).
  eapply l_bind; [apply (l_deactivate i (both (mutex i true) Φ)); [|done]; intros s (_ & _ & _ & ?); by left|]. intros [].
  eapply l_bind.
  { eapply (l_stop i (both (both (mutex i true) Φ) (quiet i))); [|done].
    intros s ((Hm & _ & _ & Hc) & [Hp _]). split_and!; [done|by left|left; by apply Hm]. }
  intros []. pose (Ψ := both Φ (both (quiet i) (flagged admissionStopped))).
  eapply l_bind; [eapply hoare_pre; [by apply (l_unlock i Ψ)|unfold Ψ; parts]|]. intros [].
  eapply l_bind; [by apply l_cancel; [apply _|]|]. intros [].
  eapply l_bind; [apply l_forceDo; [apply _|by intros s ((_ & (_ & _ & ?) & [? _] & _) & _)|done]|]. intros [].
  pose (Ξ := both (server i false) (both (flagged closing) (both (flagged admissionStopped)
               (both (flagged cancelled) (flagged forceClose))))).
  eapply hoare_conseq; [by apply (l_closeListener i Ξ)|unfold Ψ, Φ, Ξ; parts|].
  intros a s _ (Hm & Hc & [Hp _] & Hs & ? & ? & ? & ?). by split_and!.
Qed.

End lifeinv.

Module lifepool.
Import lifecycle lifeinv.

Section pool.
Context (timeout : Duration).

Definition reached (c : Server * list (prog Tick Server (call * option Err))) : Prop :=
  preachable tick_ok (arrive timeout) NewServer c.

(** What a call leaves behind when it has returned. *)
Definition returned (i : nat) (o : call * option Err) : Server → Prop :=
  match o.1 with CStart => ended i | CClose => both (ended i) shut end.

#[export] Instance returned_stable i o : Stable i (returned i o).
Proof. destruct o as [[] ?]; unfold returned; cbn; apply _. Qed.

Lemma l_perform i c : hoareL i (idle i) (perform timeout c) (returned i).
Proof.
  assert (Hret : ∀ o : call * option Err, hoareL i (returned i o) (mret o) (returned i)).
  { intros o. apply (hoare_ret _ _ _ _ i o (returned i)). apply returned_stable. }
  destruct c; cbn [perform].
  - eapply l_bind; [apply l_Start|]. intros r. apply (Hret (CStart, r)).
  - eapply l_bind; [apply l_Close|]. intros r. eapply hoare_pre; [apply (Hret (CClose, r))|].
    intros s _ [Hi Hs]. split; [by apply idle_ended|done].
Qed.

Lemma life_new_inv : inv NewServer.
Proof. by split. Qed.

#[export] Instance idle_stable i : Stable i (idle i).
Proof. unfold idle. apply _. Qed.

Lemma life_reached_ok c : reached c → pool_ok tick_ok inv rely guar idle returned c.
Proof.
  apply preachable_ok.
  - apply lrely_preorder.
  - intros i j s s' Hij Hg. by apply Hg.
  - intros j. apply idle_stable.
  - intros s s' p i HI HJ Ha. destruct Ha as [s x]. split_and!; [done|intros j; reflexivity|]. by apply l_perform.
  - apply life_new_inv.
  - intros j. by split_and!.
Qed.

(** A goroutine that has returned left behind what its call promises. *)
Lemma returned_at s ps i o : reached (s, ps) → ps !! i = Some (Ret o) → returned i o s.
Proof.
  intros Hr Hi. destruct (life_reached_ok (s, ps) Hr) as (HI & _ & Hp). exact (Hp i _ Hi s ltac:(reflexivity) HI).
Qed.

(** When all have returned, nobody holds anything. *)
Lemma all_ended s ps i :
  reached (s, ps) → (∀ i p, ps !! i = Some p → ∃ o, p = Ret o) → ended i s.
Proof.
  intros Hr Hall. destruct (life_reached_ok (s, ps) Hr) as (_ & HJ & _). cbn in HJ.
  destruct (ps !! i) as [p|] eqn:Hi.
  - destruct (Hall i p Hi) as [o ->]. pose proof (returned_at s ps i o Hr Hi) as H.
    unfold returned in H. destruct o as [[] ?]; [done|by destruct H].
  - apply idle_ended, HJ. by apply lookup_ge_None.
Qed.

End pool.

(** A server that starts, is closed while it serves, and winds down. *)
Definition demoTick : Tick := mkTick (Some None) (Some None) SForce true drainCompleted 0 None.

Definition drive (c : Server * list (prog Tick Server (call * option Err))) (m : call + nat * nat)
    : Server * list (prog Tick Server (call * option Err)) :=
  let '(s, ps) := c in
  match m with
  | inl k => (s, ps ++ [perform Second k])
  | inr (i, fuel) =>
      match ps !! i with
      | Some p => let '(s', p') := runAlone (λ s, if admissionStopped s then Some demoTick else
                       Some (mkTick (Some None) None SForce false drainTimedOut 0 None)) fuel i s p in (s', <[i := p']> ps)
      | None => c
      end
  end.

Lemma life_drive_reached moves c : reached Second c → reached Second (fold_left drive moves c).
Proof.
  revert c. induction moves as [|m moves IH]; intros c Hr; [done|]. simpl. apply IH.
  destruct c as [s ps], m as [k|[i fuel]]; cbn [drive].
  - eapply preach_step; [exact Hr|]. constructor. constructor.
  - destruct (ps !! i) as [p|] eqn:Hi; [|done]. destruct (runAlone _ _ _ _ _) as [s' p'] eqn:Hrun.
    eapply runAlone_reachable; [|done|done|done]. intros s0 e He. unfold tick_ok.
    cbn in He. destruct (admissionStopped s0); [done|]. by injection He as <-.
Qed.

Definition life_moves : list (call + nat * nat) := [inl CStart; inr (0, 50); inl CClose; inl CStart; inr (1, 50); inr (0, 50); inr (2, 50)]%nat.
Definition life_demo := fold_left drive life_moves (NewServer, []).

Lemma life_demo_reached : reached Second (life_demo.1, life_demo.2).
Proof. rewrite <-surjective_pairing. apply life_drive_reached. constructor. Qed.

End lifepool.

Import lifecycle lifeinv lifepool.


