(* ===== verification/GoText.v ===== *)
(** * Go's text functions on lines of fields

    [strings.Split], [Cut], [HasPrefix], [TrimPrefix], [TrimRight] and [ReplaceAll] for
    one-byte separators, and [strconv.ParseUint] in base 10, with the laws the INFO
    parsers and the command line use. *)
From stdpp Require Import prelude strings list pretty.
From Stdlib Require Import ZArith Lia Ascii.
From S2P Require Import Prelude GoStd.
Local Open Scope Z_scope.

Module gotext.
Import gostd.

(** The pieces between the separators, at least one. *)
Fixpoint splitChars (sep : ascii) (l : list ascii) : list (list ascii) :=
  match l with
  | [] => [[]]
  | c :: l' =>
      if bool_decide (c = sep) then [] :: splitChars sep l'
      else match splitChars sep l' with [] => [[c]] | p :: ps => (c :: p) :: ps end
  end.

Definition Split (s : string) (sep : ascii) : list string := ofChars <$> splitChars sep (chars s).

(** [strings.Cut]: around the first separator; the flag says whether there is one. *)
Fixpoint cutChars (sep : ascii) (l : list ascii) : option (list ascii * list ascii) :=
  match l with
  | [] => None
  | c :: l' =>
      if bool_decide (c = sep) then Some ([], l')
      else match cutChars sep l' with Some (a, b) => Some (c :: a, b) | None => None end
  end.

Definition Cut (s : string) (sep : ascii) : string * string * bool :=
  match cutChars sep (chars s) with
  | Some (a, b) => (ofChars a, ofChars b, true)
  | None => (s, EmptyString, false)
  end.

Definition HasPrefix (s prefix : string) : bool := bool_decide (is_Some (dropPrefix (chars prefix) (chars s))).

Definition TrimPrefix (s prefix : string) : string :=
  match dropPrefix (chars prefix) (chars s) with Some l => ofChars l | None => s end.

Fixpoint dropWhile (c : ascii) (l : list ascii) : list ascii :=
  match l with
  | [] => []
  | x :: l' => if bool_decide (x = c) then dropWhile c l' else l
  end.

(** [strings.TrimRight] with a one-byte cutset. *)
Definition TrimRight (s : string) (c : ascii) : string := ofChars (reverse (dropWhile c (reverse (chars s)))).

Definition ReplaceAll (s : string) (a b : ascii) : string :=
  ofChars ((λ c, if bool_decide (c = a) then b else c) <$> chars s).

(** [strconv.ParseUint(s, 10, 64)]: at least one digit, only digits, and a value of
    64 bits; the two errors are the syntax and the range one. *)
Inductive parseError := ErrSyntax | ErrRange.

Definition ParseUint (s : string) : Z + parseError :=
  if bool_decide (s = EmptyString) then inr ErrSyntax
  else match digits 0 (chars s) with
       | None => inr ErrSyntax
       | Some n => if n <? two64 then inl n else inr ErrRange
       end.

Example split_empty : Split "" "," = [""%string].
Proof. reflexivity. Qed.
Example split_fields : Split "a,,b" "," = ["a"; ""; "b"]%string.
Proof. reflexivity. Qed.
Example cut_first : Cut "calls=1=2" "=" = ("calls"%string, "1=2"%string, true).
Proof. reflexivity. Qed.
Example trim_slashes : TrimRight "http://a//" "/" = "http://a"%string.
Proof. reflexivity. Qed.
Example parse_max : ParseUint "18446744073709551615" = inl 18446744073709551615.
Proof. vm_compute. reflexivity. Qed.
Example parse_over : ParseUint "18446744073709551616" = inr ErrRange.
Proof. vm_compute. reflexivity. Qed.

(** ** Laws *)

Lemma splitChars_nonempty sep l : splitChars sep l ≠ [].
Proof. destruct l as [|c l]; [done|]. cbn. case_bool_decide; [done|]. by destruct (splitChars sep l). Qed.

(** A piece has no separator; joining and splitting are inverse on such pieces. *)
Lemma splitChars_app sep a l :
  sep ∉ a → splitChars sep (a ++ sep :: l) = a :: splitChars sep l.
Proof.
  induction a as [|c a IH]; intros Hn; cbn.
  - by rewrite bool_decide_eq_true_2.
  - apply not_elem_of_cons in Hn as [Hc Hn]. rewrite bool_decide_eq_false_2 by congruence. by rewrite IH.
Qed.

Lemma splitChars_last sep a : sep ∉ a → splitChars sep a = [a].
Proof.
  induction a as [|c a IH]; intros Hn; cbn; [done|].
  apply not_elem_of_cons in Hn as [Hc Hn]. rewrite bool_decide_eq_false_2 by congruence. by rewrite IH.
Qed.

Lemma cutChars_app sep a l : sep ∉ a → cutChars sep (a ++ sep :: l) = Some (a, l).
Proof.
  induction a as [|c a IH]; intros Hn; cbn.
  - by rewrite bool_decide_eq_true_2.
  - apply not_elem_of_cons in Hn as [Hc Hn]. rewrite bool_decide_eq_false_2 by congruence. by rewrite IH.
Qed.

Lemma dropPrefix_app p l : dropPrefix p (p ++ l) = Some l.
Proof. induction p as [|c p IH]; [by destruct l|]. cbn. by rewrite bool_decide_eq_true_2. Qed.

End gotext.
