(* ===== verification/Workload.v ===== *)
(** * The generated workload of the benchmark

    Models the deterministic parts of the workload benchmark of
    src/cmd/slizenctl/benchmark.go: the checks on its configuration, the request a
    configuration generates at an operation index, and the payloads that carry their
    key and write version. A slice or index error and a division by zero are [None]. *)
From stdpp Require Import prelude strings list pretty.
From Stdlib Require Import ZArith Lia.
From S2P Require Import Prelude GoStd GoTime.
Local Open Scope Z_scope.
Local Open Scope go_scope.

Module workload.
Import gostd gotime.

Notation bytes := (list Byte.byte).

Definition workloadScenarioAll : string := "all".
Definition workloadScenarioUniform : string := "uniform".
Definition workloadScenarioSkew80 : string := "skew-80-20".
Definition workloadScenarioSkew99 : string := "skew-99-1".
Definition workloadScenarioMovingFlash : string := "moving-flash".

Definition maxWorkloadConcurrency : Z := 1024.
Definition maxWorkloadRequests : Z := 1000000.
Definition maxWorkloadKeys : Z := 100000.
Definition minWorkloadValueBytes : Z := 16.
Definition maxWorkloadValueBytes : Z := Z.shiftl 1 20.
Definition maxWorkloadDataset : Z := Z.shiftl 256 20.
Definition maxWorkloadDuration : Duration := 60 * Minute.
Definition maxWorkloadKeyPrefix : Z := 128.

Record workloadConfig := mkWorkload {
  OriginAddr : string;
  ProxyAddr : string;
  AdminURL : string;
  Scenario : string;
  KeyPrefix : string;
  KeyCount : Z;
  ValueSize : Z;
  ReadRatio : Z;
  Concurrency : Z;
  MaxRequests : Z;
  RunDuration : Duration;
  Seed : Z;
  FlashEvery : Z;
  Output : string;
  JSONFile : string
}.

Definition workloadScenarios : list string :=
  [workloadScenarioUniform; workloadScenarioSkew80; workloadScenarioSkew99; workloadScenarioMovingFlash].

Definition isWorkloadScenario (scenario : string) : bool :=
  bool_decide (scenario = workloadScenarioAll) ||
  existsb (λ candidate, bool_decide (scenario = candidate)) workloadScenarios.

Definition selectedWorkloadScenarios (selection : string) : list string :=
  if bool_decide (selection = workloadScenarioAll) then workloadScenarios else [selection].

(** The first error of the checks, or none. *)
Definition validateWorkloadConfig (cfg : workloadConfig) : option string :=
  let sel (s : string) := bool_decide (Scenario cfg = s) in
  if negb (isWorkloadScenario (Scenario cfg)) then
    Some ("scenario must be one of: " ++ String.concat ", " (workloadScenarioAll :: workloadScenarios))%string
  else if bool_decide (OriginAddr cfg = EmptyString) || bool_decide (ProxyAddr cfg = EmptyString)
          || bool_decide (AdminURL cfg = EmptyString) then
    Some "origin, proxy, and admin addresses must not be empty"%string
  else if bool_decide (KeyPrefix cfg = EmptyString) then Some "key-prefix must not be empty"%string
  else if maxWorkloadKeyPrefix <? slen (KeyPrefix cfg) then
    Some ("key-prefix must not exceed " ++ Itoa maxWorkloadKeyPrefix ++ " bytes")%string
  else if (KeyCount cfg <? 2) || (maxWorkloadKeys <? KeyCount cfg) then
    Some ("keys must be between 2 and " ++ Itoa maxWorkloadKeys)%string
  else if (sel workloadScenarioAll || sel workloadScenarioSkew99) && (KeyCount cfg <? 100) then
    Some "keys must be at least 100 for all and skew-99-1 scenarios"%string
  else if sel workloadScenarioSkew80 && (KeyCount cfg <? 5) then
    Some "keys must be at least 5 for the skew-80-20 scenario"%string
  else if (ValueSize cfg <? minWorkloadValueBytes) || (maxWorkloadValueBytes <? ValueSize cfg) then
    Some ("value-size must be between " ++ Itoa minWorkloadValueBytes ++ " and " ++ Itoa maxWorkloadValueBytes ++ " bytes")%string
  else let scenarioCount := Z.of_nat (length (selectedWorkloadScenarios (Scenario cfg))) in
  if maxWorkloadDataset <? KeyCount cfg *i ValueSize cfg *i scenarioCount then
    Some ("generated dataset must not exceed " ++ Itoa maxWorkloadDataset ++ " bytes")%string
  else if (ReadRatio cfg <? 1) || (100 <? ReadRatio cfg) then
    Some "read-ratio must be between 1 and 100 percent"%string
  else if (Concurrency cfg <? 1) || (maxWorkloadConcurrency <? Concurrency cfg) then
    Some ("concurrency must be between 1 and " ++ Itoa maxWorkloadConcurrency)%string
  else if (MaxRequests cfg <? 1) || (maxWorkloadRequests <? MaxRequests cfg) then
    Some ("requests must be between 1 and " ++ Itoa maxWorkloadRequests)%string
  else if MaxRequests cfg <? Concurrency cfg then Some "concurrency must not exceed requests"%string
  else if (RunDuration cfg <=? 0) || (maxWorkloadDuration <? RunDuration cfg) then
    Some ("duration must be greater than zero and at most " ++ DurationString maxWorkloadDuration)%string
  else if (FlashEvery cfg <? 1) || (maxWorkloadRequests <? FlashEvery cfg) then
    Some ("flash-every must be between 1 and " ++ Itoa maxWorkloadRequests)%string
  else if (sel workloadScenarioAll || sel workloadScenarioMovingFlash) && (MaxRequests cfg <=? FlashEvery cfg) then
    Some "flash-every must be less than requests for moving-flash workloads"%string
  else if negb (bool_decide (Output cfg = "text"%string)) && negb (bool_decide (Output cfg = "json"%string)) then
    Some "output must be text or json"%string
  else None.

(** ** The request at an operation index *)

Definition minInt (a b : Z) : Z := if a <? b then a else b.
Definition maxInt (a b : Z) : Z := if b <? a then a else b.

(** Unsigned division and remainder panic on a zero divisor. *)
Definition umod (a b : Z) : option Z := if b =? 0 then None else Some (a mod b).
Definition udiv (a b : Z) : option Z := if b =? 0 then None else Some (a / b).

Definition deterministicWorkloadValue (seed operationIndex stream : Z) : Z :=
  let value := u64 seed +u u64 (0x9e3779b97f4a7c15 * (operationIndex +u 1)) +u u64 (0xd1b54a32d192ed03 * stream) in
  let value := u64 (Z.lxor value (Z.shiftr value 30) * 0xbf58476d1ce4e5b9) in
  let value := u64 (Z.lxor value (Z.shiftr value 27) * 0x94d049bb133111eb) in
  Z.lxor value (Z.shiftr value 31).

(** A hot set of the first keys that takes [percent] of the operations. *)
Definition skewedKey (percent hotKeys keyCount choice keyValue : Z) : option Z :=
  if choice <? percent then k ← umod keyValue (u64 hotKeys); Some (i64 k)
  else k ← umod keyValue (u64 (keyCount -i hotKeys)); Some (hotKeys +i i64 k).

Definition workloadRequestAt (scenario : string) (cfg : workloadConfig) (operationIndex : Z) : option (Z * bool) :=
  let read := deterministicWorkloadValue (Seed cfg) operationIndex 1 mod 100 <? u64 (ReadRatio cfg) in
  let choice := deterministicWorkloadValue (Seed cfg) operationIndex 2 mod 100 in
  let keyValue := deterministicWorkloadValue (Seed cfg) operationIndex 3 in
  if bool_decide (scenario = workloadScenarioSkew80) then
    k ← skewedKey 80 (maxInt 1 (Z.quot (KeyCount cfg) 5)) (KeyCount cfg) choice keyValue; Some (k, read)
  else if bool_decide (scenario = workloadScenarioSkew99) then
    k ← skewedKey 99 (maxInt 1 (Z.quot (KeyCount cfg) 100)) (KeyCount cfg) choice keyValue; Some (k, read)
  else if bool_decide (scenario = workloadScenarioMovingFlash) then
    if choice <? 99 then
      offset ← umod (deterministicWorkloadValue (Seed cfg) 0 4) (u64 (KeyCount cfg));
      window ← udiv operationIndex (u64 (FlashEvery cfg));
      k ← umod (offset +u window) (u64 (KeyCount cfg)); Some (i64 k, read)
    else k ← umod keyValue (u64 (KeyCount cfg)); Some (i64 k, read)
  else k ← umod keyValue (u64 (KeyCount cfg)); Some (i64 k, read).

(** [fmt.Sprintf("%s:%s:%06d", prefix, scenario, i)]. *)
Definition buildWorkloadKeys (prefix scenario : string) (count : Z) : list string :=
  map (λ i, (prefix ++ ":" ++ scenario ++ ":" ++ padded 6 (Z.of_nat i))%string) (seq 0 (Z.to_nat count)).

(** ** Payloads *)

#[global] Instance byte_eq_dec : EqDecision Byte.byte := Byte.byte_eq_dec.

(** [crypto/sha256]: a digest of 32 bytes. *)
Class Sha256 := {
  Sum256 : bytes → bytes;
  Sum256_size b : length (Sum256 b) = 32%nat
}.

Definition byteOf (z : Z) : Byte.byte := default Byte.x00 (Byte.of_N (Z.to_N (z mod 256))).
Definition ofByte (b : Byte.byte) : Z := Z.of_N (Byte.to_N b).

(** [binary.LittleEndian.PutUint64] and [Uint64]. *)
Definition putUint64 (v : Z) : bytes := map (λ k, byteOf (Z.shiftr v (8 * Z.of_nat k))) (seq 0 8).
Fixpoint leValue (b : bytes) : Z := match b with [] => 0 | x :: b' => ofByte x + 256 * leValue b' end.
Definition uint64 (b : bytes) : Z := leValue (take 8 b).

(** [copy(dst[off:end], src)] on the array [dst]. *)
Definition copyAt (dst : bytes) (off end' : nat) (src : bytes) : bytes :=
  let n := Nat.min (end' - off) (length src) in take off dst ++ take n src ++ drop (off + n) dst.

Record workloadValues := mkValues { size : Z; digests : list bytes }.

Section values.
Context `{Sha256}.

Definition newWorkloadValues (keys : list string) (size : Z) : workloadValues :=
  mkValues size (map (λ key, Sum256 (bytes_of key)) keys).

Definition versionDigest (v : workloadValues) (keyIndex : nat) (version : Z) : option bytes :=
  d ← digests v !! keyIndex;
  Some (Sum256 (take 32 d ++ putUint64 version)).

(** The loop of Fill that tiles the digest over [arr[:n]]. *)
Fixpoint tile (fuel : nat) (n offset : nat) (digest arr : bytes) : bytes :=
  match fuel with
  | O => arr
  | S fuel' =>
      if (offset <? n)%nat then tile fuel' n (offset + length digest) digest (copyAt arr offset n digest) else arr
  end.

(** [dst] is the backing array of the slice up to its capacity; the result is the
    backing array afterwards, whose first [size] bytes are the slice returned. *)
Definition Fill (v : workloadValues) (keyIndex : nat) (version : Z) (dst : bytes) : option bytes :=
  if size v <? 0 then None else
  let n := Z.to_nat (size v) in
  let arr := if (length dst <? n)%nat then replicate n Byte.x00 else dst in
  digest ← versionDigest v keyIndex version;
  d ← digests v !! keyIndex;
  let arr := tile n n 0 digest arr in
  if (length arr <? 16)%nat then None
  else Some (copyAt (copyAt arr 0 8 (putUint64 version)) 8 16 (take 8 d)).

(** The slice Fill returns. *)
Definition filled (v : workloadValues) (keyIndex : nat) (version : Z) (dst : bytes) : option bytes :=
  take (Z.to_nat (size v)) <$> Fill v keyIndex version dst.

Fixpoint tailMatches (position : nat) (digest value : bytes) : bool :=
  match value with
  | [] => true
  | b :: value' =>
      bool_decide (digest !! (position mod length digest)%nat = Some b) && tailMatches (S position) digest value'
  end.

Definition Matches (v : workloadValues) (keyIndex : nat) (version : Z) (value : bytes) : option bool :=
  if negb (blen value =? size v) then Some false
  else if (length value <? 16)%nat then None
  else if negb (uint64 value =? version) then Some false
  else d ← digests v !! keyIndex;
    if negb (bool_decide (take 8 (drop 8 value) = take 8 d)) then Some false
    else digest ← versionDigest v keyIndex version;
      Some (tailMatches 16 digest (drop 16 value)).

End values.

(** ** What a checked configuration gives *)

(** The bounds of an accepted configuration. *)
Record validWorkload (cfg : workloadConfig) : Prop := {
  vw_scenario : Scenario cfg = workloadScenarioAll ∨ Scenario cfg ∈ workloadScenarios;
  vw_keys : 2 <= KeyCount cfg <= maxWorkloadKeys;
  vw_size : minWorkloadValueBytes <= ValueSize cfg <= maxWorkloadValueBytes;
  vw_dataset : KeyCount cfg * ValueSize cfg * Z.of_nat (length (selectedWorkloadScenarios (Scenario cfg))) <= maxWorkloadDataset;
  vw_ratio : 1 <= ReadRatio cfg <= 100;
  vw_concurrency : 1 <= Concurrency cfg <= maxWorkloadConcurrency;
  vw_requests : Concurrency cfg <= MaxRequests cfg <= maxWorkloadRequests;
  vw_duration : 0 < RunDuration cfg <= maxWorkloadDuration;
  vw_flash : 1 <= FlashEvery cfg <= maxWorkloadRequests;
  vw_skew80 : workloadScenarioSkew80 ∈ selectedWorkloadScenarios (Scenario cfg) → 5 <= KeyCount cfg;
  vw_skew99 : workloadScenarioSkew99 ∈ selectedWorkloadScenarios (Scenario cfg) → 100 <= KeyCount cfg;
  vw_moving : workloadScenarioMovingFlash ∈ selectedWorkloadScenarios (Scenario cfg) → FlashEvery cfg < MaxRequests cfg
}.

Lemma isWorkloadScenario_iff s : isWorkloadScenario s = true ↔ s = workloadScenarioAll ∨ s ∈ workloadScenarios.
Proof.
  unfold isWorkloadScenario. rewrite orb_true_iff, bool_decide_eq_true, existsb_exists.
  setoid_rewrite bool_decide_eq_true. setoid_rewrite <-list_elem_of_In. naive_solver.
Qed.

Lemma selected_length s : (1 <= length (selectedWorkloadScenarios s) <= 4)%nat.
Proof. unfold selectedWorkloadScenarios. case_bool_decide; cbn; lia. Qed.

Lemma dataset_exact k v n : 2 <= k <= 100000 → 16 <= v <= 1048576 → 1 <= n <= 4 → k *i v *i n = k * v * n.
Proof.
  intros. assert (0 <= k * v <= 100000 * 1048576) by nia.
  rewrite (i64_id (k * v)) by width_lia. rewrite i64_id; [done|]. widths. nia.
Qed.

Lemma selected_elem s sel : s ∈ selectedWorkloadScenarios sel → sel = workloadScenarioAll ∨ sel = s.
Proof.
  unfold selectedWorkloadScenarios. case_bool_decide; [by left|]. rewrite list_elem_of_singleton. by right.
Qed.

(** Decide a check of the form "for this scenario, at least so many". *)
Local Ltac case_sel :=
  repeat match goal with H : (_ && _) = false |- _ => apply andb_false_iff in H end;
  repeat match goal with
  | H : _ ∨ _ |- _ => destruct H
  | H : (_ || _) = false |- _ => apply orb_false_iff in H as [??]
  | H : bool_decide _ = false |- _ => apply bool_decide_eq_false in H
  | H : (_ <? _) = false |- _ => apply Z.ltb_ge in H
  | H : (_ <=? _) = false |- _ => apply Z.leb_gt in H
  end; try congruence; try lia.

Lemma validate_valid cfg : validateWorkloadConfig cfg = None → validWorkload cfg.
Proof.
  unfold validateWorkloadConfig. cbv zeta. intros Hv.
  repeat match type of Hv with (if ?b then _ else _) = _ => destruct b eqn:?; [discriminate|] end. clear Hv.
  repeat match goal with H : (_ || _) = false |- _ => apply orb_false_iff in H as [??] end.
  pose proof (selected_length (Scenario cfg)) as Hn.
  repeat match goal with
  | H : (_ <? _) = false |- _ => apply Z.ltb_ge in H
  | H : (_ <=? _) = false |- _ => apply Z.leb_gt in H
  end.
  match goal with H : _ *i _ *i _ <= _ |- _ => rewrite dataset_exact in H; [| |change maxWorkloadValueBytes with 1048576 in *|];
    [|unfold maxWorkloadKeys, minWorkloadValueBytes in *; lia..] end.
  split; try lia; [apply isWorkloadScenario_iff; by apply negb_false_iff|..];
    intros Hs; apply selected_elem in Hs; case_sel.
Qed.

Lemma umod_in a b : 0 < b → umod a b = Some (a mod b) ∧ 0 <= a mod b < b.
Proof. intros Hb. unfold umod. case_if; [lia|]. split; [done|]. by apply Z.mod_pos_bound. Qed.

Lemma skewedKey_in percent hot count choice v :
  1 <= hot < count → count <= maxWorkloadKeys →
  ∃ k, skewedKey percent hot count choice v = Some k ∧ 0 <= k < count ∧ (k < hot ↔ choice < percent).
Proof.
  intros Hh Hc. unfold maxWorkloadKeys in Hc. unfold skewedKey. case_if.
  - rewrite u64_id by width_lia. destruct (umod_in v hot) as [-> Hr]; [lia|]. simpl.
    eexists. split; [done|]. rewrite i64_id by width_lia. lia.
  - rewrite (i64_id (count - hot)) by width_lia. rewrite u64_id by width_lia.
    destruct (umod_in v (count - hot)) as [-> Hr]; [lia|]. simpl.
    eexists. split; [done|]. rewrite (i64_id (v mod _)) by width_lia. rewrite i64_id by width_lia. lia.
Qed.

Lemma hotKeys_exact n c : 0 < n → n <= c → maxInt 1 (Z.quot c n) = c / n.
Proof.
  intros. rewrite Z.quot_div_nonneg by lia. assert (1 <= c / n) by (by apply Z.div_le_lower_bound; lia).
  unfold maxInt. case_if; lia.
Qed.

End workload.
