(* ===== verification/WorkloadProps.v ===== *)
(** * What the generated workload guarantees

    A checked configuration generates a request for a key of the data set at every
    operation index, with the share of the hot keys the scenario names; a payload is
    recognised exactly under its own key and write version. *)
From stdpp Require Import prelude strings list.
From Stdlib Require Import ZArith Lia.
From S2P Require Import Prelude GoStd GoTime Workload.
Local Open Scope Z_scope.

Module workloadprops.
Import workload.

(** ** Bytes *)

Lemma ofByte_range b : 0 <= ofByte b < 256.
Proof. unfold ofByte. pose proof (Byte.to_N_bounded b). lia. Qed.

Lemma ofByte_byteOf z : ofByte (byteOf z) = z mod 256.
Proof.
  unfold ofByte, byteOf. pose proof (Z.mod_pos_bound z 256 ltac:(lia)) as Hm.
  destruct (Byte.of_N (Z.to_N (z mod 256))) as [b|] eqn:Hb; simpl.
  - apply Byte.to_of_N in Hb. rewrite Hb. lia.
  - apply Byte.of_N_None_iff in Hb. lia.
Qed.

Lemma ofByte_inj a b : ofByte a = ofByte b → a = b.
Proof.
  unfold ofByte. intros Heq. assert (Hn : Byte.to_N a = Byte.to_N b) by lia.
  pose proof (Byte.of_to_N a) as Ha. rewrite Hn, Byte.of_to_N in Ha. congruence.
Qed.

(** ** Little-endian numbers *)

Fixpoint leBytes (n : nat) (v : Z) : bytes :=
  match n with O => [] | S n' => byteOf v :: leBytes n' (v / 256) end.

Lemma putUint64_le v : putUint64 v = leBytes 8 v.
Proof.
  unfold putUint64. cbn -[Z.mul Z.of_nat]. rewrite !Z.div_div by lia.
  rewrite !Z.shiftr_div_pow2 by lia. repeat f_equal. by rewrite Z.div_1_r.
Qed.

Lemma leValue_leBytes n v : leValue (leBytes n v) = v mod 256 ^ Z.of_nat n.
Proof.
  revert v. induction n as [|n IH]; intros v; cbn -[Z.of_nat Z.pow]; [by rewrite Z.mod_1_r|].
  rewrite IH, ofByte_byteOf, Nat2Z.inj_succ, Z.pow_succ_r by lia.
  rewrite Z.rem_mul_r; [lia|lia|]. apply Z.pow_pos_nonneg; lia.
Qed.

Lemma leBytes_leValue b : leBytes (length b) (leValue b) = b.
Proof.
  induction b as [|x b IH]; [done|]. cbn -[Z.mul Z.add]. pose proof (ofByte_range x).
  f_equal.
  - apply ofByte_inj. rewrite ofByte_byteOf. rewrite Z.mul_comm, Z.mod_add by lia. by apply Z.mod_small.
  - rewrite Z.mul_comm, Z.div_add, Z.div_small, Z.add_0_l by lia. done.
Qed.

Lemma length_leBytes n v : length (leBytes n v) = n.
Proof. revert v. induction n as [|n IH]; intros v; simpl; auto. Qed.

Lemma length_putUint64 v : length (putUint64 v) = 8%nat.
Proof. by rewrite putUint64_le, length_leBytes. Qed.

(** Eight bytes read as a number are that number's encoding, and no other's. *)
Lemma uint64_iff v value :
  in_u64 v → (8 <= length value)%nat → uint64 value = v ↔ take 8 value = putUint64 v.
Proof.
  intros Hv Hl. unfold uint64. rewrite putUint64_le. split; [intros <-|intros ->].
  - rewrite <-(leBytes_leValue (take 8 value)) at 1. by rewrite length_take, Nat.min_l.
  - rewrite leValue_leBytes. apply Z.mod_small. unfold in_u64, two64 in Hv. lia.
Qed.

(** ** Copies *)

Lemma copyAt_lookup dst off e src j :
  (off + (e - off) <= length dst)%nat →
  copyAt dst off e src !! j =
    if decide (off <= j < off + Nat.min (e - off) (length src))%nat then src !! (j - off)%nat else dst !! j.
Proof.
  intros Hl. unfold copyAt. set (n := Nat.min _ _). assert (Hn : (n <= length src)%nat) by lia.
  assert (Hd : (off + n <= length dst)%nat) by lia. case_decide as Hj.
  - rewrite lookup_app_r by (rewrite length_take; lia). rewrite length_take, Nat.min_l by lia.
    rewrite lookup_app_l by (rewrite length_take; lia). by rewrite lookup_take_lt by lia.
  - destruct (decide (j < off)%nat).
    + rewrite lookup_app_l by (rewrite length_take; lia). by rewrite lookup_take_lt by lia.
    + rewrite lookup_app_r by (rewrite length_take; lia). rewrite length_take, Nat.min_l by lia.
      rewrite lookup_app_r by (rewrite length_take; lia). rewrite length_take, Nat.min_l by lia.
      rewrite lookup_drop. f_equal. lia.
Qed.

Lemma length_copyAt dst off e src : (off + (e - off) <= length dst)%nat → length (copyAt dst off e src) = length dst.
Proof.
  intros. unfold copyAt. rewrite !length_app, length_drop, !length_take. lia.
Qed.

Lemma tile_lookup fuel n off digest arr j :
  length digest = 32%nat → (n <= length arr)%nat → (n <= off + fuel)%nat → (off mod 32 = 0)%nat →
  tile fuel n off digest arr !! j =
    if decide (off <= j < n)%nat then digest !! (j mod 32)%nat else arr !! j.
Proof.
  intros Hd. revert off arr. induction fuel as [|fuel IH]; intros off arr Hn Hf Ho; cbn [tile].
  - by rewrite decide_False by lia.
  - destruct (Nat.ltb_spec off n); [|by rewrite decide_False by lia].
    rewrite IH; rewrite ?length_copyAt by lia; [|lia|lia|rewrite Hd, Nat.Div0.add_mod, Ho; done].
    rewrite copyAt_lookup by lia. rewrite Hd. apply Nat.Div0.div_exact in Ho.
    repeat case_decide; try lia; try done. f_equal.
    rewrite Ho at 1. apply (Nat.mod_unique _ _ (off / 32)); lia.
Qed.

Lemma length_tile fuel n off digest arr : (n <= length arr)%nat → length (tile fuel n off digest arr) = length arr.
Proof.
  revert off arr. induction fuel as [|fuel IH]; intros off arr Hn; cbn [tile]; [done|].
  destruct (Nat.ltb_spec off n); [|done]. rewrite IH; rewrite length_copyAt by lia; done.
Qed.

Lemma tailMatches_iff position digest value :
  tailMatches position digest value = true ↔
  ∀ j b, value !! j = Some b → digest !! ((position + j) mod length digest)%nat = Some b.
Proof.
  revert position. induction value as [|x value IH]; intros position; cbn [tailMatches]; [done|].
  rewrite andb_true_iff, bool_decide_eq_true, IH. split.
  - intros [H1 H2] [|j] b; cbn; [intros [= <-]; by rewrite Nat.add_0_r|].
    intros Hj. rewrite <-Nat.add_succ_comm. auto.
  - intros Hv. split; [rewrite <-(Nat.add_0_r position); by apply (Hv 0%nat)|].
    intros j b Hj. rewrite Nat.add_succ_comm. by apply (Hv (S j)).
Qed.

(** ** Payloads *)
Section values.
Context `{Sha256}.

(** The values of a list of keys: a digest of 32 bytes for each. *)
Definition wfValues (v : workloadValues) : Prop :=
  minWorkloadValueBytes <= size v ∧ Forall (λ d, length d = 32%nat) (digests v).

Lemma newWorkloadValues_wf keys n : minWorkloadValueBytes <= n → wfValues (newWorkloadValues keys n).
Proof. intros. split; [done|]. apply Forall_map, Forall_true. intros k. apply Sum256_size. Qed.

(** Byte [j] of the payload. *)
Definition payloadAt (d digest : bytes) (version : Z) (j : nat) : option Byte.byte :=
  if decide (j < 8)%nat then putUint64 version !! j
  else if decide (j < 16)%nat then d !! (j - 8)%nat
  else digest !! (j mod 32)%nat.

Lemma filled_lookup v i version dst d digest :
  wfValues v → digests v !! i = Some d → versionDigest v i version = Some digest →
  ∃ value, filled v i version dst = Some value ∧ length value = Z.to_nat (size v) ∧
    ∀ j, (j < Z.to_nat (size v))%nat → value !! j = payloadAt d digest version j.
Proof.
  intros [Hs Hds] Hi Hg. unfold minWorkloadValueBytes in Hs.
  assert (Hd : length d = 32%nat) by (by eapply (Forall_lookup_1 _ _ _ _ Hds)).
  assert (Hgl : length digest = 32%nat).
  { unfold versionDigest in Hg. rewrite Hi in Hg. injection Hg as <-. apply Sum256_size. }
  unfold filled, Fill. rewrite Hg, Hi. destruct (Z.ltb_spec (size v) 0); [lia|]. cbn [mbind option_bind].
  set (n := Z.to_nat (size v)). set (arr := if (length dst <? n)%nat then _ else _).
  assert (Ha : (n <= length arr)%nat).
  { unfold arr. destruct (Nat.ltb_spec (length dst) n); [|lia]. by rewrite length_replicate. }
  assert (Hn : (16 <= n)%nat) by lia.
  pose proof (length_tile n n 0 digest arr Ha) as Hlt. destruct (Nat.ltb_spec (length (tile n n 0 digest arr)) 16); [lia|].
  eexists. split; [reflexivity|]. pose proof (length_putUint64 version) as Hp.
  assert (Hl8 : length (take 8 d) = 8%nat) by (rewrite length_take; lia).
  split; [rewrite length_take, !length_copyAt; rewrite ?length_copyAt; lia|].
  intros j Hj. rewrite lookup_take_lt by done. rewrite !copyAt_lookup by (rewrite ?length_copyAt by lia; lia).
  rewrite Hp, Hl8, tile_lookup by (done || lia). unfold payloadAt.
  repeat case_decide; try lia; try done; [by rewrite lookup_take_lt by lia|]. f_equal. lia.
Qed.

Lemma versionDigest_some v i d version :
  digests v !! i = Some d → ∃ digest, versionDigest v i version = Some digest ∧ length digest = 32%nat.
Proof. intros Hi. unfold versionDigest. rewrite Hi. eexists. split; [reflexivity|]. apply Sum256_size. Qed.

(** The checks of Matches, byte by byte. *)
Lemma payload_checks d digest version value :
  length d = 32%nat → length digest = 32%nat → (16 <= length value)%nat → in_u64 version →
  (∀ j, (j < length value)%nat → value !! j = payloadAt d digest version j) ↔
  uint64 value = version ∧ take 8 (drop 8 value) = take 8 d ∧ tailMatches 16 digest (drop 16 value) = true.
Proof.
  intros Hd Hg Hl Hv. rewrite uint64_iff, tailMatches_iff, Hg by (done || lia).
  pose proof (length_putUint64 version) as Hp. split.
  - intros Hj. split_and!.
    + apply list_eq_same_length with 8%nat; [by rewrite Hp|rewrite length_take; lia|].
      intros j x y Hjl. rewrite lookup_take_lt, Hj by lia. unfold payloadAt. rewrite decide_True by done. congruence.
    + apply list_eq_same_length with 8%nat; [rewrite length_take; lia|rewrite length_take, length_drop; lia|].
      intros j x y Hjl. rewrite !lookup_take_lt, lookup_drop, Hj by lia. unfold payloadAt.
      rewrite decide_False, decide_True by lia. replace (8 + j - 8)%nat with j by lia. congruence.
    + intros j b. rewrite lookup_drop. intros Hb. rewrite <-Hb. symmetry. rewrite Hj by (by eapply lookup_lt_Some).
      unfold payloadAt. by rewrite !decide_False by lia.
  - intros (H1 & H2 & H3) j Hj. unfold payloadAt. repeat case_decide.
    + rewrite <-H1. by rewrite lookup_take_lt by lia.
    + rewrite <-(lookup_take_lt d 8) by lia. rewrite <-H2. rewrite lookup_take_lt, lookup_drop by lia. f_equal. lia.
    + destruct (lookup_lt_is_Some_2 value j Hj) as [b Hb]. rewrite Hb. symmetry.
      replace (j mod 32)%nat with ((16 + (j - 16)) mod 32)%nat by (f_equal; lia).
      apply H3. rewrite lookup_drop, <-Hb. f_equal. lia.
Qed.

(** Matches never fails, and accepts exactly the payload Fill writes, whatever the
    buffer it is written to held. *)
Lemma Matches_spec v i d version dst value :
  wfValues v → digests v !! i = Some d → in_u64 version →
  Matches v i version value = Some (bool_decide (filled v i version dst = Some value)).
Proof.
  intros Hwf Hi Hv. destruct (versionDigest_some v i d version Hi) as (digest & Hg & Hgl).
  destruct (filled_lookup v i version dst d digest Hwf Hi Hg) as (fill & Hf & Hfl & Hfj). rewrite Hf.
  assert (Hd : length d = 32%nat) by (by eapply (Forall_lookup_1 _ _ _ _ (proj2 Hwf))).
  pose proof (proj1 Hwf) as Hs. unfold minWorkloadValueBytes in Hs. unfold Matches, blen.
  destruct (Z.eqb_spec (Z.of_nat (length value)) (size v)) as [Hl|Hl]; cbn [negb].
  2:{ rewrite bool_decide_eq_false_2; [done|]. intros [= <-]. lia. }
  destruct (Nat.ltb_spec (length value) 16); [lia|]. rewrite Hi, Hg. cbn [mbind option_bind].
  assert (Heq : Some fill = Some value ↔ ∀ j, (j < length value)%nat → value !! j = payloadAt d digest version j).
  { split; [intros [= ->] j Hj; apply Hfj; lia|]. intros Hj. f_equal. apply list_eq_same_length with (length value); [done|lia|].
    intros j x y Hjl. rewrite Hfj, Hj by lia. congruence. }
  rewrite payload_checks in Heq by (done || lia).
  rewrite (bool_decide_ext _ _ Heq). clear Heq.
  destruct (Z.eqb_spec (uint64 value) version); cbn [negb]; [|rewrite bool_decide_eq_false_2; naive_solver].
  case_bool_decide; cbn [negb]; [|rewrite bool_decide_eq_false_2; naive_solver].
  destruct (tailMatches _ _ _); [rewrite bool_decide_eq_true_2; naive_solver|rewrite bool_decide_eq_false_2; naive_solver].
Qed.

(** Fill never fails, and does not depend on its buffer. *)
Lemma payload_any v i d version :
  wfValues v → digests v !! i = Some d → in_u64 version → ∃ value, ∀ dst, filled v i version dst = Some value.
Proof.
  intros Hwf Hi Hv. destruct (versionDigest_some v i d version Hi) as (digest & Hg & _).
  destruct (filled_lookup v i version [] d digest Hwf Hi Hg) as (value & Hf & _). exists value. intros dst.
  pose proof (Matches_spec v i d version [] value Hwf Hi Hv) as Hm.
  rewrite (Matches_spec v i d version dst value Hwf Hi Hv), Hf in Hm.
  rewrite (bool_decide_eq_true_2 (Some value = Some value)) in Hm by done. injection Hm as Hm. by apply bool_decide_eq_true in Hm.
Qed.

(** A payload is not the payload of another version of its key. *)
Lemma filled_version v i dst dst' version version' value :
  wfValues v → in_u64 version → in_u64 version' → is_Some (digests v !! i) →
  filled v i version dst = Some value → filled v i version' dst' = Some value → version = version'.
Proof.
  intros Hwf Hv Hv' [d Hi] H1 H2. pose proof (proj1 Hwf) as Hs. unfold minWorkloadValueBytes in Hs.
  assert (Hu : ∀ w dst, in_u64 w → filled v i w dst = Some value → uint64 value = w).
  { intros w b Hw Hf. destruct (versionDigest_some v i d w Hi) as (digest & Hg & _).
    destruct (filled_lookup v i w b d digest Hwf Hi Hg) as (x & Hx & Hl & Hj). rewrite Hx in Hf. injection Hf as ->.
    apply uint64_iff; [done|lia|]. pose proof (length_putUint64 w).
    apply list_eq_same_length with 8%nat; [done|rewrite length_take; lia|].
    intros j a c Hjl. rewrite lookup_take_lt, Hj by lia. unfold payloadAt. rewrite decide_True by done. congruence. }
  by rewrite <-(Hu _ _ Hv H1), (Hu _ _ Hv' H2).
Qed.

(** A payload carries its key and write version: for every key of the data set
    and every version, Fill writes a payload of the configured size, the same whatever
    the reused buffer held; Matches never fails, accepts that payload and no other
    value for the version, and rejects it for every other version. *)
Theorem payload_exact keys n i version dst :
  minWorkloadValueBytes <= n → (i < length keys)%nat → in_u64 version →
  let v := newWorkloadValues keys n in
  ∃ value, filled v i version dst = Some value ∧ blen value = n ∧
    (∀ dst', filled v i version dst' = Some value) ∧
    (∀ other, Matches v i version other = Some (bool_decide (other = value))) ∧
    (∀ version', in_u64 version' → version' ≠ version → Matches v i version' value = Some false).
Proof.
  intros Hn Hi Hv v. assert (Hwf : wfValues v) by (by apply newWorkloadValues_wf).
  assert (Hl : length (digests v) = length keys) by (by unfold v, newWorkloadValues; simpl; rewrite length_map).
  destruct (lookup_lt_is_Some_2 (digests v) i ltac:(lia)) as [d Hd].
  destruct (versionDigest_some v i d version Hd) as (digest & Hg & _).
  destruct (filled_lookup v i version dst d digest Hwf Hd Hg) as (value & Hf & Hlen & _).
  assert (Hm : ∀ other, Matches v i version other = Some (bool_decide (other = value))).
  { intros other. rewrite (Matches_spec v i d version dst other) by done. rewrite Hf. f_equal.
    apply bool_decide_ext. split; congruence. }
  exists value. split_and!; [done|unfold blen, v in *; cbn in *; unfold minWorkloadValueBytes in Hn; lia| |done|].
  - intros dst'. destruct (payload_any v i d version Hwf Hd Hv) as [value' Hv']. by rewrite Hv', <-(Hv' dst).
  - intros w Hw Hne. rewrite (Matches_spec v i d w dst value) by done. rewrite bool_decide_eq_false_2; [done|].
    intros Hf'. apply Hne. by eapply filled_version.
Qed.

End values.

(** The random draw of a stream at an operation index, in percent. *)
Definition draw (cfg : workloadConfig) (operationIndex stream : Z) : Z :=
  deterministicWorkloadValue (Seed cfg) operationIndex stream mod 100.

Lemma skewed_request percent n count choice v :
  2 <= n → n <= count → count <= maxWorkloadKeys →
  ∃ k, skewedKey percent (maxInt 1 (Z.quot count n)) count choice v = Some k ∧ 0 <= k < count ∧
    (k < count / n ↔ choice < percent).
Proof.
  intros Hn Hc Hm. rewrite hotKeys_exact by lia. apply skewedKey_in; [|done].
  split; [apply Z.div_le_lower_bound; lia|apply Z.div_lt; lia].
Qed.

Lemma request_shape cfg scenario op :
  validateWorkloadConfig cfg = None → scenario ∈ selectedWorkloadScenarios (Scenario cfg) → 0 <= op < MaxRequests cfg →
  ∃ k read, workloadRequestAt scenario cfg op = Some (k, read) ∧ 0 <= k < KeyCount cfg ∧
    (read = true ↔ draw cfg op 1 < ReadRatio cfg) ∧
    (scenario = workloadScenarioSkew80 → k < KeyCount cfg / 5 ↔ draw cfg op 2 < 80) ∧
    (scenario = workloadScenarioSkew99 → k < KeyCount cfg / 100 ↔ draw cfg op 2 < 99) ∧
    (scenario = workloadScenarioMovingFlash → draw cfg op 2 < 99 →
       k = (deterministicWorkloadValue (Seed cfg) 0 4 + op / FlashEvery cfg) mod KeyCount cfg).
Proof.
  intros Hval Hs Hop. apply validate_valid in Hval as [_ Hk _ _ Hr _ Hm _ Hf H80 H99 _].
  unfold maxWorkloadKeys, maxWorkloadRequests in *. unfold workloadRequestAt. fold (draw cfg op 1). fold (draw cfg op 2).
  rewrite !(u64_id (ReadRatio cfg)), !(u64_id (KeyCount cfg)), !(u64_id (FlashEvery cfg)) by width_lia.
  assert (Hu : ∀ v, umod v (KeyCount cfg) = Some (v mod KeyCount cfg) ∧ 0 <= v mod KeyCount cfg < KeyCount cfg)
    by (intros; apply umod_in; lia).
  assert (Hi : ∀ v, i64 (v mod KeyCount cfg) = v mod KeyCount cfg)
    by (intros v; destruct (Hu v); apply i64_id; width_lia).
  assert (Hread : ((draw cfg op 1 <? ReadRatio cfg) = true) ↔ draw cfg op 1 < ReadRatio cfg) by apply Z.ltb_lt.
  assert (Huni : ∀ v, ∃ k, (k ← umod v (KeyCount cfg); Some (i64 k, draw cfg op 1 <? ReadRatio cfg)) =
    Some (k, draw cfg op 1 <? ReadRatio cfg) ∧ 0 <= k < KeyCount cfg ∧ k = v mod KeyCount cfg).
  { intros v. destruct (Hu v) as [-> Hv]. cbn. rewrite Hi. eauto. }
  repeat case_bool_decide; simplify_eq.
  - destruct (skewed_request 80 5 (KeyCount cfg) (draw cfg op 2) (deterministicWorkloadValue (Seed cfg) op 3))
      as (k & -> & Hkr & Hkh); [lia|by specialize (H80 Hs)|unfold maxWorkloadKeys; lia|]. cbn. naive_solver.
  - destruct (skewed_request 99 100 (KeyCount cfg) (draw cfg op 2) (deterministicWorkloadValue (Seed cfg) op 3))
      as (k & -> & Hkr & Hkh); [lia|by specialize (H99 Hs)|unfold maxWorkloadKeys; lia|]. cbn. naive_solver.
  - destruct (Z.ltb_spec (draw cfg op 2) 99).
    + destruct (Hu (deterministicWorkloadValue (Seed cfg) 0 4)) as [-> Ho]. cbn [mbind option_bind].
      unfold udiv. destruct (Z.eqb_spec (FlashEvery cfg) 0); [lia|]. cbn [mbind option_bind].
      assert (0 <= op / FlashEvery cfg <= op) by (split; [apply Z.div_pos; lia|apply Z.div_le_upper_bound; nia]).
      rewrite u64_id by width_lia.
      destruct (Huni (deterministicWorkloadValue (Seed cfg) 0 4 mod KeyCount cfg + op / FlashEvery cfg)) as (k & -> & Hkr & ->).
      eexists _, _. split; [reflexivity|]. do 2 (split; [done|]). do 2 (split; [by intros ?|]).
      intros _ _. by rewrite Z.add_mod_idemp_l by lia.
    + destruct (Huni (deterministicWorkloadValue (Seed cfg) op 3)) as (k & -> & Hkr & _). naive_solver lia.
  - destruct (Huni (deterministicWorkloadValue (Seed cfg) op 3)) as (k & -> & Hkr & _). naive_solver.
Qed.

Lemma request_in_range cfg scenario op :
  validateWorkloadConfig cfg = None → scenario ∈ selectedWorkloadScenarios (Scenario cfg) → 0 <= op < MaxRequests cfg →
  ∃ k read, workloadRequestAt scenario cfg op = Some (k, read) ∧ 0 <= k < KeyCount cfg.
Proof. intros Hv Hs Ho. destruct (request_shape cfg scenario op Hv Hs Ho) as (k & r & Hr & Hk & _). eauto. Qed.

(** Every operation of a checked configuration is generated without a division by
    zero and addresses a key of the data set; the operation is a read for the
    configured share of the draws; in the skewed scenarios the first fifth (the first
    hundredth) of the keys takes exactly the draws below 80 (99) percent; in the moving
    flash scenario the flash key starts at a key of the seed and moves to the next key
    every FlashEvery operations, with no overflow. *)
Theorem workload_request_exact cfg scenario op :
  validateWorkloadConfig cfg = None → scenario ∈ selectedWorkloadScenarios (Scenario cfg) → 0 <= op < MaxRequests cfg →
  ∃ k read, workloadRequestAt scenario cfg op = Some (k, read) ∧ 0 <= k < KeyCount cfg ∧
    (read = true ↔ draw cfg op 1 < ReadRatio cfg) ∧
    (scenario = workloadScenarioSkew80 → k < KeyCount cfg / 5 ↔ draw cfg op 2 < 80) ∧
    (scenario = workloadScenarioSkew99 → k < KeyCount cfg / 100 ↔ draw cfg op 2 < 99) ∧
    (scenario = workloadScenarioMovingFlash → draw cfg op 2 < 99 →
       k = (deterministicWorkloadValue (Seed cfg) 0 4 + op / FlashEvery cfg) mod KeyCount cfg).
Proof. apply request_shape. Qed.
End workloadprops.
