(* ===== verification/WorkloadRun.v ===== *)
(** * A measured phase of the workload benchmark

    Models runRedisWorkloadWithClients and validateWrittenWorkloadValues of
    src/cmd/slizenctl/benchmark.go: the workers that share an operation counter and a
    version and a read-write mutex per key, every interleaving of them, and the sums
    the phase reports. The server the workers talk to is the environment: a reply to a
    GET and the outcome of a SET are arbitrary. [claimed] and [log] are not in the code:
    they record which worker took which operation, and the commands in the order of
    their replies, the newest first. *)
From stdpp Require Import prelude gmap strings list.
From Stdlib Require Import ZArith Lia.
From S2P Require Import Prelude Conc Workload.
Local Open Scope Z_scope.

Module workloadrun.
Import workload.

(** A version and its [sync.RWMutex]. A pending Lock also holds back later readers in
    Go; here it does not, which only adds interleavings. *)
Record workloadKeyState := mkKeyState { kVersion : Z; kWriter : option nat; kReaders : gset nat }.

Record workloadWorkerResult := mkResult {
  latencies : list Duration;
  readLatencies : list Duration;
  writeLatencies : list Duration;
  readOrderingWaits : list Duration;
  writeOrderingWaits : list Duration;
  reads : Z;
  writes : Z;
  failures : Z;
  valueMismatches : Z
}.

Definition emptyResult : workloadWorkerResult := mkResult [] [] [] [] [] 0 0 0 0.

(** A command and its outcome: a GET with the value or the error it got, a SET with
    the value it sent and whether it was acknowledged. *)
Inductive event :=
  | EvGet (by_ op key : nat) (reply : option bytes)
  | EvSet (by_ op key : nat) (value : bytes) (ok : bool).

Definition evBy (ev : event) : nat := match ev with EvGet b _ _ _ | EvSet b _ _ _ _ => b end.
Definition evOp (ev : event) : nat := match ev with EvGet _ o _ _ | EvSet _ o _ _ _ => o end.
Definition evKey (ev : event) : nat := match ev with EvGet _ _ k _ | EvSet _ _ k _ _ => k end.
Definition evRead (ev : event) : bool := match ev with EvGet _ _ _ _ => true | _ => false end.

Record Run := mkRun { issued : Z; keyStates : list workloadKeyState; claimed : list nat; log : list event }.

Record Tick := mkTick { tExpired : bool; tNow : Time; tGet : option bytes; tSet : bool }.

Notation P := (prog Tick Run).

(** ** Actions *)

Definition ctxErr : P bool := act (λ _ e s, Some (s, tExpired e)).
Definition now : P Time := act (λ _ e s, Some (s, tNow e)).

(** [issued.Add(1) - 1]. *)
Definition issue : P Z :=
  act (λ i _ s, let n := issued s +u 1 in Some (mkRun n (keyStates s) (claimed s ++ [i]) (log s), u64 (n - 1))).

(** An action on a key's state, blocked while [free] is false. *)
Definition onKey (k : nat) (free : workloadKeyState → bool) (f : nat → workloadKeyState → workloadKeyState) : P unit :=
  act (λ i _ s, ks ← keyStates s !! k;
    if free ks then Some (mkRun (issued s) (<[k := f i ks]> (keyStates s)) (claimed s) (log s), ()) else None).

Definition RLock (k : nat) : P unit :=
  onKey k (λ ks, bool_decide (kWriter ks = None)) (λ i ks, mkKeyState (kVersion ks) (kWriter ks) ({[i]} ∪ kReaders ks)).
Definition RUnlock (k : nat) : P unit :=
  onKey k (λ _, true) (λ i ks, mkKeyState (kVersion ks) (kWriter ks) (kReaders ks ∖ {[i]})).
Definition Lock (k : nat) : P unit :=
  onKey k (λ ks, bool_decide (kWriter ks = None) && bool_decide (kReaders ks = ∅))
    (λ i ks, mkKeyState (kVersion ks) (Some i) (kReaders ks)).
Definition Unlock (k : nat) : P unit :=
  onKey k (λ _, true) (λ i ks, mkKeyState (kVersion ks) None (kReaders ks)).
Definition setVersion (k : nat) (v : Z) : P unit :=
  onKey k (λ _, true) (λ i ks, mkKeyState v (kWriter ks) (kReaders ks)).

Definition loadVersion (k : nat) : P Z := act (λ _ _ s, ks ← keyStates s !! k; Some (s, kVersion ks)).

Definition logged (s : Run) (ev : event) : Run := mkRun (issued s) (keyStates s) (claimed s) (ev :: log s).

(** [client.Get(...).Bytes()] and [client.Set(...).Err()]. *)
Definition clientGet (op k : nat) : P (option bytes) :=
  act (λ i e s, Some (logged s (EvGet i op k (tGet e)), tGet e)).
Definition clientSet (op k : nat) (value : bytes) : P bool :=
  act (λ i e s, Some (logged s (EvSet i op k value (tSet e)), tSet e)).

(** ** The worker *)

(** What an operation ends with: whether it failed, whether its value was wrong, the
    time the command took, the time it waited for the key, and the buffer. *)
Record opResult := mkOp { oErr : bool; oMismatch : bool; oCommand : Duration; oWait : Duration; oBuffer : bytes }.

(** The counters and samples of an operation. *)
Definition countOp (w : workloadWorkerResult) (read : bool) (elapsed : Duration) (r : opResult) : workloadWorkerResult :=
  if oErr r || oMismatch r then
    mkResult (latencies w) (readLatencies w) (writeLatencies w) (readOrderingWaits w) (writeOrderingWaits w)
      (reads w) (writes w) (failures w +u 1) (if oMismatch r then valueMismatches w +u 1 else valueMismatches w)
  else if read then
    mkResult (latencies w ++ [elapsed]) (readLatencies w ++ [oCommand r]) (writeLatencies w)
      (readOrderingWaits w ++ [oWait r]) (writeOrderingWaits w) (reads w +u 1) (writes w) (failures w) (valueMismatches w)
  else
    mkResult (latencies w ++ [elapsed]) (readLatencies w) (writeLatencies w ++ [oCommand r])
      (readOrderingWaits w) (writeOrderingWaits w ++ [oWait r]) (reads w) (writes w +u 1) (failures w) (valueMismatches w).

Section worker.
Context `{Sha256} (cfg : workloadConfig) (scenario : string) (keys : list string) (values : workloadValues).

Definition readOp (op k : nat) (requestStart : Time) (buffer : bytes) : P opResult :=
  RLock k ≫= λ _,
  now ≫= λ t,
  let orderingWait := t_sub t requestStart in
  loadVersion k ≫= λ expectedVersion,
  now ≫= λ commandStart,
  clientGet op k ≫= λ reply,
  now ≫= λ t,
  let commandElapsed := t_sub t commandStart in
  match (match reply with
         | Some value => negb <$> Matches values k expectedVersion value
         | None => Some false
         end) with
  | None => Panic
  | Some valueMismatch =>
      RUnlock k ≫= λ _, mret (mkOp (bool_decide (reply = None)) valueMismatch commandElapsed orderingWait buffer)
  end.

Definition writeOp (op k : nat) (requestStart : Time) (buffer : bytes) : P opResult :=
  Lock k ≫= λ _,
  now ≫= λ t,
  let orderingWait := t_sub t requestStart in
  loadVersion k ≫= λ version,
  let nextVersion := version +u 1 in
  match Fill values k nextVersion buffer with
  | None => Panic
  | Some buffer' =>
      let value := take (Z.to_nat (size values)) buffer' in
      now ≫= λ commandStart,
      clientSet op k value ≫= λ ok,
      now ≫= λ t,
      let commandElapsed := t_sub t commandStart in
      (if ok : bool then setVersion k nextVersion else mret ()) ≫= λ _,
      Unlock k ≫= λ _, mret (mkOp (negb ok) false commandElapsed orderingWait buffer')
  end.

(** The loop of a worker. An operation index is taken once, so a worker goes round at
    most once for each of the MaxRequests operations and once more to stop. *)
Fixpoint workerLoop (fuel : nat) (w : workloadWorkerResult) (buffer : bytes) : P workloadWorkerResult :=
  match fuel with
  | O => Panic
  | S fuel' =>
      ctxErr ≫= λ expired,
      if expired : bool then mret w else
      issue ≫= λ operationIndex,
      if u64 (MaxRequests cfg) <=? operationIndex then mret w else
      match workloadRequestAt scenario cfg operationIndex with
      | None => Panic
      | Some (keyIndex, read) =>
          now ≫= λ requestStart,
          let k := Z.to_nat keyIndex in
          if (keyIndex <? 0) || (Z.of_nat (length keys) <=? keyIndex) then Panic else
          (if read : bool then readOp (Z.to_nat operationIndex) k requestStart buffer
           else writeOp (Z.to_nat operationIndex) k requestStart buffer) ≫= λ r,
          now ≫= λ t,
          workerLoop fuel' (countOp w read (t_sub t requestStart) r) (oBuffer r)
      end
  end.

Definition worker : P workloadWorkerResult :=
  workerLoop (S (Z.to_nat (MaxRequests cfg))) emptyResult (replicate (Z.to_nat (size values)) Byte.x00).

Definition started : Run :=
  mkRun 0 (replicate (length keys) (mkKeyState 0 None ∅)) [] [].

(** The state after some steps of the phase's workers. *)
Definition phaseReaches (c : Run * list (P workloadWorkerResult)) : Prop :=
  rtc (pstep (λ _ _, True) (λ _ _ _, False)) (started, replicate (Z.to_nat (Concurrency cfg)) worker) c.

(** All workers have returned ([wg.Wait] returns). *)
Definition phaseEnds (s : Run) (results : list workloadWorkerResult) : Prop :=
  phaseReaches (s, Ret <$> results).

End worker.

(** ** The final validation

    Every key that was written is read once more. The workers share the position in
    the list of those keys and the number of reads they attempt. [cClaimed], [cTried]
    and [cLog] are not in the code: who took each position, who attempted which
    position, and the reads with their replies, the newest first. *)
Record Check := mkCheck {
  cIssued : Z;
  cAttempted : Z;
  cClaimed : list nat;
  cTried : list (nat * nat);
  cLog : list event
}.

Notation V := (prog Tick Check).

Definition changedKeys (states : list workloadKeyState) : list (nat * Z) :=
  filter (λ kv, 0 < kv.2) (imap (λ i ks, (i, kVersion ks)) states).

Definition checkIssue : V Z :=
  act (λ i _ s, let n := cIssued s +u 1 in
    Some (mkCheck n (cAttempted s) (cClaimed s ++ [i]) (cTried s) (cLog s), u64 (n - 1))).
Definition checkAttempt (position : nat) : V unit :=
  act (λ i _ s, Some (mkCheck (cIssued s) (cAttempted s +u 1) (cClaimed s) ((i, position) :: cTried s) (cLog s), ())).
Definition checkGet (position index : nat) : V (option bytes) :=
  act (λ i e s, Some (mkCheck (cIssued s) (cAttempted s) (cClaimed s) (cTried s) (EvGet i position index (tGet e) :: cLog s), tGet e)).
Definition checkErr : V bool := act (λ _ e s, Some (s, tExpired e)).
Definition checkNow : V Time := act (λ _ e s, Some (s, tNow e)).

Definition countCheck (w : workloadWorkerResult) (err mismatch : bool) (elapsed : Duration) : workloadWorkerResult :=
  if err || mismatch then
    mkResult (latencies w) (readLatencies w) (writeLatencies w) (readOrderingWaits w) (writeOrderingWaits w)
      (reads w) (writes w) (failures w +u 1) (if mismatch then valueMismatches w +u 1 else valueMismatches w)
  else
    mkResult (latencies w ++ [elapsed]) (readLatencies w ++ [elapsed]) (writeLatencies w) (readOrderingWaits w)
      (writeOrderingWaits w) (reads w +u 1) (writes w) (failures w) (valueMismatches w).

Section validation.
Context `{Sha256} (keys : list string) (values : workloadValues) (changed : list (nat * Z)).

(** As for the workers, each position is taken once. *)
Fixpoint checkLoop (fuel : nat) (w : workloadWorkerResult) : V workloadWorkerResult :=
  match fuel with
  | O => Panic
  | S fuel' =>
      checkIssue ≫= λ position,
      (if Z.of_nat (length changed) <=? position then mret true else checkErr) ≫= λ stop,
      if stop : bool then mret w else
      match changed !! Z.to_nat position with
      | None => Panic
      | Some (index, version) =>
          checkAttempt (Z.to_nat position) ≫= λ _,
          checkNow ≫= λ started,
          if (length keys <=? index)%nat then Panic else
          checkGet (Z.to_nat position) index ≫= λ reply,
          checkNow ≫= λ t,
          match (match reply with
                 | Some value => negb <$> Matches values index version value
                 | None => Some false
                 end) with
          | None => Panic
          | Some mismatch =>
              checkLoop fuel' (countCheck w (bool_decide (reply = None)) mismatch (t_sub t started))
          end
      end
  end.

Definition checker : V workloadWorkerResult := checkLoop (S (length changed)) emptyResult.

Definition checkStarted : Check := mkCheck 0 0 [] [] [].

Definition checkEnds (clients : nat) (s : Check) (results : list workloadWorkerResult) : Prop :=
  rtc (pstep (λ _ _, True) (λ _ _ _, False))
    (checkStarted, replicate (Nat.min clients (length changed)) checker) (s, Ret <$> results).

(** The sums of the workers' results. *)
Definition addCheck (r w : workloadWorkerResult) : workloadWorkerResult :=
  mkResult (latencies r ++ latencies w) (readLatencies r ++ readLatencies w) (writeLatencies r) (readOrderingWaits r)
    (writeOrderingWaits r) (reads r +u reads w) (writes r) (failures r +u failures w) (valueMismatches r +u valueMismatches w).

(** The result of the validation, or [None] when it timed out before every key was
    attempted. Without a written key nothing is read. *)
Inductive validates (clients : nat) : option (workloadWorkerResult * Z) → Check → Prop :=
  | validates_none : changed = [] → validates clients (Some (emptyResult, 0)) checkStarted
  | validates_run s results :
      changed ≠ [] → checkEnds clients s results →
      validates clients (if cAttempted s =? Z.of_nat (length changed)
                         then Some (fold_left addCheck results emptyResult, cAttempted s) else None) s.

End validation.
End workloadrun.
