(* ===== verification/WorkloadLogic.v ===== *)
(** * The workers of a benchmark phase, in every interleaving

    The specification of a phase is its log of commands: which of them were wrong is
    decided by the log alone. The rest is the proof, in the rely/guarantee logic of
    Conc, that the counters of the workers are the counts of that log. *)
From stdpp Require Import prelude gmap strings list.
From Stdlib Require Import ZArith Lia.
From S2P Require Import Prelude Conc Workload WorkloadProps WorkloadRun.
Local Open Scope Z_scope.

Module workloadlogic.
Import workload workloadprops workloadrun.

(** ** The specification: counting a log *)

(** How many commands of a log satisfy [f], which sees the older ones too. *)
Fixpoint count (f : event → list event → bool) (l : list event) : Z :=
  match l with
  | [] => 0
  | ev :: older => (if f ev older then 1 else 0) + count f older
  end.

(** The acknowledged writes of a key. *)
Definition ackedBy (k : nat) (ev : event) (_ : list event) : bool :=
  match ev with EvSet _ _ k' _ true => bool_decide (k' = k) | _ => false end.
Definition acked (k : nat) (l : list event) : Z := count (ackedBy k) l.

Definition byWorker (i : nat) (f : event → list event → bool) (ev : event) (older : list event) : bool :=
  bool_decide (evBy ev = i) && f ev older.

Section spec.
Context `{Sha256} (cfg : workloadConfig) (scenario : string) (values : workloadValues).

(** A GET answered with anything but the payload of the last acknowledged write of its
    key (of version 0, the seeded one, before any). *)
Definition staleRead (ev : event) (older : list event) : bool :=
  match ev with
  | EvGet _ _ k (Some value) => negb (bool_decide (filled values k (acked k older) [] = Some value))
  | _ => false
  end.

Definition goodRead (ev : event) (older : list event) : bool :=
  match ev with EvGet _ _ _ (Some _) => negb (staleRead ev older) | _ => false end.
Definition goodWrite (ev : event) (_ : list event) : bool :=
  match ev with EvSet _ _ _ _ ok => ok | _ => false end.
Definition failedOp (ev : event) (older : list event) : bool :=
  negb (goodRead ev older) && negb (goodWrite ev older).

(** The command is the generated one, and a SET sends the next version's payload. *)
Definition wellIssued (ev : event) (older : list event) : bool :=
  bool_decide (workloadRequestAt scenario cfg (Z.of_nat (evOp ev)) = Some (Z.of_nat (evKey ev), evRead ev)) &&
  match ev with
  | EvSet _ _ k value _ => bool_decide (filled values k (acked k older + 1) [] = Some value)
  | _ => true
  end.

Definition legal (l : list event) : Prop := count wellIssued l = Z.of_nat (length l).

End spec.

(** ** Counting *)

Lemma count_range f l : 0 <= count f l <= Z.of_nat (length l).
Proof. induction l as [|ev l IH]; cbn -[Z.of_nat]; [lia|]. destruct (f ev l); cbn [length]; lia. Qed.

Lemma count_zero f newer ev older : count f (newer ++ ev :: older) = 0 → f ev older = false.
Proof.
  induction newer as [|x newer IH]; cbn; intros Hc.
  - pose proof (count_range f older). destruct (f ev older); [lia|done].
  - pose proof (count_range f (newer ++ ev :: older)). apply IH. destruct (f x _); lia.
Qed.

Lemma count_full f newer ev older :
  count f (newer ++ ev :: older) = Z.of_nat (length (newer ++ ev :: older)) → f ev older = true.
Proof.
  induction newer as [|x newer IH]; cbn -[Z.of_nat]; intros Hc.
  - pose proof (count_range f older). destruct (f ev older); [done|lia].
  - pose proof (count_range f (newer ++ ev :: older)). apply IH. destruct (f x _); lia.
Qed.

Lemma count_others i f new l : Forall (λ ev, evBy ev ≠ i) new → count (byWorker i f) (new ++ l) = count (byWorker i f) l.
Proof.
  induction 1 as [|ev new Hne _ IH]; [done|]. cbn. unfold byWorker at 1. rewrite bool_decide_eq_false_2 by done. done.
Qed.

(** The workers' shares add up to the whole. *)
Lemma count_workers f n l :
  Forall (λ ev, (evBy ev < n)%nat) l → sumZ (λ i, count (byWorker i f) l) (seq 0 n) = count f l.
Proof.
  induction 1 as [|ev l Hn Hl IH]; cbn [count].
  - induction (seq 0 n); simpl; lia.
  - rewrite <-IH. clear IH Hl.
    assert (Hs : ∀ (L : list nat), NoDup L → sumZ (λ i, (if byWorker i f ev l then 1 else 0) + count (byWorker i f) l) L =
      (if bool_decide (evBy ev ∈ L) && f ev l then 1 else 0) + sumZ (λ i, count (byWorker i f) l) L).
    { induction 1 as [|j L Hj _ IHL]; [done|]. cbn [sumZ]. rewrite IHL. unfold byWorker at 1.
      destruct (decide (evBy ev = j)) as [->|Hne].
      - rewrite (bool_decide_eq_true_2 (j = j)), (bool_decide_eq_false_2 (j ∈ L)), (bool_decide_eq_true_2 (j ∈ j :: L)) by (done || left).
        cbn. destruct (f ev l); lia.
      - rewrite (bool_decide_eq_false_2 (evBy ev = j)) by done. cbn.
        rewrite (bool_decide_ext (evBy ev ∈ j :: L) (evBy ev ∈ L)); [lia|]. rewrite elem_of_cons. naive_solver. }
    rewrite Hs by apply NoDup_seq. rewrite bool_decide_eq_true_2; [done|]. apply elem_of_seq. lia.
Qed.

Lemma sumZ_indexed {A} (f : A → Z) (g : nat → Z) (l : list A) n :
  length l = n → (∀ i x, l !! i = Some x → f x = g i) → sumZ f l = sumZ g (seq 0 n).
Proof.
  intros <- Hf. assert (Hg : ∀ a, (∀ i x, l !! i = Some x → f x = g (a + i)%nat) → sumZ f l = sumZ g (seq a (length l))).
  { clear Hf. induction l as [|x l IH]; intros a Hf; [done|]. cbn. rewrite (Hf O x eq_refl), Nat.add_0_r. f_equal.
    apply IH. intros i y Hi. rewrite Nat.add_succ_comm. by apply (Hf (S i)). }
  by apply Hg.
Qed.

(** Commands of distinct indices below [m] are at most [m]. *)
Lemma NoDup_below (l : list nat) m : NoDup l → Forall (λ x, (x < m)%nat) l → (length l <= m)%nat.
Proof.
  intros Hnd Hl. rewrite <-(length_seq m 0). apply submseteq_length, NoDup_submseteq; [done|].
  intros x Hx. apply elem_of_seq. rewrite Forall_forall in Hl. specialize (Hl x Hx). lia.
Qed.

(** ** Rules for assertions with a pure part *)
Section rules.
Context {E S : Type} (tick_ok : S → E → Prop) (I : S → Prop) (rely guar : nat → S → S → Prop).
Notation hoareR := (hoare tick_ok I rely guar).

Lemma w_exists {A B} i (Φ : B → S → Prop) (p : prog E S A) Ψ :
  (∀ b, hoareR i (Φ b) p Ψ) → hoareR i (λ s, ∃ b, Φ b s) p Ψ.
Proof. intros Hp s HI [b Hs]. by apply (Hp b). Qed.

Lemma w_pure {A} i (Φ : S → Prop) (φ : Prop) (p : prog E S A) Ψ :
  (φ → hoareR i Φ p Ψ) → hoareR i (λ s, Φ s ∧ φ) p Ψ.
Proof. intros Hp s HI [Hs Hφ]. by apply Hp. Qed.

(** A pure fact that follows from the assertion. *)
Lemma w_fact {A} i (Φ : S → Prop) (φ : Prop) (p : prog E S A) Ψ :
  (∀ s, I s → Φ s → φ) → (φ → hoareR i Φ p Ψ) → hoareR i Φ p Ψ.
Proof. intros Hφ Hp s HI Hs. apply Hp; [by eapply Hφ|done..]. Qed.

Lemma w_ret {A} i Φ (a : A) (Ψ : A → S → Prop) :
  stableAt I rely i Φ → (∀ s, I s → Φ s → Ψ a s) → hoareR i Φ (mret a) Ψ.
Proof. intros Hst HΨ s HI Hs s1 Hr HI1. apply HΨ; [done|]. by eapply Hst. Qed.

End rules.

(** ** The invariant, and what the workers may rely on *)
Section logic.
Context `{Sha256} (cfg : workloadConfig) (scenario : string) (keys : list string) (values : workloadValues).
Context (N M : nat).
Hypothesis HM : MaxRequests cfg = Z.of_nat M.
Hypothesis M_bound : Z.of_nat M <= maxWorkloadRequests.
Hypothesis N_bound : Z.of_nat N <= maxWorkloadConcurrency.
Hypothesis values_wf : wfValues values.
Hypothesis values_keys : length (digests values) = length keys.
Hypothesis requests : ∀ op, 0 <= op < MaxRequests cfg →
  ∃ k read, workloadRequestAt scenario cfg op = Some (k, read) ∧ 0 <= k < Z.of_nat (length keys).

Notation stale := (staleRead values).
Notation wellOp := (wellIssued cfg scenario values).

Record inv (s : Run) : Prop := {
  iv_issued : issued s = Z.of_nat (length (claimed s));
  iv_owners : Forall (λ j, (j < N)%nat) (claimed s);
  iv_over : NoDup (drop M (claimed s));
  iv_ops : NoDup (evOp <$> log s);
  iv_taken : ∀ ev, ev ∈ log s → (evOp ev < M)%nat ∧ claimed s !! evOp ev = Some (evBy ev);
  iv_legal : legal cfg scenario values (log s);
  iv_length : length (keyStates s) = length keys;
  iv_free : ∀ k ks, keyStates s !! k = Some ks → kWriter ks = None → kVersion ks = acked k (log s);
  iv_excl : ∀ k ks j, keyStates s !! k = Some ks → kWriter ks = Some j → kReaders ks = ∅ ∧ (j < N)%nat
}.

(** What others leave alone: this worker's commands and claims, its locks, and the
    version and writes of a key it holds. *)
Record keyRely (i : nat) (k : nat) (s s' : Run) (ks ks' : workloadKeyState) : Prop := {
  kr_writer : kWriter ks = Some i ↔ kWriter ks' = Some i;
  kr_reader : i ∈ kReaders ks ↔ i ∈ kReaders ks';
  kr_held : kWriter ks = Some i ∨ i ∈ kReaders ks → kVersion ks' = kVersion ks ∧ acked k (log s') = acked k (log s)
}.

Record rely (i : nat) (s s' : Run) : Prop := {
  rl_log : ∃ new, log s' = new ++ log s ∧ Forall (λ ev, evBy ev ≠ i) new;
  rl_claimed : ∃ new, claimed s' = claimed s ++ new ∧ Forall (.≠ i) new;
  rl_keys : length (keyStates s') = length (keyStates s) ∧
    ∀ k ks ks', keyStates s !! k = Some ks → keyStates s' !! k = Some ks' → keyRely i k s s' ks ks'
}.

Definition guar (i : nat) (s s' : Run) : Prop := ∀ j, j ≠ i → rely j s s'.

Lemma rely_refl i s : rely i s s.
Proof.
  split; [by exists []|exists []; by rewrite app_nil_r|split; [done|]].
  intros k ks ks' H1 H2. rewrite H1 in H2. injection H2 as <-. done.
Qed.

#[local] Instance wrely_preorder i : PreOrder (rely i).
Proof.
  split; [intros s; apply rely_refl|].
  intros s1 s2 s3 [(n1 & L1 & F1) (c1 & C1 & G1) [K1 R1]] [(n2 & L2 & F2) (c2 & C2 & G2) [K2 R2]]. split.
  - exists (n2 ++ n1). rewrite L2, L1, app_assoc. split; [done|]. by apply Forall_app.
  - exists (c1 ++ c2). rewrite C2, C1, app_assoc. split; [done|]. by apply Forall_app.
  - split; [congruence|]. intros k ks ks3 H1 H3.
    destruct (lookup_lt_is_Some_2 (keyStates s2) k) as [ks2 H2]; [rewrite K1; by eapply lookup_lt_Some|].
    destruct (R1 k ks ks2 H1 H2) as [A1 A2 A3], (R2 k ks2 ks3 H2 H3) as [B1 B2 B3].
    split; [by rewrite A1|by rewrite A2|]. intros Hh. destruct (A3 Hh) as [E1 E2]. rewrite <-E1, <-E2. apply B3. by rewrite <-A1, <-A2.
Qed.

Notation tick_ok := (λ (_ : Run) (_ : Tick), True).
Notation hoareW := (hoare tick_ok inv rely guar).
Notation stable i Φ := (stableAt inv rely i Φ).

(** ** Where a worker is *)

(** The locks it holds, the counts of its commands, and that it may still take an
    operation. *)
Definition holds (i : nat) (lk : option (nat * bool)) (s : Run) : Prop :=
  ∀ k ks, keyStates s !! k = Some ks →
    (kWriter ks = Some i ↔ lk = Some (k, true)) ∧ (i ∈ kReaders ks ↔ lk = Some (k, false)).

Definition counters (i : nat) (s : Run) : Z * Z * Z * Z :=
  (count (byWorker i (goodRead values)) (log s), count (byWorker i goodWrite) (log s),
   count (byWorker i (failedOp values)) (log s), count (byWorker i stale) (log s)).

Record at_ (i : nat) (lk : option (nat * bool)) (c : Z * Z * Z * Z) (n : Z) (s : Run) : Prop := {
  at_holds : holds i lk s;
  at_counters : counters i s = c;
  at_done : count (byWorker i (λ _ _, true)) (log s) = n
}.

(** It has not been told to stop. *)
Definition active (i : nat) (s : Run) : Prop := i ∉ drop M (claimed s).

(** It has taken operation [op] and not issued its command. *)
Definition taken (i op : nat) (s : Run) : Prop :=
  (op < M)%nat ∧ claimed s !! op = Some i ∧ ∀ ev, ev ∈ log s → evBy ev = i → evOp ev ≠ op.

(** It holds key [k], at version [v] with [a] acknowledged writes. *)
Definition keyAt (i k : nat) (v a : Z) (s : Run) : Prop :=
  ∃ ks, keyStates s !! k = Some ks ∧ kVersion ks = v ∧ acked k (log s) = a ∧ (kWriter ks = Some i ∨ i ∈ kReaders ks).

Lemma at_stable i lk c n : stable i (at_ i lk c n).
Proof.
  intros s s1 [Hh Hc Hd] [(new & L & F) _ [K R]] _. split.
  - intros k ks1 H1. destruct (lookup_lt_is_Some_2 (keyStates s) k) as [ks H0]; [rewrite <-K; by eapply lookup_lt_Some|].
    destruct (R k ks ks1 H0 H1) as [A1 A2 _]. rewrite <-A1, <-A2. by apply Hh.
  - unfold counters in *. rewrite L, !count_others by done. done.
  - by rewrite L, count_others.
Qed.

Lemma active_stable i : stable i (active i).
Proof.
  intros s s1 Ha [_ (new & C & G) _] _. unfold active in *. rewrite C. rewrite drop_app. intros Hin.
  apply elem_of_app in Hin as [?|Hin]; [done|]. apply (subseteq_drop _ new) in Hin.
  rewrite Forall_forall in G. by apply (G i Hin).
Qed.

Lemma taken_stable i op : stable i (taken i op).
Proof.
  intros s s1 (Hm & Hc & Hl) [(new & L & F) (newc & C & G) _] _. split_and!; [done|rewrite C; by apply lookup_app_l_Some|].
  intros ev. rewrite L, elem_of_app. intros [Hin|Hin]; [|by apply Hl]. rewrite Forall_forall in F. by intros []%(F ev Hin).
Qed.

Lemma keyAt_stable i k v a : stable i (keyAt i k v a).
Proof.
  intros s s1 (ks & H1 & Hv & Ha & Hh) [_ _ [K R]] _.
  destruct (lookup_lt_is_Some_2 (keyStates s1) k) as [ks1 H2]; [rewrite K; by eapply lookup_lt_Some|].
  destruct (R k ks ks1 H1 H2) as [A1 A2 A3]. destruct (A3 Hh) as [E1 E2].
  exists ks1. rewrite E1, E2, <-A1, <-A2. done.
Qed.

Lemma wand_stable i (Φ Ψ : Run → Prop) : stable i Φ → stable i Ψ → stable i (λ s, Φ s ∧ Ψ s).
Proof. intros H1 H2 s s1 [? ?] Hr HI. split; [by eapply H1|by eapply H2]. Qed.
Lemma wpure_stable i (φ : Prop) : stable i (λ _, φ).
Proof. by intros s s1. Qed.

Local Ltac stb :=
  repeat first [apply at_stable | apply active_stable | apply taken_stable | apply keyAt_stable | apply wpure_stable
               | apply wand_stable].

(** ** Bounds *)

Lemma claimed_bound s : inv s → (length (claimed s) <= M + N)%nat.
Proof.
  intros HI. assert (Hd : (length (drop M (claimed s)) <= N)%nat).
  { apply NoDup_below; [by apply iv_over|]. apply Forall_drop. by apply iv_owners. }
  rewrite length_drop in Hd. lia.
Qed.

Lemma log_bound s : inv s → (length (log s) <= M)%nat.
Proof.
  intros HI. rewrite <-(length_fmap evOp). apply NoDup_below; [by apply iv_ops|].
  apply Forall_fmap, Forall_forall. intros ev Hev. by apply (iv_taken s HI).
Qed.

(** ** Actions *)

Lemma guar_refl i s : guar i s s.
Proof. intros j _. apply rely_refl. Qed.

Lemma w_read {A} i Φ (f : Tick → A) : stable i Φ → hoareW i Φ (act (λ _ e s, Some (s, f e))) (λ _, Φ).
Proof.
  intros Hst. apply hoare_act; [done|done|]. intros s e s' a HI Hs _ [= <- <-].
  split_and!; [done|apply guar_refl|done].
Qed.

Lemma w_issue i c n : (i < N)%nat →
  hoareW i (λ s, at_ i None c n s ∧ active i s) issue
    (λ o s, at_ i None c n s ∧ (o < MaxRequests cfg → active i s ∧ 0 <= o ∧ taken i (Z.to_nat o) s)).
Proof.
  intros Hi. unfold maxWorkloadRequests, maxWorkloadConcurrency in *.
  apply hoare_act; [stb|intros o s s1 [Ha Ho] Hr HI; split; [by eapply at_stable|]; intros Hlt;
    destruct (Ho Hlt) as (H1 & H2 & H3); split_and!; [by eapply active_stable|done|by eapply taken_stable]|].
  intros s e s' o HI [Ha Hact] _ Heq. pose proof (claimed_bound s HI) as Hb. pose proof (iv_issued s HI) as His.
  cbv zeta in Heq. rewrite (u64_id (issued s + 1)) in Heq by width_lia.
  replace (issued s + 1 - 1) with (issued s) in Heq by lia. rewrite (u64_id (issued s)) in Heq by width_lia.
  injection Heq as <- <-. pose proof (iv_taken s HI) as Htk.
  split_and!.
  - destruct HI as [Q1 Q2 Q3 Q4 Q5 Q6 Q7 Q8 Q9]. split; simpl; try done.
    + rewrite length_app. simpl. lia.
    + apply Forall_app. split; [done|]. by apply Forall_singleton.
    + rewrite drop_app. apply NoDup_app. split_and!; [done| |].
      * intros x Hx Hx1. apply (subseteq_drop _ [i]), list_elem_of_singleton in Hx1. by subst.
      * destruct (M - length (claimed s))%nat; simpl; [apply NoDup_singleton|rewrite drop_nil; apply NoDup_nil_2].
    + intros ev Hev. destruct (Q5 ev Hev) as [H1 H2]. split; [done|]. by apply lookup_app_l_Some.
  - intros j Hj. split; simpl; [by exists []|exists [i]; by rewrite Forall_singleton|].
    split; [done|]. intros k ks ks' E1 E2. rewrite E1 in E2. injection E2 as <-. done.
  - destruct Ha as [? ? ?]. by split.
  - intros Ho. assert (Hlt : (length (claimed s) < M)%nat) by lia. unfold active. simpl.
    rewrite drop_ge by (rewrite length_app; simpl; lia). split_and!; [apply not_elem_of_nil|lia|].
    replace (Z.to_nat (issued s)) with (length (claimed s)) by lia. split_and!; [done| |].
    + simpl. by apply list_lookup_middle.
    + simpl. intros ev Hev _. destruct (Htk ev Hev) as [_ Hc]. apply lookup_lt_Some in Hc. lia.
Qed.

(** Changing the state of one key. *)
Definition withKey (s : Run) (k : nat) (ks : workloadKeyState) : Run :=
  mkRun (issued s) (<[k := ks]> (keyStates s)) (claimed s) (log s).

Lemma withKey_lookup s k ks ks' k' x :
  keyStates s !! k = Some ks → keyStates (withKey s k ks') !! k' = Some x →
  (k' = k ∧ x = ks') ∨ (k' ≠ k ∧ keyStates s !! k' = Some x).
Proof.
  intros Hk. simpl. destruct (decide (k' = k)) as [->|Hne].
  - rewrite list_lookup_insert_eq by (by eapply lookup_lt_Some). intros [= <-]. by left.
  - rewrite list_lookup_insert_ne by done. by right.
Qed.

Lemma withKey_ok i s k ks ks' :
  inv s → keyStates s !! k = Some ks →
  (kWriter ks' = None → kVersion ks' = acked k (log s)) →
  (∀ j, kWriter ks' = Some j → kReaders ks' = ∅ ∧ (j < N)%nat) →
  (∀ j, j ≠ i → keyRely j k s (withKey s k ks') ks ks') →
  inv (withKey s k ks') ∧ guar i s (withKey s k ks').
Proof.
  intros [Q1 Q2 Q3 Q4 Q5 Q6 Q7 Q8 Q9] Hk Hv Hw Hj. split.
  - split; try done.
    + simpl. by rewrite length_insert.
    + intros k' x Hx. apply (withKey_lookup s k ks ks' k' x Hk) in Hx as [[-> ->]|[Hne Hx]]; [done|]. by apply Q8.
    + intros k' x j Hx. apply (withKey_lookup s k ks ks' k' x Hk) in Hx as [[-> ->]|[Hne Hx]]; [by apply Hw|]. by eapply Q9.
  - intros j Hne. split; [by exists []|exists []; by rewrite app_nil_r|].
    split; [simpl; by rewrite length_insert|]. intros k' x x' Hx Hx'.
    apply (withKey_lookup s k ks ks' k' x' Hk) in Hx' as [[-> ->]|[Hne' Hx']]; [|rewrite Hx in Hx'; by injection Hx' as <-].
    rewrite Hk in Hx. injection Hx as <-. by apply Hj.
Qed.

Lemma w_onKey i k free f Φ Ψ :
  stable i Φ → stable i Ψ →
  (∀ s ks, inv s → Φ s → keyStates s !! k = Some ks → free ks = true →
     (inv (withKey s k (f i ks)) ∧ guar i s (withKey s k (f i ks))) ∧ Ψ (withKey s k (f i ks))) →
  hoareW i Φ (onKey k free f) (λ _, Ψ).
Proof.
  intros HΦ HΨ Hf. apply hoare_act; [done|done|]. intros s e s' [] HI Hs _ Heq.
  destruct (keyStates s !! k) as [ks|] eqn:Hk; [|discriminate]. simpl in Heq.
  destruct (free ks) eqn:Hfr; [|discriminate]. injection Heq as <-.
  destruct (Hf s ks HI Hs Hk Hfr) as [[??]?]. by split_and!.
Qed.

(** Its locks after a change of one key. *)
Lemma holds_withKey i s k ks ks' lk lk' :
  keyStates s !! k = Some ks → holds i lk s →
  (kWriter ks' = Some i ↔ lk' = Some (k, true)) → (i ∈ kReaders ks' ↔ lk' = Some (k, false)) →
  (∀ k' b, k' ≠ k → lk' = Some (k', b) ↔ lk = Some (k', b)) →
  holds i lk' (withKey s k ks').
Proof.
  intros Hk Hh Hw Hr Hlk k' x Hx. apply (withKey_lookup s k ks ks' k' x Hk) in Hx as [[-> ->]|[Hne Hx]]; [done|].
  destruct (Hh k' x Hx) as [A B]. by rewrite !Hlk.
Qed.

Lemma at_withKey i s k ks' lk lk' c n :
  at_ i lk c n s → holds i lk' (withKey s k ks') → at_ i lk' c n (withKey s k ks').
Proof. intros [? ? ?] Hh. by split. Qed.

Definition keyOf (lk : option (nat * bool)) (k : nat) : Prop := ∀ k' b, lk = Some (k', b) → k' = k.

Lemma other_keys lk lk' k : keyOf lk k → keyOf lk' k → ∀ k' b, k' ≠ k → lk' = Some (k', b) ↔ lk = Some (k', b).
Proof. intros H1 H2 k' b Hne. split; intros Hl; exfalso; apply Hne; [by eapply H2|by eapply H1]. Qed.

Lemma keyOf_none k : keyOf None k.
Proof. by intros k' b. Qed.
Lemma keyOf_some k b : keyOf (Some (k, b)) k.
Proof. intros k' b' [= <- <-]. done. Qed.

Lemma w_RLock i k c n op :
  hoareW i (λ s, at_ i None c n s ∧ active i s ∧ taken i op s) (RLock k)
    (λ _ s, ∃ v, (at_ i (Some (k, false)) c n s ∧ active i s ∧ taken i op s) ∧ keyAt i k v v s).
Proof.
  apply w_onKey; [stb|intros s s1 (v & Hs) Hr HI; exists v; revert Hr HI; revert s s1 Hs; apply wand_stable; stb|].
  intros s ks HI (Ha & Hact & Ht) Hk Hfree. apply bool_decide_eq_true in Hfree.
  pose proof (iv_free s HI k ks Hk Hfree) as Hv. split.
  - eapply withKey_ok; [done|done|by intros _|intros j; simpl; congruence|].
    intros j Hj. split; simpl; [done|set_solver|done].
  - exists (kVersion ks). split_and!; [|done|done|].
    + eapply at_withKey; [done|]. eapply holds_withKey; [done|apply Ha|simpl; rewrite Hfree|simpl; set_solver|].
      * split; congruence.
      * apply other_keys; [apply keyOf_none|apply keyOf_some].
    + exists (mkKeyState (kVersion ks) (kWriter ks) ({[i]} ∪ kReaders ks)). simpl.
      rewrite list_lookup_insert_eq by (by eapply lookup_lt_Some). split_and!; [done|done|done|set_solver].
Qed.

Lemma w_RUnlock i k c n :
  hoareW i (λ s, at_ i (Some (k, false)) c n s ∧ active i s) (RUnlock k) (λ _ s, at_ i None c n s ∧ active i s).
Proof.
  apply w_onKey; [stb|stb|]. intros s ks HI [Ha Hact] Hk _.
  destruct (at_holds _ _ _ _ _ Ha k ks Hk) as [Hw Hr].
  assert (Hin : i ∈ kReaders ks) by (by apply Hr).
  assert (Hnw : kWriter ks = None).
  { destruct (kWriter ks) as [j|] eqn:Ew; [|done]. destruct (iv_excl s HI k ks j Hk Ew) as [He _]. set_solver. }
  split.
  - eapply withKey_ok; [done|done|intros _; by apply (iv_free s HI k ks)|intros j; simpl; congruence|].
    intros j Hj. split; simpl; [done|set_solver|done].
  - split; [|done]. eapply at_withKey; [done|]. eapply holds_withKey; [done|apply Ha|simpl; rewrite Hnw; split; congruence|simpl; set_solver|].
    apply other_keys; [apply keyOf_some|apply keyOf_none].
Qed.

Lemma w_Lock i k c n op : (i < N)%nat →
  hoareW i (λ s, at_ i None c n s ∧ active i s ∧ taken i op s) (Lock k)
    (λ _ s, ∃ v, (at_ i (Some (k, true)) c n s ∧ active i s ∧ taken i op s) ∧ keyAt i k v v s).
Proof.
  intros Hi.
  apply w_onKey; [stb|intros s s1 (v & Hs) Hr HI; exists v; revert Hr HI; revert s s1 Hs; apply wand_stable; stb|].
  intros s ks HI (Ha & Hact & Ht) Hk [Hfree Hnr]%andb_true_iff.
  apply bool_decide_eq_true in Hfree. apply bool_decide_eq_true in Hnr.
  pose proof (iv_free s HI k ks Hk Hfree) as Hv. split.
  - eapply withKey_ok; [done|done|done|by intros j [= <-]|].
    intros j Hj. split; simpl; [rewrite Hfree; split; congruence|done|].
    rewrite Hfree, Hnr. set_solver.
  - exists (kVersion ks). split_and!; [|done|done|].
    + eapply at_withKey; [done|]. eapply holds_withKey; [done|apply Ha|simpl..|].
      * done.
      * rewrite Hnr. split; [set_solver|congruence].
      * apply other_keys; [apply keyOf_none|apply keyOf_some].
    + exists (mkKeyState (kVersion ks) (Some i) (kReaders ks)). simpl.
      rewrite list_lookup_insert_eq by (by eapply lookup_lt_Some). split_and!; [done|done|done|by left].
Qed.

Lemma keyAt_writer i k v a c n s ks :
  at_ i (Some (k, true)) c n s → keyAt i k v a s → keyStates s !! k = Some ks →
  kWriter ks = Some i ∧ kVersion ks = v ∧ acked k (log s) = a.
Proof.
  intros Ha (ks' & Hk' & Hv & Hac & _) Hk. rewrite Hk in Hk'. injection Hk' as <-.
  split_and!; [|done..]. by apply (at_holds _ _ _ _ _ Ha k ks Hk).
Qed.

Lemma w_setVersion i k v v' a c n :
  hoareW i (λ s, (at_ i (Some (k, true)) c n s ∧ active i s) ∧ keyAt i k v a s) (setVersion k v')
    (λ _ s, (at_ i (Some (k, true)) c n s ∧ active i s) ∧ keyAt i k v' a s).
Proof.
  apply w_onKey; [stb|stb|]. intros s ks HI [[Ha Hact] Hat] Hk _.
  destruct (keyAt_writer _ _ _ _ _ _ _ _ Ha Hat Hk) as (Hw & Hv & Hac).
  destruct (iv_excl s HI k ks i Hk Hw) as [Hnr Hi]. split.
  - eapply withKey_ok; [done|done|simpl; congruence|simpl; intros j; rewrite Hw; by intros [= <-]|].
    intros j Hj. split; simpl; [done|done|]. rewrite Hw, Hnr. set_solver.
  - split_and!; [|done|].
    + eapply at_withKey; [done|]. destruct (at_holds _ _ _ _ _ Ha k ks Hk) as [H1 H2].
      eapply holds_withKey; [done|apply Ha|done|done|done].
    + eexists. simpl. rewrite list_lookup_insert_eq by (by eapply lookup_lt_Some). split_and!; [done..|by left].
Qed.

Lemma w_Unlock i k v c n :
  hoareW i (λ s, (at_ i (Some (k, true)) c n s ∧ active i s) ∧ keyAt i k v v s) (Unlock k)
    (λ _ s, at_ i None c n s ∧ active i s).
Proof.
  apply w_onKey; [stb|stb|]. intros s ks HI [[Ha Hact] Hat] Hk _.
  destruct (keyAt_writer _ _ _ _ _ _ _ _ Ha Hat Hk) as (Hw & Hv & Hac).
  destruct (iv_excl s HI k ks i Hk Hw) as [Hnr Hi]. split.
  - eapply withKey_ok; [done|done|simpl; congruence|simpl; congruence|].
    intros j Hj. split; simpl; [rewrite Hw; split; congruence|done|]. rewrite Hw, Hnr. set_solver.
  - split; [|done]. eapply at_withKey; [done|]. eapply holds_withKey; [done|apply Ha|done|simpl; rewrite Hnr; set_solver|].
    apply other_keys; [apply keyOf_some|apply keyOf_none].
Qed.

Lemma w_loadVersion i Φ k v a : stable i Φ →
  hoareW i (λ s, Φ s ∧ keyAt i k v a s) (loadVersion k) (λ v' s, (Φ s ∧ keyAt i k v a s) ∧ v' = v).
Proof.
  intros Hst. apply hoare_act; [by repeat apply wand_stable; stb|intros; by repeat apply wand_stable; stb|].
  intros s e s' v' HI [HΦ Hat] _ Heq. destruct Hat as (ks & Hk & Hv & Hr). rewrite Hk in Heq. injection Heq as <- <-.
  split_and!; [done|apply guar_refl|done|by exists ks|done].
Qed.

(** Issuing a command. *)
Lemma logged_ok i op s ev :
  inv s → taken i op s → evBy ev = i → evOp ev = op → wellOp ev (log s) = true →
  (∀ k ks, ackedBy k ev (log s) = true → keyStates s !! k = Some ks → kWriter ks = Some i) →
  inv (logged s ev) ∧ guar i s (logged s ev).
Proof.
  intros HI (Hm & Hc & Hn) Hby Hop Hwell Hack. pose proof HI as [Q1 Q2 Q3 Q4 Q5 Q6 Q7 Q8 Q9].
  assert (Hsame : ∀ k ks, keyStates s !! k = Some ks → kWriter ks ≠ Some i → acked k (ev :: log s) = acked k (log s)).
  { intros k ks Hk Hw. unfold acked. cbn. destruct (ackedBy k ev (log s)) eqn:Ea; [|lia]. by destruct Hw, (Hack k ks). }
  split.
  - split; try done; simpl.
    + apply NoDup_cons. split; [|done]. intros (ev' & He & Hev')%list_elem_of_fmap.
      destruct (Q5 ev' Hev') as [_ Hcl]. apply (Hn ev' Hev'); [|congruence]. rewrite <-He, Hop, Hc in Hcl. by injection Hcl.
    + intros ev'. rewrite elem_of_cons. intros [->|Hev']; [|by apply Q5]. by rewrite Hop, Hby.
    + unfold legal in *. cbn -[Z.of_nat]. rewrite Hwell. lia.
    + intros k ks Hk Hw. rewrite (Hsame k ks Hk) by congruence. by apply Q8.
  - intros j Hj. split; simpl; [exists [ev]; split; [done|apply Forall_singleton; congruence]|exists []; by rewrite app_nil_r|].
    split; [done|]. intros k ks ks' Hk Hk'. rewrite Hk in Hk'. injection Hk' as <-. split; [done|done|].
    intros Hh. split; [done|]. apply (Hsame k ks Hk). intros Hw. destruct (Q9 k ks i Hk Hw) as [Hnr _].
    destruct Hh as [Hh|Hh]; [congruence|set_solver].
Qed.

(** What an operation adds to the counters. *)
Definition verdict (read err mismatch : bool) : Z * Z * Z * Z :=
  if err || mismatch then (0, 0, 1, if mismatch then 1 else 0) else if read then (1, 0, 0, 0) else (0, 1, 0, 0).
Definition plus4 (a b : Z * Z * Z * Z) : Z * Z * Z * Z :=
  let '(a1, a2, a3, a4) := a in let '(b1, b2, b3, b4) := b in (a1 + b1, a2 + b2, a3 + b3, a4 + b4).

Lemma at_logged i lk c n s ev d :
  at_ i lk c n s → evBy ev = i →
  d = ((if goodRead values ev (log s) then 1 else 0), (if goodWrite ev (log s) then 1 else 0),
       (if failedOp values ev (log s) then 1 else 0), (if stale ev (log s) then 1 else 0)) →
  at_ i lk (plus4 d c) (1 + n) (logged s ev).
Proof.
  intros [Hh Hc Hd] Hby ->. split; [done| |].
  - unfold counters in *. subst c. simpl. unfold byWorker at 1 3 5 7. by rewrite (bool_decide_eq_true_2 _ Hby).
  - simpl. unfold byWorker at 1. rewrite (bool_decide_eq_true_2 _ Hby). simpl. lia.
Qed.

(** Whether the reply to a GET is not the payload of version [v]. *)
Definition wrongReply (k : nat) (v : Z) (reply : option bytes) : bool :=
  match reply with Some value => negb (bool_decide (filled values k v [] = Some value)) | None => false end.

Lemma w_clientGet i k v c n op :
  workloadRequestAt scenario cfg (Z.of_nat op) = Some (Z.of_nat k, true) →
  hoareW i (λ s, (at_ i (Some (k, false)) c n s ∧ active i s ∧ taken i op s) ∧ keyAt i k v v s) (clientGet op k)
    (λ reply s, at_ i (Some (k, false)) (plus4 (verdict true (bool_decide (reply = None)) (wrongReply k v reply)) c) (1 + n) s
                ∧ active i s).
Proof.
  intros Hreq. apply hoare_act; [stb|intros; stb|]. intros s e s' reply HI [(Ha & Hact & Ht) Hat] _ [= <- <-].
  destruct (logged_ok i op s (EvGet i op k (tGet e)) HI Ht eq_refl eq_refl) as [HI' Hg].
  - unfold wellIssued. cbn. rewrite bool_decide_eq_true_2 by done. done.
  - done.
  - split_and!; [done|done| |done]. eapply at_logged; [done|done|]. destruct Hat as (_ & _ & _ & Hac & _).
    unfold verdict, wrongReply, failedOp, goodRead, goodWrite, staleRead. rewrite Hac.
    destruct (tGet e) as [value|]; [|done]. cbn [is_Some]. rewrite (bool_decide_eq_false_2 (Some value = None)) by done.
    by destruct (bool_decide _).
Qed.

Lemma w_clientSet i k v c n op value :
  workloadRequestAt scenario cfg (Z.of_nat op) = Some (Z.of_nat k, false) →
  filled values k (v + 1) [] = Some value →
  hoareW i (λ s, (at_ i (Some (k, true)) c n s ∧ active i s ∧ taken i op s) ∧ keyAt i k v v s) (clientSet op k value)
    (λ ok s, (at_ i (Some (k, true)) (plus4 (verdict false (negb ok) false) c) (1 + n) s ∧ active i s)
             ∧ keyAt i k v (if ok : bool then v + 1 else v) s).
Proof.
  intros Hreq Hfill. apply hoare_act; [stb|intros; stb|]. intros s e s' ok HI [(Ha & Hact & Ht) Hat] _ [= <- <-].
  pose proof Hat as (ks & Hk & Hv & Hac & Hh).
  destruct (keyAt_writer _ _ _ _ _ _ _ _ Ha Hat Hk) as (Hw & _ & _).
  destruct (logged_ok i op s (EvSet i op k value (tSet e)) HI Ht eq_refl eq_refl) as [HI' Hg].
  - unfold wellIssued. cbn. rewrite Hac. by rewrite !bool_decide_eq_true_2.
  - intros k' ks' Hab Hk'. cbn in Hab. destruct (tSet e); [|done]. apply bool_decide_eq_true in Hab as ->. congruence.
  - split_and!; [done|done| |done|].
    + eapply at_logged; [done|done|]. unfold verdict, failedOp, goodRead, goodWrite, staleRead. by destruct (tSet e).
    + exists ks. split_and!; [done|done| |done]. unfold acked in *. cbn. destruct (tSet e); [|lia].
      rewrite bool_decide_eq_true_2 by done. lia.
Qed.

Lemma w_bind {A B} i Φ (p : P A) (q : A → P B) Ξ Ψ :
  hoareW i Φ p Ξ → (∀ a, hoareW i (Ξ a) (q a) Ψ) → hoareW i Φ (p ≫= q) Ψ.
Proof. apply hoare_bind. apply _. Qed.

Lemma keyAt_range i k v s : inv s → keyAt i k v v s → 0 <= v <= Z.of_nat M.
Proof.
  intros HI (ks & _ & _ & Hac & _). pose proof (log_bound s HI). pose proof (count_range (ackedBy k) (log s)).
  unfold acked in Hac. lia.
Qed.

Lemma digests_some k : (k < length keys)%nat → ∃ d, digests values !! k = Some d.
Proof. intros Hk. destruct (lookup_lt_is_Some_2 (digests values) k) as [d Hd]; [lia|]. by exists d. Qed.

(** How an operation leaves its worker. *)
Definition ended (i : nat) (read : bool) (c : Z * Z * Z * Z) (n : Z) (r : opResult) (s : Run) : Prop :=
  (at_ i None (plus4 (verdict read (oErr r) (oMismatch r)) c) (1 + n) s ∧ active i s).

Local Ltac step := eapply w_bind; [|intros ?].
Local Ltac w_now := eapply w_bind; [apply w_read; stb|intros ?].

Lemma w_readOp i k c n op t buffer :
  (k < length keys)%nat → workloadRequestAt scenario cfg (Z.of_nat op) = Some (Z.of_nat k, true) →
  hoareW i (λ s, at_ i None c n s ∧ active i s ∧ taken i op s) (readOp values op k t buffer) (ended i true c n).
Proof.
  intros Hk Hreq. destruct (digests_some k Hk) as [d Hd]. unfold readOp.
  step; [apply w_RLock|]. apply w_exists. intros v. w_now. step; [apply w_loadVersion; stb|].
  apply w_pure. intros ->.
  eapply (w_fact _ _ _ _ _ _ (0 <= v <= Z.of_nat M)); [intros s HI [_ Hat]; by eapply keyAt_range|]. intros Hv.
  unfold maxWorkloadRequests in M_bound. w_now. eapply w_bind; [by apply w_clientGet|intros reply]. w_now.
  assert (Hm : (match reply with Some value => negb <$> Matches values k v value | None => Some false end)
    = Some (wrongReply k v reply)).
  { unfold wrongReply. destruct reply as [value|]; [|done]. by rewrite (Matches_spec values k d v [] value) by (done || width_lia). }
  rewrite Hm. step; [apply w_RUnlock|].
  apply w_ret; [stb|done].
Qed.

Lemma w_writeOp i k c n op t buffer : (i < N)%nat →
  (k < length keys)%nat → workloadRequestAt scenario cfg (Z.of_nat op) = Some (Z.of_nat k, false) →
  hoareW i (λ s, at_ i None c n s ∧ active i s ∧ taken i op s) (writeOp values op k t buffer) (ended i false c n).
Proof.
  intros Hi Hk Hreq. destruct (digests_some k Hk) as [d Hd]. unfold writeOp.
  step; [by apply w_Lock|]. apply w_exists. intros v. w_now. step; [apply w_loadVersion; stb|].
  apply w_pure. intros ->.
  eapply (w_fact _ _ _ _ _ _ (0 <= v <= Z.of_nat M)); [intros s HI [_ Hat]; by eapply keyAt_range|]. intros Hv.
  unfold maxWorkloadRequests in M_bound. rewrite (u64_id (v + 1)) by width_lia.
  destruct (payload_any values k d (v + 1) values_wf Hd ltac:(width_lia)) as (value & Hf).
  pose proof (Hf buffer) as Hb. unfold filled in Hb. destruct (Fill values k (v + 1) buffer) as [buffer'|]; [|done].
  cbn in Hb. injection Hb as ->. w_now. eapply w_bind; [by apply w_clientSet|intros ok]. w_now.
  eapply w_bind with (Ξ := λ _ s, (at_ i (Some (k, true)) (plus4 (verdict false (negb ok) false) c) (1 + n) s ∧ active i s)
    ∧ keyAt i k (if ok : bool then v + 1 else v) (if ok then v + 1 else v) s).
  { destruct ok; [apply w_setVersion|]. apply w_ret; [stb|done]. }
  intros _. step; [apply w_Unlock|].
  apply w_ret; [stb|done].
Qed.

(** A worker's result agrees with the counts [c], sample by sample. *)
Record tallied (w : workloadWorkerResult) (c : Z * Z * Z * Z) : Prop := {
  tl_counters : (reads w, writes w, failures w, valueMismatches w) = c;
  tl_reads : Z.of_nat (length (readLatencies w)) = reads w ∧ Z.of_nat (length (readOrderingWaits w)) = reads w;
  tl_writes : Z.of_nat (length (writeLatencies w)) = writes w ∧ Z.of_nat (length (writeOrderingWaits w)) = writes w;
  tl_all : Z.of_nat (length (latencies w)) = reads w + writes w
}.

Definition small (z : Z) : Prop := 0 <= z <= Z.of_nat M.

Lemma counters_small i s : inv s → let '(r, w, f, m) := counters i s in small r ∧ small w ∧ small f ∧ small m.
Proof.
  intros HI. pose proof (log_bound s HI). unfold counters, small.
  split_and!; match goal with |- context [count ?f ?l] => pose proof (count_range f l) end; lia.
Qed.

Lemma countOp_tallied w c read elapsed r :
  tallied w c → (let '(a, b, f, m) := c in small a ∧ small b ∧ small f ∧ small m) →
  tallied (countOp w read elapsed r) (plus4 (verdict read (oErr r) (oMismatch r)) c).
Proof.
  intros [Hc [H1 H2] [H3 H4] H5] Hs. subst c. destruct Hs as (A & B & C & D). unfold small, maxWorkloadRequests in *.
  unfold countOp, verdict. destruct (oErr r), (oMismatch r), read; simpl; split; simpl;
    rewrite ?length_app; simpl; rewrite ?u64_id by width_lia; rewrite ?pair_equal_spec; split_and?; lia.
Qed.

(** A worker that has returned. *)
Definition returned (i : nat) (w : workloadWorkerResult) (s : Run) : Prop := ∃ c n, at_ i None c n s ∧ tallied w c.

Lemma returned_stable i w : stable i (returned i w).
Proof. intros s s1 (c & n & Ha & Hw) Hr HI. exists c, n. split; [by eapply at_stable|done]. Qed.

Lemma w_loop i fuel w c n buffer : (i < N)%nat → tallied w c → Z.of_nat M < n + Z.of_nat fuel →
  hoareW i (λ s, at_ i None c n s ∧ active i s) (workerLoop cfg scenario keys values fuel w buffer) (returned i).
Proof.
  intros Hi. revert w c n buffer. induction fuel as [|fuel IH]; intros w c n buffer Hw Hf.
  - intros s HI [[_ _ Hd] _]. pose proof (log_bound s HI). pose proof (count_range (byWorker i (λ _ _, true)) (log s)). lia.
  - eapply (w_fact _ _ _ _ _ _ (let '(a, b, f, m) := c in small a ∧ small b ∧ small f ∧ small m));
      [intros s HI [[_ <- _] _]; by apply counters_small|]. intros Hsm.
    cbn [workerLoop]. eapply w_bind; [apply w_read; stb|intros expired].
    destruct expired; [apply w_ret; [stb|]; intros s _ [Ha _]; by exists c, n|].
    eapply w_bind; [by apply w_issue|intros o]. unfold maxWorkloadRequests in M_bound.
    rewrite (u64_id (MaxRequests cfg)) by width_lia. destruct (Z.leb_spec (MaxRequests cfg) o) as [Hge|Hlt].
    { eapply hoare_pre; [apply (w_ret _ _ _ _ i (at_ i None c n)); [stb|]; intros s _ Ha; by exists c, n|]. by intros s _ [Ha _]. }
    eapply hoare_pre with (Φ' := λ s, (at_ i None c n s ∧ active i s ∧ taken i (Z.to_nat o) s) ∧ 0 <= o).
    2:{ intros s _ [Ha Ho]. destruct (Ho Hlt) as (?&?&?). by split_and!. }
    apply w_pure. intros Ho. destruct (requests o (conj Ho Hlt)) as (k & read & Hreq & Hk). rewrite Hreq.
    w_now. destruct (Z.ltb_spec k 0); [lia|]. destruct (Z.leb_spec (Z.of_nat (length keys)) k); [lia|]. cbn [orb].
    assert (Hreq' : workloadRequestAt scenario cfg (Z.of_nat (Z.to_nat o)) = Some (Z.of_nat (Z.to_nat k), read))
      by (by rewrite !Z2Nat.id by lia).
    eapply w_bind with (Ξ := ended i read c n); [destruct read; [apply w_readOp|apply w_writeOp]; done || lia|].
    intros r. unfold ended. w_now.
    apply IH; [by apply countOp_tallied|lia].
Qed.

(** ** Every interleaving *)

Notation reaches := (phaseReaches cfg scenario keys values).
Hypothesis HN : Z.to_nat (Concurrency cfg) = N.

Definition workersOk (c : Run * list (P workloadWorkerResult)) : Prop :=
  length c.2 = N ∧ pool_ok tick_ok inv rely guar (λ _ _, True) returned c.

Lemma started_inv : inv (started keys).
Proof.
  split; simpl; try done.
  - by rewrite drop_nil; apply NoDup_nil_2.
  - apply NoDup_nil_2.
  - by intros ev []%not_elem_of_nil.
  - by rewrite length_replicate.
  - intros k ks [-> _]%lookup_replicate _. done.
  - intros k ks j [-> _]%lookup_replicate. done.
Qed.

Lemma started_ok : workersOk (started keys, replicate N (worker cfg scenario keys values)).
Proof.
  split; [simpl; by rewrite length_replicate|]. split_and!; [apply started_inv|done|]. simpl.
  intros i p [-> Hi]%lookup_replicate. apply w_loop with (c := (0, 0, 0, 0)) (n := 0); [done|by split|lia|apply started_inv|].
  split; [split|]; simpl; try done.
  - intros k ks [-> _]%lookup_replicate. simpl. split; [done|set_solver].
  - unfold active. simpl. rewrite drop_nil. apply not_elem_of_nil.
Qed.

Lemma phase_workersOk c : reaches c → workersOk c.
Proof.
  unfold phaseReaches. rewrite HN. intros Hr. remember (started keys, replicate N _) as c0 eqn:Hc0.
  assert (H0 : workersOk c0) by (subst c0; apply started_ok). clear Hc0. induction Hr as [|c0 c1 c2 Hstep _ IH]; [done|].
  apply IH. destruct H0 as [Hl Hok]. split.
  - destruct Hstep as [s ps i f e s' p' _ _ _|]; [simpl in *; by rewrite length_insert|done].
  - eapply (pstep_pool_ok tick_ok inv rely guar); [..|exact Hok|exact Hstep]; [intros i j s s' Hne Hg; by apply Hg|done|done].
Qed.

Lemma phase_no_panic c i : reaches c → c.2 !! i ≠ Some Panic.
Proof. intros Hr Hi. destruct (phase_workersOk c Hr) as (_ & _ & _ & Hs). exact (Hs i _ Hi). Qed.

Lemma phase_inv c : reaches c → inv c.1.
Proof. intros Hr. by destruct (phase_workersOk c Hr) as (_ & HI & _). Qed.

Lemma phase_returned s results :
  phaseEnds cfg scenario keys values s results →
  inv s ∧ length results = N ∧ ∀ i w, results !! i = Some w → returned i w s.
Proof.
  intros Hr. destruct (phase_workersOk _ Hr) as (Hl & HI & _ & Hs). simpl in *. rewrite length_fmap in Hl.
  split_and!; [done|done|]. intros i w Hi. apply (Hs i (Ret w)); [by rewrite list_lookup_fmap, Hi|done|done].
Qed.

(** No worker holds a key when all have returned. *)
Lemma phase_unlocked s results k ks :
  phaseEnds cfg scenario keys values s results → keyStates s !! k = Some ks →
  kWriter ks = None ∧ kVersion ks = acked k (log s).
Proof.
  intros Hr Hk. destruct (phase_returned s results Hr) as (HI & Hl & Hret).
  assert (Hw : kWriter ks = None); [|split; [done|by apply (iv_free s HI)]].
  destruct (kWriter ks) as [j|] eqn:Ew; [|done]. destruct (iv_excl s HI k ks j Hk Ew) as [_ Hj].
  destruct (lookup_lt_is_Some_2 results j) as [w Hwj]; [lia|]. destruct (Hret j w Hwj) as (c & n & [Hh _ _] & _).
  apply Hh in Hk as [Hk _]. by apply Hk in Ew.
Qed.

(** The sum of a counter over the workers is the count of the log. *)
Lemma phase_sum s results (f : workloadWorkerResult → Z) g :
  phaseEnds cfg scenario keys values s results →
  (∀ i w c n, at_ i None c n s → tallied w c → f w = count (byWorker i g) (log s)) →
  sumZ f results = count g (log s).
Proof.
  intros Hr Hf. destruct (phase_returned s results Hr) as (HI & Hl & Hret).
  rewrite <-(count_workers g N).
  - apply sumZ_indexed; [done|]. intros i w Hi. destruct (Hret i w Hi) as (c & n & Ha & Ht). by eapply Hf.
  - apply Forall_forall. intros ev Hev. destruct (iv_taken s HI ev Hev) as [_ Hc].
    by apply (Forall_lookup_1 _ _ _ _ (iv_owners s HI) Hc).
Qed.

Lemma phase_sums s results :
  phaseEnds cfg scenario keys values s results →
  sumZ reads results = count (goodRead values) (log s) ∧ sumZ writes results = count goodWrite (log s) ∧
  sumZ failures results = count (failedOp values) (log s) ∧ sumZ valueMismatches results = count stale (log s).
Proof.
  intros Hr. split_and!; eapply phase_sum; try done;
    intros i w c n [_ <- _] [Hc _ _ _]; by injection Hc.
Qed.

End logic.

(** Every command is a good read, a good write or a failure, and a stale read is a
    failure. *)
Lemma count_split `{Sha256} values l :
  count (goodRead values) l + count goodWrite l + count (failedOp values) l = Z.of_nat (length l) ∧
  count (staleRead values) l <= count (failedOp values) l.
Proof.
  induction l as [|ev l [IH1 IH2]]; [done|]. cbn [count length]. unfold failedOp at 1 3.
  destruct ev as [b o k [value|]|b o k value []]; cbn; try (destruct (bool_decide _)); cbn; lia.
Qed.

(** ** Running two workers one after the other *)
Section alone.
Context {E S A : Type} (dflt : A).
Notation psteps := (rtc (pstep (λ (_ : S) (_ : E), True) (λ _ _ (_ : prog E S A), False))).

Lemma runAlone_rtc mk fuel i s (p : prog E S A) ps s' p' :
  ps !! i = Some p → runAlone mk fuel i s p = (s', p') → psteps (s, ps) (s', <[i := p']> ps).
Proof.
  revert s p ps. induction fuel as [|fuel IH]; intros s p ps Hi Hrun.
  - destruct p; simplify_eq/=; by rewrite list_insert_id.
  - destruct p as [a| |f]; simpl in Hrun; [simplify_eq; by rewrite list_insert_id..|].
    destruct (mk s) as [e|]; [|simplify_eq; by rewrite list_insert_id].
    destruct (f i e s) as [[s1 p1]|] eqn:Hf; [|simplify_eq; by rewrite list_insert_id].
    eapply rtc_l; [by eapply pstep_act|]. rewrite <-(list_insert_insert_eq ps i p' p1).
    apply (IH s1 p1); [|done]. apply list_lookup_insert_eq. by eapply lookup_lt_Some.
Qed.

Definition value (p : prog E S A) : A := match p with Ret a => a | _ => dflt end.
Definition isRet (p : prog E S A) : bool := match p with Ret _ => true | _ => false end.

Definition runTwo (mk : S → option E) (fuel : nat) (s : S) (p : prog E S A) : S * list (prog E S A) :=
  let r0 := runAlone mk fuel 0 s p in
  let r1 := runAlone mk fuel 1 r0.1 p in
  (r1.1, [r0.2; r1.2]).

Lemma runTwo_rtc mk fuel s p :
  forallb isRet (runTwo mk fuel s p).2 = true →
  psteps (s, replicate 2 p) ((runTwo mk fuel s p).1, Ret <$> (value <$> (runTwo mk fuel s p).2)).
Proof.
  unfold runTwo. destruct (runAlone mk fuel 0 s p) as [s0 p0] eqn:H0. cbn [fst snd].
  destruct (runAlone mk fuel 1 s0 p) as [s1 p1] eqn:H1. cbn [fst snd]. intros Hr.
  assert (Hv : Ret <$> (value <$> [p0; p1]) = [p0; p1]) by (by destruct p0, p1).
  rewrite Hv. etrans; [by apply (runAlone_rtc mk fuel 0 s p)|]. by apply (runAlone_rtc mk fuel 1 s0 p [p0; p] s1 p1).
Qed.

End alone.

End workloadlogic.
