(* ===== verification/WorkloadCheck.v ===== *)
(** * The final validation of a benchmark phase, in every interleaving

    When the validation does not report a timeout, every key that was written was read
    exactly once, and the sums of the workers' counters are the counts of those
    reads. *)
From stdpp Require Import prelude gmap strings list.
From Stdlib Require Import ZArith Lia.
From S2P Require Import Prelude Conc Workload WorkloadProps WorkloadRun WorkloadLogic.
Local Open Scope Z_scope.

Module workloadcheck.
Import workload workloadprops workloadrun workloadlogic.

(** ** The specification *)
Section spec.
Context `{Sha256} (values : workloadValues) (changed : list (nat * Z)).

(** A read answered with anything but the payload of the key's last version. *)
Definition staleCheck (ev : event) (_ : list event) : bool :=
  match ev with
  | EvGet _ position index (Some value) =>
      match changed !! position with
      | Some (_, version) => negb (bool_decide (filled values index version [] = Some value))
      | None => false
      end
  | _ => false
  end.
Definition goodCheck (ev : event) (older : list event) : bool :=
  match ev with EvGet _ _ _ (Some _) => negb (staleCheck ev older) | _ => false end.
Definition failedCheck (ev : event) (older : list event) : bool := negb (goodCheck ev older).

(** The read of the key at its position. *)
Definition ofPosition (ev : event) : Prop :=
  evRead ev = true ∧ ∃ version, changed !! evOp ev = Some (evKey ev, version).

End spec.

Section logic.
Context `{Sha256} (keys : list string) (values : workloadValues) (changed : list (nat * Z)).
Context (N : nat).
Notation L := (length changed).
Hypothesis L_bound : Z.of_nat L <= maxWorkloadKeys.
Hypothesis N_bound : Z.of_nat N <= maxWorkloadConcurrency.
Hypothesis values_wf : wfValues values.
Hypothesis values_keys : length (digests values) = length keys.
Hypothesis changed_ok : ∀ p index v, changed !! p = Some (index, v) → (index < length keys)%nat ∧ in_u64 v.

Record inv (s : Check) : Prop := {
  ci_issued : cIssued s = Z.of_nat (length (cClaimed s));
  ci_owners : Forall (λ j, (j < N)%nat) (cClaimed s);
  ci_over : NoDup (drop L (cClaimed s));
  ci_attempted : cAttempted s = Z.of_nat (length (cTried s));
  ci_tried : NoDup (cTried s).*2;
  ci_taken : ∀ j p, (j, p) ∈ cTried s → (p < L)%nat ∧ cClaimed s !! p = Some j;
  ci_log : NoDup (evOp <$> cLog s);
  ci_logged : ∀ ev, ev ∈ cLog s → (evBy ev, evOp ev) ∈ cTried s ∧ ofPosition changed ev
}.

Record rely (i : nat) (s s' : Check) : Prop := {
  cr_claimed : ∃ new, cClaimed s' = cClaimed s ++ new ∧ Forall (.≠ i) new;
  cr_tried : ∃ new, cTried s' = new ++ cTried s ∧ Forall (λ t, t.1 ≠ i) new;
  cr_log : ∃ new, cLog s' = new ++ cLog s ∧ Forall (λ ev, evBy ev ≠ i) new
}.

Definition guar (i : nat) (s s' : Check) : Prop := ∀ j, j ≠ i → rely j s s'.

#[local] Instance crely_preorder i : PreOrder (rely i).
Proof.
  split; [intros s; split; [exists []; by rewrite app_nil_r|by exists []|by exists []]|].
  intros s1 s2 s3 [(n1 & L1 & F1) (c1 & C1 & G1) (t1 & T1 & U1)] [(n2 & L2 & F2) (c2 & C2 & G2) (t2 & T2 & U2)]. split.
  - exists (n1 ++ n2). rewrite L2, L1, app_assoc. split; [done|]. by apply Forall_app.
  - exists (c2 ++ c1). rewrite C2, C1, app_assoc. split; [done|]. by apply Forall_app.
  - exists (t2 ++ t1). rewrite T2, T1, app_assoc. split; [done|]. by apply Forall_app.
Qed.

Lemma cguar_refl i s : guar i s s.
Proof. intros j _. reflexivity. Qed.

Notation tick_ok := (λ (_ : Check) (_ : Tick), True).
Notation hoareV := (hoare tick_ok inv rely guar).
Notation stable i Φ := (stableAt inv rely i Φ).

Definition counters (i : nat) (s : Check) : Z * Z * Z :=
  (count (byWorker i (goodCheck values changed)) (cLog s), count (byWorker i (failedCheck values changed)) (cLog s),
   count (byWorker i (staleCheck values changed)) (cLog s)).

(** Between two positions: all it attempted was read. [skip] is the position it is
    reading. *)
Record at_ (i : nat) (skip : option nat) (c : Z * Z * Z) (n : Z) (s : Check) : Prop := {
  ca_counters : counters i s = c;
  ca_done : count (byWorker i (λ _ _, true)) (cLog s) = n;
  ca_read : ∀ p, (i, p) ∈ cTried s → Some p ≠ skip → p ∈ evOp <$> cLog s
}.

Definition active (i : nat) (s : Check) : Prop := i ∉ drop L (cClaimed s).

(** It has taken position [p] and not attempted it; it has attempted it and not read. *)
Definition taken (i p : nat) (s : Check) : Prop := (p < L)%nat ∧ cClaimed s !! p = Some i ∧ (i, p) ∉ cTried s.
Definition attempted (i p : nat) (s : Check) : Prop :=
  (i, p) ∈ cTried s ∧ ∀ ev, ev ∈ cLog s → evBy ev = i → evOp ev ≠ p.

Lemma cat_stable i skip c n : stable i (at_ i skip c n).
Proof.
  intros s s1 [Hc Hd Hr] [_ (newt & T & U) (new & G & F)] _. split.
  - unfold counters in *. rewrite G, !count_others by done. done.
  - by rewrite G, count_others.
  - intros p. rewrite T, G, fmap_app, elem_of_app. intros [Hin|Hin] Hs; [|apply elem_of_app; right; by apply Hr].
    rewrite Forall_forall in U. by apply U in Hin.
Qed.

Lemma cactive_stable i : stable i (active i).
Proof.
  intros s s1 Ha [(new & C & G) _ _] _. unfold active in *. rewrite C, drop_app. intros Hin.
  apply elem_of_app in Hin as [?|Hin]; [done|]. apply (subseteq_drop _ new) in Hin.
  rewrite Forall_forall in G. by apply (G i Hin).
Qed.

Lemma ctaken_stable i p : stable i (taken i p).
Proof.
  intros s s1 (Hl & Hc & Ht) [(new & C & G) (newt & T & U) _] _. split_and!; [done|rewrite C; by apply lookup_app_l_Some|].
  rewrite T, elem_of_app. intros [Hin|Hin]; [|done]. rewrite Forall_forall in U. by apply U in Hin.
Qed.

Lemma cattempted_stable i p : stable i (attempted i p).
Proof.
  intros s s1 (Ht & Hl) [_ (newt & T & U) (new & G & F)] _. split; [rewrite T; apply elem_of_app; by right|].
  intros ev. rewrite G, elem_of_app. intros [Hin|Hin]; [|by apply Hl]. rewrite Forall_forall in F. by intros []%(F ev Hin).
Qed.

Lemma cand_stable i (Φ Ψ : Check → Prop) : stable i Φ → stable i Ψ → stable i (λ s, Φ s ∧ Ψ s).
Proof. intros H1 H2 s s1 [? ?] Hr HI. split; [by eapply H1|by eapply H2]. Qed.

Local Ltac stb :=
  repeat first [apply cat_stable | apply cactive_stable | apply ctaken_stable | apply cattempted_stable | apply cand_stable].

(** ** Bounds *)

Lemma cclaimed_bound s : inv s → (length (cClaimed s) <= L + N)%nat.
Proof.
  intros HI. assert (Hd : (length (drop L (cClaimed s)) <= N)%nat).
  { apply NoDup_below; [by apply ci_over|]. apply Forall_drop. by apply ci_owners. }
  rewrite length_drop in Hd. lia.
Qed.

Lemma ctried_bound s : inv s → (length (cTried s) <= L)%nat.
Proof.
  intros HI. rewrite <-(length_fmap snd). apply NoDup_below; [by apply ci_tried|].
  apply Forall_fmap, Forall_forall. intros [j p] Hin. by apply (ci_taken s HI j p).
Qed.

Lemma clog_bound s : inv s → (length (cLog s) <= L)%nat.
Proof.
  intros HI. rewrite <-(length_fmap evOp). apply NoDup_below; [by apply ci_log|].
  apply Forall_fmap, Forall_forall. intros ev Hev. destruct (ci_logged s HI ev Hev) as [Ht _]. by apply (ci_taken s HI _ _ Ht).
Qed.

(** ** Actions *)

Lemma v_read {A} i Φ (f : Tick → A) : stable i Φ → hoareV i Φ (act (λ _ e s, Some (s, f e))) (λ _, Φ).
Proof.
  intros Hst. apply hoare_act; [done|done|]. intros s e s' a HI Hs _ [= <- <-].
  split_and!; [done|apply cguar_refl|done].
Qed.

Lemma v_issue i c n : (i < N)%nat →
  hoareV i (λ s, at_ i None c n s ∧ active i s) checkIssue
    (λ o s, at_ i None c n s ∧ (o < Z.of_nat L → active i s ∧ 0 <= o ∧ taken i (Z.to_nat o) s)).
Proof.
  intros Hi. unfold maxWorkloadKeys, maxWorkloadConcurrency in *.
  apply hoare_act; [stb|intros o s s1 [Ha Ho] Hr HI; split; [by eapply cat_stable|]; intros Hlt;
    destruct (Ho Hlt) as (H1 & H2 & H3); split_and!; [by eapply cactive_stable|done|by eapply ctaken_stable]|].
  intros s e s' o HI [Ha Hact] _ Heq. pose proof (cclaimed_bound s HI) as Hb. pose proof (ci_issued s HI) as His.
  cbv zeta in Heq. rewrite (u64_id (cIssued s + 1)) in Heq by width_lia.
  replace (cIssued s + 1 - 1) with (cIssued s) in Heq by lia. rewrite (u64_id (cIssued s)) in Heq by width_lia.
  injection Heq as <- <-. pose proof (ci_taken s HI) as Htk. split_and!.
  - destruct HI as [Q1 Q2 Q3 Q4 Q5 Q6 Q7 Q8]. split; simpl; try done.
    + rewrite length_app. simpl. lia.
    + apply Forall_app. split; [done|]. by apply Forall_singleton.
    + rewrite drop_app. apply NoDup_app. split_and!; [done| |].
      * intros x Hx Hx1. apply (subseteq_drop _ [i]), list_elem_of_singleton in Hx1. by subst.
      * destruct (L - length (cClaimed s))%nat; simpl; [apply NoDup_singleton|rewrite drop_nil; apply NoDup_nil_2].
    + intros j p Hjp. destruct (Q6 j p Hjp) as [H1 H2]. split; [done|]. by apply lookup_app_l_Some.
  - intros j Hj. split; simpl; [exists [i]; by rewrite Forall_singleton|by exists []|by exists []].
  - destruct Ha as [? ? ?]. by split.
  - intros Ho. assert (Hlt : (length (cClaimed s) < L)%nat) by lia. unfold active. simpl.
    rewrite drop_ge by (rewrite length_app; simpl; lia). split_and!; [apply not_elem_of_nil|lia|].
    replace (Z.to_nat (cIssued s)) with (length (cClaimed s)) by lia. split_and!; [done| |].
    + simpl. by apply list_lookup_middle.
    + simpl. intros Hin. destruct (Htk _ _ Hin) as [_ Hc]. apply lookup_lt_Some in Hc. lia.
Qed.

Lemma v_attempt i p c n :
  hoareV i (λ s, at_ i None c n s ∧ active i s ∧ taken i p s) (checkAttempt p)
    (λ _ s, at_ i (Some p) c n s ∧ active i s ∧ attempted i p s).
Proof.
  apply hoare_act; [stb|intros; stb|]. intros s e s' [] HI (Ha & Hact & (Hp & Hc & Ht)) _ [= <-].
  assert (Hnew : p ∉ (cTried s).*2).
  { intros ([j q] & -> & Hin)%list_elem_of_fmap. destruct (ci_taken s HI j q Hin) as [_ Hc']. simpl in *. congruence. }
  pose proof HI as [Q1 Q2 Q3 Q4 Q5 Q6 Q7 Q8].
  assert (Hb : (length ((i, p) :: cTried s) <= L)%nat).
  { rewrite <-(length_fmap snd). apply NoDup_below; [by apply NoDup_cons|].
    apply Forall_cons. split; [done|]. apply Forall_fmap, Forall_forall. intros [j q] Hin. by apply (Q6 j q). }
  unfold maxWorkloadKeys in *. split_and!.
  - split; simpl; try done.
    + rewrite u64_id; [simpl in Hb; lia|simpl in Hb; width_lia].
    + by apply NoDup_cons.
    + intros j q [Heq|Hin]%elem_of_cons; [by injection Heq as -> ->|by apply Q6].
    + intros ev Hev. destruct (Q8 ev Hev). split; [by right|done].
  - intros j Hj. split; simpl; [exists []; by rewrite app_nil_r| |by exists []].
    exists [(i, p)]. split; [done|]. apply Forall_singleton. simpl. congruence.
  - destruct Ha as [H1 H2 H3]. split; simpl; [done|done|].
    intros q [Heq|Hin]%elem_of_cons Hne; [injection Heq as ->; done|by apply H3].
  - done.
  - split; simpl; [left|]. intros ev Hev _ Heq. apply Hnew. destruct (Q8 ev Hev) as [Hin _].
    apply list_elem_of_fmap. exists (evBy ev, evOp ev). by rewrite Heq in *.
Qed.

(** What a read adds to the counters. *)
Definition verdict3 (err mismatch : bool) : Z * Z * Z :=
  if err || mismatch then (0, 1, if mismatch then 1 else 0) else (1, 0, 0).
Definition plus3 (a b : Z * Z * Z) : Z * Z * Z :=
  let '(a1, a2, a3) := a in let '(b1, b2, b3) := b in (a1 + b1, a2 + b2, a3 + b3).

Definition wrongCheck (index : nat) (v : Z) (reply : option bytes) : bool :=
  match reply with Some value => negb (bool_decide (filled values index v [] = Some value)) | None => false end.

Lemma v_get i p index v c n : changed !! p = Some (index, v) →
  hoareV i (λ s, at_ i (Some p) c n s ∧ active i s ∧ attempted i p s) (checkGet p index)
    (λ reply s, at_ i None (plus3 (verdict3 (bool_decide (reply = None)) (wrongCheck index v reply)) c) (1 + n) s ∧ active i s).
Proof.
  intros Hp. apply hoare_act; [stb|intros; stb|]. intros s e s' reply HI ([H1 H2 H3] & Hact & (Ht & Hn)) _ [= <- <-].
  set (ev := EvGet i p index (tGet e)). pose proof HI as [Q1 Q2 Q3 Q4 Q5 Q6 Q7 Q8].
  split_and!.
  - split; simpl; try done.
    + apply NoDup_cons. split; [|done]. intros (ev' & He & Hev')%list_elem_of_fmap.
      destruct (Q8 ev' Hev') as [Ht' _]. destruct (Q6 _ _ Ht') as [_ C1]. destruct (Q6 _ _ Ht) as [_ C2].
      apply (Hn ev' Hev'); [|done]. rewrite <-He, C2 in C1. by injection C1.
    + intros ev' [->|Hev']%elem_of_cons; [|by apply Q8]. split; [done|]. split; [done|]. by exists v.
  - intros j Hj. split; simpl; [exists []; by rewrite app_nil_r|by exists []|].
    exists [ev]. split; [done|]. apply Forall_singleton. simpl. congruence.
  - split; simpl.
    + unfold counters in *. subst c. simpl. unfold byWorker at 1 3 5. rewrite (bool_decide_eq_true_2 (i = i)) by done.
      unfold verdict3, failedCheck, goodCheck, staleCheck, wrongCheck, ev. rewrite Hp. destruct (tGet e) as [value|]; [|done].
      rewrite (bool_decide_eq_false_2 (Some value = None)) by done. by destruct (bool_decide (filled _ _ _ _ = _)).
    + unfold byWorker at 1. rewrite bool_decide_eq_true_2 by done. simpl. lia.
    + intros q Hq _. destruct (decide (q = p)) as [->|Hne]; [left|]. right. apply H3; [done|congruence].
  - done.
Qed.

Record tallied3 (w : workloadWorkerResult) (c : Z * Z * Z) : Prop := {
  t3_counters : (reads w, failures w, valueMismatches w) = c;
  t3_writes : writes w = 0;
  t3_samples : Z.of_nat (length (latencies w)) = reads w ∧ Z.of_nat (length (readLatencies w)) = reads w
}.

Definition small3 (c : Z * Z * Z) : Prop :=
  let '(a, b, d) := c in 0 <= a <= Z.of_nat L ∧ 0 <= b <= Z.of_nat L ∧ 0 <= d <= Z.of_nat L.

Lemma ccounters_small i s : inv s → small3 (counters i s).
Proof.
  intros HI. pose proof (clog_bound s HI). unfold counters, small3.
  split_and!; match goal with |- context [count ?f ?l] => pose proof (count_range f l) end; lia.
Qed.

Lemma countCheck_tallied w c err mismatch elapsed :
  tallied3 w c → small3 c → tallied3 (countCheck w err mismatch elapsed) (plus3 (verdict3 err mismatch) c).
Proof.
  intros [Hc Hw [H1 H2]] Hs. subst c. destruct Hs as (A & B & D). unfold maxWorkloadKeys in *.
  unfold countCheck, verdict3. destruct err, mismatch; simpl; split; simpl;
    rewrite ?length_app; simpl; rewrite ?u64_id by width_lia; rewrite ?pair_equal_spec; split_and?; lia.
Qed.

Definition returned (i : nat) (w : workloadWorkerResult) (s : Check) : Prop := ∃ c n, at_ i None c n s ∧ tallied3 w c.

Lemma v_bind {A B} i Φ (p : V A) (q : A → V B) Ξ Ψ :
  hoareV i Φ p Ξ → (∀ a, hoareV i (Ξ a) (q a) Ψ) → hoareV i Φ (p ≫= q) Ψ.
Proof. apply hoare_bind. apply _. Qed.

Lemma v_loop i fuel w c n : (i < N)%nat → tallied3 w c → Z.of_nat L < n + Z.of_nat fuel →
  hoareV i (λ s, at_ i None c n s ∧ active i s) (checkLoop keys values changed fuel w) (returned i).
Proof.
  intros Hi. revert w c n. induction fuel as [|fuel IH]; intros w c n Hw Hf.
  - intros s HI [[_ Hd _] _]. pose proof (clog_bound s HI). pose proof (count_range (byWorker i (λ _ _, true)) (cLog s)). lia.
  - eapply (w_fact _ _ _ _ _ _ (small3 c)); [intros s HI [[<- _ _] _]; by apply ccounters_small|]. intros Hsm.
    cbn [checkLoop]. eapply v_bind; [by apply v_issue|intros o].
    assert (Hend : hoareV i (at_ i None c n) (mret w) (returned i)) by (apply w_ret; [stb|]; intros s _ Ha; by exists c, n).
    destruct (Z.leb_spec (Z.of_nat L) o) as [Hge|Hlt].
    { eapply v_bind with (Ξ := λ stop s, at_ i None c n s ∧ stop = true).
      - eapply hoare_pre; [apply (w_ret _ _ _ _ i (at_ i None c n)); [stb|done]|by intros s _ [Ha _]].
      - intros stop. apply w_pure. intros ->. exact Hend. }
    eapply hoare_pre with (Φ' := λ s, (at_ i None c n s ∧ active i s ∧ taken i (Z.to_nat o) s) ∧ 0 <= o).
    2:{ intros s _ [Ha Ho]. destruct (Ho Hlt) as (?&?&?). by split_and!. }
    apply w_pure. intros Ho. eapply v_bind; [apply v_read; stb|intros stop].
    destruct stop; [eapply hoare_pre; [exact Hend|by intros s _ [Ha _]]|].
    destruct (lookup_lt_is_Some_2 changed (Z.to_nat o)) as [[index v] Hp]; [lia|]. rewrite Hp.
    destruct (changed_ok _ _ _ Hp) as [Hix Hv].
    eapply v_bind; [apply v_attempt|intros []]. eapply v_bind; [apply v_read; stb|intros started].
    destruct (Nat.leb_spec (length keys) index); [lia|].
    eapply v_bind; [by apply v_get|intros reply]. eapply v_bind; [apply v_read; stb|intros t].
    destruct (lookup_lt_is_Some_2 (digests values) index) as [d Hd]; [lia|].
    assert (Hm : (match reply with Some value => negb <$> Matches values index v value | None => Some false end)
      = Some (wrongCheck index v reply)).
    { unfold wrongCheck. destruct reply as [value|]; [|done]. by rewrite (Matches_spec values index d v [] value). }
    rewrite Hm. apply IH; [by apply countCheck_tallied|lia].
Qed.

(** ** Every interleaving *)

Definition checkersOk (c : Check * list (V workloadWorkerResult)) : Prop :=
  length c.2 = N ∧ pool_ok tick_ok inv rely guar (λ _ _, True) returned c.

Lemma checkStarted_inv : inv checkStarted.
Proof.
  split; simpl; try done.
  - rewrite drop_nil. apply NoDup_nil_2.
  - apply NoDup_nil_2.
  - by intros j p []%not_elem_of_nil.
  - apply NoDup_nil_2.
  - by intros ev []%not_elem_of_nil.
Qed.

Lemma checkStarted_ok : checkersOk (checkStarted, replicate N (checker keys values changed)).
Proof.
  split; [simpl; by rewrite length_replicate|]. split_and!; [apply checkStarted_inv|done|]. simpl.
  intros i p [-> Hi]%lookup_replicate. apply v_loop with (c := (0, 0, 0)) (n := 0); [done|by split|lia|apply checkStarted_inv|].
  split; [split|]; simpl; try done.
  - by intros p []%not_elem_of_nil.
  - unfold active. simpl. rewrite drop_nil. apply not_elem_of_nil.
Qed.

Lemma checkers_ok c :
  rtc (pstep tick_ok (λ _ _ _, False)) (checkStarted, replicate N (checker keys values changed)) c → checkersOk c.
Proof.
  intros Hr. remember (checkStarted, replicate N _) as c0 eqn:Hc0.
  assert (H0 : checkersOk c0) by (subst c0; apply checkStarted_ok). clear Hc0. induction Hr as [|c0 c1 c2 Hstep _ IH]; [done|].
  apply IH. destruct H0 as [Hl Hok]. split.
  - destruct Hstep as [s ps i f e s' p' _ _ _|]; [simpl in *; by rewrite length_insert|done].
  - eapply (pstep_pool_ok tick_ok inv rely guar); [..|exact Hok|exact Hstep]; [intros i j s s' Hne Hg; by apply Hg|done|done].
Qed.

Lemma check_returned clients s results :
  Nat.min clients L = N → checkEnds keys values changed clients s results →
  inv s ∧ length results = N ∧ ∀ i w, results !! i = Some w → returned i w s.
Proof.
  unfold checkEnds. intros -> Hr. destruct (checkers_ok _ Hr) as (Hl & HI & _ & Hs). simpl in *. rewrite length_fmap in Hl.
  split_and!; [done|done|]. intros i w Hi. apply (Hs i (Ret w)); [by rewrite list_lookup_fmap, Hi|reflexivity|done].
Qed.

(** Every position was read once, when as many were attempted as there are. *)
Lemma check_all s results :
  inv s → length results = N → (∀ i w, results !! i = Some w → returned i w s) → cAttempted s = Z.of_nat L →
  evOp <$> cLog s ≡ₚ seq 0 L.
Proof.
  intros HI Hl Hret Hatt. pose proof (ci_attempted s HI) as Ha.
  assert (Htr : (cTried s).*2 ≡ₚ seq 0 L).
  { apply submseteq_length_Permutation; [|rewrite length_fmap, length_seq; lia].
    apply NoDup_submseteq; [by apply ci_tried|]. intros p ([j q] & -> & Hin)%list_elem_of_fmap.
    apply elem_of_seq. destruct (ci_taken s HI j q Hin). simpl. lia. }
  apply NoDup_Permutation; [by apply ci_log|apply NoDup_seq|]. intros p. rewrite <-Htr. split.
  - intros (ev & -> & Hev)%list_elem_of_fmap. destruct (ci_logged s HI ev Hev) as [Hin _].
    apply list_elem_of_fmap. by exists (evBy ev, evOp ev).
  - intros ([j q] & -> & Hin)%list_elem_of_fmap. destruct (ci_taken s HI j q Hin) as [_ Hc].
    assert (Hj : (j < N)%nat) by (by apply (Forall_lookup_1 _ _ _ _ (ci_owners s HI) Hc)).
    destruct (lookup_lt_is_Some_2 results j) as [w Hw]; [lia|]. destruct (Hret j w Hw) as (c & n & [_ _ Hr] & _).
    simpl. by apply Hr.
Qed.

Lemma check_sum s results (f : workloadWorkerResult → Z) g :
  inv s → length results = N → (∀ i w, results !! i = Some w → returned i w s) →
  (∀ i w c n, at_ i None c n s → tallied3 w c → f w = count (byWorker i g) (cLog s)) →
  sumZ f results = count g (cLog s).
Proof.
  intros HI Hl Hret Hf. rewrite <-(count_workers g N).
  - apply sumZ_indexed; [done|]. intros i w Hi. destruct (Hret i w Hi) as (c & n & Ha & Ht). by eapply Hf.
  - apply Forall_forall. intros ev Hev. destruct (ci_logged s HI ev Hev) as [Hin _]. destruct (ci_taken s HI _ _ Hin) as [_ Hc].
    by apply (Forall_lookup_1 _ _ _ _ (ci_owners s HI) Hc).
Qed.

End logic.

(** The sums do not overflow as long as the exact ones are in range. *)
Lemma fold_addCheck results r :
  (∀ w, w ∈ results → 0 <= reads w ∧ 0 <= failures w ∧ 0 <= valueMismatches w) →
  0 <= reads r ∧ 0 <= failures r ∧ 0 <= valueMismatches r →
  in_u64 (reads r + sumZ reads results) → in_u64 (failures r + sumZ failures results) →
  in_u64 (valueMismatches r + sumZ valueMismatches results) →
  let t := fold_left addCheck results r in
  reads t = reads r + sumZ reads results ∧ failures t = failures r + sumZ failures results ∧
  valueMismatches t = valueMismatches r + sumZ valueMismatches results ∧
  length (latencies t) = (length (latencies r) + length (concat (latencies <$> results)))%nat ∧
  length (readLatencies t) = (length (readLatencies r) + length (concat (readLatencies <$> results)))%nat.
Proof.
  revert r. induction results as [|w results IH]; intros r Hw Hr H1 H2 H3; cbn -[Nat.add] in *; [lia|].
  assert (Hp : 0 <= sumZ reads results ∧ 0 <= sumZ failures results ∧ 0 <= sumZ valueMismatches results)
    by (split_and!; apply sumZ_nonneg; intros x Hx; apply (Hw x); by right).
  destruct (Hw w) as (A1 & A2 & A3); [left|]. widths.
  destruct (IH (addCheck r w)) as (E1 & E2 & E3 & E4 & E5).
  - intros x Hx. apply Hw. by right.
  - cbn. rewrite !u64_id by width_lia. lia.
  - cbn. rewrite !u64_id by width_lia. lia.
  - cbn. rewrite !u64_id by width_lia. lia.
  - cbn. rewrite !u64_id by width_lia. lia.
  - rewrite E1, E2, E3, E4, E5. cbn. rewrite !u64_id by width_lia. rewrite !length_app. lia.
Qed.

(** ** The whole validation *)
Section validation.
Context `{Sha256} (keys : list string) (values : workloadValues) (changed : list (nat * Z)) (clients : nat).
Hypothesis L_bound : Z.of_nat (length changed) <= maxWorkloadKeys.
Hypothesis clients_bound : Z.of_nat clients <= maxWorkloadConcurrency.
Hypothesis values_wf : wfValues values.
Hypothesis values_keys : length (digests values) = length keys.
Hypothesis changed_ok : ∀ p index v, changed !! p = Some (index, v) → (index < length keys)%nat ∧ in_u64 v.

Lemma results_sums c results :
  (∀ i w, results !! i = Some w → returned values changed i w c) →
  inv changed (length results) c →
  let w := fold_left addCheck results emptyResult in
  reads w = count (goodCheck values changed) (cLog c) ∧ failures w = count (failedCheck values changed) (cLog c) ∧
  valueMismatches w = count (staleCheck values changed) (cLog c).
Proof.
  intros Hret HI w. pose proof (clog_bound _ _ c HI) as Hb. unfold maxWorkloadKeys in L_bound.
  assert (S1 : sumZ reads results = count (goodCheck values changed) (cLog c))
    by (eapply check_sum; [done..|]; intros i x cc nn [<- _ _] [Hx _ _]; by injection Hx).
  assert (S2 : sumZ failures results = count (failedCheck values changed) (cLog c))
    by (eapply check_sum; [done..|]; intros i x cc nn [<- _ _] [Hx _ _]; by injection Hx).
  assert (S3 : sumZ valueMismatches results = count (staleCheck values changed) (cLog c))
    by (eapply check_sum; [done..|]; intros i x cc nn [<- _ _] [Hx _ _]; by injection Hx).
  destruct (fold_addCheck results emptyResult) as (E1 & E2 & E3 & _); cbn -[count] in *; rewrite ?S1, ?S2, ?S3 in *.
  - intros x [i Hi]%list_elem_of_lookup_1. destruct (Hret i x Hi) as (cc & nn & [<- _ _] & [Hx _ _]).
    injection Hx as -> -> ->. split_and!; apply count_range.
  - done.
  - pose proof (count_range (goodCheck values changed) (cLog c)). width_lia.
  - pose proof (count_range (failedCheck values changed) (cLog c)). width_lia.
  - pose proof (count_range (staleCheck values changed) (cLog c)). width_lia.
  - done.
Qed.

(** A validation that is not cut short has read every written key once, and its
    counters are the counts of those reads. *)
Lemma validation_exact w n c :
  validates keys values changed clients (Some (w, n)) c →
  (evOp <$> cLog c ≡ₚ seq 0 (length changed)) ∧ (∀ ev, ev ∈ cLog c → ofPosition changed ev) ∧
  n = Z.of_nat (length changed) ∧ reads w = count (goodCheck values changed) (cLog c) ∧
  failures w = count (failedCheck values changed) (cLog c) ∧ valueMismatches w = count (staleCheck values changed) (cLog c).
Proof.
  inversion 1 as [Hnil|c' results Hne Hends Hif]; subst.
  { simpl. split_and!; try done. by intros ev []%not_elem_of_nil. }
  destruct (Z.eqb_spec (cAttempted c) (Z.of_nat (length changed))) as [Hatt|]; [|done]. injection Hif as <- <-.
  assert (HW : Z.of_nat (Nat.min clients (length changed)) <= maxWorkloadConcurrency) by lia.
  destruct (check_returned keys values changed _ L_bound HW values_wf values_keys changed_ok clients c results eq_refl Hends)
    as (HI & Hl & Hret). rewrite <-Hl in HI.
  split; [eapply check_all; try eassumption; done|]. split; [intros ev Hev; by apply (ci_logged _ _ _ HI)|].
  split; [done|]. by apply results_sums.
Qed.

End validation.
End workloadcheck.
