(* ===== verification/Benchmark.v ===== *)
(** * The evidence of a benchmark

    Models the parts of src/cmd/slizenctl/benchmark.go that turn counters read before
    and after a phase into evidence: the parsers of the origin's INFO text, the deltas
    of the origin's and of Slizen's counters with their validity checks, the latency
    percentiles, and the summary of a scenario. [EqualFold] is given the text in upper
    case. A phase's notes are the texts of the
    code, with a counter error kept as a value. *)
From stdpp Require Import prelude gmap strings list pretty.
From Stdlib Require Import ZArith Lia Ascii.
From S2P Require Import Prelude Float64 GoStd GoText GoTime GoHeap Workload.
Local Open Scope Z_scope.

Module benchmark.
Import gostd gotext gotime workload.

Definition originGETsSourceCommandstats : string := "origin_info_commandstats".
Definition originGETsSourceUnavailable : string := "unavailable".

(** ** Errors and notes *)

Inductive originError :=
  | ErrDuplicateGet
  | ErrCalls (e : parseError)
  | ErrNoCalls
  | ErrNoCommandstats
  | ErrNoRunID
  | ErrRunIDChanged
  | ErrInfo (step err : string).

Inductive note :=
  | Text (s : string)
  | Unavailable (when : string) (e : originError).

(** ** Records *)
Section records.
Context {F : Type}.

Record latencyDistribution := mkLatency { Samples : Z; P50 : F; P95 : F; P99 : F }.

Record benchmarkPhase := mkPhase {
  Name : string;
  Address : string;
  Requests : Z;
  OperationAttempts : Z;
  TerminationReason : string;
  Reads : Z;
  Writes : Z;
  Failures : Z;
  ValueMismatches : Z;
  ValidationReads : Z;
  ValidationFailures : Z;
  ValidationMismatches : Z;
  ElapsedSeconds : F;
  OpsPerSecond : F;
  P50Milliseconds : F;
  P95Milliseconds : F;
  P99Milliseconds : F;
  ReadLatency : option latencyDistribution;
  WriteLatency : option latencyDistribution;
  ReadOrderingWaitLatency : option latencyDistribution;
  WriteOrderingWaitLatency : option latencyDistribution;
  FinalValidationLatency : option latencyDistribution;
  UpstreamGETs : Z;
  UpstreamGETsSource : string;
  OriginRunID : string;
  SlizenStatusUpstreamGETs : Z;
  CacheHits : Z;
  CacheMisses : Z;
  CacheMissesPolicyBypass : Z;
  CacheMissesNotAdmitted : Z;
  CacheMissesNotPresent : Z;
  CacheHitRatio : F;
  Notes : list note
}.

End records.
Arguments latencyDistribution : clear implicits.
Arguments benchmarkPhase : clear implicits.

Record originGETCounterSnapshot := mkCounter { Calls : Z; RunID : string; CounterErr : option originError }.

Record statusSnapshot := mkStatusSnapshot {
  StVersion : string;
  StCommit : string;
  StMode : string;
  StKeyVisibility : string;
  StUptime : string;
  RequestsTotal : Z;
  CacheHitsTotal : Z;
  CacheMissesTotal : Z;
  StMissesPolicyBypass : Z;
  StMissesNotAdmitted : Z;
  StMissesNotPresent : Z;
  UpstreamRequestsTotal : Z;
  UpstreamGETsTotal : Z;
  CoalescedRequestsTotal : Z;
  InvalidationsTotal : Z;
  PromotionsTotal : Z;
  DemotionsTotal : Z;
  StCacheEntries : Z;
  StCacheBytes : Z;
  StHotKeys : Z
}.

(** ** The origin's INFO text *)

(** The calls of a cmdstat_get line: the first field named calls. *)
Fixpoint findCalls (fields : list string) : res originError Z :=
  match fields with
  | [] => Fail ErrNoCalls
  | field :: fields' =>
      let '(name, value, ok) := Cut (TrimSpace field) "=" in
      if negb ok || negb (bool_decide (name = "calls"%string)) then findCalls fields'
      else match ParseUint value with inl n => Ok n | inr e => Fail (ErrCalls e) end
  end.

Record callScan := mkScan { sawCommandstats : bool; sawGET : bool; calls : Z }.

Definition scanCallsLine (s : callScan) (rawLine : string) : res originError callScan :=
  let line := TrimSpace rawLine in
  if HasPrefix line "#" then
    let section := TrimSpace (TrimPrefix line "#") in
    Ok (if EqualFold section "COMMANDSTATS" then mkScan true (sawGET s) (calls s) else s)
  else if negb (HasPrefix line "cmdstat_get:") then Ok s
  else if sawGET s then Fail ErrDuplicateGet
  else n ← findCalls (Split (TrimPrefix line "cmdstat_get:") ","); Ok (mkScan (sawCommandstats s) true n).

Fixpoint scanCalls (s : callScan) (lines : list string) : res originError callScan :=
  match lines with
  | [] => Ok s
  | l :: lines' => s' ← scanCallsLine s l; scanCalls s' lines'
  end.

Definition newline : ascii := "010"%char.

Definition parseOriginGETCalls (info : string) : res originError Z :=
  s ← scanCalls (mkScan false false 0) (Split info newline);
  if negb (sawCommandstats s) then Fail ErrNoCommandstats else Ok (calls s).

Fixpoint findRunID (lines : list string) : res originError string :=
  match lines with
  | [] => Fail ErrNoRunID
  | rawLine :: lines' =>
      let '(name, value, ok) := Cut (TrimSpace rawLine) ":" in
      if ok && bool_decide (name = "run_id"%string) then
        let value := TrimSpace value in
        if bool_decide (value = EmptyString) then Fail ErrNoRunID else Ok value
      else findRunID lines'
  end.

Definition parseOriginRunID (info : string) : res originError string := findRunID (Split info newline).

(** [readOriginGETCounter]: the run id is read before and after the counter. The
    replies to the three INFO commands are arguments. *)
Definition infoReply (step : string) (r : res string string) : res originError string :=
  match r with Ok s => Ok s | Fail e => Fail (ErrInfo step e) end.

Definition readCounter (server1 stats server2 : res string string) : res originError (Z * string) :=
  serverBefore ← infoReply "INFO server before commandstats" server1;
  runIDBefore ← parseOriginRunID serverBefore;
  info ← infoReply "INFO commandstats" stats;
  n ← parseOriginGETCalls info;
  serverAfter ← infoReply "INFO server after commandstats" server2;
  runIDAfter ← parseOriginRunID serverAfter;
  if bool_decide (runIDAfter = runIDBefore) then Ok (n, runIDBefore) else Fail ErrRunIDChanged.

Definition readOriginGETCounter (server1 stats server2 : res string string) : originGETCounterSnapshot :=
  match readCounter server1 stats server2 with
  | Ok (n, id) => mkCounter n id None
  | Fail e => mkCounter 0 EmptyString (Some e)
  end.

(** The fields of an INFO reply: a later line of a name replaces an earlier one. *)
Definition infoField (fields : gmap string string) (line : string) : gmap string string :=
  let line := TrimSpace line in
  if bool_decide (line = EmptyString) || HasPrefix line "#" then fields
  else let '(name, value, ok) := Cut line ":" in
       if ok : bool then <[name := TrimSpace value]> fields else fields.

Definition parseOriginVersion (info : string) : string :=
  let fields := fold_left infoField (Split info newline) ∅ in
  let get k := default EmptyString (fields !! k) in
  let name := get "server_name"%string in
  let version := get "redis_version"%string in
  let '(name, version) :=
    if EqualFold name "VALKEY" then (name, get "valkey_version"%string)
    else if bool_decide (name = EmptyString) && negb (bool_decide (get "valkey_version"%string = EmptyString))
         then ("Valkey"%string, get "valkey_version"%string)
         else (name, version) in
  let name := if bool_decide (name = EmptyString) && negb (bool_decide (version = EmptyString))
              then "Redis-compatible"%string else name in
  if bool_decide (name = EmptyString) then "unknown"%string
  else if bool_decide (version = EmptyString) then name
  else (name ++ " " ++ version)%string.

Definition knownOriginRuntimeVersion (version : string) : bool :=
  let version := TrimSpace version in
  negb (bool_decide (version = EmptyString)) && negb (EqualFold version "UNKNOWN").

(** ** Deltas *)

Definition subtractUint64 (after before : Z) : Z := if after <? before then 0 else after - before.
Definition minDuration (a b : Duration) : Duration := if a <? b then a else b.
Definition maxDuration (a b : Duration) : Duration := if b <? a then a else b.

Section evidence.
Context {F : Type} `{Float64 F}.
Notation phase := (benchmarkPhase F).

(** Assignments to the fields of a phase. *)
Definition addNotes (p : phase) (n : list note) : phase :=
  mkPhase (Name p) (Address p) (Requests p) (OperationAttempts p) (TerminationReason p) (Reads p) (Writes p) (Failures p)
    (ValueMismatches p) (ValidationReads p) (ValidationFailures p) (ValidationMismatches p) (ElapsedSeconds p)
    (OpsPerSecond p) (P50Milliseconds p) (P95Milliseconds p) (P99Milliseconds p) (ReadLatency p) (WriteLatency p)
    (ReadOrderingWaitLatency p) (WriteOrderingWaitLatency p) (FinalValidationLatency p) (UpstreamGETs p)
    (UpstreamGETsSource p) (OriginRunID p) (SlizenStatusUpstreamGETs p) (CacheHits p) (CacheMisses p)
    (CacheMissesPolicyBypass p) (CacheMissesNotAdmitted p) (CacheMissesNotPresent p) (CacheHitRatio p) (Notes p ++ n).
Definition setName (p : phase) (name : string) : phase :=
  mkPhase name (Address p) (Requests p) (OperationAttempts p) (TerminationReason p) (Reads p) (Writes p) (Failures p)
    (ValueMismatches p) (ValidationReads p) (ValidationFailures p) (ValidationMismatches p) (ElapsedSeconds p)
    (OpsPerSecond p) (P50Milliseconds p) (P95Milliseconds p) (P99Milliseconds p) (ReadLatency p) (WriteLatency p)
    (ReadOrderingWaitLatency p) (WriteOrderingWaitLatency p) (FinalValidationLatency p) (UpstreamGETs p)
    (UpstreamGETsSource p) (OriginRunID p) (SlizenStatusUpstreamGETs p) (CacheHits p) (CacheMisses p)
    (CacheMissesPolicyBypass p) (CacheMissesNotAdmitted p) (CacheMissesNotPresent p) (CacheHitRatio p) (Notes p).
Definition setOrigin (p : phase) (gets : Z) (source runID : string) : phase :=
  mkPhase (Name p) (Address p) (Requests p) (OperationAttempts p) (TerminationReason p) (Reads p) (Writes p) (Failures p)
    (ValueMismatches p) (ValidationReads p) (ValidationFailures p) (ValidationMismatches p) (ElapsedSeconds p)
    (OpsPerSecond p) (P50Milliseconds p) (P95Milliseconds p) (P99Milliseconds p) (ReadLatency p) (WriteLatency p)
    (ReadOrderingWaitLatency p) (WriteOrderingWaitLatency p) (FinalValidationLatency p) gets
    source runID (SlizenStatusUpstreamGETs p) (CacheHits p) (CacheMisses p)
    (CacheMissesPolicyBypass p) (CacheMissesNotAdmitted p) (CacheMissesNotPresent p) (CacheHitRatio p) (Notes p).
Definition setStatus (p : phase) (gets hits misses bypass notAdmitted notPresent : Z) (ratio : F) : phase :=
  mkPhase (Name p) (Address p) (Requests p) (OperationAttempts p) (TerminationReason p) (Reads p) (Writes p) (Failures p)
    (ValueMismatches p) (ValidationReads p) (ValidationFailures p) (ValidationMismatches p) (ElapsedSeconds p)
    (OpsPerSecond p) (P50Milliseconds p) (P95Milliseconds p) (P99Milliseconds p) (ReadLatency p) (WriteLatency p)
    (ReadOrderingWaitLatency p) (WriteOrderingWaitLatency p) (FinalValidationLatency p) (UpstreamGETs p)
    (UpstreamGETsSource p) (OriginRunID p) gets hits misses bypass notAdmitted notPresent ratio (Notes p).

Definition say (p : phase) (s : string) : phase := addNotes p [Text s].

Definition applyOriginGETCounterDelta (p : phase) (before after : originGETCounterSnapshot) : phase * bool :=
  let p0 := setOrigin p 0 originGETsSourceCommandstats (OriginRunID p) in
  let gone := setOrigin p 0 originGETsSourceUnavailable (OriginRunID p) in
  match CounterErr before, CounterErr after with
  | Some e, _ => (addNotes gone [Unavailable "before" e], false)
  | None, Some e => (addNotes gone [Unavailable "after" e], false)
  | None, None =>
      if bool_decide (RunID before = EmptyString) || bool_decide (RunID after = EmptyString) then
        (say p0 "origin run_id was unavailable; restart continuity could not be verified", false)
      else if negb (bool_decide (RunID after = RunID before)) then
        (say p0 "origin run_id changed during the phase; restart invalidated physical evidence", false)
      else if Calls after <? Calls before then
        (say p0 ("origin INFO commandstats cmdstat_get calls decreased from " ++ Itoa (Calls before) ++ " to " ++
                 Itoa (Calls after) ++ "; reset or restart invalidated physical evidence")%string, false)
      else (setOrigin p0 (Calls after - Calls before) originGETsSourceCommandstats (RunID before), true)
  end.

(** [validateSameOriginRunID]: the notes it appends to every phase it is given, and its
    verdict. *)
Definition validateSameOriginRunID (phases : list phase) : list note * bool :=
  match phases with
  | [] | [_] => ([], true)
  | first :: rest =>
      let expected := OriginRunID first in
      if bool_decide (expected = EmptyString) then
        ([Text "origin run_id continuity across comparison phases could not be verified"], false)
      else if forallb (λ p, bool_decide (OriginRunID p = expected)) rest then ([], true)
      else ([Text "origin run_id changed between comparison phases; restart invalidated reduction evidence"], false)
  end.

Definition validatePhysicalOriginGETIsolation (p : phase) (expected : Z) (expectation : string) : phase * bool :=
  if negb (bool_decide (UpstreamGETsSource p = originGETsSourceCommandstats)) then (p, false)
  else if UpstreamGETs p =? expected then (p, true)
  else (say p ("physical origin GET counter changed by " ++ Itoa (UpstreamGETs p) ++ " while " ++ expectation ++ " was " ++
               Itoa expected ++ "; retries or unrelated origin traffic invalidated isolation")%string, false).

Definition applyStatusDelta (p : phase) (before after : statusSnapshot) : phase :=
  let d (f : statusSnapshot → Z) := subtractUint64 (f after) (f before) in
  let hits := d CacheHitsTotal in
  let misses := d CacheMissesTotal in
  let denominator := hits +u misses in
  let ratio := if 0 <? denominator then (fofZ 100 * fofZ hits / fofZ denominator)%f64 else CacheHitRatio p in
  setStatus p (d UpstreamGETsTotal) hits misses (d StMissesPolicyBypass) (d StMissesNotAdmitted) (d StMissesNotPresent) ratio.

(** The empty string: the two snapshots are of one run of the daemon. *)
Definition invalidStatusDeltaReason (before after : statusSnapshot) : string :=
  let moved (f : statusSnapshot → string) := negb (bool_decide (f after = f before)) in
  let fell (f : statusSnapshot → Z) := f after <? f before in
  if moved StVersion || moved StCommit || moved StMode || moved StKeyVisibility then
    "Slizen status identity or mode changed during the phase; daemon restart or reconfiguration invalidated process-global evidence"%string
  else match ParseDuration (StUptime before), ParseDuration (StUptime after) with
  | inl beforeUptime, inl afterUptime =>
      if afterUptime <? beforeUptime then
        "Slizen uptime decreased during the phase; daemon restart invalidated process-global evidence"%string
      else if existsb fell [RequestsTotal; CacheHitsTotal; CacheMissesTotal; StMissesPolicyBypass; StMissesNotAdmitted;
                            StMissesNotPresent; UpstreamRequestsTotal; UpstreamGETsTotal; CoalescedRequestsTotal;
                            InvalidationsTotal; PromotionsTotal; DemotionsTotal] then
        "one or more Slizen status counters decreased during the phase; daemon restart or counter reset invalidated process-global evidence"%string
      else EmptyString
  | _, _ => "Slizen uptime could not be parsed; daemon continuity could not be verified"%string
  end.

(** One check of an isolated run: its note when it fails. *)
Definition check (acc : phase * bool) (bad : bool) (n : string) : phase * bool :=
  if bad then (say acc.1 n, false) else acc.

(** The common body of [applyHotKeyStatusDelta] and [applyWorkloadStatusDelta], which
    differ in the number of GETs they compare the counters with. *)
Definition applyIsolatedDelta (gets : phase → Z) (p : phase) (before after : statusSnapshot) : phase * bool :=
  let reason := invalidStatusDeltaReason before after in
  if negb (bool_decide (reason = EmptyString)) then
    (say (setStatus p 0 0 0 0 0 0 f0) reason, false)
  else
    let p := applyStatusDelta p before after in
    let expectedRequests := Requests p +u Failures p in
    let observedRequests := u64 (RequestsTotal after - RequestsTotal before) in
    let decisions := CacheHits p +u CacheMisses p in
    let acc := check (p, true) (negb (observedRequests =? expectedRequests))
      ("Slizen process-global request counter changed by " ++ Itoa observedRequests ++ " during " ++ Itoa expectedRequests ++
       " benchmark operations; run Slizen quiescently and exclusively")%string in
    let acc := check acc ((Failures p =? 0) && negb (decisions =? gets p))
      ("Slizen cache counters recorded " ++ Itoa decisions ++ " GET decisions during " ++ Itoa (gets p) ++
       " benchmark reads; process-global evidence is not isolated")%string in
    check acc ((Failures p =? 0) && (gets p <? SlizenStatusUpstreamGETs p))
      ("Slizen upstream GET counter changed by " ++ Itoa (SlizenStatusUpstreamGETs p) ++ " during " ++ Itoa (gets p) ++
       " benchmark reads; process-global evidence is not isolated")%string.

Definition applyHotKeyStatusDelta (p : phase) (before after : statusSnapshot) : phase * bool :=
  applyIsolatedDelta Requests p before after.
Definition applyWorkloadStatusDelta (p : phase) (before after : statusSnapshot) : phase * bool :=
  applyIsolatedDelta Reads p before after.

(** ** Reductions *)

Definition workloadOriginGETReduction (origin slizen : phase) : F :=
  if (0 <? Failures origin) || (0 <? Failures slizen) || (Reads origin =? 0) || (Reads slizen =? 0)
     || negb (bool_decide (UpstreamGETsSource origin = originGETsSourceCommandstats))
     || negb (bool_decide (UpstreamGETsSource slizen = originGETsSourceCommandstats)) then f0
  else
    let originRate := (fofZ (UpstreamGETs origin) / fofZ (Reads origin))%f64 in
    if feq originRate f0 then f0
    else
      let slizenRate := (fofZ (UpstreamGETs slizen) / fofZ (Reads slizen))%f64 in
      (fofZ 100 * (fofZ 1 - slizenRate / originRate))%f64.

(** [math.Max(0, x)]. *)
Definition fmax0 (x : F) : F := if fisnan x then x else if (f0 <? x)%f64 then x else f0.

Definition upstreamReduction (origin hot : phase) : F :=
  if (Requests origin =? 0) || (Requests hot =? 0) || (0 <? Failures origin) || (0 <? Failures hot)
     || (0 <? ValueMismatches origin) || (0 <? ValueMismatches hot)
     || negb (bool_decide (UpstreamGETsSource origin = originGETsSourceCommandstats))
     || negb (bool_decide (UpstreamGETsSource hot = originGETsSourceCommandstats)) then f0
  else
    let originRate := (fofZ (UpstreamGETs origin) / fofZ (Requests origin))%f64 in
    let hotRate := (fofZ (UpstreamGETs hot) / fofZ (Requests hot))%f64 in
    if (originRate <=? f0)%f64 then f0
    else fmax0 (fofZ 100 * (fofZ 1 - hotRate / originRate))%f64.

Record workloadScenarioResult := mkScenario {
  ScName : string;
  ScOrigin : phase;
  ScSlizen : phase;
  ScP50 : F;
  ScP95 : F;
  ScP99 : F;
  OriginGETReductionPercent : F;
  CacheHitRatioPercent : F;
  EvidenceValid : bool;
  ProvedOriginGETReduction : bool;
  ScNotes : list string
}.

Definition noteIf (b : bool) (s : string) : list string := if b then [s] else [].

Definition summarizeWorkloadScenario (name : string) (origin slizen : phase)
    (statusEvidenceValid physicalEvidenceValid : bool) : workloadScenarioResult :=
  let evidenceValid := (Failures origin =? 0) && (Failures slizen =? 0) && (ValueMismatches origin =? 0)
    && (ValueMismatches slizen =? 0) && statusEvidenceValid && physicalEvidenceValid in
  let reduction := if evidenceValid then workloadOriginGETReduction origin slizen else f0 in
  let cacheHitRatio := if evidenceValid then CacheHitRatio slizen else f0 in
  let proved := evidenceValid && (f0 <? reduction)%f64 && (0 <? CacheHits slizen) && (UpstreamGETs slizen <? Reads slizen) in
  mkScenario name origin slizen (P50Milliseconds slizen) (P95Milliseconds slizen) (P99Milliseconds slizen)
    reduction cacheHitRatio evidenceValid proved
    (noteIf ((0 <? Failures origin) || (0 <? Failures slizen))
       "origin GET reduction was suppressed because one or both phases recorded failed operations" ++
     noteIf ((0 <? ValueMismatches origin) || (0 <? ValueMismatches slizen))
       "origin GET reduction was suppressed because one or both phases returned an unexpected value" ++
     noteIf (negb statusEvidenceValid)
       "origin GET reduction was suppressed because Slizen logical process-global counters did not provide isolated, monotonic evidence" ++
     noteIf (negb physicalEvidenceValid)
       "origin GET reduction was suppressed because INFO commandstats did not provide isolated, monotonic physical GET evidence" ++
     noteIf (negb proved) "this run did not prove origin GET reduction for the scenario").

(** ** Latencies *)

(** [math.Ceil], up to the sign of a zero. *)
Definition fceil (x : F) : F := (f0 - ffloor (f0 - x))%f64.

Definition millis (d : Duration) : F := (fofZ (Z.quot d 1000) / fofZ 1000)%f64.

Definition percentileMillis (values : list Duration) (percentile : Z) : F :=
  let n := Z.of_nat (length values) in
  let at_ (i : Z) := millis (default 0 (values !! Z.to_nat i)) in
  if n =? 0 then f0
  else if percentile <=? 0 then at_ 0
  else if 100 <=? percentile then at_ (n - 1)
  else
    let index := ftoi64 (fceil (fofZ percentile / fofZ 100 * fofZ n)%f64) -i 1 in
    let index := if index <? 0 then 0 else index in
    let index := if n <=? index then n - 1 else index in
    at_ index.

Definition latencyDistributionFor (values : list Duration) : latencyDistribution F :=
  let values := goheap.sortSlice Z.ltb values in
  mkLatency (Z.of_nat (length values)) (percentileMillis values 50) (percentileMillis values 95) (percentileMillis values 99).

Definition latencyDistributionPointer (values : list Duration) : option (latencyDistribution F) :=
  if bool_decide (values = []) then None else Some (latencyDistributionFor values).

Definition latencyDistributionValue (d : option (latencyDistribution F)) : latencyDistribution F :=
  default (mkLatency 0 f0 f0 f0) d.

End evidence.
Arguments workloadScenarioResult : clear implicits.
End benchmark.
