(* ===== verification/WorkloadPhase.v ===== *)
(** * The report of a workload phase

    Models the end of runRedisWorkloadWithClients in src/cmd/slizenctl/benchmark.go:
    the workers of WorkloadRun, the final validation, and the phase their results are
    added up to. *)
From stdpp Require Import prelude gmap strings list.
From Stdlib Require Import ZArith Lia Ascii.
From S2P Require Import Prelude Float64 Conc GoStd GoText GoTime Workload WorkloadRun Benchmark.
Local Open Scope Z_scope.

Module workloadphase.
Import gostd gotext workload workloadrun benchmark.

Definition workloadTerminationReason (operationAttempts maxRequests : Z) : string :=
  if u64 maxRequests <=? operationAttempts then "request_limit"%string else "duration_limit"%string.

(** The sums of a counter over the workers, as [uint64]. *)
Definition total (f : workloadWorkerResult → Z) (workers : list workloadWorkerResult) : Z :=
  fold_left (λ a w, a +u f w) workers 0.

Section phase.
Context {F : Type} `{Float64 F} `{Sha256}.

Definition assemblePhase (name addr : string) (cfg : workloadConfig) (workers : list workloadWorkerResult)
    (validation : workloadWorkerResult) (validationReads : Z) (elapsed : Duration) : res string (benchmarkPhase F) :=
  let reads0 := total reads workers in
  let writes0 := total writes workers in
  let operationFailures := total failures workers in
  let mismatches0 := total valueMismatches workers in
  let all (f : workloadWorkerResult → list Duration) := concat (f <$> workers) in
  let operationAttempts := reads0 +u writes0 +u operationFailures in
  let terminationReason := workloadTerminationReason operationAttempts (MaxRequests cfg) in
  let failures1 := operationFailures +u failures validation in
  let reads1 := reads0 +u reads validation in
  let mismatches1 := mismatches0 +u valueMismatches validation in
  let requests := reads1 +u writes0 in
  let aggregate := latencyDistributionFor (all latencies ++ latencies validation) in
  let notes :=
    Text ("measured operation issuance stopped at the " ++ ReplaceAll terminationReason "_"%char " "%char ++ " after " ++
          Itoa operationAttempts ++ " operations")%string ::
    (if 0 <? validationReads then
       [Text ("validated the final write generation for " ++ Itoa validationReads ++ " keys")%string] else []) in
  let ops := if 0 <? elapsed then (fofZ requests / seconds elapsed)%f64 else f0 in
  let phase := mkPhase name addr requests operationAttempts terminationReason reads1 writes0 failures1 mismatches1
    validationReads (failures validation) (valueMismatches validation) (seconds elapsed) ops
    (P50 aggregate) (P95 aggregate) (P99 aggregate)
    (latencyDistributionPointer (all readLatencies)) (latencyDistributionPointer (all writeLatencies))
    (latencyDistributionPointer (all readOrderingWaits)) (latencyDistributionPointer (all writeOrderingWaits))
    (latencyDistributionPointer (readLatencies validation))
    0 EmptyString EmptyString 0 0 0 0 0 0 f0 notes in
  if requests =? 0 then Fail "phase completed without a successful operation"%string else Ok phase.

(** A whole phase: the states its two pools of workers end in, and what it returns. *)
Inductive runRedisWorkloadWithClients (name addr scenario : string) (clients : nat) (keys : list string)
    (values : workloadValues) (cfg : workloadConfig) : Run → Check → res string (benchmarkPhase F) → Prop :=
  | run_clients s c :
      Z.of_nat clients ≠ Concurrency cfg →
      runRedisWorkloadWithClients name addr scenario clients keys values cfg s c
        (Fail ("workload client count " ++ Itoa (Z.of_nat clients) ++ " does not match concurrency " ++ Itoa (Concurrency cfg))%string)
  | run_timeout s results c :
      Z.of_nat clients = Concurrency cfg → phaseEnds cfg scenario keys values s results →
      validates keys values (changedKeys (keyStates s)) clients None c →
      runRedisWorkloadWithClients name addr scenario clients keys values cfg s c
        (Fail ("final write-generation validation timed out after checking " ++ Itoa (cAttempted c) ++ " of " ++
               Itoa (Z.of_nat (length (changedKeys (keyStates s)))) ++ " keys")%string)
  | run_done s results c validation validationReads elapsed :
      Z.of_nat clients = Concurrency cfg → phaseEnds cfg scenario keys values s results →
      validates keys values (changedKeys (keyStates s)) clients (Some (validation, validationReads)) c →
      runRedisWorkloadWithClients name addr scenario clients keys values cfg s c
        (assemblePhase name addr cfg results validation validationReads elapsed).

End phase.
End workloadphase.
