(* ===== verification/WorkloadRunProps.v ===== *)
(** * What a measured phase of the workload benchmark reports

    The phase's theorem for checked configurations, and a run of it. *)
From stdpp Require Import prelude gmap strings list.
From Stdlib Require Import ZArith Lia SpecFloat.
From S2P Require Import Prelude Float64 Conc GoStd GoTime Workload WorkloadProps WorkloadRun WorkloadLogic.
From S2P Require Import WorkloadCheck Benchmark WorkloadPhase.
Local Open Scope Z_scope.

Module workloadrunprops.
Import workload workloadprops workloadrun workloadlogic workloadcheck benchmark workloadphase.

Lemma length_buildWorkloadKeys prefix scenario n : length (buildWorkloadKeys prefix scenario n) = Z.to_nat n.
Proof. unfold buildWorkloadKeys. by rewrite length_map, length_seq. Qed.

Lemma total_exact f workers :
  (∀ w, w ∈ workers → 0 <= f w) → in_u64 (sumZ f workers) → total f workers = sumZ f workers.
Proof.
  unfold total. intros Hf. assert (Hg : ∀ a, 0 <= a → in_u64 (a + sumZ f workers) →
    fold_left (λ a w, a +u f w) workers a = a + sumZ f workers); [|intros Hs; by apply Hg].
  induction workers as [|w workers IH]; intros a Ha Hs; cbn in *; [lia|].
  assert (0 <= sumZ f workers) by (apply sumZ_nonneg; intros x Hx; apply Hf; by right).
  assert (0 <= f w) by (apply Hf; left). rewrite u64_id by width_lia.
  rewrite IH; [lia|intros x Hx; apply Hf; by right|lia|]. by rewrite <-Z.add_assoc.
Qed.

(** The written keys, in order. *)
Lemma changedKeys_spec states p k v :
  changedKeys states !! p = Some (k, v) → ∃ ks, states !! k = Some ks ∧ kVersion ks = v ∧ 0 < v.
Proof.
  intros Hp. assert (Hin : (k, v) ∈ changedKeys states) by (by eapply list_elem_of_lookup_2).
  apply list_elem_of_filter in Hin as [Hv Hin]. apply elem_of_lookup_imap in Hin as (i & ks & [= -> ->] & Hi). by exists ks.
Qed.

Lemma changedKeys_length states : (length (changedKeys states) <= length states)%nat.
Proof. unfold changedKeys. etrans; [apply length_filter|]. by rewrite length_imap. Qed.

Lemma changedKeys_elem states k v :
  (k, v) ∈ changedKeys states ↔ ∃ ks, states !! k = Some ks ∧ kVersion ks = v ∧ 0 < v.
Proof.
  split.
  - intros [p Hp]%list_elem_of_lookup_1. by eapply changedKeys_spec.
  - intros (ks & Hk & <- & Hv). apply list_elem_of_filter. split; [done|]. apply elem_of_lookup_imap. by exists k, ks.
Qed.

(** ** A phase of a checked configuration *)
Section phase.
Context `{Sha256} (cfg : workloadConfig) (scenario prefix : string).
Hypothesis Hval : validateWorkloadConfig cfg = None.
Hypothesis Hsel : scenario ∈ selectedWorkloadScenarios (Scenario cfg).

Definition phaseKeys : list string := buildWorkloadKeys prefix scenario (KeyCount cfg).
Definition phaseValues : workloadValues := newWorkloadValues phaseKeys (ValueSize cfg).

Notation N := (Z.to_nat (Concurrency cfg)).
Notation M := (Z.to_nat (MaxRequests cfg)).
Notation reaches := (phaseReaches cfg scenario phaseKeys phaseValues).
Notation ends := (phaseEnds cfg scenario phaseKeys phaseValues).

Lemma setup_bounds :
  MaxRequests cfg = Z.of_nat M ∧ Z.of_nat M <= maxWorkloadRequests ∧ Z.of_nat N <= maxWorkloadConcurrency ∧
  (1 <= N)%nat ∧ Z.of_nat (length phaseKeys) <= maxWorkloadKeys.
Proof.
  pose proof (validate_valid cfg Hval) as [_ Hk _ _ _ Hc Hm _ _ _ _ _]. unfold phaseKeys.
  rewrite length_buildWorkloadKeys. lia.
Qed.

Lemma setup_values : wfValues phaseValues ∧ length (digests phaseValues) = length phaseKeys.
Proof.
  pose proof (validate_valid cfg Hval) as [_ _ Hz _ _ _ _ _ _ _ _ _]. split; [apply newWorkloadValues_wf; lia|].
  simpl. by rewrite length_map.
Qed.

Lemma setup_requests op : 0 <= op < MaxRequests cfg →
  ∃ k read, workloadRequestAt scenario cfg op = Some (k, read) ∧ 0 <= k < Z.of_nat (length phaseKeys).
Proof.
  intros Hop. destruct (request_in_range cfg scenario op Hval Hsel Hop) as (k & read & Hr & Hkr).
  exists k, read. unfold phaseKeys. rewrite length_buildWorkloadKeys. split; [done|lia].
Qed.

(** The lemmas of the workers, at the configuration. *)
Lemma at_setup (Q : Prop) :
  (MaxRequests cfg = Z.of_nat M → Z.of_nat M <= maxWorkloadRequests → Z.of_nat N <= maxWorkloadConcurrency →
   wfValues phaseValues → length (digests phaseValues) = length phaseKeys →
   (∀ op, 0 <= op < MaxRequests cfg →
      ∃ k read, workloadRequestAt scenario cfg op = Some (k, read) ∧ 0 <= k < Z.of_nat (length phaseKeys)) →
   N = N → Q) → Q.
Proof.
  destruct setup_bounds as (H1 & H2 & H3 & _), setup_values as (H4 & H5). intros HQ. apply HQ; try done. apply setup_requests.
Qed.

Lemma setup_no_panic c i : reaches c → c.2 !! i ≠ Some Panic.
Proof. apply at_setup. intros. eapply phase_no_panic; eassumption. Qed.

Lemma setup_inv s results : ends s results → workloadlogic.inv cfg scenario phaseKeys phaseValues N M s.
Proof. intros He. apply at_setup. intros. eapply phase_returned; eassumption. Qed.

Lemma setup_sums s results : ends s results →
  sumZ reads results = count (goodRead phaseValues) (log s) ∧ sumZ writes results = count goodWrite (log s) ∧
  sumZ failures results = count (failedOp phaseValues) (log s) ∧
  sumZ valueMismatches results = count (staleRead phaseValues) (log s).
Proof. apply at_setup. intros. eapply phase_sums; eassumption. Qed.

Lemma setup_versions s results k ks : ends s results → keyStates s !! k = Some ks →
  kWriter ks = None ∧ kVersion ks = acked k (log s).
Proof. apply at_setup. intros. eapply phase_unlocked; eassumption. Qed.

Lemma setup_nonneg s results w : ends s results → w ∈ results →
  0 <= reads w ∧ 0 <= writes w ∧ 0 <= failures w ∧ 0 <= valueMismatches w.
Proof.
  intros He [i Hi]%list_elem_of_lookup_1.
  assert (Hr : workloadlogic.returned phaseValues i w s) by (apply at_setup; intros; eapply phase_returned; eassumption).
  destruct Hr as (c & n & [_ <- _] & [Hc _ _ _]). injection Hc as -> -> -> ->.
  split_and!; apply count_range.
Qed.

Lemma setup_totals s results : ends s results →
  total reads results = count (goodRead phaseValues) (log s) ∧ total writes results = count goodWrite (log s) ∧
  total failures results = count (failedOp phaseValues) (log s) ∧
  total valueMismatches results = count (staleRead phaseValues) (log s).
Proof.
  intros He. destruct (setup_sums s results He) as (S1 & S2 & S3 & S4).
  pose proof (log_bound _ _ _ _ _ _ s (setup_inv s results He)) as Hb. destruct setup_bounds as (_ & HM & _).
  unfold maxWorkloadRequests in HM. rewrite <-S1, <-S2, <-S3, <-S4. split_and!; apply total_exact;
    try (intros w Hw; by apply (setup_nonneg s results)); rewrite ?S1, ?S2, ?S3, ?S4;
    match goal with |- context [count ?f ?l] => pose proof (count_range f l) end; width_lia.
Qed.

(** ** The final validation *)

Notation changedOf s := (changedKeys (keyStates s)).

Lemma setup_changed s results : ends s results →
  Z.of_nat (length (changedOf s)) <= maxWorkloadKeys ∧
  ∀ p index v, changedOf s !! p = Some (index, v) → (index < length phaseKeys)%nat ∧ in_u64 v.
Proof.
  intros He. pose proof (setup_inv s results He) as HI. destruct setup_bounds as (_ & HM & _ & _ & HK).
  pose proof (changedKeys_length (keyStates s)) as Hl. rewrite (iv_length _ _ _ _ _ _ _ HI) in Hl. split; [lia|].
  intros p index v Hp. destruct (changedKeys_spec _ _ _ _ Hp) as (ks & Hk & <- & _).
  split; [rewrite <-(iv_length _ _ _ _ _ _ _ HI); by eapply lookup_lt_Some|].
  destruct (setup_versions s results index ks He Hk) as [_ ->]. pose proof (log_bound _ _ _ _ _ _ s HI).
  pose proof (count_range (ackedBy index) (log s)). unfold acked, maxWorkloadRequests in *. width_lia.
Qed.

Definition checkedOnce (s : Run) (c : Check) : Prop :=
  evOp <$> cLog c ≡ₚ seq 0 (length (changedOf s)) ∧ ∀ ev, ev ∈ cLog c → ofPosition (changedOf s) ev.

Lemma setup_validation s results clients w n c :
  ends s results → Z.of_nat clients = Concurrency cfg →
  validates phaseKeys phaseValues (changedOf s) clients (Some (w, n)) c →
  checkedOnce s c ∧ n = Z.of_nat (length (changedOf s)) ∧
  reads w = count (goodCheck phaseValues (changedOf s)) (cLog c) ∧
  failures w = count (failedCheck phaseValues (changedOf s)) (cLog c) ∧
  valueMismatches w = count (staleCheck phaseValues (changedOf s)) (cLog c).
Proof.
  intros He Hcl Hv. destruct (setup_changed s results He) as [HL Hok]. destruct setup_values as [Hwf Hvk].
  destruct setup_bounds as (_ & _ & HN & _).
  destruct (validation_exact phaseKeys phaseValues (changedOf s) clients HL ltac:(lia) Hwf Hvk Hok w n c Hv) as (H1 & H2 & H3).
  by split; [split|].
Qed.

(** ** The report *)

Context {F : Type} `{Float64 F}.
Notation runs := (runRedisWorkloadWithClients (F := F)).

(** What the numbers of a phase count, in the logs of its commands. *)
Record reported (s : Run) (c : Check) (phase : benchmarkPhase F) : Prop := {
  rp_reads : Reads phase = count (goodRead phaseValues) (log s) + count (goodCheck phaseValues (changedOf s)) (cLog c);
  rp_writes : Writes phase = count goodWrite (log s);
  rp_failures : Failures phase = count (failedOp phaseValues) (log s) + count (failedCheck phaseValues (changedOf s)) (cLog c);
  rp_mismatches : ValueMismatches phase =
    count (staleRead phaseValues) (log s) + count (staleCheck phaseValues (changedOf s)) (cLog c);
  rp_attempts : OperationAttempts phase = Z.of_nat (length (log s));
  rp_requests : Requests phase = Reads phase + Writes phase;
  rp_validated : ValidationReads phase = Z.of_nat (length (changedOf s));
  rp_reason : TerminationReason phase = "request_limit"%string ↔ Z.of_nat (length (log s)) = MaxRequests cfg
}.

Lemma assemble_reported name addr clients s results c w n elapsed phase :
  Z.of_nat clients = Concurrency cfg → ends s results →
  validates phaseKeys phaseValues (changedOf s) clients (Some (w, n)) c →
  assemblePhase name addr cfg results w n elapsed = Ok phase → reported s c phase.
Proof.
  intros Hcl He Hv Ha. destruct (setup_totals s results He) as (T1 & T2 & T3 & T4).
  destruct (setup_validation s results clients w n c He Hcl Hv) as ([Hperm _] & -> & V1 & V2 & V3).
  pose proof (log_bound _ _ _ _ _ _ s (setup_inv s results He)) as Hb. destruct (setup_changed s results He) as [HL _].
  destruct setup_bounds as (HM & HMb & _). destruct (count_split phaseValues (log s)) as [Hs1 Hs2].
  assert (Hlc : length (cLog c) = length (changedOf s)) by (rewrite <-(length_fmap evOp), Hperm, length_seq; done).
  pose proof (count_range (goodCheck phaseValues (changedOf s)) (cLog c)) as R1.
  pose proof (count_range (failedCheck phaseValues (changedOf s)) (cLog c)) as R2.
  pose proof (count_range (staleCheck phaseValues (changedOf s)) (cLog c)) as R3.
  pose proof (count_range (goodRead phaseValues) (log s)). pose proof (count_range goodWrite (log s)).
  pose proof (count_range (failedOp phaseValues) (log s)). pose proof (count_range (staleRead phaseValues) (log s)).
  unfold maxWorkloadRequests, maxWorkloadKeys in *.
  unfold assemblePhase in Ha. rewrite T1, T2, T3, T4, V1, V2, V3 in Ha. cbv zeta in Ha.
  destruct (_ =? 0) in Ha; [done|]. injection Ha as <-. split; simpl; unfold workloadTerminationReason;
    repeat match goal with |- context [u64 ?x] => rewrite (u64_id x) by width_lia end; rewrite ?Hs1; try lia.
  destruct (Z.leb_spec (MaxRequests cfg) (Z.of_nat (length (log s)))); split; try done; lia.
Qed.

Lemma run_ok name addr clients s c phase :
  runs name addr scenario clients phaseKeys phaseValues cfg s c (Ok phase) →
  ∃ results w n elapsed, Z.of_nat clients = Concurrency cfg ∧ ends s results ∧
    validates phaseKeys phaseValues (changedOf s) clients (Some (w, n)) c ∧
    assemblePhase name addr cfg results w n elapsed = Ok phase.
Proof. inversion 1; subst. eauto 10. Qed.

Lemma changed_written s results k v : ends s results →
  (k, v) ∈ changedOf s ↔ (k < length phaseKeys)%nat ∧ v = acked k (log s) ∧ 0 < v.
Proof.
  intros He. rewrite changedKeys_elem, <-(iv_length _ _ _ _ _ _ _ (setup_inv s results He)). split.
  - intros (ks & Hk & <- & Hv). split; [by eapply lookup_lt_Some|]. by destruct (setup_versions s results k ks He Hk).
  - intros (Hk & -> & Hv). destruct (lookup_lt_is_Some_2 (keyStates s) k Hk) as [ks Hks]. exists ks.
    by destruct (setup_versions s results k ks He Hks).
Qed.

End phase.

(** A command that did not fail was answered freshly. *)
Lemma failedOp_get `{Sha256} values older b op k reply :
  failedOp values (EvGet b op k reply) older = false → is_Some reply ∧ filled values k (acked k older) [] = reply.
Proof.
  unfold failedOp, goodRead, goodWrite, staleRead. destruct reply as [value|]; [|done].
  case_bool_decide as Hf; [|done]. by rewrite Hf.
Qed.

Lemma failedCheck_get `{Sha256} values changed older b p k v reply :
  changed !! p = Some (k, v) → failedCheck values changed (EvGet b p k reply) older = false →
  ∃ value, reply = Some value ∧ filled values k v [] = Some value.
Proof.
  intros Hp. unfold failedCheck, goodCheck, staleCheck. destruct reply as [value|]; [|done]. rewrite Hp.
  case_bool_decide as Hf; [|done]. eauto.
Qed.

Section claims.
Context `{Sha256} {F : Type} `{Float64 F}.

(** C33. A phase of the workload benchmark reports exactly what happened, in every
    interleaving of its workers and whatever the server answers. No worker panics (so
    no worker's loop runs longer than one round per operation index); the commands sent
    are the generated ones, each operation index at most once, a SET carrying the
    payload of the version after its key's last acknowledged write; the final
    validation reads every written key exactly once, at the version its acknowledged
    writes give; and the counters of the phase are the counts of those commands:
    value_mismatches the GETs answered with anything but the payload of the last
    acknowledged write, failures those and the failed commands, reads and writes the
    others, and request_limit is reported exactly when every operation was issued. *)
Theorem workload_phase_exact cfg scenario prefix name addr clients s c (phase : benchmarkPhase F) :
  validateWorkloadConfig cfg = None → scenario ∈ selectedWorkloadScenarios (Scenario cfg) →
  let keys := phaseKeys cfg scenario prefix in
  let values := phaseValues cfg scenario prefix in
  runRedisWorkloadWithClients name addr scenario clients keys values cfg s c (Ok phase) →
  (∀ c' i, phaseReaches cfg scenario keys values c' → c'.2 !! i ≠ Some Panic) ∧
  legal cfg scenario values (log s) ∧ NoDup (evOp <$> log s) ∧
  (∀ k v, (k, v) ∈ changedKeys (keyStates s) ↔ (k < length keys)%nat ∧ v = acked k (log s) ∧ 0 < v) ∧
  checkedOnce s c ∧ reported cfg scenario prefix s c phase.
Proof.
  intros Hval Hsel keys values Hrun. destruct (run_ok _ _ _ _ _ _ _ _ _ Hrun) as (results & w & n & elapsed & Hcl & He & Hv & Ha).
  pose proof (setup_inv cfg scenario prefix Hval Hsel s results He) as HI.
  split_and!; [intros c' i; by apply setup_no_panic|by apply HI|by apply HI| | |].
  - intros k v. by eapply changed_written.
  - by eapply setup_validation.
  - by eapply assemble_reported.
Qed.

(** C34. A phase that reports no failure was served fresh values throughout: every GET
    was answered with the payload of the last acknowledged write of its key (the seeded
    one before any), every SET was acknowledged, and after the workers every key that
    was written was read back with the payload of its last version. *)
Theorem clean_phase_fresh cfg scenario prefix name addr clients s c (phase : benchmarkPhase F) :
  validateWorkloadConfig cfg = None → scenario ∈ selectedWorkloadScenarios (Scenario cfg) →
  let keys := phaseKeys cfg scenario prefix in
  let values := phaseValues cfg scenario prefix in
  runRedisWorkloadWithClients name addr scenario clients keys values cfg s c (Ok phase) → Failures phase = 0 →
  (∀ newer older b op k reply, log s = newer ++ EvGet b op k reply :: older →
     is_Some reply ∧ filled values k (acked k older) [] = reply) ∧
  (∀ newer older b op k value ok, log s = newer ++ EvSet b op k value ok :: older →
     ok = true ∧ filled values k (acked k older + 1) [] = Some value) ∧
  (∀ k, (k < length keys)%nat → 0 < acked k (log s) →
     ∃ b p value, EvGet b p k (Some value) ∈ cLog c ∧ filled values k (acked k (log s)) [] = Some value).
Proof.
  intros Hval Hsel keys values Hrun Hf. destruct (run_ok _ _ _ _ _ _ _ _ _ Hrun) as (results & w & n & elapsed & Hcl & He & Hv & Ha).
  pose proof (assemble_reported cfg scenario prefix Hval Hsel _ _ _ _ _ _ _ _ _ _ Hcl He Hv Ha) as Hrp.
  destruct (setup_validation cfg scenario prefix Hval Hsel s results clients w n c He Hcl Hv) as ([Hperm Hpos] & _).
  pose proof (iv_legal _ _ _ _ _ _ _ (setup_inv cfg scenario prefix Hval Hsel s results He)) as Hlegal.
  rewrite (rp_failures _ _ _ _ _ _ Hrp) in Hf.
  pose proof (count_range (failedOp values) (log s)) as R1.
  pose proof (count_range (failedCheck values (changedKeys (keyStates s))) (cLog c)) as R2. fold values in Hf.
  assert (H1 : count (failedOp values) (log s) = 0) by lia.
  assert (H2 : count (failedCheck values (changedKeys (keyStates s))) (cLog c) = 0) by lia.
  split_and!.
  - intros newer older b op k reply Hlog. rewrite Hlog in H1. apply count_zero in H1. by apply failedOp_get in H1.
  - intros newer older b op k value ok Hlog. rewrite Hlog in H1. apply count_zero in H1. rewrite Hlog in Hlegal.
    apply count_full in Hlegal. apply andb_true_iff in Hlegal as [_ Hw]. apply bool_decide_eq_true in Hw.
    split; [|done]. by destruct ok.
  - intros k Hk Hac. assert (Hin : (k, acked k (log s)) ∈ changedKeys (keyStates s)) by (by eapply changed_written).
    apply list_elem_of_lookup_1 in Hin as [p Hp]. assert (Hev : p ∈ evOp <$> cLog c).
    { rewrite Hperm. apply elem_of_seq. apply lookup_lt_Some in Hp. lia. }
    apply list_elem_of_fmap in Hev as (ev & -> & Hev). pose proof (Hpos ev Hev) as [Hrd [v Hev']].
    rewrite Hp in Hev'. injection Hev' as Hkey <-. apply list_elem_of_split in Hev as (l1 & l2 & Hsplit).
    rewrite Hsplit in *. apply count_zero in H2. destruct ev as [b o k' reply|]; [|done]. simpl in *. subst k'.
    eapply failedCheck_get in H2 as (value & -> & Hfill); [|done]. exists b, o, value. split; [|done].
    apply elem_of_app. right. left.
Qed.

End claims.

(** ** A run

    Four operations on two keys by two workers, one after the other, against a server
    that stores what it is sent. *)
Module demo.

(** A stand-in for the digest. *)
Definition padded32 (b : bytes) : bytes := take 32 (b ++ replicate 32 Byte.x00).
Lemma padded32_size b : length (padded32 b) = 32%nat.
Proof. unfold padded32. rewrite length_take, length_app, length_replicate. lia. Qed.
#[local] Instance sha : Sha256 := {| Sum256 := padded32; Sum256_size := padded32_size |}.
#[local] Existing Instance binary64.binary64.

Definition cfg : workloadConfig :=
  mkWorkload "o:1" "p:1" "http://a" "uniform" "k" 2 16 50 2 6 Second 7 1 "text" "".

Notation keys := (phaseKeys cfg "uniform" "k").
Notation values := (phaseValues cfg "uniform" "k").

Definition serve (s : Run) : option Tick :=
  let k := match workloadRequestAt "uniform" cfg (issued s - 1) with Some (k, _) => Z.to_nat k | None => O end in
  Some (mkTick false 0 (filled values k (acked k (log s)) []) true).

Definition phaseRun : Run * list (P workloadWorkerResult) :=
  runTwo serve 200 (started keys) (worker cfg "uniform" keys values).
Definition results : list workloadWorkerResult := value emptyResult <$> phaseRun.2.

Notation changed := (changedKeys (keyStates phaseRun.1)).

Definition answer (s : Check) : option Tick :=
  match changed !! Z.to_nat (cIssued s - 1) with
  | Some (k, v) => Some (mkTick false 0 (filled values k v []) true)
  | None => Some (mkTick false 0 None true)
  end.
Definition checkRun : Check * list (V workloadWorkerResult) :=
  runTwo answer 200 checkStarted (checker keys values changed).
Definition validation : workloadWorkerResult := fold_left addCheck (value emptyResult <$> checkRun.2) emptyResult.

Definition report : res string (benchmarkPhase spec_float) :=
  assemblePhase "slizen" "p:1" cfg results validation (cAttempted checkRun.1) Second.

Lemma phase_ends : phaseEnds cfg "uniform" keys values phaseRun.1 results.
Proof. unfold phaseEnds, phaseReaches. apply runTwo_rtc. vm_compute. reflexivity. Qed.

Lemma check_ends : checkEnds keys values changed 2 checkRun.1 (value emptyResult <$> checkRun.2).
Proof.
  unfold checkEnds. replace (2 `min` length changed)%nat with 2%nat by (vm_compute; reflexivity).
  apply runTwo_rtc. vm_compute. reflexivity.
Qed.

Lemma validated : validates keys values changed 2 (Some (validation, cAttempted checkRun.1)) checkRun.1.
Proof.
  assert (Hatt : (cAttempted checkRun.1 =? Z.of_nat (length changed)) = true) by (vm_compute; reflexivity).
  assert (Hne : changed ≠ []) by (intros Hnil; assert (Hl : length changed = 2%nat) by (vm_compute; reflexivity); by rewrite Hnil in Hl).
  pose proof (validates_run keys values changed 2 checkRun.1 (value emptyResult <$> checkRun.2) Hne check_ends) as Hv.
  rewrite Hatt in Hv. exact Hv.
Qed.

Lemma phase_runs : runRedisWorkloadWithClients "slizen" "p:1" "uniform" 2 keys values cfg phaseRun.1 checkRun.1 report.
Proof.
  exact (run_done "slizen" "p:1" "uniform" 2 keys values cfg phaseRun.1 results checkRun.1 validation (cAttempted checkRun.1)
    Second eq_refl phase_ends validated).
Qed.

Lemma report_clean : ∃ phase, report = Ok phase ∧ Failures phase = 0.
Proof.
  assert (Hr : match report with Ok phase => Failures phase =? 0 | Fail _ => false end = true) by (vm_compute; reflexivity).
  destruct report as [phase|]; [|done]. exists phase. split; [done|]. by apply Z.eqb_eq.
Qed.

Lemma workload_phase_exact_witness : ∃ phase : benchmarkPhase spec_float,
  runRedisWorkloadWithClients "slizen" "p:1" "uniform" 2 keys values cfg phaseRun.1 checkRun.1 (Ok phase) ∧
  reported cfg "uniform" "k" phaseRun.1 checkRun.1 phase.
Proof.
  destruct report_clean as (phase & Hr & _). exists phase. pose proof phase_runs as Hrun. rewrite Hr in Hrun.
  split; [exact Hrun|].
  destruct (workload_phase_exact cfg "uniform" "k" "slizen" "p:1" 2 phaseRun.1 checkRun.1 phase) as (_ & _ & _ & _ & _ & Hrp);
    [vm_compute; reflexivity|left|exact Hrun|exact Hrp].
Defined.

Lemma clean_phase_fresh_witness : ∃ phase : benchmarkPhase spec_float,
  runRedisWorkloadWithClients "slizen" "p:1" "uniform" 2 keys values cfg phaseRun.1 checkRun.1 (Ok phase) ∧ Failures phase = 0 ∧
  ∀ k, (k < length keys)%nat → 0 < acked k (log phaseRun.1) →
    ∃ b p value, EvGet b p k (Some value) ∈ cLog checkRun.1 ∧ filled values k (acked k (log phaseRun.1)) [] = Some value.
Proof.
  destruct report_clean as (phase & Hr & Hf). exists phase. pose proof phase_runs as Hrun. rewrite Hr in Hrun.
  split; [exact Hrun|]. split; [exact Hf|].
  destruct (clean_phase_fresh cfg "uniform" "k" "slizen" "p:1" 2 phaseRun.1 checkRun.1 phase) as (_ & _ & Hlast);
    [vm_compute; reflexivity|left|exact Hrun|exact Hf|exact Hlast].
Defined.

Lemma payload_exact_witness : ∃ value, filled values 1 3 [] = Some value ∧ Matches values 1 3 value = Some true.
Proof.
  destruct (payload_exact keys 16 1 3 []) as (value & Hf & _ & _ & Hm & _); [done|vm_compute; lia|vm_compute; done|].
  exists value. split; [exact Hf|]. change values with (newWorkloadValues keys 16).
  rewrite Hm. by rewrite bool_decide_eq_true_2.
Defined.

Lemma workload_request_exact_witness : ∃ k read, workloadRequestAt "uniform" cfg 3 = Some (k, read) ∧ 0 <= k < 2.
Proof.
  destruct (workload_request_exact cfg "uniform" 3) as (k & read & Hr & Hk & _); [vm_compute; reflexivity|left|done|].
  exists k, read. split; [exact Hr|exact Hk].
Defined.

End demo.
End workloadrunprops.
