(* ===== verification/BenchmarkRun.v ===== *)
(** * The two benchmarks

    Models runHotKeyBenchmark and runWorkloadBenchmark of
    src/cmd/slizenctl/benchmark.go as functions of what their calls to the origin, the
    proxy and the admin API answer: [io] gives the answer of the n-th call of each
    kind, in the order the code makes them. An error ends the run at the call that
    answers it. *)
From stdpp Require Import prelude gmap strings list pretty.
From Stdlib Require Import ZArith Lia Ascii.
From S2P Require Import Prelude Float64 GoStd GoText GoTime Workload Benchmark.
Local Open Scope Z_scope.

Module benchmarkrun.
Import gostd gotext gotime workload benchmark.

Notation R := (res string).

Definition FormatRFC3339 (t : Time) : string := FormatRFC3339Nano (t - t mod Second).

(** An error of a call, with the text it is wrapped in. *)
Definition must (prefix : string) (err : option string) : R unit :=
  match err with None => Ok () | Some e => Fail (prefix ++ e)%string end.
Definition wrap {A} (prefix : string) (r : R A) : R A :=
  match r with Ok a => Ok a | Fail e => Fail (prefix ++ e)%string end.

(** [errors.Join] with the error of closing the clients. *)
Definition joined (e : string) (close : option string) : string :=
  match close with None => e | Some c => (e ++ String newline c)%string end.
Definition joinClose {A} (r : R A) (close : option string) : R A :=
  match r, close with
  | Fail e, _ => Fail (joined e close)
  | Ok _, Some c => Fail c
  | Ok a, None => Ok a
  end.

Record runtimeVersions := mkVersions {
  vSlizenctl : string; vSlizen : string; vCommit : string; vOrigin : string; vGo : string; vOS : string; vArch : string
}.

(** What the binary and its platform report of themselves. *)
Record platform := mkPlatform { buildString : string; goVersion : string; goos : string; goarch : string }.

Definition collectRuntimeVersions (pl : platform) (status : statusSnapshot) (info : R string) : runtimeVersions * option string :=
  let versions origin := mkVersions (buildString pl) (StVersion status) (StCommit status) origin (goVersion pl) (goos pl) (goarch pl) in
  match info with
  | Fail e => (versions "unknown"%string, Some ("origin runtime version unavailable: " ++ e)%string)
  | Ok text =>
      let v := versions (parseOriginVersion text) in
      (v, if bool_decide (vOrigin v = "unknown"%string)
          then Some "origin runtime version unavailable: INFO server did not include a version"%string else None)
  end.

Definition runtimeValid (v : runtimeVersions * option string) : bool :=
  bool_decide (v.2 = None) && knownOriginRuntimeVersion (vOrigin v.1).

Definition optNote (e : option string) : list string := match e with Some e => [e] | None => [] end.

Section runs.
Context {F : Type} `{Float64 F}.
Notation phase := (benchmarkPhase F).

(** A physical delta that is checked against the reads it should equal. *)
Definition isolatedOrigin (p : phase) (before after : originGETCounterSnapshot) (expected : phase → Z) (expectation : string)
    : phase * bool :=
  let '(p, ok) := applyOriginGETCounterDelta p before after in
  if ok : bool then validatePhysicalOriginGETIsolation p (expected p) expectation else (p, false).

(** ** The hot key benchmark *)

Record hotIO := mkHotIO {
  hPlatform : platform;
  hStarted : Time;
  hFinished : Time;
  hStatus : nat → R statusSnapshot;
  hSeed : option string;
  hPurge : nat → option string;
  hInfo : R string;
  hCounter : nat → originGETCounterSnapshot;
  (** A load: its name, the number of workers, the request limit and the time limit. *)
  hLoad : string → Z → Z → Duration → R phase;
  hWarm : option string
}.

Record benchmarkResult := mkBenchmark {
  bName : string;
  bKey : string;
  bConcurrency : Z;
  bDurationSeconds : F;
  bWarmupSeconds : F;
  bMaxRequests : Z;
  bMode : string;
  bKeyVisibility : string;
  bStartedAt : string;
  bFinishedAt : string;
  bPhases : list phase;
  bUpstreamGetReduction : F;
  bCacheHitRatio : F;
  bEvidenceValid : bool;
  bProvedReduction : bool;
  bNotes : list string;
  bStatusBefore : statusSnapshot;
  bStatusAfter : statusSnapshot;
  bRuntimeVersions : runtimeVersions
}.

(** The end of the run: what the three phases and their checks prove. The notes of the
    run id comparison go to the phase variables, of which the result already holds
    copies. *)
Definition concludeHotKey (runtimeEvidenceValid originPhysical coldStatus coldPhysical hotStatus hotPhysical : bool)
    (originPhase coldPhase hotPhase : phase) : bool * F * F * bool :=
  let continuity := (validateSameOriginRunID [originPhase; coldPhase; hotPhase]).2 in
  let evidence := runtimeEvidenceValid && originPhysical && coldStatus && coldPhysical && hotStatus && hotPhysical
    && continuity && (Failures originPhase =? 0) && (Failures coldPhase =? 0) && (Failures hotPhase =? 0)
    && (ValueMismatches originPhase =? 0) && (ValueMismatches coldPhase =? 0) && (ValueMismatches hotPhase =? 0) in
  let ratio := if evidence then CacheHitRatio hotPhase else f0 in
  let reduction := if evidence then upstreamReduction originPhase hotPhase else f0 in
  let proved := evidence && (f0 <? reduction)%f64 && (f0 <? ratio)%f64 && (UpstreamGETs hotPhase <? Requests hotPhase) in
  (evidence, ratio, reduction, proved).

Definition runHotKeyBenchmark (io : hotIO) (key : string) (warmup duration : Duration) (concurrency requests : Z)
    : R benchmarkResult :=
  before ← hStatus io 0;
  must "seed origin: " (hSeed io) ≫= λ _,
  must "purge benchmark key before origin phase: " (hPurge io 0) ≫= λ _,
  let versions := collectRuntimeVersions (hPlatform io) before (hInfo io) in
  originPhase ← hLoad io "origin direct" concurrency requests duration;
  let '(originPhase, originPhysical) :=
    isolatedOrigin originPhase (hCounter io 0) (hCounter io 1) Requests "direct phase reads" in
  must "purge benchmark key before cold phase: " (hPurge io 1) ≫= λ _,
  let coldRequests := minInt requests (maxInt (concurrency *i 2) 1) in
  coldBefore ← hStatus io 1;
  coldPhase ← hLoad io "slizen cold" concurrency coldRequests (minDuration duration (maxDuration (500 * Millisecond) warmup));
  coldAfter ← hStatus io 2;
  let '(coldPhase, coldStatus) := applyHotKeyStatusDelta coldPhase coldBefore coldAfter in
  let '(coldPhase, coldPhysical) :=
    isolatedOrigin coldPhase (hCounter io 2) (hCounter io 3) SlizenStatusUpstreamGETs "Slizen status upstream GET delta" in
  let coldPhase := say coldPhase "cold phase caps requests to avoid intentionally warming the key" in
  let coldPhase := if bool_decide (StMode before = "observe"%string)
    then say (setName coldPhase "slizen observe") "observe mode forwards reads and does not populate local cache" else coldPhase in
  let warmNotes := if bool_decide (StMode before = "cache"%string) then optNote (hWarm io)
    else ["Slizen is not in cache mode; hot phase cannot produce local cache hits"%string] in
  hotBefore ← hStatus io 3;
  hotPhase ← hLoad io "slizen hot" concurrency requests duration;
  hotAfter ← hStatus io 4;
  let '(hotPhase, hotStatus) := applyHotKeyStatusDelta hotPhase hotBefore hotAfter in
  let '(hotPhase, hotPhysical) :=
    isolatedOrigin hotPhase (hCounter io 4) (hCounter io 5) SlizenStatusUpstreamGETs "Slizen status upstream GET delta" in
  let hotPhase := addNotes hotPhase (Text <$> warmNotes) in
  let '(evidence, ratio, reduction, proved) :=
    concludeHotKey (runtimeValid versions) originPhysical coldStatus coldPhysical hotStatus hotPhysical
      originPhase coldPhase hotPhase in
  Ok (mkBenchmark "Slizen Hot Key Benchmark" key concurrency (seconds duration) (seconds warmup) requests (StMode before)
        (StKeyVisibility before) (FormatRFC3339 (hStarted io)) (FormatRFC3339 (hFinished io))
        [originPhase; coldPhase; hotPhase] reduction ratio evidence proved
        (optNote versions.2 ++
         noteIf (negb evidence) "benchmark evidence is invalid because physical origin commandstats or Slizen logical isolation checks failed" ++
         noteIf (negb proved) "benchmark did not prove upstream GET reduction for this run/configuration")
        before hotAfter versions.1).

(** ** The workload benchmark *)

(** The answers of one scenario's calls. *)
Record scenarioIO := mkScenarioIO {
  sSeed : nat → option string;
  sCounter : nat → originGETCounterSnapshot;
  sOriginRun : R phase;
  sClients : option string;
  sPurge : option string;
  sBefore : R statusSnapshot;
  sSlizenRun : R phase;
  sClose : option string;
  sAfter : R statusSnapshot
}.

Definition concludeScenario (runtimeEvidenceValid : bool) (io : scenarioIO) (scenario : string)
    (originPhase slizenPhase : phase) (before after : statusSnapshot) : workloadScenarioResult F :=
  let '(originPhase, originPhysical) :=
    isolatedOrigin originPhase (sCounter io 0) (sCounter io 1) Reads "direct phase reads" in
  let '(slizenPhase, statusValid) := applyWorkloadStatusDelta slizenPhase before after in
  let '(slizenPhase, slizenPhysical) :=
    isolatedOrigin slizenPhase (sCounter io 2) (sCounter io 3) SlizenStatusUpstreamGETs "Slizen status upstream GET delta" in
  let '(notes, continuity) := validateSameOriginRunID [originPhase; slizenPhase] in
  summarizeWorkloadScenario scenario (addNotes originPhase notes) (addNotes slizenPhase notes) statusValid
    (originPhysical && slizenPhysical && continuity && runtimeEvidenceValid).

Definition runScenario (runtimeEvidenceValid : bool) (io : scenarioIO) (scenario : string) : R (workloadScenarioResult F) :=
  must ("seed " ++ scenario ++ " workload: ") (sSeed io 0) ≫= λ _,
  originPhase ← wrap ("run " ++ scenario ++ " origin phase: ") (sOriginRun io);
  must ("reset " ++ scenario ++ " workload before Slizen phase: ") (sSeed io 1) ≫= λ _,
  must ("initialize " ++ scenario ++ " Slizen clients: ") (sClients io) ≫= λ _,
  match sPurge io with
  | Some e => Fail (joined ("purge cache before " ++ scenario ++ " workload: " ++ e) (sClose io))
  | None =>
  match sBefore io with
  | Fail e => Fail (joined e (sClose io))
  | Ok before =>
  slizenPhase ← joinClose (wrap ("run " ++ scenario ++ " Slizen phase: ") (sSlizenRun io)) (sClose io);
  after ← sAfter io;
  Ok (concludeScenario runtimeEvidenceValid io scenario originPhase slizenPhase before after)
  end end.

Fixpoint runScenarios (runtimeEvidenceValid : bool) (io : string → scenarioIO) (scenarios : list string)
    : R (list (workloadScenarioResult F)) :=
  match scenarios with
  | [] => Ok []
  | scenario :: rest =>
      r ← runScenario runtimeEvidenceValid (io scenario) scenario;
      rs ← runScenarios runtimeEvidenceValid io rest;
      Ok (r :: rs)
  end.

Record workloadIO := mkWorkloadIO {
  wPlatform : platform;
  wStarted : Time;
  wFinished : Time;
  wPid : Z;
  wStatus : R statusSnapshot;
  wInfo : R string;
  wScenario : string → scenarioIO
}.

Record workloadBenchmarkResult := mkWorkloadResult {
  wbName : string;
  wbScenarioSelection : string;
  wbSeed : Z;
  wbKeyPrefix : string;
  wbIsolatedKeyPrefix : string;
  wbKeyCount : Z;
  wbValueSizeBytes : Z;
  wbReadRatioPercent : Z;
  wbWriteRatioPercent : Z;
  wbConcurrency : Z;
  wbDurationSeconds : F;
  wbMaxRequests : Z;
  wbFlashEvery : Z;
  wbMode : string;
  wbStartedAt : string;
  wbFinishedAt : string;
  wbRuntimeVersions : runtimeVersions;
  wbScenarios : list (workloadScenarioResult F);
  wbNotes : list string
}.

Definition workloadIsolatedKeyPrefix (prefix : string) (started : Time) (pid : Z) : string :=
  (prefix ++ ":run-" ++ Itoa started ++ "-" ++ Itoa pid)%string.

Definition workloadNotes : list string :=
  ["results describe this run and configuration only; they are not universal capacity or latency claims";
   "isolated_key_prefix is unique to this invocation so cache and adaptive hotness state start clean for every repeated run";
   "successful GETs are checked against deterministic key-and-write-version payloads; per-key ordering and final validation make stale-after-write responses invalidate the evidence";
   "aggregate p50_ms/p95_ms/p99_ms preserve end-to-end harness latency for successful measured reads, writes, and final-validation reads, including per-key ordering wait for generated operations";
   "read_latency and write_latency measure the Redis command after per-key ordering is acquired; read_ordering_wait_latency and write_ordering_wait_latency report that wait separately; final_validation_latency has no ordering wait";
   "read_latency combines cache hits and misses because process-global status counters cannot attribute an individual latency sample to a cache outcome";
   "termination_reason identifies whether measured operation issuance reached the request or duration limit; final validation runs afterward";
   "upstream_gets is the physical origin cmdstat_get calls delta from INFO commandstats; slizen_status_upstream_gets preserves the Slizen logical delta for isolation checks"]%string.

Definition runWorkloadBenchmark (io : workloadIO) (cfg : workloadConfig) : R workloadBenchmarkResult :=
  let isolatedKeyPrefix := workloadIsolatedKeyPrefix (KeyPrefix cfg) (wStarted io) (wPid io) in
  status ← wStatus io;
  let versions := collectRuntimeVersions (wPlatform io) status (wInfo io) in
  scenarios ← runScenarios (runtimeValid versions) (wScenario io) (selectedWorkloadScenarios (Scenario cfg));
  Ok (mkWorkloadResult "Slizen Release Workload Benchmark" (Scenario cfg) (Seed cfg) (KeyPrefix cfg) isolatedKeyPrefix
        (KeyCount cfg) (ValueSize cfg) (ReadRatio cfg) (100 -i ReadRatio cfg) (Concurrency cfg) (seconds (RunDuration cfg))
        (MaxRequests cfg) (FlashEvery cfg) (StMode status) (FormatRFC3339 (wStarted io)) (FormatRFC3339 (wFinished io))
        versions.1 scenarios
        (workloadNotes ++ optNote versions.2 ++
         noteIf (negb (bool_decide (StMode status = "cache"%string)))
           "Slizen is not in cache mode; local cache hits and origin GET reduction are not expected")).

End runs.
Arguments hotIO : clear implicits.
Arguments benchmarkResult : clear implicits.
Arguments scenarioIO : clear implicits.
Arguments workloadIO : clear implicits.
Arguments workloadBenchmarkResult : clear implicits.
End benchmarkrun.
