(* ===== verification/BenchmarkProps.v ===== *)
(** * What a benchmark's verdict means

    A run that reports a proved reduction of origin GETs did reduce them: the verdict
    is traced back to the counters the origin and Slizen answered, in exact
    arithmetic. *)
From stdpp Require Import prelude gmap strings list.
From Stdlib Require Import ZArith Lia Ascii SpecFloat.
From S2P Require Import Prelude Float64 GoStd GoText GoTime Scorer Workload Benchmark BenchmarkRun.
Local Open Scope Z_scope.

Module benchmarkprops.
Import gostd gotext gotime workload benchmark benchmarkrun.

(** ** What the checks establish *)

(** Two snapshots of one run of the daemon. *)
Record sameDaemon `{Float64 F} (before after : statusSnapshot) : Prop := {
  sd_identity : StVersion after = StVersion before ∧ StCommit after = StCommit before ∧
                StMode after = StMode before ∧ StKeyVisibility after = StKeyVisibility before;
  sd_uptime : ∃ u v, ParseDuration (StUptime before) = inl u ∧ ParseDuration (StUptime after) = inl v ∧ u <= v;
  sd_counters : Forall (λ f, f before <= f after)
    [RequestsTotal; CacheHitsTotal; CacheMissesTotal; StMissesPolicyBypass; StMissesNotAdmitted; StMissesNotPresent;
     UpstreamRequestsTotal; UpstreamGETsTotal; CoalescedRequestsTotal; InvalidationsTotal; PromotionsTotal; DemotionsTotal]
}.

(** Two readings of the counter of one run of the origin. *)
Record sameOrigin (before after : originGETCounterSnapshot) : Prop := {
  so_read : CounterErr before = None ∧ CounterErr after = None;
  so_run : RunID after = RunID before ∧ RunID before ≠ EmptyString;
  so_calls : Calls before <= Calls after
}.

Section checks.
Context {F : Type} `{Float64 F}.
Notation phase := (benchmarkPhase F).

Local Ltac tests :=
  repeat match goal with
  | H : (_ || _) = false |- _ => apply orb_false_iff in H as [? ?]
  | H : (_ && _) = true |- _ => apply andb_true_iff in H as [? ?]
  | H : negb _ = false |- _ => apply negb_false_iff in H
  | H : negb _ = true |- _ => apply negb_true_iff in H
  | H : bool_decide _ = true |- _ => apply bool_decide_eq_true in H
  | H : bool_decide _ = false |- _ => apply bool_decide_eq_false in H
  end; ztests.

Lemma invalidStatusDeltaReason_none before after :
  invalidStatusDeltaReason before after = EmptyString → sameDaemon before after.
Proof.
  unfold invalidStatusDeltaReason. case_if; [done|].
  destruct (ParseDuration (StUptime before)) as [u|] eqn:Hu, (ParseDuration (StUptime after)) as [v|] eqn:Hv; try done.
  case_if; [done|]. case_if; [done|]. intros _. tests. split; [done|exists u, v; split_and!; [done..|lia]|].
  match goal with Hf : existsb _ _ = false |- _ => rename Hf into Hfell end.
  apply Forall_forall. intros f Hf. destruct (Z.le_gt_cases (f before) (f after)) as [|Hlt]; [done|].
  exfalso. rewrite <-not_true_iff_false in Hfell. apply Hfell. apply existsb_exists. exists f. split; [by apply list_elem_of_In|].
  by apply Z.ltb_lt.
Qed.

Lemma originDelta_ok (p p' : phase) before after :
  applyOriginGETCounterDelta p before after = (p', true) →
  sameOrigin before after ∧ p' = setOrigin p (Calls after - Calls before) originGETsSourceCommandstats (RunID before).
Proof.
  unfold applyOriginGETCounterDelta. destruct (CounterErr before) eqn:E1, (CounterErr after) eqn:E2; try done.
  repeat (case_if; [done|]). intros [= <-]. tests. split; [|done]. split; [done|done|lia].
Qed.

Lemma isolatedOrigin_ok (p p' : phase) before after expected expectation :
  isolatedOrigin p before after expected expectation = (p', true) →
  sameOrigin before after ∧ p' = setOrigin p (Calls after - Calls before) originGETsSourceCommandstats (RunID before) ∧
  expected p' = Calls after - Calls before.
Proof.
  unfold isolatedOrigin. destruct (applyOriginGETCounterDelta p before after) as [q []] eqn:Hd; [|done].
  destruct (originDelta_ok p q before after Hd) as [Hso ->].
  unfold validatePhysicalOriginGETIsolation. case_if; [done|]. case_if; [|done]. intros [= <-]. tests.
  split_and!; [done|done|]. simpl in *. lia.
Qed.

Lemma check_ok (acc : phase * bool) bad n p' : check acc bad n = (p', true) → bad = false ∧ acc = (p', true).
Proof. unfold check. by destruct bad. Qed.

Lemma isolatedDelta_ok gets (p p' : phase) before after :
  applyIsolatedDelta gets p before after = (p', true) →
  sameDaemon before after ∧ p' = applyStatusDelta p before after ∧
  u64 (RequestsTotal after - RequestsTotal before) = Requests p +u Failures p ∧
  (Failures p = 0 → CacheHits p' +u CacheMisses p' = gets p' ∧ SlizenStatusUpstreamGETs p' <= gets p').
Proof.
  unfold applyIsolatedDelta. case_if; [done|]. tests. intros Hc.
  apply check_ok in Hc as [H3 Hc]. apply check_ok in Hc as [H2 Hc]. apply check_ok in Hc as [H1 Hc]. injection Hc as <-.
  split_and!; [by apply invalidStatusDeltaReason_none|done|simpl in *; tests; done|].
  intros Hf. change (Failures (applyStatusDelta p before after)) with (Failures p) in *. rewrite Hf in *. simpl in *. tests.
  split; [done|lia].
Qed.

Lemma subtract_exact after before : before <= after → subtractUint64 after before = after - before.
Proof. intros. unfold subtractUint64. case_if; lia. Qed.

Lemma sameRunID_two (a b : phase) notes :
  validateSameOriginRunID [a; b] = (notes, true) → notes = [] ∧ OriginRunID a = OriginRunID b ∧ OriginRunID a ≠ EmptyString.
Proof.
  simpl. case_if; [done|]. case_if; [|done]. intros [= <-]. tests. done.
Qed.

Lemma addNotes_nil (p : phase) : addNotes p [] = p.
Proof. destruct p. unfold addNotes. simpl. by rewrite app_nil_r. Qed.

(** A reduction is only positive when both phases read something. *)
Lemma reduction_reads `{!FloatOrder F} (origin slizen : phase) :
  (f0 <? workloadOriginGETReduction origin slizen)%f64 = true → Reads origin ≠ 0 ∧ Reads slizen ≠ 0.
Proof.
  intros Hr. assert (Hirr : (f0 <? f0)%f64 = true → False).
  { intros Hf. pose proof (flt_asym f0 f0 Hf). congruence. }
  revert Hr. unfold workloadOriginGETReduction. case_if; [by intros ?%Hirr|]. intros _. by tests.
Qed.

(** What a scenario proves when it claims a reduction, of the counters it read. *)
Record provedScenario (io : scenarioIO F) (origin slizen : phase) (before after : statusSnapshot) : Prop := {
  ps_clean : Failures origin = 0 ∧ ValueMismatches origin = 0 ∧ Failures slizen = 0 ∧ ValueMismatches slizen = 0;
  ps_daemon : sameDaemon before after;
  ps_origin : sameOrigin (sCounter io 0) (sCounter io 1) ∧ sameOrigin (sCounter io 2) (sCounter io 3) ∧
              RunID (sCounter io 2) = RunID (sCounter io 0);
  (** The direct phase: every read reached the origin, and nothing else did. *)
  ps_direct : Calls (sCounter io 1) - Calls (sCounter io 0) = Reads origin ∧ 0 < Reads origin;
  (** The phase through Slizen: the origin saw the GETs Slizen says it forwarded, every
      read was a cache decision, and some were hits. *)
  ps_forwarded : Calls (sCounter io 3) - Calls (sCounter io 2) = UpstreamGETsTotal after - UpstreamGETsTotal before;
  ps_decisions : (CacheHitsTotal after - CacheHitsTotal before) +u (CacheMissesTotal after - CacheMissesTotal before)
                   = Reads slizen ∧ CacheHitsTotal before < CacheHitsTotal after;
  (** The rate of origin GETs per read fell, in exact arithmetic. *)
  ps_reduced : (Calls (sCounter io 3) - Calls (sCounter io 2)) * Reads origin
                 < (Calls (sCounter io 1) - Calls (sCounter io 0)) * Reads slizen
}.

Lemma concludeScenario_proved `{!FloatOrder F} valid io scenario (origin slizen : phase) before after :
  ProvedOriginGETReduction (concludeScenario valid io scenario origin slizen before after) = true →
  provedScenario io origin slizen before after.
Proof.
  unfold concludeScenario.
  destruct (isolatedOrigin origin _ _ _ _) as [o' okO] eqn:HO.
  destruct (applyWorkloadStatusDelta slizen before after) as [s1 okS] eqn:HS.
  destruct (isolatedOrigin s1 _ _ _ _) as [s' okP] eqn:HP.
  destruct (validateSameOriginRunID [o'; s']) as [notes okC] eqn:HC. cbv zeta. simpl.
  intros Hp. apply andb_true_iff in Hp as [Hp Hlt]. apply andb_true_iff in Hp as [Hp Hhits].
  apply andb_true_iff in Hp as [Hev Hred]. rewrite Hev in Hred. tests. subst.
  apply isolatedOrigin_ok in HO as (SO1 & -> & EO). apply isolatedDelta_ok in HS as (SD & -> & _ & Hdec).
  apply isolatedOrigin_ok in HP as (SO2 & -> & EP). apply sameRunID_two in HC as (-> & Hrun & _).
  rewrite !addNotes_nil in *. simpl in *. apply reduction_reads in Hred as [Hro _]. simpl in Hro.
  pose proof (proj1 (Forall_forall _ _) (sd_counters _ _ SD)) as Hall. cbv beta in Hall.
  assert (Hh : CacheHitsTotal before <= CacheHitsTotal after) by (apply Hall; repeat (left || right)).
  assert (Hm : CacheMissesTotal before <= CacheMissesTotal after) by (apply Hall; repeat (left || right)).
  assert (Hu : UpstreamGETsTotal before <= UpstreamGETsTotal after) by (apply Hall; repeat (left || right)).
  rewrite !subtract_exact in * by done. pose proof (so_calls _ _ SO1). pose proof (so_calls _ _ SO2).
  destruct (Hdec ltac:(done)) as [Hd1 Hd2]. rewrite ?subtract_exact in Hd1, Hd2 by done.
  split; [done|done|done|lia|lia|split; [done|lia]|nia].
Qed.

Lemma wrap_Ok {A} prefix (r : res string A) a : wrap prefix r = Ok a → r = Ok a.
Proof. by destruct r. Qed.
Lemma joinClose_Ok {A} (r : res string A) close a : joinClose r close = Ok a → r = Ok a.
Proof. by destruct r, close. Qed.

Lemma runScenario_ok valid (io : scenarioIO F) scenario sc :
  runScenario valid io scenario = Ok sc →
  ∃ origin slizen before after, sOriginRun io = Ok origin ∧ sSlizenRun io = Ok slizen ∧ sBefore io = Ok before ∧
    sAfter io = Ok after ∧ sc = concludeScenario valid io scenario origin slizen before after.
Proof.
  unfold runScenario. intros Hr. apply bind_Ok in Hr as (_ & _ & Hr). apply bind_Ok in Hr as (origin & HO%wrap_Ok & Hr).
  apply bind_Ok in Hr as (_ & _ & Hr). apply bind_Ok in Hr as (_ & _ & Hr). destruct (sPurge io); [done|].
  destruct (sBefore io) as [before|]; [|done]. apply bind_Ok in Hr as (slizen & HS%joinClose_Ok%wrap_Ok & Hr).
  apply bind_Ok in Hr as (after & HA & Hr). injection Hr as <-. by exists origin, slizen, before, after.
Qed.

Lemma runScenarios_ok valid (io : string → scenarioIO F) scenarios results sc :
  runScenarios valid io scenarios = Ok results → sc ∈ results →
  ∃ scenario, scenario ∈ scenarios ∧ runScenario valid (io scenario) scenario = Ok sc.
Proof.
  revert results. induction scenarios as [|x rest IH]; intros results Hr Hin; simpl in Hr.
  - injection Hr as <-. by apply not_elem_of_nil in Hin.
  - apply bind_Ok in Hr as (r & Hx & Hr). apply bind_Ok in Hr as (rs & Hrs & Hr). injection Hr as <-.
    apply elem_of_cons in Hin as [->|Hin]; [exists x; split; [left|done]|].
    destruct (IH rs Hrs Hin) as (y & Hy & Hrun). exists y. split; [by right|done].
Qed.

Lemma concludeScenario_name valid (io : scenarioIO F) scenario origin slizen before after :
  ScName (concludeScenario valid io scenario origin slizen before after) = scenario.
Proof. unfold concludeScenario. by repeat case_match. Qed.

(** C36. A scenario of the workload benchmark that reports a proved reduction of origin
    GETs did reduce them. Both phases ran without a failed operation or an unexpected
    value, every counter was read from one run of the daemon and one run of the origin
    and never decreased; the direct phase's reads are exactly the GETs the origin
    served meanwhile, the GETs Slizen says it forwarded are exactly those the origin
    served in the other phase, every read of that phase was one cache decision and some
    were hits; and the number of origin GETs per read fell, in exact integer
    arithmetic, whatever the rounding of the reported percentage. *)
Theorem workload_reduction_sound `{!FloatOrder F} (io : workloadIO F) cfg result sc :
  runWorkloadBenchmark io cfg = Ok result → sc ∈ wbScenarios result → ProvedOriginGETReduction sc = true →
  ScName sc ∈ selectedWorkloadScenarios (Scenario cfg) ∧
  ∃ origin slizen before after,
    sOriginRun (wScenario io (ScName sc)) = Ok origin ∧ sSlizenRun (wScenario io (ScName sc)) = Ok slizen ∧
    sBefore (wScenario io (ScName sc)) = Ok before ∧ sAfter (wScenario io (ScName sc)) = Ok after ∧
    provedScenario (wScenario io (ScName sc)) origin slizen before after.
Proof.
  intros Hrun Hin Hp. unfold runWorkloadBenchmark in Hrun. cbv zeta in Hrun.
  apply bind_Ok in Hrun as (status & _ & Hrun). apply bind_Ok in Hrun as (results & Hrs & Hrun). injection Hrun as <-.
  destruct (runScenarios_ok _ _ _ _ _ Hrs Hin) as (scenario & Hsel & Hsc).
  destruct (runScenario_ok _ _ _ _ Hsc) as (origin & slizen & before & after & H1 & H2 & H3 & H4 & ->).
  rewrite concludeScenario_name in *. split; [done|]. exists origin, slizen, before, after. split_and!; [done..|].
  by eapply concludeScenario_proved.
Qed.

(** ** The hot key benchmark *)

Record provedHotKey (io : hotIO F) (origin cold hot : phase) (st : nat → statusSnapshot) : Prop := {
  ph_clean : Forall (λ p, Failures p = 0 ∧ ValueMismatches p = 0) [origin; cold; hot];
  ph_daemon : sameDaemon (st 1%nat) (st 2%nat) ∧ sameDaemon (st 3%nat) (st 4%nat);
  ph_origin : sameOrigin (hCounter io 0) (hCounter io 1) ∧ sameOrigin (hCounter io 2) (hCounter io 3) ∧
              sameOrigin (hCounter io 4) (hCounter io 5) ∧
              RunID (hCounter io 2) = RunID (hCounter io 0) ∧ RunID (hCounter io 4) = RunID (hCounter io 0);
  ph_direct : Calls (hCounter io 1) - Calls (hCounter io 0) = Requests origin ∧ 0 < Requests origin;
  ph_forwarded : Calls (hCounter io 5) - Calls (hCounter io 4) = UpstreamGETsTotal (st 4%nat) - UpstreamGETsTotal (st 3%nat);
  ph_decisions : (CacheHitsTotal (st 4%nat) - CacheHitsTotal (st 3%nat)) +u (CacheMissesTotal (st 4%nat) - CacheMissesTotal (st 3%nat))
                   = Requests hot;
  ph_reduced : (Calls (hCounter io 5) - Calls (hCounter io 4)) * Requests origin
                 < (Calls (hCounter io 1) - Calls (hCounter io 0)) * Requests hot
}.

Lemma upstreamReduction_requests `{!FloatOrder F} (origin hot : phase) :
  (f0 <? upstreamReduction origin hot)%f64 = true → Requests origin ≠ 0.
Proof.
  intros Hr. assert (Hirr : (f0 <? f0)%f64 = true → False).
  { intros Hf. pose proof (flt_asym f0 f0 Hf). congruence. }
  revert Hr. unfold upstreamReduction. case_if; [by intros ?%Hirr|]. intros _. by tests.
Qed.

Lemma sameRunID_three (a b c : phase) :
  (validateSameOriginRunID [a; b; c]).2 = true → OriginRunID b = OriginRunID a ∧ OriginRunID c = OriginRunID a.
Proof. simpl. case_if; [done|]. case_if; [|done]. intros _. simpl in *. tests. done. Qed.

(** The notes and the name of a phase carry no evidence. *)
Definition sameEvidence (p q : phase) : Prop := ∃ name notes, q = addNotes (setName p name) notes.

Lemma concludeHotKey_proved `{!FloatOrder F} (io : hotIO F) (st : nat → statusSnapshot) (origin cold hot : phase) o' c1 c2 c3 h1 h2 h3
    okO okC okCP okH okHP valid t1 t2 t3 ev ratio red :
  isolatedOrigin origin (hCounter io 0) (hCounter io 1) Requests t1 = (o', okO) →
  applyHotKeyStatusDelta cold (st 1%nat) (st 2%nat) = (c1, okC) →
  isolatedOrigin c1 (hCounter io 2) (hCounter io 3) SlizenStatusUpstreamGETs t2 = (c2, okCP) →
  applyHotKeyStatusDelta hot (st 3%nat) (st 4%nat) = (h1, okH) →
  isolatedOrigin h1 (hCounter io 4) (hCounter io 5) SlizenStatusUpstreamGETs t3 = (h2, okHP) →
  sameEvidence c2 c3 → sameEvidence h2 h3 →
  concludeHotKey valid okO okC okCP okH okHP o' c3 h3 = (ev, ratio, red, true) →
  provedHotKey io origin cold hot st.
Proof.
  intros EO EC ECP EH EHP (nc & tc & ->) (nh & th & ->). unfold concludeHotKey. cbv zeta.
  destruct (validateSameOriginRunID _) as [notes continuity] eqn:HC. cbn [snd]. intros Heq.
  injection Heq as Hev _ _ Hp. apply andb_true_iff in Hp as [Hp Hlt]. apply andb_true_iff in Hp as [Hp _].
  apply andb_true_iff in Hp as [Hp Hred]. rewrite Hp in Hred. clear Hev. 
  apply upstreamReduction_requests in Hred. tests. subst.
  apply isolatedOrigin_ok in EO as (SO1 & -> & XO). apply isolatedDelta_ok in EC as (SD1 & -> & _ & _).
  apply isolatedOrigin_ok in ECP as (SO2 & -> & XC). apply isolatedDelta_ok in EH as (SD2 & -> & _ & Hdec).
  apply isolatedOrigin_ok in EHP as (SO3 & -> & XH).
  apply (f_equal snd), sameRunID_three in HC as [R1 R2].
  simpl in *. pose proof (proj1 (Forall_forall _ _) (sd_counters _ _ SD2)) as Hall. cbv beta in Hall.
  assert (Hh : CacheHitsTotal (st 3%nat) <= CacheHitsTotal (st 4%nat)) by (apply Hall; repeat (left || right)).
  assert (Hm : CacheMissesTotal (st 3%nat) <= CacheMissesTotal (st 4%nat)) by (apply Hall; repeat (left || right)).
  assert (Hu : UpstreamGETsTotal (st 3%nat) <= UpstreamGETsTotal (st 4%nat)) by (apply Hall; repeat (left || right)).
  rewrite !subtract_exact in * by done. pose proof (so_calls _ _ SO1). pose proof (so_calls _ _ SO3).
  destruct (Hdec ltac:(done)) as [Hd1 _]. rewrite ?subtract_exact in Hd1 by done.
  split; [repeat constructor; done|done|done|lia|lia|done|nia].
Qed.

Lemma addNotes_evidence (p : phase) notes : sameEvidence p (addNotes p notes).
Proof. exists (Name p), notes. by destruct p. Qed.

Lemma coldNotes_evidence (p : phase) (b : bool) n1 n2 name :
  sameEvidence p (if b then say (setName (say p n1) name) n2 else say p n1).
Proof.
  destruct b; [exists name, ([Text n1] ++ [Text n2])|exists (Name p), [Text n1]]; destruct p; unfold say, addNotes, setName; simpl;
    [by rewrite <-app_assoc|done].
Qed.

(** C37. A hot key benchmark that reports a proved reduction did reduce the origin's
    GETs: in its three phases nothing failed and no value was unexpected, the counters
    come from one run of the daemon per phase and one run of the origin throughout, the
    direct phase's requests are exactly the GETs the origin served, the GETs of the hot
    phase that reached the origin are exactly those Slizen says it forwarded, every hot
    request was one cache decision, and the origin GETs per request fell, in exact
    integer arithmetic. *)
Theorem hotkey_reduction_sound `{!FloatOrder F} (io : hotIO F) key warmup duration concurrency requests b :
  runHotKeyBenchmark io key warmup duration concurrency requests = Ok b → bProvedReduction b = true →
  ∃ origin cold hot st,
    hLoad io "origin direct" concurrency requests duration = Ok origin ∧
    hLoad io "slizen cold" concurrency (minInt requests (maxInt (concurrency *i 2) 1))
      (minDuration duration (maxDuration (500 * Millisecond) warmup)) = Ok cold ∧
    hLoad io "slizen hot" concurrency requests duration = Ok hot ∧
    (∀ n, (n < 5)%nat → hStatus io n = Ok (st n)) ∧ provedHotKey io origin cold hot st.
Proof.
  unfold runHotKeyBenchmark. intros Hrun Hp.
  apply bind_Ok in Hrun as (s0 & Hs0 & Hrun). apply bind_Ok in Hrun as (_ & _ & Hrun). apply bind_Ok in Hrun as (_ & _ & Hrun).
  cbv zeta in Hrun. apply bind_Ok in Hrun as (origin & HO & Hrun).
  destruct (isolatedOrigin origin _ _ _ _) as [o' okO] eqn:EO. apply bind_Ok in Hrun as (_ & _ & Hrun).
  apply bind_Ok in Hrun as (s1 & Hs1 & Hrun). apply bind_Ok in Hrun as (cold & HCo & Hrun).
  apply bind_Ok in Hrun as (s2 & Hs2 & Hrun).
  destruct (applyHotKeyStatusDelta cold s1 s2) as [c1 okC] eqn:EC.
  destruct (isolatedOrigin c1 _ _ _ _) as [c2 okCP] eqn:ECP.
  apply bind_Ok in Hrun as (s3 & Hs3 & Hrun). apply bind_Ok in Hrun as (hot & HH & Hrun).
  apply bind_Ok in Hrun as (s4 & Hs4 & Hrun).
  destruct (applyHotKeyStatusDelta hot s3 s4) as [h1 okH] eqn:EH.
  destruct (isolatedOrigin h1 _ _ _ _) as [h2 okHP] eqn:EHP.
  destruct (concludeHotKey _ _ _ _ _ _ _ _ _) as [[[ev ratio] red] pr] eqn:Econ. injection Hrun as <-. simpl in Hp. subst pr.
  exists origin, cold, hot, (λ n, nth n [s0; s1; s2; s3; s4] s0). split_and!; [done|done|done| |].
  { intros n Hn. do 5 (destruct n as [|n]; [done|]). lia. }
  eapply (concludeHotKey_proved io (λ n, nth n [s0; s1; s2; s3; s4] s0));
    [exact EO|exact EC|exact ECP|exact EH|exact EHP|apply coldNotes_evidence|apply addNotes_evidence|exact Econ].
Qed.

End checks.

(** ** Two runs *)

#[local] Existing Instance binary64.binary64.
#[local] Existing Instance scorer.binary64_order.

Definition demoPhase (requests reads : Z) : benchmarkPhase spec_float :=
  mkPhase "" "" requests requests "" reads (requests - reads) 0 0 0 0 0 f0 f0 f0 f0 f0 None None None None None
    0 "" "" 0 0 0 0 0 0 f0 [].

Definition demoStatus (uptime : string) (requests hits misses gets : Z) : statusSnapshot :=
  mkStatusSnapshot "v1" "c1" "cache" "hash" uptime requests hits misses 0 0 misses gets gets 0 0 0 0 1 100 1.

Definition demoCounter (run : string) (n : Z) : originGETCounterSnapshot :=
  readOriginGETCounter (Ok ("# Server" ++ String newline ("run_id:" ++ run))%string)
    (Ok ("# Commandstats" ++ String newline ("cmdstat_get:calls=" ++ Itoa n ++ ",usec=7"))%string)
    (Ok ("run_id:" ++ run)%string).

(** Ten requests to the origin; four cold and ten hot ones through Slizen, of which two
    and one reach the origin, in the run [run] for the last two counter readings. *)
Definition demoHot (run : string) : hotIO spec_float :=
  mkHotIO (mkPlatform "dev" "go1.22" "linux" "amd64") 0 0
    (λ n, Ok (match n with
              | 0 => demoStatus "1s" 0 0 0 0 | 1 => demoStatus "2s" 0 0 0 0 | 2 => demoStatus "3s" 4 2 2 2
              | 3 => demoStatus "4s" 9 7 2 2 | _ => demoStatus "5s" 19 16 3 3
              end%nat))
    None (λ _, None) (Ok "redis_version:7.2.4"%string)
    (λ n, match n with
          | 0 => demoCounter "a" 0 | 1 => demoCounter "a" 10 | 2 => demoCounter "a" 10 | 3 => demoCounter "a" 12
          | 4 => demoCounter run 12 | _ => demoCounter run 13
          end%nat)
    (λ name _ _ _, Ok (if bool_decide (name = "slizen cold"%string) then demoPhase 4 4 else demoPhase 10 10)) None.

Definition runDemoHot (run : string) : res string (benchmarkResult spec_float) :=
  runHotKeyBenchmark (demoHot run) "k" Second Second 2 10.

Definition holdsOf {A} (r : res string A) (f : A → bool) : bool := match r with Ok a => f a | Fail _ => false end.

Lemma holdsOf_ok {A} (r : res string A) f : holdsOf r f = true → ∃ a, r = Ok a ∧ f a = true.
Proof. destruct r; [eauto|done]. Qed.

Lemma hotkey_reduction_sound_witness : ∃ b, runDemoHot "a" = Ok b ∧ bProvedReduction b = true ∧
  ∃ origin cold hot st, provedHotKey (demoHot "a") origin cold hot st.
Proof.
  destruct (holdsOf_ok (runDemoHot "a") bProvedReduction) as (b & Hr & Hp); [vm_compute; reflexivity|].
  exists b. split; [exact Hr|]. split; [exact Hp|]. unfold runDemoHot in Hr.
  destruct (hotkey_reduction_sound (demoHot "a") "k" Second Second 2 10 b Hr Hp) as (origin & cold & hot & st & _ & _ & _ & _ & Hph).
  by exists origin, cold, hot, st.
Defined.

(** The note that the run ids of the phases differ does not reach the result of the hot
    key benchmark, which holds copies of the phases made before the comparison: here
    the origin restarts before the hot phase, the evidence is refused, and no phase of
    the result says why. *)
Theorem hotkey_restart_note_lost : ∃ b, runDemoHot "b" = Ok b ∧ bEvidenceValid b = false ∧
  validateSameOriginRunID (bPhases b) =
    ([Text "origin run_id changed between comparison phases; restart invalidated reduction evidence"], false) ∧
  Forall (λ p, ∀ n, n ∈ Notes p → n = Text "cold phase caps requests to avoid intentionally warming the key") (bPhases b).
Proof.
  destruct (runDemoHot "b") as [b|e] eqn:Hr; [|vm_compute in Hr; discriminate].
  vm_compute in Hr. injection Hr as <-. eexists. split; [done|]. split; [done|]. split; [vm_compute; reflexivity|].
  repeat constructor; intros n Hn; vm_compute in Hn; set_solver.
Qed.

Definition demoScenario (_ : string) : scenarioIO spec_float :=
  mkScenarioIO (λ _, None)
    (λ n, match n with
          | 0 => demoCounter "a" 0 | 1 => demoCounter "a" 8 | 2 => demoCounter "a" 8 | _ => demoCounter "a" 9
          end%nat)
    (Ok (demoPhase 10 8)) None None (Ok (demoStatus "1s" 0 0 0 0)) (Ok (demoPhase 10 8)) None
    (Ok (demoStatus "2s" 10 7 1 1)).

Definition demoWorkload : workloadIO spec_float :=
  mkWorkloadIO (mkPlatform "dev" "go1.22" "linux" "amd64") 0 0 1 (Ok (demoStatus "1s" 0 0 0 0))
    (Ok "redis_version:7.2.4"%string) demoScenario.

Definition demoConfig : workloadConfig :=
  mkWorkload "o:1" "p:1" "http://a" "uniform" "k" 10 16 80 2 10 Second 1 5 "text" "".

Lemma workload_reduction_sound_witness : ∃ result sc, runWorkloadBenchmark demoWorkload demoConfig = Ok result ∧
  sc ∈ wbScenarios result ∧ ProvedOriginGETReduction sc = true ∧
  ∃ origin slizen before after, provedScenario (demoScenario (ScName sc)) origin slizen before after.
Proof.
  destruct (holdsOf_ok (runWorkloadBenchmark demoWorkload demoConfig) (λ r, existsb ProvedOriginGETReduction (wbScenarios r)))
    as (result & Hr & Hp); [vm_compute; reflexivity|].
  apply existsb_exists in Hp as (sc & Hin & Hp). apply list_elem_of_In in Hin. exists result, sc.
  split; [exact Hr|]. split; [exact Hin|]. split; [exact Hp|].
  destruct (workload_reduction_sound demoWorkload demoConfig result sc Hr Hin Hp) as (_ & o & s & b & a & _ & _ & _ & _ & Hps).
  by exists o, s, b, a.
Defined.

End benchmarkprops.
