(* ===== verification/GoJSON.v ===== *)
(** * UTF-8 and JSON strings, as Go encodes and decodes them

    [utf8.DecodeRune], [utf8.EncodeRune] and [utf8.ValidString]; the string encoder of
    encoding/json with its escapes of HTML, control characters and malformed UTF-8, and
    the unquoting of string literals with \u escapes and surrogate pairs. Text is a list
    of byte values. The encoder and the decoder are inverse up to malformed UTF-8, which
    both replace by U+FFFD, and a quoted string that is cut short is never accepted. *)
From stdpp Require Import prelude strings list.
From Stdlib Require Import ZArith Lia Ascii.
From S2P Require Import Prelude GoStd.
Local Open Scope Z_scope.

Module gojson.
Import gostd.

Definition byteCode (a : ascii) : Z := Z.of_N (N_of_ascii a).
Definition codes (s : string) : list Z := byteCode <$> chars s.
Definition ofCodes (l : list Z) : string := ofChars ((λ z, ascii_of_N (Z.to_N z)) <$> l).

Definition within (lo hi b : Z) : bool := (lo <=? b) && (b <=? hi).

(** ** unicode/utf8 *)

Definition RuneError : Z := 65533.

(** The second bytes that may follow a first byte. *)
Definition secondRange (b0 : Z) : Z * Z :=
  if b0 =? 224 then (160, 191)
  else if b0 =? 237 then (128, 159)
  else if b0 =? 240 then (144, 191)
  else if b0 =? 244 then (128, 143)
  else (128, 191).

(** The first rune and its size; [None] is [RuneError] of size 1. *)
Definition decodeRune (l : list Z) : option (Z * nat) :=
  match l with
  | [] => None
  | b0 :: l1 =>
      if b0 <? 128 then Some (b0, 1%nat)
      else match l1 with
      | [] => None
      | b1 :: l2 =>
          let '(lo, hi) := secondRange b0 in
          if negb (within lo hi b1) then None
          else if within 194 223 b0 then Some ((b0 - 192) * 64 + (b1 - 128), 2%nat)
          else match l2 with
          | [] => None
          | b2 :: l3 =>
              if negb (within 128 191 b2) then None
              else if within 224 239 b0 then Some ((b0 - 224) * 4096 + (b1 - 128) * 64 + (b2 - 128), 3%nat)
              else match l3 with
              | [] => None
              | b3 :: _ =>
                  if within 240 244 b0 && within 128 191 b3
                  then Some ((b0 - 240) * 262144 + (b1 - 128) * 4096 + (b2 - 128) * 64 + (b3 - 128), 4%nat)
                  else None
              end
          end
      end
  end.

Definition surrogate (r : Z) : bool := within 55296 57343 r.

Definition scalar (r : Z) : bool := within 0 1114111 r && negb (surrogate r).

Definition encode3 (r : Z) : list Z := [224 + r / 4096; 128 + (r / 64) mod 64; 128 + r mod 64].

Definition encodeRune (r : Z) : list Z :=
  if negb (scalar r) then encode3 RuneError
  else if r <? 128 then [r]
  else if r <? 2048 then [192 + r / 64; 128 + r mod 64]
  else if r <? 65536 then encode3 r
  else [240 + r / 262144; 128 + (r / 4096) mod 64; 128 + (r / 64) mod 64; 128 + r mod 64].

(** The runes of a text, as a loop over it sees them; [None] is a malformed byte. The
    first argument counts the bytes of the current rune that are still to be passed. *)
Fixpoint runesFrom (skip : nat) (l : list Z) : list (option Z) :=
  match l with
  | [] => []
  | _ :: l' =>
      match skip with
      | S n => runesFrom n l'
      | O => match decodeRune l with
             | Some (r, n) => Some r :: runesFrom (n - 1) l'
             | None => None :: runesFrom 0 l'
             end
      end
  end.

Definition runes (l : list Z) : list (option Z) := runesFrom 0 l.

Definition ValidString (s : string) : bool := forallb (λ o, bool_decide (is_Some o)) (runes (codes s)).

(** A text with every malformed byte replaced by U+FFFD. *)
Definition runeText (o : option Z) : list Z := encodeRune (default RuneError o).
Definition toValid (s : string) : string := ofCodes (runes (codes s) ≫= runeText).

(** ** The string encoder *)

Definition hexDigit (d : Z) : Z := if d <? 10 then 48 + d else 87 + d.

Definition htmlSafe (b : Z) : bool :=
  (32 <=? b) && negb (bool_decide (b ∈ [34; 38; 60; 62; 92])).

Definition quoteASCII (b : Z) : list Z :=
  if htmlSafe b then [b]
  else if bool_decide (b ∈ [34; 92]) then [92; b]
  else if b =? 8 then [92; 98]
  else if b =? 12 then [92; 102]
  else if b =? 10 then [92; 110]
  else if b =? 13 then [92; 114]
  else if b =? 9 then [92; 116]
  else [92; 117; 48; 48; hexDigit (b / 16); hexDigit (b mod 16)].

(** A rune that needs no escape is copied as it stands in the text. *)
Definition quoteRune (o : option Z) : list Z :=
  match o with
  | None => [92; 117; 102; 102; 102; 100]
  | Some r =>
      if r <? 128 then quoteASCII r
      else if bool_decide (r ∈ [8232; 8233]) then [92; 117; 50; 48; 50; hexDigit (r mod 16)]
      else encodeRune r
  end.

Definition appendString (l : list Z) : list Z := [34] ++ (runes l ≫= quoteRune) ++ [34].

(** ** String literals *)

Definition hexValue (c : Z) : option Z :=
  if within 48 57 c then Some (c - 48)
  else if within 97 102 c then Some (c - 87)
  else if within 65 70 c then Some (c - 55)
  else None.

(** Four hexadecimal digits. *)
Definition getu4 (l : list Z) : option (Z * list Z) :=
  match l with
  | a :: b :: c :: d :: l' =>
      match hexValue a, hexValue b, hexValue c, hexValue d with
      | Some x, Some y, Some z, Some w => Some (x * 4096 + y * 256 + z * 16 + w, l')
      | _, _, _, _ => None
      end
  | _ => None
  end.

Definition escaped (c : Z) : option Z :=
  if bool_decide (c ∈ [34; 92; 47]) then Some c
  else if c =? 98 then Some 8
  else if c =? 102 then Some 12
  else if c =? 110 then Some 10
  else if c =? 114 then Some 13
  else if c =? 116 then Some 9
  else None.

(** [utf16.DecodeRune] *)
Definition decodePair (r1 r2 : Z) : option Z :=
  if within 55296 56319 r1 && within 56320 57343 r2
  then Some ((r1 - 55296) * 1024 + (r2 - 56320) + 65536) else None.

(** What a \u escape stands for, with the second half of a pair when there is one. *)
Definition unicodeEscape (l : list Z) : option (list Z * list Z) :=
  match getu4 l with
  | None => None
  | Some (r, l1) =>
      if surrogate r then
        match l1 with
        | 92 :: 117 :: l2 =>
            match getu4 l2 with
            | Some (r2, l3) =>
                match decodePair r r2 with
                | Some p => Some (encodeRune p, l3)
                | None => Some (encodeRune RuneError, l1)
                end
            | None => Some (encodeRune RuneError, l1)
            end
        | _ => Some (encodeRune RuneError, l1)
        end
      else Some (encodeRune r, l1)
  end.

Definition prepend (v : list Z) (o : option (list Z * list Z)) : option (list Z * list Z) :=
  match o with Some (w, rest) => Some (v ++ w, rest) | None => None end.

(** The rest of a literal, after its opening quote: the value and what follows the
    closing quote. Every round consumes a byte, so the length bounds the rounds. *)
Fixpoint literal (fuel : nat) (l : list Z) : option (list Z * list Z) :=
  match fuel, l with
  | S fuel', c :: l' =>
      if c =? 34 then Some ([], l')
      else if c =? 92 then
        match l' with
        | [] => None
        | e :: l'' =>
            match escaped e with
            | Some b => prepend [b] (literal fuel' l'')
            | None =>
                if e =? 117 then
                  match unicodeEscape l'' with
                  | Some (v, l3) => prepend v (literal fuel' l3)
                  | None => None
                  end
                else None
            end
        end
      else if c <? 32 then None
      else match decodeRune l with
           | Some (r, n) => prepend (encodeRune r) (literal fuel' (drop n l))
           | None => prepend (encodeRune RuneError) (literal fuel' l')
           end
  | _, _ => None
  end.

Definition parseString (l : list Z) : option (list Z * list Z) := literal (S (length l)) l.

(** White space between tokens. *)
Fixpoint skipSpace (l : list Z) : list Z :=
  match l with
  | c :: l' => if bool_decide (c ∈ [32; 9; 13; 10]) then skipSpace l' else l
  | [] => []
  end.

Example quoted : appendString [97; 60; 195; 169] = [34; 97; 92; 117; 48; 48; 51; 99; 195; 169; 34].
Proof. vm_compute. reflexivity. Qed.
Example paired : parseString (codes "\uD83D\uDE00" ++ [34; 44]) = Some ([240; 159; 152; 128], [44]).
Proof. vm_compute. reflexivity. Qed.
Example unpaired : parseString (codes "\uD83Dx" ++ [34]) = Some ([239; 191; 189; 120], []).
Proof. vm_compute. reflexivity. Qed.

(** ** Bytes and runes *)

Definition isByte (z : Z) : Prop := 0 <= z < 256.

Lemma byteCode_range a : isByte (byteCode a).
Proof. unfold isByte, byteCode. pose proof (N_ascii_bounded a). lia. Qed.

Lemma codes_bytes s : Forall isByte (codes s).
Proof. apply Forall_fmap, Forall_true. intros a. apply byteCode_range. Qed.

Lemma ofCodes_codes s : ofCodes (codes s) = s.
Proof.
  unfold ofCodes, codes. rewrite <-list_fmap_compose.
  rewrite (list_fmap_ext _ id); [by rewrite list_fmap_id, ofChars_chars|].
  intros i a _. unfold compose, byteCode. cbn. by rewrite N2Z.id, ascii_N_embedding.
Qed.

Lemma chars_ofChars l : chars (ofChars l) = l.
Proof. apply String.list_ascii_of_string_of_list_ascii. Qed.

Lemma codes_ofCodes l : Forall isByte l → codes (ofCodes l) = l.
Proof.
  intros Hl. unfold codes, ofCodes. rewrite chars_ofChars, <-list_fmap_compose.
  induction Hl as [|z l Hz _ IH]; [done|]. cbn. rewrite IH. unfold byteCode, isByte in *.
  rewrite N_ascii_embedding by lia. by rewrite Z2N.id by lia.
Qed.

Ltac bounds :=
  repeat match goal with
  | H : _ && _ = true |- _ => apply andb_true_iff in H as [? ?]
  | H : _ && _ = false |- _ => apply andb_false_iff in H as [?|?]
  | H : negb _ = true |- _ => apply negb_true_iff in H
  | H : negb _ = false |- _ => apply negb_false_iff in H
  | H : (_ <=? _) = true |- _ => apply Z.leb_le in H
  | H : (_ <=? _) = false |- _ => apply Z.leb_gt in H
  | H : (_ <? _) = true |- _ => apply Z.ltb_lt in H
  | H : (_ <? _) = false |- _ => apply Z.ltb_ge in H
  | H : (_ =? _) = true |- _ => apply Z.eqb_eq in H
  | H : (_ =? _) = false |- _ => apply Z.eqb_neq in H
  end.

Lemma within_true lo hi b : lo <= b <= hi → within lo hi b = true.
Proof. intros ?. unfold within. apply andb_true_iff. split; apply Z.leb_le; lia. Qed.
Lemma within_iff lo hi b : within lo hi b = true ↔ lo <= b <= hi.
Proof. unfold within. rewrite andb_true_iff, !Z.leb_le. lia. Qed.
Lemma within_false lo hi b : within lo hi b = false ↔ b < lo ∨ hi < b.
Proof. unfold within. rewrite andb_false_iff, !Z.leb_gt. lia. Qed.

Lemma scalar_iff r : scalar r = true ↔ 0 <= r < 55296 ∨ 57344 <= r <= 1114111.
Proof. unfold scalar, surrogate. rewrite andb_true_iff, negb_true_iff, within_iff, within_false. lia. Qed.

Ltac arith := Z.to_euclidean_division_equations; lia.

(** Deciding the tests of a goal by arithmetic on the rune. *)
Ltac tests :=
  repeat match goal with
  | |- context [?a <? ?b] =>
      first [rewrite (proj2 (Z.ltb_ge a b)) by arith | rewrite (proj2 (Z.ltb_lt a b)) by arith]
  | |- context [?a =? ?b] =>
      first [rewrite (proj2 (Z.eqb_neq a b)) by arith | rewrite (proj2 (Z.eqb_eq a b)) by arith]
  | |- context [within ?a ?b ?c] =>
      first [rewrite (proj2 (within_iff a b c)) by arith | rewrite (proj2 (within_false a b c)) by arith]
  end; cbn.

Lemma decode2 b0 b1 rest :
  194 <= b0 <= 223 → 128 <= b1 <= 191 →
  decodeRune (b0 :: b1 :: rest) = Some ((b0 - 192) * 64 + (b1 - 128), 2%nat).
Proof. intros ? ?. cbn [decodeRune]. unfold secondRange. tests. done. Qed.

Lemma decode3 b0 b1 b2 rest :
  224 <= b0 <= 239 → 128 <= b1 <= 191 → 128 <= b2 <= 191 → (b0 = 224 → 160 <= b1) → (b0 = 237 → b1 <= 159) →
  decodeRune (b0 :: b1 :: b2 :: rest) = Some ((b0 - 224) * 4096 + (b1 - 128) * 64 + (b2 - 128), 3%nat).
Proof.
  intros ? ? ? ? ?. cbn [decodeRune]. unfold secondRange.
  destruct (decide (b0 = 224)) as [->|]; [|destruct (decide (b0 = 237)) as [->|]]; tests; done.
Qed.

Lemma decode4 b0 b1 b2 b3 rest :
  240 <= b0 <= 244 → 128 <= b1 <= 191 → 128 <= b2 <= 191 → 128 <= b3 <= 191 →
  (b0 = 240 → 144 <= b1) → (b0 = 244 → b1 <= 143) →
  decodeRune (b0 :: b1 :: b2 :: b3 :: rest)
    = Some ((b0 - 240) * 262144 + (b1 - 128) * 4096 + (b2 - 128) * 64 + (b3 - 128), 4%nat).
Proof.
  intros ? ? ? ? ? ?. cbn [decodeRune]. unfold secondRange.
  destruct (decide (b0 = 240)) as [->|]; [|destruct (decide (b0 = 244)) as [->|]]; tests; done.
Qed.

(** Decoding what was encoded. *)
Lemma decode_encode r rest :
  scalar r = true → decodeRune (encodeRune r ++ rest) = Some (r, length (encodeRune r)).
Proof.
  intros Hs. unfold encodeRune. rewrite Hs. apply scalar_iff in Hs. cbn [negb].
  destruct (r <? 128) eqn:E1; bounds; [cbn; by rewrite (proj2 (Z.ltb_lt r 128) E1)|].
  destruct (r <? 2048) eqn:E2; bounds; [cbn [app length]; rewrite decode2 by arith; do 2 f_equal; arith|].
  destruct (r <? 65536) eqn:E3; bounds; unfold encode3; cbn [app length].
  - rewrite decode3 by arith. do 2 f_equal. arith.
  - rewrite decode4 by arith. do 2 f_equal. arith.
Qed.

(** Encoding what was decoded. *)
Lemma secondRange_sub b0 lo hi : secondRange b0 = (lo, hi) →
  128 <= lo ∧ hi <= 191 ∧ (b0 = 224 → lo = 160) ∧ (b0 = 237 → hi = 159) ∧ (b0 = 240 → lo = 144) ∧ (b0 = 244 → hi = 143).
Proof.
  unfold secondRange. repeat case_match; bounds; intros [= <- <-]; lia.
Qed.

Lemma encode_scalar r l :
  scalar r = true → (r <? 128 = false → r <? 2048 = false → r <? 65536 = true → encode3 r = l) →
  (r < 128 → [r] = l) → (128 <= r < 2048 → [192 + r / 64; 128 + r mod 64] = l) →
  (65536 <= r → [240 + r / 262144; 128 + (r / 4096) mod 64; 128 + (r / 64) mod 64; 128 + r mod 64] = l) →
  encodeRune r = l.
Proof.
  intros Hs H3 H1 H2 H4. unfold encodeRune. rewrite Hs. cbn [negb].
  destruct (r <? 128) eqn:E1; bounds; [auto|]. destruct (r <? 2048) eqn:E2; bounds; [auto with lia|].
  destruct (r <? 65536) eqn:E3; bounds; [apply H3; auto|auto].
  all: by apply Z.ltb_ge.
Qed.

Lemma encode_decode l r n :
  Forall isByte l → decodeRune l = Some (r, n) →
  scalar r = true ∧ encodeRune r = take n l ∧ (1 <= n <= length l)%nat.
Proof.
  intros Hl. destruct l as [|b0 l]; [done|]. apply Forall_cons in Hl as [H0 Hl]. unfold isByte in H0. cbn [decodeRune].
  destruct (b0 <? 128) eqn:E0.
  { intros [= <- <-]. bounds. assert (Hs : scalar b0 = true) by (apply scalar_iff; lia).
    unfold encodeRune. rewrite Hs. tests. split_and!; [done..|lia|lia]. }
  destruct l as [|b1 l]; [done|]. destruct (secondRange b0) as [lo hi] eqn:Er. apply secondRange_sub in Er.
  destruct (within lo hi b1) eqn:E1; [|done]. apply within_iff in E1. cbn [negb].
  destruct (within 194 223 b0) eqn:E2.
  { intros [= <- <-]. apply within_iff in E2. bounds. split_and!; [apply scalar_iff; lia| |cbn; lia..].
    apply encode_scalar; [apply scalar_iff; lia|bounds..]; cbn; intros; bounds; try lia. repeat f_equal; arith. }
  destruct l as [|b2 l]; [done|]. destruct (within 128 191 b2) eqn:E3; [|done]. apply within_iff in E3. cbn [negb].
  apply within_false in E2. bounds.
  destruct (within 224 239 b0) eqn:E4.
  { intros [= <- <-]. apply within_iff in E4. split_and!; [apply scalar_iff; lia| |cbn; lia..].
    apply encode_scalar; [apply scalar_iff; lia|..]; cbn; intros; bounds; try lia. unfold encode3. repeat f_equal; arith. }
  destruct l as [|b3 l]; [done|]. apply within_false in E4.
  destruct (within 240 244 b0 && within 128 191 b3) eqn:E5; [|done]. intros [= <- <-].
  apply andb_true_iff in E5 as [E5 E6]. apply within_iff in E5, E6.
  split_and!; [apply scalar_iff; lia| |cbn; lia..].
  apply encode_scalar; [apply scalar_iff; lia|..]; cbn; intros; bounds; try lia. repeat f_equal; arith.
Qed.

Definition okRune (o : option Z) : Prop := match o with Some r => scalar r = true | None => True end.

Lemma runesFrom_drop n l : runesFrom n l = runes (drop n l).
Proof.
  unfold runes. revert l. induction n as [|n IH]; intros l; [by rewrite drop_0|].
  destruct l as [|b l]; [done|]. cbn [drop]. apply IH.
Qed.

Lemma runes_cons b l :
  runes (b :: l) = match decodeRune (b :: l) with
                   | Some (r, n) => Some r :: runes (drop (n - 1) l)
                   | None => None :: runes l
                   end.
Proof.
  unfold runes at 1. cbn [runesFrom]. destruct (decodeRune (b :: l)) as [[r n]|]; [by rewrite runesFrom_drop|done].
Qed.

(** The runes of a text follow its well-formed encodings. *)
Lemma runes_induction (Q : list Z → list (option Z) → Prop) :
  Q [] [] →
  (∀ r l, scalar r = true → Forall isByte l → Q l (runes l) → Q (encodeRune r ++ l) (Some r :: runes l)) →
  (∀ b l, decodeRune (b :: l) = None → Forall isByte l → Q l (runes l) → Q (b :: l) (None :: runes l)) →
  ∀ l, Forall isByte l → Q l (runes l).
Proof.
  intros H0 HS HN l. remember (length l) as m eqn:Em. revert l Em.
  induction m as [m IH] using lt_wf_ind. intros l -> Hl. assert (IH' := λ l' k, IH (length l') k l' eq_refl). clear IH.
  destruct l as [|b l]; [done|]. rewrite runes_cons. pose proof (Forall_cons_1 _ _ _ Hl) as [_ Hl'].
  destruct (decodeRune (b :: l)) as [[r n]|] eqn:E; [|apply HN; [done..|]; apply IH'; [cbn; lia|done]].
  destruct (encode_decode _ _ _ Hl E) as (Hs & Ht & Hn). destruct n as [|n]; [lia|]. cbn in Ht, Hn.
  rewrite <-(take_drop n l) at 1. rewrite app_comm_cons, <-Ht. rewrite Nat.sub_succ, Nat.sub_0_r.
  apply HS; [done|by apply Forall_drop|]. apply IH'; [|by apply Forall_drop]. cbn. rewrite length_drop. lia.
Qed.

Lemma runes_ok l : Forall isByte l → Forall okRune (runes l).
Proof. revert l. apply (runes_induction (λ _ rs, Forall okRune rs)); intros; by constructor. Qed.

(** A text is left as it is exactly when it is well formed. *)
Lemma runes_text l : Forall isByte l →
  (length l <= length (runes l ≫= runeText))%nat ∧
  ((runes l ≫= runeText) = l ↔ forallb (λ o, bool_decide (is_Some o)) (runes l) = true).
Proof.
  revert l. apply (runes_induction (λ l rs, (length l <= length (rs ≫= runeText))%nat ∧
    ((rs ≫= runeText) = l ↔ forallb (λ o, bool_decide (is_Some o)) rs = true))); [done| |].
  - intros r l Hs Hl [IH1 IH2]. rewrite !bind_cons. cbn [forallb]. change (runeText (Some r)) with (encodeRune r). rewrite !length_app.
    split; [lia|]. rewrite (bool_decide_eq_true_2 (is_Some (Some r))) by done. rewrite <-IH2.
    split; [apply app_inv_head|by intros ->].
  - intros b l _ Hl [IH1 IH2]. rewrite !bind_cons, length_app. cbn [forallb length]. change (runeText None) with [239; 191; 189].
    split; [cbn; lia|]. split; [|done]. intros E. apply (f_equal length) in E. cbn in E. lia.
Qed.

Lemma encodeRune_bytes r : Forall isByte (encodeRune r).
Proof.
  unfold encodeRune. destruct (scalar r) eqn:Hs; [apply scalar_iff in Hs|]; cbn [negb];
    [|by repeat constructor].
  repeat case_match; bounds; repeat constructor; arith.
Qed.

Lemma text_bytes rs : Forall isByte (rs ≫= runeText).
Proof. induction rs as [|o rs IH]; [constructor|]. apply Forall_app. split; [apply encodeRune_bytes|done]. Qed.

(** [toValid] changes exactly the malformed texts. *)
Lemma toValid_valid s : toValid s = s ↔ ValidString s = true.
Proof.
  unfold toValid, ValidString. pose proof (codes_bytes s) as Hb. destruct (runes_text _ Hb) as [_ H]. rewrite <-H.
  split; intros E; [|by rewrite E, ofCodes_codes]. rewrite <-E at 2. by rewrite codes_ofCodes by apply text_bytes.
Qed.

(** ** Literals *)

Lemma prepend_None v o : prepend v o = None ↔ o = None.
Proof. by destruct o as [[??]|]. Qed.

Lemma unicodeEscape_length l v l' : unicodeEscape l = Some (v, l') → (length l' < length l)%nat.
Proof.
  unfold unicodeEscape, getu4. repeat (case_match; try done); intros [= <- <-]; simplify_eq; cbn; lia.
Qed.

(** Fuel beyond the length changes nothing. *)
Lemma literal_fuel f g l : (length l < f)%nat → (length l < g)%nat → literal f l = literal g l.
Proof.
  revert g l. induction f as [|f IH]; intros g l Hf Hg; [lia|]. destruct g as [|g]; [lia|].
  destruct l as [|c l]; [done|]. cbn [literal length] in *.
  destruct (c =? 34); [done|]. destruct (c =? 92).
  { destruct l as [|e l]; [done|]. cbn [length] in *. destruct (escaped e); [f_equal; apply IH; lia|].
    destruct (e =? 117); [|done]. destruct (unicodeEscape l) as [[v l3]|] eqn:E; [|done].
    apply unicodeEscape_length in E. f_equal. apply IH; lia. }
  destruct (c <? 32); [done|]. destruct (decodeRune (c :: l)) as [[r n]|] eqn:E; [|f_equal; apply IH; lia].
  assert (1 <= n)%nat.
  { revert E. cbn [decodeRune]. repeat (case_match; try done); intros [= <- <-]; lia. }
  f_equal. apply IH; rewrite length_drop; cbn; lia.
Qed.

Lemma literal_cons f c l : literal (S f) (c :: l) =
  if c =? 34 then Some ([], l)
  else if c =? 92 then
    match l with
    | [] => None
    | e :: l' =>
        match escaped e with
        | Some b => prepend [b] (literal f l')
        | None =>
            if e =? 117 then
              match unicodeEscape l' with Some (v, l3) => prepend v (literal f l3) | None => None end
            else None
        end
    end
  else if c <? 32 then None
  else match decodeRune (c :: l) with
       | Some (r, n) => prepend (encodeRune r) (literal f (drop n (c :: l)))
       | None => prepend (encodeRune RuneError) (literal f l)
       end.
Proof. done. Qed.

Lemma parse_literal f l : (length l < f)%nat → literal f l = parseString l.
Proof. intros ?. apply literal_fuel; lia. Qed.

Lemma hexValue_hexDigit d : 0 <= d < 16 → hexValue (hexDigit d) = Some d.
Proof.
  intros Hd. unfold hexDigit, hexValue. destruct (d <? 10) eqn:E; bounds; tests; f_equal; lia.
Qed.

(** A \u escape of a code that is no surrogate. *)
Lemma parse_unicode a b c d r rest :
  getu4 [a; b; c; d] = Some (r, []) → surrogate r = false →
  parseString (92 :: 117 :: a :: b :: c :: d :: rest) = prepend (encodeRune r) (parseString rest).
Proof.
  intros Hu Hs. unfold parseString at 1. rewrite literal_cons. rewrite Z.eqb_refl. cbn [Z.eqb Pos.eqb].
  change (escaped 117) with (@None Z). cbn iota beta.
  assert (Hu' : unicodeEscape (a :: b :: c :: d :: rest) = Some (encodeRune r, rest)).
  { unfold unicodeEscape. revert Hu. cbn [getu4].
    destruct (hexValue a), (hexValue b), (hexValue c), (hexValue d); try done. intros [= ->]. by rewrite Hs. }
  rewrite Hu'. f_equal. apply parse_literal. cbn. lia.
Qed.

Lemma parse_escape e b rest : escaped e = Some b → parseString (92 :: e :: rest) = prepend [b] (parseString rest).
Proof.
  intros He. unfold parseString at 1. rewrite literal_cons. rewrite Z.eqb_refl. cbn [Z.eqb Pos.eqb]. rewrite He.
  f_equal. apply parse_literal. cbn. lia.
Qed.

(** A rune that needs no escape. *)
Lemma parse_plain r rest :
  scalar r = true → 32 <= r → r ≠ 34 → r ≠ 92 →
  parseString (encodeRune r ++ rest) = prepend (encodeRune r) (parseString rest).
Proof.
  intros Hs Hlo Hq Hb. pose proof (decode_encode r rest Hs) as Hd.
  assert (Hh : ∃ c t, encodeRune r = c :: t ∧ 32 <= c ∧ c ≠ 34 ∧ c ≠ 92).
  { unfold encodeRune. rewrite Hs. cbn [negb]. apply scalar_iff in Hs.
    repeat case_match; bounds; eexists _, _; (split; [reflexivity|]); arith. }
  destruct Hh as (c & t & He & Hc & Hc1 & Hc2). rewrite He in *. cbn [app] in *.
  unfold parseString at 1. rewrite literal_cons.
  rewrite (proj2 (Z.eqb_neq c 34)), (proj2 (Z.eqb_neq c 92)), (proj2 (Z.ltb_ge c 32)) by done.
  rewrite Hd. cbn [length drop]. rewrite drop_app_length, He. f_equal. apply parse_literal. rewrite length_app. lia.
Qed.

Lemma parse_quoteASCII b rest : 0 <= b < 128 → parseString (quoteASCII b ++ rest) = prepend [b] (parseString rest).
Proof.
  intros Hb. assert (Hs : scalar b = true) by (apply scalar_iff; lia).
  assert (He : encodeRune b = [b]) by (unfold encodeRune; rewrite Hs; by tests).
  unfold quoteASCII. destruct (htmlSafe b) eqn:Eh.
  { unfold htmlSafe in Eh. bounds. case_bool_decide; [done|]. rewrite <-He. apply parse_plain; [done..|set_solver|set_solver]. }
  case_bool_decide as Hq; [apply parse_escape; unfold escaped; by rewrite bool_decide_eq_true_2 by set_solver|].
  repeat (destruct (b =? _) eqn:?; bounds; [subst b; by apply parse_escape|]).
  rewrite <-He. apply parse_unicode; [|unfold surrogate; by tests].
  cbn [getu4]. rewrite !hexValue_hexDigit by arith. cbn. do 2 f_equal. arith.
Qed.

Lemma parse_quoteRune o rest : okRune o → parseString (quoteRune o ++ rest) = prepend (runeText o) (parseString rest).
Proof.
  intros Ho. destruct o as [r|]; cbn [quoteRune okRune] in *; [|by apply parse_unicode].
  change (runeText (Some r)) with (encodeRune r).
  destruct (r <? 128) eqn:E; bounds.
  { pose proof (proj1 (scalar_iff r) Ho). rewrite parse_quoteASCII by lia. f_equal. unfold encodeRune. rewrite Ho. by tests. }
  case_bool_decide as Hq; [|apply parse_plain; [done|lia..]].
  apply elem_of_cons in Hq as [->|Hq]; [by apply parse_unicode|]. apply list_elem_of_singleton in Hq as ->. by apply parse_unicode.
Qed.

(** Quoting and unquoting. *)
Lemma parse_quoted rs rest : Forall okRune rs → parseString ((rs ≫= quoteRune) ++ 34 :: rest) = Some (rs ≫= runeText, rest).
Proof.
  induction 1 as [|o rs Ho _ IH]; [done|]. rewrite !bind_cons, <-app_assoc, parse_quoteRune by done. by rewrite IH.
Qed.

(** ** Literals that are cut short *)

Lemma parse_high l : Forall (λ b, 128 <= b) l → parseString l = None.
Proof.
  intros Hl. unfold parseString. generalize (S (length l)). intros f. revert l Hl.
  induction f as [|f IH]; intros l Hl; [done|]. destruct l as [|c l]; [done|]. rewrite literal_cons.
  pose proof (Forall_cons_1 _ _ _ Hl) as [Hc Hl'].
  rewrite (proj2 (Z.eqb_neq c 34)), (proj2 (Z.eqb_neq c 92)), (proj2 (Z.ltb_ge c 32)) by lia.
  destruct (decodeRune (c :: l)) as [[r n]|]; apply prepend_None, IH; [by apply Forall_drop|done].
Qed.

Lemma parse_unicode_cut l : (length l < 4)%nat → parseString (92 :: 117 :: l) = None.
Proof. intros Hl. by do 4 (destruct l as [|? l]; [done|cbn in Hl; try lia]). Qed.

(** The shapes of what the encoder writes for a rune. *)
Lemma quoteRune_shape o : okRune o →
  (∃ a b c d, quoteRune o = [92; 117; a; b; c; d]) ∨ (∃ e, quoteRune o = [92; e]) ∨ (∃ b, quoteRune o = [b]) ∨
  Forall (λ b, 128 <= b) (quoteRune o).
Proof.
  intros Ho. destruct o as [r|]; cbn [quoteRune okRune] in *; [|by eauto 10].
  destruct (r <? 128) eqn:E; bounds.
  { unfold quoteASCII. repeat case_match; eauto 10. }
  case_bool_decide; [by eauto 10|]. do 3 right. unfold encodeRune. rewrite Ho. cbn [negb]. apply scalar_iff in Ho.
  repeat case_match; bounds; repeat constructor; arith.
Qed.

Lemma parse_quoteRune_cut o p q : okRune o → quoteRune o = p ++ q → q ≠ [] → parseString p = None.
Proof.
  intros Ho Hpq Hq. destruct (quoteRune_shape o Ho) as [(a & b & c & d & E)|[[e E]|[[b E]|Hh]]].
  - rewrite E in Hpq. destruct p as [|? [|? p]]; [done|by injection Hpq as <- ?|]. injection Hpq as <- <- Hpq.
    apply parse_unicode_cut. apply (f_equal length) in Hpq. rewrite length_app in Hpq. destruct q; [done|]. cbn in Hpq. lia.
  - rewrite E in Hpq. destruct p as [|? [|? p]]; [done|by injection Hpq as <- ?|]. injection Hpq as <- <- Hpq.
    by symmetry in Hpq; apply app_eq_nil in Hpq as [_ ->].
  - rewrite E in Hpq. destruct p as [|? p]; [done|]. injection Hpq as <- Hpq. by symmetry in Hpq; apply app_eq_nil in Hpq as [_ ->].
  - rewrite Hpq in Hh. apply Forall_app in Hh as [Hp _]. by apply parse_high.
Qed.

Lemma parse_quoted_cut rs p q : Forall okRune rs → (rs ≫= quoteRune) ++ [34] = p ++ q → q ≠ [] → parseString p = None.
Proof.
  intros Hrs. revert p. induction Hrs as [|o rs Ho _ IH]; intros p Hpq Hq.
  { destruct p as [|? p]; [done|]. injection Hpq as <- Hpq. by symmetry in Hpq; apply app_eq_nil in Hpq as [_ ->]. }
  rewrite bind_cons, <-app_assoc in Hpq. apply app_eq_app in Hpq as (k & [[E1 E2]|[E1 E2]]).
  - destruct k as [|z k].
    + rewrite app_nil_r in E1. subst p. rewrite <-(app_nil_r (quoteRune o)), parse_quoteRune by done. done.
    + by eapply parse_quoteRune_cut.
  - subst p. rewrite parse_quoteRune by done. apply prepend_None. by eapply IH.
Qed.

End gojson.
