(* ===== verification/GoJSONValue.v ===== *)
(** * JSON values

    [json.Unmarshal] into an [any]: the syntax of encoding/json's scanner with its
    nesting limit, and the dynamic values it makes. An object keeps its members in the
    order of the text; the last of several with one name counts, as in the map Go
    builds. The conversion of a number is an operation of [DecimalFloat]; the double
    instance rounds the exact decimal once. *)
From stdpp Require Import prelude strings list.
From Stdlib Require Import ZArith Lia Ascii SpecFloat.
From S2P Require Import Prelude Float64 GoStd GoJSON.
Local Open Scope Z_scope.

(** The conversion of the text of a JSON number, given by its sign, its digits as an
    integer, their count, the power of ten and whether the text is a plain integer,
    without fraction and exponent; [None] is a range error. For doubles it is
    [strconv.ParseFloat(s, 64)]. *)
Class DecimalFloat (F : Type) := { ofDecimal : bool → Z → Z → Z → bool → option F }.

Module decimal64.
Import binary64.

(** With a power of ten above 309 the result is infinite, which is a range error; below
    1e-330 it rounds to zero. *)
Definition convert (neg : bool) (m digits e : Z) : option spec_float :=
  match m with
  | Zpos p =>
      if 309 <? e then None
      else if digits + e <? -330 then Some (S754_zero neg)
      else
        let x := if 0 <=? e then S754_finite neg (p * Z.to_pos (10 ^ e)) 0 else S754_finite neg p 0 in
        let d := if 0 <=? e then S754_finite false 1 0 else S754_finite false (Z.to_pos (10 ^ (- e))) 0 in
        let r := div x d in
        if isinf r then None else Some r
  | _ => Some (S754_zero neg)
  end.

#[export] Instance decimal64 : DecimalFloat spec_float := {| ofDecimal neg m digits e _ := convert neg m digits e |}.

Example convert_tenth : convert false 1 1 (-1) = Some (div (ofZ 1) (ofZ 10)).
Proof. vm_compute. reflexivity. Qed.
Example convert_max : is_Some (convert false 17976931348623157 17 292) ∧ convert false 18 2 307 = None.
Proof. vm_compute. split; [by eexists|done]. Qed.
Example convert_int : convert false 1234 4 0 = Some (ofZ 1234) ∧ convert true 12 2 2 = Some (ofZ (-1200)).
Proof. vm_compute. done. Qed.
End decimal64.

Module gojsonvalue.
Import gostd gojson.

Inductive any {F : Type} :=
  | JNull
  | JBool (b : bool)
  | JNumber (x : F)
  | JString (s : string)
  | JArray (l : list any)
  | JObject (l : list (string * any)).
Arguments any : clear implicits.

(** [maxNestingDepth] *)
Definition maxDepth : Z := 10000.

Definition isDigit (c : Z) : bool := within 48 57 c.

(** The digits at the front, as an integer with their count, and what follows. *)
Fixpoint spanDigits (acc n : Z) (l : list Z) : Z * Z * list Z :=
  match l with
  | c :: l' => if isDigit c then spanDigits (acc * 10 + (c - 48)) (n + 1) l' else (acc, n, l)
  | [] => (acc, n, [])
  end.

(** The exponent of a number, 0 when there is none, and whether there is one; [None] is
    a syntax error. *)
Definition exponent (l : list Z) : option (Z * bool * list Z) :=
  match l with
  | c :: l1 =>
      if bool_decide (c ∈ [101; 69]) then
        let '(neg, l2) := match l1 with 45 :: l' => (true, l') | 43 :: l' => (false, l') | _ => (false, l1) end in
        let '(e, n, rest) := spanDigits 0 0 l2 in
        if n =? 0 then None else Some (if neg : bool then - e else e, true, rest)
      else Some (0, false, l)
  | [] => Some (0, false, [])
  end.

(** A number: its sign, its digits without the point, their count, its power of ten and
    whether it is a plain integer. *)
Definition number (l : list Z) : option (bool * Z * Z * Z * bool * list Z) :=
  let '(neg, l1) := match l with 45 :: l' => (true, l') | _ => (false, l) end in
  let whole := match l1 with
               | 48 :: l' => Some (0, 1, l')
               | c :: _ => if isDigit c then Some (spanDigits 0 0 l1) else None
               | [] => None
               end in
  match whole with
  | None => None
  | Some (m, n, l2) =>
      match l2 with
      | 46 :: l3 =>
          let '(m', n', l4) := spanDigits m 0 l3 in
          if n' =? 0 then None
          else match exponent l4 with Some (e, _, rest) => Some (neg, m', n + n', e - n', false, rest) | None => None end
      | _ => match exponent l2 with Some (e, b, rest) => Some (neg, m, n, e, negb b, rest) | None => None end
      end
  end.

(** The text after a fixed word. *)
Fixpoint word (w l : list Z) : option (list Z) :=
  match w, l with
  | [], _ => Some l
  | a :: w', b :: l' => if a =? b then word w' l' else None
  | _ :: _, [] => None
  end.

Section values.
Context {F : Type} `{DecimalFloat F}.

(** A value after white space; [depth] arrays and objects may still be opened. Every
    call consumes text before the next, so the length bounds the calls. *)
Fixpoint value (fuel : nat) (depth : Z) (l : list Z) : option (any F * list Z) :=
  match fuel with
  | O => None
  | S fuel' =>
      match skipSpace l with
      | [] => None
      | c :: l1 =>
          if c =? 34 then match parseString l1 with Some (s, rest) => Some (JString (ofCodes s), rest) | None => None end
          else if c =? 123 then
            if depth <=? 0 then None
            else match skipSpace l1 with
                 | 125 :: rest => Some (JObject [], rest)
                 | l2 => match members fuel' (depth - 1) l2 with Some (ms, rest) => Some (JObject ms, rest) | None => None end
                 end
          else if c =? 91 then
            if depth <=? 0 then None
            else match skipSpace l1 with
                 | 93 :: rest => Some (JArray [], rest)
                 | l2 => match elements fuel' (depth - 1) l2 with Some (vs, rest) => Some (JArray vs, rest) | None => None end
                 end
          else match word (codes "null") (c :: l1), word (codes "true") (c :: l1), word (codes "false") (c :: l1) with
          | Some rest, _, _ => Some (JNull, rest)
          | _, Some rest, _ => Some (JBool true, rest)
          | _, _, Some rest => Some (JBool false, rest)
          | _, _, _ =>
              match number (c :: l1) with
              | Some (neg, m, n, e, plain, rest) =>
                  match ofDecimal neg m n e plain with Some x => Some (JNumber x, rest) | None => None end
              | None => None
              end
          end
      end
  end
with elements (fuel : nat) (depth : Z) (l : list Z) : option (list (any F) * list Z) :=
  match fuel with
  | O => None
  | S fuel' =>
      match value fuel' depth l with
      | None => None
      | Some (v, rest) =>
          match skipSpace rest with
          | 93 :: rest' => Some ([v], rest')
          | 44 :: rest' => match elements fuel' depth rest' with Some (vs, rest'') => Some (v :: vs, rest'') | None => None end
          | _ => None
          end
      end
  end
with members (fuel : nat) (depth : Z) (l : list Z) : option (list (string * any F) * list Z) :=
  match fuel with
  | O => None
  | S fuel' =>
      match skipSpace l with
      | 34 :: l1 =>
          match parseString l1 with
          | None => None
          | Some (name, l2) =>
              match skipSpace l2 with
              | 58 :: l3 =>
                  match value fuel' depth l3 with
                  | None => None
                  | Some (v, rest) =>
                      match skipSpace rest with
                      | 125 :: rest' => Some ([(ofCodes name, v)], rest')
                      | 44 :: rest' =>
                          match members fuel' depth rest' with
                          | Some (ms, rest'') => Some ((ofCodes name, v) :: ms, rest'')
                          | None => None
                          end
                      | _ => None
                      end
                  end
              | _ => None
              end
          end
      | _ => None
      end
  end.

Definition Unmarshal (data : list Z) : option (any F) :=
  match value (2 * length data + 2) maxDepth data with
  | Some (v, rest) => if bool_decide (skipSpace rest = []) then Some v else None
  | None => None
  end.

(** [m[name]] of an object: the last member with the name. *)
Fixpoint field (name : string) (l : list (string * any F)) : option (any F) :=
  match l with
  | [] => None
  | (n, v) :: l' => match field name l' with
                    | Some w => Some w
                    | None => if bool_decide (n = name) then Some v else None
                    end
  end.

End values.

Section example.
Import decimal64.

(** Text with the single quotes read as double ones. *)
Let text (s : string) : list Z := (λ c, if c =? 39 then 34 else c) <$> codes s.

Example object_value :
  Unmarshal (F := spec_float) (text " {'a':[1,-2.5e1,null],'b':{},'a':'x'} ")
  = Some (JObject [("a", JArray [JNumber (binary64.ofZ 1); JNumber (binary64.ofZ (-25)); JNull]);
                   ("b", JObject []); ("a", JString "x")])%string.
Proof. vm_compute. reflexivity. Qed.
Example trailing_value : Unmarshal (F := spec_float) (text "{} x") = None.
Proof. vm_compute. reflexivity. Qed.
Example leading_zero : Unmarshal (F := spec_float) (text "01") = None.
Proof. vm_compute. reflexivity. Qed.
End example.

End gojsonvalue.
