(* ===== verification/GoFlag.v ===== *)
(** * Go's flag package

    [FlagSet.Parse] with [ContinueOnError], and [strconv.ParseInt] in base 0, which the
    integer flags use. A flag set is a list of names with what setting the flag does to
    the record of its variables. *)
From stdpp Require Import prelude strings list.
From Stdlib Require Import ZArith Lia Ascii.
From S2P Require Import Prelude Float64 GoStd GoText GoTime.
Local Open Scope Z_scope.

Module goflag.
Import gostd gotext gotime.

(** ** strconv.ParseInt(s, 0, 64) *)

Definition digitValue (c : ascii) : option Z :=
  match digit c with
  | Some d => Some d
  | None =>
      let n := nat_of_ascii (lowerByte c) in
      if (97 <=? n)%nat && (n <=? 122)%nat then Some (Z.of_nat (n - 87)) else None
  end.

(** The digits of a base; an underscore is passed over. *)
Fixpoint baseDigits (base acc : Z) (l : list ascii) : option Z :=
  match l with
  | [] => Some acc
  | c :: l' =>
      if bool_decide (c = "_"%char) then baseDigits base acc l'
      else match digitValue c with
           | Some d => if d <? base then baseDigits base (acc * base + d) l' else None
           | None => None
           end
  end.

(** The base a prefix gives, and the text after the prefix. *)
Definition basePrefix (l : list ascii) : Z * list ascii :=
  match l with
  | "0"%char :: l' =>
      match l' with
      | c :: _ :: _ =>
          let k := lowerByte c in
          if bool_decide (k = "b"%char) then (2, drop 1 l')
          else if bool_decide (k = "o"%char) then (8, drop 1 l')
          else if bool_decide (k = "x"%char) then (16, drop 1 l')
          else (8, l')
      | _ => (8, l')
      end
  | _ => (10, l)
  end.

(** What was seen last: the beginning, a digit (or the prefix), an underscore, or
    something else. *)
Inductive seen := Beginning | Digit | Underscore | Other.

Fixpoint underscoresFrom (hex : bool) (last : seen) (l : list ascii) : bool :=
  match l with
  | [] => match last with Underscore => false | _ => true end
  | c :: l' =>
      let n := nat_of_ascii (lowerByte c) in
      if bool_decide (is_Some (digit c)) || (hex && (97 <=? n)%nat && (n <=? 102)%nat) then underscoresFrom hex Digit l'
      else if bool_decide (c = "_"%char) then
        match last with Digit => underscoresFrom hex Underscore l' | _ => false end
      else match last with Underscore => false | _ => underscoresFrom hex Other l' end
  end.

Definition underscoreOK (l : list ascii) : bool :=
  match l with
  | "0"%char :: c :: l' =>
      let k := lowerByte c in
      if bool_decide (k ∈ ["b"; "o"; "x"]%char) then underscoresFrom (bool_decide (k = "x"%char)) Digit l'
      else underscoresFrom false Beginning l
  | _ => underscoresFrom false Beginning l
  end.

Definition ParseInt0 (s : string) : option Z :=
  let '(neg, l) :=
    match chars s with
    | "-"%char :: l => (true, l)
    | "+"%char :: l => (false, l)
    | l => (false, l)
    end in
  if bool_decide (l = []) then None
  else
    let '(base, ds) := basePrefix l in
    match baseDigits base 0 ds with
    | None => None
    | Some n =>
        if bool_decide ("_"%char ∈ ds) && negb (underscoreOK l) then None
        else
          let z := if neg : bool then - n else n in
          if (minInt64 <=? z) && (z <=? maxInt64) then Some z else None
    end.

Example int_decimal : ParseInt0 "-12" = Some (-12). Proof. vm_compute. reflexivity. Qed.
Example int_hex : ParseInt0 "0x_1F" = Some 31. Proof. vm_compute. reflexivity. Qed.
Example int_octal : ParseInt0 "017" = Some 15. Proof. vm_compute. reflexivity. Qed.
Example int_bad : ParseInt0 "1__0" = None. Proof. vm_compute. reflexivity. Qed.
Example int_zero : ParseInt0 "0" = Some 0. Proof. vm_compute. reflexivity. Qed.

(** ** FlagSet.Parse *)

Inductive flagError :=
  | ErrHelp
  | BadSyntax (arg : string)
  | NotDefined (name : string)
  | InvalidBoolean (name value : string)
  | NeedsArgument (name : string)
  | InvalidValue (name value : string).

Section parse.
Context {F : Type} `{Float64 F} {V : Type}.

(** How a flag is set: a boolean flag needs no value; another takes one and may
    refuse it. *)
Inductive flag :=
  | BoolFlag (set : bool → V → V)
  | ValueFlag (set : string → V → option V).

Definition stringFlag (set : string → V → V) : flag := ValueFlag (λ s v, Some (set s v)).
Definition intFlag (set : Z → V → V) : flag := ValueFlag (λ s v, (λ z, set z v) <$> ParseInt0 s).
Definition durationFlag (set : Duration → V → V) : flag :=
  ValueFlag (λ s v, match ParseDuration (F := F) s with inl d => Some (set d v) | inr _ => None end).

Definition formal := list (string * flag).

Fixpoint lookupFlag (fs : formal) (name : string) : option flag :=
  match fs with
  | [] => None
  | (n, f) :: fs' => if bool_decide (n = name) then Some f else lookupFlag fs' name
  end.

(** How an argument reads: not a flag, the terminator, a malformed flag, or a name with
    the value after an equals sign that is not its first character. *)
Inductive reading := NoFlag | Terminator | Malformed | Named (name : string) (value : option string).

Definition nameValue (l : list ascii) : string * option string :=
  match l with
  | [] => (EmptyString, None)
  | c :: l' =>
      match cutChars "="%char l' with
      | Some (a, b) => (ofChars (c :: a), Some (ofChars b))
      | None => (ofChars l, None)
      end
  end.

Definition readArg (s : string) : reading :=
  match chars s with
  | "-"%char :: c :: l =>
      let named (name : list ascii) :=
        match name with
        | [] => Malformed
        | a :: _ => if bool_decide (a ∈ ["-"; "="]%char) then Malformed
                    else let '(n, v) := nameValue name in Named n v
        end in
      if bool_decide (c = "-"%char) then match l with [] => Terminator | _ => named l end
      else named (c :: l)
  | _ => NoFlag
  end.

(** The variables after all flags, and the arguments that are left. *)
Fixpoint Parse (fs : formal) (args : list string) (v : V) : (V * list string) + flagError :=
  match args with
  | [] => inl (v, [])
  | s :: rest =>
      match readArg s with
      | NoFlag => inl (v, args)
      | Terminator => inl (v, rest)
      | Malformed => inr (BadSyntax s)
      | Named name value =>
          match lookupFlag fs name with
          | None => if bool_decide (name ∈ ["help"; "h"]%string) then inr ErrHelp else inr (NotDefined name)
          | Some (BoolFlag set) =>
              match value with
              | None => Parse fs rest (set true v)
              | Some text =>
                  match ParseBool text with
                  | Some b => Parse fs rest (set b v)
                  | None => inr (InvalidBoolean name text)
                  end
              end
          | Some (ValueFlag set) =>
              match value with
              | Some text =>
                  match set text v with Some v' => Parse fs rest v' | None => inr (InvalidValue name text) end
              | None =>
                  match rest with
                  | [] => inr (NeedsArgument name)
                  | text :: rest' =>
                      match set text v with Some v' => Parse fs rest' v' | None => inr (InvalidValue name text) end
                  end
              end
          end
      end
  end.

End parse.
Arguments flag : clear implicits.
Arguments formal : clear implicits.

End goflag.
