(* ===== verification/Ctl.v ===== *)
(** * cmd/slizenctl: the command line

    Models main.go, audit.go, compatibility.go and the commands of benchmark.go: the
    choice of the command, its flags and their checks, the requests to the admin API
    with the bounds on what is read of an answer, the compatibility report and its
    gate. The web, the writes and the runs of the benchmarks are arguments: [web]
    answers a request, [emit] and [writeFile] say whether encoding and writing an
    output failed. What goes to stderr is left out. The table of a report is given by
    its rows, the alignment of the columns is left out. *)
From stdpp Require Import prelude strings list pretty.
From Stdlib Require Import ZArith Lia Ascii.
From S2P Require Import Prelude Float64 GoStd GoText GoTime GoJSON GoJSONValue GoFlag.
From S2P Require Import Compatibility ServiceBase Workload Benchmark BenchmarkRun.
Local Open Scope Z_scope.

Module ctl.
Import gostd gotext gotime gojson gojsonvalue goflag svcbase.

Definition defaultAdmin : string := "http://127.0.0.1:9090".
Definition maxAdminJSONResponseBytes : Z := 4194304.
Definition maxCompatibilityCommands : Z := 1024.

(** An error text, one that quotes an argument, an error of the flags, an error of a
    call that is passed on, and a JSON syntax error. *)
Inductive cliError :=
  | Message (s : string)
  | Quoting (s arg : string)
  | Flags (e : flagError)
  | Passed (e : string)
  | InvalidJSON.

(** ** The admin API, from the client's side *)

(** An answer: its status, the bytes of its body, and the error reading it ends with
    in place of the end of the body. *)
Record httpResponse := mkHTTP { StatusCode : Z; StatusLine : string; Body : list Z; BodyError : option string }.

Record web := mkWeb {
  clientGet : string → res string httpResponse;
  clientPost : string → list Z → res string httpResponse
}.

Fixpoint takeZ (n : Z) (l : list Z) : list Z :=
  match l with
  | [] => []
  | x :: l' => if n <=? 0 then [] else x :: takeZ (n - 1) l'
  end.

(** [io.ReadAll(io.LimitReader(resp.Body, limit))] *)
Definition readAll (limit : Z) (r : httpResponse) : res cliError (list Z) :=
  if limit <=? Z.of_nat (length (Body r)) then Ok (takeZ limit (Body r))
  else match BodyError r with Some e => Fail (Passed e) | None => Ok (Body r) end.

Definition passed {A} (r : res string A) : res cliError A :=
  match r with Ok a => Ok a | Fail e => Fail (Passed e) end.

(** The answer of a request, refused unless its status is 2xx. *)
Definition accepted (method url : string) (r : res string httpResponse) : res cliError httpResponse :=
  resp ← passed r;
  if (StatusCode resp <? 200) || (300 <=? StatusCode resp)
  then Fail (Message (method ++ " " ++ url ++ " returned " ++ StatusLine resp)) else Ok resp.

Definition endpoint (adminURL path : string) : string := (TrimRight adminURL "/" ++ path)%string.

Definition httpGetText (w : web) (url : string) : res cliError string :=
  resp ← accepted "GET" url (clientGet w url);
  body ← readAll 1024 resp;
  Ok (ofCodes body).

Section values.
Context {F : Type} `{Float64 F} `{DecimalFloat F}.

Definition decodeBoundedAdminJSON (r : httpResponse) : res cliError (any F) :=
  body ← readAll (maxAdminJSONResponseBytes + 1) r;
  if maxAdminJSONResponseBytes <? Z.of_nat (length body)
  then Fail (Message ("admin JSON response exceeds " ++ Itoa maxAdminJSONResponseBytes ++ " bytes"))
  else match Unmarshal body with Some v => Ok v | None => Fail InvalidJSON end.

Definition httpGet (w : web) (url : string) : res cliError (any F) :=
  resp ← accepted "GET" url (clientGet w url); decodeBoundedAdminJSON resp.

Definition httpPost (w : web) (url : string) (body : list Z) : res cliError (any F) :=
  resp ← accepted "POST" url (clientPost w url body); decodeBoundedAdminJSON resp.

(** The status as a map, empty on an error; the demo ignores the error. *)
Definition fetchStatus (w : web) (adminURL : string) : list (string * any F) * option cliError :=
  match httpGet w (endpoint adminURL "/v1/status") with
  | Fail e => ([], Some e)
  | Ok (JObject m) => (m, None)
  | Ok _ => ([], None)
  end.

Definition fetchKeyState (w : web) (adminURL : string) : string * bool :=
  match httpGet w (endpoint adminURL "/v1/hotkeys?limit=1") with
  | Ok (JObject root) =>
      match field "hotkeys" root with
      | Some (JArray (first :: _)) =>
          match first with
          | JObject m =>
              let state := match field "state" m with Some (JString s) => s | _ => EmptyString end in
              let cached := match field "locally_cached" m with Some (JBool b) => b | _ => false end in
              (if bool_decide (state = EmptyString) then "unknown"%string else state, cached)
          | _ => ("unknown"%string, false)
          end
      | _ => ("COLD"%string, false)
      end
  | _ => ("unknown"%string, false)
  end.

(** Of the cases of the type switch, a decoded value can only be a float64. *)
Definition float64Number (value : option (any F)) : F :=
  match value with Some (JNumber x) => x | _ => f0 end.

Definition hitRatio (status : list (string * any F)) : F :=
  let hits := float64Number (field "cache_hits" status) in
  let misses := float64Number (field "cache_misses" status) in
  if ((hits + misses) =? f0)%f64 then f0 else (hits / (hits + misses))%f64.

End values.

(** ** The bodies of purge requests *)

(** [json.Marshal(map[string]string{"key": key})] *)
Definition marshalKey (key : string) : list Z :=
  ([123] ++ appendString (codes "key") ++ [58] ++ appendString (codes key) ++ [125])%list.

Definition purgeBody (key : string) : list Z :=
  if bool_decide (key = EmptyString) then [123; 125] else marshalKey key.

(** The purge of the benchmarks, which always names a key. *)
Definition purgeBenchmarkCache {F} `{DecimalFloat F} (w : web) (adminURL key : string) : option cliError :=
  match httpPost (F := F) w (endpoint adminURL "/v1/cache/purge") (marshalKey key) with Ok _ => None | Fail e => Some e end.

(** ** The compatibility report *)

Section report.
Import compatibility.

Definition statusText (s : Status) : string :=
  match s with
  | StatusSupported => "supported"
  | StatusPassThrough => "pass-through"
  | StatusRejected => "rejected"
  | StatusUnsupported => "unsupported"
  end.

Definition boolText (b : bool) : string := if b then "true" else "false".

(** The lines above the table and the rows of the table. *)
Definition reportHeader (r : Report) : list string :=
  (["schema: " ++ Schema r; "binary_version: " ++ BinaryVersion r; "binary_commit: " ++ BinaryCommit r;
    "scope: " ++ Scope r; "unknown_command_status: " ++ statusText (UnknownCommandStatus r)]%string ++
   match GateApplied r, rCompatible r with
   | true, Some compatible =>
       ["compatible: " ++ boolText compatible]%string ++
       match rArgumentReviewRequired r with
       | Some review =>
           ["argument_review_required: " ++ boolText review; "limitations_accepted: " ++ boolText (LimitationsAccepted r)]%string ++
           (if bool_decide (ArgumentReviewCommands r = []) then []
            else ["argument_review_commands: " ++ String.concat ", " (ArgumentReviewCommands r)]%string)
       | None => []
       end
   | _, _ => ["compatible: not evaluated (informational catalog)"%string]
   end)%list.

Definition reportRow (e : Entry) : list string :=
  [Command e; statusText (eStatus e);
   if bool_decide (Limitations e = EmptyString) then Behavior e
   else (Behavior e ++ " Argument review required. Limitation: " ++ Limitations e)%string].

Definition reportRows (r : Report) : list (list string) :=
  ["COMMAND"; "STATUS"; "DETAILS"]%string :: (reportRow <$> Commands r).

Definition gateProblems (r : Report) : list string :=
  ((if bool_decide (IncompatibleCommands r = []) then []
    else ["incompatible commands: " ++ String.concat ", " (IncompatibleCommands r)]%string) ++
   (if bool_decide (UnacceptedArgumentReviewCommands r = []) then []
    else ["commands require argument review: " ++ String.concat ", " (UnacceptedArgumentReviewCommands r) ++
          " (review their limitations and rerun with --accept-limitations)"]%string))%list.

Definition compatibilityGateError (r : Report) : cliError :=
  match gateProblems r with
  | [] => Message "compatibility gate failed"
  | problems => Message (String.concat "; " problems)
  end.

End report.

(** ** The commands *)

Inductive output {F : Type} :=
  | OText (s : string)
  | OJSON (v : any F)
  | OReportText (header : list string) (rows : list (list string))
  | OReportJSON (r : compatibility.Report)
  | OHotText (r : benchmarkrun.benchmarkResult F)
  | OHotJSON (r : benchmarkrun.benchmarkResult F)
  | OWorkText (r : benchmarkrun.workloadBenchmarkResult F)
  | OWorkJSON (r : benchmarkrun.workloadBenchmarkResult F).
Arguments output : clear implicits.

(** The variables of the flags of the small commands. *)
Record adminFlags := mkAdminFlags { fAdmin : string; fLimit : Z; fKey : string }.

Definition setAdmin (s : string) (v : adminFlags) : adminFlags := mkAdminFlags s (fLimit v) (fKey v).
Definition setLimit (n : Z) (v : adminFlags) : adminFlags := mkAdminFlags (fAdmin v) n (fKey v).
Definition setKey (s : string) (v : adminFlags) : adminFlags := mkAdminFlags (fAdmin v) (fLimit v) s.

Definition adminFlag : string * flag adminFlags := ("admin"%string, stringFlag setAdmin).
Definition limitFlag : string * flag adminFlags := ("limit"%string, intFlag setLimit).
Definition keyFlag : string * flag adminFlags := ("key"%string, stringFlag setKey).

Record reportFlags := mkReportFlags { fOutput : string; fAccept : bool }.

Definition reportFormal : formal reportFlags :=
  [("output"%string, stringFlag (λ s v, mkReportFlags s (fAccept v)));
   ("accept-limitations"%string, BoolFlag (λ b v, mkReportFlags (fOutput v) b))].

Record demoConfig := mkDemo { dRedis : string; dAdmin : string; dKey : string; dWorkers : Z; dDuration : Duration }.

Record hotConfig := mkHot {
  hcProxy : string; hcOrigin : string; hcAdmin : string; hcKey : string; hcValue : string;
  hcWarmup : Duration; hcDuration : Duration; hcConcurrency : Z; hcRequests : Z; hcOutput : string; hcJSONFile : string
}.

Definition defaultHot : hotConfig :=
  mkHot "127.0.0.1:6380" "127.0.0.1:6379" defaultAdmin "product:iphone_17"
    (ReplaceAll "{'name':'iPhone 17','price':999}" "'" (chr 34)) (5 * Second) (15 * Second) 32 50000 "text" EmptyString.

Definition defaultWorkload : workload.workloadConfig :=
  workload.mkWorkload "127.0.0.1:6379" "127.0.0.1:6380" defaultAdmin workload.workloadScenarioAll "slizen:benchmark"
    1000 1024 95 32 100000 (10 * Second) 1 5000 "text" EmptyString.

Section commands.
Context {F : Type} `{Float64 F} `{DecimalFloat F}.
Context (w : web) (emit : output F → option string) (writeFile : string → output F → option string).
Context (version commit : string).
Context (runDemo : demoConfig → option string).
Context (hotEnv : hotConfig → benchmarkrun.hotIO F) (workEnv : workload.workloadConfig → benchmarkrun.workloadIO F).

(** What was written to stdout, and the error the process ends with. *)
Definition outcome : Type := list (output F) * option cliError.

Definition failing (e : cliError) : outcome := ([], Some e).

Definition print (o : output F) : outcome :=
  match emit o with None => ([o], None) | Some e => ([], Some (Passed e)) end.

Definition printJSON (value : res cliError (any F)) : outcome :=
  match value with Ok v => print (OJSON v) | Fail e => failing e end.

(** A command with flags: an error of the flags ends it. *)
Definition withFlags {V} (fs : formal V) (args : list string) (v : V) (k : V → list string → outcome) : outcome :=
  match Parse fs args v with inl (v', rest) => k v' rest | inr e => failing (Flags e) end.

(** [buildinfo.String()] *)
Definition buildString : string :=
  if bool_decide (commit = EmptyString) || bool_decide (commit = "unknown"%string) then version
  else (version ++ " (" ++ commit ++ ")")%string.

Definition textEndpointCmd (args : list string) (path : string) : outcome :=
  withFlags [adminFlag] args (mkAdminFlags defaultAdmin 0 EmptyString) (λ v _,
    match httpGetText w (endpoint (fAdmin v) path) with
    | Fail e => failing e
    | Ok body => print (OText body)
    end).

Definition statusCmd (args : list string) : outcome :=
  withFlags [adminFlag] args (mkAdminFlags defaultAdmin 0 EmptyString) (λ v _,
    printJSON (httpGet w (endpoint (fAdmin v) "/v1/status"))).

Definition hotkeysCmd (args : list string) : outcome :=
  withFlags [adminFlag; limitFlag] args (mkAdminFlags defaultAdmin 20 EmptyString) (λ v _,
    if (fLimit v <? 1) || (1000 <? fLimit v) then failing (Message "limit must be between 1 and 1000")
    else printJSON (httpGet w (endpoint (fAdmin v) "/v1/hotkeys?limit=" ++ Itoa (fLimit v)))).

Definition auditCmdWithGet (args : list string) (get : string → res cliError (any F)) : outcome :=
  withFlags [adminFlag; limitFlag] args (mkAdminFlags defaultAdmin DefaultAuditLimit EmptyString) (λ v _,
    if (fLimit v <? 1) || (MaxAuditLimit <? fLimit v) then failing (Message "limit must be between 1 and 1000")
    else printJSON (get (endpoint (fAdmin v) "/v1/audit?limit=" ++ Itoa (fLimit v))%string)).

Definition auditCmd (args : list string) : outcome := auditCmdWithGet args (httpGet w).

Definition cacheCmd (args : list string) : outcome :=
  let usage := failing (Message "usage: slizenctl cache purge [--key key] [--admin url]") in
  match args with
  | [] => usage
  | sub :: rest =>
      if negb (bool_decide (sub = "purge"%string)) then usage
      else withFlags [adminFlag; keyFlag] rest (mkAdminFlags defaultAdmin 0 EmptyString) (λ v _,
        printJSON (httpPost w (endpoint (fAdmin v) "/v1/cache/purge") (purgeBody (fKey v))))
  end.

Definition writeCompatibilityReport (format : string) (r : compatibility.Report) : outcome :=
  print (if bool_decide (format = "json"%string) then OReportJSON r else OReportText (reportHeader r) (reportRows r)).

Definition compatibilityCmd (args : list string) : outcome :=
  let usage := failing (Message
    "usage: slizenctl compatibility report [--output text|json] [--accept-limitations] [COMMAND ...]") in
  match args with
  | [] => usage
  | sub :: rest =>
      if negb (bool_decide (sub = "report"%string)) then usage
      else withFlags reportFormal rest (mkReportFlags "text" false) (λ v commands,
        if negb (bool_decide (fOutput v = "text"%string)) && negb (bool_decide (fOutput v = "json"%string))
        then failing (Message "output must be text or json")
        else if maxCompatibilityCommands <? Z.of_nat (length commands)
        then failing (Message ("at most " ++ Itoa maxCompatibilityCommands ++ " commands may be checked"))
        else
          let r := compatibility.BuildReportWithOptions version commit commands (fAccept v) in
          match writeCompatibilityReport (fOutput v) r with
          | (written, Some e) => (written, Some e)
          | (written, None) =>
              match compatibility.GateApplied r, compatibility.rCompatible r with
              | true, Some false => (written, Some (compatibilityGateError r))
              | _, _ => (written, None)
              end
          end)
  end.

Definition demoFormal : formal demoConfig :=
  [("redis"%string, stringFlag (λ s v, mkDemo s (dAdmin v) (dKey v) (dWorkers v) (dDuration v)));
   ("admin"%string, stringFlag (λ s v, mkDemo (dRedis v) s (dKey v) (dWorkers v) (dDuration v)));
   ("key"%string, stringFlag (λ s v, mkDemo (dRedis v) (dAdmin v) s (dWorkers v) (dDuration v)));
   ("workers"%string, intFlag (λ n v, mkDemo (dRedis v) (dAdmin v) (dKey v) n (dDuration v)));
   ("duration"%string, durationFlag (F := F) (λ d v, mkDemo (dRedis v) (dAdmin v) (dKey v) (dWorkers v) d))].

(** The demo prints as it runs (the file Demo models it); only its end is an outcome here. *)
Definition demoCmd (args : list string) : outcome :=
  let usage := failing (Message "usage: slizenctl demo black-friday [flags]") in
  match args with
  | [] => usage
  | sub :: rest =>
      if negb (bool_decide (sub = "black-friday"%string)) then usage
      else withFlags demoFormal rest (mkDemo "127.0.0.1:6380" defaultAdmin "product:iphone_17" 100 (20 * Second)) (λ v _,
        if (dWorkers v <=? 0) || (10000 <? dWorkers v) then failing (Message "workers must be between 1 and 10000")
        else if dDuration v <=? 0 then failing (Message "duration must be greater than zero")
        else ([], Passed <$> runDemo v))
  end.

(** The result goes to the file, if one is named, then to stdout. *)
Definition report (file : string) (format : string) (json text : output F) : outcome :=
  match (if bool_decide (file = EmptyString) then None else writeFile file json) with
  | Some e => failing (Passed e)
  | None => print (if bool_decide (format = "json"%string) then json else text)
  end.

Definition hotFormal : formal hotConfig :=
  [("proxy"%string, stringFlag (λ s v, mkHot s (hcOrigin v) (hcAdmin v) (hcKey v) (hcValue v) (hcWarmup v) (hcDuration v) (hcConcurrency v) (hcRequests v) (hcOutput v) (hcJSONFile v)));
   ("origin"%string, stringFlag (λ s v, mkHot (hcProxy v) s (hcAdmin v) (hcKey v) (hcValue v) (hcWarmup v) (hcDuration v) (hcConcurrency v) (hcRequests v) (hcOutput v) (hcJSONFile v)));
   ("admin"%string, stringFlag (λ s v, mkHot (hcProxy v) (hcOrigin v) s (hcKey v) (hcValue v) (hcWarmup v) (hcDuration v) (hcConcurrency v) (hcRequests v) (hcOutput v) (hcJSONFile v)));
   ("key"%string, stringFlag (λ s v, mkHot (hcProxy v) (hcOrigin v) (hcAdmin v) s (hcValue v) (hcWarmup v) (hcDuration v) (hcConcurrency v) (hcRequests v) (hcOutput v) (hcJSONFile v)));
   ("value"%string, stringFlag (λ s v, mkHot (hcProxy v) (hcOrigin v) (hcAdmin v) (hcKey v) s (hcWarmup v) (hcDuration v) (hcConcurrency v) (hcRequests v) (hcOutput v) (hcJSONFile v)));
   ("warmup"%string, durationFlag (F := F) (λ d v, mkHot (hcProxy v) (hcOrigin v) (hcAdmin v) (hcKey v) (hcValue v) d (hcDuration v) (hcConcurrency v) (hcRequests v) (hcOutput v) (hcJSONFile v)));
   ("duration"%string, durationFlag (F := F) (λ d v, mkHot (hcProxy v) (hcOrigin v) (hcAdmin v) (hcKey v) (hcValue v) (hcWarmup v) d (hcConcurrency v) (hcRequests v) (hcOutput v) (hcJSONFile v)));
   ("concurrency"%string, intFlag (λ n v, mkHot (hcProxy v) (hcOrigin v) (hcAdmin v) (hcKey v) (hcValue v) (hcWarmup v) (hcDuration v) n (hcRequests v) (hcOutput v) (hcJSONFile v)));
   ("requests"%string, intFlag (λ n v, mkHot (hcProxy v) (hcOrigin v) (hcAdmin v) (hcKey v) (hcValue v) (hcWarmup v) (hcDuration v) (hcConcurrency v) n (hcOutput v) (hcJSONFile v)));
   ("output"%string, stringFlag (λ s v, mkHot (hcProxy v) (hcOrigin v) (hcAdmin v) (hcKey v) (hcValue v) (hcWarmup v) (hcDuration v) (hcConcurrency v) (hcRequests v) s (hcJSONFile v)));
   ("json-file"%string, stringFlag (λ s v, mkHot (hcProxy v) (hcOrigin v) (hcAdmin v) (hcKey v) (hcValue v) (hcWarmup v) (hcDuration v) (hcConcurrency v) (hcRequests v) (hcOutput v) s))].

Definition hotkeyBenchmarkCmd (args : list string) : outcome :=
  withFlags hotFormal args defaultHot (λ v _,
    if (hcConcurrency v <=? 0) || (10000 <? hcConcurrency v) then failing (Message "concurrency must be between 1 and 10000")
    else if hcRequests v <=? 0 then failing (Message "requests must be greater than zero")
    else if hcDuration v <=? 0 then failing (Message "duration must be greater than zero")
    else if hcWarmup v <? 0 then failing (Message "warmup cannot be negative")
    else if negb (bool_decide (hcOutput v = "text"%string)) && negb (bool_decide (hcOutput v = "json"%string))
    then failing (Message "output must be text or json")
    else match benchmarkrun.runHotKeyBenchmark (hotEnv v) (hcKey v) (hcWarmup v) (hcDuration v) (hcConcurrency v) (hcRequests v) with
         | Fail e => failing (Passed e)
         | Ok r => report (hcJSONFile v) (hcOutput v) (OHotJSON r) (OHotText r)
         end).

Section workloadFlags.
Import workload.

(** One field of a configuration replaced. *)
Definition workloadFormal : formal workloadConfig :=
  let mk := mkWorkload in
  [("proxy"%string, stringFlag (λ s c, mk (OriginAddr c) s (AdminURL c) (Scenario c) (KeyPrefix c) (KeyCount c) (ValueSize c) (ReadRatio c) (Concurrency c) (MaxRequests c) (RunDuration c) (Seed c) (FlashEvery c) (Output c) (JSONFile c)));
   ("origin"%string, stringFlag (λ s c, mk s (ProxyAddr c) (AdminURL c) (Scenario c) (KeyPrefix c) (KeyCount c) (ValueSize c) (ReadRatio c) (Concurrency c) (MaxRequests c) (RunDuration c) (Seed c) (FlashEvery c) (Output c) (JSONFile c)));
   ("admin"%string, stringFlag (λ s c, mk (OriginAddr c) (ProxyAddr c) s (Scenario c) (KeyPrefix c) (KeyCount c) (ValueSize c) (ReadRatio c) (Concurrency c) (MaxRequests c) (RunDuration c) (Seed c) (FlashEvery c) (Output c) (JSONFile c)));
   ("scenario"%string, stringFlag (λ s c, mk (OriginAddr c) (ProxyAddr c) (AdminURL c) s (KeyPrefix c) (KeyCount c) (ValueSize c) (ReadRatio c) (Concurrency c) (MaxRequests c) (RunDuration c) (Seed c) (FlashEvery c) (Output c) (JSONFile c)));
   ("key-prefix"%string, stringFlag (λ s c, mk (OriginAddr c) (ProxyAddr c) (AdminURL c) (Scenario c) s (KeyCount c) (ValueSize c) (ReadRatio c) (Concurrency c) (MaxRequests c) (RunDuration c) (Seed c) (FlashEvery c) (Output c) (JSONFile c)));
   ("keys"%string, intFlag (λ n c, mk (OriginAddr c) (ProxyAddr c) (AdminURL c) (Scenario c) (KeyPrefix c) n (ValueSize c) (ReadRatio c) (Concurrency c) (MaxRequests c) (RunDuration c) (Seed c) (FlashEvery c) (Output c) (JSONFile c)));
   ("value-size"%string, intFlag (λ n c, mk (OriginAddr c) (ProxyAddr c) (AdminURL c) (Scenario c) (KeyPrefix c) (KeyCount c) n (ReadRatio c) (Concurrency c) (MaxRequests c) (RunDuration c) (Seed c) (FlashEvery c) (Output c) (JSONFile c)));
   ("read-ratio"%string, intFlag (λ n c, mk (OriginAddr c) (ProxyAddr c) (AdminURL c) (Scenario c) (KeyPrefix c) (KeyCount c) (ValueSize c) n (Concurrency c) (MaxRequests c) (RunDuration c) (Seed c) (FlashEvery c) (Output c) (JSONFile c)));
   ("concurrency"%string, intFlag (λ n c, mk (OriginAddr c) (ProxyAddr c) (AdminURL c) (Scenario c) (KeyPrefix c) (KeyCount c) (ValueSize c) (ReadRatio c) n (MaxRequests c) (RunDuration c) (Seed c) (FlashEvery c) (Output c) (JSONFile c)));
   ("requests"%string, intFlag (λ n c, mk (OriginAddr c) (ProxyAddr c) (AdminURL c) (Scenario c) (KeyPrefix c) (KeyCount c) (ValueSize c) (ReadRatio c) (Concurrency c) n (RunDuration c) (Seed c) (FlashEvery c) (Output c) (JSONFile c)));
   ("duration"%string, durationFlag (F := F) (λ d c, mk (OriginAddr c) (ProxyAddr c) (AdminURL c) (Scenario c) (KeyPrefix c) (KeyCount c) (ValueSize c) (ReadRatio c) (Concurrency c) (MaxRequests c) d (Seed c) (FlashEvery c) (Output c) (JSONFile c)));
   ("seed"%string, intFlag (λ n c, mk (OriginAddr c) (ProxyAddr c) (AdminURL c) (Scenario c) (KeyPrefix c) (KeyCount c) (ValueSize c) (ReadRatio c) (Concurrency c) (MaxRequests c) (RunDuration c) n (FlashEvery c) (Output c) (JSONFile c)));
   ("flash-every"%string, intFlag (λ n c, mk (OriginAddr c) (ProxyAddr c) (AdminURL c) (Scenario c) (KeyPrefix c) (KeyCount c) (ValueSize c) (ReadRatio c) (Concurrency c) (MaxRequests c) (RunDuration c) (Seed c) n (Output c) (JSONFile c)));
   ("output"%string, stringFlag (λ s c, mk (OriginAddr c) (ProxyAddr c) (AdminURL c) (Scenario c) (KeyPrefix c) (KeyCount c) (ValueSize c) (ReadRatio c) (Concurrency c) (MaxRequests c) (RunDuration c) (Seed c) (FlashEvery c) s (JSONFile c)));
   ("json-file"%string, stringFlag (λ s c, mk (OriginAddr c) (ProxyAddr c) (AdminURL c) (Scenario c) (KeyPrefix c) (KeyCount c) (ValueSize c) (ReadRatio c) (Concurrency c) (MaxRequests c) (RunDuration c) (Seed c) (FlashEvery c) (Output c) s))].

End workloadFlags.

Definition workloadBenchmarkCmd (args : list string) : outcome :=
  withFlags workloadFormal args defaultWorkload (λ cfg rest,
    match rest with
    | arg :: _ => failing (Quoting "unexpected argument" arg)
    | [] =>
        match workload.validateWorkloadConfig cfg with
        | Some e => failing (Message e)
        | None =>
            match benchmarkrun.runWorkloadBenchmark (workEnv cfg) cfg with
            | Fail e => failing (Passed e)
            | Ok r => report (workload.JSONFile cfg) (workload.Output cfg) (OWorkJSON r) (OWorkText r)
            end
        end
    end).

Definition benchmarkCmd (args : list string) : outcome :=
  let usage := failing (Message "usage: slizenctl benchmark hotkey|workload [flags]") in
  match args with
  | [] => usage
  | sub :: rest =>
      if bool_decide (sub = "workload"%string) then workloadBenchmarkCmd rest
      else if negb (bool_decide (sub = "hotkey"%string)) then usage
      else hotkeyBenchmarkCmd rest
  end.

Definition run (args : list string) : outcome :=
  match args with
  | [] => failing (Message "missing command")
  | cmd :: rest =>
      if bool_decide (cmd = "version"%string) then print (OText (buildString ++ String (chr 10) EmptyString)%string)
      else if bool_decide (cmd = "healthz"%string) then textEndpointCmd rest "/healthz"
      else if bool_decide (cmd = "readyz"%string) then textEndpointCmd rest "/readyz"
      else if bool_decide (cmd = "status"%string) then statusCmd rest
      else if bool_decide (cmd = "hotkeys"%string) then hotkeysCmd rest
      else if bool_decide (cmd = "audit"%string) then auditCmd rest
      else if bool_decide (cmd = "cache"%string) then cacheCmd rest
      else if bool_decide (cmd = "benchmark"%string) then benchmarkCmd rest
      else if bool_decide (cmd = "compatibility"%string) then compatibilityCmd rest
      else if bool_decide (cmd = "demo"%string) then demoCmd rest
      else failing (Quoting "unknown command" cmd)
  end.

(** [main]: the exit status. *)
Definition exitStatus (args : list string) : Z :=
  match (run args).2 with Some _ => 1 | None => 0 end.

End commands.
End ctl.
