(* ===== verification/PurgeBody.v ===== *)
(** * Purge requests, from the command line to the cache

    The body of a purge request as [handleCachePurge] of internal/admin decodes it: the
    first JSON value of at most 1024 bytes, into a struct with the one field [key].
    A name matches the field up to case, a null leaves the field as it is, the last
    string counts, and every other field, type or syntax is an error; what follows the
    value is not read. The theorem follows the body that slizenctl sends through it. *)
From stdpp Require Import prelude gmap strings list.
From Stdlib Require Import ZArith Lia Ascii.
From S2P Require Import Prelude Float64 GoStd GoText GoJSON GoJSONValue Compatibility ServiceBase Conc Service Views Admin Ctl.
Local Open Scope Z_scope.

Module purgebody.
Import gostd gojson gojsonvalue admin ctl.

Definition maxPurgeBodyBytes : Z := 1024.

(** The members of the object from the first name on; [key] is the field so far. *)
Fixpoint purgeFields (fuel : nat) (key : list Z) (l : list Z) : option (list Z) :=
  match fuel, l with
  | S fuel', 34 :: l1 =>
      match parseString l1 with
      | None => None
      | Some (name, l2) =>
          if negb (EqualFold (ofCodes name) "KEY") then None
          else match skipSpace l2 with
          | 58 :: l3 =>
              let v :=
                match skipSpace l3 with
                | 34 :: l4 => parseString l4
                | l4 => (λ rest, (key, rest)) <$> word (codes "null") l4
                end in
              match v with
              | None => None
              | Some (key', l5) =>
                  match skipSpace l5 with
                  | 125 :: _ => Some key'
                  | 44 :: l6 => purgeFields fuel' key' (skipSpace l6)
                  | _ => None
                  end
              end
          | _ => None
          end
      end
  | _, _ => None
  end.

(** [decoder.Decode(&body)] behind [http.MaxBytesReader]. *)
Definition decodePurge (body : list Z) : decoded :=
  let buf := takeZ maxPurgeBodyBytes body in
  let whole := Z.of_nat (length body) <=? maxPurgeBodyBytes in
  match skipSpace buf with
  | [] => if whole then DecodeEOF else DecodeError
  | 123 :: l =>
      match skipSpace l with
      | 125 :: _ => Decoded EmptyString
      | l' => match purgeFields (length l') [] l' with Some key => Decoded (ofCodes key) | None => DecodeError end
      end
  | l =>
      match word (codes "null") l with
      | Some [] => if whole then Decoded EmptyString else DecodeError
      | Some _ => Decoded EmptyString
      | None => DecodeError
      end
  end.

Definition purgeRequest (body : list Z) : Request :=
  mkRequest "POST" "/v1/cache/purge" EmptyString (Z.of_nat (length body)) (decodePurge body).

Example purge_all : decodePurge (purgeBody EmptyString) = Decoded EmptyString.
Proof. vm_compute. reflexivity. Qed.
Example purge_null : decodePurge (codes "null") = Decoded EmptyString.
Proof. vm_compute. reflexivity. Qed.
Example purge_blank : decodePurge (codes "  ") = DecodeEOF.
Proof. vm_compute. reflexivity. Qed.
Example purge_type : decodePurge ([123] ++ appendString (codes "key") ++ codes ":7}") = DecodeError.
Proof. vm_compute. reflexivity. Qed.
Example purge_case : decodePurge ([123] ++ appendString (codes "Key") ++ codes " : " ++ appendString (codes "a") ++ codes "} x")
  = Decoded "a".
Proof. vm_compute. reflexivity. Qed.

(** A key that is not UTF-8 becomes another key, and 200 characters that JSON escapes
    exceed the limit on the body although a key may have 512 bytes. *)
Example purge_other_key : decodePurge (purgeBody (ofCodes [107; 255])) = Decoded (ofCodes [107; 239; 191; 189]).
Proof. vm_compute. reflexivity. Qed.
Example purge_escaped_key : decodePurge (purgeBody (ofCodes (replicate 200 60))) = DecodeError.
Proof. vm_compute. reflexivity. Qed.

(** ** What slizenctl sends *)

Lemma length_takeZ n l : 0 <= n → takeZ n l = take (Z.to_nat n) l.
Proof.
  revert n. induction l as [|x l IH]; intros n Hn; [by rewrite take_nil|]. cbn [takeZ].
  destruct (n <=? 0) eqn:E.
  - apply Z.leb_le in E. by replace n with 0 by lia.
  - apply Z.leb_gt in E. rewrite IH by lia. replace (Z.to_nat n) with (S (Z.to_nat (n - 1))) by lia. done.
Qed.

(** The text up to the value of the field. *)
Definition purgeHeader : list Z := [123; 34; 107; 101; 121; 34; 58; 34].

Lemma marshalKey_text key : marshalKey key = (purgeHeader ++ (runes (codes key) ≫= quoteRune) ++ [34; 125])%list.
Proof. unfold marshalKey, appendString at 2. rewrite <-!app_assoc. reflexivity. Qed.

Lemma fields_header f p :
  purgeFields (S f) [] (34 :: 107 :: 101 :: 121 :: 34 :: 58 :: 34 :: p) =
  match parseString p with
  | None => None
  | Some (key, l) =>
      match skipSpace l with 125 :: _ => Some key | 44 :: l' => purgeFields f key (skipSpace l') | _ => None end
  end.
Proof.
  cbn [purgeFields].
  assert (Hn : parseString (107 :: 101 :: 121 :: 34 :: 58 :: 34 :: p) = Some (codes "key", 58 :: 34 :: p)).
  { apply (parse_quoted [Some 107; Some 101; Some 121]). by repeat constructor. }
  rewrite Hn. done.
Qed.

(** The object is decoded as its field is. *)
Lemma decode_header body p :
  takeZ maxPurgeBodyBytes body = (purgeHeader ++ p)%list →
  decodePurge body =
    match purgeFields (7 + length p) [] (34 :: 107 :: 101 :: 121 :: 34 :: 58 :: 34 :: p) with
    | Some key => Decoded (ofCodes key)
    | None => DecodeError
    end.
Proof. intros Hb. unfold decodePurge. rewrite Hb. done. Qed.

Lemma decode_marshalKey key :
  decodePurge (marshalKey key) =
    if maxPurgeBodyBytes <? Z.of_nat (length (marshalKey key)) then DecodeError else Decoded (toValid key).
Proof.
  pose proof (runes_ok _ (codes_bytes key)) as Hok. set (rs := runes (codes key)) in *.
  pose proof (marshalKey_text key) as Ht. fold rs in Ht.
  assert (Htake : takeZ maxPurgeBodyBytes (marshalKey key) = (purgeHeader ++ take 1016 ((rs ≫= quoteRune) ++ [34; 125]))%list).
  { rewrite length_takeZ by done. rewrite Ht. reflexivity. }
  rewrite (decode_header _ _ Htake). cbn [Nat.add]. rewrite fields_header.
  assert (Hlen : Z.of_nat (length (marshalKey key)) = 9 + Z.of_nat (length ((rs ≫= quoteRune) ++ [34]))).
  { rewrite Ht. rewrite !length_app. cbn. lia. }
  rewrite Hlen. unfold maxPurgeBodyBytes. destruct (1024 <? _) eqn:E; [apply Z.ltb_lt in E|apply Z.ltb_ge in E].
  - replace ((rs ≫= quoteRune) ++ [34; 125])%list with (((rs ≫= quoteRune) ++ [34]) ++ [125])%list by by rewrite <-app_assoc.
    rewrite take_app_le by lia. set (t := ((rs ≫= quoteRune) ++ [34])%list) in *.
    destruct (decide (length t = 1016)%nat) as [Hl|Hl].
    + rewrite take_ge by lia. unfold t. rewrite (parse_quoted rs []) by done. done.
    + rewrite (parse_quoted_cut rs (take 1016 t) (drop 1016 t)); [done..| |].
      * by rewrite take_drop.
      * intros Hd. apply (f_equal length) in Hd. rewrite length_drop in Hd. cbn in Hd. lia.
  - rewrite take_ge by (rewrite length_app in *; cbn in *; lia).
    rewrite (parse_quoted rs [125]) by done. done.
Qed.

Lemma toValid_empty : toValid EmptyString = EmptyString.
Proof. reflexivity. Qed.

Lemma decode_purgeBody key :
  decodePurge (purgeBody key) =
    if maxPurgeBodyBytes <? Z.of_nat (length (purgeBody key)) then DecodeError else Decoded (toValid key).
Proof. unfold purgeBody. case_bool_decide as E; [by subst key|]. apply decode_marshalKey. Qed.

Lemma purgeBody_nonempty key : Z.of_nat (length (purgeBody key)) ≠ 0.
Proof. unfold purgeBody. case_bool_decide; [done|]. rewrite marshalKey_text, !length_app. cbn. lia. Qed.

End purgebody.

Import gostd upstream svcbase service privacy views gojson admin ctl purgebody.

(** C18. "slizenctl cache purge --key k" does to the cache exactly what it says: the
    body it sends, through JSON quoting, the server's size limit and its decoder,
    purges the key [k] itself whenever [k] is well-formed UTF-8. The refusals are
    exact too: a body over 1024 bytes and a key over 512 bytes are answered with
    status 400 and purge nothing. Malformed UTF-8 is the one case in which the key
    that is purged is another one, with U+FFFD in place of the malformed bytes. *)
Theorem purge_request_exact {F} `{Float64 F} {U} `{Upstream U} {G} `{SingleFlight G} `{Deployment} (key : string) :
  handleCachePurge (F := F) (U := U) (G := G) (purgeRequest (purgeBody key)) =
    (if maxPurgeBodyBytes <? Z.of_nat (length (purgeBody key)) then mret (Error "invalid purge request" 400)
     else if 512 <? slen (toValid key) then mret (Error "key is too long" 400)
     else purge (toValid key)) ∧
  (toValid key = key ↔ ValidString key = true).
Proof.
  split; [|apply toValid_valid]. unfold handleCachePurge, purgeRequest. cbn [rMethod rContentLength rBody].
  rewrite (bool_decide_eq_true_2 ("POST" = "POST")%string) by done. cbn [negb].
  rewrite (proj2 (Z.eqb_neq _ _) (purgeBody_nonempty key)), decode_purgeBody.
  by destruct (maxPurgeBodyBytes <? _).
Qed.
