(* ===== verification/CtlProps.v ===== *)
(** * The command line: what its exit status and its requests mean *)
From stdpp Require Import prelude gmap strings list pretty.
From Stdlib Require Import ZArith Lia Ascii SpecFloat.
From S2P Require Import Prelude Float64 GoStd GoText GoTime GoJSON GoJSONValue GoFlag Compatibility ServiceBase.
From S2P Require Import Workload Benchmark BenchmarkRun Admin Ctl PurgeBody.
Local Open Scope Z_scope.

Module ctlprops.
Import gostd gotext gotime gojson gojsonvalue goflag svcbase compatibility ctl.

(** ** Bounded answers *)

Lemma readAll_ok limit r body : 0 <= limit →
  readAll limit r = Ok body ↔
  (limit <= Z.of_nat (length (Body r)) ∧ body = take (Z.to_nat limit) (Body r)) ∨
  (Z.of_nat (length (Body r)) < limit ∧ BodyError r = None ∧ body = Body r).
Proof.
  intros Hl. unfold readAll. destruct (limit <=? _) eqn:E; [apply Z.leb_le in E|apply Z.leb_gt in E].
  - rewrite purgebody.length_takeZ by done. split; [intros [= <-]; auto|].
    intros [[_ ->]|[? _]]; [done|lia].
  - destruct (BodyError r); split; try done.
    + intros [[? _]|(_ & ? & _)]; [lia|done].
    + intros [= <-]. auto.
    + intros [[? _]|(_ & _ & ->)]; [lia|done].
Qed.

(** ** The gate of a report *)

Definition commandAccepted (accept : bool) (command : string) : Prop :=
  Compatible (Lookup command) = true ∧ (ArgumentReviewRequired (Lookup command) = true → accept = true).

(** The gate passes exactly when every selected command is accepted; when it fails, a
    problem is named. *)
Lemma gate_selected version commit commands accept (r := BuildReportWithOptions version commit commands accept) :
  commands ≠ [] →
  GateApplied r = true ∧
  ((rCompatible r = Some true ∧ ∀ c, c ∈ commands → commandAccepted accept c) ∨
   (rCompatible r = Some false ∧ ¬ (∀ c, c ∈ commands → commandAccepted accept c) ∧ gateProblems r ≠ [])).
Proof.
  intros Hne. pose proof (report_gate_exact version commit commands accept Hne) as (_ & Hg & _). fold r in Hg.
  assert (Hr : GateApplied r = true ∧ ∃ b, rCompatible r = Some b ∧
    (b = true ↔ ∀ c, c ∈ commands → commandAccepted accept c)).
  { subst r. unfold BuildReportWithOptions in *. rewrite bool_decide_false in * by done.
    destruct (reportLoop accept commands true false [] []) as [[[c rv] rc] es] eqn:E.
    apply reportLoop_spec in E as (_ & _ & _ & Hc). split; [done|]. exists c. split; [done|].
    rewrite Hc. split; [by intros [_ ?]|done]. }
  destruct Hr as (Hga & [|] & Hb & Hiff); (split; [done|]).
  - left. split; [done|]. by apply Hiff.
  - right. split_and!; [done|intros Hall; by apply Hiff in Hall|]. intros Hp.
    enough (rCompatible r = Some true) by congruence. apply Hg. unfold gateProblems in Hp.
    apply app_eq_nil in Hp as [H1 H2]. by case_bool_decide; [case_bool_decide|].
Qed.

End ctlprops.

Import gostd goflag compatibility ctl ctlprops gojson gojsonvalue.

(** C20. "slizenctl compatibility report" is a gate a script can rely on: however its
    flags are spelled, it writes the report and exits without error exactly when every
    named command is compatible and every one that needs an argument review has its
    limitations accepted; when it exits with an error, the error names the commands
    that fail, never the unspecific text. *)
Theorem compatibility_exit_exact {F} (emit : output F → option string) version commit rest v commands :
  Parse reportFormal rest (mkReportFlags "text" false) = inl (v, commands) →
  fOutput v ∈ ["text"; "json"]%string →
  Z.of_nat (length commands) <= maxCompatibilityCommands →
  (∀ o, emit o = None) →
  let r := BuildReportWithOptions version commit commands (fAccept v) in
  let written := if bool_decide (fOutput v = "json"%string) then OReportJSON r else OReportText (reportHeader r) (reportRows r) in
  ∃ err, compatibilityCmd emit version commit ("report"%string :: rest) = ([written], err) ∧
    (err = None ↔ ∀ c, c ∈ commands → commandAccepted (fAccept v) c) ∧
    (∀ e, err = Some e → gateProblems r ≠ [] ∧ e = Message (String.concat "; " (gateProblems r))).
Proof.
  intros HP Hout Hlen Hemit r written. unfold compatibilityCmd, withFlags.
  rewrite (bool_decide_eq_true_2 ("report" = "report")%string) by done. cbn [negb]. rewrite HP.
  assert (Hf : negb (bool_decide (fOutput v = "text"%string)) && negb (bool_decide (fOutput v = "json"%string)) = false).
  { apply elem_of_cons in Hout as [->|Hout]; [done|]. apply list_elem_of_singleton in Hout as ->. done. }
  rewrite Hf. rewrite (proj2 (Z.ltb_ge _ _) Hlen). fold r. unfold writeCompatibilityReport, print.
  fold written. rewrite Hemit. destruct (decide (commands = [])) as [->|Hne].
  { subst r. cbn. eexists. split; [done|]. split; [|done]. split; [|done]. intros _ c Hc. by apply elem_of_nil in Hc. }
  destruct (gate_selected version commit commands (fAccept v) Hne) as (Hga & [[Hc Hall]|(Hc & Hall & Hp)]);
    fold r in Hga, Hc; try fold r in Hp; rewrite Hga, Hc; eexists; (split; [done|]).
  - done.
  - split; [done|]. intros e [= <-]. split; [done|]. unfold compatibilityGateError. by destruct (gateProblems r).
Qed.

(** A report that fails for both reasons. *)
Lemma compatibility_exit_exact_witness :
  let args := ["report"; "--output=json"; "--"; "get"; "set"; "flushall"]%string in
  (compatibilityCmd (F := spec_float) (λ _, None) "v" "c" args).2 =
    Some (Message "incompatible commands: FLUSHALL; commands require argument review: SET (review their limitations and rerun with --accept-limitations)").
Proof.
  destruct (compatibility_exit_exact (F := spec_float) (λ _, None) "v" "c"
    ["--output=json"; "--"; "get"; "set"; "flushall"]%string (mkReportFlags "json" false) ["get"; "set"; "flushall"]%string)
    as ([e|] & Hc & Hiff & He); [vm_compute; reflexivity|by apply (list_elem_of_lookup_2 _ 1)|done|done|..]; cbv zeta.
  - rewrite Hc. destruct (He e eq_refl) as [_ ->]. cbn [snd]. do 2 f_equal.
  - destruct (proj1 Hiff eq_refl "flushall"%string) as [Hx _]; [by apply (list_elem_of_lookup_2 _ 2)|]. vm_compute in Hx. discriminate Hx.
Defined.

(** The client accepts exactly the complete answers: a JSON value is decoded from an
    answer of the admin API if and only if its whole body was read, has at most 4 MiB
    and is one JSON value. An answer that is cut off, by the bound or by an error, is
    never decoded as a shorter one. *)
Theorem admin_json_exact {F} `{DecimalFloat F} (r : httpResponse) (v : any F) :
  decodeBoundedAdminJSON r = Ok v ↔
  Z.of_nat (length (Body r)) <= maxAdminJSONResponseBytes ∧ BodyError r = None ∧ Unmarshal (Body r) = Some v.
Proof.
  unfold decodeBoundedAdminJSON. rewrite bind_Ok. setoid_rewrite readAll_ok; [|done]. split.
  - intros (body & [[Hl ->]|(Hl & He & ->)] & Hd).
    + rewrite length_take, Nat.min_l in Hd by (unfold maxAdminJSONResponseBytes in *; lia).
      rewrite Z2Nat.id in Hd by done. by rewrite (proj2 (Z.ltb_lt _ _)) in Hd by lia.
    + destruct (maxAdminJSONResponseBytes <? _) eqn:E; [done|]. apply Z.ltb_ge in E.
      destruct (Unmarshal (Body r)); [|done]. by injection Hd as ->.
  - intros (Hl & He & Hv). exists (Body r). split; [right; split_and!; [lia|done..]|].
    by rewrite (proj2 (Z.ltb_ge _ _) Hl), Hv.
Qed.
