(* ===== verification/Progress.v ===== *)
(** * Goroutines that are never blocked

    [safe] of Conc.v says nothing of an action that is blocked. [strict] turns a blocked
    action into a panic, so a judgement on the strict program also says that the
    program can always go on. [live] is that judgement with its rules, and
    [livePool] its soundness for a fixed pool of goroutines. A fixed pool always comes
    to an end, whatever the schedule, since each action leaves its goroutine with a
    smaller program. *)
From stdpp Require Import prelude list relations.
From S2P Require Import Prelude Conc.

Fixpoint strict {E S A} (p : prog E S A) : prog E S A :=
  match p with
  | Ret a => Ret a
  | Panic => Panic
  | Step f => Step (λ i e s, match f i e s with
                             | Some (s', p') => Some (s', strict p')
                             | None => Some (s, Panic)
                             end)
  end.

Section live.
Context {E S : Type} (tick_ok : S → E → Prop) (I : S → Prop) (rely guar : nat → S → S → Prop).
Context `{Hpre : ∀ i, PreOrder (rely i)}.
Notation safe := (safe tick_ok I rely guar).
Notation stable i Φ := (stableAt I rely i Φ).

Definition live {A} (i : nat) (Φ : S → Prop) (p : prog E S A) (Ψ : A → S → Prop) : Prop :=
  ∀ s, I s → Φ s → safe i (strict p) Ψ s.

Lemma strict_bind {A B} i (p : prog E S A) (k : A → prog E S B) Q s :
  safe i (strict p) (λ a s, safe i (strict (k a)) Q s) s → I s → safe i (strict (p ≫= k)) Q s.
Proof.
  change (p ≫= k) with (prog_bind k p). revert s.
  induction p as [a| |f IH] using prog_induction; intros s Hp HI; simpl in *; [by apply Hp|done|].
  intros s1 Hr HI1 e He. specialize (Hp s1 Hr HI1 e He).
  destruct (f i e s1) as [[s2 p2]|] eqn:Ef; [|by destruct Hp as (_ & _ & [])].
  destruct Hp as (HI2 & Hg & Hp2). split_and!; [done..|]. by eapply IH.
Qed.

Lemma live_ret {A} i (a : A) (Φ : S → Prop) (Ψ : A → S → Prop) :
  stable i Φ → (∀ s, I s → Φ s → Ψ a s) → live i Φ (mret a) Ψ.
Proof. intros Hst HΨ s HI Hs s1 Hr HI1. apply HΨ; [done|]. by eapply Hst. Qed.

Lemma live_bind {A B} i Φ (p : prog E S A) (q : A → prog E S B) Ξ Ψ :
  live i Φ p Ξ → (∀ a, live i (Ξ a) (q a) Ψ) → live i Φ (p ≫= q) Ψ.
Proof.
  intros Hp Hq s HI Hs. apply strict_bind; [|done].
  eapply safe_mono; [by apply Hp|]. intros a s1 HI1 Hs1. by apply Hq.
Qed.

Lemma live_pre {A} i Φ Φ' (p : prog E S A) Ψ : live i Φ' p Ψ → (∀ s, I s → Φ s → Φ' s) → live i Φ p Ψ.
Proof. intros Hp HΦ s HI Hs. apply Hp; auto. Qed.

(** An action that can be taken wherever its assertion holds. *)
Lemma live_act {A} i Φ (f : nat → E → S → option (S * A)) (Ψ : A → S → Prop) :
  stable i Φ → (∀ a, stable i (Ψ a)) →
  (∀ s e, I s → Φ s → tick_ok s e → ∃ s' a, f i e s = Some (s', a) ∧ I s' ∧ guar i s s' ∧ Ψ a s') →
  live i Φ (act f) Ψ.
Proof.
  intros HΦ HΨ Hf s HI Hs s1 Hr HI1 e He. destruct (Hf s1 e) as (s2 & a & -> & HI2 & Hg & Ha); [done|by eapply HΦ|done|].
  split_and!; [done|done|]. intros s3 Hr3 HI3. by eapply HΨ.
Qed.

(** ** A pool *)
Section pool.
Context {A : Type} (Q : nat → A → S → Prop).
Hypothesis guar_rely : ∀ i j s s', i ≠ j → guar i s s' → rely j s s'.

Definition livePool (c : S * list (prog E S A)) : Prop :=
  I c.1 ∧ ∀ i p, c.2 !! i = Some p → safe i (strict p) (Q i) c.1.

Lemma livePool_step c c' : livePool c → pstep tick_ok (λ _ _ _, False) c c' → livePool c'.
Proof.
  intros [HI Hs] Hstep. destruct Hstep as [s ps i f e s' p' Hi He Hf|]; [|done]. simpl in *.
  pose proof (Hs i _ Hi s ltac:(reflexivity) HI e He) as Hp. simpl in Hp. rewrite Hf in Hp. destruct Hp as (HI' & Hg & Hp').
  split; [done|]. simpl. intros j q. destruct (decide (i = j)) as [<-|Hne].
  - rewrite list_lookup_insert_eq by (by eapply lookup_lt_Some). by intros [= <-].
  - rewrite list_lookup_insert_ne by done. intros Hj. apply (safe_rely tick_ok I rely guar j _ _ s); [by apply Hs|]. by eapply guar_rely.
Qed.

Lemma livePool_reach c c' : livePool c → rtc (pstep tick_ok (λ _ _ _, False)) c c' → livePool c'.
Proof. intros Hc Hr. induction Hr as [|c1 c2 c3 Hs _ IH]; [done|]. apply IH. by eapply livePool_step. Qed.

(** No goroutine has panicked, and each one that has not returned can go on. *)
Lemma livePool_progress c i p : livePool c → c.2 !! i = Some p →
  p ≠ Panic ∧ ∀ f e, p = Step f → tick_ok c.1 e → is_Some (f i e c.1).
Proof.
  intros [HI Hs] Hi. specialize (Hs i p Hi). destruct p as [a| |f]; [done|done|]. split; [done|]. intros g e [= <-] He.
  specialize (Hs c.1 ltac:(reflexivity) HI e He). simpl in Hs.
  destruct (f i e c.1) as [[s' p']|]; [done|]. by destruct Hs as (_ & _ & []).
Qed.

Lemma livePool_returned s (results : list A) i a :
  livePool (s, Ret <$> results) → results !! i = Some a → Q i a s.
Proof. intros [HI Hs] Hi. apply (Hs i (Ret a)); [simpl; by rewrite list_lookup_fmap, Hi|reflexivity|done]. Qed.

End pool.
End live.

(** ** Termination *)
Section termination.
Context {E S A : Type} (tick_ok : S → E → Prop).

(** What an action may leave of a program. *)
Inductive sub : prog E S A → prog E S A → Prop :=
  | sub_step f i e s s' p' : f i e s = Some (s', p') → sub p' (Step f).

Lemma sub_wf p : Acc sub p.
Proof.
  induction p as [a| |f IH] using prog_induction; constructor; intros q Hq; inversion Hq; subst. by eapply IH.
Qed.

(** One program of a list is advanced. *)
Inductive advance : list (prog E S A) → list (prog E S A) → Prop :=
  | advance_here p p' l : sub p' p → advance (p' :: l) (p :: l)
  | advance_there p l l' : advance l' l → advance (p :: l') (p :: l).

Lemma advance_wf l : Acc advance l.
Proof.
  induction l as [|p l IH]; [constructor; intros l' Hl; inversion Hl|].
  pose proof (sub_wf p) as Hp. revert l IH. induction Hp as [p _ IHp]. intros l Hl.
  induction Hl as [l Hl IHl]. constructor. intros l' Hs. inversion Hs as [? p' ? Hsub|? ? l2 Hadv]; subst; [|by apply IHl].
  apply IHp; [done|]. by constructor.
Qed.

Lemma advance_insert l i p p' : l !! i = Some p → sub p' p → advance (<[i := p']> l) l.
Proof.
  revert i. induction l as [|q l IH]; intros [|i] Hi Hs; simplify_eq/=; [by constructor|]. constructor. by apply IH.
Qed.

Lemma pool_terminates (c : S * list (prog E S A)) : sn (pstep tick_ok (λ _ _ _, False)) c.
Proof.
  destruct c as [s ps]. pose proof (advance_wf ps) as Hp. revert s. induction Hp as [ps _ IH]. intros s. constructor.
  intros c' Hc. inversion Hc as [? ? i f e s' p' Hi He Hf|]; subst; [|done]. apply IH. eapply advance_insert; [done|].
  by econstructor.
Qed.

End termination.
