(* ===== verification/GetLoad.v ===== *)
(** * The load of the hot key benchmark

    Models runRedisGetLoad of src/cmd/slizenctl/benchmark.go: workers share the counters
    and the channel of latencies, whose capacity is the request limit; a send to a full
    channel waits. The client's replies, the clock and the end of the time limit are the
    environment's. [lLog] and [lStage] are not in the code: the replies in the order of
    the requests with the worker that made them, the newest first, and where each worker
    stands between taking a number and having counted the reply. *)
From stdpp Require Import prelude strings list relations.
From Stdlib Require Import ZArith Lia.
From S2P Require Import Prelude Float64 Conc GoHeap Benchmark.
Local Open Scope Z_scope.

Module getload.
Import benchmark.

(** It has no number or has counted its reply; has a number and has not asked; owes the
    count of a success and its latency, the latency, the count of a failure, that and
    the count of a mismatch, the count of a mismatch; has got a number over the limit. *)
Inductive stage := Idle | Taken | OweSuccess | OweLatency | OweFailure | OweBoth | OweMismatch | Over.

Record Load := mkLoad {
  lIssued : Z;
  lSuccesses : Z;
  lFailures : Z;
  lMismatches : Z;
  lLatencies : list Duration;
  lLog : list (nat * option bytes);
  lStage : list stage
}.

Record Tick := mkTick { tDone : bool; tNow : Time; tReply : option bytes }.

Notation P := (prog Tick Load).

Definition setStage (i : nat) (st : stage) (s : Load) : Load :=
  mkLoad (lIssued s) (lSuccesses s) (lFailures s) (lMismatches s) (lLatencies s) (lLog s) (<[i := st]> (lStage s)).

Definition ctxDone : P bool := act (λ _ e s, Some (s, tDone e)).
Definition now : P Time := act (λ _ e s, Some (s, tNow e)).

Section load.
Context (maxRequests : Z) (expected : bytes).

(** [issued.Add(1)] *)
Definition issue : P Z :=
  act (λ i _ s,
    let next := lIssued s +u 1 in
    let s' := mkLoad next (lSuccesses s) (lFailures s) (lMismatches s) (lLatencies s) (lLog s) (lStage s) in
    Some (setStage i (if u64 maxRequests <? next then Over else Taken) s', next)).

Definition verdict (reply : option bytes) : stage :=
  match reply with
  | None => OweFailure
  | Some value => if bool_decide (value = expected) then OweSuccess else OweBoth
  end.

(** [client.Get(ctx, key).Bytes()] *)
Definition get : P (option bytes) :=
  act (λ i e s,
    Some (setStage i (verdict (tReply e))
            (mkLoad (lIssued s) (lSuccesses s) (lFailures s) (lMismatches s) (lLatencies s) ((i, tReply e) :: lLog s) (lStage s)),
          tReply e)).

Definition addFailure (next : stage) : P unit :=
  act (λ i _ s, Some (setStage i next
    (mkLoad (lIssued s) (lSuccesses s) (lFailures s +u 1) (lMismatches s) (lLatencies s) (lLog s) (lStage s)), ())).
Definition addMismatch : P unit :=
  act (λ i _ s, Some (setStage i Idle
    (mkLoad (lIssued s) (lSuccesses s) (lFailures s) (lMismatches s +u 1) (lLatencies s) (lLog s) (lStage s)), ())).
Definition addSuccess : P unit :=
  act (λ i _ s, Some (setStage i OweLatency
    (mkLoad (lIssued s) (lSuccesses s +u 1) (lFailures s) (lMismatches s) (lLatencies s) (lLog s) (lStage s)), ())).

(** [latencies <- elapsed] *)
Definition send (elapsed : Duration) : P unit :=
  act (λ i _ s,
    if Z.of_nat (length (lLatencies s)) <? maxRequests then
      Some (setStage i Idle
        (mkLoad (lIssued s) (lSuccesses s) (lFailures s) (lMismatches s) (lLatencies s ++ [elapsed]) (lLog s) (lStage s)), ())
    else None).

(** A worker. Each round but the last takes a number within the limit, so the limit
    bounds the rounds. *)
Fixpoint workerLoop (fuel : nat) : P unit :=
  match fuel with
  | O => Panic
  | S fuel' =>
      ctxDone ≫= λ done,
      if done : bool then mret () else
      issue ≫= λ next,
      if u64 maxRequests <? next then mret () else
      now ≫= λ reqStart,
      get ≫= λ reply,
      now ≫= λ t,
      let elapsed := t_sub t reqStart in
      (match reply with
       | None => addFailure Idle
       | Some value =>
           if bool_decide (value = expected) then addSuccess ≫= λ _, send elapsed
           else addFailure OweMismatch ≫= λ _, addMismatch
       end) ≫= λ _,
      workerLoop fuel'
  end.

Definition worker : P unit := workerLoop (S (Z.to_nat maxRequests)).

Definition loadStarted (concurrency : nat) : Load := mkLoad 0 0 0 0 [] [] (replicate concurrency Idle).

Definition loadReaches (concurrency : nat) (c : Load * list (P unit)) : Prop :=
  rtc (pstep (λ _ _, True) (λ _ _ _, False)) (loadStarted concurrency, replicate concurrency worker) c.

(** [wg.Wait()] has returned. *)
Definition loadEnds (concurrency : nat) (s : Load) : Prop :=
  loadReaches concurrency (s, Ret <$> replicate concurrency ()).

End load.

(** The phase that is returned. *)
Definition loadPhase {F} `{Float64 F} (name addr : string) (elapsed : Duration) (s : Load) : benchmarkPhase F :=
  let values := goheap.sortSlice Z.ltb (lLatencies s) in
  let requests := lSuccesses s in
  let ops := if 0 <? elapsed then (fofZ requests / seconds elapsed)%f64 else f0 in
  mkPhase name addr requests 0 EmptyString 0 0 (lFailures s) (lMismatches s) 0 0 0 (seconds elapsed) ops
    (percentileMillis values 50) (percentileMillis values 95) (percentileMillis values 99)
    None None None None None 0 EmptyString EmptyString 0 0 0 0 0 0 f0 [].

End getload.
