(* ===== verification/GetLoadProps.v ===== *)
(** * The load of the hot key benchmark, in every interleaving *)
From stdpp Require Import prelude strings list relations.
From Stdlib Require Import ZArith Lia SpecFloat.
From S2P Require Import Prelude Float64 Conc Progress WorkloadLogic Benchmark GetLoad.
Local Open Scope Z_scope.

Module getloadprops.
Import benchmark getload.

(** How many entries of a log satisfy a test. *)
Definition tally {A} (f : A → bool) (l : list A) : Z := sumZ (λ x, if f x then 1 else 0) l.

Lemma tally_bound {A} (f : A → bool) l : 0 <= tally f l <= Z.of_nat (length l).
Proof. apply sumZ_count_bound. intros x. destruct (f x); lia. Qed.

Lemma tally_insert {A} (f : A → bool) (l : list A) i x y :
  l !! i = Some x → tally f (<[i := y]> l) = tally f l - (if f x then 1 else 0) + (if f y then 1 else 0).
Proof. apply sumZ_insert. Qed.

Lemma tally_cons {A} (f : A → bool) x (l : list A) : tally f (x :: l) = (if f x then 1 else 0) + tally f l.
Proof. done. Qed.

Lemma tally_at {A} (f : A → bool) (l : list A) i x : l !! i = Some x → f x = true → 1 <= tally f l.
Proof.
  revert i. induction l as [|y l IH]; intros i Hi Hx; [done|]. rewrite tally_cons. pose proof (tally_bound f l).
  destruct i as [|i]; simpl in Hi; [injection Hi as ->; rewrite Hx; lia|].
  pose proof (IH i Hi Hx). destruct (f y); lia.
Qed.

Lemma tally_none {A} (f : A → bool) (l : list A) : (∀ x, x ∈ l → f x = false) → tally f l = 0.
Proof.
  induction l as [|x l IH]; intros Hl; [done|]. rewrite tally_cons, Hl, IH by (try intros; try apply Hl; by constructor). done.
Qed.

Definition owesSuccess (st : stage) : bool := match st with OweSuccess => true | _ => false end.
Definition owesLatency (st : stage) : bool := match st with OweSuccess | OweLatency => true | _ => false end.
Definition owesFailure (st : stage) : bool := match st with OweFailure | OweBoth => true | _ => false end.
Definition owesMismatch (st : stage) : bool := match st with OweBoth | OweMismatch => true | _ => false end.
Definition isTaken (st : stage) : bool := match st with Taken => true | _ => false end.
Definition isOver (st : stage) : bool := match st with Over => true | _ => false end.

Section logic.
Context (maxRequests : Z) (expected : bytes) (N : nat).
Hypothesis max_range : 0 < maxRequests <= maxInt64.
Hypothesis N_range : Z.of_nat N <= maxInt64.

(** The replies by outcome. *)
Definition good (ev : nat * option bytes) : bool := bool_decide (ev.2 = Some expected).
Definition failed (ev : nat * option bytes) : bool := negb (good ev).
Definition wrong (ev : nat * option bytes) : bool := failed ev && bool_decide (is_Some ev.2).

Record inv (s : Load) : Prop := {
  i_workers : length (lStage s) = N;
  i_successes : lSuccesses s = tally good (lLog s) - tally owesSuccess (lStage s);
  i_latencies : Z.of_nat (length (lLatencies s)) = tally good (lLog s) - tally owesLatency (lStage s);
  i_failures : lFailures s = tally failed (lLog s) - tally owesFailure (lStage s);
  i_mismatches : lMismatches s = tally wrong (lLog s) - tally owesMismatch (lStage s);
  i_issued : Z.min (lIssued s) maxRequests = Z.of_nat (length (lLog s)) + tally isTaken (lStage s);
  i_over : 0 <= lIssued s <= maxRequests + tally isOver (lStage s);
  i_nonneg : 0 <= lSuccesses s ∧ 0 <= lFailures s ∧ 0 <= lMismatches s
}.

Record rely (i : nat) (s s' : Load) : Prop := {
  r_stage : lStage s' !! i = lStage s !! i;
  r_log : ∃ new, lLog s' = new ++ lLog s ∧ Forall (λ ev, ev.1 ≠ i) new
}.

Definition guar (i : nat) (s s' : Load) : Prop := ∀ j, j ≠ i → rely j s s'.

#[export] Instance lrely_preorder i : PreOrder (rely i).
Proof.
  split; [intros s; split; [done|by exists []]|].
  intros s1 s2 s3 [A1 (n1 & L1 & F1)] [A2 (n2 & L2 & F2)]. split; [congruence|].
  exists (n2 ++ n1). rewrite L2, L1, app_assoc. split; [done|]. by apply Forall_app.
Qed.

Notation tick_ok := (λ (_ : Load) (_ : Tick), True).
Notation liveL := (live tick_ok inv rely guar).
Notation stable i Φ := (stableAt inv rely i Φ).

Definition mine (i : nat) (ev : nat * option bytes) : bool := bool_decide (ev.1 = i).

(** Where worker [i] stands, and how many requests it has made. *)
Definition at_ (i : nat) (st : stage) (n : Z) (s : Load) : Prop :=
  lStage s !! i = Some st ∧ tally (mine i) (lLog s) = n.

Lemma stage_stable i st n : stable i (at_ i st n).
Proof.
  intros s s1 [H1 H2] [A (new & L & G)] _. split; [congruence|]. rewrite L. unfold tally in *. rewrite sumZ_app, H2.
  enough (E : tally (mine i) new = 0) by (unfold tally in E; lia). apply tally_none.
  intros ev Hev. rewrite Forall_forall in G. apply bool_decide_eq_false. by apply G.
Qed.

Lemma set_stage_rely i j st s : i ≠ j → rely j s (setStage i st s).
Proof. intros Hne. split; simpl; [by rewrite list_lookup_insert_ne|by exists []]. Qed.

(** The log is no longer than the limit. *)
Lemma load_log_bound s : inv s → Z.of_nat (length (lLog s)) <= maxRequests.
Proof. intros []. pose proof (tally_bound isTaken (lStage s)). lia. Qed.

Ltac tallies s := pose proof (tally_bound good (lLog s)); pose proof (tally_bound failed (lLog s));
  pose proof (tally_bound wrong (lLog s)); pose proof (tally_bound isOver (lStage s)); pose proof (tally_bound isTaken (lStage s)).

(** Reading the environment. *)
Lemma l_read {A} i st n (f : Tick → A) : liveL i (at_ i st n) (act (λ _ e s, Some (s, f e))) (λ _, at_ i st n).
Proof.
  apply live_act; [apply stage_stable|intros; apply stage_stable|]. intros s e HI Hs _.
  eexists _, _. split; [done|]. split_and!; [done| |done]. intros j _. reflexivity.
Qed.

(** An action that moves worker [i] from one stage to another. *)
Lemma l_move {A} i st n (st' : A → stage) (n' : A → Z) (f : nat → Tick → Load → option (Load * A)) :
  (∀ s e, inv s → at_ i st n s → ∃ s' a, f i e s = Some (setStage i (st' a) s', a) ∧ lStage s' = lStage s ∧
     (∃ new, lLog s' = new ++ lLog s ∧ Forall (λ ev, ev.1 = i) new) ∧
     tally (mine i) (lLog s') = n' a ∧ inv (setStage i (st' a) s')) →
  liveL i (at_ i st n) (act f) (λ a, at_ i (st' a) (n' a)).
Proof.
  intros Hf. apply live_act; [apply stage_stable|intros; apply stage_stable|]. intros s e HI Hs _.
  destruct (Hf s e HI Hs) as (s' & a & -> & Hst & (new & Hl & Hn) & Ht & HI'). eexists _, a. split; [done|]. split; [done|].
  split.
  - intros j Hj. split; simpl; [rewrite list_lookup_insert_ne by done; by rewrite Hst|]. exists new. split; [done|].
    eapply Forall_impl; [done|]. intros ev ->. done.
  - split; simpl; [|done]. apply list_lookup_insert_eq. rewrite Hst. destruct Hs as [Hi _]. by eapply lookup_lt_Some.
Qed.

(** The invariant of the new state, by counting. *)
Ltac counted s HI Hst :=
  tallies s; destruct HI as [Q1 Q2 Q3 Q4 Q5 Q6 Q7 Q8];
  constructor; simpl; rewrite ?length_insert, ?length_app, ?tally_cons, ?(tally_insert _ _ _ _ _ Hst); simpl; try lia.

Lemma l_issue i n : liveL i (at_ i Idle n) (issue maxRequests) (λ next s,
  at_ i (if u64 maxRequests <? next then Over else Taken) n s).
Proof.
  apply (l_move i Idle n (λ next, if u64 maxRequests <? next then Over else Taken) (λ _, n)).
  intros s e HI [Hst Hn]. eexists _, _. split; [done|]. split; [done|]. split; [by exists []|]. split; [done|].
  pose proof (i_over s HI). pose proof (tally_bound isOver (lStage s)) as Ho. rewrite (i_workers s HI) in Ho.
  rewrite (u64_id maxRequests), (u64_id (lIssued s + 1)) by width_lia.
  destruct (Z.ltb_spec maxRequests (lIssued s + 1)); counted s HI Hst.
Qed.

Lemma reply_cases i reply :
  (verdict expected reply = OweSuccess ∧ good (i, reply) = true ∧ failed (i, reply) = false ∧ wrong (i, reply) = false) ∨
  (verdict expected reply = OweFailure ∧ good (i, reply) = false ∧ failed (i, reply) = true ∧ wrong (i, reply) = false) ∨
  (verdict expected reply = OweBoth ∧ good (i, reply) = false ∧ failed (i, reply) = true ∧ wrong (i, reply) = true).
Proof.
  unfold wrong, failed, good, verdict. simpl. destruct reply as [v|]; [|right; left; done].
  destruct (decide (v = expected)) as [->|Hne]; [left|right; right].
  - by rewrite !bool_decide_eq_true_2 by done.
  - rewrite !bool_decide_eq_false_2 by congruence. done.
Qed.

Lemma l_get i n : liveL i (at_ i Taken n) (get expected) (λ reply, at_ i (verdict expected reply) (n + 1)).
Proof.
  apply (l_move i Taken n (verdict expected) (λ _, n + 1)).
  intros s e HI [Hst Hn]. eexists _, _. split; [done|]. split; [done|].
  split; [exists [(i, tReply e)]; split; [done|by apply Forall_singleton]|].
  split; [simpl; rewrite tally_cons; unfold mine at 1; rewrite bool_decide_eq_true_2 by done; lia|].
  destruct (reply_cases i (tReply e)) as [(Hv & Hg & Hf & Hw)|[(Hv & Hg & Hf & Hw)|(Hv & Hg & Hf & Hw)]]; rewrite Hv;
    counted s HI Hst; rewrite ?Hg, ?Hf, ?Hw; lia.
Qed.

Lemma l_addFailure i n st next :
  (st = OweFailure ∧ next = Idle) ∨ (st = OweBoth ∧ next = OweMismatch) →
  liveL i (at_ i st n) (addFailure next) (λ _, at_ i next n).
Proof.
  intros Hc. apply (l_move i st n (λ _, next) (λ _, n)). intros s e HI [Hst Hn]. eexists _, (). split; [done|]. split; [done|].
  split; [by exists []|]. split; [done|]. pose proof (load_log_bound s HI).
  assert (1 <= tally owesFailure (lStage s)) by (eapply tally_at; [done|]; by destruct Hc as [[-> _]|[-> _]]).
  destruct Hc as [[-> ->]|[-> ->]]; counted s HI Hst; rewrite u64_id by width_lia; lia.
Qed.

Lemma l_addMismatch i n : liveL i (at_ i OweMismatch n) addMismatch (λ _, at_ i Idle n).
Proof.
  apply (l_move i OweMismatch n (λ _, Idle) (λ _, n)). intros s e HI [Hst Hn]. eexists _, (). split; [done|]. split; [done|].
  split; [by exists []|]. split; [done|]. pose proof (load_log_bound s HI).
  assert (1 <= tally owesMismatch (lStage s)) by (eapply tally_at; [done|]; done).
  counted s HI Hst; rewrite u64_id by width_lia; lia.
Qed.

Lemma l_addSuccess i n : liveL i (at_ i OweSuccess n) addSuccess (λ _, at_ i OweLatency n).
Proof.
  apply (l_move i OweSuccess n (λ _, OweLatency) (λ _, n)). intros s e HI [Hst Hn]. eexists _, (). split; [done|]. split; [done|].
  split; [by exists []|]. split; [done|]. pose proof (load_log_bound s HI).
  assert (1 <= tally owesSuccess (lStage s)) by (eapply tally_at; [done|]; done).
  counted s HI Hst; rewrite u64_id by width_lia; lia.
Qed.

(** There is room in the channel for every latency that is owed. *)
Lemma l_send i n elapsed : liveL i (at_ i OweLatency n) (send maxRequests elapsed) (λ _, at_ i Idle n).
Proof.
  apply (l_move i OweLatency n (λ _, Idle) (λ _, n)). intros s e HI [Hst Hn]. pose proof (load_log_bound s HI).
  assert (1 <= tally owesLatency (lStage s)) by (eapply tally_at; [done|]; done).
  pose proof (i_latencies s HI). pose proof (tally_bound good (lLog s)).
  rewrite (proj2 (Z.ltb_lt _ _)) by lia.
  eexists _, (). split; [done|]. split; [done|]. split; [by exists []|]. split; [done|]. counted s HI Hst.
Qed.

Lemma load_bind {A B} i Φ (p : P A) (q : A → P B) Ξ Ψ :
  liveL i Φ p Ξ → (∀ a, liveL i (Ξ a) (q a) Ψ) → liveL i Φ (p ≫= q) Ψ.
Proof. apply live_bind. apply _. Qed.

Definition ended (i : nat) (_ : unit) (s : Load) : Prop := ∃ st n, st ∈ [Idle; Over] ∧ at_ i st n s.

Lemma l_end i st n : st ∈ [Idle; Over] → liveL i (at_ i st n) (mret ()) (ended i).
Proof. intros Hst. apply live_ret; [apply stage_stable|]. intros s _ Ha. by exists st, n. Qed.

Lemma l_loop i fuel n : maxRequests < n + Z.of_nat fuel →
  liveL i (at_ i Idle n) (workerLoop maxRequests expected fuel) (ended i).
Proof.
  revert n. induction fuel as [|fuel IH]; intros n Hf.
  { intros s HI [_ Hn]. pose proof (load_log_bound s HI). pose proof (tally_bound (mine i) (lLog s)). lia. }
  cbn [workerLoop]. eapply load_bind; [apply l_read|intros done]. destruct done; [apply l_end; by repeat constructor|].
  eapply load_bind; [apply l_issue|intros next]. cbv beta. destruct (u64 maxRequests <? next); [apply (l_end i Over); by repeat constructor|].
  eapply load_bind; [apply l_read|intros reqStart]. eapply load_bind; [apply l_get|intros reply].
  eapply load_bind; [apply l_read|intros t]. eapply load_bind with (Ξ := λ _, at_ i Idle (n + 1)); [|intros []; apply IH; lia].
  unfold verdict. destruct reply as [value|]; [|apply l_addFailure; auto]. case_bool_decide.
  - eapply load_bind; [apply l_addSuccess|intros []]. apply l_send.
  - eapply load_bind; [apply l_addFailure; auto|intros []]. apply l_addMismatch.
Qed.

Lemma load_started_inv : inv (loadStarted N).
Proof.
  assert (Hz : ∀ f : stage → bool, f Idle = false → tally f (replicate N Idle) = 0).
  { intros f Hf. apply tally_none. intros x [-> _]%elem_of_replicate. done. }
  constructor; simpl; rewrite ?Hz, ?length_replicate by done; cbn; lia.
Qed.

Lemma load_pool c : loadReaches maxRequests expected N c → livePool tick_ok inv rely guar ended c.
Proof.
  intros Hr. eapply (livePool_reach tick_ok inv rely guar ended); [|..|exact Hr]; [intros i j s s' Hne Hg; by apply Hg; auto|].
  split; [apply load_started_inv|]. simpl. intros i p [-> Hi]%lookup_replicate.
  apply (l_loop i _ 0); [lia|apply load_started_inv|]. split; simpl; [|done]. by apply lookup_replicate_2.
Qed.

End logic.

(** When every worker has returned nothing is owed. *)
Lemma ended_exact maxRequests expected N s :
  0 < maxRequests <= maxInt64 → Z.of_nat N <= maxInt64 → loadEnds maxRequests expected N s →
  inv maxRequests expected N s ∧ ∀ f : stage → bool, f Idle = false → f Over = false → tally f (lStage s) = 0.
Proof.
  intros Hm HN Hr. pose proof (load_pool maxRequests expected N Hm HN _ Hr) as Hp. split; [by apply Hp|].
  intros f Hi Ho. apply tally_none. intros st (i & Hst)%list_elem_of_lookup.
  assert (Hlt : (i < N)%nat) by (rewrite <-(i_workers _ _ _ _ (proj1 Hp)); by eapply lookup_lt_Some).
  destruct (livePool_returned _ _ _ _ _ _ _ i () Hp) as (st' & n & Hin & Ha & _); [by apply lookup_replicate_2|].
  rewrite Hst in Ha. injection Ha as ->. apply elem_of_cons in Hin as [->|Hin]; [done|].
  by apply list_elem_of_singleton in Hin as ->.
Qed.

End getloadprops.

Import benchmark getload getloadprops.

(** C35. The load of the hot key benchmark counts exactly, in every interleaving of its
    workers: no worker ever panics or waits for room in the channel of latencies, every
    schedule comes to an end, and then the phase's requests, failures and mismatches
    are the numbers of the replies with the expected value, without it, and with
    another value; at most the request limit of commands was sent, each one counted
    once, and there is one latency sample for each success. *)
Theorem hot_load_exact {F} `{Float64 F} maxRequests expected N (name addr : string) (elapsed : Duration) :
  0 < maxRequests <= maxInt64 → Z.of_nat N <= 10000 →
  (∀ c i p, loadReaches maxRequests expected N c → c.2 !! i = Some p →
     sn (pstep (λ _ _, True) (λ _ _ _, False)) c ∧ p ≠ Panic ∧ ∀ f e, p = Step f → is_Some (f i e c.1)) ∧
  (∀ s, loadEnds maxRequests expected N s →
     let phase := loadPhase (F := F) name addr elapsed s in
     Requests phase = tally (good expected) (lLog s) ∧
     Failures phase = tally (failed expected) (lLog s) ∧
     ValueMismatches phase = tally (wrong expected) (lLog s) ∧
     Requests phase + Failures phase = Z.of_nat (length (lLog s)) ∧ Z.of_nat (length (lLog s)) <= maxRequests ∧
     Z.of_nat (length (lLatencies s)) = Requests phase).
Proof.
  intros Hm HN. assert (HN' : Z.of_nat N <= maxInt64) by width_lia. split.
  - intros c i p Hc Hi. split; [apply pool_terminates|].
    destruct (livePool_progress _ _ _ _ _ c i p (load_pool maxRequests expected N Hm HN' c Hc) Hi) as [Hp Hf].
    split; [done|]. intros f e Hfe. by apply (Hf f e).
  - intros s Hs phase. destruct (ended_exact _ _ _ _ Hm HN' Hs) as [HI Hz].
    pose proof (load_log_bound _ _ _ s HI) as Hl. destruct HI as [_ Q2 Q3 Q4 Q5 _ _ _]. rewrite !Hz in * by done.
    assert (Hsum : tally (good expected) (lLog s) + tally (failed expected) (lLog s) = Z.of_nat (length (lLog s))).
    { clear. induction (lLog s) as [|ev l IH]; [done|]. rewrite !tally_cons. unfold failed at 1. cbn [length].
      destruct (good expected ev); simpl; lia. }
    simpl. split_and!; lia.
Qed.

(** Two workers share three requests: one is answered with the value, one with another
    value, one with an error. *)
Definition demoTick (s : Load) : option Tick :=
  Some (mkTick false (1000000 * Z.of_nat (length (lLog s)))
          (match length (lLog s) with 0%nat => Some [Byte.x61] | 1%nat => Some [Byte.x62] | _ => None end)).
Notation demoRun := (workloadlogic.runTwo demoTick 60 (loadStarted 2) (worker 3 [Byte.x61])).

Lemma hot_load_exact_witness :
  let phase := loadPhase (F := spec_float) (H := binary64.binary64) "hot" "addr" Second demoRun.1 in
  (Requests phase, Failures phase, ValueMismatches phase) = (1, 2, 1).
Proof.
  destruct (hot_load_exact (F := spec_float) (H := binary64.binary64) 3 [Byte.x61] 2 "hot" "addr" Second) as [_ He];
    [width_lia|done|].
  destruct (He demoRun.1) as (H1 & H2 & H3 & _).
  - refine (workloadlogic.runTwo_rtc () demoTick 60 (loadStarted 2) (worker 3 [Byte.x61]) _). vm_compute. reflexivity.
  - cbv zeta in *. rewrite H1, H2, H3. vm_compute. reflexivity.
Defined.
