(* ===== verification/Daemon.v ===== *)
(** * cmd/slizend: the daemon, with the life of the admin server

    Models run of src/cmd/slizend/main.go and Start and Close of
    src/internal/admin/server.go. What comes before the servers start is a function of
    the flags, the configuration and the ping; from there on the daemon is a state
    machine: the main goroutine, the goroutines of the two servers, the admin server's
    goroutine that waits for the end of its context, and the goroutine that waits for
    both servers. [step] is one atomic action of one of them or an event of the
    environment; it is not defined where the code waits. The proxy's Start is one call
    that returns at some moment (Lifecycle.v models its inside). Of net/http: Serve
    returns [ErrServerClosed] once Shutdown has been called and only then. *)
From stdpp Require Import prelude strings list relations.
From Stdlib Require Import ZArith Lia.
From S2P Require Import Prelude Float64 GoStd GoFlag Config ConfigLoad.
Local Open Scope Z_scope.

Module daemon.
Import goflag config.

(** ** Before the servers *)

Record daemonFlags := mkDaemonFlags { fConfig : string; fVersion : bool; fCheck : bool }.

Definition daemonFormal : formal daemonFlags :=
  [("config"%string, stringFlag (λ s v, mkDaemonFlags s (fVersion v) (fCheck v)));
   ("version"%string, BoolFlag (λ b v, mkDaemonFlags (fConfig v) b (fCheck v)));
   ("check-config"%string, BoolFlag (λ b v, mkDaemonFlags (fConfig v) (fVersion v) b))].

Inductive level := LevelDebug | LevelInfo | LevelWarn | LevelError.

(** The level and whether the handler writes text. *)
Definition newLogger (logging : LoggingConfig) : level * bool :=
  (if bool_decide (loggingLevel logging = "debug"%string) then LevelDebug
   else if bool_decide (loggingLevel logging = "warn"%string) then LevelWarn
   else if bool_decide (loggingLevel logging = "error"%string) then LevelError
   else LevelInfo,
   bool_decide (loggingFormat logging = "text"%string)).


Inductive startError :=
  | BadFlags (e : flagError)
  | BadConfig (e : configload.error)
  | UpstreamUnreachable.

(** The process ends before it serves, with what it printed and its error; or it serves.
    The flag says whether the upstream client, once made, was closed again. *)
Inductive startup (F : Type) :=
  | Exits (printed : option string) (err : option startError) (clientClosed : bool)
  | Serves (cfg : Config F).
Arguments Exits {F}. Arguments Serves {F}.

Section startup.
Context {F : Type} `{Float64 F}.
Context (env : string → option string) (readFile : string → res string string).
Context (unmarshal : string → res string (configload.rawConfig F)) (secret : string).
Context (ping : Config F → option string) (version : string).

Definition prepare (args : list string) : startup F :=
  match Parse daemonFormal args (mkDaemonFlags EmptyString false false) with
  | inr e => Exits None (Some (BadFlags e)) false
  | inl (v, _) =>
      if fVersion v then Exits (Some version) None false
      else match configload.Load env readFile unmarshal secret (fConfig v) with
      | Fail e => Exits None (Some (BadConfig e)) false
      | Ok cfg =>
          if fCheck v then Exits (Some "configuration ok"%string) None false
          else match ping cfg with
               | Some _ => Exits None (Some UpstreamUnreachable) true
               | None => Serves cfg
               end
      end
  end.

End startup.

(** ** The servers *)

(** [context.Canceled], and every other error. *)
Inductive Err := Canceled | Other (s : string).

(** A server's goroutine: in Start, returned from it, its result sent, done. *)
Inductive serverAt (A : Type) :=
  | Busy (a : A) | Returned (r : option Err) | Sent (r : option Err) | Ended (r : option Err).
Arguments Busy {A}. Arguments Returned {A}. Arguments Sent {A}. Arguments Ended {A}.

(** Start of the admin server: before the server is made, before Listen, in Serve,
    waiting for the result of Shutdown. *)
Inductive adminPhase := ACreate | AListen | AServe | AAwait.

(** Its goroutine: not started, waiting for the context, about to call Shutdown, in
    Shutdown, done. *)
Inductive keeperAt := KNone | KWait | KCall | KShutdown | KEnded.

Inductive waiterAt := WNone | WWait | WClose | WDone.

(** The main goroutine: in the first select; after an error, about to cancel and waiting
    for both servers; otherwise about to cancel, to start the waiter, in the second
    select, about to close the proxy and the admin server; in the deferred calls;
    returned. *)
Inductive mainAt :=
  | MSelect
  | MFailCancel (e : Err) | MFailWait (e : Err)
  | MCancel | MSpawn | MShutdown | MCloseProxy | MCloseAdmin
  | MDeferCancel (r : option Err) | MDeferClose (r : option Err)
  | MReturned (r : option Err).

(** [received] is not in the code: what the first select received from [errCh]. *)
Record Daemon := mkDaemon {
  main : mainAt;
  admin : serverAt adminPhase;
  proxy : serverAt unit;
  waiter : waiterAt;
  keeper : keeperAt;
  errCh : list (option Err);
  wg : Z;
  signal : bool;
  cancelled : bool;
  doneClosed : bool;
  hasServer : bool;
  shuttingDown : bool;
  adminDone : list (option Err);
  proxyCloseCalled : bool;
  adminCloseCalled : bool;
  svcCloses : nat;
  panicked : bool;
  received : option (option Err)
}.

Definition set_main (x : mainAt) (s : Daemon) : Daemon :=
  mkDaemon x (admin s) (proxy s) (waiter s) (keeper s) (errCh s) (wg s) (signal s) (cancelled s) (doneClosed
    s) (hasServer s) (shuttingDown s) (adminDone s) (proxyCloseCalled s) (adminCloseCalled s) (svcCloses s)
    (panicked s) (received s).
Definition set_admin (x : serverAt adminPhase) (s : Daemon) : Daemon :=
  mkDaemon (main s) x (proxy s) (waiter s) (keeper s) (errCh s) (wg s) (signal s) (cancelled s) (doneClosed s)
    (hasServer s) (shuttingDown s) (adminDone s) (proxyCloseCalled s) (adminCloseCalled s) (svcCloses s)
    (panicked s) (received s).
Definition set_proxy (x : serverAt unit) (s : Daemon) : Daemon :=
  mkDaemon (main s) (admin s) x (waiter s) (keeper s) (errCh s) (wg s) (signal s) (cancelled s) (doneClosed s)
    (hasServer s) (shuttingDown s) (adminDone s) (proxyCloseCalled s) (adminCloseCalled s) (svcCloses s)
    (panicked s) (received s).
Definition set_waiter (x : waiterAt) (s : Daemon) : Daemon :=
  mkDaemon (main s) (admin s) (proxy s) x (keeper s) (errCh s) (wg s) (signal s) (cancelled s) (doneClosed s)
    (hasServer s) (shuttingDown s) (adminDone s) (proxyCloseCalled s) (adminCloseCalled s) (svcCloses s)
    (panicked s) (received s).
Definition set_keeper (x : keeperAt) (s : Daemon) : Daemon :=
  mkDaemon (main s) (admin s) (proxy s) (waiter s) x (errCh s) (wg s) (signal s) (cancelled s) (doneClosed s)
    (hasServer s) (shuttingDown s) (adminDone s) (proxyCloseCalled s) (adminCloseCalled s) (svcCloses s)
    (panicked s) (received s).
Definition set_errCh (x : list (option Err)) (s : Daemon) : Daemon :=
  mkDaemon (main s) (admin s) (proxy s) (waiter s) (keeper s) x (wg s) (signal s) (cancelled s) (doneClosed s)
    (hasServer s) (shuttingDown s) (adminDone s) (proxyCloseCalled s) (adminCloseCalled s) (svcCloses s)
    (panicked s) (received s).
Definition set_wg (x : Z) (s : Daemon) : Daemon :=
  mkDaemon (main s) (admin s) (proxy s) (waiter s) (keeper s) (errCh s) x (signal s) (cancelled s) (doneClosed
    s) (hasServer s) (shuttingDown s) (adminDone s) (proxyCloseCalled s) (adminCloseCalled s) (svcCloses s)
    (panicked s) (received s).
Definition set_signal (x : bool) (s : Daemon) : Daemon :=
  mkDaemon (main s) (admin s) (proxy s) (waiter s) (keeper s) (errCh s) (wg s) x (cancelled s) (doneClosed s)
    (hasServer s) (shuttingDown s) (adminDone s) (proxyCloseCalled s) (adminCloseCalled s) (svcCloses s)
    (panicked s) (received s).
Definition set_cancelled (x : bool) (s : Daemon) : Daemon :=
  mkDaemon (main s) (admin s) (proxy s) (waiter s) (keeper s) (errCh s) (wg s) (signal s) x (doneClosed s)
    (hasServer s) (shuttingDown s) (adminDone s) (proxyCloseCalled s) (adminCloseCalled s) (svcCloses s)
    (panicked s) (received s).
Definition set_doneClosed (x : bool) (s : Daemon) : Daemon :=
  mkDaemon (main s) (admin s) (proxy s) (waiter s) (keeper s) (errCh s) (wg s) (signal s) (cancelled s) x
    (hasServer s) (shuttingDown s) (adminDone s) (proxyCloseCalled s) (adminCloseCalled s) (svcCloses s)
    (panicked s) (received s).
Definition set_hasServer (x : bool) (s : Daemon) : Daemon :=
  mkDaemon (main s) (admin s) (proxy s) (waiter s) (keeper s) (errCh s) (wg s) (signal s) (cancelled s)
    (doneClosed s) x (shuttingDown s) (adminDone s) (proxyCloseCalled s) (adminCloseCalled s) (svcCloses s)
    (panicked s) (received s).
Definition set_shuttingDown (x : bool) (s : Daemon) : Daemon :=
  mkDaemon (main s) (admin s) (proxy s) (waiter s) (keeper s) (errCh s) (wg s) (signal s) (cancelled s)
    (doneClosed s) (hasServer s) x (adminDone s) (proxyCloseCalled s) (adminCloseCalled s) (svcCloses s)
    (panicked s) (received s).
Definition set_adminDone (x : list (option Err)) (s : Daemon) : Daemon :=
  mkDaemon (main s) (admin s) (proxy s) (waiter s) (keeper s) (errCh s) (wg s) (signal s) (cancelled s)
    (doneClosed s) (hasServer s) (shuttingDown s) x (proxyCloseCalled s) (adminCloseCalled s) (svcCloses s)
    (panicked s) (received s).
Definition set_proxyCloseCalled (x : bool) (s : Daemon) : Daemon :=
  mkDaemon (main s) (admin s) (proxy s) (waiter s) (keeper s) (errCh s) (wg s) (signal s) (cancelled s)
    (doneClosed s) (hasServer s) (shuttingDown s) (adminDone s) x (adminCloseCalled s) (svcCloses s) (panicked
    s) (received s).
Definition set_adminCloseCalled (x : bool) (s : Daemon) : Daemon :=
  mkDaemon (main s) (admin s) (proxy s) (waiter s) (keeper s) (errCh s) (wg s) (signal s) (cancelled s)
    (doneClosed s) (hasServer s) (shuttingDown s) (adminDone s) (proxyCloseCalled s) x (svcCloses s) (panicked
    s) (received s).
Definition set_svcCloses (x : nat) (s : Daemon) : Daemon :=
  mkDaemon (main s) (admin s) (proxy s) (waiter s) (keeper s) (errCh s) (wg s) (signal s) (cancelled s)
    (doneClosed s) (hasServer s) (shuttingDown s) (adminDone s) (proxyCloseCalled s) (adminCloseCalled s) x
    (panicked s) (received s).
Definition set_panicked (x : bool) (s : Daemon) : Daemon :=
  mkDaemon (main s) (admin s) (proxy s) (waiter s) (keeper s) (errCh s) (wg s) (signal s) (cancelled s)
    (doneClosed s) (hasServer s) (shuttingDown s) (adminDone s) (proxyCloseCalled s) (adminCloseCalled s)
    (svcCloses s) x (received s).
Definition set_received (x : option (option Err)) (s : Daemon) : Daemon :=
  mkDaemon (main s) (admin s) (proxy s) (waiter s) (keeper s) (errCh s) (wg s) (signal s) (cancelled s)
    (doneClosed s) (hasServer s) (shuttingDown s) (adminDone s) (proxyCloseCalled s) (adminCloseCalled s)
    (svcCloses s) (panicked s) x.


Definition started : Daemon :=
  mkDaemon MSelect (Busy ACreate) (Busy ()) WNone KNone [] 2 false false false false false [] false false 0 false None.

(** [serverCtx] is done: it, or the context of the signals, was cancelled. *)
Definition ctxDone (s : Daemon) : bool := signal s || cancelled s.

(** What Serve returned. *)
Inductive served := ServeClosed | ServeFailed (e : Err).

Inductive event :=
  | ESignal
  | EProxyReturns (r : option Err) | EProxySend | EProxyDone
  | ACreated | AListened (r : option Err) | AServed (r : served) | AAwaited | EAdminSend | EAdminDone
  | EKeeperWakes | EKeeperCalls | EKeeperDone (r : option Err)
  | ESelectSignal | ESelectErr | EFailCancel | EFailWait
  | ECancel | ESpawn | ESelectDone | ETimeout | ECloseProxy | ECloseAdmin
  | EDeferCancel | EDeferClose
  | EWaiterWait | EWaiterClose.

(** [errors.Is(err, context.Canceled)] makes the result nil. *)
Definition unlessCanceled (r : option Err) : option Err := match r with Some Canceled => None | r => r end.

(** A send to [errCh], which has room for two. *)
Definition sendErr (r : option Err) (s : Daemon) : option Daemon :=
  if (length (errCh s) <? 2)%nat then Some (set_errCh (errCh s ++ [r]) s) else None.

(** [wg.Done()]: a negative counter panics. *)
Definition wgDone (s : Daemon) : Daemon := if wg s <=? 0 then set_panicked true s else set_wg (wg s - 1) s.

Definition stepProxy (ev : event) (s : Daemon) : option Daemon :=
  match ev, proxy s with
  | EProxyReturns r, Busy _ => Some (set_proxy (Returned r) s)
  | EProxySend, Returned r => set_proxy (Sent r) <$> sendErr r s
  | EProxyDone, Sent r => Some (set_proxy (Ended r) (wgDone s))
  | _, _ => None
  end.

(** Start of the admin server, and the goroutine that runs it. *)
Definition stepAdmin (ev : event) (s : Daemon) : option Daemon :=
  match ev, admin s with
  | ACreated, Busy ACreate => Some (set_admin (Busy AListen) (set_hasServer true s))
  | AListened (Some e), Busy AListen => Some (set_admin (Returned (Some e)) s)
  | AListened None, Busy AListen => Some (set_admin (Busy AServe) (set_keeper KWait s))
  | AServed (ServeFailed e), Busy AServe => Some (set_admin (Returned (unlessCanceled (Some e))) s)
  | AServed ServeClosed, Busy AServe => if shuttingDown s then Some (set_admin (Busy AAwait) s) else None
  | AAwaited, Busy AAwait =>
      match adminDone s with
      | r :: rest => Some (set_admin (Returned (unlessCanceled r)) (set_adminDone rest s))
      | [] => None
      end
  | EAdminSend, Returned r => set_admin (Sent r) <$> sendErr r s
  | EAdminDone, Sent r => Some (set_admin (Ended r) (wgDone s))
  | _, _ => None
  end.

Definition stepKeeper (ev : event) (s : Daemon) : option Daemon :=
  match ev, keeper s with
  | EKeeperWakes, KWait => if ctxDone s then Some (set_keeper KCall s) else None
  | EKeeperCalls, KCall => Some (set_keeper KShutdown (set_shuttingDown true s))
  | EKeeperDone r, KShutdown =>
      if (length (adminDone s) <? 1)%nat then Some (set_keeper KEnded (set_adminDone (adminDone s ++ [r]) s)) else None
  | _, _ => None
  end.

(** [admin.Server.Close]; the result is dropped. *)
Definition adminClose (s : Daemon) : Daemon :=
  set_adminCloseCalled true (if hasServer s then set_shuttingDown true s else s).

Definition stepMain (ev : event) (s : Daemon) : option Daemon :=
  match ev, main s with
  | ESelectSignal, MSelect => if signal s then Some (set_main MCancel s) else None
  | ESelectErr, MSelect =>
      match errCh s with
      | [] => None
      | r :: rest => Some (set_main (match r with Some e => MFailCancel e | None => MCancel end)
                             (set_received (Some r) (set_errCh rest s)))
      end
  | EFailCancel, MFailCancel e => Some (set_main (MFailWait e) (set_cancelled true s))
  | EFailWait, MFailWait e => if wg s =? 0 then Some (set_main (MDeferCancel (Some e)) s) else None
  | ECancel, MCancel => Some (set_main MSpawn (set_cancelled true s))
  | ESpawn, MSpawn => Some (set_main MShutdown (set_waiter WWait s))
  | ESelectDone, MShutdown => if doneClosed s then Some (set_main (MDeferCancel None) s) else None
  | ETimeout, MShutdown => Some (set_main MCloseProxy s)
  | ECloseProxy, MCloseProxy => Some (set_main MCloseAdmin (set_proxyCloseCalled true s))
  | ECloseAdmin, MCloseAdmin => Some (set_main (MDeferCancel None) (adminClose s))
  | EDeferCancel, MDeferCancel r => Some (set_main (MDeferClose r) (set_cancelled true s))
  | EDeferClose, MDeferClose r => Some (set_main (MReturned r) (set_svcCloses (S (svcCloses s)) s))
  | _, _ => None
  end.

(** Closing a closed channel panics. *)
Definition stepWaiter (ev : event) (s : Daemon) : option Daemon :=
  match ev, waiter s with
  | EWaiterWait, WWait => if wg s =? 0 then Some (set_waiter WClose s) else None
  | EWaiterClose, WClose =>
      Some (set_waiter WDone (if doneClosed s then set_panicked true s else set_doneClosed true s))
  | _, _ => None
  end.

Definition step (ev : event) (s : Daemon) : option Daemon :=
  match ev with
  | ESignal => Some (set_signal true s)
  | EProxyReturns _ | EProxySend | EProxyDone => stepProxy ev s
  | ACreated | AListened _ | AServed _ | AAwaited | EAdminSend | EAdminDone => stepAdmin ev s
  | EKeeperWakes | EKeeperCalls | EKeeperDone _ => stepKeeper ev s
  | EWaiterWait | EWaiterClose => stepWaiter ev s
  | _ => stepMain ev s
  end.

Fixpoint steps (evs : list event) (s : Daemon) : option Daemon :=
  match evs with [] => Some s | ev :: evs' => step ev s ≫= steps evs' end.

(** The states of the daemon. *)
Inductive reachable : Daemon → Prop :=
  | reach_start : reachable started
  | reach_step ev s s' : reachable s → step ev s = Some s' → reachable s'.

End daemon.
