(* ===== verification/DaemonProps.v ===== *)
(** * The daemon: every way it can end *)
From stdpp Require Import prelude strings list relations.
From Stdlib Require Import ZArith Lia.
From S2P Require Import Prelude Daemon.
Local Open Scope Z_scope.

Module daemonprops.
Import daemon.

Definition pending {A} (x : serverAt A) : Z := match x with Ended _ => 0 | _ => 1 end.
Definition sentCount {A} (x : serverAt A) : nat := match x with Sent _ | Ended _ => 1 | _ => 0 end.
Definition resultOf {A} (x : serverAt A) : option (option Err) := match x with Sent r | Ended r => Some r | _ => None end.
Definition some_count {A} (o : option A) : nat := match o with Some _ => 1 | None => 0 end.

(** Why the main goroutine went on to an orderly shutdown. *)
Definition orderly (s : Daemon) : Prop := (signal s = true ∧ received s = None) ∨ received s = Some None.

(** What holds when [run] is about to return. *)
Definition outcome (r : option Err) (s : Daemon) : Prop :=
  match r with
  | Some e => received s = Some (Some e) ∧ wg s = 0
  | None => orderly s ∧ (wg s = 0 ∨ (proxyCloseCalled s = true ∧ adminCloseCalled s = true))
  end.

Definition mainOk (s : Daemon) : Prop :=
  match main s with
  | MSelect => received s = None ∧ waiter s = WNone
  | MFailCancel e => received s = Some (Some e) ∧ waiter s = WNone
  | MFailWait e => received s = Some (Some e) ∧ cancelled s = true
  | MCancel => orderly s ∧ waiter s = WNone
  | MSpawn => orderly s ∧ cancelled s = true ∧ waiter s = WNone
  | MShutdown | MCloseProxy => orderly s ∧ cancelled s = true ∧ waiter s ≠ WNone
  | MCloseAdmin => orderly s ∧ cancelled s = true ∧ waiter s ≠ WNone ∧ proxyCloseCalled s = true
  | MDeferCancel r | MDeferClose r | MReturned r => outcome r s ∧ cancelled s = true
  end.

Definition keeperOk (s : Daemon) : Prop :=
  match keeper s with
  | KNone | KWait => adminDone s = []
  | KCall => adminDone s = [] ∧ ctxDone s = true
  | KShutdown => adminDone s = [] ∧ shuttingDown s = true
  | KEnded => shuttingDown s = true ∧
      match admin s with Busy _ => length (adminDone s) = 1%nat | _ => True end
  end.

Definition adminOk (s : Daemon) : Prop :=
  match admin s with
  | Busy ACreate => hasServer s = false ∧ keeper s = KNone
  | Busy AListen => hasServer s = true ∧ keeper s = KNone
  | Busy AServe => hasServer s = true ∧ keeper s ≠ KNone
  | Busy AAwait => hasServer s = true ∧ keeper s ≠ KNone ∧ shuttingDown s = true
  | _ => hasServer s = true
  end.

(** The invariant, in the parts that change together. *)
Record chanOk (s : Daemon) : Prop := {
  v_wg : wg s = pending (admin s) + pending (proxy s);
  v_count : (length (errCh s) + some_count (received s) = sentCount (admin s) + sentCount (proxy s))%nat;
  v_results : ∀ r, r ∈ errCh s ∨ received s = Some r → resultOf (admin s) = Some r ∨ resultOf (proxy s) = Some r;
  v_received : main s = MSelect → received s = None
}.

Definition waitOk (s : Daemon) : Prop :=
  match waiter s with
  | WNone | WWait => doneClosed s = false
  | WClose => doneClosed s = false ∧ wg s = 0
  | WDone => doneClosed s = true ∧ wg s = 0
  end.

Definition shutOk (s : Daemon) : Prop := shuttingDown s = true → ctxDone s = true.

Definition closesOk (s : Daemon) : Prop := svcCloses s = match main s with MReturned _ => 1%nat | _ => 0%nat end.

Record inv (s : Daemon) : Prop := {
  v_panic : panicked s = false;
  v_chan : chanOk s;
  v_wait : waitOk s;
  v_main : mainOk s;
  v_closes : closesOk s;
  v_shut : shutOk s;
  v_keeper : keeperOk s;
  v_admin : adminOk s
}.

(** The cases of a step: the event and the state of the goroutine that takes it. *)
Ltac step_cases s Hst :=
  unfold step, stepMain, stepProxy, stepAdmin, stepKeeper, stepWaiter, sendErr, wgDone, adminClose in Hst;
  repeat (case_match; simplify_eq/=);
  repeat match goal with
  | H : (_ =? _) = true |- _ => apply Z.eqb_eq in H
  | H : (_ <=? _) = true |- _ => apply Z.leb_le in H
  | H : (_ <=? _) = false |- _ => apply Z.leb_gt in H
  end.

(** Using what is known of the goroutines. *)
Ltac known s :=
  repeat match goal with
  | H : main s = _ |- _ => rewrite H in *; clear H
  | H : proxy s = _ |- _ => rewrite H in *; clear H
  | H : admin s = _ |- _ => rewrite H in *; clear H
  | H : keeper s = _ |- _ => rewrite H in *; clear H
  | H : waiter s = _ |- _ => rewrite H in *; clear H
  | H : errCh s = _ |- _ => rewrite H in *; clear H
  end; simpl in *.

Lemma daemon_started_inv : inv started.
Proof. repeat split; try done. simpl. by intros r [?%elem_of_nil|?]. Qed.

Lemma pending_range {A} (x : serverAt A) : 0 <= pending x <= 1.
Proof. destruct x; simpl; lia. Qed.

Lemma step_chan ev s s' : chanOk s → step ev s = Some s' → chanOk s'.
Proof.
  intros [A1 A2 A3 A4] Hst. pose proof (pending_range (admin s)). pose proof (pending_range (proxy s)).
  step_cases s Hst; known s.
  all: split; simpl in *; rewrite ?length_app; simpl; try done; try lia.
  all: try (rewrite A4 in * by done; simpl in *; lia).
  all: intros q Hq; specialize (A3 q); rewrite ?elem_of_app, ?list_elem_of_singleton, ?elem_of_cons in *;
    destruct_or? Hq; simplify_eq; try done; try (destruct A3 as [?|?]; auto; done); auto.
Qed.

(** The counter of servers never goes up. *)
Lemma step_wg ev s s' : chanOk s → step ev s = Some s' → wg s = 0 → wg s' = 0.
Proof.
  intros [A1 _ _ _] Hst Hw. pose proof (pending_range (admin s)). pose proof (pending_range (proxy s)).
  step_cases s Hst; known s; try done; lia.
Qed.

Lemma step_wait ev s s' : chanOk s → mainOk s → waitOk s → step ev s = Some s' → waitOk s'.
Proof.
  intros HC HM HW Hst. pose proof (step_wg ev s s' HC Hst) as Hz. step_cases s Hst; unfold waitOk, mainOk in *; known s; try done.
  all: try (destruct (waiter s); intuition (auto; congruence)).
  all: try (destruct HM as (_ & _ & E); by rewrite E in HW).
  all: by destruct HW.
Qed.

Lemma step_panic ev s s' : chanOk s → waitOk s → step ev s = Some s' → panicked s = false → panicked s' = false.
Proof.
  intros [A1 _ _ _] HW Hst Hp. pose proof (pending_range (admin s)). pose proof (pending_range (proxy s)).
  step_cases s Hst; unfold waitOk in *; known s; try done; try lia; try congruence. destruct HW; congruence.
Qed.

Lemma step_closes ev s s' : closesOk s → step ev s = Some s' → closesOk s'.
Proof. unfold closesOk. intros HC Hst. revert HC. step_cases s Hst; known s; intros; try done; congruence. Qed.

Lemma step_shut ev s s' : shutOk s → keeperOk s → mainOk s → step ev s = Some s' → shutOk s'.
Proof.
  intros HS HK HM Hst. step_cases s Hst; unfold shutOk, ctxDone, keeperOk, mainOk in *; known s; try done; intros Hd;
    rewrite ?orb_true_r; try (by apply HS); try done.
  - apply HK.
  - destruct HM as (_ & -> & _). apply orb_true_r.
Qed.

(** What the main goroutine relies on is kept by the others. *)
Lemma mainOk_kept s s' :
  mainOk s → main s' = main s → received s' = received s → (signal s = true → signal s' = true) → cancelled s' = cancelled s →
  (waiter s = WNone ↔ waiter s' = WNone) → (wg s = 0 → wg s' = 0) →
  proxyCloseCalled s' = proxyCloseCalled s → adminCloseCalled s' = adminCloseCalled s → mainOk s'.
Proof.
  intros HM Em Er Es Ec Ew Ez Ep Ea. unfold mainOk, outcome, orderly in *. rewrite Em, Er, Ec, Ep, Ea.
  destruct (main s) as [| | | | | | | |[e|]|[e|]|[e|]]; tauto.
Qed.

Lemma step_main ev s s' : chanOk s → waitOk s → mainOk s → step ev s = Some s' → mainOk s'.
Proof.
  intros HC HW HM Hst. pose proof (step_wg ev s s' HC Hst) as Hz. step_cases s Hst;
    try (apply (mainOk_kept s); [done..|simpl; known s; intuition congruence|done|done|done]).
  all: unfold mainOk, outcome, orderly, waitOk in *; known s; try tauto; try (intuition congruence).
  destruct HM as (? & ? & _). split_and!; [done| |done]. left. destruct (waiter s); try congruence; by destruct HW.
Qed.

Lemma step_keeper ev s s' : keeperOk s → adminOk s → step ev s = Some s' → keeperOk s'.
Proof.
  intros HK HA Hst. step_cases s Hst; unfold keeperOk, adminOk, ctxDone in *; known s; try done; try tauto.
  all: rewrite ?orb_true_r; destruct (keeper s) eqn:?; try (destruct (admin s) as [[]|?|?|?]); simpl in *;
    intuition (simplify_eq/=; try congruence; auto).
  all: match goal with H : adminDone _ = [] |- _ => by rewrite H end.
Qed.

Lemma step_admin ev s s' : keeperOk s → adminOk s → step ev s = Some s' → adminOk s'.
Proof.
  intros HK HA Hst. step_cases s Hst; unfold keeperOk, adminOk in *; known s; try done; try tauto; try (intuition congruence).
  all: destruct (admin s) as [[]|?|?|?]; simpl in *; intuition congruence.
Qed.

Lemma reachable_inv s : reachable s → inv s.
Proof.
  induction 1 as [|ev s s' _ [B1 B2 B3 B4 B5 B6 B7 B8] Hst]; [apply daemon_started_inv|]. split.
  - by eapply step_panic.
  - by eapply step_chan.
  - by eapply step_wait.
  - by eapply step_main.
  - by eapply step_closes.
  - by eapply step_shut.
  - by eapply step_keeper.
  - by eapply step_admin.
Qed.

Lemma steps_reachable evs s s' : reachable s → steps evs s = Some s' → reachable s'.
Proof.
  revert s. induction evs as [|ev evs IH]; intros s Hs He; simpl in He; [by simplify_eq|].
  destruct (step ev s) as [s1|] eqn:E; [|done]. eapply IH; [|exact He]. by eapply reach_step.
Qed.

(** Both servers are done when the counter is zero. *)
Lemma wg_zero s : chanOk s → wg s = 0 → (∃ ra, admin s = Ended ra) ∧ (∃ rp, proxy s = Ended rp).
Proof.
  intros [A1 _ _ _] Hw. rewrite Hw in A1. destruct (admin s), (proxy s); simpl in A1; try lia. eauto.
Qed.

(** ** Progress *)

(** The events the environment alone decides on: a signal, the end of the proxy's Start,
    a failure of Serve, the timer. *)
Definition internal (ev : event) : Prop :=
  match ev with ESignal | EProxyReturns _ | AServed (ServeFailed _) | ETimeout => False | _ => True end.

(** Nothing is left to do but wait for the environment. *)
Definition quiet (s : Daemon) : Prop := ∀ ev, internal ev → step ev s = None.

Definition rankMain (m : mainAt) : nat :=
  match m with
  | MSelect => 10 | MFailCancel _ => 9 | MCancel => 8 | MSpawn => 7 | MShutdown => 6 | MCloseProxy => 5 | MCloseAdmin => 4
  | MFailWait _ => 3 | MDeferCancel _ => 2 | MDeferClose _ => 1 | MReturned _ => 0
  end.
Definition rankAdmin (a : serverAt adminPhase) : nat :=
  match a with Busy ACreate => 6 | Busy AListen => 5 | Busy AServe => 4 | Busy AAwait => 3 | Returned _ => 2 | Sent _ => 1 | Ended _ => 0 end.
Definition rankProxy (a : serverAt unit) : nat := match a with Busy _ => 3 | Returned _ => 2 | Sent _ => 1 | Ended _ => 0 end.
Definition rankKeeper (k : keeperAt) : nat := match k with KNone => 4 | KWait => 3 | KCall => 2 | KShutdown => 1 | KEnded => 0 end.
Definition rankWaiter (w : waiterAt) : nat := match w with WNone => 0 | WWait => 3 | WClose => 2 | WDone => 1 end.

(** How many steps are left at most. *)
Definition remaining (s : Daemon) : nat :=
  4 * rankMain (main s) + rankAdmin (admin s) + rankProxy (proxy s) + rankKeeper (keeper s) + rankWaiter (waiter s).

Lemma step_remaining ev s s' : inv s → step ev s = Some s' → ev ≠ ESignal → (remaining s' < remaining s)%nat.
Proof.
  intros HI Hst Hne. pose proof (v_admin s HI) as HA. clear HI.
  unfold remaining. step_cases s Hst; unfold adminOk in *; known s; try done; try lia.
  destruct HA as [_ ->]. simpl. lia.
Qed.

(** A result can be sent as long as one is owed. *)
Lemma send_room s : chanOk s → (sentCount (admin s) + sentCount (proxy s) < 2)%nat → (length (errCh s) <? 2)%nat = true.
Proof. intros [_ A2 _ _] Hc. apply Nat.ltb_lt. lia. Qed.

(** Once its context is done, the admin server waits for nothing but the system. *)
Lemma quiet_admin s : inv s → quiet s →
  (∃ r, admin s = Ended r) ∨ (admin s = Busy AServe ∧ ctxDone s = false ∧ keeper s = KWait).
Proof.
  intros HI HQ. destruct HI as [_ HC _ _ _ HS HK HA]. unfold adminOk, keeperOk, shutOk in *.
  destruct (admin s) as [[]|r|r|r] eqn:Ea.
  - pose proof (HQ ACreated I) as Hq. unfold step, stepAdmin in Hq. by rewrite Ea in Hq.
  - pose proof (HQ (AListened None) I) as Hq. unfold step, stepAdmin in Hq. by rewrite Ea in Hq.
  - pose proof (HQ (AServed ServeClosed) I) as H1. pose proof (HQ EKeeperWakes I) as H2. pose proof (HQ EKeeperCalls I) as H3.
    pose proof (HQ (EKeeperDone None) I) as H4. unfold step, stepAdmin, stepKeeper in *. rewrite Ea in H1.
    destruct (shuttingDown s) eqn:Es; [done|]. destruct (keeper s) eqn:Ek; try done; [tauto|..].
    + right. by destruct (ctxDone s).
    + by destruct HK.
    + by destruct HK.
  - pose proof (HQ AAwaited I) as H1. pose proof (HQ EKeeperWakes I) as H2. pose proof (HQ EKeeperCalls I) as H3.
    pose proof (HQ (EKeeperDone None) I) as H4. destruct HA as (_ & Hk & Hd). specialize (HS Hd).
    unfold step, stepAdmin, stepKeeper in *. rewrite Ea in H1. destruct (keeper s) eqn:Ek; [done|..].
    + by rewrite HS in H2.
    + done.
    + destruct HK as [HK _]. by rewrite HK in H4.
    + destruct HK as [_ HK]. by destruct (adminDone s).
  - pose proof (HQ EAdminSend I) as Hq. unfold step, stepAdmin, sendErr in Hq. rewrite Ea in Hq.
    rewrite send_room in Hq; [done|done|]. rewrite Ea. simpl. destruct (proxy s); simpl; lia.
  - pose proof (HQ EAdminDone I) as Hq. unfold step, stepAdmin in Hq. by rewrite Ea in Hq.
  - left. by eexists.
Qed.

Lemma quiet_proxy s : inv s → quiet s → proxy s = Busy () ∨ ∃ r, proxy s = Ended r.
Proof.
  intros HI HQ. destruct HI as [_ HC _ _ _ _ _ _]. destruct (proxy s) as [[]|r|r|r] eqn:Ep; [auto| | |eauto].
  - pose proof (HQ EProxySend I) as Hq. unfold step, stepProxy, sendErr in Hq. rewrite Ep in Hq.
    rewrite send_room in Hq; [done|done|]. rewrite Ep. simpl. destruct (admin s); simpl; lia.
  - pose proof (HQ EProxyDone I) as Hq. unfold step, stepProxy in Hq. by rewrite Ep in Hq.
Qed.

(** With both servers done, the counter is zero and a result has been sent. *)
Lemma both_ended s ra rp : chanOk s → admin s = Ended ra → proxy s = Ended rp →
  wg s = 0 ∧ (main s = MSelect → errCh s ≠ []).
Proof.
  intros [A1 A2 _ A4] Ea Ep. rewrite Ea, Ep in *. simpl in *. split; [lia|]. intros Hm Hn.
  rewrite (A4 Hm), Hn in A2. done.
Qed.

Lemma quiet_main s : inv s → quiet s →
  (∃ r, main s = MReturned r) ∨
  (main s = MSelect ∧ signal s = false ∧ errCh s = []) ∨ (wg s ≠ 0 ∧ ctxDone s = true).
Proof.
  intros HI HQ. destruct HI as [_ HC HW HM _ _ _ _]. unfold mainOk, waitOk in *.
  destruct (main s) eqn:Em; try (eauto; fail).
  - right. left. pose proof (HQ ESelectSignal I) as H1. pose proof (HQ ESelectErr I) as H2.
    unfold step, stepMain in *. rewrite Em in *. destruct (signal s); [done|]. by destruct (errCh s).
  - pose proof (HQ EFailCancel I) as H1. unfold step, stepMain in *. by rewrite Em in *.
  - right. right. pose proof (HQ EFailWait I) as H1. unfold step, stepMain in *. rewrite Em in *.
    destruct (Z.eqb_spec (wg s) 0); [done|]. split; [done|]. destruct HM as [_ HM]. unfold ctxDone. rewrite HM. apply orb_true_r.
  - pose proof (HQ ECancel I) as H1. unfold step, stepMain in *. by rewrite Em in *.
  - pose proof (HQ ESpawn I) as H1. unfold step, stepMain in *. by rewrite Em in *.
  - right. right. destruct HM as (_ & Hc & Hw). pose proof (HQ ESelectDone I) as H1. pose proof (HQ EWaiterWait I) as H2.
    pose proof (HQ EWaiterClose I) as H3. unfold step, stepMain, stepWaiter in *. rewrite Em in H1.
    unfold ctxDone. rewrite Hc, orb_true_r. split; [|done]. destruct (waiter s) eqn:Ew; try done.
    + by destruct (Z.eqb_spec (wg s) 0).
    + destruct HW as [HW _]. by rewrite HW in H1.
  - pose proof (HQ ECloseProxy I) as H1. unfold step, stepMain in *. by rewrite Em in *.
  - pose proof (HQ ECloseAdmin I) as H1. unfold step, stepMain in *. by rewrite Em in *.
  - pose proof (HQ EDeferCancel I) as H1. unfold step, stepMain in *. by rewrite Em in *.
  - pose proof (HQ EDeferClose I) as H1. unfold step, stepMain in *. by rewrite Em in *.
Qed.

End daemonprops.

Import daemon daemonprops.

(** C16. Every way the daemon can end is a clean one. In every state it can reach, with
    whatever the servers and the system answer and in every order: no goroutine
    panics (the wait group never goes negative, no channel is closed twice); the
    service is closed exactly when [run] returns, and once; the servers' context is
    cancelled by then. An error is returned only after both servers have ended, and
    one of them ended with it. Without an error a signal came or a server ended
    without an error, and either both have ended or, at the timeout, both were told
    to close. *)
Theorem daemon_ends_cleanly s :
  reachable s →
  panicked s = false ∧
  svcCloses s = (match main s with MReturned _ => 1 | _ => 0 end)%nat ∧
  ∀ r, main s = MReturned r →
    cancelled s = true ∧
    match r with
    | Some e => ∃ ra rp, admin s = Ended ra ∧ proxy s = Ended rp ∧ (ra = Some e ∨ rp = Some e)
    | None =>
        (signal s = true ∨ resultOf (admin s) = Some None ∨ resultOf (proxy s) = Some None) ∧
        ((∃ ra rp, admin s = Ended ra ∧ proxy s = Ended rp) ∨ (proxyCloseCalled s = true ∧ adminCloseCalled s = true))
    end.
Proof.
  intros Hr. destruct (reachable_inv s Hr) as [B1 B2 B3 B4 B5 _ _ _]. split_and!; [done|done|]. intros r Em.
  unfold mainOk in B4. rewrite Em in B4. destruct B4 as [Ho Hc]. split; [done|]. unfold outcome, orderly in Ho.
  destruct r as [e|].
  - destruct Ho as [Hrec Hw]. destruct (wg_zero s B2 Hw) as [[ra Ea] [rp Ep]]. exists ra, rp. split_and!; [done..|].
    destruct (v_results s B2 (Some e)) as [H1|H1]; [by right|left|right]; rewrite ?Ea, ?Ep in H1; by injection H1.
  - destruct Ho as [Ho Hw]. split.
    + destruct Ho as [[Ho _]|Ho]; [by left|right]. apply (v_results s B2). by right.
    + destruct Hw as [Hw|Hw]; [left|by right]. destruct (wg_zero s B2 Hw) as [[ra Ea] [rp Ep]]. eauto.
Qed.

(** C17. The daemon never hangs: as long as [run] has not returned, some goroutine can go
    on, unless both servers are serving and no signal has come, or the servers' context
    is done, the admin server has ended, and only the proxy's Start has yet to return.
    And it cannot go on for ever: every step but another signal brings the end nearer. *)
Theorem daemon_never_hangs s :
  reachable s →
  (quiet s →
     (∃ r, main s = MReturned r) ∨
     (main s = MSelect ∧ signal s = false ∧ admin s = Busy AServe ∧ proxy s = Busy ()) ∨
     (ctxDone s = true ∧ (∃ r, admin s = Ended r) ∧ proxy s = Busy ())) ∧
  (∀ ev s', step ev s = Some s' → ev ≠ ESignal → (remaining s' < remaining s)%nat).
Proof.
  intros Hr. pose proof (reachable_inv s Hr) as HI. split; [|intros ev s' Hst Hne; by eapply step_remaining].
  intros HQ. destruct (quiet_main s HI HQ) as [?|[(Hm & Hs & He)|[Hw Hc]]]; [by left|..].
  - pose proof (v_chan s HI) as [_ A2 _ A4]. rewrite He, (A4 Hm) in A2. simpl in A2. right.
    destruct (quiet_admin s HI HQ) as [[ra Ea]|(Ea & _ & _)]; [by rewrite Ea in A2|].
    destruct (quiet_proxy s HI HQ) as [Ep|[rp Ep]]; [|rewrite Ep, Ea in A2; done]. by left.
  - right. right. destruct (quiet_admin s HI HQ) as [[ra Ea]|(_ & Hd & _)]; [|congruence].
    destruct (quiet_proxy s HI HQ) as [Ep|[rp Ep]]; [eauto|]. by destruct (both_ended s ra rp (v_chan s HI) Ea Ep).
Qed.

(** The admin server cannot listen; and an orderly shutdown after a signal. *)
Definition failing_run : list event :=
  [ACreated; AListened (Some (Other "address in use")); EAdminSend; ESelectErr; EFailCancel; EProxyReturns None; EProxySend;
   EAdminDone; EProxyDone; EFailWait; EDeferCancel; EDeferClose].
Definition orderly_run : list event :=
  [ACreated; AListened None; ESignal; ESelectSignal; EKeeperWakes; ECancel; EKeeperCalls; AServed ServeClosed; ESpawn].
Notation afterwards evs := (default started (steps evs started)).

Lemma daemon_ends_cleanly_witness :
  main (afterwards failing_run) = MReturned (Some (Other "address in use")) ∧ svcCloses (afterwards failing_run) = 1%nat.
Proof.
  destruct (daemon_ends_cleanly (afterwards failing_run)) as (_ & Hc & _).
  { eapply (steps_reachable failing_run); [apply reach_start|]. vm_compute. reflexivity. }
  split; [vm_compute; reflexivity|]. rewrite Hc. vm_compute. reflexivity.
Defined.

Lemma daemon_never_hangs_witness :
  (remaining (default started (step (EKeeperDone None) (afterwards orderly_run))) < remaining (afterwards orderly_run))%nat.
Proof.
  destruct (daemon_never_hangs (afterwards orderly_run)) as [_ Hd].
  { eapply (steps_reachable orderly_run); [apply reach_start|]. vm_compute. reflexivity. }
  apply (Hd (EKeeperDone None)); [vm_compute; reflexivity|discriminate].
Defined.
