(* ===== verification/WorkloadSetup.v ===== *)
(** * Setting up a benchmark: seeding, clients, warming

    Models seedWorkloadKeys, newWorkloadClients, closeWorkloadClients, runRedisWorkload
    and warmSlizenKey of src/cmd/slizenctl/benchmark.go. Seeding sets the keys in
    pipelines of bounded size, each with the payload of version 0; its result lists the
    pipelines that were executed, in order, with the error of the last one if it
    failed, and [None] is a panic. What pings, closing and requests answer is the
    environment's. *)
From stdpp Require Import prelude strings list.
From Stdlib Require Import ZArith Lia.
From S2P Require Import Prelude GoStd Workload WorkloadProps Benchmark BenchmarkRun.
Local Open Scope Z_scope.

Module setup.
Import workload workloadprops.

Definition seedPipelineBytes : Z := 4194304.

Definition batchSize (size : Z) : Z :=
  let b := Z.quot seedPipelineBytes size in
  let b := if b <? 1 then 1 else b in
  if 1000 <? b then 1000 else b.

Definition pipeline := list (string * Prelude.bytes).

Section seed.
Context `{Sha256} (keys : list string) (values : workloadValues).

(** [pipe.Set(ctx, keys[index], values.Fill(index, 0, nil), 0)] *)
Definition seedCommand (index : nat) : option (string * Prelude.bytes) :=
  key ← keys !! index; value ← filled values index 0 []; Some (key, value).

(** The commands for [n] indices from [start] on. *)
Fixpoint fillPipeline (start n : nat) : option pipeline :=
  match n with
  | O => Some []
  | S n' => c ← seedCommand start; p ← fillPipeline (S start) n'; Some (c :: p)
  end.

(** [exec] answers the pipeline that begins at an index. Every round moves on by at
    least one key, so the number of keys bounds the rounds. *)
Fixpoint seedLoop (fuel : nat) (exec : nat → option string) (batch start : nat) : option (list pipeline * option string) :=
  match fuel with
  | O => Some ([], None)
  | S fuel' =>
      if (length keys <=? start)%nat then Some ([], None)
      else
        let stop := Nat.min (start + batch) (length keys) in
        p ← fillPipeline start (stop - start);
        match exec start with
        | Some e => Some ([p], Some e)
        | None => '(ps, err) ← seedLoop fuel' exec batch (start + batch); Some (p :: ps, err)
        end
  end.

Definition seedWorkloadKeys (exec : nat → option string) : option (list pipeline * option string) :=
  if size values =? 0 then None
  else seedLoop (S (length keys)) exec (Z.to_nat (batchSize (size values))) 0.

End seed.

(** ** Clients *)

(** [errors.Join] *)
Definition joinErrors (errs : list (option string)) : option string :=
  match omap id errs with
  | [] => None
  | es => Some (String.concat (String benchmark.newline EmptyString) es)
  end.

(** An error of the [i]-th client, with its number. *)
Definition numbered (text : string) (answer : nat → option string) (i : nat) : option string :=
  (λ e, (text ++ gostd.Itoa (Z.of_nat (S i)) ++ ": " ++ e)%string) <$> answer i.

Definition closeWorkloadClients (close : nat → option string) (count : nat) : option string :=
  joinErrors (numbered "close workload connection " close <$> seq 0 count).

(** The number of open clients; on an error all are closed again. *)
Definition newWorkloadClients (count : Z) (ping close : nat → option string) : res string nat :=
  if (count <? 1) || (maxWorkloadConcurrency <? count)
  then Fail ("workload client count must be between 1 and " ++ gostd.Itoa maxWorkloadConcurrency)%string
  else match joinErrors (numbered "initialize workload connection " ping <$> seq 0 (Z.to_nat count)) with
       | None => Ok (Z.to_nat count)
       | Some e => Fail (benchmarkrun.joined e (closeWorkloadClients close (Z.to_nat count)))
       end.

Definition runRedisWorkload {A} (count : Z) (ping close : nat → option string) (run : nat → res string A) : res string A :=
  clients ← newWorkloadClients count ping close;
  benchmarkrun.joinClose (run clients) (closeWorkloadClients close clients).

(** ** Warming *)

(** A round of the loop: the clock, the GETs of the round, the status. *)
Record warmRound := mkRound {
  wrNow : Time;
  wrGets : nat → option string;
  wrStatus : res string benchmark.statusSnapshot
}.

(** The error of the loop, none when the cache is warm; [None] is a loop that goes on
    after the rounds given. *)
Fixpoint warmLoop (deadline : Time) (gets : nat) (rounds : list warmRound) : option (option string) :=
  match rounds with
  | [] => None
  | r :: rounds' =>
      if negb (wrNow r <? deadline)
      then Some (Some "warmup ended before Slizen reported a local hot cache entry"%string)
      else match head (omap (wrGets r) (seq 0 gets)) with
      | Some e => Some (Some ("warmup GET failed: " ++ e)%string)
      | None =>
          match wrStatus r with
          | Ok st => if (0 <? benchmark.StCacheEntries st) && (0 <? benchmark.StHotKeys st) then Some None
                     else warmLoop deadline gets rounds'
          | Fail _ => warmLoop deadline gets rounds'
          end
      end
  end.

Definition warmSlizenKey (concurrency : Z) (warmup : Duration) (start : Time) (rounds : list warmRound) : option (option string) :=
  if warmup =? 0 then Some (Some "warmup skipped; hot cache state was not verified"%string)
  else warmLoop (t_add start warmup) (Z.to_nat (Z.max concurrency 1)) rounds.

(** ** The pipelines *)

Lemma batchSize_range n : minWorkloadValueBytes <= n → 1 <= batchSize n <= 1000 ∧ (batchSize n = 1 ∨ batchSize n * n <= seedPipelineBytes).
Proof.
  intros Hn. unfold minWorkloadValueBytes in Hn. unfold batchSize, seedPipelineBytes. cbv zeta.
  rewrite Z.quot_div_nonneg by lia. pose proof (Z.mul_div_le 4194304 n ltac:(lia)) as Hd.
  destruct (Z.ltb_spec (4194304 / n) 1); [cbn; lia|]. destruct (Z.ltb_spec 1000 (4194304 / n)); split; try lia; right; nia.
Qed.

Section pipelines.
Context `{Sha256} (keys : list string) (values : workloadValues).

(** All commands, in the order of the keys. *)
Context (all : pipeline).
Hypothesis all_length : length all = length keys.
Hypothesis all_commands : ∀ i c, all !! i = Some c → seedCommand keys values i = Some c.

Lemma fillPipeline_take n start :
  (start + n <= length keys)%nat → fillPipeline keys values start n = Some (take n (drop start all)).
Proof.
  revert start. induction n as [|n IH]; intros start Hn; [done|]. cbn [fillPipeline].
  destruct (lookup_lt_is_Some_2 all start) as [c Hc]; [lia|].
  rewrite (all_commands _ _ Hc). simpl. rewrite IH by lia. simpl. by rewrite (drop_S all c start Hc).
Qed.

Lemma seedLoop_spec exec batch fuel start :
  (1 <= batch)%nat → (length keys < start + fuel)%nat →
  ∃ ps err, seedLoop keys values fuel exec batch start = Some (ps, err) ∧
    (∃ rest, drop start all = concat ps ++ rest ∧ (err = None → rest = [])) ∧
    Forall (λ p, p ≠ [] ∧ (length p <= batch)%nat ∧ ∀ c, c ∈ p → c ∈ all) ps.
Proof.
  intros Hb. revert start. induction fuel as [|fuel IH]; intros start Hf; cbn [seedLoop].
  { exists [], None. split; [done|]. split; [|done]. exists (drop start all). split; [done|]. intros _. apply drop_ge. lia. }
  destruct (Nat.leb_spec (length keys) start) as [Hge|Hlt].
  { exists [], None. split; [done|]. split; [|done]. exists []. split; [|done]. apply drop_ge. lia. }
  cbv zeta. set (n := (Nat.min (start + batch) (length keys) - start)%nat).
  rewrite fillPipeline_take by lia. simpl. set (p := take n (drop start all)).
  assert (Hp : p ≠ [] ∧ (length p <= batch)%nat ∧ ∀ c, c ∈ p → c ∈ all).
  { split_and!.
    - intros E. apply (f_equal length) in E. unfold p in E. rewrite length_take, length_drop in E. simpl in E. lia.
    - unfold p. rewrite length_take. lia.
    - intros c Hc. by eapply subseteq_drop, subseteq_take. }
  destruct (exec start) as [e|].
  { exists [p], (Some e). split; [done|]. split; [|by apply Forall_singleton].
    exists (drop n (drop start all)). simpl. rewrite app_nil_r. split; [|done]. symmetry. apply take_drop. }
  destruct (IH (start + batch)%nat) as (ps & err & -> & (rest & Hd & He) & Hps); [lia|].
  exists (p :: ps), err. split; [done|]. split; [|by constructor]. exists rest. split; [|done]. simpl. rewrite <-app_assoc, <-Hd.
  unfold p. destruct (decide (start + batch <= length keys)%nat).
  - replace n with batch by lia. rewrite <-drop_drop. symmetry. apply take_drop.
  - rewrite (drop_ge all (start + batch)) by lia. rewrite app_nil_r, take_ge; [done|]. rewrite length_drop. lia.
Qed.

End pipelines.

(** ** Clients and warming *)

Lemma joinErrors_None errs : joinErrors errs = None ↔ ∀ e, e ∈ errs → e = None.
Proof.
  unfold joinErrors. induction errs as [|[e|] errs IH]; simpl.
  - split; [by intros _ e ?%elem_of_nil|done].
  - split; [done|]. intros Hn. specialize (Hn (Some e) ltac:(left)). done.
  - rewrite IH. setoid_rewrite elem_of_cons. split; [intros Hn e [->|He]; auto|auto].
Qed.

(** A phase is reported only if every client answered its ping and closed without an
    error. *)
Lemma runRedisWorkload_ok {A} count ping close (run : nat → res string A) a :
  runRedisWorkload count ping close run = Ok a →
  1 <= count <= maxWorkloadConcurrency ∧ run (Z.to_nat count) = Ok a ∧
  ∀ i, (i < Z.to_nat count)%nat → ping i = None ∧ close i = None.
Proof.
  unfold runRedisWorkload, newWorkloadClients. intros Hr.
  destruct ((count <? 1) || (maxWorkloadConcurrency <? count)) eqn:E; [done|].
  apply orb_false_iff in E as [E1%Z.ltb_ge E2%Z.ltb_ge].
  destruct (joinErrors _) eqn:Ep in Hr; [done|]. simpl in Hr.
  destruct (run (Z.to_nat count)) as [x|] eqn:Er; [|done]. simpl in Hr.
  destruct (closeWorkloadClients close (Z.to_nat count)) eqn:Ec; [done|]. injection Hr as ->.
  split; [lia|]. split; [done|]. intros i Hi. unfold closeWorkloadClients in Ec.
  rewrite joinErrors_None in Ep, Ec.
  assert (Hin : i ∈ seq 0 (Z.to_nat count)) by (apply elem_of_seq; lia).
  split.
  - specialize (Ep _ (list_elem_of_fmap_2 _ _ _ Hin)). unfold numbered in Ep. by destruct (ping i).
  - specialize (Ec _ (list_elem_of_fmap_2 _ _ _ Hin)). unfold numbered in Ec. by destruct (close i).
Qed.

(** Warming succeeds only on a status that reports a cached entry and a hot key, read
    before the deadline. *)
Lemma warmLoop_ok deadline gets rounds :
  warmLoop deadline gets rounds = Some None →
  ∃ r st, r ∈ rounds ∧ wrNow r < deadline ∧ wrStatus r = Ok st ∧ 0 < benchmark.StCacheEntries st ∧ 0 < benchmark.StHotKeys st.
Proof.
  induction rounds as [|r rounds IH]; simpl; [done|]. destruct (Z.ltb_spec (wrNow r) deadline) as [Hn|]; simpl; [|done].
  destruct (head _); [done|]. destruct (wrStatus r) as [st|] eqn:Es.
  - destruct (_ && _) eqn:E.
    + intros _. apply andb_true_iff in E as [E1%Z.ltb_lt E2%Z.ltb_lt]. exists r, st. split_and!; [left|done..].
    + intros Hw. destruct (IH Hw) as (r' & st' & Hin & Hrest). exists r', st'. split; [by right|done].
  - intros Hw. destruct (IH Hw) as (r' & st' & Hin & Hrest). exists r', st'. split; [by right|done].
Qed.

End setup.

Import workload workloadprops setup.

(** Seeding a workload sets every key of the data set once, in order, to the payload
    of its key at version 0, which is what the workers expect to read first; when a
    pipeline fails, the pipelines executed are an initial part of that. No pipeline is
    empty, longer than 1000 commands or, with more than one command, larger than 4 MiB
    of payload. *)
Theorem seeding_exact `{Sha256} keys n exec :
  minWorkloadValueBytes <= n →
  let values := newWorkloadValues keys n in
  ∃ ps err, seedWorkloadKeys keys values exec = Some (ps, err) ∧
    (∀ i c, concat ps !! i = Some c → keys !! i = Some c.1 ∧ filled values i 0 [] = Some c.2) ∧
    (length (concat ps) <= length keys)%nat ∧ (err = None → length (concat ps) = length keys) ∧
    Forall (λ p, p ≠ [] ∧ (length p <= 1000)%nat ∧
      (length p = 1%nat ∨ sumZ (λ c, blen c.2) p <= seedPipelineBytes)) ps.
Proof.
  intros Hn values. assert (Hwf : wfValues values) by (by apply newWorkloadValues_wf).
  destruct (batchSize_range n Hn) as [Hb1 Hb2].
  assert (Hdl : length (digests values) = length keys) by (unfold values; simpl; by rewrite length_map).
  assert (Hc : ∀ i, (i < length keys)%nat → ∃ c, seedCommand keys values i = Some c ∧ blen c.2 = n).
  { intros i Hi. destruct (lookup_lt_is_Some_2 keys i Hi) as [key Hk].
    destruct (lookup_lt_is_Some_2 (digests values) i ltac:(lia)) as [d Hd].
    destruct (versionDigest_some values i d 0 Hd) as (digest & Hg & _).
    destruct (filled_lookup values i 0 [] d digest Hwf Hd Hg) as (value & Hf & Hl & _). exists (key, value).
    unfold seedCommand. rewrite Hk, Hf. split; [done|]. unfold blen. simpl in *. unfold minWorkloadValueBytes in Hn. lia. }
  set (all := (λ i, default (EmptyString, []) (seedCommand keys values i)) <$> seq 0 (length keys)).
  assert (Hal : length all = length keys) by (unfold all; by rewrite length_fmap, length_seq).
  assert (Hac : ∀ i c, all !! i = Some c → seedCommand keys values i = Some c ∧ blen c.2 = n).
  { intros i c Hi. unfold all in Hi. rewrite list_lookup_fmap in Hi.
    destruct (seq 0 (length keys) !! i) as [j|] eqn:Ej; [|done]. apply lookup_seq in Ej as [-> Hlt]. simpl in *.
    destruct (Hc i Hlt) as (c' & Hc' & Hn'). rewrite Hc' in Hi. simpl in Hi. injection Hi as <-. done. }
  destruct (seedLoop_spec keys values all Hal (λ i c Hi, proj1 (Hac i c Hi)) exec (Z.to_nat (batchSize n)) (S (length keys)) 0)
    as (ps & err & Hs & (rest & Hd & He) & Hps); [lia|lia|].
  rewrite drop_0 in Hd. exists ps, err. unfold seedWorkloadKeys. simpl size.
  destruct (Z.eqb_spec n 0); [unfold minWorkloadValueBytes in Hn; lia|]. split_and!; [done| | | |].
  - intros i c Hi. assert (Hi' : all !! i = Some c) by (rewrite Hd; by apply lookup_app_l_Some).
    destruct (Hac i c Hi') as [Hsc _]. unfold seedCommand in Hsc.
    destruct (keys !! i); [|done]. simpl in Hsc. destruct (filled values i 0 []); [|done]. simpl in Hsc. by injection Hsc as <-.
  - rewrite <-Hal, Hd, length_app. lia.
  - intros E. rewrite <-Hal, Hd, (He E), app_nil_r. done.
  - eapply Forall_impl; [exact Hps|]. cbv beta. intros p (P1 & P2 & P3). split_and!; [done|etrans; [exact P2|]; clear -Hb1; lia|].
    assert (Hsum : sumZ (λ c, blen c.2) p = Z.of_nat (length p) * n).
    { clear -P3 Hac. induction p as [|c p IH]; [done|]. cbn [sumZ length]. rewrite IH by (intros c' Hc'; apply P3; by right).
      assert (Hin : c ∈ all) by (apply P3; left). apply list_elem_of_lookup in Hin as [i Hi]. destruct (Hac i c Hi) as [_ ->]. lia. }
    assert (Hlb : Z.of_nat (length p) <= batchSize n) by (clear -P2 Hb1; lia).
    rewrite Hsum. destruct Hb2 as [Hb2|Hb2]; [left|right; clear -Hb2 Hlb Hn; unfold minWorkloadValueBytes in Hn; nia]. destruct p; [done|]. cbn [length] in *. clear -Hlb Hb2. lia.
Qed.

(** A stand-in for the digest, and three keys. *)
Definition seedDigest (b : Prelude.bytes) : Prelude.bytes := take 32 (b ++ replicate 32 Byte.x00).

Lemma seedDigest_size b : length (seedDigest b) = 32%nat.
Proof. unfold seedDigest. rewrite length_take, length_app, length_replicate. lia. Qed.

Lemma seeding_exact_witness :
  let sha := {| Sum256 := seedDigest; Sum256_size := seedDigest_size |} in
  ∃ ps, seedWorkloadKeys (H := sha) ["a"; "b"; "c"]%string (newWorkloadValues (H := sha) ["a"; "b"; "c"]%string 16) (λ _, None) = Some (ps, None)
    ∧ length (concat ps) = 3%nat.
Proof.
  intros sha. destruct (seeding_exact (H := sha) ["a"; "b"; "c"]%string 16 (λ _, None)) as (ps & err & Hs & _ & _ & He & _); [done|].
  exists ps. assert (err = None) as ->.
  { cbv zeta in Hs. vm_compute in Hs. by injection Hs. }
  split; [exact Hs|]. by apply He.
Defined.
