(* ===== verification/MetricsRegistry.v ===== *)
(** * internal/metrics: the registry

    What [New] declares and registers with the Prometheus client, and what that
    client accepts: a call names a registered metric of a kind that has the
    operation, with one label value, valid UTF-8, per declared label, and a counter
    never decreases; [WithLabelValues] and [Add] panic on anything else. The label
    values that the recorder can produce are finitely many, whatever clients send.

    [recorded] is the invariant of a recorder: every call it made was accepted, in a
    series of the fixed list [allSeries], and the counters that the admin API reports
    are the ones that Prometheus was given. Every method preserves it. *)
From stdpp Require Import prelude gmap strings list.
From Stdlib Require Import ZArith Lia.
From S2P Require Import Prelude GoStd GoJSON Metrics.
Local Open Scope Z_scope.

Module registry.
Import gostd metrics.

Inductive kind := Counter | Gauge | Histogram.
#[global] Instance kind_eq_dec : EqDecision kind.
Proof. solve_decision. Defined.

Record desc := mkDesc { dName : string; dKind : kind; dLabels : list string }.

Local Open Scope string_scope.

(** The metrics of [New], in the order of [MustRegister]. The Go and process
    collectors of the client library come before them. *)
Definition registered : list desc :=
  [mkDesc "slizen_requests_total" Counter ["command"; "result"];
   mkDesc "slizen_request_duration_seconds" Histogram ["command"; "result"];
   mkDesc "slizen_cache_hits_total" Counter ["command"];
   mkDesc "slizen_cache_misses_total" Counter ["command"];
   mkDesc "slizen_cache_miss_reasons_total" Counter ["reason"];
   mkDesc "slizen_cache_entries" Gauge [];
   mkDesc "slizen_cache_bytes" Gauge [];
   mkDesc "slizen_cache_max_entries" Gauge [];
   mkDesc "slizen_cache_max_bytes" Gauge [];
   mkDesc "slizen_cache_evictions_total" Counter [];
   mkDesc "slizen_active_connections" Gauge [];
   mkDesc "slizen_upstream_requests_total" Counter ["command"];
   mkDesc "slizen_upstream_errors_total" Counter ["command"];
   mkDesc "slizen_upstream_duration_seconds" Histogram ["command"; "result"];
   mkDesc "slizen_hot_keys" Gauge [];
   mkDesc "slizen_promotions_total" Counter [];
   mkDesc "slizen_demotions_total" Counter [];
   mkDesc "slizen_invalidations_total" Counter ["reason"];
   mkDesc "slizen_coalesced_requests_total" Counter [];
   mkDesc "slizen_hotness_capacity_observations_dropped_total" Counter [];
   mkDesc "slizen_hotness_oversized_observations_dropped_total" Counter []].

Definition series (c : PromCall) : string * list string :=
  match c with
  | PInc n l | PObserve n l _ => (n, l)
  | PDec n | PAdd n _ | PSet n _ => (n, [])
  end.

(** The operations that the type of a metric has. *)
Definition hasOperation (k : kind) (c : PromCall) : bool :=
  match c, k with
  | PInc _ _, (Counter | Gauge) | PDec _, Gauge | PSet _ _, Gauge | PObserve _ _ _, Histogram => true
  | PAdd _ v, Counter => (0 <=? v)%Z
  | PAdd _ _, Gauge => true
  | _, _ => false
  end.

Definition describe (name : string) : option desc :=
  List.find (λ d, bool_decide (dName d = name)) registered.

(** The call does not panic. *)
Definition accepts (c : PromCall) : bool :=
  match describe (series c).1 with
  | None => false
  | Some d => hasOperation (dKind d) c && (length (series c).2 =? length (dLabels d))%nat
              && forallb gojson.ValidString (series c).2
  end.

(** ** The label values *)

Definition commandLabels : list string := knownCommands ++ ["unsafe"; "invalid"; "unsupported"].
Definition resultLabels : list string := ["ok"; "error"].
Definition missReasonLabels : list string := ["unclassified"; "policy_bypass"; "not_admitted"; "not_present"].
Definition invalidationLabels : list string := ["write"; "admin_purge"].

Definition labelDomain (metric label : string) : list string :=
  if bool_decide (label = "command") then commandLabels
  else if bool_decide (label = "result") then resultLabels
  else if bool_decide (metric = "slizen_cache_miss_reasons_total") then missReasonLabels
  else invalidationLabels.

Fixpoint tuples (l : list (list string)) : list (list string) :=
  match l with
  | [] => [[]]
  | vs :: l' => v ← vs; (v ::.) <$> tuples l'
  end.

Definition seriesOf (d : desc) : list (string * list string) :=
  pair (dName d) <$> tuples (labelDomain (dName d) <$> dLabels d).

(** Every series that the daemon can ever export. *)
Definition allSeries : list (string * list string) := registered ≫= seriesOf.

Definition callOK (c : PromCall) : bool := accepts c && bool_decide (series c ∈ allSeries).

(** ** The two views of the counters *)

(** The increments of a counter, over all its series or in one of them. *)
Fixpoint counted (p : list string → bool) (name : string) (l : list PromCall) : Z :=
  match l with
  | [] => 0
  | PInc n ls :: l' => (if (n =? name)%string && p ls then 1 else 0) + counted p name l'
  | _ :: l' => counted p name l'
  end%Z.

Fixpoint added (name : string) (l : list PromCall) : Z :=
  match l with
  | [] => 0
  | PAdd n v :: l' => (if (n =? name)%string then v else 0) + added name l'
  | _ :: l' => added name l'
  end%Z.

(** The value of a gauge. *)
Fixpoint gauge (name : string) (l : list PromCall) : Z :=
  match l with
  | [] => 0
  | PInc n _ :: l' => (if (n =? name)%string then 1 else 0) + gauge name l'
  | PDec n :: l' => (if (n =? name)%string then -1 else 0) + gauge name l'
  | PAdd n v :: l' => (if (n =? name)%string then v else 0) + gauge name l'
  | PSet n v :: l' => if (n =? name)%string then v else gauge name l'
  | PObserve _ _ _ :: l' => gauge name l'
  end%Z.

Definition activeConnections (r : Recorder) : Z := gauge "slizen_active_connections" (prom r).

Definition anyLabels (ls : list string) : bool := true.
Definition labelled (v : list string) (ls : list string) : bool := bool_decide (ls = v).

(** What Prometheus was given for a counter of the recorder. *)
Definition exported (c : counter) (l : list PromCall) : Z :=
  match c with
  | totalRequests => u64 (counted anyLabels "slizen_requests_total" l)
  | totalCacheHits => u64 (counted anyLabels "slizen_cache_hits_total" l)
  | totalCacheMisses => u64 (counted anyLabels "slizen_cache_misses_total" l)
  | totalCacheMissesByReason r =>
      if (0 <=? r)%Z && (r <? cacheMissReasonCount)%Z
      then u64 (counted (labelled [cacheMissReasonLabel r]) "slizen_cache_miss_reasons_total" l) else 0%Z
  | totalUpstreamReqs => u64 (counted anyLabels "slizen_upstream_requests_total" l)
  | totalUpstreamGets => u64 (counted (labelled ["GET"]) "slizen_upstream_requests_total" l)
  | totalUpstreamErrs => u64 (counted anyLabels "slizen_upstream_errors_total" l)
  | totalPromotions => u64 (counted anyLabels "slizen_promotions_total" l)
  | totalDemotions => u64 (counted anyLabels "slizen_demotions_total" l)
  | totalInvalidates => u64 (counted anyLabels "slizen_invalidations_total" l)
  | totalCoalesced => u64 (counted anyLabels "slizen_coalesced_requests_total" l)
  | evictionSeen => added "slizen_cache_evictions_total" l
  | hotnessCapacityDropSeen => added "slizen_hotness_capacity_observations_dropped_total" l
  | hotnessOversizedDropSeen => added "slizen_hotness_oversized_observations_dropped_total" l
  end.

Record recorded (r : Recorder) : Prop := {
  rec_calls : Forall (λ c, callOK c = true) (prom r);
  rec_views : ∀ c, load r c = exported c (prom r)
}.

Local Close Scope string_scope.

(** ** Labels *)

(** Membership in a list that is written out. *)
Ltac member := try match goal with |- _ ∈ ?l => is_const l; unfold l end; repeat first [left | right].

Lemma commandLabel_in c : commandLabel c ∈ commandLabels.
Proof.
  unfold commandLabel, commandLabels. case_decide; [by apply elem_of_app; left|].
  apply elem_of_app; right. repeat case_decide; member.
Qed.

Lemma normalize_range reason :
  0 <= reason → 0 <= normalizeCacheMissReason reason < cacheMissReasonCount.
Proof. unfold normalizeCacheMissReason, cacheMissReasonCount, CacheMissReasonUnclassified. case_if; ztests; lia. Qed.

Lemma reason_cases (P : Z → Prop) : P 0 → P 1 → P 2 → P 3 → ∀ r, 0 <= r < cacheMissReasonCount → P r.
Proof.
  unfold cacheMissReasonCount. intros P0 P1 P2 P3 r Hr.
  assert (r = 0 ∨ r = 1 ∨ r = 2 ∨ r = 3) as [->|[->|[->| ->]]] by lia; done.
Qed.

Lemma reasonLabel_in r : 0 <= r → cacheMissReasonLabel (normalizeCacheMissReason r) ∈ missReasonLabels.
Proof.
  intros Hr. apply normalize_range in Hr. revert Hr. generalize (normalizeCacheMissReason r).
  apply reason_cases; vm_compute; member.
Qed.

Lemma reasonLabel_inj r r' :
  0 <= r < cacheMissReasonCount → 0 <= r' < cacheMissReasonCount →
  cacheMissReasonLabel r = cacheMissReasonLabel r' → r = r'.
Proof.
  intros Hr. revert r Hr r'. apply (reason_cases (λ r, ∀ r', _ → _ → r = r'));
    apply (reason_cases (λ r', _ → _ = r')); vm_compute; congruence.
Qed.

(** A family of calls over finite domains of labels is checked by evaluation. *)
Lemma callOK_1 f (dom : list string) l : forallb (λ x, callOK (f x)) dom = true → l ∈ dom → callOK (f l) = true.
Proof. intros H Hl. rewrite forallb_forall in H. by apply H, list_elem_of_In. Qed.

Lemma callOK_2 f (dom dom' : list string) l l' :
  forallb (λ x, forallb (λ y, callOK (f x y)) dom') dom = true → l ∈ dom → l' ∈ dom' → callOK (f l l') = true.
Proof.
  intros H Hl Hl'. rewrite forallb_forall in H. apply list_elem_of_In, H in Hl. cbv beta in Hl.
  rewrite forallb_forall in Hl. by apply Hl, list_elem_of_In.
Qed.

Lemma requests_ok c res : res ∈ resultLabels →
  callOK (PInc "slizen_requests_total" [commandLabel c; res]) = true.
Proof.
  intros Hr. apply (callOK_2 (λ x y, PInc _ [x; y]) commandLabels resultLabels);
    [vm_compute; reflexivity|apply commandLabel_in|done].
Qed.

(** The duration of an observation does not matter. *)
Lemma callOK_observe n l d : callOK (PObserve n l d) = callOK (PObserve n l 0).
Proof. reflexivity. Qed.

Lemma latency_ok n c res d : n ∈ ["slizen_request_duration_seconds"; "slizen_upstream_duration_seconds"]%string →
  res ∈ resultLabels → callOK (PObserve n [commandLabel c; res] d) = true.
Proof.
  intros Hn Hr. rewrite callOK_observe. generalize (commandLabel_in c). generalize (commandLabel c). intros l Hl.
  apply elem_of_cons in Hn as [->|[->|[]%elem_of_nil]%elem_of_cons];
    (apply (callOK_2 (λ x y, PObserve _ [x; y] 0) commandLabels resultLabels); [vm_compute; reflexivity|done|done]).
Qed.

Lemma command_ok n c :
  n ∈ ["slizen_cache_hits_total"; "slizen_cache_misses_total"; "slizen_upstream_requests_total";
       "slizen_upstream_errors_total"]%string → callOK (PInc n [commandLabel c]) = true.
Proof.
  generalize (commandLabel_in c). generalize (commandLabel c). intros l Hl Hn.
  repeat (apply elem_of_cons in Hn as [->|Hn];
          [apply (callOK_1 (λ x, PInc _ [x]) commandLabels); [vm_compute; reflexivity|done]|]).
  by apply elem_of_nil in Hn.
Qed.

Lemma missReason_ok r : 0 <= r → callOK (cacheMissByReason (normalizeCacheMissReason r)) = true.
Proof.
  intros Hr. apply (callOK_1 (λ x, PInc _ [x]) missReasonLabels); [vm_compute; reflexivity|by apply reasonLabel_in].
Qed.

Lemma invalidation_ok reason : reason ∈ invalidationLabels →
  callOK (PInc "slizen_invalidations_total" [reason]) = true.
Proof. intros Hr. apply (callOK_1 (λ x, PInc _ [x]) invalidationLabels); [vm_compute; reflexivity|done]. Qed.

Lemma add_ok n v : n ∈ ["slizen_cache_evictions_total"; "slizen_hotness_capacity_observations_dropped_total";
    "slizen_hotness_oversized_observations_dropped_total"]%string → 0 < v → callOK (PAdd n v) = true.
Proof.
  intros Hn Hv. assert (Heq : callOK (PAdd n v) = callOK (PAdd n 1)).
  { unfold callOK, accepts, hasOperation. assert ((0 <=? v) = true) as -> by lia. reflexivity. }
  rewrite Heq. refine (callOK_1 (λ n, PAdd n 1) _ n _ Hn). vm_compute. reflexivity.
Qed.

(** ** Every method keeps the invariant *)

Lemma u64_succ n : u64 (u64 n + 1) = u64 (1 + n).
Proof. unfold u64. rewrite Zplus_mod_idemp_l. f_equal. lia. Qed.

Lemma labelled_same v : labelled v v = true.
Proof. by apply bool_decide_eq_true. Qed.

Lemma labelled_other v l : l ≠ v → labelled v l = false.
Proof. intros Hn. by apply bool_decide_eq_false. Qed.

Lemma load_store r c v c' : load (store r c v) c' = if decide (c' = c) then v else load r c'.
Proof. reflexivity. Qed.

Ltac views H := let k := fresh "k" in let Hk := fresh "Hk" in
  intros k; pose proof (rec_views _ H k) as Hk; destruct k;
  unfold add1 in *; cbn -[u64 Z.add cacheMissReasonLabel] in *;
  repeat (case_decide; simplify_eq; try done);
  rewrite ?(rec_views _ H); cbn -[u64 Z.add cacheMissReasonLabel];
  rewrite ?u64_succ, ?Z.add_0_l; try done.

Lemma recorded_New : recorded New.
Proof. split; [constructor|]. intros c. destruct c; simpl; try case_if; reflexivity. Qed.

Lemma recorded_gauge r n v : recorded r → callOK (PSet n v) = true → recorded (emit r (PSet n v)).
Proof. intros H Hok. split; [constructor; [done|apply H]|]. views H. Qed.

Lemma recorded_ObserveRequest r c res d : res ∈ resultLabels → recorded r → recorded (ObserveRequest r c res d).
Proof.
  intros Hres H. unfold ObserveRequest. cbv zeta.
  destruct (bool_decide (commandLabel c = "GET"%string) && bool_decide (res = "ok"%string)) eqn:E.
  - split; [constructor; [vm_compute; reflexivity|constructor; [vm_compute; reflexivity|apply H]]|]. views H.
  - split; [constructor; [apply latency_ok; [by left|done]|constructor; [by apply requests_ok|apply H]]|]. views H.
Qed.

Lemma recorded_CacheHit r c : recorded r → recorded (CacheHit r c).
Proof.
  intros H. unfold CacheHit. cbv zeta. destruct (bool_decide (commandLabel c = "GET"%string)) eqn:E.
  - split; [constructor; [vm_compute; reflexivity|apply H]|]. views H.
  - split; [constructor; [apply command_ok; member|apply H]|]. views H.
Qed.

Lemma recorded_CacheMissWithReason r c reason : 0 <= reason → recorded r → recorded (CacheMissWithReason r c reason).
Proof.
  intros Hr H. pose proof (normalize_range _ Hr) as Hn. unfold CacheMissWithReason. cbv zeta.
  split; [constructor; [by apply missReason_ok|constructor; [apply command_ok; member|apply H]]|].
  views H.
  - rewrite labelled_same. destruct (_ && _) eqn:E; [by rewrite u64_succ|lia].
  - destruct ((0 <=? r0) && (r0 <? cacheMissReasonCount)) eqn:E; [|done].
    rewrite labelled_other; [done|]. intros [= Heq]. apply reasonLabel_inj in Heq; [by subst|done|lia].
Qed.

Lemma recorded_ObserveUpstream r c d failed : recorded r → recorded (ObserveUpstream r c d failed).
Proof.
  intros H. unfold ObserveUpstream. cbv zeta. set (l := commandLabel c).
  assert (Hd : ∀ b : bool, callOK (PObserve "slizen_upstream_duration_seconds" [l; if b then "error"%string else "ok"%string] d) = true).
  { intros b. apply latency_ok; [right; left|destruct b; [right; left|left]]. }
  assert (Hr : callOK (PInc "slizen_upstream_requests_total" [l]) = true) by (apply command_ok; member).
  assert (He : callOK (PInc "slizen_upstream_errors_total" [l]) = true) by (apply command_ok; member).
  split.
  - assert (HF : Forall (λ c, callOK c = true) (PInc "slizen_upstream_requests_total" [l] :: prom r))
      by (constructor; [exact Hr|apply H]).
    destruct failed, (bool_decide (l = "GET"%string));
      [constructor; [exact (Hd true)|constructor; [exact He|exact HF]]..|
       constructor; [exact (Hd false)|exact HF]|constructor; [exact (Hd false)|exact HF]].
  - clear Hd Hr He. destruct (bool_decide (l = "GET"%string)) eqn:E; [apply bool_decide_eq_true in E|apply bool_decide_eq_false in E].
    + rewrite E. destruct failed; views H; by rewrite labelled_same, u64_succ.
    + destruct failed; views H; (rewrite labelled_other; [by rewrite Z.add_0_l|congruence]).
Qed.

Lemma recorded_inc r n c :
  (n, c) ∈ [("slizen_promotions_total", totalPromotions); ("slizen_demotions_total", totalDemotions);
            ("slizen_coalesced_requests_total", totalCoalesced)]%string →
  recorded r → recorded (emit (add1 r c) (PInc n [])).
Proof.
  intros Hn H. repeat (apply elem_of_cons in Hn as [[= -> ->]|Hn];
    [split; [constructor; [vm_compute; reflexivity|apply H]|views H]|]).
  by apply elem_of_nil in Hn.
Qed.

Lemma recorded_Invalidation r reason : reason ∈ invalidationLabels → recorded r → recorded (Invalidation r reason).
Proof. intros Hr H. split; [constructor; [by apply invalidation_ok|apply H]|]. unfold Invalidation. views H. Qed.

Lemma recorded_connection r c :
  c ∈ [PInc "slizen_active_connections" []; PDec "slizen_active_connections"] → recorded r → recorded (emit r c).
Proof.
  intros Hn H. repeat (apply elem_of_cons in Hn as [->|Hn];
    [split; [constructor; [vm_compute; reflexivity|apply H]|views H]|]).
  by apply elem_of_nil in Hn.
Qed.

Lemma recorded_advance r mark total n :
  (mark, n) ∈ [(evictionSeen, "slizen_cache_evictions_total");
               (hotnessCapacityDropSeen, "slizen_hotness_capacity_observations_dropped_total");
               (hotnessOversizedDropSeen, "slizen_hotness_oversized_observations_dropped_total")]%string →
  recorded r → recorded (advance r mark total n).
Proof.
  intros Hn H. unfold advance, advanceHighWater. destruct (total <=? load r mark) eqn:Ht.
  - simpl. split; [apply H|]. intros c. rewrite load_store. case_decide; [subst; apply H|apply H].
  - assert (Hd : (0 <? total - load r mark) = true) by lia. rewrite Hd. split.
    + constructor; [|apply H]. apply add_ok; [|lia].
      repeat (apply elem_of_cons in Hn as [[= -> ->]|Hn]; [member|]). by apply elem_of_nil in Hn.
    + repeat (apply elem_of_cons in Hn as [[= -> ->]|Hn]; [views H; lia|]). by apply elem_of_nil in Hn.
Qed.

(** The methods that leave the connections alone. *)
Definition silent (r r' : Recorder) : Prop :=
  (recorded r → recorded r') ∧ activeConnections r' = activeConnections r.

Lemma silent_ObserveRequest r c res d : res ∈ resultLabels → silent r (ObserveRequest r c res d).
Proof. intros Hr. split; [by apply recorded_ObserveRequest|]. unfold ObserveRequest. by destruct (_ && _). Qed.

Lemma silent_CacheHit r c : silent r (CacheHit r c).
Proof. split; [apply recorded_CacheHit|]. unfold CacheHit. by destruct (bool_decide _). Qed.

Lemma silent_CacheMissWithReason r c reason : 0 <= reason → silent r (CacheMissWithReason r c reason).
Proof. intros Hr. split; [by apply recorded_CacheMissWithReason|reflexivity]. Qed.

Lemma silent_ObserveUpstream r c d failed : silent r (ObserveUpstream r c d failed).
Proof.
  split; [apply recorded_ObserveUpstream|]. unfold ObserveUpstream. by destruct failed, (bool_decide _).
Qed.

Lemma silent_Promotion r : silent r (Promotion r).
Proof. split; [apply recorded_inc; member|reflexivity]. Qed.

Lemma silent_Demotion r : silent r (Demotion r).
Proof. split; [apply recorded_inc; member|reflexivity]. Qed.

Lemma silent_Coalesced r : silent r (Coalesced r).
Proof. split; [apply recorded_inc; member|reflexivity]. Qed.

Lemma silent_Invalidation r reason : reason ∈ invalidationLabels → silent r (Invalidation r reason).
Proof. intros Hr. split; [by apply recorded_Invalidation|reflexivity]. Qed.

(** Setting a gauge, whatever the value. *)
Definition setGauges : list string :=
  ["slizen_cache_entries"; "slizen_cache_bytes"; "slizen_cache_max_entries"; "slizen_cache_max_bytes";
   "slizen_hot_keys"]%string.

Lemma set_ok n v : n ∈ setGauges → callOK (PSet n v) = true.
Proof.
  intros Hn. change (callOK (PSet n 0) = true). refine (callOK_1 (λ n, PSet n 0) _ n _ Hn). vm_compute. reflexivity.
Qed.

Lemma silent_set r n v : n ∈ setGauges → silent r (emit r (PSet n v)).
Proof.
  intros Hn. split; [intros H; apply recorded_gauge; [exact H|by apply set_ok]|].
  unfold setGauges in Hn. repeat (apply elem_of_cons in Hn as [->|Hn]; [reflexivity|]). by apply elem_of_nil in Hn.
Qed.

Lemma silent_advance r mark total n :
  (mark, n) ∈ [(evictionSeen, "slizen_cache_evictions_total");
               (hotnessCapacityDropSeen, "slizen_hotness_capacity_observations_dropped_total");
               (hotnessOversizedDropSeen, "slizen_hotness_oversized_observations_dropped_total")]%string →
  silent r (advance r mark total n).
Proof.
  intros Hn. split; [by apply recorded_advance|]. unfold advance. destruct (advanceHighWater _ _) as [m delta].
  case_if; [|done].
  repeat (apply elem_of_cons in Hn as [[= -> ->]|Hn]; [reflexivity|]). by apply elem_of_nil in Hn.
Qed.

#[global] Instance silent_preorder : PreOrder silent.
Proof. split; [done|]. intros r1 r2 r3 [H1 G1] [H2 G2]. split; [auto|congruence]. Qed.

Lemma silent_ObserveCache r entries bytes evictions : silent r (ObserveCache r entries bytes evictions).
Proof.
  unfold ObserveCache. cbv zeta. etrans; [|apply silent_advance; left].
  etrans; [apply silent_set; member|].
  apply silent_set. member.
Qed.

Lemma silent_SetCacheLimits r maxBytes maxEntries : silent r (SetCacheLimits r maxBytes maxEntries).
Proof.
  unfold SetCacheLimits. etrans; [|apply silent_set; member].
  apply silent_set. member.
Qed.

Lemma silent_SetHotKeys r count : silent r (SetHotKeys r count).
Proof. apply silent_set. member. Qed.

Lemma silent_ObserveHotnessOversizedDrops r total : silent r (ObserveHotnessOversizedDrops r total).
Proof. apply silent_advance. member. Qed.

Lemma silent_ObserveHotnessCapacityDrops r total : silent r (ObserveHotnessCapacityDrops r total).
Proof. apply silent_advance. member. Qed.

End registry.
