(* ===== verification/HighWater.v ===== *)
(** * internal/metrics: high-water marks under contention

    [ObserveCache], [ObserveHotnessOversizedDrops] and [ObserveHotnessCapacityDrops]
    run in many goroutines at once. Each turns a running total into additions to a
    Prometheus counter: [advanceHighWater] moves an atomic mark with a compare-and-swap
    loop and the caller adds the distance it moved. Here each load, each
    compare-and-swap, each call on the Prometheus client is a step of its own, and
    goroutines interleave in every possible way. *)
From stdpp Require Import prelude gmap strings list relations well_founded.
From Stdlib Require Import ZArith Lia.
From S2P Require Import Prelude GoStd Metrics MetricsRegistry.
Local Open Scope Z_scope.

Module highwater.
Import gostd metrics registry.

(** The three marks and the counters they guard. *)
Inductive mark := Evictions | CapacityDrops | OversizedDrops.
#[global] Instance mark_eq_dec : EqDecision mark.
Proof. solve_decision. Defined.

Definition markOf (m : mark) : counter :=
  match m with
  | Evictions => evictionSeen
  | CapacityDrops => hotnessCapacityDropSeen
  | OversizedDrops => hotnessOversizedDropSeen
  end.

Definition nameOf (m : mark) : string :=
  match m with
  | Evictions => "slizen_cache_evictions_total"
  | CapacityDrops => "slizen_hotness_capacity_observations_dropped_total"
  | OversizedDrops => "slizen_hotness_oversized_observations_dropped_total"
  end.

(** A call of one of the three methods. *)
Inductive call :=
  | ObserveCacheCall (entries bytes evictions : Z)
  | ObserveCapacityCall (total : Z)
  | ObserveOversizedCall (total : Z).

Definition callMark (c : call) : mark :=
  match c with
  | ObserveCacheCall _ _ _ => Evictions
  | ObserveCapacityCall _ => CapacityDrops
  | ObserveOversizedCall _ => OversizedDrops
  end.

Definition callTotal (c : call) : Z :=
  match c with ObserveCacheCall _ _ t | ObserveCapacityCall t | ObserveOversizedCall t => t end.

(** Where a goroutine is: before [cacheEntries.Set], before [cacheBytes.Set], at the
    head of the loop, before the compare-and-swap with the value it has loaded,
    before the addition of the delta, returned. *)
Inductive pc :=
  | SetEntries (entries bytes : Z)
  | SetBytes (bytes : Z)
  | Head
  | Swap (previous : Z)
  | Deliver (delta : Z)
  | Returned.

#[global] Instance pc_eq_dec : EqDecision pc.
Proof. solve_decision. Defined.

Definition start (c : call) : pc :=
  match c with ObserveCacheCall entries bytes _ => SetEntries entries bytes | _ => Head end.

(** One step of a goroutine. *)
Definition exec (r : Recorder) (c : call) (p : pc) : Recorder * pc :=
  let m := markOf (callMark c) in
  match p with
  | SetEntries entries bytes => (emit r (PSet "slizen_cache_entries" entries), SetBytes bytes)
  | SetBytes bytes => (emit r (PSet "slizen_cache_bytes" bytes), Head)
  | Head =>
      let previous := load r m in
      if callTotal c <=? previous then (r, Deliver 0) else (r, Swap previous)
  | Swap previous =>
      if load r m =? previous
      then (store r m (callTotal c), Deliver (u64 (callTotal c - previous)))
      else (r, Head)
  | Deliver delta => (if 0 <? delta then emit r (PAdd (nameOf (callMark c)) delta) else r, Returned)
  | Returned => (r, Returned)
  end.

Notation thread := (call * pc)%type.
Notation conf := (Recorder * list thread)%type.

(** A goroutine that has not returned takes a step. *)
Inductive run : conf → conf → Prop :=
  | run_step r ts i c p r' p' :
      ts !! i = Some (c, p) → p ≠ Returned → exec r c p = (r', p') → run (r, ts) (r', <[i := (c, p')]> ts).

(** Totals are values of a [uint64]. *)
Inductive hstep : conf → conf → Prop :=
  | h_run x y : run x y → hstep x y
  | h_call r ts c : in_u64 (callTotal c) → hstep (r, ts) (r, ts ++ [(c, start c)]).

Definition reachable : conf → Prop := rtc hstep (New, []).

(** The largest total that was reported for a mark. *)
Definition largest (m : mark) (ts : list thread) : Z :=
  foldr (λ t acc, if decide (callMark t.1 = m) then Z.max (callTotal t.1) acc else acc) 0 ts.

Definition allReturned (ts : list thread) : Prop := Forall (λ t, t.2 = Returned) ts.

(** ** The invariant *)

(** What a goroutine has taken from the mark and not delivered yet. *)
Definition pending (m : mark) (t : thread) : Z :=
  match t with (c, Deliver d) => if decide (callMark c = m) then d else 0 | _ => 0 end.

Definition sumPending (m : mark) (ts : list thread) : Z := foldr (λ t acc, pending m t + acc) 0 ts.

Definition threadOk (r : Recorder) (t : thread) : Prop :=
  in_u64 (callTotal t.1) ∧
  match t.2 with
  | Swap previous => 0 <= previous < callTotal t.1 ∧ previous <= load r (markOf (callMark t.1))
  | Deliver d => 0 <= d ∧ callTotal t.1 <= load r (markOf (callMark t.1))
  | Returned => callTotal t.1 <= load r (markOf (callMark t.1))
  | _ => True
  end.

Record inv (x : conf) : Prop := {
  inv_threads : Forall (threadOk x.1) x.2;
  inv_sum : ∀ m, load x.1 (markOf m) = added (nameOf m) (prom x.1) + sumPending m x.2;
  inv_mark : ∀ m, 0 <= load x.1 (markOf m) <= largest m x.2
}.

Lemma sumPending_insert m ts i t t' :
  ts !! i = Some t → sumPending m (<[i := t']> ts) = sumPending m ts + (pending m t' - pending m t).
Proof.
  revert i. induction ts as [|x ts IH]; intros [|i] Hi; simplify_eq/=; [lia|]. rewrite (IH i) by done. lia.
Qed.

Lemma largest_insert m ts i c p p' :
  ts !! i = Some (c, p) → largest m (<[i := (c, p')]> ts) = largest m ts.
Proof.
  revert i. induction ts as [|x ts IH]; intros [|i] Hi; simplify_eq/=; [done|]. by rewrite (IH i).
Qed.

Lemma largest_total m ts t : t ∈ ts → callMark t.1 = m → callTotal t.1 <= largest m ts.
Proof.
  intros Ht Hm. induction Ht as [t ts|t x ts Ht IH]; simpl.
  - rewrite decide_True by done. lia.
  - specialize (IH Hm). case_decide; lia.
Qed.

Lemma largest_app m ts c : largest m (ts ++ [c]) = Z.max (largest m ts) (largest m [c]).
Proof.
  induction ts as [|x ts IH]; simpl; [case_decide; lia|]. rewrite IH. simpl. repeat case_decide; lia.
Qed.

Lemma sumPending_app m ts t : sumPending m (ts ++ [t]) = sumPending m ts + pending m t.
Proof. induction ts as [|x ts IH]; simpl; [lia|]. rewrite IH. lia. Qed.

(** Marks only move up, so what the other goroutines know stays true. *)
Lemma threadOk_mono r r' t :
  (∀ m, load r (markOf m) <= load r' (markOf m)) → threadOk r t → threadOk r' t.
Proof.
  intros Hm [Hu Ht]. split; [done|]. specialize (Hm (callMark t.1)). destruct (t.2); lia.
Qed.

Lemma store_mark r m v m' :
  load (store r (markOf m) v) (markOf m') = if decide (m' = m) then v else load r (markOf m').
Proof. rewrite load_store. by destruct m, m'. Qed.

(** What a step does to the marks, to the counters and to its own thread. *)
Lemma exec_spec r c p r' p' :
  exec r c p = (r', p') → threadOk r (c, p) → 0 <= load r (markOf (callMark c)) →
  threadOk r' (c, p') ∧
  (∀ m, load r (markOf m) <= load r' (markOf m)
        <= Z.max (load r (markOf m)) (if decide (callMark c = m) then callTotal c else 0)) ∧
  (∀ m, load r' (markOf m) - load r (markOf m)
        = added (nameOf m) (prom r') - added (nameOf m) (prom r) + (pending m (c, p') - pending m (c, p))).
Proof.
  intros He [Hu Hp] H0. destruct p as [en by_|by_| |prev|d|]; simpl in He; simplify_eq; simpl in Hp, Hu.
  - split_and!; [done|..]; intros m; destruct m; simpl; lia.
  - split_and!; [done|..]; intros m; destruct m; simpl; lia.
  - case_match; simplify_eq; ztests; (split_and!; [split; simpl; [done|lia]|intros m; lia|]);
      intros m; simpl; try case_decide; lia.
  - case_match; simplify_eq; ztests.
    + rewrite u64_id by (unfold in_u64 in *; lia). split_and!.
      * split; cbn [fst snd]; [done|]. rewrite store_mark, decide_True by done. lia.
      * intros m. rewrite store_mark. repeat case_decide; subst; simplify_eq; lia.
      * intros m. rewrite store_mark. simpl. repeat case_decide; subst; simplify_eq; lia.
    + split_and!; [split; simpl; done|intros m; lia|intros m; simpl; lia].
  - case_if; ztests; (split_and!; [split; simpl; [done|lia]|intros m; simpl; lia|]); intros m; simpl;
      [destruct (callMark c), m; simpl; lia|case_decide; lia].
  - split_and!; [done|..]; intros m; simpl; lia.
Qed.

Lemma run_inv x y : inv x → run x y → inv y.
Proof.
  intros HI Hr. destruct Hr as [r ts i c p r' p' Hi _ He]. simpl in *.
  pose proof (Forall_lookup_1 _ _ _ _ (inv_threads _ HI) Hi) as Hok.
  destruct (exec_spec _ _ _ _ _ He Hok) as (Hok' & Hm & Hs); [apply HI|]. split; simpl.
  - apply Forall_insert; [|done]. eapply Forall_impl; [apply HI|]. intros t. apply threadOk_mono. intros m. apply Hm.
  - intros m. rewrite (sumPending_insert m ts i (c, p)) by done. pose proof (inv_sum _ HI m) as H1. simpl in H1.
    specialize (Hs m). lia.
  - intros m. rewrite (largest_insert m ts i c p) by done. pose proof (inv_mark _ HI m) as H1. simpl in H1.
    specialize (Hm m). case_decide as Hc; [|lia].
    pose proof (largest_total m ts (c, p) (list_elem_of_lookup_2 _ _ _ Hi) Hc) as H2. simpl in H2. lia.
Qed.

Lemma hstep_inv x y : inv x → hstep x y → inv y.
Proof.
  intros HI Hs. destruct Hs as [x y Hr|r ts c Hc]; [by eapply run_inv|]. split; simpl.
  - apply Forall_app. split; [apply HI|]. constructor; [|done]. by destruct c.
  - intros m. rewrite sumPending_app. pose proof (inv_sum _ HI m) as H1. simpl in H1. destruct c; simpl; lia.
  - intros m. rewrite largest_app. pose proof (inv_mark _ HI m) as H1. simpl in H1. lia.
Qed.

Lemma highwater_inv x : reachable x → inv x.
Proof.
  intros Hr. eapply (rtc_ind_r inv); [|intros y z _ Hs IH; by eapply hstep_inv|exact Hr].
  split; simpl; [constructor|intros []; done|intros m; destruct m; simpl; lia].
Qed.

Lemma sumPending_nonneg m r ts : Forall (threadOk r) ts → 0 <= sumPending m ts.
Proof.
  induction 1 as [|[c p] ts [_ Ht] _ IH]; simpl in *; [done|]. destruct p; try lia. case_decide; lia.
Qed.

(** When every goroutine has returned, the mark is the largest total. *)
Lemma returned_mark x m : inv x → allReturned x.2 → sumPending m x.2 = 0 ∧ load x.1 (markOf m) = largest m x.2.
Proof.
  intros HI Hret. split.
  - unfold allReturned in Hret. induction Hret as [|[c p] ts Hp _ IH]; simpl in *; [done|]. subst p. lia.
  - pose proof (inv_mark _ HI m) as Hm. pose proof (inv_threads _ HI) as Ht.
    assert (largest m x.2 <= load x.1 (markOf m)); [|lia].
    revert Ht Hret. generalize (x.2) as ts. destruct Hm as [H0 _]. induction ts as [|[c p] ts IH]; simpl; [lia|].
    intros [[_ Hok] Ht]%Forall_cons [Hp Hret]%Forall_cons. simpl in *. subst p. specialize (IH Ht Hret).
    case_decide; [subst|]; lia.
Qed.

(** ** Termination

    A compare-and-swap fails only after another one has moved the mark, and marks are
    bounded: the retries of all goroutines together are finite. *)

Definition weight (r : Recorder) (t : thread) : Z :=
  match t.2 with
  | SetEntries _ _ => 5
  | SetBytes _ => 4
  | Head => 3
  | Swap previous => if load r (markOf (callMark t.1)) =? previous then 2 else 4
  | Deliver _ => 1
  | Returned => 0
  end.

Definition weights (r : Recorder) (ts : list thread) : Z := foldr (λ t acc, weight r t + acc) 0 ts.

Definition room (r : Recorder) : Z :=
  3 * two64 - load r (markOf Evictions) - load r (markOf CapacityDrops) - load r (markOf OversizedDrops).

Definition measure (x : conf) : Z := (2 * Z.of_nat (length x.2) + 1) * room x.1 + weights x.1 x.2.

Lemma weights_insert r ts i t t' :
  ts !! i = Some t → weights r (<[i := t']> ts) = weights r ts + (weight r t' - weight r t).
Proof.
  revert i. induction ts as [|x ts IH]; intros [|i] Hi; simplify_eq/=; [lia|]. rewrite (IH i) by done. lia.
Qed.

Lemma weights_change r r' ts : weights r' ts <= weights r ts + 2 * Z.of_nat (length ts).
Proof.
  induction ts as [|t ts IH]; simpl; [lia|].
  assert (weight r' t <= weight r t + 2) by (unfold weight; destruct (t.2); repeat case_match; lia). lia.
Qed.

Lemma weights_same r r' ts :
  (∀ m, load r' (markOf m) = load r (markOf m)) → weights r' ts = weights r ts.
Proof.
  intros Hm. induction ts as [|t ts IH]; simpl; [done|]. rewrite IH. f_equal. unfold weight. by rewrite Hm.
Qed.

Lemma weights_nonneg r ts : 0 <= weights r ts.
Proof.
  induction ts as [|t ts IH]; simpl; [lia|]. assert (0 <= weight r t) by (unfold weight; repeat case_match; lia). lia.
Qed.

Lemma largest_u64 r m ts : Forall (threadOk r) ts → largest m ts < two64.
Proof.
  induction 1 as [|t ts [[_ Ht] _] _ IH]; simpl; [by vm_compute|]. case_decide; lia.
Qed.

Lemma room_pos x : inv x → 0 <= room x.1.
Proof.
  intros HI. assert (∀ m, load x.1 (markOf m) < two64); [|unfold room; pose proof (H Evictions); pose proof (H CapacityDrops); pose proof (H OversizedDrops); lia].
  intros m. pose proof (inv_mark _ HI m). pose proof (largest_u64 _ m _ (inv_threads _ HI)). lia.
Qed.

(** A step that leaves the marks alone makes its thread lighter; one that moves a mark
    uses up room. *)
Lemma exec_progress r c p r' p' :
  exec r c p = (r', p') → p ≠ Returned → threadOk r (c, p) →
  ((∀ m, load r' (markOf m) = load r (markOf m)) ∧ weight r' (c, p') < weight r (c, p)) ∨
  (room r' < room r ∧ weight r' (c, p') <= weight r' (c, p)).
Proof.
  intros He Hp [_ Hok]. destruct p as [en by_|by_| |prev|d|]; simpl in He; simplify_eq; [left; split; [done|vm_compute; done]..| | |left].
  - left. destruct (callTotal c <=? load r (markOf (callMark c))); simplify_eq; (split; [done|]); unfold weight; simpl.
    + lia.
    + rewrite Z.eqb_refl. lia.
  - destruct (load r (markOf (callMark c)) =? prev) eqn:E; simplify_eq; ztests; simpl in Hok.
    + right. split; [unfold room; rewrite !store_mark; destruct (callMark c); simpl in *; lia|].
      unfold weight. simpl. case_match; lia.
    + left. split; [done|]. unfold weight. simpl. case_match; lia.
  - case_if; (split; [by intros []|vm_compute; done]).
Qed.

Lemma run_measure x y : inv x → run x y → 0 <= measure y < measure x.
Proof.
  intros HI Hr. pose proof (run_inv _ _ HI Hr) as HI'. pose proof (room_pos _ HI) as Hx. pose proof (room_pos _ HI') as Hy.
  destruct Hr as [r ts i c p r' p' Hi Hp He]. unfold measure. simpl in *. rewrite length_insert.
  pose proof (weights_nonneg r' (<[i:=(c, p')]> ts)). split; [nia|]. rewrite (weights_insert r' ts i (c, p)) by done.
  pose proof (Forall_lookup_1 _ _ _ _ (inv_threads _ HI) Hi) as Hok.
  destruct (exec_progress _ _ _ _ _ He Hp Hok) as [[Hm Hw]|[Hroom Hw]].
  - rewrite (weights_same r r') by done. assert (room r' = room r) as -> by (unfold room; by rewrite !Hm).
    assert (weight r' (c, p) = weight r (c, p)) by (unfold weight; by rewrite Hm). lia.
  - pose proof (weights_change r r' ts). nia.
Qed.

Lemma run_sn x : inv x → sn run x.
Proof.
  remember (Z.to_nat (measure x)) as n eqn:Hn. revert x Hn.
  induction n as [n IH] using lt_wf_ind. intros x -> HI. constructor. intros y Hr.
  pose proof (run_measure _ _ HI Hr) as Hlt. apply (IH (Z.to_nat (measure y))); [lia|done|by eapply run_inv].
Qed.

(** Only goroutines that have returned are stuck: there is nothing to wait for. *)
Lemma stuck_returned r ts : (∀ y, ¬ run (r, ts) y) → allReturned ts.
Proof.
  intros Hs. apply Forall_lookup. intros i [c p] Hi. simpl.
  destruct (decide (p = Returned)) as [|Hp]; [done|]. destruct (exec r c p) as [r' p'] eqn:He.
  destruct (Hs (r', <[i := (c, p')]> ts)). by econstructor.
Qed.

(** ** The methods as single steps

    Without contention a goroutine does what the method of the recorder's model does
    in one step. *)

Definition method (c : call) (r : Recorder) : Recorder :=
  match c with
  | ObserveCacheCall entries bytes evictions => ObserveCache r entries bytes evictions
  | ObserveCapacityCall total => ObserveHotnessCapacityDrops r total
  | ObserveOversizedCall total => ObserveHotnessOversizedDrops r total
  end.

(** Letting goroutine [i] take a step. *)
Definition turn (x : conf) (i : nat) : conf :=
  match x.2 !! i with
  | Some (c, p) => let '(r', p') := exec x.1 c p in (r', <[i := (c, p')]> x.2)
  | None => x
  end.

Lemma turn_reachable x i : reachable x → reachable (turn x i).
Proof.
  intros Hr. destruct x as [r ts]. unfold turn. simpl. destruct (ts !! i) as [[c p]|] eqn:Hi; [|done].
  destruct (exec r c p) as [r' p'] eqn:He. destruct (decide (p = Returned)) as [->|Hp].
  - simpl in He. simplify_eq. by rewrite list_insert_id.
  - eapply rtc_r; [exact Hr|]. apply h_run. by econstructor.
Qed.

Lemma turns_reachable l x : reachable x → reachable (fold_left turn l x).
Proof. revert x. induction l as [|i l IH]; intros x Hr; [done|]. by apply IH, turn_reachable. Qed.

Lemma turn_alone r c p : turn (r, [(c, p)]) 0 = let '(r', p') := exec r c p in (r', [(c, p')]).
Proof. reflexivity. Qed.

Lemma advance_alone r c :
  in_u64 (callTotal c) → 0 <= load r (markOf (callMark c)) →
  let x := fold_left turn [0; 0; 0]%nat (r, [(c, Head)]) in
  let r' := advance r (markOf (callMark c)) (callTotal c) (nameOf (callMark c)) in
  x.2 = [(c, Returned)] ∧ prom x.1 = prom r' ∧ ∀ k, load x.1 k = load r' k.
Proof.
  intros Hu H0. unfold advance, advanceHighWater, in_u64 in *. cbn [fold_left].
  rewrite turn_alone. cbn [exec]. destruct (callTotal c <=? load r (markOf (callMark c))) eqn:E; ztests.
  - rewrite turn_alone. cbn [exec]. rewrite turn_alone. simpl. split_and!; [done..|].
    intros k. case_decide; congruence.
  - rewrite turn_alone. cbn [exec]. rewrite Z.eqb_refl, turn_alone. cbn [exec].
    rewrite u64_id by (unfold in_u64; lia). by destruct (0 <? callTotal c - load r (markOf (callMark c))).
Qed.

Lemma method_alone r c :
  in_u64 (callTotal c) → 0 <= load r (markOf (callMark c)) →
  let x := fold_left turn (replicate 5 0%nat) (r, [(c, start c)]) in
  x.2 = [(c, Returned)] ∧ prom x.1 = prom (method c r) ∧ ∀ k, load x.1 k = load (method c r) k.
Proof.
  intros Hu H0. destruct c as [en by_ ev|total|total].
  - exact (advance_alone (emit (emit r (PSet "slizen_cache_entries" en)) (PSet "slizen_cache_bytes" by_)) _ Hu H0).
  - destruct (advance_alone r _ Hu H0) as [Hx Hr]. cbv zeta.
    change (replicate 5 0%nat) with ([0; 0; 0] ++ [0; 0])%nat. rewrite fold_left_app.
    destruct (fold_left turn [0; 0; 0]%nat _) as [r1 ts1]. simpl in Hx. subst ts1. done.
  - destruct (advance_alone r _ Hu H0) as [Hx Hr]. cbv zeta.
    change (replicate 5 0%nat) with ([0; 0; 0] ++ [0; 0])%nat. rewrite fold_left_app.
    destruct (fold_left turn [0; 0; 0]%nat _) as [r1 ts1]. simpl in Hx. subst ts1. done.
Qed.

End highwater.

Import metrics registry highwater.

(** C11. Exactly-once accounting of high-water marks under contention. Any number of
    goroutines report totals, in any interleaving of their loads, compare-and-swaps
    and additions. The loops end: without new calls every execution is finite, though
    a compare-and-swap may fail and retry. At no moment has a Prometheus counter
    received more than the largest total reported so far, and when no goroutine can go
    on all have returned and the counter has received exactly that total: nothing is
    counted twice and nothing is lost. *)
Theorem highwater_exact r ts :
  reachable (r, ts) →
  sn run (r, ts) ∧
  (∀ m, added (nameOf m) (prom r) <= largest m ts) ∧
  ((∀ y, ¬ run (r, ts) y) →
     allReturned ts ∧ ∀ m, added (nameOf m) (prom r) = largest m ts ∧ load r (markOf m) = largest m ts).
Proof.
  intros Hr. pose proof (highwater_inv _ Hr) as HI. split; [by apply run_sn|]. split.
  - intros m. pose proof (inv_sum _ HI m) as Hs. pose proof (inv_mark _ HI m) as Hm.
    pose proof (sumPending_nonneg m _ _ (inv_threads _ HI)). simpl in *. lia.
  - intros Hstuck. pose proof (stuck_returned _ _ Hstuck) as Hret. split; [done|]. intros m.
    destruct (returned_mark _ m HI Hret) as [Hp Hm]. pose proof (inv_sum _ HI m) as Hs. simpl in *. lia.
Qed.

(** Two goroutines load the mark, both see zero; the slower one fails its
    compare-and-swap, retries and adds the rest; a third has nothing to add. *)
Definition contended : Recorder * list (call * pc) :=
  fold_left turn [0; 1; 0; 1; 1; 1; 1; 0; 2; 2]%nat
    (New, [(ObserveCapacityCall 5, Head); (ObserveCapacityCall 7, Head); (ObserveCapacityCall 6, Head)]).

Lemma contended_reachable : reachable contended.
Proof.
  apply turns_reachable.
  eapply rtc_l; [apply (h_call New [] (ObserveCapacityCall 5)); by vm_compute|].
  eapply rtc_l; [apply (h_call New _ (ObserveCapacityCall 7)); by vm_compute|].
  eapply rtc_l; [apply (h_call New _ (ObserveCapacityCall 6)); by vm_compute|]. apply rtc_refl.
Qed.

Lemma highwater_exact_witness :
  prom contended.1 = [PAdd "slizen_hotness_capacity_observations_dropped_total" 5;
                      PAdd "slizen_hotness_capacity_observations_dropped_total" 2] ∧
  added (nameOf CapacityDrops) (prom contended.1) = 7.
Proof.
  split; [vm_compute; reflexivity|].
  refine (proj1 (proj2 (proj2 (proj2 (highwater_exact contended.1 contended.2 contended_reachable)) _) CapacityDrops)).
  intros y Hr. inversion Hr as [r ts i c p r' p' Hi Hp He]; subst.
  destruct i as [|[|[|i]]]; vm_compute in Hi; simplify_eq.
Defined.
