(* ===== verification/Steps.v ===== *)
(** * What every action of a program does

    [steps R p]: whatever states the program meets, each of its actions changes the
    state as the relation [R] allows. [owes J g n p Q]: the program keeps [J]; having
    raised the figure [g] of the state by [n] (zero or one) so far, it returns with a
    debt that [Q] allows. A pool of programs that give everything back keeps [g] equal
    to what its goroutines still owe. *)
From stdpp Require Import prelude list.
From Stdlib Require Import ZArith Lia.
From S2P Require Import Prelude Conc.
Local Open Scope Z_scope.

Section steps.
Context {E S : Type} (R : S → S → Prop).

Fixpoint steps {A} (p : prog E S A) : Prop :=
  match p with
  | Ret _ | Panic => True
  | Step f => ∀ i e s, match f i e s with Some (s', p') => R s s' ∧ steps p' | None => True end
  end.

Lemma steps_ret {A} (a : A) : steps (mret a).
Proof. done. Qed.

(** Only the values that the program can return need be considered. *)
Lemma steps_bind_returns {A B} (p : prog E S A) (Q : A → Prop) (k : A → prog E S B) :
  steps p → returns p Q → (∀ a, Q a → steps (k a)) → steps (p ≫= k).
Proof.
  change (p ≫= k) with (prog_bind k p). intros Hp HQ Hk.
  induction p as [a| |f IH] using prog_induction; simpl in *; [by apply Hk|done|].
  intros i e s. specialize (Hp i e s). specialize (HQ i e s). destruct (f i e s) as [[s1 p1]|] eqn:Ef; [|done].
  destruct Hp. split; [done|]. by eapply IH.
Qed.

Lemma steps_bind {A B} (p : prog E S A) (k : A → prog E S B) :
  steps p → (∀ a, steps (k a)) → steps (p ≫= k).
Proof. intros Hp Hk. apply (steps_bind_returns p (λ _, True)); [done|by apply returns_all|auto]. Qed.

Lemma steps_act {A} (f : nat → E → S → option (S * A)) :
  (∀ i e s, match f i e s with Some (s', _) => R s s' | None => True end) → steps (act f).
Proof. intros Hf i e s. specialize (Hf i e s). by destruct (f i e s) as [[s1 a]|]. Qed.

Lemma steps_iter {A} (f : A → prog E S unit) l : (∀ a, steps (f a)) → steps (prog_iter f l).
Proof. intros Hf. induction l as [|a l IH]; simpl; [done|]. apply steps_bind; [apply Hf|]. intros _. exact IH. Qed.

End steps.

Lemma steps_mono {E S A} (R R' : S → S → Prop) (p : prog E S A) :
  (∀ s s', R s s' → R' s s') → steps R p → steps R' p.
Proof.
  intros HR. induction p as [a| |f IH] using prog_induction; simpl; [done..|].
  intros Hp i e s. specialize (Hp i e s). destruct (f i e s) as [[s1 p1]|] eqn:Ef; [|done].
  destruct Hp. split; [by apply HR|]. by eapply IH.
Qed.

(** A program of one component acts on its part of the state only. *)
Lemma steps_onL {E1 S1 E2 S2 A} (R : S1 * S2 → S1 * S2 → Prop) (p : prog E1 S1 A) :
  (∀ a a' b, R (a, b) (a', b)) → steps R (onL (E2 := E2) p).
Proof.
  intros HR. unfold onL. induction p as [a| |f IH] using prog_induction; simpl; [done..|].
  intros i [e1 e2] [a b]. simpl. destruct (f i e1 a) as [[a' p']|] eqn:Ef; [|done]. split; [apply HR|by eapply IH].
Qed.

Lemma steps_onR {E1 S1 E2 S2 A} (R : S2 → S2 → Prop) (p : prog E2 S2 A) :
  steps R p → steps (λ s s' : S1 * S2, R s.2 s'.2) (onR (E1 := E1) p).
Proof.
  unfold onR. induction p as [a| |f IH] using prog_induction; simpl; [done..|].
  intros Hp i [e1 e2] [a b]. specialize (Hp i e2 b). simpl. destruct (f i e2 b) as [[b' p']|] eqn:Ef; [|done].
  destruct Hp. split; [done|by eapply IH].
Qed.

Lemma returns_onR {E1 S1 E2 S2 A} (p : prog E2 S2 A) Q :
  returns p Q → returns (onR (E1 := E1) (S1 := S1) p) Q.
Proof.
  unfold onR. induction p as [a| |f IH] using prog_induction; simpl; [done..|].
  intros Hp i [e1 e2] [a b]. specialize (Hp i e2 b). simpl. destruct (f i e2 b) as [[b' p']|] eqn:Ef; [|done].
  by eapply IH.
Qed.

(** ** What is owed *)
Section owes.
Context {E S : Type} (J : S → Prop) (g : S → Z).

(** The state keeps [J] and the figure does not change. *)
Definition neutral (s s' : S) : Prop := (J s → J s') ∧ g s' = g s.

(** From a program that owes [n], every value it returns comes with an allowed debt. *)
Fixpoint owes {A} (n : Z) (p : prog E S A) (Q : A → Z → Prop) : Prop :=
  match p with
  | Ret a => Q a n
  | Panic => True
  | Step f => ∀ i e s, match f i e s with
                       | Some (s', p') => (J s → J s') ∧ let n' := n + (g s' - g s) in 0 <= n' <= 1 ∧ owes n' p' Q
                       | None => True
                       end
  end.

Lemma owes_bind {A B} n (p : prog E S A) (k : A → prog E S B) Q :
  owes n p (λ a m, owes m (k a) Q) → owes n (p ≫= k) Q.
Proof.
  change (p ≫= k) with (prog_bind k p). revert n. induction p as [a| |f IH] using prog_induction; intros n; simpl; [done..|].
  intros Hp i e s. specialize (Hp i e s). destruct (f i e s) as [[s1 p1]|] eqn:Ef; [|done].
  destruct Hp as (HJ & Hn & Hp). split; [done|]. split; [done|]. by eapply IH.
Qed.

Lemma owes_weaken {A} n (p : prog E S A) (Q Q' : A → Z → Prop) :
  owes n p Q → (∀ a m, Q a m → Q' a m) → owes n p Q'.
Proof.
  intros Hp HQ. revert n Hp. induction p as [a| |f IH] using prog_induction; intros n; simpl; [apply HQ|done|].
  intros Hp i e s. specialize (Hp i e s). destruct (f i e s) as [[s1 p1]|] eqn:Ef; [|done].
  destruct Hp as (HJ & Hn & Hp). split; [done|]. split; [done|]. by eapply IH.
Qed.

Lemma owes_neutral {A} n (p : prog E S A) Q :
  0 <= n <= 1 → steps neutral p → returns p (λ a, Q a n) → owes n p Q.
Proof.
  intros Hn. induction p as [a| |f IH] using prog_induction; simpl; [done..|].
  intros Hp HQ i e s. specialize (Hp i e s). specialize (HQ i e s). destruct (f i e s) as [[s1 p1]|] eqn:Ef; [|done].
  destruct Hp as [[HJ Hg] Hp]. split; [done|]. rewrite Hg, Z.sub_diag, Z.add_0_r. split; [done|]. by eapply IH.
Qed.

Definition repaid {A} (a : A) (n : Z) : Prop := n = 0.

(** The goroutines of a pool with what each owes. *)
Definition balanced {A} (c : S * list (prog E S A)) : Prop :=
  J c.1 ∧ ∃ ns, Forall2 (λ n p, 0 <= n <= 1 ∧ owes n p repaid) ns c.2 ∧ g c.1 = foldr Z.add 0 ns.

Lemma foldr_add_insert ns i n n' :
  ns !! i = Some n → foldr Z.add 0 (<[i := n']> ns) = foldr Z.add 0 ns + (n' - n).
Proof.
  revert i. induction ns as [|m ns IH]; intros [|i] Hi; simplify_eq/=; [lia|]. rewrite (IH i) by done. lia.
Qed.

Lemma foldr_add_app l l' : foldr Z.add 0 (l ++ l') = foldr Z.add 0 l + foldr Z.add 0 l'.
Proof. induction l as [|x l IH]; simpl; lia. Qed.

Lemma balanced_reachable {A} tick_ok (arrive : S → S → prog E S A → Prop) s0 c :
  J s0 → g s0 = 0 → (∀ s s' p, arrive s s' p → neutral s s' ∧ owes 0 p repaid) →
  preachable tick_ok arrive s0 c → balanced c.
Proof.
  intros HJ0 Hg0 Ha. induction 1 as [|c c' _ IH Hstep]; [split; [done|]; by exists []|].
  destruct IH as (HJ & ns & Hns & Hg). destruct Hstep as [s ps i f e s' p' Hi _ Hf|s ps s' p Hp]; simpl in *.
  - destruct (Forall2_lookup_r _ _ _ _ _ Hns Hi) as (n & Hn & Hb & Ho). specialize (Ho i e s). rewrite Hf in Ho.
    destruct Ho as (HJ' & Hb' & Ho). split; [by apply HJ'|]. exists (<[i := n + (g s' - g s)]> ns).
    split; [by apply Forall2_insert|]. simpl. rewrite (foldr_add_insert ns i n) by done. lia.
  - destruct (Ha _ _ _ Hp) as [[HJ' Hg'] Ho]. split; [by apply HJ'|]. exists (ns ++ [0]).
    split; [apply Forall2_app; [done|by repeat constructor]|]. rewrite foldr_add_app. simpl. lia.
Qed.

(** The figure is within the number of goroutines, and gone when all have returned. *)
Lemma balanced_bounds {A} s (ps : list (prog E S A)) :
  balanced (s, ps) → 0 <= g s <= Z.of_nat (length ps).
Proof.
  intros (_ & ns & Hns & Hg). simpl in Hns, Hg. rewrite Hg. clear Hg. induction Hns as [|n p ns ps [Hb _] _ IH]; simpl; lia.
Qed.

Lemma balanced_returned {A} s (ps : list (prog E S A)) :
  balanced (s, ps) → (∀ i p, ps !! i = Some p → ∃ a, p = Ret a) → g s = 0.
Proof.
  intros (_ & ns & Hns & Hg) Hret. simpl in Hns, Hg. rewrite Hg. clear Hg. revert Hret. induction Hns as [|n p ns ps [_ Ho] _ IH]; [done|].
  intros Hret. destruct (Hret O p eq_refl) as [a ->]. simpl in *. unfold repaid in Ho. subst n.
  rewrite IH; [done|]. intros i q Hq. by apply (Hret (Datatypes.S i)).
Qed.

End owes.
