(* ===== verification/MetricsRun.v ===== *)
(** * internal/metrics in the running server

    Every goroutine of the server only changes the recorder through its methods, with
    arguments that keep the recorder's invariant; a connection lowers the gauge of
    connections before its goroutine returns. So whatever the clients send and
    however the goroutines interleave, the recorder is [recorded]. *)
From stdpp Require Import prelude gmap strings list.
From Stdlib Require Import ZArith Lia.
From S2P Require Import Prelude Float64 GoStd CachePolicy Config Cache CacheHeld Hotness Metrics MetricsRegistry.
From S2P Require Import ServiceBase Conc Steps Drain Service Views Admin Compatibility Proxy ProxyServer.
Local Open Scope Z_scope.

Module metricsrun.
Import gostd registry.

Create HintDb recorder.

Section service.
Context {F : Type} `{Float64 F} {U : Type} `{Upstream U} {G : Type} `{SingleFlight G}.
Context `{privacy.Deployment} (cfg : config.Config F).
Notation Sv := (service.Service F U G).
Notation P := (prog service.Tick Sv).
Import service.

(** The recorder changes, if at all, by methods that leave the connections alone. *)
Definition reports (s s' : Sv) : Prop := silent (recorder s) (recorder s').

Lemma r_record f : (∀ e r, silent r (f e r)) → steps reports (recordA f : P unit).
Proof. intros Hf. apply steps_act. intros i e s. apply Hf. Qed.

(** An action that does not touch the recorder. *)
Lemma r_act {A} (f : nat → service.Tick → Sv → option (Sv * A)) :
  (∀ i e s, match f i e s with Some (s', _) => recorder s' = recorder s | None => True end) →
  steps reports (act f).
Proof.
  intros Hf. apply steps_act. intros i e s. specialize (Hf i e s). destruct (f i e s) as [[s' a]|]; [|done].
  unfold reports. by rewrite Hf.
Qed.

End service.

Ltac quiet := intros; apply r_act; intros ???; repeat case_match; simplify_eq/=; done.

(** Walks through a program; the recorder's methods and the programs already dealt
    with are hints. *)
Ltac walk := repeat first
  [ match goal with |- steps _ (prog_iter _ _) => apply steps_iter; intros ? end
  | apply steps_ret | solve [auto 3 with recorder nocore]
  | apply steps_bind; [|intros ?]
  | apply r_record; intros ?? | progress cbv zeta | case_match | solve [quiet] ].

#[export] Hint Resolve silent_CacheHit silent_ObserveUpstream silent_Promotion silent_Demotion silent_Coalesced
  silent_ObserveCache silent_SetHotKeys silent_ObserveHotnessOversizedDrops silent_ObserveHotnessCapacityDrops : recorder.

Section programs.
Context {F : Type} `{Float64 F} {U : Type} `{Upstream U} {G : Type} `{SingleFlight G}.
Context `{privacy.Deployment} (cfg : config.Config F).
Notation Sv := (service.Service F U G).
Notation P := (prog service.Tick Sv).
Notation rep := (steps (reports (F := F) (U := U) (G := G))).
Import service.

Lemma r_clockNow : rep clockNow. Proof. quiet. Qed.
Lemma r_ctxErr : rep ctxErr. Proof. quiet. Qed.
Lemma r_cacheA {A} (f : Time → cache.Cache → cache.Cache * A) : rep (cacheA f). Proof. quiet. Qed.
Lemma r_probA {A} (f : Time → cache.Cache → cache.Cache * A) : rep (probA f). Proof. quiet. Qed.
Lemma r_trackerRead {A} (f : hotness.Tracker F → A) : rep (trackerRead f). Proof. quiet. Qed.
Lemma r_admit k : rep (admit_ k). Proof. quiet. Qed.
Lemma r_lock n : rep (lock n). Proof. quiet. Qed.
Lemma r_unlock n f : rep (unlock n f). Proof. quiet. Qed.
Lemma r_loadEpoch n : rep (loadEpoch n). Proof. quiet. Qed.
Lemma r_addEpoch n : rep (addEpoch n). Proof. quiet. Qed.
Lemma r_loadPromotion n : rep (loadPromotion n). Proof. quiet. Qed.
Lemma r_storePromotion n b : rep (storePromotion n b). Proof. quiet. Qed.
Lemma r_upstreamGetA k : rep (upstreamGetA k). Proof. quiet. Qed.
Lemma r_upstreamMGetA ks : rep (upstreamMGetA ks). Proof. quiet. Qed.
Lemma r_upstreamDoA c ks : rep (upstreamDoA c ks). Proof. quiet. Qed.
Lemma r_acquireGate n : rep (acquireGate n). Proof. quiet. Qed.
Lemma r_releaseGate n : rep (releaseGate n). Proof. quiet. Qed.
Lemma r_forget k : rep (forget k). Proof. quiet. Qed.
Lemma r_doChan k e p : rep (doChan k e p). Proof. quiet. Qed.
Lemma r_awaitFlight c : rep (awaitFlight c). Proof. quiet. Qed.
Lemma r_SetProxyActive b : rep (SetProxyActive b). Proof. quiet. Qed.

Lemma r_observe k : rep (observe k).
Proof.
  intros i e s. unfold observe. destruct (hotness.ObserveWithState _ _ _ _) as [[t o]|]; simpl; split; try done;
    unfold reports; reflexivity.
Qed.

#[local] Hint Resolve r_clockNow r_ctxErr r_cacheA r_probA r_trackerRead r_admit r_lock r_unlock r_loadEpoch r_addEpoch
  r_loadPromotion r_storePromotion r_upstreamGetA r_upstreamMGetA r_upstreamDoA r_acquireGate r_releaseGate r_forget
  r_doChan r_awaitFlight r_SetProxyActive r_observe : recorder.

Lemma r_observeCache : rep observeCache.
Proof. unfold observeCache. walk. Qed.
#[local] Hint Resolve r_observeCache : recorder.

Lemma r_getFreshProtected k : rep (getFreshProtected cfg k).
Proof. unfold getFreshProtected. walk. Qed.
Lemma r_cacheDelete k : rep (cacheDelete k).
Proof. unfold cacheDelete. walk. Qed.
Lemma r_probDelete k : rep (probDelete k).
Proof. unfold probDelete. walk. Qed.
#[local] Hint Resolve r_getFreshProtected r_cacheDelete r_probDelete : recorder.

Lemma r_applyLoop changed l : rep (applyLoop changed l).
Proof. revert changed. induction l as [|tr l IH]; intros changed; cbn [applyLoop]; walk. Qed.

Lemma r_applyTransitions l : rep (applyTransitions l).
Proof. unfold applyTransitions. apply steps_bind; [apply r_applyLoop|]. intros ?. walk. Qed.
#[local] Hint Resolve r_applyTransitions : recorder.

Lemma r_handleTransitions l : rep (handleTransitions l).
Proof. unfold handleTransitions. walk. Qed.
Lemma r_handleObservation o : rep (handleObservation o).
Proof. unfold handleObservation. walk. Qed.
#[local] Hint Resolve r_handleTransitions r_handleObservation : recorder.

Lemma r_promoteLocked n k : rep (promoteLocked cfg n k).
Proof. unfold promoteLocked. walk. Qed.
#[local] Hint Resolve r_promoteLocked : recorder.

Lemma r_getFreshCachedInState k st : rep (getFreshCachedInState cfg k st).
Proof. unfold getFreshCachedInState. walk. Qed.
Lemma r_storeLocal k v p : rep (storeLocal cfg k v p).
Proof. unfold storeLocal. walk. Qed.
Lemma r_storeProbationary k v p : rep (storeProbationary cfg k v p).
Proof. unfold storeProbationary. walk. Qed.
#[local] Hint Resolve r_getFreshCachedInState r_storeLocal r_storeProbationary : recorder.

Lemma r_reconcile k v e p : rep (reconcileLocalIfCurrent cfg k v e p).
Proof. unfold reconcileLocalIfCurrent, withCurrentCacheEpoch, reconcileBody. walk. Qed.
#[local] Hint Resolve r_reconcile : recorder.

Lemma r_invalidateLoop adv n ks : rep (invalidateLoop adv n ks).
Proof. revert adv n. induction ks as [|k ks IH]; intros adv n; cbn [invalidateLoop]; walk. Qed.
Lemma r_invalidateCacheKeys ks : rep (invalidateCacheKeys ks).
Proof. apply r_invalidateLoop. Qed.
#[local] Hint Resolve r_invalidateCacheKeys : recorder.

Lemma r_purgeAllCache : rep purgeAllCache.
Proof. unfold purgeAllCache, purgeTiers. walk. Qed.

Lemma r_finalizeWrite c args ks r : rep (finalizeWrite cfg c args ks r).
Proof. unfold finalizeWrite, writeThroughSet, writeThroughStore. walk. Qed.

Lemma r_release l : rep (releaseMutationStripes l).
Proof. unfold releaseMutationStripes. walk. Qed.
#[local] Hint Resolve r_purgeAllCache r_finalizeWrite r_release : recorder.

Lemma r_acquireLoop acq need : rep (acquireLoop acq need).
Proof. revert acq. induction need as [|n need IH]; intros acq; cbn [acquireLoop]; walk. Qed.

(** The reasons of an invalidation that the service gives. *)
Lemma silent_write r : silent r (metrics.Invalidation r "write").
Proof. apply silent_Invalidation. member. Qed.
Lemma silent_purge r : silent r (metrics.Invalidation r "admin_purge").
Proof. apply silent_Invalidation. member. Qed.
Lemma silent_miss r c policy state :
  silent r (metrics.CacheMissWithReason r c (svcbase.cacheMissReason policy state)).
Proof. apply silent_CacheMissWithReason. unfold svcbase.cacheMissReason. repeat case_match; done. Qed.
#[local] Hint Resolve silent_write silent_purge silent_miss : recorder.

Lemma r_ExecuteWrite c args ks : rep (ExecuteWrite cfg c args ks).
Proof. unfold ExecuteWrite, acquireMutationStripes. apply steps_bind; [apply r_acquireLoop|]. intros ?. walk. Qed.
Lemma r_PassThrough c args : rep (PassThrough c args).
Proof. unfold PassThrough. walk. Qed.
Lemma r_fetchUpstreamGet k : rep (fetchUpstreamGet k).
Proof. unfold fetchUpstreamGet. walk. Qed.
#[local] Hint Resolve r_fetchUpstreamGet : recorder.

Lemma r_flightBody fl : rep (flightBody cfg fl).
Proof. unfold flightBody. walk. Qed.

Lemma r_observeKey p k : rep (observeKey p k).
Proof. unfold observeKey. walk. Qed.
Lemma r_readCached p k st : rep (readCached cfg p k st).
Proof. unfold readCached. walk. Qed.
#[local] Hint Resolve r_observeKey r_readCached : recorder.

Lemma r_Get k : rep (Get cfg k).
Proof. unfold Get. walk. Qed.

Lemma r_mgetLocal i ks out missing : rep (mgetLocal cfg i ks out missing).
Proof. revert i out missing. induction ks as [|k ks IH]; intros i out missing; cbn [mgetLocal]; walk. Qed.
Lemma r_mgetStale missing out n : rep (mgetStale cfg missing out n).
Proof. revert out n. induction missing as [|m missing IH]; intros out n; cbn [mgetStale]; walk. Qed.
Lemma r_mgetStore vs missing out : rep (mgetStore cfg vs missing out).
Proof.
  revert missing out. induction vs as [|v vs IH]; intros [|m missing] out; cbn [mgetStore]; try done; walk.
Qed.
#[local] Hint Resolve r_mgetLocal r_mgetStale r_mgetStore : recorder.

Lemma r_MGet ks : rep (MGet cfg ks).
Proof. unfold MGet. walk. Qed.
Lemma r_PurgeCache k : rep (PurgeCache k).
Proof. unfold PurgeCache. walk. Qed.
Lemma r_Close : rep Close.
Proof. unfold Close. walk. Qed.

#[local] Hint Resolve r_ExecuteWrite r_PassThrough r_Get r_MGet r_PurgeCache : recorder.

(** ** The administrative views *)

Import views.

Lemma r_hotKeyRows out l : rep (hotKeyRows cfg out l).
Proof. revert out. induction l as [|sn l IH]; intros out; cbn [hotKeyRows]; walk. Qed.
#[local] Hint Resolve r_hotKeyRows : recorder.

Lemma r_StatusView : rep (StatusView cfg).
Proof. unfold StatusView, advanceA, cacheStats, metricsSnapshot, ping. walk. Qed.
Lemma r_HotKeys limit : rep (HotKeys cfg limit).
Proof. unfold HotKeys, advanceAndSnapshotA. walk. Qed.
Lemma r_CacheInfoView : rep CacheInfoView.
Proof. unfold CacheInfoView, cacheStats. walk. Qed.
Lemma r_Audit limit : rep (Audit cfg limit).
Proof. unfold Audit, advanceAndSnapshotA. walk. Qed.
#[local] Hint Resolve r_StatusView r_HotKeys r_CacheInfoView r_Audit : recorder.

Lemma r_serveHTTP r : rep (admin.serveHTTP cfg r).
Proof.
  unfold admin.serveHTTP, admin.handleHealthz, admin.handleReadyz, admin.handleStatus, admin.handleHotKeys,
    admin.handleAudit, admin.handleCache, admin.handleCachePurge, admin.purge, Ready, ping. walk.
Qed.

(** ** The command handler *)

Import proxy.

Lemma r_handleBody conn cmd : rep (handleBody cfg conn cmd).
Proof.
  unfold handleBody, handleGet, handleSwitch, handleMGet, handleWrite, handlePassThrough, finishAny, failArity. walk.
Qed.

(** Every path of the handler reports one of two results. *)
Lemma handleBody_result conn cmd :
  returns (handleBody (U := U) (G := G) cfg conn cmd) (λ x, x.2 ∈ resultLabels).
Proof.
  unfold handleBody, handleGet, handleSwitch, handleMGet, handleWrite, handlePassThrough, finishAny, failArity.
  cbv zeta.
  repeat first [ match goal with |- returns (mret (_, "ok"%string)) _ => left | |- returns (mret (_, "error"%string)) _ => right; left end
               | apply returns_bind, returns_all; intros ? | case_match ].
Qed.

Lemma r_handle conn cmd : rep (handle cfg conn cmd).
Proof.
  unfold handle. apply steps_bind; [apply r_clockNow|]. intros start.
  eapply steps_bind_returns; [apply r_handleBody|apply handleBody_result|]. intros [[c command] result] Hr.
  apply steps_bind; [|intros ?; apply steps_ret]. apply r_record. intros e r. by apply silent_ObserveRequest.
Qed.

(** ** The server *)

Import server.
Notation St := (drain.drainTracker * Sv)%type.

Definition Jr (s : St) : Prop := recorded (recorder s.2).
Definition gr (s : St) : Z := activeConnections (recorder s.2).
Notation owesR := (owes Jr gr).

Lemma n_drain {A} (p : prog drain.Tick drain.drainTracker A) :
  steps (neutral Jr gr) (onDrain (F := F) (U := U) (G := G) p).
Proof. apply steps_onL. by intros a a' b. Qed.

Lemma n_service {A} (p : P A) : rep p → steps (neutral Jr gr) (onService p).
Proof. intros Hp. exact (steps_onR _ p Hp). Qed.

Lemma o_open : owesR 0 (onService (recordA (λ _ r, metrics.ConnectionOpened r))) (λ _ n, n = 1).
Proof.
  intros i e s. simpl. split; [intros HJ; apply recorded_connection; [left|exact HJ]|].
  assert (gr (s.1, set_recorder s.2 (metrics.ConnectionOpened (recorder s.2))) = 1 + gr s) as -> by reflexivity. lia.
Qed.

Lemma o_close : owesR 1 (onService (recordA (λ _ r, metrics.ConnectionClosed r))) (λ _ n, n = 0).
Proof.
  intros i e s. simpl. split; [intros HJ; apply recorded_connection; [right; left|exact HJ]|].
  assert (gr (s.1, set_recorder s.2 (metrics.ConnectionClosed (recorder s.2))) = -1 + gr s) as -> by reflexivity. lia.
Qed.

(** A connection that was counted stays counted until it is closed. *)
Definition countedConn (conn : Conn) : Prop := ∃ st, context conn = Some st ∧ metricCounted st = true.

Lemma n_dispatch conn cmd : steps (neutral Jr gr) (dispatch cfg conn cmd).
Proof.
  unfold dispatch. case_if; [apply steps_ret|]. apply steps_bind; [apply n_drain|]. intros ok.
  case_if; [apply steps_ret|]. apply steps_bind; [apply n_service, r_handle|]. intros c. unfold finishHandler.
  apply steps_bind; [apply n_drain|]. intros dr. case_if; [apply steps_ret|]. cbv zeta.
  apply steps_bind; [apply n_drain|]. intros ?. apply steps_ret.
Qed.

Lemma c_call conn c : countedConn conn → countedConn (call conn c).
Proof. done. Qed.

Lemma c_stopDispatch conn : countedConn conn → countedConn (stopDispatch conn).
Proof.
  intros (st & Hc & Hm). unfold stopDispatch. rewrite Hc. simpl. case_if; [by exists st|]. eexists. by split.
Qed.

Lemma c_writeValue conn v : countedConn conn → countedConn (writeValue conn v).
Proof. unfold writeValue. by case_if. Qed.

Lemma c_writeValues vs conn : countedConn conn → countedConn (fold_left writeValue vs conn).
Proof. revert conn. induction vs as [|v vs IH]; intros conn Hc; simpl; [done|]. by apply IH, c_writeValue. Qed.

Lemma c_writeAny v : ∀ conn, countedConn conn → countedConn (writeAny conn v).
Proof.
  revert v. fix IH 1. intros [|s|z|z|z|b|b|l|t] conn Hc; cbn [writeAny]; try exact Hc; [by destruct b|].
  change (countedConn (write conn (WArray (length l)))) in Hc. revert Hc.
  generalize (write conn (WArray (length l))) as c.
  induction l as [|x l IHl]; intros c Hc; [exact Hc|]. apply IHl, IH, Hc.
Qed.

Lemma c_handleBody conn cmd :
  countedConn conn → returns (handleBody (U := U) (G := G) cfg conn cmd) (λ x, countedConn x.1.1).
Proof.
  intros Hc. unfold handleBody, handleGet, handleSwitch, handleMGet, handleWrite, handlePassThrough, finishAny, failArity.
  cbv zeta.
  repeat first [ match goal with |- returns (mret _) _ => cbn [returns mret prog_mret fst snd] end
               | apply returns_bind, returns_all; intros ? | case_match ];
    first [ by apply c_writeAny | by apply c_writeValue | by apply c_writeValues | by apply c_call, c_call, c_stopDispatch | done ].
Qed.

Lemma c_dispatch conn cmd : countedConn conn → returns (dispatch (U := U) (G := G) cfg conn cmd) countedConn.
Proof.
  intros Hc. unfold dispatch. case_if; [exact Hc|]. apply returns_bind, returns_all. intros ok.
  case_if; [by apply c_call, c_call, c_stopDispatch|]. apply returns_bind. apply returns_onR.
  unfold handle. apply returns_bind, returns_all. intros start. apply returns_bind.
  eapply returns_weaken; [by apply c_handleBody|]. intros [[c command] result] Hcc.
  apply returns_bind, returns_all. intros _. change (returns (finishHandler (F := F) (U := U) (G := G) c) countedConn).
  unfold finishHandler. apply returns_bind, returns_all. intros dr. case_if; [exact Hcc|]. cbv zeta.
  apply returns_bind, returns_all. intros _. by apply c_call, c_stopDispatch.
Qed.

Lemma o_acceptConnection net conn :
  owesR 0 (acceptConnection cfg net conn) (λ r n, if r.1 : bool then n = 1 ∧ countedConn r.2 else n = 0).
Proof.
  unfold acceptConnection. apply owes_bind, owes_neutral; [lia|apply n_drain|]. apply returns_all. intros r.
  destruct r; [|done..]. cbv zeta. apply owes_bind. eapply owes_weaken; [apply o_open|]. intros _ n ->.
  split; [done|]. eexists. by split.
Qed.

Lemma o_dispatchAll conn cmds : countedConn conn → owesR 1 (dispatchAll cfg conn cmds) (λ c n, n = 1 ∧ countedConn c).
Proof.
  revert conn. induction cmds as [|cmd cmds IH]; intros conn Hc; cbn [dispatchAll]; [done|].
  apply owes_bind, owes_neutral; [lia|apply n_dispatch|]. eapply returns_weaken; [by apply c_dispatch|]. apply IH.
Qed.

Lemma o_connectionClosed net conn : countedConn conn → owesR 1 (connectionClosed net conn) repaid.
Proof.
  intros (st & Hc & Hm). unfold connectionClosed. rewrite Hc, Hm. cbv zeta.
  apply owes_bind. eapply owes_weaken; [apply o_close|]. intros _ n ->.
  apply owes_bind, owes_neutral; [lia|apply n_drain|]. by apply returns_all.
Qed.

Lemma o_serveConnection net cmds : owesR 0 (serveConnection cfg net cmds) repaid.
Proof.
  unfold serveConnection. apply owes_bind. eapply owes_weaken; [apply o_acceptConnection|].
  intros [ok conn] n. destruct ok; [|by intros ->]. intros [-> Hc].
  apply owes_bind. eapply owes_weaken; [by apply o_dispatchAll|]. intros c n [-> Hc'].
  apply owes_bind. eapply owes_weaken; [by apply o_connectionClosed|]. by intros _ n ->.
Qed.

Lemma o_perform a : owesR 0 (perform cfg a) repaid.
Proof.
  destruct a as [net cmds|r|b| | | |]; cbn [perform]; [apply o_serveConnection|..];
    (apply owes_neutral; [lia| |by apply returns_all]).
  - apply steps_bind; [apply n_service, r_serveHTTP|]. intros ?. apply steps_ret.
  - apply n_service, r_SetProxyActive.
  - apply n_drain.
  - apply steps_bind; [apply n_drain|]. intros ?. apply steps_ret.
  - apply steps_bind; [apply n_drain|]. intros ?. apply steps_ret.
  - apply n_service, r_Close.
Qed.

Lemma server_balanced now u g c : reached cfg now u g c → balanced Jr gr c.
Proof.
  apply balanced_reachable.
  - apply silent_SetCacheLimits, recorded_New.
  - reflexivity.
  - intros s s' p Ha. destruct Ha as [s a|d s l1 fl l2 Hst]; (split; [done|]); [apply o_perform|].
    apply owes_neutral; [lia|apply n_service, r_flightBody|by apply returns_all].
Qed.

End programs.
End metricsrun.
