(* ===== verification/FakeUpstream.v ===== *)
(** * internal/testutil: the fake upstream and the fake clock

    The in-memory server that the tests of the service and of the proxy run against,
    with failures, delays and expiry. Each method holds the mutex of the fake while it
    works on the maps; the readings of [time.Now] and what the context says are
    arguments. [Get] has two critical sections, [beforeCall] and the lookup, between
    which it may wait.

    [store] is the reference: a map from keys to values with an optional expiry in
    which an expired key does not exist. It is what the fake stands for, not Redis:
    the options of SET are ignored, PERSIST answers one for a key without expiry. The
    fake keeps an expired value until it is read; GET, TTL and EXISTS treat such a
    leftover as absent, DEL, EXPIRE and PERSIST do not. *)
From stdpp Require Import prelude gmap strings list fin_maps fin_sets.
From Stdlib Require Import ZArith Lia.
From S2P Require Import Prelude GoStd ServiceBase.
Local Open Scope Z_scope.

Module fakeclock.

(** [FakeClock] *)
Record FakeClock := mkClock { now : Time }.

(** [time.Unix(0, 0)] is the start when none is given. *)
Definition NewFakeClock (start : Time) : FakeClock := mkClock (if start =? zeroTime then 0 else start).
Definition Now (c : FakeClock) : Time := now c.
Definition Advance (c : FakeClock) (d : Duration) : FakeClock := mkClock (t_add (now c) d).

End fakeclock.

Module testutil.
Import gostd upstream.

Record storedValue := mkStored { data : bytes; expiresAt : Time }.

Record FakeUpstream := mkFake {
  values : gmap string storedValue;
  fail : bool;
  getCalls : gmap string Z;
  doCalls : Z;
  doNil : bool;
  delay : Duration
}.

Definition NewFakeUpstream : FakeUpstream := mkFake ∅ false ∅ 0 false 0.

Definition set_values (f : FakeUpstream) (m : gmap string storedValue) : FakeUpstream :=
  mkFake m (fail f) (getCalls f) (doCalls f) (doNil f) (delay f).

Definition SetFailure (f : FakeUpstream) (b : bool) : FakeUpstream :=
  mkFake (values f) b (getCalls f) (doCalls f) (doNil f) (delay f).
Definition SetDelay (f : FakeUpstream) (d : Duration) : FakeUpstream :=
  mkFake (values f) (fail f) (getCalls f) (doCalls f) (doNil f) d.
Definition SetDoNil (f : FakeUpstream) (b : bool) : FakeUpstream :=
  mkFake (values f) (fail f) (getCalls f) (doCalls f) b (delay f).
Definition GetCallCount (f : FakeUpstream) (key : string) : Z := default 0 (getCalls f !! key).

Definition IsZero (t : Time) : bool := t =? zeroTime.

(** [expired] and [ttl] with their readings of the clock. *)
Definition expired (value : storedValue) (now : Time) : bool :=
  negb (IsZero (expiresAt value)) && (expiresAt value <? now).

Definition ttl (value : storedValue) (now : Time) : Duration :=
  if IsZero (expiresAt value) then -1 else t_sub (expiresAt value) now.

Definition Put (f : FakeUpstream) (now : Time) (key : string) (value : bytes) (d : Duration) : FakeUpstream :=
  let expires := if 0 <? d then t_add now d else zeroTime in
  set_values f (<[key := mkStored value expires]> (values f)).

Definition Ping (f : FakeUpstream) : option Err :=
  if fail f then Some "upstream unavailable"%string else None.

(** [beforeCall]: the context is checked first. *)
Definition beforeCall (f : FakeUpstream) (ctx : option Err) (key : string) : FakeUpstream * (Duration + Err) :=
  match ctx with
  | Some err => (f, inr err)
  | None =>
      if fail f then (f, inr "upstream unavailable"%string)
      else
        let f := if bool_decide (key = EmptyString) then f
                 else mkFake (values f) (fail f) (<[key := GetCallCount f key +i 1]> (getCalls f))
                        (doCalls f) (doNil f) (delay f) in
        (f, inl (delay f))
  end.

(** The second critical section of [Get]; [now'] is the reading of [ttl]. *)
Definition lookupValue (f : FakeUpstream) (now now' : Time) (key : string) : FakeUpstream * Value :=
  match values f !! key with
  | Some value =>
      if expired value now then (set_values f (delete key (values f)), noValue)
      else (f, mkValue (data value) true (ttl value now'))
  | None => (set_values f (delete key (values f)), noValue)
  end.

(** [ctx] is what the context says at the call, [ctx'] what ends the wait when there
    is a delay: the timer or the context. *)
Definition Get (f : FakeUpstream) (ctx ctx' : option Err) (now now' : Time) (key : string)
    : FakeUpstream * (Value + Err) :=
  match beforeCall f ctx key with
  | (f, inr err) => (f, inr err)
  | (f, inl d) =>
      match (if 0 <? d then ctx' else None) with
      | Some err => (f, inr err)
      | None => let '(f, v) := lookupValue f now now' key in (f, inl v)
      end
  end.

(** [MGet] with one context and clock for each of its calls. *)
Record reading := mkReading { rCtx : option Err; rCtx' : option Err; rNow : Time; rNow' : Time }.

Fixpoint MGet (f : FakeUpstream) (env : nat → reading) (i : nat) (keys : list string)
    : FakeUpstream * (list Value + Err) :=
  match keys with
  | [] => (f, inl [])
  | key :: keys' =>
      let e := env i in
      match Get f (rCtx e) (rCtx' e) (rNow e) (rNow' e) key with
      | (f, inr err) => (f, inr err)
      | (f, inl v) =>
          match MGet f env (S i) keys' with
          | (f, inl vs) => (f, inl (v :: vs))
          | (f, inr err) => (f, inr err)
          end
      end
  end.

(** ** Do *)

(** [strconv.Atoi] errors carry the text that was refused. *)
Inductive doError := Message (s : string) | AtoiError (text : string).

Definition wrongNumber : doError := Message "wrong number of arguments".

(** The loop of DEL and UNLINK, with the number of keys deleted so far. *)
Fixpoint delLoop (m : gmap string storedValue) (deleted : Z) (keys : list string) : gmap string storedValue * Z :=
  match keys with
  | [] => (m, deleted)
  | key :: keys' =>
      match m !! key with
      | Some _ => delLoop (delete key m) (deleted +i 1) keys'
      | None => delLoop m deleted keys'
      end
  end.

Fixpoint existsLoop (m : gmap string storedValue) (now : Time) (count : Z) (keys : list string) : Z :=
  match keys with
  | [] => count
  | key :: keys' =>
      match m !! key with
      | Some value => existsLoop m now (if expired value now then count else count +i 1) keys'
      | None => existsLoop m now count keys'
      end
  end.

(** The [switch] of [Do] on the stored values: [None] is a panic of the slice index.
    [now'] is the reading of [time.Until]. *)
Definition doSwitch (m : gmap string storedValue) (now now' : Time) (args : list string)
    : option (gmap string storedValue * (any + doError)) :=
  let cmd := ToUpper (default EmptyString (args !! O)) in
  if bool_decide (cmd = "SET"%string) then
    match args with
    | _ :: k :: v :: _ => Some (<[k := mkStored (bytes_of v) zeroTime]> m, inl (AnyString "OK"))
    | _ => Some (m, inr wrongNumber)
    end
  else if bool_decide (cmd ∈ ["SETEX"; "PSETEX"]%string) then
    match args with
    | [_; k; n; v] =>
        match Atoi n with
        | None => Some (m, inr (AtoiError n))
        | Some n =>
            let unit := if bool_decide (cmd = "SETEX"%string) then Second else Millisecond in
            Some (<[k := mkStored (bytes_of v) (t_add now (n *i unit))]> m, inl (AnyString "OK"))
        end
    | _ => Some (m, inr wrongNumber)
    end
  else if bool_decide (cmd ∈ ["DEL"; "UNLINK"]%string) then
    let '(m, deleted) := delLoop m 0 (drop 1 args) in Some (m, inl (AnyInt64 deleted))
  else if bool_decide (cmd ∈ ["EXPIRE"; "PEXPIRE"]%string) then
    match args with
    | [_; k; n] =>
        match m !! k with
        | None => Some (m, inl (AnyInt64 0))
        | Some value =>
            match Atoi n with
            | None => Some (m, inr (AtoiError n))
            | Some n =>
                let unit := if bool_decide (cmd = "EXPIRE"%string) then Second else Millisecond in
                Some (<[k := mkStored (data value) (t_add now (n *i unit))]> m, inl (AnyInt64 1))
            end
        end
    | _ => Some (m, inr wrongNumber)
    end
  else if bool_decide (cmd = "PERSIST"%string) then
    match args !! 1%nat with
    | None => None
    | Some k => match m !! k with
                | None => Some (m, inl (AnyInt64 0))
                | Some value => Some (<[k := mkStored (data value) zeroTime]> m, inl (AnyInt64 1))
                end
    end
  else if bool_decide (cmd ∈ ["TTL"; "PTTL"]%string) then
    match args !! 1%nat with
    | None => None
    | Some k =>
        match m !! k with
        | None => Some (m, inl (AnyInt64 (-2)))
        | Some value =>
            if expired value now then Some (m, inl (AnyInt64 (-2)))
            else if IsZero (expiresAt value) then Some (m, inl (AnyInt64 (-1)))
            else
              let left := t_sub (expiresAt value) now' in
              let unit := if bool_decide (cmd = "TTL"%string) then Second else Millisecond in
              Some (m, inl (AnyInt64 (Z.quot left unit)))
        end
    end
  else if bool_decide (cmd = "EXISTS"%string) then Some (m, inl (AnyInt64 (existsLoop m now 0 (drop 1 args))))
  else Some (m, inr (Message "unsupported fake command")).

Definition Do (f : FakeUpstream) (ctx : option Err) (now now' : Time) (args : list string)
    : option (FakeUpstream * (any + doError)) :=
  if bool_decide (args = []) then Some (f, inr (Message "empty command"))
  else
    match beforeCall f ctx EmptyString with
    | (f, inr err) => Some (f, inr (Message err))
    | (f, inl _) =>
        let f := mkFake (values f) (fail f) (getCalls f) (doCalls f +i 1) (doNil f) (delay f) in
        if doNil f then Some (f, inl AnyNil)
        else match doSwitch (values f) now now' args with
             | Some (m, r) => Some (set_values f m, r)
             | None => None
             end
    end.

End testutil.

(** ** The reference *)
Module store.
Import gostd upstream testutil.

Notation entries := (gmap string (bytes * option Time)).

Inductive command :=
  | SetValue (k : string) (v : bytes) (d : option Duration)
  | PutValue (k : string) (v : bytes) (d : option Duration)
  | Delete (ks : list string)
  | Expire (k : string) (d : Duration)
  | Persist (k : string)
  | TimeToLive (k : string) (unit : Duration)
  | Exists (ks : list string)
  | Read (k : string).

(** What is answered: the reply to a command, or the value of a read. *)
Inductive answer := Reply (a : any) | Found (v : Value) | Nothing.

Definition gone (now : Time) (e : bytes * option Time) : bool :=
  match e.2 with Some x => x <? now | None => false end.

Definition prune (now : Time) (m : entries) : entries := omap (λ e, if gone now e then None else Some e) m.

Definition remaining (now : Time) (e : bytes * option Time) : Duration :=
  match e.2 with Some x => t_sub x now | None => -1 end.

Definition update (m : entries) (now : Time) (c : command) : entries :=
  match c with
  | SetValue k v d | PutValue k v d => <[k := (v, t_add now <$> d)]> m
  | Delete ks => foldr delete m ks
  | Expire k d => match m !! k with Some e => <[k := (e.1, Some (t_add now d))]> m | None => m end
  | Persist k => match m !! k with Some e => <[k := (e.1, None)]> m | None => m end
  | TimeToLive _ _ | Exists _ | Read _ => m
  end.

Definition reply (m : entries) (now' : Time) (c : command) : answer :=
  match c with
  | SetValue _ _ _ => Reply (AnyString "OK")
  | PutValue _ _ _ => Nothing
  | Delete ks => Reply (AnyInt64 (Z.of_nat (size (dom m ∩ list_to_set ks))))
  | Expire k _ | Persist k => Reply (AnyInt64 (if bool_decide (is_Some (m !! k)) then 1 else 0))
  | TimeToLive k unit =>
      Reply (AnyInt64 (match m !! k with
                       | None => -2
                       | Some (_, None) => -1
                       | Some e => Z.quot (remaining now' e) unit
                       end))
  | Exists ks => Reply (AnyInt64 (Z.of_nat (length (filter (λ k, is_Some (m !! k)) ks))))
  | Read k => Found (match m !! k with Some e => mkValue e.1 true (remaining now' e) | None => noValue end)
  end.

(** One operation: expired keys are gone, before and after. *)
Definition step (m : entries) (now now' : Time) (c : command) : entries * answer :=
  let m := prune now m in (prune now (update m now c), reply m now' c).

(** ** The operations of the fake as commands of the reference *)

Inductive op := OPut (k : string) (v : bytes) (d : Duration) | OGet (k : string) | ODo (args : list string).

(** A [Do] that the fake supports, with arguments it accepts. *)
Definition parse (args : list string) : option command :=
  match args with
  | [] => None
  | name :: rest =>
      let cmd := ToUpper name in
      if bool_decide (cmd = "SET"%string) then
        match rest with k :: v :: _ => Some (SetValue k (bytes_of v) None) | _ => None end
      else if bool_decide (cmd ∈ ["SETEX"; "PSETEX"]%string) then
        let unit := if bool_decide (cmd = "SETEX"%string) then Second else Millisecond in
        match rest with
        | [k; n; v] => n ← Atoi n; Some (SetValue k (bytes_of v) (Some (n *i unit)))
        | _ => None
        end
      else if bool_decide (cmd ∈ ["DEL"; "UNLINK"]%string) then Some (Delete rest)
      else if bool_decide (cmd ∈ ["EXPIRE"; "PEXPIRE"]%string) then
        let unit := if bool_decide (cmd = "EXPIRE"%string) then Second else Millisecond in
        match rest with [k; n] => n ← Atoi n; Some (Expire k (n *i unit)) | _ => None end
      else if bool_decide (cmd = "PERSIST"%string) then k ← head rest; Some (Persist k)
      else if bool_decide (cmd ∈ ["TTL"; "PTTL"]%string) then
        let unit := if bool_decide (cmd = "TTL"%string) then Second else Millisecond in
        k ← head rest; Some (TimeToLive k unit)
      else if bool_decide (cmd = "EXISTS"%string) then Some (Exists rest)
      else None
  end.

Definition commandOf (o : op) : option command :=
  match o with
  | OPut k v d => Some (PutValue k v (if 0 <? d then Some d else None))
  | OGet k => Some (Read k)
  | ODo args => parse args
  end.

(** The operation on the fake, with a context that is not done. *)
Definition perform (f : FakeUpstream) (now now' : Time) (o : op) : option (FakeUpstream * answer) :=
  match o with
  | OPut k v d => Some (Put f now k v d, Nothing)
  | OGet k => match Get f None None now now' k with (f, inl v) => Some (f, Found v) | _ => None end
  | ODo args => match Do f None now now' args with Some (f, inl r) => Some (f, Reply r) | _ => None end
  end.

(** ** Refinement *)

Definition entry (v : storedValue) : bytes * option Time :=
  (data v, if IsZero (expiresAt v) then None else Some (expiresAt v)).

(** What exists at a time. *)
Definition live (now : Time) (m : gmap string storedValue) : entries :=
  omap (λ v, if expired v now then None else Some (entry v)) m.

(** The keys whose leftovers the command would find. *)
Definition touched (c : command) : list string :=
  match c with Delete ks => ks | Expire k _ | Persist k => [k] | _ => [] end.

Definition neat (m : gmap string storedValue) (now : Time) (c : command) : Prop :=
  ∀ k v, k ∈ touched c → m !! k = Some v → expired v now = false.

Definition keysOf (c : command) : list string := match c with Delete ks | Exists ks => ks | _ => [] end.

Lemma live_lookup now m k :
  live now m !! k = m !! k ≫= λ v, if expired v now then None else Some (entry v).
Proof. apply lookup_omap. Qed.

Lemma prune_lookup now m k : prune now m !! k = m !! k ≫= λ e, if gone now e then None else Some e.
Proof. apply lookup_omap. Qed.

Lemma gone_entry now v : gone now (entry v) = expired v now.
Proof. unfold gone, entry, expired. simpl. by destruct (IsZero (expiresAt v)). Qed.

Lemma prune_live now m : prune now (live now m) = live now m.
Proof.
  apply map_eq. intros k. rewrite prune_lookup, live_lookup. destruct (m !! k) as [v|]; simpl; [|done].
  destruct (expired v now) eqn:E; simpl; [done|]. by rewrite gone_entry, E.
Qed.

Lemma live_later now later m : now <= later → live later m = prune later (live now m).
Proof.
  intros Hle. apply map_eq. intros k. rewrite prune_lookup, !live_lookup. destruct (m !! k) as [v|]; simpl; [|done].
  destruct (expired v now) eqn:E; simpl.
  - unfold expired in *. apply andb_prop in E as [-> E]. ztests. assert ((expiresAt v <? later) = true) as -> by lia. done.
  - by rewrite gone_entry.
Qed.

Lemma live_insert now m k v : live now (<[k := v]> m) = prune now (<[k := entry v]> (live now m)).
Proof.
  apply map_eq. intros k'. rewrite prune_lookup, live_lookup. destruct (decide (k' = k)) as [->|Hk].
  - rewrite !lookup_insert_eq. simpl. by rewrite gone_entry.
  - rewrite !lookup_insert_ne by done. by rewrite <-live_lookup, <-prune_lookup, prune_live.
Qed.

Lemma live_delete now m k : live now (delete k m) = delete k (live now m).
Proof. apply omap_delete. Qed.

Lemma live_deletes now m ks : live now (foldr delete m ks) = foldr delete (live now m) ks.
Proof. induction ks as [|k ks IH]; simpl; [done|]. by rewrite live_delete, IH. Qed.

Lemma deletes_commute (m : gmap string storedValue) k ks : foldr delete (delete k m) ks = delete k (foldr delete m ks).
Proof. induction ks as [|k' ks IH]; simpl; [done|]. rewrite IH. apply delete_delete. Qed.

Lemma delLoop_spec ks m n :
  0 <= n → n + Z.of_nat (length ks) <= maxInt64 →
  delLoop m n ks = (foldr delete m ks, n + Z.of_nat (size (dom m ∩ list_to_set ks))).
Proof.
  revert m n. induction ks as [|k ks IH]; intros m n Hn Hle; cbn [delLoop foldr list_to_set length] in *.
  - assert (dom m ∩ ∅ = ∅) as -> by set_solver. rewrite size_empty. f_equal. lia.
  - destruct (m !! k) as [v|] eqn:Hk.
    + rewrite (i64_id (n + 1)) by width_lia. rewrite IH by lia. rewrite deletes_commute. f_equal.
      assert (dom m ∩ ({[k]} ∪ list_to_set ks) = {[k]} ∪ dom (delete k m) ∩ list_to_set ks) as ->.
      { assert (k ∈ dom m) by (by apply elem_of_dom_2 in Hk). rewrite dom_delete_L. apply set_eq. intros x.
        destruct (decide (x = k)); set_solver. }
      pose proof (size_union ({[k]} : gset string) (dom (delete k m) ∩ list_to_set ks)) as Hsz.
      rewrite Hsz by (rewrite dom_delete_L; set_solver). rewrite size_singleton. lia.
    + rewrite IH by lia. apply not_elem_of_dom in Hk. f_equal.
      * rewrite <-deletes_commute. by rewrite delete_id by (by apply not_elem_of_dom).
      * assert (dom m ∩ ({[k]} ∪ list_to_set ks) = dom m ∩ list_to_set ks) as -> by set_solver. done.
Qed.

Lemma existsLoop_spec ks m now n :
  0 <= n → n + Z.of_nat (length ks) <= maxInt64 →
  existsLoop m now n ks = n + Z.of_nat (length (filter (λ k, is_Some (live now m !! k)) ks)).
Proof.
  revert n. induction ks as [|k ks IH]; intros n Hn Hle; cbn [existsLoop length] in *; [simpl; lia|].
  rewrite filter_cons. rewrite live_lookup. destruct (m !! k) as [v|]; simpl.
  - destruct (expired v now); simpl.
    + apply IH; lia.
    + rewrite i64_id by width_lia. rewrite IH by lia. simpl. lia.
  - apply IH; lia.
Qed.

(** No duration reaches back from a time after the epoch to the zero time. *)
Lemma not_zero now d : 0 <= now → in_i64 d → IsZero (t_add now d) = false.
Proof. unfold IsZero, t_add, zeroTime, in_i64, minInt64. intros Hn Hd. apply Z.eqb_neq. width_lia. Qed.

Lemma entry_expiring now v d : 0 <= now → in_i64 d → entry (mkStored v (t_add now d)) = (v, Some (t_add now d)).
Proof. intros Hn Hd. unfold entry. simpl. by rewrite not_zero. Qed.

(** What a command that touches a key without leftover finds. *)
Lemma neat_lookup m now k v : m !! k = Some v → expired v now = false → live now m !! k = Some (entry v).
Proof. intros Hk He. rewrite live_lookup, Hk. simpl. by rewrite He. Qed.

Lemma live_missing m now k : m !! k = None → live now m !! k = None.
Proof. intros Hk. by rewrite live_lookup, Hk. Qed.

Lemma neat_dom m now ks :
  (∀ k v, k ∈ ks → m !! k = Some v → expired v now = false) →
  dom (live now m) ∩ list_to_set ks = dom m ∩ list_to_set ks.
Proof.
  intros Hn. apply set_eq. intros k. rewrite !elem_of_intersection, elem_of_list_to_set, !elem_of_dom.
  split; intros [[x Hx] Hk]; (split; [|done]).
  - rewrite live_lookup in Hx. destruct (m !! k) as [v|]; [by eexists|done].
  - exists (entry x). apply neat_lookup; [done|]. by eapply Hn.
Qed.

Notation refined m now now' c m' a := (step (live now m) now now' c = (live now m', a)).

Lemma step_live m now now' c :
  step (live now m) now now' c = (prune now (update (live now m) now c), reply (live now m) now' c).
Proof. unfold step. cbv zeta. by rewrite prune_live. Qed.

Lemma set_refines m now k v d :
  0 <= now → (∀ x, d = Some x → in_i64 x) →
  prune now (update (live now m) now (SetValue k v d)) = live now (<[k := mkStored v (from_option (t_add now) zeroTime d)]> m).
Proof.
  intros Hn Hd. rewrite live_insert. simpl. f_equal. f_equal. destruct d as [d|]; simpl; [|done].
  by rewrite entry_expiring by auto.
Qed.

Lemma del_refines_store m now now' ks :
  Z.of_nat (length ks) <= maxInt64 → neat m now (Delete ks) →
  let '(m', n) := delLoop m 0 ks in refined m now now' (Delete ks) m' (Reply (AnyInt64 n)).
Proof.
  intros Hl Hn. rewrite delLoop_spec by lia. rewrite step_live. cbn [update reply].
  rewrite <-live_deletes, prune_live. by rewrite neat_dom by exact Hn.
Qed.

Lemma expire_refines m now now' k d :
  0 <= now → in_i64 d → neat m now (Expire k d) →
  match m !! k with
  | None => refined m now now' (Expire k d) m (Reply (AnyInt64 0))
  | Some v => refined m now now' (Expire k d) (<[k := mkStored (data v) (t_add now d)]> m) (Reply (AnyInt64 1))
  end.
Proof.
  intros Hn Hd Hneat. destruct (m !! k) as [v|] eqn:Hk; rewrite step_live; cbn [update reply].
  - rewrite (neat_lookup m now k v) by (done || (eapply Hneat; [left|done])). by rewrite live_insert, entry_expiring.
  - rewrite live_missing by done. by rewrite prune_live.
Qed.

Lemma persist_refines m now now' k :
  neat m now (Persist k) →
  match m !! k with
  | None => refined m now now' (Persist k) m (Reply (AnyInt64 0))
  | Some v => refined m now now' (Persist k) (<[k := mkStored (data v) zeroTime]> m) (Reply (AnyInt64 1))
  end.
Proof.
  intros Hneat. destruct (m !! k) as [v|] eqn:Hk; rewrite step_live; cbn [update reply].
  - rewrite (neat_lookup m now k v) by (done || (eapply Hneat; [left|done])). by rewrite live_insert.
  - rewrite live_missing by done. by rewrite prune_live.
Qed.

Lemma ttl_refines m now now' k unit :
  step (live now m) now now' (TimeToLive k unit) =
    (live now m, Reply (AnyInt64 (match m !! k with
                                  | None => -2
                                  | Some v => if expired v now then -2 else if IsZero (expiresAt v) then -1
                                              else Z.quot (t_sub (expiresAt v) now') unit
                                  end))).
Proof.
  rewrite step_live. cbn [update reply]. rewrite prune_live, live_lookup. destruct (m !! k) as [v|]; simpl; [|done].
  destruct (expired v now); [done|]. unfold entry. by destruct (IsZero (expiresAt v)).
Qed.

Lemma doSwitch_refines m now now' args c :
  parse args = Some c → 0 <= now → Z.of_nat (length (keysOf c)) <= maxInt64 → neat m now c →
  ∃ m' r, doSwitch m now now' args = Some (m', inl r) ∧ refined m now now' c m' (Reply r).
Proof.
  intros Hp Hn Hl Hneat. destruct args as [|name rest]; [done|]. unfold parse in Hp. unfold doSwitch.
  cbn [lookup list_lookup skipn from_option id] in *. change (drop 0 rest) with rest.
  destruct (bool_decide (ToUpper name = "SET"%string)).
  { destruct rest as [|k [|v rest]]; simplify_eq. eexists _, _. split; [done|]. rewrite step_live.
    f_equal. by apply (set_refines m now k (bytes_of v) None). }
  destruct (bool_decide (ToUpper name ∈ ["SETEX"; "PSETEX"]%string)).
  { destruct rest as [|k [|n [|v [|]]]]; simplify_eq. destruct (Atoi n) as [x|]; simplify_eq/=.
    eexists _, _. split; [done|]. rewrite step_live. f_equal.
    apply (set_refines m now k (bytes_of v) (Some _)); [done|]. intros y [= <-]. apply i64_range. }
  destruct (bool_decide (ToUpper name ∈ ["DEL"; "UNLINK"]%string)).
  { simplify_eq. pose proof (del_refines_store m now now' rest Hl Hneat) as Hd. destruct (delLoop m 0 rest) as [m' n].
    by eexists _, _. }
  destruct (bool_decide (ToUpper name ∈ ["EXPIRE"; "PEXPIRE"]%string)).
  { destruct rest as [|k [|n [|]]]; simplify_eq. destruct (Atoi n) as [x|] eqn:Hx; simplify_eq/=.
    pose proof (expire_refines m now now' k _ Hn (i64_range _) Hneat) as He.
    destruct (m !! k); by eexists _, _. }
  destruct (bool_decide (ToUpper name = "PERSIST"%string)).
  { destruct rest as [|k rest]; simplify_eq/=. pose proof (persist_refines m now now' k Hneat) as He.
    destruct (m !! k); by eexists _, _. }
  destruct (bool_decide (ToUpper name ∈ ["TTL"; "PTTL"]%string)).
  { destruct rest as [|k rest]; simplify_eq/=. rewrite ttl_refines.
    destruct (m !! k) as [v|]; [destruct (expired v now); [|destruct (IsZero (expiresAt v))]|]; by eexists _, _. }
  destruct (bool_decide (ToUpper name = "EXISTS"%string)); simplify_eq.
  eexists _, _. split; [done|]. rewrite step_live. cbn [update reply keysOf] in *. rewrite prune_live.
  by rewrite existsLoop_spec by lia.
Qed.

(** One operation refines one command. *)
Lemma perform_refines f now now' o c :
  commandOf o = Some c → fail f = false → doNil f = false → delay f = 0 → 0 <= now →
  (∀ k v d, o = OPut k v d → in_i64 d) →
  Z.of_nat (length (keysOf c)) <= maxInt64 → neat (values f) now c →
  ∃ f' a, perform f now now' o = Some (f', a) ∧ refined (values f) now now' c (values f') a ∧
          fail f' = false ∧ doNil f' = false ∧ delay f' = 0.
Proof.
  intros Hc Hf Hnil Hdel Hn Hr Hl Hneat. destruct o as [k v d|k|args]; simpl in Hc; simplify_eq.
  - specialize (Hr k v d eq_refl). eexists _, _. split; [done|]. split; [|done]. rewrite step_live. f_equal.
    pose proof (set_refines (values f) now k v (if 0 <? d then Some d else None) Hn) as Hs. simpl in Hs |- *.
    refine (eq_trans (Hs _) _); [by destruct (0 <? d); intros ? [= <-]|by destruct (0 <? d)].
  - unfold perform, Get, beforeCall. rewrite Hf. cbv zeta.
    set (f1 := if bool_decide (k = EmptyString) then f else _).
    assert (Hv : values f1 = values f ∧ fail f1 = false ∧ doNil f1 = false ∧ delay f1 = 0) by (unfold f1; by case_bool_decide).
    destruct Hv as (Hv & Hf1 & Hn1 & Hd1). rewrite Hd1. cbn [Z.ltb Z.compare]. unfold lookupValue. rewrite Hv.
    destruct (values f !! k) as [v|] eqn:Hk; [destruct (expired v now) eqn:He|]; (eexists _, _; split; [done|]);
      (split; [|done]); rewrite step_live; cbn [update reply set_values values]; rewrite prune_live, ?Hv.
    + rewrite live_lookup, Hk. simpl. rewrite He. f_equal. rewrite live_delete. symmetry. apply delete_id.
      rewrite live_lookup, Hk. simpl. by rewrite He.
    + rewrite live_lookup, Hk. simpl. rewrite He. f_equal. f_equal. unfold entry, ttl, remaining. simpl.
      by destruct (IsZero (expiresAt v)).
    + rewrite live_missing by done. f_equal. rewrite live_delete. symmetry. apply delete_id. by apply live_missing.
  - unfold perform, Do, beforeCall. rewrite Hf. assert (args ≠ []) by (by intros ->).
    rewrite bool_decide_false by done. rewrite bool_decide_true by done. cbn [doNil values]. rewrite Hnil.
    destruct (doSwitch_refines (values f) now now' args c Hc Hn Hl Hneat) as (m' & r & -> & Hs).
    by eexists _, _.
Qed.

(** ** Sequences of operations, at times that do not go back *)

Record call := mkCall { cNow : Time; cNow' : Time; cOp : op }.

Fixpoint performAll (f : FakeUpstream) (l : list call) : option (FakeUpstream * list answer) :=
  match l with
  | [] => Some (f, [])
  | c :: l' =>
      '(f, a) ← perform f (cNow c) (cNow' c) (cOp c);
      '(f, as_) ← performAll f l';
      Some (f, a :: as_)
  end.

Fixpoint stepAll (m : entries) (l : list (Time * Time * command)) : entries * list answer :=
  match l with
  | [] => (m, [])
  | (now, now', c) :: l' =>
      let '(m, a) := step m now now' c in
      let '(m, as_) := stepAll m l' in (m, a :: as_)
  end.

Definition neatb (m : gmap string storedValue) (now : Time) (c : command) : bool :=
  forallb (λ k, match m !! k with Some v => negb (expired v now) | None => true end) (touched c).

Lemma neatb_neat m now c : neatb m now c = true → neat m now c.
Proof.
  intros Hb k v Hk Hv. unfold neatb in Hb. rewrite forallb_forall in Hb. apply list_elem_of_In, Hb in Hk.
  rewrite Hv in Hk. by apply negb_true_iff.
Qed.

Definition lifetimeb (o : op) : bool :=
  match o with OPut _ _ d => (minInt64 <=? d) && (d <=? maxInt64) | _ => true end.

(** Each call is accepted, no earlier than the one before, and meets no leftover of a
    key it would touch. *)
Fixpoint proper (f : FakeUpstream) (t : Time) (l : list call) : bool :=
  match l with
  | [] => true
  | c :: l' =>
      (t <=? cNow c) && lifetimeb (cOp c) &&
      match commandOf (cOp c), perform f (cNow c) (cNow' c) (cOp c) with
      | Some cmd, Some (f', _) =>
          (Z.of_nat (length (keysOf cmd)) <=? maxInt64) && neatb (values f) (cNow c) cmd && proper f' (cNow c) l'
      | Some cmd, None => (Z.of_nat (length (keysOf cmd)) <=? maxInt64) && neatb (values f) (cNow c) cmd
      | None, _ => false
      end
  end.

Definition commandsOf (l : list call) : list (Time * Time * command) :=
  omap (λ c, (λ cmd, (cNow c, cNow' c, cmd)) <$> commandOf (cOp c)) l.

Lemma prune_twice t now m : t <= now → prune now (prune t m) = prune now m.
Proof.
  intros Ht. apply map_eq. intros k. rewrite !prune_lookup. destruct (m !! k) as [e|]; simpl; [|done].
  destruct (gone t e) eqn:E; simpl; [|done]. unfold gone in *. destruct (e.2) as [x|]; [|done]. ztests.
  by assert ((x <? now) = true) as -> by lia.
Qed.

Lemma perform_all_refines l f t :
  proper f t l = true → 0 <= t → fail f = false → doNil f = false → delay f = 0 →
  ∃ f' as_, performAll f l = Some (f', as_) ∧ (stepAll (live t (values f)) (commandsOf l)).2 = as_.
Proof.
  revert f t. induction l as [|[now now' o] l IH]; intros f t Hp Ht Hf Hnil Hd; [by eexists _, _|].
  cbn [proper cNow cNow' cOp performAll commandsOf omap list_omap] in *. apply andb_prop in Hp as [[Hle Hr]%andb_prop Hp].
  destruct (commandOf o) as [c|] eqn:Ho; [|done].
  assert (HH : (Z.of_nat (length (keysOf c)) <=? maxInt64) && neatb (values f) now c = true)
    by (destruct (perform f now now' o) as [[??]|]; [by apply andb_prop in Hp as [??]|done]).
  apply andb_prop in HH as [Hl Hneat%neatb_neat]. ztests.
  assert (Hr' : ∀ k v d, o = OPut k v d → in_i64 d) by (intros k v d ->; simpl in Hr; unfold in_i64; lia).
  destruct (perform_refines f now now' o c Ho Hf Hnil Hd ltac:(lia) Hr' Hl Hneat) as (f' & a & He & Hs & Hf' & Hn' & Hd').
  rewrite He in Hp |- *. apply andb_prop in Hp as [_ Hp]. destruct (IH f' now Hp ltac:(lia) Hf' Hn' Hd') as (f'' & as_ & He2 & Hs2).
  cbn [mbind option_bind]. rewrite He2. cbn [mbind option_bind]. eexists _, _. split; [done|].
  cbn [fmap option_fmap option_map stepAll].
  assert (step (live t (values f)) now now' c = step (live now (values f)) now now' c) as ->.
  { rewrite (live_later t now) by done. unfold step. by rewrite prune_twice. }
  rewrite Hs. change (omap _ l) with (commandsOf l). rewrite <-Hs2. by destruct (stepAll _ _).
Qed.

End store.

Import gostd upstream testutil store.

(** C40. The fake upstream is an expiring key-value store. For any sequence of Put, Get
    and supported Do calls at times that do not go back, in which DEL, EXPIRE and
    PERSIST meet no expired leftover, no call fails or panics and every answer (the
    replies, the values read with their remaining lifetimes, the counts of DEL and
    EXISTS) is that of the reference store started from what exists in the fake. *)
Theorem fake_refines_store l f t :
  proper f t l = true → 0 <= t → fail f = false → doNil f = false → delay f = 0 →
  ∃ f' answers, performAll f l = Some (f', answers) ∧ (stepAll (live t (values f)) (commandsOf l)).2 = answers.
Proof. exact (perform_all_refines l f t). Qed.

(** A key with a lifetime of one second is read, expires, is set again and deleted. *)
Definition fake_calls : list call :=
  [mkCall 0 0 (ODo ["setex"; "k"; "1"; "v"]); mkCall Second Second (OGet "k"); mkCall (Second + 1) (Second + 1) (OGet "k");
   mkCall (2 * Second) (2 * Second) (OPut "k" (bytes_of "w") 0); mkCall (2 * Second) (2 * Second) (ODo ["PTTL"; "k"]);
   mkCall (3 * Second) (3 * Second) (ODo ["DEL"; "k"; "k"; "j"])]%string.

Lemma fake_refines_store_witness :
  (stepAll ∅ (commandsOf fake_calls)).2 =
    [Reply (AnyString "OK"); Found (mkValue (bytes_of "v") true 0); Found noValue; Nothing; Reply (AnyInt64 (-1));
     Reply (AnyInt64 1)].
Proof.
  destruct (fake_refines_store fake_calls NewFakeUpstream 0) as (f' & answers & Hp & Hs);
    [vm_compute; reflexivity|lia|reflexivity..|].
  vm_compute in Hp. injection Hp as _ <-. exact Hs.
Defined.

(** An expired leftover is absent for EXISTS, yet EXPIRE finds it and brings it back. *)
Example leftover_revived :
  performAll NewFakeUpstream
    [mkCall 0 0 (ODo ["SETEX"; "k"; "1"; "v"]); mkCall (2 * Second) (2 * Second) (ODo ["EXISTS"; "k"]);
     mkCall (2 * Second) (2 * Second) (ODo ["EXPIRE"; "k"; "9"]); mkCall (2 * Second) (2 * Second) (ODo ["EXISTS"; "k"])]%string
  ≫= (λ x, Some x.2) =
  Some [Reply (AnyString "OK"); Reply (AnyInt64 0); Reply (AnyInt64 1); Reply (AnyInt64 1)].
Proof. vm_compute. reflexivity. Qed.
