(* ===== verification/StatusJSON.v ===== *)
(** * The status, from the daemon to the benchmarks

    The JSON text that the admin API writes for a status (service.Status, written by
    [writeJSON] of internal/admin with an indent of two spaces), and what slizenctl
    makes of it: [readStatusSnapshot] and [decodeStatusSnapshot] of benchmark.go, with
    [json.Unmarshal] into a struct. A member is stored in the field whose name it has
    up to case; null leaves the field as it is; the last member counts; an integer
    field takes only plain integers of its range, a string field only strings, and
    any other value is an error; other members are ignored. *)
From stdpp Require Import prelude gmap strings list pretty.
From Stdlib Require Import ZArith Lia Ascii.
From S2P Require Import Prelude Float64 GoStd GoText GoTime GoJSON GoJSONValue.
From S2P Require Import ServiceBase Conc Service Views Workload Benchmark Ctl.
Local Open Scope Z_scope.

Module statusjson.
Import gostd gotext gojson gojsonvalue views benchmark ctl.

(** A number as its text has it: [strconv.ParseUint] and [ParseInt] read the digits. *)
Record token := mkToken { tNeg : bool; tDigits : Z; tPlain : bool }.

#[export] Instance exact : DecimalFloat token := {| ofDecimal neg m _ _ plain := Some (mkToken neg m plain) |}.

(** ** Encoding *)

Inductive jscalar := SText (s : string) | SNumber (z : Z).

Definition marshalScalar (v : jscalar) : list Z :=
  match v with SText s => appendString (codes s) | SNumber z => codes (Itoa z) end.

Definition fieldText (f : string * jscalar) : list Z :=
  [10; 32; 32] ++ appendString (codes f.1) ++ [58; 32] ++ marshalScalar f.2.

(** The fields from the second on, and the end of the object. *)
Fixpoint fieldsText (l : list (string * jscalar)) : list Z :=
  match l with
  | [] => [10; 125; 10]
  | f :: l' => 44 :: fieldText f ++ fieldsText l'
  end.

(** [Encode] of a struct with at least one field, indented. *)
Definition marshalIndent (l : list (string * jscalar)) : list Z :=
  match l with
  | [] => [123; 125; 10]
  | f :: l' => 123 :: fieldText f ++ fieldsText l'
  end.

(** The fields of [service.Status] under their names. *)
Definition statusFields (st : Status) : list (string * jscalar) :=
  ([("version", SText (stVersion st))]%string
   ++ (if bool_decide (stCommit st = EmptyString) then [] else [("commit", SText (stCommit st))]%string)
   ++ [("mode", SText (stMode st)); ("key_visibility", SText (stKeyVisibility st)); ("uptime", SText (stUptime st));
       ("upstream_status", SText (stUpstreamStatus st)); ("cache_bytes", SNumber (stCacheBytes st));
       ("cache_entries", SNumber (stCacheEntries st)); ("tracked_keys", SNumber (stTrackedKeys st));
       ("hot_keys", SNumber (stHotKeys st)); ("total_requests", SNumber (stTotalRequests st));
       ("cache_hits", SNumber (stCacheHits st)); ("cache_misses", SNumber (stCacheMisses st));
       ("cache_misses_policy_bypass", SNumber (stCacheMissesPolicyBypass st));
       ("cache_misses_not_admitted", SNumber (stCacheMissesNotAdmitted st));
       ("cache_misses_not_present", SNumber (stCacheMissesNotPresent st));
       ("upstream_requests", SNumber (stUpstreamRequests st)); ("requests_total", SNumber (stRequestsTotal st));
       ("cache_hits_total", SNumber (stCacheHitsTotal st)); ("cache_misses_total", SNumber (stCacheMissesTotal st));
       ("upstream_requests_total", SNumber (stUpstreamRequestsTotal st));
       ("upstream_gets_total", SNumber (stUpstreamGetsTotal st));
       ("invalidations_total", SNumber (stInvalidationsTotal st)); ("promotions_total", SNumber (stPromotionsTotal st));
       ("demotions_total", SNumber (stDemotionsTotal st));
       ("coalesced_requests_total", SNumber (stCoalescedRequestsTotal st)); ("promotions", SNumber (stPromotions st));
       ("demotions", SNumber (stDemotions st)); ("coalesced_requests", SNumber (stCoalescedRequests st))]%string)%list.

Definition statusBody (st : Status) : list Z := marshalIndent (statusFields st).

(** ** Decoding *)

Definition maxStatusResponseBytes : Z := 65536.

Notation jany := (any token).

Definition decodeText (current : string) (v : jany) : option string :=
  match v with JNull => Some current | JString s => Some s | _ => None end.

(** A [uint64] field: [strconv.ParseUint] takes no sign. *)
Definition decodeUint (current : Z) (v : jany) : option Z :=
  match v with
  | JNull => Some current
  | JNumber t => if tPlain t && negb (tNeg t) && (tDigits t <? two64) then Some (tDigits t) else None
  | _ => None
  end.

(** An [int] or [int64] field. *)
Definition decodeInt (current : Z) (v : jany) : option Z :=
  match v with
  | JNull => Some current
  | JNumber t =>
      let z := if tNeg t then - tDigits t else tDigits t in
      if tPlain t && (minInt64 <=? z) && (z <=? maxInt64) then Some z else None
  | _ => None
  end.

(** What the members leave in one field, named in upper case. Fields do not share
    names, so each can be decoded by itself. *)
Fixpoint decodeField {A} (dec : A → jany → option A) (name : string) (current : A) (l : list (string * jany)) : option A :=
  match l with
  | [] => Some current
  | (n, v) :: l' =>
      if EqualFold n name then match dec current v with Some x => decodeField dec name x l' | None => None end
      else decodeField dec name current l'
  end.

Definition decodeMembers (l : list (string * jany)) : option statusSnapshot :=
  let text name := decodeField decodeText name EmptyString l in
  let uint name := decodeField decodeUint name 0 l in
  let int name := decodeField decodeInt name 0 l in
  version ← text "VERSION"%string;
  commit ← text "COMMIT"%string;
  mode ← text "MODE"%string;
  visibility ← text "KEY_VISIBILITY"%string;
  uptime ← text "UPTIME"%string;
  requests ← uint "REQUESTS_TOTAL"%string;
  hits ← uint "CACHE_HITS_TOTAL"%string;
  misses ← uint "CACHE_MISSES_TOTAL"%string;
  bypass ← uint "CACHE_MISSES_POLICY_BYPASS"%string;
  notAdmitted ← uint "CACHE_MISSES_NOT_ADMITTED"%string;
  notPresent ← uint "CACHE_MISSES_NOT_PRESENT"%string;
  upstreamRequests ← uint "UPSTREAM_REQUESTS_TOTAL"%string;
  upstreamGETs ← uint "UPSTREAM_GETS_TOTAL"%string;
  coalesced ← uint "COALESCED_REQUESTS_TOTAL"%string;
  invalidations ← uint "INVALIDATIONS_TOTAL"%string;
  promotions ← uint "PROMOTIONS_TOTAL"%string;
  demotions ← uint "DEMOTIONS_TOTAL"%string;
  entries ← int "CACHE_ENTRIES"%string;
  bytes ← int "CACHE_BYTES"%string;
  hot ← int "HOT_KEYS"%string;
  Some (mkStatusSnapshot version commit mode visibility uptime requests hits misses bypass notAdmitted notPresent
          upstreamRequests upstreamGETs coalesced invalidations promotions demotions entries bytes hot).

(** [statusSnapshot{}] *)
Definition emptySnapshot : statusSnapshot :=
  mkStatusSnapshot EmptyString EmptyString EmptyString EmptyString EmptyString 0 0 0 0 0 0 0 0 0 0 0 0 0 0 0.

Definition decodeStatusSnapshot (r : httpResponse) : res cliError statusSnapshot :=
  data ← readAll (maxStatusResponseBytes + 1) r;
  if maxStatusResponseBytes <? Z.of_nat (length data)
  then Fail (Message ("GET /v1/status response exceeds " ++ Itoa maxStatusResponseBytes ++ " bytes"))
  else match Unmarshal data with
       | None => Fail InvalidJSON
       | Some JNull => Ok emptySnapshot
       | Some (JObject l) => match decodeMembers l with Some s => Ok s | None => Fail InvalidJSON end
       | Some _ => Fail InvalidJSON
       end.

Definition readStatusSnapshot (w : web) (adminURL : string) : res cliError statusSnapshot :=
  resp ← passed (clientGet w (endpoint adminURL "/v1/status"));
  if (StatusCode resp <? 200) || (300 <=? StatusCode resp)
  then Fail (Message ("GET /v1/status returned " ++ StatusLine resp))
  else decodeStatusSnapshot resp.

(** ** Reading back what was written *)

Lemma code_digit d : (d < 10)%N → byteCode (pretty_N_char d) = 48 + Z.of_N d.
Proof.
  intros Hd. assert (Hc : ∀ n, (n < 10)%nat → byteCode (pretty_N_char (N.of_nat n)) = 48 + Z.of_N (N.of_nat n)).
  { intros n Hn. do 10 (destruct n as [|n]; [reflexivity|]). lia. }
  rewrite <-(N2Nat.id d). apply Hc. lia.
Qed.

Lemma spanDigits_go x s n rest :
  ∃ k, spanDigits 0 n (codes (pretty_N_go x s) ++ rest) = spanDigits (Z.of_N x) (n + k) (codes s ++ rest).
Proof.
  revert s. induction (N.lt_wf_0 x) as [x _ IH]. intros s.
  destruct (decide (x = 0)%N) as [->|Hne]; [exists 0; by rewrite pretty_N_go_0, Z.add_0_r|].
  rewrite pretty_N_go_step by lia.
  destruct (IH (x / 10)%N ltac:(apply N.div_lt; lia) (String (pretty_N_char (x mod 10)) s)) as [k ->].
  exists (k + 1). change (codes (String (pretty_N_char (x mod 10)) s) ++ rest)%list
    with (byteCode (pretty_N_char (x mod 10)) :: codes s ++ rest)%list.
  pose proof (N.mod_lt x 10 ltac:(lia)) as Hm. pose proof (N.div_mod x 10 ltac:(lia)) as Hdm.
  rewrite code_digit by done. cbn [spanDigits]. unfold isDigit.
  set (q := (x / 10)%N) in *. set (m := (x mod 10)%N) in *. clearbody q m. rewrite within_true by lia. f_equal; lia.
Qed.

(** A positive number starts with a digit other than zero. *)
Lemma go_first x s : (0 < x)%N → ∃ c r, codes (pretty_N_go x s) = c :: r ∧ 49 <= c <= 57.
Proof.
  revert s. induction (N.lt_wf_0 x) as [x _ IH]. intros s Hx. rewrite pretty_N_go_step by lia.
  destruct (decide (x / 10 = 0)%N) as [Hz|Hne].
  - rewrite Hz, pretty_N_go_0. do 2 eexists. split; [reflexivity|].
    pose proof (N.mod_lt x 10 ltac:(lia)) as Hm. pose proof (N.div_mod x 10 ltac:(lia)) as Hdm. rewrite code_digit by done.
    rewrite Hz in Hdm. set (m := (x mod 10)%N) in *. clearbody m. lia.
  - apply IH; [apply N.div_lt; [exact Hx|reflexivity]|by apply N.neq_0_lt_0].
Qed.

(** One case per member of a list that is written out. *)
Tactic Notation "each" hyp(H) tactic1(tac) :=
  repeat (apply elem_of_cons in H as [->|H]; [tac|]); by apply elem_of_nil in H.

(** What follows a scalar in the text. *)
Definition ends (rest : list Z) : Prop := ∃ c r, rest = c :: r ∧ c ∈ [44; 10].

Lemma spanDigits_ends a n rest : ends rest → spanDigits a n rest = (a, n, rest).
Proof. intros (c & r & -> & Hc). each Hc reflexivity. Qed.

Lemma exponent_ends rest : ends rest → exponent rest = Some (0, false, rest).
Proof. intros (c & r & -> & Hc). each Hc reflexivity. Qed.

(** After the digits of an integer: neither a fraction nor an exponent. *)
Lemma after_digits (neg : bool) (a n : Z) rest : ends rest →
  match rest with
  | 46 :: l3 =>
      let '(m', n', l4) := spanDigits a 0 l3 in
      if n' =? 0 then None
      else match exponent l4 with Some (e, _, rest) => Some (neg, m', n + n', e - n', false, rest) | None => None end
  | _ => match exponent rest with Some (e, b, rest) => Some (neg, a, n, e, negb b, rest) | None => None end
  end = Some (neg, a, n, 0, true, rest).
Proof.
  intros Hr. rewrite (exponent_ends rest Hr). destruct Hr as (c & r & -> & Hc).
  each Hc reflexivity.
Qed.

Lemma nonzero_digit c : 49 <= c <= 57 → c ∈ [49; 50; 51; 52; 53; 54; 55; 56; 57].
Proof.
  intros Hc. replace c with (49 + Z.of_nat (Z.to_nat (c - 49))) by lia.
  assert (Hn : (Z.to_nat (c - 49) < 9)%nat) by lia. revert Hn. generalize (Z.to_nat (c - 49)) as n. intros n Hn.
  do 9 (destruct n as [|n]; [repeat first [left | right]|]). lia.
Qed.

Lemma number_natural (neg : bool) x rest :
  ends rest →
  ∃ n, number ((if neg then [45] else []) ++ codes (pretty x) ++ rest) = Some (neg, Z.of_N x, n, 0, true, rest).
Proof.
  intros Hr. destruct (decide (x = 0)%N) as [->|Hne]; [exists 1; destruct neg; exact (after_digits _ 0 1 rest Hr)|].
  assert (pretty x = pretty_N_go x EmptyString) as -> by (destruct x; [done|reflexivity]).
  destruct (spanDigits_go x EmptyString 0 rest) as [k Hk]. destruct (go_first x EmptyString ltac:(lia)) as (c & r & Hc & Hcr).
  cbn [codes chars String.list_ascii_of_string fmap list_fmap app] in Hk. rewrite (spanDigits_ends _ _ rest Hr) in Hk.
  rewrite Hc in Hk |- *. exists (0 + k). apply nonzero_digit in Hcr.
  each Hcr (destruct neg; unfold number; cbn [app] in Hk |- *; unfold isDigit at 1;
    cbn [within Z.leb Z.compare Pos.compare Pos.compare_cont andb]; rewrite Hk; exact (after_digits _ _ _ rest Hr)).
Qed.

(** What a scalar is read as. *)
Definition anyOf (v : jscalar) : jany :=
  match v with
  | SText s => JString (toValid s)
  | SNumber z => JNumber (mkToken (z <? 0) (Z.abs z) true)
  end.

Lemma number_Itoa z rest :
  ends rest → ∃ n, number (codes (Itoa z) ++ rest) = Some (z <? 0, Z.abs z, n, 0, true, rest).
Proof.
  intros Hr. unfold Itoa. destruct z as [|p|p].
  - exact (number_natural false 0 rest Hr).
  - exact (number_natural false (N.pos p) rest Hr).
  - exact (number_natural true (N.pos p) rest Hr).
Qed.

(** The text of an integer starts with a digit or a sign. *)
Lemma Itoa_first z : ∃ c r, codes (Itoa z) = c :: r ∧ c ∈ [45; 48; 49; 50; 51; 52; 53; 54; 55; 56; 57].
Proof.
  unfold Itoa. destruct z as [|p|p]; [do 2 eexists; split; [reflexivity|by repeat first [left | right]]| |
    do 2 eexists; split; [reflexivity|left]].
  destruct (go_first (N.pos p) EmptyString ltac:(lia)) as (c & r & Hc & Hcr). exists c, r. split; [exact Hc|].
  apply nonzero_digit in Hcr. by do 2 right.
Qed.

Lemma parse_appendString s rest :
  parseString (drop 1 (appendString (codes s)) ++ rest) = Some (runes (codes s) ≫= runeText, rest).
Proof.
  change (parseString (((runes (codes s) ≫= quoteRune) ++ [34]) ++ rest) = Some (runes (codes s) ≫= runeText, rest)).
  rewrite <-app_assoc. cbn [app].
  apply parse_quoted, runes_ok, codes_bytes.
Qed.

Lemma value_scalar f depth v rest :
  ends rest → value (S f) depth (32 :: marshalScalar v ++ rest) = Some (anyOf v, rest).
Proof.
  intros Hr. destruct v as [s|z]; cbn [marshalScalar anyOf].
  - change (match parseString (drop 1 (appendString (codes s)) ++ rest) with
            | Some (s0, rest0) => Some (JString (ofCodes s0), rest0) | None => None end = Some (JString (F := token) (toValid s), rest)).
    by rewrite parse_appendString.
  - destruct (number_Itoa z rest Hr) as [n Hn]. destruct (Itoa_first z) as (c & r & Hc & Hin). rewrite Hc in Hn |- *.
    cbn [app] in *.
    assert (Hv : value (F := token) (S f) depth (32 :: c :: (r ++ rest)%list) =
                 match number (c :: (r ++ rest)%list) with
                 | Some (neg, m, n, e, plain, rest) =>
                     match ofDecimal neg m n e plain with Some x => Some (JNumber x, rest) | None => None end
                 | None => None end) by (clear Hn Hc; each Hin reflexivity).
    rewrite Hv, Hn. done.
Qed.

Definition members_of (l : list (string * jscalar)) : list (string * jany) := (λ f, (toValid f.1, anyOf f.2)) <$> l.

Lemma fieldsText_ends l : ends (fieldsText l).
Proof. destruct l; [by exists 10, [125; 10]; split; [|right; left]|]. do 2 eexists. split; [done|left]. Qed.

(** A member from its name on. *)
Definition memberText (fd : string * jscalar) (rest : list Z) : list Z :=
  34 :: drop 1 (appendString (codes fd.1)) ++ 58 :: 32 :: marshalScalar fd.2 ++ rest.

Lemma skip_field fd rest : skipSpace (fieldText fd ++ rest) = memberText fd rest.
Proof. unfold fieldText, memberText. rewrite <-!app_assoc. reflexivity. Qed.

(** One round of the two parsers. *)
Lemma members_S f depth l :
  members (F := token) (S f) depth l =
    match skipSpace l with
    | 34 :: l1 =>
        match parseString l1 with
        | None => None
        | Some (name, l2) =>
            match skipSpace l2 with
            | 58 :: l3 =>
                match value f depth l3 with
                | None => None
                | Some (v, rest) =>
                    match skipSpace rest with
                    | 125 :: rest' => Some ([(ofCodes name, v)], rest')
                    | 44 :: rest' =>
                        match members f depth rest' with
                        | Some (ms, rest'') => Some ((ofCodes name, v) :: ms, rest'')
                        | None => None
                        end
                    | _ => None
                    end
                end
            | _ => None
            end
        end
    | _ => None
    end.
Proof. reflexivity. Qed.

Lemma value_object f depth l1 l2 :
  0 < depth → skipSpace l1 = 34 :: l2 →
  value (F := token) (S f) depth (123 :: l1) =
    match members f (depth - 1) (34 :: l2) with Some (ms, rest) => Some (JObject ms, rest) | None => None end.
Proof.
  intros Hd Hl1. transitivity (if depth <=? 0 then None else match skipSpace l1 with
    | 125 :: rest => Some (JObject [], rest)
    | l2 => match members (F := token) f (depth - 1) l2 with Some (ms, rest) => Some (JObject ms, rest) | None => None end
    end); [reflexivity|].
  rewrite Hl1. by assert ((depth <=? 0) = false) as -> by lia.
Qed.

Lemma members_skip f depth fd rest :
  members (F := token) f depth (fieldText fd ++ rest) = members f depth (memberText fd rest).
Proof. destruct f as [|f]; [done|]. rewrite !members_S. by rewrite skip_field. Qed.

Lemma members_step f depth fd rest :
  ends rest →
  members (S (S f)) depth (memberText fd rest) =
    match skipSpace rest with
    | 125 :: rest' => Some ([(toValid fd.1, anyOf fd.2)], rest')
    | 44 :: rest' =>
        match members (S f) depth rest' with
        | Some (ms, rest'') => Some ((toValid fd.1, anyOf fd.2) :: ms, rest'')
        | None => None
        end
    | _ => None
    end.
Proof.
  intros Hr. rewrite members_S. unfold memberText at 1. change (skipSpace (34 :: ?l)) with (34 :: l). cbv iota.
  rewrite (parse_appendString fd.1 (58 :: 32 :: marshalScalar fd.2 ++ rest)). cbv iota.
  change (skipSpace (58 :: ?l)) with (58 :: l). cbv iota.
  rewrite (value_scalar f depth fd.2 rest Hr). reflexivity.
Qed.

Lemma members_text f depth fd l :
  (S (length l) < f)%nat → members f depth (memberText fd (fieldsText l)) = Some (members_of (fd :: l), [10]).
Proof.
  revert f fd. induction l as [|fd' l IH]; intros [|[|f]] fd Hf; cbn [length] in Hf; try lia;
    rewrite (members_step f depth fd _ (fieldsText_ends _)); [reflexivity|].
  change (skipSpace (fieldsText (fd' :: l))) with (44 :: fieldText fd' ++ fieldsText l). cbv iota.
  rewrite members_skip, IH by lia. reflexivity.
Qed.

Lemma length_fieldsText l : (length l <= length (fieldsText l))%nat.
Proof. induction l as [|fd l IH]; cbn [fieldsText length]; [lia|]. rewrite length_app. lia. Qed.

Lemma Unmarshal_marshalIndent l : l ≠ [] → Unmarshal (marshalIndent l) = Some (JObject (members_of l)).
Proof.
  destruct l as [|fd l]; [done|]. intros _. unfold Unmarshal. cbn [marshalIndent].
  pose proof (length_fieldsText l) as Hlen.
  set (fuel := (2 * length (123%Z :: fieldText fd ++ fieldsText l)%list + 2)%nat).
  assert (Hfuel : ∃ f, fuel = S f ∧ (S (length l) < f)%nat).
  { unfold fuel. cbn [length]. rewrite length_app. exists (2 * S (length (fieldText fd) + length (fieldsText l)) + 1)%nat. lia. }
  destruct Hfuel as (f & -> & Hf).
  rewrite (value_object f maxDepth (fieldText fd ++ fieldsText l) (drop 1 (memberText fd (fieldsText l))));
    [|done|by rewrite skip_field].
  change (34 :: drop 1 (memberText fd (fieldsText l))) with (memberText fd (fieldsText l)).
  by rewrite members_text by lia.
Qed.

Lemma takeZ_length n l : Z.of_nat (length (takeZ n l)) = Z.min (Z.max 0 n) (Z.of_nat (length l)).
Proof.
  revert n. induction l as [|x l IH]; intros n; cbn [takeZ length]; [lia|].
  destruct (n <=? 0) eqn:E; ztests; cbn [length]; [lia|]. rewrite Nat2Z.inj_succ, IH. lia.
Qed.

(** ** The snapshot of a status *)

Definition snapshotOf (st : Status) : statusSnapshot :=
  mkStatusSnapshot (toValid (stVersion st)) (toValid (stCommit st)) (toValid (stMode st)) (toValid (stKeyVisibility st))
    (toValid (stUptime st)) (stRequestsTotal st) (stCacheHitsTotal st) (stCacheMissesTotal st)
    (stCacheMissesPolicyBypass st) (stCacheMissesNotAdmitted st) (stCacheMissesNotPresent st)
    (stUpstreamRequestsTotal st) (stUpstreamGetsTotal st) (stCoalescedRequestsTotal st) (stInvalidationsTotal st)
    (stPromotionsTotal st) (stDemotionsTotal st) (stCacheEntries st) (stCacheBytes st) (stHotKeys st).

(** The counters are values of their types. *)
Record inRange (st : Status) : Prop := {
  range_uint : ∀ f, f ∈ [stRequestsTotal; stCacheHitsTotal; stCacheMissesTotal; stCacheMissesPolicyBypass;
                         stCacheMissesNotAdmitted; stCacheMissesNotPresent; stUpstreamRequestsTotal; stUpstreamGetsTotal;
                         stCoalescedRequestsTotal; stInvalidationsTotal; stPromotionsTotal; stDemotionsTotal] → in_u64 (f st);
  range_int : ∀ f, f ∈ [stCacheEntries; stCacheBytes; stHotKeys] → in_i64 (f st)
}.

(** No member has the name. *)
Definition absent (name : string) (names : list string) : bool := forallb (λ n, negb (EqualFold n name)) names.

Lemma decodeField_none {A} (dec : A → jany → option A) name cur names vals :
  absent name names = true → decodeField dec name cur (zip names vals) = Some cur.
Proof.
  revert vals. induction names as [|n names IH]; intros [|v vals]; simpl; try done.
  intros [Hn Hl]%andb_prop. apply negb_true_iff in Hn. rewrite Hn. auto.
Qed.

(** A field that is named once, at place [k], takes its value from there. *)
Lemma decodeField_once {A} (dec : A → jany → option A) name cur names vals k v :
  absent name (take k names) && match names !! k with Some n => EqualFold n name | None => false end
    && absent name (drop (S k) names) = true →
  vals !! k = Some v → decodeField dec name cur (zip names vals) = dec cur v.
Proof.
  revert k vals. induction names as [|n names IH]; intros [|k] [|v' vals] Hc Hv;
    cbn [take drop lookup list_lookup absent forallb andb skipn firstn] in *; try done.
  - simplify_eq. apply andb_prop in Hc as [Hn Hd]. cbn [zip_with decodeField]. rewrite Hn.
    destruct (dec cur v) as [x|]; [by apply decodeField_none|done].
  - rewrite <-!andb_assoc in Hc. apply andb_prop in Hc as [Hn Hc]. apply negb_true_iff in Hn.
    cbn [zip_with decodeField]. rewrite Hn. apply (IH k); [|done]. by rewrite <-andb_assoc.
Qed.

Lemma decodeText_anyOf cur s : decodeText cur (anyOf (SText s)) = Some (toValid s).
Proof. done. Qed.

Lemma decodeUint_anyOf cur z : in_u64 z → decodeUint cur (anyOf (SNumber z)) = Some z.
Proof.
  intros [H0 H1]. simpl. assert ((z <? 0) = false) as -> by lia. rewrite Z.abs_eq by done. cbn [tPlain tNeg tDigits negb andb].
  by assert ((z <? two64) = true) as -> by lia.
Qed.

Lemma decodeInt_anyOf cur z : in_i64 z → decodeInt cur (anyOf (SNumber z)) = Some z.
Proof.
  intros Hz. unfold decodeInt, anyOf. cbn [tPlain tNeg tDigits].
  assert ((if z <? 0 then - Z.abs z else Z.abs z) = z) as -> by (destruct (z <? 0) eqn:E; ztests; lia).
  unfold in_i64 in Hz. assert ((minInt64 <=? z) = true ∧ (z <=? maxInt64) = true) as [-> ->] by lia. done.
Qed.

(** The names of the members, with and without a commit. *)
Definition statusNames (commit : bool) : list string :=
  (["version"]%string ++ (if commit then ["commit"]%string else [])
   ++ ["mode"; "key_visibility"; "uptime"; "upstream_status"; "cache_bytes"; "cache_entries"; "tracked_keys"; "hot_keys";
       "total_requests"; "cache_hits"; "cache_misses"; "cache_misses_policy_bypass"; "cache_misses_not_admitted";
       "cache_misses_not_present"; "upstream_requests"; "requests_total"; "cache_hits_total"; "cache_misses_total";
       "upstream_requests_total"; "upstream_gets_total"; "invalidations_total"; "promotions_total"; "demotions_total";
       "coalesced_requests_total"; "promotions"; "demotions"; "coalesced_requests"]%string)%list.

Lemma zip_members (l : list (string * jscalar)) : members_of l = zip (toValid <$> (fst <$> l)) ((λ f, anyOf f.2) <$> l).
Proof. induction l as [|f l IH]; [done|]. cbn [fmap list_fmap zip_with members_of] in *. by rewrite <-IH. Qed.

Lemma members_status st :
  members_of (statusFields st) =
    zip (statusNames (negb (bool_decide (stCommit st = EmptyString)))) ((λ f, anyOf f.2) <$> statusFields st).
Proof.
  rewrite zip_members. f_equal. transitivity (toValid <$> statusNames (negb (bool_decide (stCommit st = EmptyString)))).
  - f_equal. unfold statusFields. by destruct (bool_decide (stCommit st = EmptyString)).
  - destruct (bool_decide (stCommit st = EmptyString)); vm_compute; reflexivity.
Qed.

(** The fields are read back one by one; [k] is the place of the field. *)
Ltac read name k :=
  match goal with
  | |- context [decodeField ?dec name ?cur (zip ?ns ?vs)] =>
      erewrite (decodeField_once dec name cur ns vs k); [|vm_compute; reflexivity|reflexivity]
  end.

Lemma decode_commit v0 v1 v2 v3 v4 v5 v6 v7 v8 v9 v10 v11 v12 v13 v14 v15 v16 v17 v18 v19 v20 v21 v22 v23 v24 v25 v26 v27 v28 :
  decodeMembers (zip (statusNames true) [v0; v1; v2; v3; v4; v5; v6; v7; v8; v9; v10; v11; v12; v13; v14; v15; v16; v17; v18; v19; v20; v21; v22; v23; v24; v25; v26; v27; v28]) =
    (x0 ← decodeText EmptyString v0; x1 ← decodeText EmptyString v1; x2 ← decodeText EmptyString v2;
     x3 ← decodeText EmptyString v3; x4 ← decodeText EmptyString v4; x5 ← decodeUint 0 v17;
     x6 ← decodeUint 0 v18; x7 ← decodeUint 0 v19; x8 ← decodeUint 0 v13;
     x9 ← decodeUint 0 v14; x10 ← decodeUint 0 v15; x11 ← decodeUint 0 v20;
     x12 ← decodeUint 0 v21; x13 ← decodeUint 0 v25; x14 ← decodeUint 0 v22;
     x15 ← decodeUint 0 v23; x16 ← decodeUint 0 v24; x17 ← decodeInt 0 v7;
     x18 ← decodeInt 0 v6; x19 ← decodeInt 0 v9;
     Some (mkStatusSnapshot x0 x1 x2 x3 x4 x5 x6 x7 x8 x9 x10 x11 x12 x13 x14 x15 x16 x17 x18 x19)).
Proof.
  unfold decodeMembers. cbv zeta.
  read "VERSION"%string 0%nat. read "COMMIT"%string 1%nat. read "MODE"%string 2%nat.
  read "KEY_VISIBILITY"%string 3%nat. read "UPTIME"%string 4%nat. read "REQUESTS_TOTAL"%string 17%nat.
  read "CACHE_HITS_TOTAL"%string 18%nat. read "CACHE_MISSES_TOTAL"%string 19%nat. read "CACHE_MISSES_POLICY_BYPASS"%string 13%nat.
  read "CACHE_MISSES_NOT_ADMITTED"%string 14%nat. read "CACHE_MISSES_NOT_PRESENT"%string 15%nat. read "UPSTREAM_REQUESTS_TOTAL"%string 20%nat.
  read "UPSTREAM_GETS_TOTAL"%string 21%nat. read "COALESCED_REQUESTS_TOTAL"%string 25%nat. read "INVALIDATIONS_TOTAL"%string 22%nat.
  read "PROMOTIONS_TOTAL"%string 23%nat. read "DEMOTIONS_TOTAL"%string 24%nat. read "CACHE_ENTRIES"%string 7%nat.
  read "CACHE_BYTES"%string 6%nat. read "HOT_KEYS"%string 9%nat.
  reflexivity.
Qed.

Lemma decode_plain v0 v1 v2 v3 v4 v5 v6 v7 v8 v9 v10 v11 v12 v13 v14 v15 v16 v17 v18 v19 v20 v21 v22 v23 v24 v25 v26 v27 :
  decodeMembers (zip (statusNames false) [v0; v1; v2; v3; v4; v5; v6; v7; v8; v9; v10; v11; v12; v13; v14; v15; v16; v17; v18; v19; v20; v21; v22; v23; v24; v25; v26; v27]) =
    (x0 ← decodeText EmptyString v0; x1 ← Some EmptyString; x2 ← decodeText EmptyString v1;
     x3 ← decodeText EmptyString v2; x4 ← decodeText EmptyString v3; x5 ← decodeUint 0 v16;
     x6 ← decodeUint 0 v17; x7 ← decodeUint 0 v18; x8 ← decodeUint 0 v12;
     x9 ← decodeUint 0 v13; x10 ← decodeUint 0 v14; x11 ← decodeUint 0 v19;
     x12 ← decodeUint 0 v20; x13 ← decodeUint 0 v24; x14 ← decodeUint 0 v21;
     x15 ← decodeUint 0 v22; x16 ← decodeUint 0 v23; x17 ← decodeInt 0 v6;
     x18 ← decodeInt 0 v5; x19 ← decodeInt 0 v8;
     Some (mkStatusSnapshot x0 x1 x2 x3 x4 x5 x6 x7 x8 x9 x10 x11 x12 x13 x14 x15 x16 x17 x18 x19)).
Proof.
  unfold decodeMembers. cbv zeta.
  read "VERSION"%string 0%nat. rewrite (decodeField_none decodeText "COMMIT") by (vm_compute; reflexivity). read "MODE"%string 1%nat.
  read "KEY_VISIBILITY"%string 2%nat. read "UPTIME"%string 3%nat. read "REQUESTS_TOTAL"%string 16%nat.
  read "CACHE_HITS_TOTAL"%string 17%nat. read "CACHE_MISSES_TOTAL"%string 18%nat. read "CACHE_MISSES_POLICY_BYPASS"%string 12%nat.
  read "CACHE_MISSES_NOT_ADMITTED"%string 13%nat. read "CACHE_MISSES_NOT_PRESENT"%string 14%nat. read "UPSTREAM_REQUESTS_TOTAL"%string 19%nat.
  read "UPSTREAM_GETS_TOTAL"%string 20%nat. read "COALESCED_REQUESTS_TOTAL"%string 24%nat. read "INVALIDATIONS_TOTAL"%string 21%nat.
  read "PROMOTIONS_TOTAL"%string 22%nat. read "DEMOTIONS_TOTAL"%string 23%nat. read "CACHE_ENTRIES"%string 6%nat.
  read "CACHE_BYTES"%string 5%nat. read "HOT_KEYS"%string 8%nat.
  reflexivity.
Qed.

Lemma decode_status st : inRange st → decodeMembers (members_of (statusFields st)) = Some (snapshotOf st).
Proof.
  intros [Hu Hi]. rewrite <-Forall_forall in Hu, Hi.
  repeat (apply Forall_cons in Hu as [? Hu]). repeat (apply Forall_cons in Hi as [? Hi]). clear Hu Hi.
  rewrite members_status. unfold statusFields, snapshotOf.
  destruct (bool_decide (stCommit st = EmptyString)) eqn:E; cbn [negb app fmap list_fmap snd].
  - apply bool_decide_eq_true in E. rewrite E, decode_plain.
    rewrite !decodeText_anyOf, !decodeUint_anyOf, !decodeInt_anyOf by assumption. reflexivity.
  - rewrite decode_commit. rewrite !decodeText_anyOf, !decodeUint_anyOf, !decodeInt_anyOf by assumption. reflexivity.
Qed.

End statusjson.

Import gostd gotext gojson gojsonvalue views benchmark ctl statusjson.

(** C19. The counters on which the benchmarks base their evidence are the daemon's.
    When the daemon answers a status request, the JSON text that it writes, through
    the size limit, the JSON decoder and the matching of field names, is read by
    slizenctl as exactly the counters of that status, to the last digit of a 64-bit
    number, and as its version, mode and uptime wherever these are well-formed UTF-8.
    A text over 64 KiB is refused, never cut. *)
Theorem status_read_exact (w : web) (adminURL line : string) (st : Status) :
  inRange st → clientGet w (endpoint adminURL "/v1/status") = Ok (mkHTTP 200 line (statusBody st) None) →
  readStatusSnapshot w adminURL =
    if maxStatusResponseBytes <? Z.of_nat (length (statusBody st))
    then Fail (Message ("GET /v1/status response exceeds " ++ Itoa maxStatusResponseBytes ++ " bytes"))
    else Ok (snapshotOf st).
Proof.
  intros Hr Hw. unfold readStatusSnapshot. rewrite Hw. change (decodeStatusSnapshot (mkHTTP 200 line (statusBody st) None) =
    if maxStatusResponseBytes <? Z.of_nat (length (statusBody st))
    then Fail (Message ("GET /v1/status response exceeds " ++ Itoa maxStatusResponseBytes ++ " bytes"))
    else Ok (snapshotOf st)).
  unfold decodeStatusSnapshot, readAll. cbn [Body BodyError].
  destruct (maxStatusResponseBytes <? Z.of_nat (length (statusBody st))) eqn:E.
  - assert ((maxStatusResponseBytes + 1 <=? Z.of_nat (length (statusBody st))) = true) as -> by lia. cbn [mbind res_mbind].
    rewrite takeZ_length. by assert ((maxStatusResponseBytes <? Z.min (Z.max 0 (maxStatusResponseBytes + 1)) (Z.of_nat (length (statusBody st)))) = true)
      as -> by (unfold maxStatusResponseBytes in *; lia).
  - assert ((maxStatusResponseBytes + 1 <=? Z.of_nat (length (statusBody st))) = false) as -> by lia. cbn [mbind res_mbind].
    rewrite E. unfold statusBody. rewrite Unmarshal_marshalIndent by done. by rewrite decode_status.
Qed.

(** A daemon that has served more requests than a double can count exactly. *)
Definition busy : Status :=
  mkStatus "v1" EmptyString "cache" "hash" "3h0m0s" "ok" 4096 3 9 2 18446744073709551615 9 1 0 1 0 7
    18446744073709551615 9007199254740993 1 7 5 0 2 1 0 2 1 0.

Lemma status_read_exact_witness :
  ∃ s, readStatusSnapshot (mkWeb (λ _, Ok (mkHTTP 200 "200 OK" (statusBody busy) None)) (λ _ _, Fail "no")) "http://127.0.0.1:9090/"
         = Ok s ∧ RequestsTotal s = 18446744073709551615 ∧ CacheHitsTotal s = 9007199254740993.
Proof.
  eexists. split; [|split].
  - rewrite (status_read_exact _ _ "200 OK" busy);
      [vm_compute; reflexivity| |reflexivity].
    split; intros f Hf; rewrite <-?list_elem_of_In in Hf; vm_compute in Hf;
      repeat (apply elem_of_cons in Hf as [->|Hf]; [by vm_compute|]); by apply elem_of_nil in Hf.
  - reflexivity.
  - reflexivity.
Defined.
