(* ===== verification/GoFmt.v ===== *)
(** * Go's fmt verbs

    The verbs of the text reports: [%s] and [%d] padded on the left or on the right
    ([%16s], [%-16s]; the width counts runes), [%t], and [%.Nf] with or without a width.
    A float is printed by [strconv.FormatFloat(x, 'f', N, 64)]: the decimal nearest to
    its exact value, ties to the even digit. [fixed_reads] shows it: what is printed reads
    back as a decimal at most half a unit of its last place away from the float. *)
From stdpp Require Import prelude strings list pretty.
From Stdlib Require Import ZArith Lia Ascii SpecFloat.
From S2P Require Import Prelude Float64 GoStd GoText GoTime GoJSON.
Local Open Scope Z_scope.

(** How a float is printed with a number of places; [fixed64] is what Go does. *)
Class FixedFormat (F : Type) := { formatFixed : nat → F → string }.

Module gofmt.
Import gostd gotext gotime gojson.

(** ** Padding *)

(** [utf8.RuneCountInString]; a byte that starts no rune counts as one. *)
Fixpoint runeCount (skip : nat) (l : list Z) : nat :=
  match l with
  | [] => 0
  | _ :: l' =>
      match skip with
      | S k => runeCount k l'
      | O => S (runeCount (match decodeRune l with Some (_, n) => n - 1 | None => 0 end) l')
      end
  end.

Definition padding (width : nat) (s : string) : string :=
  ofChars (replicate (width - runeCount 0 (codes s)) " "%char).

(** [%16s] and [%-16s]. *)
Definition padLeft (width : nat) (s : string) : string := (padding width s ++ s)%string.
Definition padRight (width : nat) (s : string) : string := (s ++ padding width s)%string.

(** [%t] *)
Definition fmtBool (b : bool) : string := if b then "true" else "false".

(** ** Fixed-point floats *)

(** [n / d] to the nearest integer, ties to even, for [0 <= n] and [0 < d]. *)
Definition roundHalfEven (n d : Z) : Z :=
  let q := n / d in
  let r := n mod d in
  if 2 * r <? d then q else if d <? 2 * r then q + 1 else if Z.even q then q else q + 1.

(** The significand of the decimal with [prec] places nearest to [m * 2^e]. *)
Definition scaled (prec : nat) (m e : Z) : Z :=
  if 0 <=? e then m * 2 ^ e * 10 ^ Z.of_nat prec else roundHalfEven (m * 10 ^ Z.of_nat prec) (2 ^ (- e)).

(** The last [n] digits of [v]. *)
Fixpoint places (n : nat) (v : Z) : list ascii :=
  match n with
  | O => []
  | S n' => (places n' (v / 10) ++ [pretty_N_char (Z.to_N (v mod 10))])%list
  end.

Definition decimalText (prec : nat) (neg : bool) (v : Z) : string :=
  ((if neg then "-" else EmptyString) ++ Itoa (v / 10 ^ Z.of_nat prec) ++
   match prec with O => EmptyString | _ => String "." (ofChars (places prec v)) end)%string.

Definition fixed (prec : nat) (x : spec_float) : string :=
  match x with
  | S754_finite s m e => decimalText prec s (scaled prec (Z.pos m) e)
  | S754_zero s => decimalText prec s 0
  | S754_infinity true => "-Inf"
  | S754_infinity false => "+Inf"
  | S754_nan => "NaN"
  end.

#[export] Instance fixed64 : FixedFormat spec_float := {| formatFixed := fixed |}.

(** [%.Nf] and [%W.Nf]. *)
Definition fmtFloat {F} `{FixedFormat F} (prec : nat) (x : F) : string := formatFixed prec x.
Definition padFloat {F} `{FixedFormat F} (width prec : nat) (x : F) : string := padLeft width (fmtFloat prec x).

Import binary64.
Example fixed_tie : fixed 0 (div (ofZ 5) (ofZ 2)) = "2"%string ∧ fixed 0 (div (ofZ 7) (ofZ 2)) = "4"%string.
Proof. split; vm_compute; reflexivity. Qed.
Example fixed_tenth : fixed 20 (div (ofZ 1) (ofZ 10)) = "0.10000000000000000555"%string.
Proof. vm_compute. reflexivity. Qed.
Example fixed_small : fixed 1 (div (ofZ (-1)) (ofZ 100)) = "-0.0"%string.
Proof. vm_compute. reflexivity. Qed.
Example fixed_large : fixed 2 (mul (ofZ 1234567) (ofZ 1000000)) = "1234567000000.00"%string.
Proof. vm_compute. reflexivity. Qed.
Example pad_runes : padLeft 6 (ofChars (ascii_of_nat <$> [195; 169; 97]%nat))
  = ofChars (ascii_of_nat <$> [32; 32; 32; 32; 195; 169; 97]%nat).
Proof. vm_compute. reflexivity. Qed.

(** ** What is printed reads back *)

(** A decimal: its sign, its significand and its places. *)
Definition readFixed (s : string) : option (bool * Z * nat) :=
  let '(neg, l) := match chars s with "-"%char :: l => (true, l) | l => (false, l) end in
  match cutChars "." l with
  | Some (a, b) => v ← digits 0 (a ++ b); Some (neg, v, length b)
  | None => v ← digits 0 l; Some (neg, v, 0%nat)
  end.

Lemma digits_app a l l' : digits a (l ++ l') = (digits a l ≫= λ v, digits v l').
Proof. revert a. induction l as [|c l IH]; intros a; simpl; [done|]. destruct (digit c); simpl; [apply IH|done]. Qed.

Lemma digits_go x s : digits 0 (chars (pretty_N_go x s)) = digits (Z.of_N x) (chars s).
Proof.
  revert s. induction (N.lt_wf_0 x) as [x _ IH]. intros s.
  destruct (decide (x = 0)%N) as [->|Hne]; [by rewrite pretty_N_go_0|].
  rewrite pretty_N_go_step by lia.
  pose proof (N.div_mod x 10 ltac:(lia)) as Hdm. pose proof (N.mod_lt x 10 ltac:(lia)) as Hm.
  rewrite IH by (apply N.div_lt; lia). cbn [chars String.list_ascii_of_string digits]. fold (chars s).
  rewrite digit_char by done. f_equal. lia.
Qed.

Lemma digits_Itoa n : 0 <= n → digits 0 (chars (Itoa n)) = Some n.
Proof.
  intros Hn. destruct n as [|p|p]; [reflexivity| |lia].
  change (Itoa (Z.pos p)) with (pretty_N_go (N.pos p) EmptyString). by rewrite digits_go.
Qed.

Lemma digits_places n a v : digits a (places n v) = Some (a * 10 ^ Z.of_nat n + v mod 10 ^ Z.of_nat n).
Proof.
  revert v. induction n as [|n IH]; intros v; [simpl; f_equal; rewrite Z.mod_1_r; lia|].
  cbn [places]. rewrite digits_app, IH. cbn [mbind option_bind digits].
  pose proof (Z.mod_pos_bound v 10 ltac:(lia)) as Hb. rewrite digit_char by lia. f_equal.
  rewrite Nat2Z.inj_succ, Z.pow_succ_r by lia. rewrite Z.rem_mul_r by lia. lia.
Qed.

Lemma length_places n v : length (places n v) = n.
Proof. revert v. induction n as [|n IH]; intros v; [done|]. cbn [places]. rewrite length_app, IH. simpl. lia. Qed.

(** Digits hold neither a point nor a sign. *)
Lemma digits_are a l v : digits a l = Some v → Forall (λ c, is_Some (digit c)) l.
Proof. revert a. induction l as [|c l IH]; intros a Hl; simpl in *; [done|]. destruct (digit c) eqn:Hc; [|done]. constructor; eauto. Qed.

Lemma digits_avoid c l v a : digits a l = Some v → digit c = None → c ∉ l.
Proof.
  intros Hl Hc Hin. apply digits_are in Hl. rewrite Forall_forall in Hl. destruct (Hl c Hin) as [d Hd]. by rewrite Hc in Hd.
Qed.

Lemma cutChars_none sep l : sep ∉ l → cutChars sep l = None.
Proof.
  induction l as [|c l IH]; intros Hn; cbn; [done|]. apply not_elem_of_cons in Hn as [? Hn].
  rewrite bool_decide_eq_false_2 by congruence. by rewrite IH.
Qed.

Lemma decimalText_reads prec neg v : 0 <= v → readFixed (decimalText prec neg v) = Some (neg, v, prec).
Proof.
  intros Hv. assert (Hp : 0 < 10 ^ Z.of_nat prec) by (apply Z.pow_pos_nonneg; lia).
  pose proof (digits_Itoa (v / 10 ^ Z.of_nat prec) ltac:(apply Z.div_pos; lia)) as Hi.
  assert (Hsign : ∀ t, match chars ((if neg : bool then "-" else "") ++ Itoa (v / 10 ^ Z.of_nat prec) ++ t)%string with
                       | "-"%char :: l => (true, l) | l => (false, l) end
                       = (neg, chars (Itoa (v / 10 ^ Z.of_nat prec) ++ t))).
  { intros t. destruct neg; [done|]. match goal with |- context [("" ++ ?u)%string] => change ("" ++ u)%string with u end.
    destruct (pretty_head (v / 10 ^ Z.of_nat prec) t ltac:(apply Z.div_pos; lia)) as (c & r & Hc & [d Hd]).
    unfold Itoa. rewrite Hc. destruct c as [[] [] [] [] [] [] [] []]; first [done|by vm_compute in Hd]. }
  unfold readFixed, decimalText. rewrite Hsign, chars_app. destruct prec as [|prec].
  - cbn [chars String.list_ascii_of_string]. rewrite app_nil_r, cutChars_none by (by eapply digits_avoid).
    rewrite Hi. simpl. by rewrite Z.div_1_r.
  - cbn [chars String.list_ascii_of_string]. fold (chars (ofChars (places (S prec) v))). rewrite chars_ofChars.
    rewrite cutChars_app by (by eapply digits_avoid). rewrite digits_app, Hi. cbn [mbind option_bind].
    rewrite digits_places. cbn [mbind option_bind]. rewrite length_places. repeat f_equal.
    pose proof (Z.div_mod v (10 ^ Z.of_nat (S prec)) ltac:(lia)). lia.
Qed.

(** ** It is the nearest *)

Lemma roundHalfEven_nearest n d : 0 <= n → 0 < d → 2 * Z.abs (n - roundHalfEven n d * d) <= d ∧ 0 <= roundHalfEven n d.
Proof.
  intros Hn Hd. unfold roundHalfEven. pose proof (Z.div_mod n d ltac:(lia)) as Hdm. pose proof (Z.mod_pos_bound n d Hd) as Hm.
  pose proof (Z.div_pos n d Hn Hd) as Hq. set (q := n / d) in *. set (r := n mod d) in *. clearbody q r.
  destruct (Z.ltb_spec (2 * r) d); [nia|]. destruct (Z.ltb_spec d (2 * r)); [nia|]. destruct (Z.even q); nia.
Qed.

(** What [%.Nf] prints of a finite float of significand [m] and exponent [e] reads back
    as [v / 10^prec], at most half a unit of the last place away from [m * 2^e]; both
    sides are multiplied by [2^-e] when the exponent is negative. *)
Lemma fixed_reads prec s m e :
  ∃ v, readFixed (fixed prec (S754_finite s m e)) = Some (s, v, prec) ∧ 0 <= v ∧
    2 * Z.abs (Z.pos m * 10 ^ Z.of_nat prec * 2 ^ Z.max 0 e - v * 2 ^ Z.max 0 (- e)) <= 2 ^ Z.max 0 (- e).
Proof.
  exists (scaled prec (Z.pos m) e). assert (Hp : 0 < 10 ^ Z.of_nat prec) by (apply Z.pow_pos_nonneg; lia).
  assert (Hs : 0 <= scaled prec (Z.pos m) e ∧
    2 * Z.abs (Z.pos m * 10 ^ Z.of_nat prec * 2 ^ Z.max 0 e - scaled prec (Z.pos m) e * 2 ^ Z.max 0 (- e)) <= 2 ^ Z.max 0 (- e)).
  { unfold scaled. destruct (Z.leb_spec 0 e) as [He|He].
    - rewrite (Z.max_r 0 e), (Z.max_l 0 (- e)) by lia. pose proof (Z.pow_pos_nonneg 2 e ltac:(lia) He) as H2. split; [nia|].
      rewrite Z.pow_0_r. lia.
    - rewrite (Z.max_l 0 e), (Z.max_r 0 (- e)) by lia.
      destruct (roundHalfEven_nearest (Z.pos m * 10 ^ Z.of_nat prec) (2 ^ (- e))) as [H1 H2]; [lia|apply Z.pow_pos_nonneg; lia|].
      split; [exact H2|]. rewrite Z.pow_0_r, Z.mul_1_r. exact H1. }
  split; [apply decimalText_reads, Hs|exact Hs].
Qed.

End gofmt.
