(* ===== verification/Report.v ===== *)
(** * cmd/slizenctl: the text reports of the benchmarks

    [printBenchmarkText] and [printWorkloadBenchmarkText] of benchmark.go, line by line as
    they are written. *)
From stdpp Require Import prelude strings list pretty.
From Stdlib Require Import ZArith Lia Ascii SpecFloat.
From S2P Require Import Prelude Float64 GoStd GoText GoTime GoJSON GoJSONValue GoFmt Benchmark BenchmarkRun Ctl.
Local Open Scope Z_scope.

Module report.
Import gostd gotext gotime gojson gojsonvalue gofmt benchmark benchmarkrun.

(** [fmt.Fprintln] and the newline that ends a format. *)
Definition line (s : string) : string := (s ++ String newline EmptyString)%string.
Definition text (lines : list string) : string := foldr (λ l t, line l ++ t)%string EmptyString lines.

Section printing.
Context {F : Type} `{Float64 F} `{FixedFormat F} `{DecimalFloat F}.

(** ** The hot key benchmark *)

Definition phaseRow (p : benchmarkPhase F) : string :=
  (padRight 20 (Name p) ++ " " ++ padFloat 10 0 (OpsPerSecond p) ++ " " ++ padFloat 7 2 (P50Milliseconds p) ++ "ms " ++
   padFloat 7 2 (P95Milliseconds p) ++ "ms " ++ padFloat 7 2 (P99Milliseconds p) ++ "ms " ++
   padLeft 14 (Itoa (UpstreamGETs p)) ++ " " ++ padFloat 11 1 (CacheHitRatio p) ++ "%")%string.

Definition benchmarkHeader : string :=
  (padRight 20 "Phase" ++ " " ++ padLeft 10 "Ops/sec" ++ " " ++ padLeft 8 "p50" ++ " " ++ padLeft 8 "p95" ++ " " ++
   padLeft 8 "p99" ++ " " ++ padLeft 14 "Upstream GETs" ++ " " ++ padLeft 12 "Cache Hit %")%string.

Definition benchmarkLines (r : benchmarkResult F) : list string :=
  (["Slizen Hot Key Benchmark"; EmptyString; "Key: " ++ bKey r; "Mode: " ++ bMode r;
    "Concurrency: " ++ Itoa (bConcurrency r); "Duration: " ++ fmtFloat 0 (bDurationSeconds r) ++ "s"; EmptyString;
    benchmarkHeader]%string
   ++ (phaseRow <$> bPhases r)
   ++ [EmptyString; "Result:"; "upstream_get_reduction: " ++ fmtFloat 1 (bUpstreamGetReduction r) ++ "%";
       "cache_hit_ratio: " ++ fmtFloat 1 (bCacheHitRatio r) ++ "%"; "evidence_valid: " ++ fmtBool (bEvidenceValid r);
       "proved_reduction: " ++ fmtBool (bProvedReduction r)]%string
   ++ ((λ n, "note: " ++ n)%string <$> bNotes r))%list.

Definition printBenchmarkText (r : benchmarkResult F) : string := text (benchmarkLines r).

(** ** The workload benchmark *)

(** [n@p50/p95/p99ms] *)
Definition distribution (l : latencyDistribution F) : string :=
  (Itoa (Samples l) ++ "@" ++ fmtFloat 2 (P50 l) ++ "/" ++ fmtFloat 2 (P95 l) ++ "/" ++ fmtFloat 2 (P99 l) ++ "ms")%string.

Definition workloadPhaseLines (scenario : string) (p : benchmarkPhase F) : list string :=
  let readLatency := latencyDistributionValue (ReadLatency p) in
  let writeLatency := latencyDistributionValue (WriteLatency p) in
  let readOrderingWait := latencyDistributionValue (ReadOrderingWaitLatency p) in
  let writeOrderingWait := latencyDistributionValue (WriteOrderingWaitLatency p) in
  let validationLatency := latencyDistributionValue (FinalValidationLatency p) in
  [padRight 16 scenario ++ " " ++ padRight 13 (Name p) ++ " " ++ padFloat 10 0 (OpsPerSecond p) ++ " " ++
     padLeft 9 (Itoa (Reads p)) ++ " " ++ padLeft 9 (Itoa (Writes p)) ++ " " ++ padFloat 7 2 (P50Milliseconds p) ++ "ms " ++
     padFloat 7 2 (P95Milliseconds p) ++ "ms " ++ padFloat 7 2 (P99Milliseconds p) ++ "ms " ++
     padLeft 13 (Itoa (UpstreamGETs p)) ++ " " ++ padFloat 10 1 (CacheHitRatio p) ++ "%";
   "    latency p50/p95/p99: read=" ++ distribution readLatency ++ " write=" ++ distribution writeLatency ++
     " final-validation=" ++ distribution validationLatency;
   "    per-key ordering wait p50/p95/p99: read=" ++ distribution readOrderingWait ++ " write=" ++
     distribution writeOrderingWait;
   "    issuance: " ++ TerminationReason p ++ " after " ++ Itoa (OperationAttempts p) ++ " operations"]%string.

Definition resultLine (s : workloadScenarioResult F) : string :=
  let o := ScOrigin s in
  let z := ScSlizen s in
  ("  result: origin_get_reduction=" ++ fmtFloat 1 (OriginGETReductionPercent s) ++ "% cache_hit_ratio=" ++
   fmtFloat 1 (CacheHitRatioPercent s) ++ "% value_mismatches=" ++ Itoa (ValueMismatches o +u ValueMismatches z) ++
   " validation_reads=" ++ Itoa (ValidationReads o +u ValidationReads z) ++
   " validation_failures=" ++ Itoa (ValidationFailures o +u ValidationFailures z) ++
   " validation_mismatches=" ++ Itoa (ValidationMismatches o +u ValidationMismatches z) ++
   " evidence_valid=" ++ fmtBool (EvidenceValid s) ++ " proved=" ++ fmtBool (ProvedOriginGETReduction s))%string.

Definition scenarioLines (s : workloadScenarioResult F) : list string :=
  (workloadPhaseLines (ScName s) (ScOrigin s) ++ workloadPhaseLines (ScName s) (ScSlizen s) ++ [resultLine s] ++
   ((λ n, "  note: " ++ n)%string <$> ScNotes s))%list.

Definition workloadHeader : string :=
  (padRight 16 "Scenario" ++ " " ++ padRight 13 "Phase" ++ " " ++ padLeft 10 "Ops/sec" ++ " " ++ padLeft 9 "Reads" ++ " " ++
   padLeft 9 "Writes" ++ " " ++ padLeft 8 "mix p50" ++ " " ++ padLeft 8 "mix p95" ++ " " ++ padLeft 8 "mix p99" ++ " " ++
   padLeft 13 "Origin GETs" ++ " " ++ padLeft 11 "Hit rate")%string.

Definition workloadLines (r : workloadBenchmarkResult F) : list string :=
  let v := wbRuntimeVersions r in
  (["Slizen Release Workload Benchmark"; EmptyString; "Scenario selection: " ++ wbScenarioSelection r;
    "Seed: " ++ Itoa (wbSeed r); "Isolated key prefix: " ++ wbIsolatedKeyPrefix r; "Keys: " ++ Itoa (wbKeyCount r);
    "Value size: " ++ Itoa (wbValueSizeBytes r) ++ " bytes";
    "Read/write: " ++ Itoa (wbReadRatioPercent r) ++ "/" ++ Itoa (wbWriteRatioPercent r);
    "Concurrency: " ++ Itoa (wbConcurrency r);
    "Runtime: slizen=" ++ vSlizen v ++ " origin=" ++ vOrigin v ++ " go=" ++ vGo v ++ " " ++ vOS v ++ "/" ++ vArch v;
    EmptyString; workloadHeader]%string
   ++ mjoin (scenarioLines <$> wbScenarios r) ++ ((λ n, "note: " ++ n)%string <$> wbNotes r))%list.

Definition printWorkloadBenchmarkText (r : workloadBenchmarkResult F) : string := text (workloadLines r).

(** ** The purge of the whole cache between phases *)

Definition purgeAllBenchmarkCache (w : ctl.web) (adminURL : string) : option ctl.cliError :=
  match ctl.httpPost (F := F) w (TrimRight adminURL "/" ++ "/v1/cache/purge")%string (codes "{}") with
  | Fail e => Some e
  | Ok _ => None
  end.

End printing.

(** ** The lines of a report *)

(** Without a newline. *)
Definition clean (s : string) : Prop := newline ∉ chars s.

#[global] Instance clean_dec s : Decision (clean s).
Proof. unfold clean. apply _. Defined.

Create HintDb clean.

Lemma clean_app s t : clean s → clean t → clean (s ++ t)%string.
Proof. unfold clean. rewrite chars_app. set_solver. Qed.

Lemma clean_digits a l v : digits a l = Some v → clean (ofChars l).
Proof. intros Hl. unfold clean. rewrite chars_ofChars. by eapply digits_avoid. Qed.

Lemma clean_Itoa n : clean (Itoa n).
Proof.
  assert (Hp : ∀ k, 0 <= k → clean (Itoa k)).
  { intros k Hk. rewrite <-(ofChars_chars (Itoa k)). eapply clean_digits, (digits_Itoa k Hk). }
  destruct n as [|q|q]; [by apply Hp|by apply Hp|]. change (Itoa (Z.neg q)) with ("-" ++ Itoa (Z.pos q))%string.
  apply clean_app; [by apply (bool_decide_unpack _)|by apply Hp].
Qed.

Lemma clean_fmtBool b : clean (fmtBool b).
Proof. destruct b; by apply (bool_decide_unpack _). Qed.

Lemma clean_padding w s : clean (padding w s).
Proof. unfold clean, padding. rewrite chars_ofChars. intros Hin. by apply elem_of_replicate in Hin as [? _]. Qed.

Lemma clean_decimalText prec neg v : clean (decimalText prec neg v).
Proof.
  unfold decimalText. apply clean_app; [destruct neg; by apply (bool_decide_unpack _)|]. apply clean_app; [apply clean_Itoa|].
  destruct prec as [|prec]; [by apply (bool_decide_unpack _)|]. apply (clean_app "."); [by apply (bool_decide_unpack _)|].
  eapply clean_digits, (digits_places _ 0).
Qed.

Lemma clean_fixed prec x : clean (fixed prec x).
Proof. destruct x as [s|[]| |s m e]; try apply clean_decimalText; by apply (bool_decide_unpack _). Qed.

#[local] Hint Resolve clean_app clean_Itoa clean_fmtBool clean_padding clean_fixed : clean.
#[local] Hint Extern 1 (clean _) => by apply (bool_decide_unpack _) : clean.

(** A text is its lines: splitting it at newlines gives them back. *)
Lemma text_lines ls : Forall clean ls → Split (text ls) newline = (ls ++ [EmptyString])%list.
Proof.
  unfold Split. induction 1 as [|l ls Hl _ IH]; [done|]. cbn [text foldr]. unfold line at 1. rewrite !chars_app, <-app_assoc.
  change (chars (String newline EmptyString) ++ ?t)%list with (newline :: t).
  rewrite splitChars_app by exact Hl. cbn [fmap list_fmap app]. rewrite ofChars_chars. f_equal. exact IH.
Qed.

(** What a result may hold for its report to be read line by line: the names are those
    that the phases have, and the texts of others hold no newline. *)
Record readable (r : benchmarkResult spec_float) : Prop := {
  readable_key : clean (bKey r);
  readable_mode : clean (bMode r);
  readable_phases : Forall (λ p, Name p ∈ ["origin direct"; "slizen cold"; "slizen observe"; "slizen hot"]%string) (bPhases r);
  readable_notes : Forall clean (bNotes r)
}.

Lemma clean_benchmarkLines r : readable r → Forall clean (benchmarkLines r).
Proof.
  intros [Hk Hm Hp Hn]. unfold benchmarkLines. rewrite !Forall_app, !Forall_fmap. split_and!.
  - unfold fmtFloat, formatFixed, fixed64. repeat constructor; eauto 8 with clean.
  - eapply Forall_impl; [exact Hp|]. intros p Hin. unfold phaseRow, padFloat, padLeft, padRight, fmtFloat, formatFixed, fixed64.
    assert (clean (Name p)) by (rewrite !elem_of_cons, elem_of_nil in Hin; destruct_or? Hin; try rewrite Hin; auto with clean; done).
    cbn [compose]. eauto 25 with clean.
  - unfold fmtFloat, formatFixed, fixed64. repeat constructor; eauto 8 with clean.
  - eapply Forall_impl; [exact Hn|]. intros n Hc. cbn [compose]. auto with clean.
Qed.

(** A line of the report that starts like one of the figures is that figure: the rows
    start with the name of a phase, the notes with their tag, the rest with its label. *)
Lemma row_head r p : readable r → p ∈ bPhases r → ∃ c t, phaseRow p = String c t ∧ (c = "o"%char ∨ c = "s"%char).
Proof.
  intros Hr Hin. pose proof (readable_phases _ Hr) as Hn. rewrite Forall_forall in Hn. specialize (Hn p Hin). unfold phaseRow, padRight.
  rewrite !elem_of_cons, elem_of_nil in Hn. destruct_or? Hn; try done; rewrite Hn; do 2 eexists; (split; [reflexivity|]); auto.
Qed.

(** The figures of a result, as lines. *)
Definition figures (r : benchmarkResult spec_float) : list string :=
  ["upstream_get_reduction: " ++ fixed 1 (bUpstreamGetReduction r) ++ "%"; "cache_hit_ratio: " ++ fixed 1 (bCacheHitRatio r) ++ "%";
   "evidence_valid: " ++ fmtBool (bEvidenceValid r); "proved_reduction: " ++ fmtBool (bProvedReduction r)]%string.

(** How every other line starts. *)
Definition otherHeads : list ascii := ["S"; "K"; "M"; "C"; "D"; "P"; "R"; "o"; "s"; "n"]%char.

(** The lines that start otherwise are the figures. *)
Lemma figure_line r l :
  readable r → l ∈ benchmarkLines r →
  l ∈ figures r ∨
  match l with
  | EmptyString => True
  | String c _ => c ∈ otherHeads
  end.
Proof.
  intros Hr Hl. unfold benchmarkLines in Hl. rewrite !elem_of_app, !list_elem_of_fmap in Hl.
  destruct Hl as [Hl|[(p & -> & Hp)|[Hl|(n & -> & Hn)]]].
  - right. rewrite !elem_of_cons, elem_of_nil in Hl. destruct_or? Hl; subst; try done; by apply (bool_decide_unpack _).
  - right. destruct (row_head r p Hr Hp) as (c & t & -> & [-> | ->]); by apply (bool_decide_unpack _).
  - rewrite !elem_of_cons, elem_of_nil in Hl. destruct Hl as [->|[->|[->|[->|[->|[->|[]]]]]]]; [right; done|right; by apply (bool_decide_unpack _)|left; unfold figures; rewrite !elem_of_cons; auto 10..].
  - right. by apply (bool_decide_unpack _).
Qed.

Lemma printed_lines r l : readable r → l ∈ Split (printBenchmarkText r) newline ↔ l ∈ benchmarkLines r ∨ l = EmptyString.
Proof.
  intros Hr. unfold printBenchmarkText. rewrite text_lines by (by apply clean_benchmarkLines).
  by rewrite elem_of_app, list_elem_of_singleton.
Qed.

Lemma figures_printed r l : readable r → l ∈ figures r → l ∈ Split (printBenchmarkText r) newline.
Proof.
  intros Hr Hl. apply printed_lines; [done|]. left. unfold benchmarkLines. rewrite !elem_of_app. right. right. left.
  do 2 apply list_elem_of_further. exact Hl.
Qed.

Lemma printed_figure r c t :
  readable r → String c t ∈ Split (printBenchmarkText r) newline → c ∉ otherHeads → String c t ∈ figures r.
Proof.
  intros Hr Hc Hn. apply printed_lines in Hc as [Hc|Hc]; [|done|done]. by destruct (figure_line r _ Hr Hc).
Qed.

Lemma label_inj p x y : (p ++ x ++ "%")%string = (p ++ y ++ "%")%string → x = y.
Proof.
  intros Heq. apply (f_equal chars) in Heq. rewrite !chars_app in Heq. apply app_inv_head, app_inv_tail in Heq.
  by rewrite <-(ofChars_chars x), Heq, ofChars_chars.
Qed.

End report.

Section claims.
Import gostd gotext gofmt benchmark benchmarkrun report.

(** C38. The text report of the hot key benchmark says what the result says: read line by
    line, [proved_reduction: true] and [evidence_valid: true] occur exactly when the
    result has proved the reduction and when its evidence is valid, and the one figure
    printed for the reduction is a decimal of one place that is at most half a unit of
    that place away from the exact value of the float; for results whose free texts (the
    key, the mode, the notes) hold no newline. *)
Theorem hot_report_faithful (r : benchmarkResult spec_float) :
  readable r →
  let lines := Split (printBenchmarkText r) newline in
  ("proved_reduction: true"%string ∈ lines ↔ bProvedReduction r = true) ∧
  ("evidence_valid: true"%string ∈ lines ↔ bEvidenceValid r = true) ∧
  (∃ x, ("upstream_get_reduction: " ++ x ++ "%")%string ∈ lines) ∧
  (∀ x s m e, ("upstream_get_reduction: " ++ x ++ "%")%string ∈ lines → bUpstreamGetReduction r = S754_finite s m e →
    ∃ v, readFixed x = Some (s, v, 1%nat) ∧
      2 * Z.abs (Z.pos m * 10 * 2 ^ Z.max 0 e - v * 2 ^ Z.max 0 (- e)) <= 2 ^ Z.max 0 (- e)).
Proof.
  intros Hr lines. split_and!.
  - split; intros Hp.
    + apply printed_figure in Hp; [|done|by apply (bool_decide_unpack _)]. unfold figures in Hp.
      rewrite !elem_of_cons, elem_of_nil in Hp. destruct Hp as [Hp|[Hp|[Hp|[Hp|[]]]]]; [discriminate..|].
      by destruct (bProvedReduction r).
    + apply figures_printed; [done|]. unfold figures. rewrite Hp. do 3 apply list_elem_of_further. apply list_elem_of_here.
  - split; intros Hp.
    + apply printed_figure in Hp; [|done|by apply (bool_decide_unpack _)]. unfold figures in Hp.
      rewrite !elem_of_cons, elem_of_nil in Hp. destruct Hp as [Hp|[Hp|[Hp|[Hp|[]]]]]; [discriminate..| |discriminate].
      by destruct (bEvidenceValid r).
    + apply figures_printed; [done|]. unfold figures. rewrite Hp. do 2 apply list_elem_of_further. apply list_elem_of_here.
  - eexists. apply figures_printed; [done|]. apply list_elem_of_here.
  - intros x s m e Hx He. apply printed_figure in Hx; [|done|by apply (bool_decide_unpack _)]. unfold figures in Hx.
    rewrite !elem_of_cons, elem_of_nil in Hx. destruct Hx as [Hx|[Hx|[Hx|[Hx|[]]]]]; [|discriminate..].
    apply (label_inj "upstream_get_reduction: ") in Hx as ->. rewrite He.
    destruct (fixed_reads 1 s m e) as (v & Hv & _ & Hn). by exists v.
Qed.

End claims.

(** A report: the reduction is 100 * (1 - 1/30), printed with one place. *)
Module reportrun.
Import gostd gotext gofmt benchmark benchmarkrun report binary64.

Definition samplePhase (name : string) (gets : Z) (ratio : spec_float) : benchmarkPhase spec_float :=
  let ms := div (ofZ 5) (ofZ 4) in
  mkPhase name "127.0.0.1:6379" 30 30 "requests" 30 0 0 0 0 0 0 (ofZ 1) (ofZ 30) ms ms ms None None None None None
    gets "info_commandstats" "run" gets 29 1 0 0 1 ratio [].

Definition sampleStatus : statusSnapshot := mkStatusSnapshot "1.0.0" "abc" "cache" "plain" "1s" 0 0 0 0 0 0 0 0 0 0 0 0 0 0 0.

Definition sample : benchmarkResult spec_float :=
  mkBenchmark "Slizen Hot Key Benchmark" "product:1" 2 (ofZ 1) (ofZ 1) 30 "cache" "plain" "t0" "t1"
    [samplePhase "origin direct" 30 (ofZ 0); samplePhase "slizen hot" 1 (div (ofZ 2900) (ofZ 30))]
    (mul (ofZ 100) (sub (ofZ 1) (div (ofZ 1) (ofZ 30)))) (div (ofZ 2900) (ofZ 30)) true true
    ["results describe this run only"%string] sampleStatus sampleStatus
    (mkVersions "dev" "1.0.0" "abc" "redis 7.2.4" "go1.22" "linux" "amd64").

Lemma sample_readable : readable sample.
Proof. split; by apply (bool_decide_unpack _); vm_compute. Qed.

Definition sampleLines : list string := Split (printBenchmarkText sample) newline.
End reportrun.

Lemma hot_report_faithful_witness :
  report.readable reportrun.sample ∧
  "proved_reduction: true"%string ∈ reportrun.sampleLines ∧
  "upstream_get_reduction: 96.7%"%string ∈ reportrun.sampleLines.
Proof.
  split; [exact reportrun.sample_readable|].
  destruct (hot_report_faithful reportrun.sample reportrun.sample_readable) as (Hp & _ & _ & _).
  split; [apply Hp; vm_compute; reflexivity|]. apply (bool_decide_unpack _). vm_compute. exact I.
Defined.
