(* ===== verification/Demo.v ===== *)
(** * cmd/slizenctl: the black-friday demo

    [runBlackFridayDemo] of main.go: the key is seeded, then workers read it without
    pause until the context of the demo is done, while the main goroutine prints a row
    every second and, when the context is done and all workers have returned, a
    summary. The goroutines interleave freely; the environment decides when the context
    expires, when the ticker fires, how each GET ends and what the admin API answers.
    [rowText] and [summaryText] are the lines written for a row and for the summary. *)
From stdpp Require Import prelude gmap strings list relations.
From Stdlib Require Import ZArith Lia SpecFloat.
From S2P Require Import Prelude Float64 GoStd GoTime GoJSON GoJSONValue GoFmt Ctl.
Local Open Scope Z_scope.

Module demo.
Import gostd gotime gojson gojsonvalue gofmt ctl.

(** A worker: at the head of its loop, in the GET, before one of the two additions,
    returned. *)
Inductive worker := WSelect | WGet | WAddFailure | WAddTotal | WReturned.
#[global] Instance worker_eq_dec : EqDecision worker.
Proof. solve_decision. Defined.

Section demo.
Context {F : Type} `{Float64 F} `{DecimalFloat F}.

Record row := mkRow {
  rSince : Duration;
  rRps : Z;
  rState : string;
  rCached : bool;
  rHits : F;
  rMisses : F;
  rUpstream : F;
  rCoalesced : F
}.

Record summary := mkSummary { sTotal : Z; sFailures : Z; sElapsed : string; sHitRatio : F }.

(** The main goroutine: at its select, between the load of the total and the row,
    waiting for the workers, before it asks for the status, before each of the two loads
    of the summary, returned. *)
Inductive main :=
  | MSelect
  | MRow (current : Z)
  | MWait
  | MStatus
  | MTotal (status : list (string * any F))
  | MFailures (status : list (string * any F)) (total : Z)
  | MReturned.

(** [oks] and [errs] are auxiliary variables: how many GETs succeeded and failed. *)
Record state := mkState {
  done : bool;
  total : Z;
  failures : Z;
  previous : Z;
  rows : list row;
  result : option summary;
  pc : main;
  workers : list worker;
  oks : Z;
  errs : Z
}.

(** What happens next: the context expires, the ticker is chosen, a goroutine goes on;
    a GET ends well or not; the admin API is asked. *)
Inductive event :=
  | EExpire
  | ETick
  | EMain (w : web) (since : Duration)
  | EWorker (i : nat) (ok : bool).

Definition start (n : Z) : state :=
  mkState false 0 0 0 [] None MSelect (replicate (Z.to_nat n) WSelect) 0 0.

Definition set_pc (s : state) (p : main) : state :=
  mkState (done s) (total s) (failures s) (previous s) (rows s) (result s) p (workers s) (oks s) (errs s).

(** The row of a tick. *)
Definition makeRow (w : web) (adminURL : string) (since : Duration) (rps : Z) : row :=
  let status := (fetchStatus (F := F) w adminURL).1 in
  let '(st, cached) := fetchKeyState (F := F) w adminURL in
  mkRow since rps st cached (float64Number (field "cache_hits" status)) (float64Number (field "cache_misses" status))
    (float64Number (field "upstream_requests" status)) (float64Number (field "coalesced_requests" status)).

Definition stepWorker (s : state) (i : nat) (ok : bool) : option state :=
  let at_ p := mkState (done s) (total s) (failures s) (previous s) (rows s) (result s) (pc s) (<[i := p]> (workers s)) in
  match workers s !! i with
  | Some WSelect => Some (if done s then at_ WReturned (oks s) (errs s) else at_ WGet (oks s) (errs s))
  | Some WGet => Some (if ok then at_ WAddTotal (oks s + 1) (errs s) else at_ WAddFailure (oks s) (errs s + 1))
  | Some WAddFailure =>
      Some (mkState (done s) (total s) (failures s +u 1) (previous s) (rows s) (result s) (pc s)
              (<[i := WSelect]> (workers s)) (oks s) (errs s))
  | Some WAddTotal =>
      Some (mkState (done s) (total s +u 1) (failures s) (previous s) (rows s) (result s) (pc s)
              (<[i := WSelect]> (workers s)) (oks s) (errs s))
  | Some WReturned | None => None
  end.

(** The main goroutine; at its select it takes the end of the context here, the tick is
    an event of its own. *)
Definition stepMain (adminURL : string) (s : state) (w : web) (since : Duration) : option state :=
  match pc s with
  | MSelect => if done s then Some (set_pc s MWait) else None
  | MRow current =>
      let rps := u64 (current - previous s) in
      Some (mkState (done s) (total s) (failures s) current (rows s ++ [makeRow w adminURL since rps]) (result s)
              MSelect (workers s) (oks s) (errs s))
  | MWait => if bool_decide (Forall (eq WReturned) (workers s)) then Some (set_pc s MStatus) else None
  | MStatus => Some (set_pc s (MTotal (fetchStatus w adminURL).1))
  | MTotal status => Some (set_pc s (MFailures status (total s)))
  | MFailures status t =>
      Some (mkState (done s) (total s) (failures s) (previous s) (rows s)
              (Some (mkSummary t (failures s) (DurationString (Round since Millisecond)) (hitRatio status)))
              MReturned (workers s) (oks s) (errs s))
  | MReturned => None
  end.

Definition step (adminURL : string) (s : state) (e : event) : option state :=
  match e with
  | EExpire => if done s then None
               else Some (mkState true (total s) (failures s) (previous s) (rows s) (result s) (pc s) (workers s) (oks s) (errs s))
  | ETick => match pc s with MSelect => Some (set_pc s (MRow (total s))) | _ => None end
  | EMain w since => stepMain adminURL s w since
  | EWorker i ok => stepWorker s i ok
  end.

(** ** What is written *)

Definition headerText (key : string) (n : Z) (duration : Duration) : list string :=
  ["black friday demo"; "key: " ++ key; "workers: " ++ Itoa n; "duration: " ++ DurationString duration; EmptyString;
   "second rps state cached hits misses upstream coalesced"]%string.

Definition rowText `{FixedFormat F} (r : row) : string :=
  (padFloat 6 0 (seconds (F := F) (rSince r)) ++ " " ++ padLeft 3 (Itoa (rRps r)) ++ " " ++ padLeft 5 (rState r) ++ " " ++
   padLeft 6 (fmtBool (rCached r)) ++ " " ++ padFloat 4 0 (rHits r) ++ " " ++ padFloat 6 0 (rMisses r) ++ " " ++
   padFloat 8 0 (rUpstream r) ++ " " ++ padFloat 9 0 (rCoalesced r))%string.

Definition summaryText `{FixedFormat F} (r : summary) : list string :=
  [EmptyString; "summary total=" ++ Itoa (sTotal r) ++ " failures=" ++ Itoa (sFailures r) ++ " elapsed=" ++ sElapsed r ++
   " hit_ratio=" ++ fmtFloat 2 (sHitRatio r)]%string.

(** The whole command: the key is seeded first. *)
Definition beginDemo (seeded : option string) (n : Z) : res string state :=
  match seeded with
  | Some err => Fail ("seed key through Slizen: " ++ err)%string
  | None => Ok (start n)
  end.

Inductive next (adminURL : string) : state → state → Prop :=
  | next_event s e s' : step adminURL s e = Some s' → next adminURL s s'.

Definition reachable (adminURL : string) (n : Z) : state → Prop := rtc (next adminURL) (start n).

(** ** The counters *)

Definition countOf (p : worker) (ws : list worker) : Z := Z.of_nat (length (filter (eq p) ws)).

(** The main goroutine is in its loop; it is past [wg.Wait]. *)
Definition looping (s : state) : bool := match pc s with MSelect | MRow _ => true | _ => false end.
Definition waited (s : state) : bool :=
  match pc s with MStatus | MTotal _ | MFailures _ _ | MReturned => true | _ => false end.

Record inv (s : state) : Prop := {
  inv_total : total s = u64 (oks s - countOf WAddTotal (workers s));
  inv_failures : failures s = u64 (errs s - countOf WAddFailure (workers s));
  inv_rows : previous s = u64 (foldr Z.add 0 (rRps <$> rows s));
  inv_row : ∀ t, pc s = MRow t → in_u64 t;
  inv_done : looping s = false → done s = true;
  inv_wait : waited s = true → Forall (eq WReturned) (workers s);
  inv_loaded : ∀ st t, pc s = MFailures st t → t = total s;
  inv_result : pc s = MReturned → ∃ r, result s = Some r ∧ sTotal r = total s ∧ sFailures r = failures s
}.

Definition isAt (p q : worker) : Z := if decide (p = q) then 1 else 0.

Lemma countOf_cons p q ws : countOf p (q :: ws) = isAt p q + countOf p ws.
Proof. unfold countOf, isAt. rewrite filter_cons. case_decide; simpl; lia. Qed.

Lemma countOf_insert p ws i q q' :
  ws !! i = Some q → countOf p (<[i := q']> ws) = countOf p ws - isAt p q + isAt p q'.
Proof.
  revert i. induction ws as [|x ws IH]; intros [|i] Hi; simplify_eq/=; rewrite !countOf_cons; [lia|].
  rewrite (IH i) by done. lia.
Qed.

Lemma countOf_returned p ws : p ≠ WReturned → Forall (eq WReturned) ws → countOf p ws = 0.
Proof.
  intros Hp. induction 1 as [|x ws <- _ IH]; [done|]. rewrite countOf_cons, IH. unfold isAt. by rewrite decide_False.
Qed.

Lemma u64_add_l n k : u64 (u64 n + k) = u64 (n + k).
Proof. unfold u64. by rewrite Zplus_mod_idemp_l. Qed.

(** No worker that has returned takes a step, so the workers of a main goroutine past
    its wait stay as they are. *)
Lemma stepWorker_live s i ok s' : stepWorker s i ok = Some s' → ¬ Forall (eq WReturned) (workers s).
Proof.
  unfold stepWorker. intros Hs Hf. destruct (workers s !! i) as [p|] eqn:Hi; [|done].
  pose proof (Forall_lookup_1 _ _ _ _ Hf Hi) as Hp. simpl in Hp. by subst p.
Qed.

(** What a step of a worker does to the counters; the rest is untouched. *)
Lemma stepWorker_spec s i ok s' :
  stepWorker s i ok = Some s' → total s = u64 (oks s - countOf WAddTotal (workers s)) →
  failures s = u64 (errs s - countOf WAddFailure (workers s)) →
  total s' = u64 (oks s' - countOf WAddTotal (workers s')) ∧
  failures s' = u64 (errs s' - countOf WAddFailure (workers s')) ∧
  pc s' = pc s ∧ done s' = done s ∧ previous s' = previous s ∧ rows s' = rows s ∧ result s' = result s.
Proof.
  unfold stepWorker. intros Hs Ht Hf. destruct (workers s !! i) as [p|] eqn:Hi; [|done].
  destruct p; simplify_eq; [destruct (done s)|destruct ok|..]; cbn [total failures oks errs workers pc done previous rows result];
    rewrite ?(countOf_insert _ _ _ _ _ Hi), ?Ht, ?Hf, ?u64_add_l; unfold isAt; split_and!; try done; f_equal; repeat case_decide; try done; lia.
Qed.

Lemma rps_snoc l x : foldr Z.add 0 (l ++ [x]) = foldr Z.add 0 l + x.
Proof. induction l as [|y l IH]; simpl; lia. Qed.

Lemma u64_next n t : in_u64 t → t = u64 (n + u64 (t - u64 n)).
Proof.
  intros Ht. unfold u64. rewrite Zplus_mod_idemp_r. pose proof (Z.div_mod n two64 ltac:(unfold two64; lia)) as Hd.
  replace (n + (t - n mod two64)) with (t + (n / two64) * two64) by lia. rewrite Z_mod_plus_full. symmetry. by apply u64_id.
Qed.

Lemma demo_stepMain_inv adminURL s w since s' : inv s → stepMain adminURL s w since = Some s' → inv s'.
Proof.
  intros [Ht Hf Hr Hu Hd Hw Hl Hre] Hs. unfold stepMain in Hs. unfold looping, waited in *.
  destruct (pc s) as [|t| | |st|st t|] eqn:Hp; [| | | | | |done].
  - destruct (done s) eqn:Hdn; [|done]. simplify_eq. by split.
  - simplify_eq. specialize (Hu t eq_refl). split; simpl; try done. rewrite fmap_app. cbn [fmap list_fmap].
    rewrite rps_snoc, Hr. unfold makeRow. destruct (fetchKeyState w adminURL). simpl. by apply u64_next.
  - case_bool_decide; simplify_eq. split; simpl; auto; done.
  - simplify_eq. split; simpl; auto; done.
  - simplify_eq. split; simpl; auto; try done. by intros ? ? [= <- <-].
  - simplify_eq. specialize (Hl _ _ eq_refl). split; simpl; auto; try done. intros _. eexists. split; [done|]. by rewrite Hl.
Qed.

Lemma demo_step_inv adminURL s e s' : inv s → step adminURL s e = Some s' → inv s'.
Proof.
  intros HI Hs. destruct e as [| |w since|i ok]; simpl in Hs.
  - destruct (done s); simplify_eq. destruct HI. by split.
  - destruct (pc s) eqn:Hp; simplify_eq. destruct HI as [Ht ? ? ? ? ? ? ?]. split; simpl; try done.
    intros t [= <-]. rewrite Ht. apply u64_range.
  - by eapply demo_stepMain_inv.
  - pose proof (stepWorker_live _ _ _ _ Hs) as Hlive.
    destruct (stepWorker_spec _ _ _ _ Hs (inv_total _ HI) (inv_failures _ HI)) as (? & ? & Hp & Hd & Hv & Hr & Hre).
    assert (Hnw : waited s = false) by (destruct (waited s) eqn:E; [by destruct Hlive; apply (inv_wait _ HI)|done]).
    destruct HI. unfold looping, waited in *. split; rewrite ?Hp, ?Hd, ?Hv, ?Hr, ?Hre; try done;
      unfold looping, waited; rewrite ?Hp; try done; [by rewrite Hnw| |]; intros; by rewrite H1 in Hnw || destruct (pc s).
Qed.

Lemma demo_start_inv n : inv (start n).
Proof.
  assert (Hc : ∀ p k, p ≠ WSelect → countOf p (replicate k WSelect) = 0).
  { intros p k Hp. induction k as [|k IH]; [done|]. cbn [replicate]. rewrite countOf_cons, IH. unfold isAt. by rewrite decide_False. }
  split; simpl; try (rewrite Hc by done); try done.
Qed.

Lemma demo_inv adminURL n s : reachable adminURL n s → inv s.
Proof.
  intros Hr. eapply (rtc_ind_r inv); [apply demo_start_inv| |exact Hr].
  intros x y _ [x' e y' He] IH. by eapply demo_step_inv.
Qed.

(** ** The end can always be reached *)

Definition weight (p : worker) : nat :=
  match p with WSelect => 1 | WGet => 3 | WAddFailure | WAddTotal => 2 | WReturned => 0 end.

Definition weights (ws : list worker) : nat := sum_list (weight <$> ws).

Lemma demo_weights_insert ws i p q : ws !! i = Some p → (weights (<[i := q]> ws) + weight p = weights ws + weight q)%nat.
Proof.
  unfold weights. revert i. induction ws as [|x ws IH]; intros [|i] Hi; simplify_eq/=; [lia|]. specialize (IH i Hi). lia.
Qed.

(** Once the context is done, a worker that has not returned comes nearer to it. *)
Lemma worker_progress s i p :
  done s = true → workers s !! i = Some p → p ≠ WReturned →
  ∃ s', stepWorker s i true = Some s' ∧ done s' = true ∧ pc s' = pc s ∧ (weights (workers s') < weights (workers s))%nat.
Proof.
  intros Hd Hi Hp. unfold stepWorker. rewrite Hi, Hd.
  destruct p; try done; eexists; (split; [done|]); cbn [done pc workers]; (split; [done|]); (split; [done|]);
    match goal with |- context [<[i := ?q]> _] => pose proof (demo_weights_insert _ _ _ q Hi) as Hw end; simpl in Hw; lia.
Qed.

Lemma workers_finish adminURL s :
  done s = true → ∃ s', rtc (next adminURL) s s' ∧ done s' = true ∧ pc s' = pc s ∧ Forall (eq WReturned) (workers s').
Proof.
  remember (weights (workers s)) as n eqn:Hn. revert s Hn. induction n as [n IH] using lt_wf_ind. intros s -> Hd.
  destruct (decide (Forall (eq WReturned) (workers s))) as [Hf|Hf]; [by exists s|].
  apply not_Forall_Exists in Hf; [|intros x; apply _]. apply Exists_exists in Hf as (p & Hin & Hp).
  apply list_elem_of_lookup in Hin as [i Hi].
  destruct (worker_progress s i p Hd Hi) as (s1 & Hs1 & Hd1 & Hp1 & Hlt); [by intros ->|].
  destruct (IH _ Hlt s1 eq_refl Hd1) as (s2 & Hr & Hd2 & Hp2 & Hf2). exists s2.
  split; [eapply rtc_l; [by apply (next_event _ _ (EWorker i true))|done]|]. by rewrite Hp2.
Qed.

(** A web that answers nothing will do. *)
Definition noWeb : web := mkWeb (λ _, Fail "down") (λ _ _, Fail "down").

(** How far the main goroutine is from its return once the workers are gone. *)
Definition mainLeft (p : main) : nat :=
  match p with MRow _ => 6 | MSelect => 5 | MWait => 4 | MStatus => 3 | MTotal _ => 2 | MFailures _ _ => 1 | MReturned => 0 end.

Lemma main_progress adminURL s :
  done s = true → Forall (eq WReturned) (workers s) → pc s ≠ MReturned →
  ∃ s', step adminURL s (EMain noWeb 0) = Some s' ∧ done s' = true ∧ workers s' = workers s ∧
    (mainLeft (pc s') < mainLeft (pc s))%nat.
Proof.
  intros Hd Hw Hp. simpl. unfold stepMain. rewrite Hd, bool_decide_true by done.
  destruct (pc s); try done; (eexists; split; [done|]; simpl; split_and!; [done..|lia]).
Qed.

Lemma main_finish adminURL s :
  done s = true → Forall (eq WReturned) (workers s) → ∃ s', rtc (next adminURL) s s' ∧ pc s' = MReturned.
Proof.
  remember (mainLeft (pc s)) as n eqn:Hn. revert s Hn. induction n as [n IH] using lt_wf_ind. intros s -> Hd Hw.
  destruct (decide (mainLeft (pc s) = 0%nat)) as [Hz|Hz]; [exists s; split; [done|by destruct (pc s)]|].
  destruct (main_progress adminURL s Hd Hw) as (s1 & Hs & Hd1 & Hw1 & Hlt); [intros E; by rewrite E in Hz|].
  destruct (IH _ Hlt s1 eq_refl Hd1) as (s2 & Hr & Hs2); [by rewrite Hw1|]. exists s2. split; [|done].
  eapply rtc_l; [by eapply next_event|done].
Qed.

Lemma demo_finish adminURL s : ∃ s', rtc (next adminURL) s s' ∧ pc s' = MReturned.
Proof.
  assert (Hdone : ∀ s, done s = true → ∃ s', rtc (next adminURL) s s' ∧ pc s' = MReturned).
  { intros x Hx. destruct (workers_finish adminURL x Hx) as (y & Hr & Hy & _ & Hw).
    destruct (main_finish adminURL y Hy Hw) as (z & Hrz & Hz). exists z. split; [by etrans|done]. }
  destruct (done s) eqn:Hd; [by apply Hdone|].
  destruct (Hdone (mkState true (total s) (failures s) (previous s) (rows s) (result s) (pc s) (workers s) (oks s) (errs s)) eq_refl)
    as (y & Hr & Hy).
  exists y. split; [|done]. eapply rtc_l; [apply (next_event _ _ EExpire); simpl; by rewrite Hd|exact Hr].
Qed.

End demo.
Arguments state : clear implicits.
Arguments row : clear implicits.
Arguments summary : clear implicits.
End demo.

Section claims.
Import gostd gotime gojson gojsonvalue gofmt ctl demo.
Context {F : Type} `{Float64 F} `{DecimalFloat F}.


End claims.

Module demorun.
Import gostd gotime gojson gojsonvalue gofmt ctl demo.
Import binary64 decimal64.

(** Two readers: three GETs succeed, one fails, two rows are printed; one GET ends well
    after the context is done. *)
Definition events : list event :=
  [EWorker 0%nat true; EWorker 1%nat true; EWorker 0%nat true; EWorker 1%nat false; EWorker 0%nat true; ETick; EMain noWeb 1000000000;
   EWorker 1%nat true; EWorker 0%nat true; EWorker 0%nat true; EWorker 0%nat true; ETick; EMain noWeb 2000000000;
   EWorker 1%nat true; EExpire; EWorker 1%nat true; EMain noWeb 0; EWorker 1%nat true; EWorker 1%nat true; EWorker 0%nat true;
   EMain noWeb 0; EMain noWeb 0; EMain noWeb 0; EMain noWeb 3000000000].

Definition runEvents (adminURL : string) : list event → state spec_float → option (state spec_float) :=
  fix go es s := match es with
                 | [] => Some s
                 | e :: es' => match step adminURL s e with Some s' => go es' s' | None => None end
                 end.

Lemma runEvents_rtc adminURL es s s' : runEvents adminURL es s = Some s' → rtc (next adminURL) s s'.
Proof.
  revert s. induction es as [|e es IH]; intros s Hs; simpl in Hs; [by simplify_eq|].
  destruct (step adminURL s e) as [t|] eqn:He; [|done]. eapply rtc_l; [by eapply next_event|by apply IH].
Qed.

Definition final : state spec_float := match runEvents "http://127.0.0.1:9090" events (start 2) with Some s => s | None => start 2 end.

(** What it prints: nothing answers on the admin address. *)
Example final_printed :
  (rowText <$> rows final, match result final with Some r => summaryText r | None => [] end)
  = (["     1   1 unknown  false    0      0        0         0"; "     2   1 unknown  false    0      0        0         0"],
     [EmptyString; "summary total=3 failures=1 elapsed=3s hit_ratio=0.00"])%string.
Proof. vm_compute. reflexivity. Qed.

Lemma final_reachable : reachable "http://127.0.0.1:9090" 2 final.
Proof. apply (runEvents_rtc _ events). vm_compute. reflexivity. Qed.
End demorun.

